(* ===== verification/_CoqProject ===== *)
-Q . S2P
Prelude.v
Diag.v
Tokens.v
Lexer.v
LexerFacts.v
LexerProps.v
LexerClaims.v
Unescape.v
SymbolTable.v
AST.v
ASTClone.v
ParserCore.v
ParserType.v
ParserExpr.v
ParserDecl.v
ParserStmt.v
Parser.v
ParserSource.v
ParserWp.v
ParserExprEnds.v
ParserDeclEnds.v
ParserEnds.v
ParserClaims.v
HIRType.v
HIRModule.v
MIR.v
MIRClone.v
Worklist.v
MIRModule.v
MIRFacts.v
SimplifyCFG.v
SimplifyCFGProps.v
BypassProps.v
Dominance.v
DominanceTree.v
DominanceLoop.v
DominanceProps.v
DominanceClaims.v
MIRUses.v
Rewire.v
ConstFold.v
ConstFoldProps.v
Transform.v
ConstFoldSafe.v
ConstFoldModule.v
ConstFoldKept.v
ConstFoldClaims.v
DCE.v
DCEProps.v
DCESweep.v
DCEModule.v
Mem2Reg.v
Mem2RegFrontier.v
Mem2RegPhis.v
Mem2RegSubst.v
Mem2RegRename.v
Mem2RegDFS.v
Mem2RegFind.v
Mem2RegClaims.v
Mem2RegExamples.v
Semantics.v
JumpThreading.v
JumpThreadingProps.v
JumpThreadingSafe.v
JumpThreadingSim.v
JumpThreadingClaims.v
DefUse.v
SROA.v
SROAProps.v
SROAClaims.v
DropElision.v
DropElisionProps.v
DropElisionClaims.v
EscapeAnalysis.v
EscapeProps.v
EscapeClaims.v
PassManager.v
Verifier.v
VerifierProps.v
