(* ===== verification/Prelude.v ===== *)
(** * Moksha: a verification library of the compiler's core

    Moksha is a compiler in C++.  Its front end turns a source file into tokens ([Lexer]), a
    syntax tree ([Parser]) and, after checking against a symbol table, a high-level
    representation with interned types (HIR).  Lowering yields modules of functions made of
    basic blocks (MIR), on which an ordered list of passes runs before MLIR and LLVM take
    over.  A verifier checks the MIR after the passes.  This library models the parts that
    carry the compiler's own logic, in the shape of the code, and proves what makes each of
    them correct.

    ** The files and the code

    - [Prelude]: machine integers, enumerations, vectors used as sets, loops that may fail,
      the shared tactics and the hint database [moksha].
    - [Diag] models the diagnostics engine of [include/moksha/Support/Diagnostics.h] and
      [lib/support/diagnostics/Diagnostics.cpp]: a report is emitted when its builder is
      destroyed, and the engine keeps the messages and the number of errors.
    - [Tokens], [Lexer] model [lib/frontend/lexer/Lexer.cpp]: the state of the lexer is the
      cursor, the mode and the stack of open interpolations, and every scanning function is a
      definition.  [LexerFacts], [LexerProps] and [LexerClaims] hold the theory: the lexer is
      kept well-formed and always returns, operators are read by maximal munch, a plain file
      is lexed to its end, and where the code does not make progress.
    - [Unescape] models the decoding of string and template literals in
      [lib/frontend/parser/Parser.cpp].
    - [SymbolTable] models [lib/frontend/sema/SymbolTable.cpp]: a stack of scopes.
    - [AST] is the syntax tree of [include/moksha/AST] and [ASTClone] its [clone] methods.
    - [ParserCore], [ParserType], [ParserExpr], [ParserDecl], [ParserStmt] and [Parser] model
      [lib/frontend/parser/Parser.cpp] in a state and error monad, one definition for each
      production; the productions that call each other are a record, and [Parser] ties the
      knot.  [ParserSource] says what the parser expects of the lexer, as a class, and that
      the lexer keeps it.  [ParserWp] is a weakest precondition with a class of
      specifications, whose instances for the productions are there and in [ParserExprEnds],
      [ParserDeclEnds] and [ParserEnds], which puts them together for a file;
      [ParserClaims].
    - [HIRType], [HIRModule] model the types of [lib/middle/hir/HIRType.cpp], with their text
      and their profiles, and the interning getters of [HIRModule.cpp].
    - [MIR] is the object graph of the mid-level representation ([MIRInst.h], [MIRBlock.h],
      [MIRFunction.h], [MIRBlock.cpp], [MIRInst.cpp]); [MIRClone] the copies that the inliner
      makes; [MIRModule] the module with its functions, globals, constants and caches.
      [MIRFacts], [MIRUses], [Rewire] and [Transform] are the theory that the passes share:
      reading through updates, operands, the invariant [fn_ok] of a function, what a new
      terminator does to it, and what replacing values, inserting and erasing instructions
      does to it.
    - [Semantics] runs a function on a machine, which is a class: its values, what its
      instructions compute and what they do to its state.  A pass that keeps the outcomes of
      a function keeps them on every machine.
    - [Worklist] is the search with a worklist that several components make.
    - [SimplifyCFG] models [SimplifyCFGPass.cpp], with [SimplifyCFGProps] and [BypassProps].
    - [Dominance] models [lib/middle/analysis/MIRDominance.cpp]; [DominanceTree],
      [DominanceLoop], [DominanceProps] and [DominanceClaims] prove that it computes dominance.
    - [ConstFold] models [ConstantFoldingPass.cpp], with [ConstFoldProps] on the arithmetic,
      [ConstFoldSafe] and [ConstFoldModule] on the invariant of functions and modules,
      [ConstFoldKept] on what a step leaves of a function and [ConstFoldClaims] on a run.
    - [DCE] models [DeadCodeEliminationPass.cpp], with [DCEProps] on the unreachable blocks,
      [DCESweep] on mark and sweep and [DCEModule] on modules.
    - [Mem2Reg] models [Mem2RegPass.cpp].  [Mem2RegFind] is about the allocations it
      promotes, [Mem2RegFrontier] about dominance frontiers, [Mem2RegPhis] about the phis it
      places and reaching definitions; [Mem2RegSubst], [Mem2RegRename] and [Mem2RegDFS] follow
      the renaming from one instruction to the whole tree, and the cleanup; [Mem2RegClaims]
      puts the phases together, and [Mem2RegExamples] runs the pass.
    - [JumpThreading] models [JumpThreadingPass.cpp].  [JumpThreadingProps] says what one
      threaded predecessor changes, [JumpThreadingSafe] that the invariant is kept,
      [JumpThreadingSim] that the run of the new function simulates that of the old one, and
      [JumpThreadingClaims] puts them together for a module and runs the pass.
    - [DefUse] is the table of the users of a value that several passes build.
    - [SROA] models [SROAPass.cpp], with [SROAProps] on a function and [SROAClaims] on a
      module.
    - [DropElision] models [DropElisionPass.cpp], with [DropElisionProps] on the data flow of
      moves and [DropElisionClaims] on the sweep.
    - [EscapeAnalysis] models [EscapeAnalysisPass.cpp], with [EscapeProps] on the walks and on
      the promotion of objects, and [EscapeClaims].
    - [PassManager] models [PassManager.cpp] and the interface [MIRPass]: what a pass promises
      is a class, the theorem on the manager is proved against it, and passes are instances.
    - [Verifier], [VerifierProps] model [lib/middle/mir/MIRVerifier.cpp] and show when it
      answers, and that it then decides validity.

    ** State, errors and objects

    A pointer is an address and an object is found in the heap of its class; reading through
    a dangling or null pointer finds nothing.  A function owns the heaps of its instructions
    and blocks, a module those of its functions, globals and constants, and one counter hands
    out the addresses.  A vector is a list; a hash table is a finite map.  Where the order in
    which the code iterates a hash table can be seen, the order is a parameter of the model
    ([iteration], [hash_set], [hash_phis]) that is assumed to be a permutation.  An integer is
    a [Z] with its wrap-around written out, and a C++ [double] a [spec_float].

    Recursion and loops without an evident bound take a fuel, and [None] is a run that did not
    end within it (or a step that the C++ leaves undefined, where the definition says so).  The
    parser tells the two apart, and says which of its crashes a run met ([Crash]); a check of
    the verifier is [None] when it reads through a null pointer.
    Each fuel that a definition chooses is proved sufficient: the blocks of the function bound
    the reverse post-order and the renaming, the square of their number the iteration of
    immediate dominators, the recorded successors the searches, the frontiers the placement
    of phis, and the length of the source the lexer and the parser.  The simplification loop
    of [SimplifyCFG] and two loops of the parser need not end, which are theorems; chains of casts, of loads and of types are
    followed with a fuel that the theorems quantify over or assume to be enough.

    ** What is shown

    - Front end: invariants and termination of the lexer, maximal munch, the round trip of
      string escapes, scoping of the symbol table, canonicity of interned types.
    - The parser never hangs, whatever errors it meets on the way, unless the file has one of
      the two words whose loops do not end: it reads the file to its end or crashes in one of
      four ways that the theorem lists.  The operators of one level associate to the left, and
      [new] without a type is dropped without a message.
    - Control flow: the healer records the edges of the terminators; bypassing a block keeps
      the paths; unreachable blocks are removed and no others; dominance, immediate
      dominators, the dominator tree and the SSA check mean what their names say.
    - Data flow: folding computes modulo 2^64; a run of it ends, or stops at an operation that
      C++ does not define, and erases only instructions that became constants of their types
      and branches on such constants; folding and dead code elimination keep the
      invariant of a module, so that nothing that is left refers to something destroyed; mark
      and sweep keeps exactly what the roots need; the promotion of memory to registers
      constructs SSA form, with phis in the iterated dominance frontiers and reaching
      definitions in the place of loads.
    - Jump threading leaves every function with the outcomes it had when the skipped blocks
      have the shape that it expects, and the pass manager composes what its passes promise.
    - Scalar replacement splits exactly the structs that are used only through the addresses
      of their fields and keeps the types of operands.
    - Drop elision erases only instructions that destroy a variable which was moved on every
      path from the entry, and calls that move it by their own argument; escape analysis decides what its definition of escaping says, and
      puts variables in the place of objects that do not escape, and of nothing else.
    - The verifier accepts exactly the valid functions when it reads no null pointer, and
      crashes otherwise.
    - Where the code does not do what it means to do, a theorem shows it, for all inputs of a
      kind or on a concrete one.

    ** Parameters

    The two UTF-8 functions of LLVM are parameters of the lexer, with the facts about them
    that its theorems use as hypotheses; the [FoldingSet] of LLVM is a list of nodes found by
    profile; the types of function arguments are a parameter of constant folding; the parser
    has the conversion of floating-point numbers, the order in which the host evaluates
    arguments and the value of an uninitialised member as parameters.  The names and borrow
    kinds of values that no heap of the model holds are parameters of the passes that read
    them.

    ** Not modelled

    The type checker, the generation of HIR, the lowering to MIR and the ownership and borrow
    checkers are not modelled; of the passes, inlining is
    not.  The MLIR and LLVM back ends, the run-time library and the driver are left out: they
    are calls into code that is not part of the repository, or not C++.  Printing and dumping are left
    out.  The semantics is that of one function on an abstract machine, and jump threading is the
    pass that is shown to keep it; the theorems about the other passes speak of the structure
    of functions and of the values that instructions refer to.  Three undefined reads are given
    a value: [isa<ConstantNull>] of a null pointer is false in constant folding and jump
    threading, the healer of [SimplifyCFG] passes over null targets, and an instruction that
    escape analysis has destroyed and meets again lets nothing escape. *)

From Stdlib Require Export ZArith Lia Ascii String.
From stdpp Require Export base tactics decidable option list gmap strings fin_maps.

#[global] Set Default Goal Selector "!".

(** The development's automation: [moksha] holds the lemmas that close the
    common side conditions of the components. *)
Create HintDb moksha discriminated.
#[export] Hint Constants Opaque : moksha.

(** ** Fixed-width integers

    A C++ [uint32_t], [unsigned], [uint64_t] or [size_t] is a [Z] kept in range
    by an explicit reduction, and [int64_t] is the two's complement reading. *)

Definition u16 (z : Z) : Z := (z `mod` 2 ^ 16)%Z.
Definition u32 (z : Z) : Z := (z `mod` 2 ^ 32)%Z.
Definition u64 (z : Z) : Z := (z `mod` 2 ^ 64)%Z.
Definition i64 (z : Z) : Z := ((z + 2 ^ 63) `mod` 2 ^ 64 - 2 ^ 63)%Z.

Lemma u32_small (z : Z) : (0 <= z < 2 ^ 32)%Z -> u32 z = z.
Proof. intros H. unfold u32. by apply Z.mod_small. Qed.

Lemma u64_small (z : Z) : (0 <= z < 2 ^ 64)%Z -> u64 z = z.
Proof. intros H. unfold u64. by apply Z.mod_small. Qed.

Lemma u64_range (z : Z) : (0 <= u64 z < 2 ^ 64)%Z.
Proof. unfold u64. apply Z.mod_pos_bound. lia. Qed.

Lemma i64_range (z : Z) : (- 2 ^ 63 <= i64 z < 2 ^ 63)%Z.
Proof. unfold i64. pose proof (Z.mod_pos_bound (z + 2 ^ 63) (2 ^ 64)). lia. Qed.

Lemma i64_small (z : Z) : (- 2 ^ 63 <= z < 2 ^ 63)%Z -> i64 z = z.
Proof. intros H. unfold i64. rewrite Z.mod_small; lia. Qed.

Lemma u64_i64 (z : Z) : u64 (i64 z) = u64 z.
Proof.
  unfold u64, i64. rewrite Zminus_mod_idemp_l. f_equal. lia.
Qed.

#[export] Hint Resolve u32_small u64_small i64_small : moksha.

(** ** Enumerations

    A C++ [enum class] is an inductive type with its enumerators in declaration
    order; [enum_code] is the value [static_cast<int>] gives. *)

Class Enum (A : Type) := {
  enum_all : list A;
  enum_code : A -> nat;
  enum_all_code : forall k, enum_all !! enum_code k = Some k;
}.

Section enum.
Context `{Enum A}.

#[export] Instance enum_code_inj : Inj (=) (=) (enum_code (A := A)).
Proof.
  intros k1 k2 E. pose proof (enum_all_code k1) as E1.
  pose proof (enum_all_code k2) as E2. congruence.
Qed.

#[export] Instance enum_eq_dec : EqDecision A | 50.
Proof.
  refine (fun k1 k2 => cast_if (decide (enum_code k1 = enum_code k2)));
    abstract (first [by apply (inj enum_code) | by intros ->]).
Defined.

Definition enum_eqb (k1 k2 : A) : bool := Nat.eqb (enum_code k1) (enum_code k2).

Lemma enum_eqb_eq (k1 k2 : A) : enum_eqb k1 k2 = true <-> k1 = k2.
Proof.
  unfold enum_eqb. rewrite Nat.eqb_eq. split; [apply (inj enum_code) | by intros ->].
Qed.

Lemma enum_eqb_neq (k1 k2 : A) : enum_eqb k1 k2 = false <-> k1 <> k2.
Proof. rewrite <- enum_eqb_eq. by destruct (enum_eqb k1 k2). Qed.

Lemma enum_eqb_refl (k : A) : enum_eqb k k = true.
Proof. by apply enum_eqb_eq. Qed.

Lemma enum_all_elem (k : A) : k ∈ enum_all (A := A).
Proof. apply list_elem_of_lookup. eexists. apply enum_all_code. Qed.

(** A property of every enumerator is decided by running through them. *)
Lemma enum_forallb (P : A -> bool) :
  forallb P enum_all = true -> forall k, P k = true.
Proof.
  intros F k. rewrite forallb_forall in F. apply F.
  apply list_elem_of_In, enum_all_elem.
Qed.
End enum.

#[export] Hint Resolve enum_eqb_refl enum_all_elem : moksha.

(** ** Sequences *)

(** [std::find] followed by [push_back] when absent: a vector used as an
    ordered set. *)
Definition add_unique {A} `{EqDecision A} (x : A) (l : list A) : list A :=
  if decide (x ∈ l) then l else l ++ [x].

(** The erase-remove idiom: [v.erase(std::remove(v.begin(), v.end(), x), v.end())]. *)
Definition erase_all {A} `{EqDecision A} (x : A) (l : list A) : list A :=
  filter (fun y => y <> x) l.

(** A loop over a list whose body may fail. *)
Fixpoint fold_some {A B} (f : A -> B -> option A) (l : list B) (a : A) : option A :=
  match l with
  | [] => Some a
  | x :: l => a ← f a x; fold_some f l a
  end.

(** Such a loop ends when its body succeeds in every state that it can meet. *)
Lemma fold_some_ind {A B} (f : A -> B -> option A) (I : list B -> A -> Prop) (l : list B) (a : A) :
  I [] a ->
  (forall pre x post a, l = pre ++ x :: post -> I pre a -> exists a', f a x = Some a' /\ I (pre ++ [x]) a') ->
  exists a', fold_some f l a = Some a' /\ I l a'.
Proof.
  intros I0 Step. cut (forall post pre a, l = pre ++ post -> I pre a ->
    exists a', fold_some f post a = Some a' /\ I l a').
  { intros H. by apply (H l []). }
  induction post as [| x post IH]; intros pre a0 E Ia; cbn [fold_some].
  - rewrite app_nil_r in E. subst. by exists a0.
  - destruct (Step pre x post a0 E Ia) as (a1 & -> & I1). apply (IH (pre ++ [x])); [| done].
    by rewrite <- app_assoc.
Qed.

Lemma fold_some_app {A B} (f : A -> B -> option A) (l k : list B) (a : A) :
  fold_some f (l ++ k) a = (a ← fold_some f l a; fold_some f k a).
Proof.
  revert a. induction l as [| x l IH]; intros a; cbn [app fold_some]; [done |].
  destruct (f a x); [apply IH | done].
Qed.

(** A loop in a loop is a loop over the pairs. *)
Lemma fold_some_nested {A B C} (g : B -> A -> C -> option A) (h : B -> list C) (l : list B) (a : A) :
  fold_some (fun a b => fold_some (g b) (h b) a) l a
  = fold_some (fun a '(b, c) => g b a c) (concat (map (fun b => map (fun c => (b, c)) (h b)) l)) a.
Proof.
  revert a. induction l as [| b l IH]; intros a; cbn [map concat fold_some]; [done |].
  rewrite fold_some_app.
  assert (E : forall k a, fold_some (fun a '(b, c) => g b a c) (map (fun c => (b, c)) k) a = fold_some (g b) k a).
  { induction k as [| c k IHk]; intros a0; cbn [map fold_some]; [done |]. destruct (g b a0 c); [apply IHk | done]. }
  rewrite E. destruct (fold_some (g b) (h b) a); [apply IH | done].
Qed.

Lemma filter_iff_in {A} (P Q : A -> Prop) `{forall x, Decision (P x)} `{forall x, Decision (Q x)}
    (l : list A) : (forall x, x ∈ l -> P x <-> Q x) -> filter P l = filter Q l.
Proof.
  induction l as [| y l IH]; intros Hl; [done |].
  assert (Hy : P y <-> Q y) by (apply Hl; left). rewrite !filter_cons, IH by (intros x Hx; apply Hl; by right).
  by destruct (decide (P y)), (decide (Q y)); try tauto.
Qed.

Lemma filter_full {A} (P : A -> Prop) `{forall x, Decision (P x)} (l : list A) :
  (forall x, x ∈ l -> P x) -> filter P l = l.
Proof.
  intros Hl. rewrite (filter_iff_in P (fun _ => True)) by (intros x Hx; split; auto).
  induction l as [| y l IH]; [done |]. rewrite filter_cons_True by done. f_equal. apply IH.
  intros x Hx. apply Hl. by right.
Qed.

Section sequences.
Context {A : Type} `{EqDecision A}.
Implicit Types (x y : A) (l : list A).

Lemma elem_of_add_unique x y l : y ∈ add_unique x l <-> y = x \/ y ∈ l.
Proof.
  unfold add_unique. case_decide as E.
  - split; [by right | by intros [-> | ?]].
  - rewrite elem_of_app, list_elem_of_singleton. tauto.
Qed.

Lemma NoDup_add_unique x l : NoDup l -> NoDup (add_unique x l).
Proof.
  intros N. unfold add_unique. case_decide; [done |].
  apply NoDup_app. split_and!; [done | | apply NoDup_singleton].
  intros y Hy. rewrite list_elem_of_singleton. by intros ->.
Qed.

Lemma add_unique_id x l : x ∈ l -> add_unique x l = l.
Proof. intros E. unfold add_unique. by rewrite decide_True. Qed.

Lemma elem_of_erase_all x y l : y ∈ erase_all x l <-> y <> x /\ y ∈ l.
Proof. unfold erase_all. by rewrite list_elem_of_filter. Qed.

Lemma NoDup_erase_all x l : NoDup l -> NoDup (erase_all x l).
Proof. apply NoDup_filter. Qed.

Lemma erase_all_id x l : x ∉ l -> erase_all x l = l.
Proof.
  intros N. unfold erase_all. induction l as [| y l IH]; [done |].
  rewrite not_elem_of_cons in N. destruct N as [N1 N2].
  rewrite filter_cons_True; [| done]. by rewrite IH.
Qed.

Lemma length_erase_all x l : length (erase_all x l) <= length l.
Proof. apply length_filter. Qed.

Lemma length_erase_all_lt x l : x ∈ l -> length (erase_all x l) < length l.
Proof.
  unfold erase_all. induction l as [| y l IH]; intros E; [by apply not_elem_of_nil in E |].
  destruct (decide (y = x)) as [-> | N].
  - rewrite filter_cons_False by (intros Q; by apply Q). simpl.
    pose proof (length_erase_all x l) as L. unfold erase_all in L. lia.
  - rewrite filter_cons_True by done. simpl. apply elem_of_cons in E as [-> | E]; [done |].
    apply IH in E. lia.
Qed.
End sequences.

#[export] Hint Resolve NoDup_add_unique NoDup_erase_all : moksha.

(** ** Tactics *)

(** Case analysis on every boolean test and [match] of the goal. *)
Ltac case_all :=
  repeat (case_match; simplify_eq/=).

(** Turns the boolean tests of the hypotheses into propositions. *)
Ltac breflect :=
  repeat match goal with
  | H : _ && _ = true |- _ => apply andb_true_iff in H; destruct H
  | H : _ || _ = false |- _ => apply orb_false_iff in H; destruct H
  | H : negb _ = true |- _ => apply negb_true_iff in H
  | H : negb _ = false |- _ => apply negb_false_iff in H
  | H : Nat.eqb _ _ = true |- _ => apply Nat.eqb_eq in H
  | H : Nat.eqb _ _ = false |- _ => apply Nat.eqb_neq in H
  | H : Nat.ltb _ _ = true |- _ => apply Nat.ltb_lt in H
  | H : Nat.ltb _ _ = false |- _ => apply Nat.ltb_ge in H
  | H : Nat.leb _ _ = true |- _ => apply Nat.leb_le in H
  | H : Nat.leb _ _ = false |- _ => apply Nat.leb_gt in H
  | H : Z.eqb _ _ = true |- _ => apply Z.eqb_eq in H
  | H : Z.eqb _ _ = false |- _ => apply Z.eqb_neq in H
  | H : Ascii.eqb _ _ = true |- _ => apply Ascii.eqb_eq in H
  | H : Ascii.eqb _ _ = false |- _ => apply Ascii.eqb_neq in H
  | H : enum_eqb _ _ = true |- _ => apply enum_eqb_eq in H
  | H : enum_eqb _ _ = false |- _ => apply enum_eqb_neq in H
  | H : bool_decide _ = true |- _ => apply bool_decide_eq_true in H
  | H : bool_decide _ = false |- _ => apply bool_decide_eq_false in H
  end.
