(* ===== verification/Diag.v ===== *)
(** * Diagnostics

    The diagnostic engine of [lib/support/diagnostics/Diagnostics.cpp] and
    [include/moksha/Support/Diagnostics.h]: the registry of diagnostic
    identifiers with their severity and text, the builder that streams a message
    and reports it when it is destroyed, and the error counter that every phase of
    the compiler consults.  [llvm::SourceMgr] is the sink of the messages: the
    model keeps the calls of [PrintMessage] in order. *)

From S2P Require Import Prelude.

#[local] Open Scope string_scope.

(** [SourceLocation] is [llvm::SMLoc], a pointer into the source buffer: an
    offset, or [None] for the invalid location [SMLoc()]. *)
Abbreviation SourceLocation := (option nat).

(** [llvm::SourceMgr::DiagKind]. *)
Module DiagKind.
Inductive t : Set := DK_Error | DK_Warning | DK_Remark | DK_Note.
#[export] Instance eq_dec : EqDecision t.
Proof. solve_decision. Defined.
End DiagKind.
#[export] Existing Instance DiagKind.eq_dec.

Module DiagID.

(** [enum class DiagID] of [Diagnostics.h]. *)
Inductive t : Set :=
  | err_unexpected_char | err_unexpected_token | err_expected_expression
  | err_expected_token | err_symbol_redefinition
  | err_undeclared_identifier | err_variable_redeclaration
  | err_function_redeclaration | err_type_mismatch
  | err_type_incompatible_assignment | err_type_incompatible_return
  | err_const_violation | err_if_condition_bool | err_invalid_bin_op
  | err_invalid_unary_op | err_invalid_cast | err_missing_return
  | err_invalid_access | err_member_collision | err_argument_count_mismatch
  | err_unreachable_code | err_decimal_precision_loss
  | err_decimal_overflow | err_array_length | err_spread_fixed_array
  | err_ambiguous_inheritance | err_ambiguous_reference
  | err_null_assignment | err_infinite_size | err_generic_constraint
  | err_generic_arity | err_uninitialized_var | err_builtin_shadowing
  | err_unexpanded_macro | err_invalid_type | err_not_implemented
  | err_borrow_violation | err_mutation_while_borrowed | err_borrow_escape
  | err_use_after_move | err_partial_move | note_borrow_occurred_here
  | warn_switch_not_exhaustive | warn_not_implemented
  | warn_unused_variable | warn_implicit_bool_conv | err_await_in_sync_lock
  | err_thread_in_async_lock | err_async_lock_target
  | note_previous_definition | err_no_member | err_unknown_type
  | err_break_outside_loop | err_continue_outside_loop | err_invalid_this
  | err_invalid_super | err_internal | err_missing_builtin.

Definition all : list t :=
  [err_unexpected_char; err_unexpected_token; err_expected_expression;
   err_expected_token; err_symbol_redefinition; err_undeclared_identifier;
   err_variable_redeclaration; err_function_redeclaration;
   err_type_mismatch; err_type_incompatible_assignment;
   err_type_incompatible_return; err_const_violation;
   err_if_condition_bool; err_invalid_bin_op; err_invalid_unary_op;
   err_invalid_cast; err_missing_return; err_invalid_access;
   err_member_collision; err_argument_count_mismatch; err_unreachable_code;
   err_decimal_precision_loss; err_decimal_overflow; err_array_length;
   err_spread_fixed_array; err_ambiguous_inheritance;
   err_ambiguous_reference; err_null_assignment; err_infinite_size;
   err_generic_constraint; err_generic_arity; err_uninitialized_var;
   err_builtin_shadowing; err_unexpanded_macro; err_invalid_type;
   err_not_implemented; err_borrow_violation; err_mutation_while_borrowed;
   err_borrow_escape; err_use_after_move; err_partial_move;
   note_borrow_occurred_here; warn_switch_not_exhaustive;
   warn_not_implemented; warn_unused_variable; warn_implicit_bool_conv;
   err_await_in_sync_lock; err_thread_in_async_lock; err_async_lock_target;
   note_previous_definition; err_no_member; err_unknown_type;
   err_break_outside_loop; err_continue_outside_loop; err_invalid_this;
   err_invalid_super; err_internal; err_missing_builtin].

Definition code (k : t) : nat :=
  match k with
  | err_unexpected_char => 0 | err_unexpected_token => 1
  | err_expected_expression => 2 | err_expected_token => 3
  | err_symbol_redefinition => 4 | err_undeclared_identifier => 5
  | err_variable_redeclaration => 6 | err_function_redeclaration => 7
  | err_type_mismatch => 8 | err_type_incompatible_assignment => 9
  | err_type_incompatible_return => 10 | err_const_violation => 11
  | err_if_condition_bool => 12 | err_invalid_bin_op => 13
  | err_invalid_unary_op => 14 | err_invalid_cast => 15
  | err_missing_return => 16 | err_invalid_access => 17
  | err_member_collision => 18 | err_argument_count_mismatch => 19
  | err_unreachable_code => 20 | err_decimal_precision_loss => 21
  | err_decimal_overflow => 22 | err_array_length => 23
  | err_spread_fixed_array => 24 | err_ambiguous_inheritance => 25
  | err_ambiguous_reference => 26 | err_null_assignment => 27
  | err_infinite_size => 28 | err_generic_constraint => 29
  | err_generic_arity => 30 | err_uninitialized_var => 31
  | err_builtin_shadowing => 32 | err_unexpanded_macro => 33
  | err_invalid_type => 34 | err_not_implemented => 35
  | err_borrow_violation => 36 | err_mutation_while_borrowed => 37
  | err_borrow_escape => 38 | err_use_after_move => 39
  | err_partial_move => 40 | note_borrow_occurred_here => 41
  | warn_switch_not_exhaustive => 42 | warn_not_implemented => 43
  | warn_unused_variable => 44 | warn_implicit_bool_conv => 45
  | err_await_in_sync_lock => 46 | err_thread_in_async_lock => 47
  | err_async_lock_target => 48 | note_previous_definition => 49
  | err_no_member => 50 | err_unknown_type => 51
  | err_break_outside_loop => 52 | err_continue_outside_loop => 53
  | err_invalid_this => 54 | err_invalid_super => 55 | err_internal => 56
  | err_missing_builtin => 57
  end.

#[export] Instance enum : Enum t.
Proof. refine {| enum_all := all; enum_code := code |}. abstract (by intros []). Defined.

End DiagID.
#[export] Existing Instance DiagID.enum.


Record PrintedMessage := {
  pm_loc : SourceLocation;
  pm_kind : DiagKind.t;
  pm_text : string;
}.

(** [class DiagnosticEngine]: the messages handed to [SrcMgr], oldest first, and
    the [unsigned] counter. *)
Record DiagnosticEngine := {
  SrcMgr : list PrintedMessage;
  NumErrors : Z;
}.

Definition newEngine : DiagnosticEngine := {| SrcMgr := []; NumErrors := 0 |}.

Definition hasErrors (E : DiagnosticEngine) : bool := Z.ltb 0 (NumErrors E).

Definition getNumErrors (E : DiagnosticEngine) : Z := NumErrors E.

Definition getDiagnosticKind (ID : DiagID.t) : DiagKind.t :=
  match ID with
  | DiagID.note_previous_definition => DiagKind.DK_Note
  | DiagID.warn_unused_variable | DiagID.warn_switch_not_exhaustive
  | DiagID.warn_not_implemented | DiagID.warn_implicit_bool_conv => DiagKind.DK_Warning
  | _ => DiagKind.DK_Error
  end.

Definition getDiagnosticText (ID : DiagID.t) : string :=
  match ID with
  | DiagID.err_unexpected_char => "Unexpected character"
  | DiagID.err_unexpected_token => "Unexpected token"
  | DiagID.err_expected_expression => "Expected expression"
  | DiagID.err_expected_token => "Expected token"
  | DiagID.err_symbol_redefinition => "Redefinition of symbol"
  | DiagID.err_undeclared_identifier => "Undeclared identifier"
  | DiagID.err_variable_redeclaration => "Variable already declared in this scope"
  | DiagID.err_function_redeclaration => "Function already declared"
  | DiagID.err_internal => "Internal compiler error"
  | DiagID.err_type_mismatch => "Type mismatch"
  | DiagID.err_const_violation => "Cannot assign to const variable"
  | DiagID.err_type_incompatible_assignment => "Incompatible types in assignment"
  | DiagID.err_type_incompatible_return => "Return value type does not match function return type"
  | DiagID.err_if_condition_bool => "'if' condition must be boolean"
  | DiagID.err_invalid_bin_op => "Invalid operands for binary operator"
  | DiagID.err_invalid_unary_op => "Invalid operand for unary operator"
  | DiagID.err_invalid_cast => "Invalid type cast"
  | DiagID.err_missing_return => "Non-void function may end without returning a value"
  | DiagID.err_invalid_access => "Invalid access to member"
  | DiagID.err_member_collision => "Member collision"
  | DiagID.err_argument_count_mismatch => "Function argument count mismatch: expected vs provided"
  | DiagID.warn_implicit_bool_conv => "Implicit conversion to boolean"
  | DiagID.err_array_length => "Length mismatch"
  | DiagID.err_spread_fixed_array => "Cannot use spread operator (...) on fixed-size arrays"
  | DiagID.err_ambiguous_inheritance => "Ambiguous inheritance"
  | DiagID.err_ambiguous_reference => "Ambiguous reference"
  | DiagID.err_null_assignment => "Cannot assign 'null' to non-nullable type"
  | DiagID.err_infinite_size => "Recursive type has infinite size"
  | DiagID.err_generic_constraint => "Generic constraint violation"
  | DiagID.err_generic_arity => "Generic arity mismatch"
  | DiagID.err_uninitialized_var => "Uninitialized variable"
  | DiagID.err_unreachable_code => "Unreachable code"
  | DiagID.err_decimal_precision_loss => "Decimal scale truncation"
  | DiagID.err_decimal_overflow => "Possible decimal overflow"
  | DiagID.err_builtin_shadowing => "Builtin shadowing"
  | DiagID.err_unexpanded_macro => "Unexpanded macro reached MIR lowering phase"
  | DiagID.err_invalid_type => "Invalid or unsupported type found"
  | DiagID.err_not_implemented => "Feature not yet implemented"
  | DiagID.err_borrow_violation => "Borrow checker violation"
  | DiagID.err_mutation_while_borrowed => "Cannot mutate variable while it is actively borrowed"
  | DiagID.err_borrow_escape => "Borrow escape detected"
  | DiagID.err_use_after_move => "Use of moved value"
  | DiagID.err_partial_move => "Use of partially moved value"
  | DiagID.note_borrow_occurred_here => "Borrow occurred here"
  | DiagID.warn_switch_not_exhaustive => "Switch statement is not exhaustive"
  | DiagID.warn_not_implemented => "Feature not yet implemented (Warning)"
  | DiagID.warn_unused_variable => "Variable declared but never used"
  | DiagID.err_missing_builtin => "Missing required compiler builtin or runtime function"
  | DiagID.err_await_in_sync_lock => "Cannot use 'await' inside a synchronous 'lock' block (causes OS thread deadlock)"
  | DiagID.err_thread_in_async_lock => "Cannot spawn an OS thread inside an 'async lock' (causes scheduler starvation)"
  | DiagID.err_async_lock_target => "Target of 'async lock' must be an 'AsyncMutex'"
  | DiagID.note_previous_definition => "Previous definition is here"
  | DiagID.err_no_member => "No such member"
  | DiagID.err_unknown_type => "Unknown type"
  | DiagID.err_break_outside_loop => "'break' statement outside of loop or switch"
  | DiagID.err_continue_outside_loop => "'continue' statement outside of loop"
  | DiagID.err_invalid_this => "Invalid use of 'this' outside of a class method"
  | DiagID.err_invalid_super => "Invalid use of 'super'"
  end.

(** [DiagnosticEngine::emit]. *)
Definition emit (Loc : SourceLocation) (ID : DiagID.t) (Kind : DiagKind.t)
    (ExtraMsg : string) (E : DiagnosticEngine) : DiagnosticEngine :=
  let BaseMsg := getDiagnosticText ID in
  let FinalMsg := if String.eqb ExtraMsg "" then BaseMsg else BaseMsg ++ (": " ++ ExtraMsg) in
  let NumErrors' :=
    if decide (Kind = DiagKind.DK_Error) then u32 (NumErrors E + 1) else NumErrors E in
  {| SrcMgr := (SrcMgr E ++ [{| pm_loc := Loc; pm_kind := Kind; pm_text := FinalMsg |}])%list;
     NumErrors := NumErrors' |}.

(** [class DiagnosticBuilder]: what [report] returns, [operator<<] extends and the
    destructor emits. *)
Record DiagnosticBuilder := {
  b_Loc : SourceLocation;
  b_ID : DiagID.t;
  b_Kind : DiagKind.t;
  b_Message : string;
}.

Definition report (Loc : SourceLocation) (ID : DiagID.t) : DiagnosticBuilder :=
  {| b_Loc := Loc; b_ID := ID; b_Kind := getDiagnosticKind ID; b_Message := "" |}.

Definition stream (b : DiagnosticBuilder) (Val : string) : DiagnosticBuilder :=
  {| b_Loc := b_Loc b; b_ID := b_ID b; b_Kind := b_Kind b; b_Message := b_Message b ++ Val |}.

Definition destroy (b : DiagnosticBuilder) (E : DiagnosticEngine) : DiagnosticEngine :=
  emit (b_Loc b) (b_ID b) (b_Kind b) (b_Message b) E.

(** The full expression [Diags.report(Loc, ID) << v1 << v2 ...;]. *)
Definition report_with (Loc : SourceLocation) (ID : DiagID.t) (vals : list string)
    (E : DiagnosticEngine) : DiagnosticEngine :=
  destroy (foldl stream (report Loc ID) vals) E.

(** ** Properties *)

(** A diagnostic as a client writes it: location, identifier, streamed values. *)
Abbreviation Report := (SourceLocation * DiagID.t * list string)%type.

Definition run_report (E : DiagnosticEngine) (r : Report) : DiagnosticEngine :=
  let '(loc, id, vals) := r in report_with loc id vals E.

(** The message a report prints. *)
Definition printed (r : Report) : PrintedMessage :=
  let '(loc, id, vals) := r in
  let extra := foldl append "" vals in
  {| pm_loc := loc; pm_kind := getDiagnosticKind id;
     pm_text := if String.eqb extra "" then getDiagnosticText id
                else getDiagnosticText id ++ ": " ++ extra |}.

Definition is_error (r : Report) : bool :=
  bool_decide (getDiagnosticKind r.1.2 = DiagKind.DK_Error).

Lemma foldl_stream vals : forall b,
  foldl stream b vals = {| b_Loc := b_Loc b; b_ID := b_ID b; b_Kind := b_Kind b;
                           b_Message := foldl append (b_Message b) vals |}.
Proof. induction vals as [| v vals IH]; intros b; simpl; [by destruct b | by rewrite IH]. Qed.

Lemma run_report_spec E r :
  run_report E r =
    {| SrcMgr := (SrcMgr E ++ [printed r])%list;
       NumErrors := if is_error r then u32 (NumErrors E + 1) else NumErrors E |}.
Proof.
  destruct r as [[loc id] vals]. unfold run_report, report_with, destroy.
  rewrite foldl_stream. unfold emit, printed, is_error. simpl. f_equal.
  by rewrite <- decide_bool_decide.
Qed.

Definition errors_in (rs : list Report) : nat := List.length (List.filter is_error rs).

Lemma run_reports_from rs : forall E n,
  NumErrors E = u32 (Z.of_nat n) ->
  SrcMgr (foldl run_report E rs) = (SrcMgr E ++ map printed rs)%list
  /\ NumErrors (foldl run_report E rs) = u32 (Z.of_nat (n + errors_in rs)%nat).
Proof.
  induction rs as [| r rs IH]; intros E n H; simpl.
  - rewrite app_nil_r, Nat.add_0_r. by split.
  - set (m := (if is_error r then 1 else 0)%nat).
    destruct (IH (run_report E r) (n + m)%nat) as [I1 I2].
    + rewrite run_report_spec. simpl. unfold m. destruct (is_error r).
      * rewrite H. unfold u32. rewrite Zplus_mod_idemp_l. f_equal. lia.
      * by rewrite Nat.add_0_r.
    + rewrite I1, I2, run_report_spec. simpl. rewrite <- app_assoc. split; [done |].
      unfold errors_in, m. simpl. destruct (is_error r); simpl; do 2 f_equal; lia.
Qed.

Lemma errors_in_existsb rs : existsb is_error rs = (0 <? errors_in rs)%nat.
Proof.
  unfold errors_in. induction rs as [| r rs IH]; simpl; [done |].
  by destruct (is_error r); simpl.
Qed.

Lemma getDiagnosticText_inj i j : getDiagnosticText i = getDiagnosticText j -> i = j.
Proof.
  intros H. assert (N : NoDup (map getDiagnosticText enum_all))
    by (apply (bool_decide_unpack _); vm_compute; exact I).
  assert (L : forall k, map getDiagnosticText enum_all !! enum_code k = Some (getDiagnosticText k)).
  { intros k. rewrite list_lookup_fmap, enum_all_code. done. }
  apply (inj enum_code). apply (NoDup_lookup _ _ _ _ N (L i)). by rewrite L, H.
Qed.

(** Whatever is reported, each report prints exactly one message, in order, with
    the severity and the text of its identifier followed by what was streamed; the
    error counter is the number of errors modulo 2^32, so [hasErrors] tells whether
    an error was reported as long as there are fewer than 2^32; and no two
    identifiers share a text. *)
Theorem engine_counts_errors (rs : list Report) :
  let E := foldl run_report newEngine rs in
  SrcMgr E = map printed rs
  /\ getNumErrors E = u32 (Z.of_nat (errors_in rs))
  /\ ((Z.of_nat (errors_in rs) < 2 ^ 32)%Z -> hasErrors E = existsb is_error rs)
  /\ (forall i j, getDiagnosticText i = getDiagnosticText j -> i = j).
Proof.
  intros E. destruct (run_reports_from rs newEngine 0%nat eq_refl) as [H1 H2].
  fold E in H1, H2. split_and!; [done | done | | apply getDiagnosticText_inj].
  intros L. unfold hasErrors. rewrite H2, u32_small, errors_in_existsb by (simpl; lia).
  simpl. destruct (errors_in rs); [done |]. simpl. by apply Z.ltb_lt.
Qed.

Lemma engine_counts_errors_witness :
  exists rs, SrcMgr (foldl run_report newEngine rs) = map printed rs /\ errors_in rs = 1%nat
    /\ hasErrors (foldl run_report newEngine rs) = true.
Proof.
  set (rs := [(None, DiagID.warn_unused_variable, ["x"%string]);
              (None, DiagID.err_undeclared_identifier, ["y"%string])] : list Report).
  destruct (engine_counts_errors rs) as (H1 & _ & H3 & _).
  exists rs. split; [exact H1 |]. split; [reflexivity |]. by rewrite H3.
Defined.
