(* ===== verification/Tokens.v ===== *)
(** * Tokens

    The token vocabulary of [include/moksha/Lexer/Lexer.h] and the two spelling
    tables of [lib/frontend/lexer/Lexer.cpp]: the keywords ([scanIdentifier]) and
    the numeric suffixes ([scanNumber]).  [llvm::StringSwitch] answers with the
    first case whose string equals the subject. *)

From S2P Require Import Prelude.

#[local] Open Scope string_scope.

Module TokenKind.

(** [enum class TokenKind]. *)
Inductive t : Set :=
  | Eof | Error | Comment | Identifier | IntegerLiteral | FloatLiteral
  | DecimalLiteral | StringLiteral | TemplateString | CharLiteral
  | StringFragment | InterpolationStart | InterpolationEnd | KwClass
  | KwOperator | KwThread | KwRef | KwWeak | KwShared | KwNew | KwDelete
  | KwUnsafe | KwUnsigned | KwConstructor | KwDestructor | KwThis | KwSuper
  | KwNull | KwIf | KwElse | KwWhile | KwDo | KwFor | KwIn | KwSwitch
  | KwCase | KwDefault | KwReturn | KwBreak | KwContinue | KwDefer | KwWith
  | KwTry | KwCatch | KwThrow | KwFinally | KwVoid | KwInt | KwFloat
  | KwDouble | KwBool | KwString | KwChar | KwShort | KwLong | KwISize
  | KwUSize | KwHalf | KwQuarter | KwDecimal | KwAny | KwAs | KwTrue
  | KwFalse | KwPublic | KwPrivate | KwProtected | KwPromise | KwConst
  | KwCast | KwBitcast | KwStatic | KwAsync | KwAwait | KwImport | KwFrom
  | KwMacro | KwTable | KwEnum | KwGeneric | KwStruct | KwUnion | KwPacked
  | KwVolatile | KwAlign | KwSizeof | KwInterrupt | KwNaked | KwNoreturn
  | KwNoinline | KwInline | KwPure | KwCold | KwLock | KwView | KwMut
  | KwVirtual | KwOverride | KwInput | KwClosure | KwMove | KwOut | KwInout
  | KwClobber | KwExtern | KwUsing | KwAsm | KwSection | KwUsed
  | KwThreadLocal | Plus | Minus | Star | Slash | Percent | Power
  | PlusPlus | MinusMinus | Equal | PlusEqual | MinusEqual | StarEqual
  | SlashEqual | PercentEqual | Amp | Pipe | Caret | Tilde | AmpEqual
  | PipeEqual | CaretEqual | LessLess | GreaterGreater | LessLessEqual
  | GreaterGreaterEqual | AmpAmp | PipePipe | PipeGreater | Bang
  | EqualEqual | NotEqual | Less | LessEqual | Greater | GreaterEqual
  | FatArrow | Arrow | Dot | DotDotDot | QuestionDot | QuestionQuestion
  | Question | Colon | Comma | Semicolon | LParen | RParen | LBrace
  | RBrace | LBracket | RBracket.

Definition all : list t :=
  [Eof; Error; Comment; Identifier; IntegerLiteral; FloatLiteral;
   DecimalLiteral; StringLiteral; TemplateString; CharLiteral;
   StringFragment; InterpolationStart; InterpolationEnd; KwClass;
   KwOperator; KwThread; KwRef; KwWeak; KwShared; KwNew; KwDelete;
   KwUnsafe; KwUnsigned; KwConstructor; KwDestructor; KwThis; KwSuper;
   KwNull; KwIf; KwElse; KwWhile; KwDo; KwFor; KwIn; KwSwitch; KwCase;
   KwDefault; KwReturn; KwBreak; KwContinue; KwDefer; KwWith; KwTry;
   KwCatch; KwThrow; KwFinally; KwVoid; KwInt; KwFloat; KwDouble; KwBool;
   KwString; KwChar; KwShort; KwLong; KwISize; KwUSize; KwHalf; KwQuarter;
   KwDecimal; KwAny; KwAs; KwTrue; KwFalse; KwPublic; KwPrivate;
   KwProtected; KwPromise; KwConst; KwCast; KwBitcast; KwStatic; KwAsync;
   KwAwait; KwImport; KwFrom; KwMacro; KwTable; KwEnum; KwGeneric;
   KwStruct; KwUnion; KwPacked; KwVolatile; KwAlign; KwSizeof; KwInterrupt;
   KwNaked; KwNoreturn; KwNoinline; KwInline; KwPure; KwCold; KwLock;
   KwView; KwMut; KwVirtual; KwOverride; KwInput; KwClosure; KwMove; KwOut;
   KwInout; KwClobber; KwExtern; KwUsing; KwAsm; KwSection; KwUsed;
   KwThreadLocal; Plus; Minus; Star; Slash; Percent; Power; PlusPlus;
   MinusMinus; Equal; PlusEqual; MinusEqual; StarEqual; SlashEqual;
   PercentEqual; Amp; Pipe; Caret; Tilde; AmpEqual; PipeEqual; CaretEqual;
   LessLess; GreaterGreater; LessLessEqual; GreaterGreaterEqual; AmpAmp;
   PipePipe; PipeGreater; Bang; EqualEqual; NotEqual; Less; LessEqual;
   Greater; GreaterEqual; FatArrow; Arrow; Dot; DotDotDot; QuestionDot;
   QuestionQuestion; Question; Colon; Comma; Semicolon; LParen; RParen;
   LBrace; RBrace; LBracket; RBracket].

Definition code (k : t) : nat :=
  match k with
  | Eof => 0 | Error => 1 | Comment => 2 | Identifier => 3
  | IntegerLiteral => 4 | FloatLiteral => 5 | DecimalLiteral => 6
  | StringLiteral => 7 | TemplateString => 8 | CharLiteral => 9
  | StringFragment => 10 | InterpolationStart => 11
  | InterpolationEnd => 12 | KwClass => 13 | KwOperator => 14
  | KwThread => 15 | KwRef => 16 | KwWeak => 17 | KwShared => 18
  | KwNew => 19 | KwDelete => 20 | KwUnsafe => 21 | KwUnsigned => 22
  | KwConstructor => 23 | KwDestructor => 24 | KwThis => 25 | KwSuper => 26
  | KwNull => 27 | KwIf => 28 | KwElse => 29 | KwWhile => 30 | KwDo => 31
  | KwFor => 32 | KwIn => 33 | KwSwitch => 34 | KwCase => 35
  | KwDefault => 36 | KwReturn => 37 | KwBreak => 38 | KwContinue => 39
  | KwDefer => 40 | KwWith => 41 | KwTry => 42 | KwCatch => 43
  | KwThrow => 44 | KwFinally => 45 | KwVoid => 46 | KwInt => 47
  | KwFloat => 48 | KwDouble => 49 | KwBool => 50 | KwString => 51
  | KwChar => 52 | KwShort => 53 | KwLong => 54 | KwISize => 55
  | KwUSize => 56 | KwHalf => 57 | KwQuarter => 58 | KwDecimal => 59
  | KwAny => 60 | KwAs => 61 | KwTrue => 62 | KwFalse => 63
  | KwPublic => 64 | KwPrivate => 65 | KwProtected => 66 | KwPromise => 67
  | KwConst => 68 | KwCast => 69 | KwBitcast => 70 | KwStatic => 71
  | KwAsync => 72 | KwAwait => 73 | KwImport => 74 | KwFrom => 75
  | KwMacro => 76 | KwTable => 77 | KwEnum => 78 | KwGeneric => 79
  | KwStruct => 80 | KwUnion => 81 | KwPacked => 82 | KwVolatile => 83
  | KwAlign => 84 | KwSizeof => 85 | KwInterrupt => 86 | KwNaked => 87
  | KwNoreturn => 88 | KwNoinline => 89 | KwInline => 90 | KwPure => 91
  | KwCold => 92 | KwLock => 93 | KwView => 94 | KwMut => 95
  | KwVirtual => 96 | KwOverride => 97 | KwInput => 98 | KwClosure => 99
  | KwMove => 100 | KwOut => 101 | KwInout => 102 | KwClobber => 103
  | KwExtern => 104 | KwUsing => 105 | KwAsm => 106 | KwSection => 107
  | KwUsed => 108 | KwThreadLocal => 109 | Plus => 110 | Minus => 111
  | Star => 112 | Slash => 113 | Percent => 114 | Power => 115
  | PlusPlus => 116 | MinusMinus => 117 | Equal => 118 | PlusEqual => 119
  | MinusEqual => 120 | StarEqual => 121 | SlashEqual => 122
  | PercentEqual => 123 | Amp => 124 | Pipe => 125 | Caret => 126
  | Tilde => 127 | AmpEqual => 128 | PipeEqual => 129 | CaretEqual => 130
  | LessLess => 131 | GreaterGreater => 132 | LessLessEqual => 133
  | GreaterGreaterEqual => 134 | AmpAmp => 135 | PipePipe => 136
  | PipeGreater => 137 | Bang => 138 | EqualEqual => 139 | NotEqual => 140
  | Less => 141 | LessEqual => 142 | Greater => 143 | GreaterEqual => 144
  | FatArrow => 145 | Arrow => 146 | Dot => 147 | DotDotDot => 148
  | QuestionDot => 149 | QuestionQuestion => 150 | Question => 151
  | Colon => 152 | Comma => 153 | Semicolon => 154 | LParen => 155
  | RParen => 156 | LBrace => 157 | RBrace => 158 | LBracket => 159
  | RBracket => 160
  end.

#[export] Instance enum : Enum t.
Proof. refine {| enum_all := all; enum_code := code |}. abstract (by intros []). Defined.

End TokenKind.
#[export] Existing Instance TokenKind.enum.

Module NumericSuffix.

(** [enum class NumericSuffix : uint8_t]. *)
Inductive t : Set :=
  | None | i8 | i16 | i32 | i64 | isize | u8 | u16 | u32 | u64 | usize | f8
  | f16 | f32 | f64 | d.

Definition all : list t :=
  [None; i8; i16; i32; i64; isize; u8; u16; u32; u64; usize; f8; f16; f32;
   f64; d].

Definition code (k : t) : nat :=
  match k with
  | None => 0 | i8 => 1 | i16 => 2 | i32 => 3 | i64 => 4 | isize => 5
  | u8 => 6 | u16 => 7 | u32 => 8 | u64 => 9 | usize => 10 | f8 => 11
  | f16 => 12 | f32 => 13 | f64 => 14 | d => 15
  end.

#[export] Instance enum : Enum t.
Proof. refine {| enum_all := all; enum_code := code |}. abstract (by intros []). Defined.

End NumericSuffix.
#[export] Existing Instance NumericSuffix.enum.

(** [enum TokenFlag : uint16_t]: a bit mask. *)
Definition TF_None : Z := 0.
Definition TF_IsHex : Z := Z.shiftl 1 0.
Definition TF_IsBin : Z := Z.shiftl 1 1.
Definition TF_IsOctal : Z := Z.shiftl 1 2.
Definition TF_IsEscaped : Z := Z.shiftl 1 3.
Definition TF_IsRaw : Z := Z.shiftl 1 4.
Definition TF_IsSynthesized : Z := Z.shiftl 1 5.

(** [class Token]: [location] is the offset of the first byte in the buffer and
    [length] a [uint32_t]. *)
Record Token := {
  kind : TokenKind.t;
  location : nat;
  length : Z;
  suffix : NumericSuffix.t;
  flags : Z;
}.

(** The constructor [Token(kind, loc, len)]. *)
Definition mkToken (k : TokenKind.t) (loc : nat) (len : Z) : Token :=
  {| kind := k; location := loc; length := u32 len;
     suffix := NumericSuffix.None; flags := TF_None |}.

Definition set_suffix (sx : NumericSuffix.t) (t : Token) : Token :=
  {| kind := kind t; location := location t; length := length t;
     suffix := sx; flags := flags t |}.

(** [tok.flags |= f]. *)
Definition add_flag (f : Z) (t : Token) : Token :=
  {| kind := kind t; location := location t; length := length t;
     suffix := suffix t; flags := u16 (Z.lor (flags t) f) |}.

Definition tok_is (t : Token) (k : TokenKind.t) : bool := enum_eqb (kind t) k.

Definition isNot (t : Token) (k : TokenKind.t) : bool := negb (enum_eqb (kind t) k).

(** [isAny(k, args...)]: the variadic template is a fold over its arguments. *)
Definition isAny (t : Token) (ks : list TokenKind.t) : bool := existsb (tok_is t) ks.

(** The bytes a token covers: [getSpelling]. *)
Definition getSpelling (buf : list ascii) (t : Token) : list ascii :=
  take (Z.to_nat (length t)) (drop (location t) buf).

(** [llvm::StringSwitch]. *)
Fixpoint StringSwitch {A} (cases : list (string * A)) (Default : A) (s : string) : A :=
  match cases with
  | [] => Default
  | (c, v) :: rest => if String.eqb s c then v else StringSwitch rest Default s
  end.

Definition keyword_cases : list (string * TokenKind.t) :=
  [("class", TokenKind.KwClass); ("operator", TokenKind.KwOperator);
   ("thread", TokenKind.KwThread); ("ref", TokenKind.KwRef);
   ("weak", TokenKind.KwWeak); ("shared", TokenKind.KwShared);
   ("new", TokenKind.KwNew); ("delete", TokenKind.KwDelete);
   ("unsafe", TokenKind.KwUnsafe); ("unsigned", TokenKind.KwUnsigned);
   ("constructor", TokenKind.KwConstructor);
   ("destructor", TokenKind.KwDestructor); ("this", TokenKind.KwThis);
   ("super", TokenKind.KwSuper); ("null", TokenKind.KwNull);
   ("if", TokenKind.KwIf); ("else", TokenKind.KwElse);
   ("while", TokenKind.KwWhile); ("do", TokenKind.KwDo);
   ("for", TokenKind.KwFor); ("in", TokenKind.KwIn);
   ("switch", TokenKind.KwSwitch); ("case", TokenKind.KwCase);
   ("default", TokenKind.KwDefault); ("return", TokenKind.KwReturn);
   ("break", TokenKind.KwBreak); ("continue", TokenKind.KwContinue);
   ("defer", TokenKind.KwDefer); ("with", TokenKind.KwWith);
   ("try", TokenKind.KwTry); ("catch", TokenKind.KwCatch);
   ("throw", TokenKind.KwThrow); ("finally", TokenKind.KwFinally);
   ("void", TokenKind.KwVoid); ("int", TokenKind.KwInt);
   ("short", TokenKind.KwShort); ("long", TokenKind.KwLong);
   ("isize", TokenKind.KwISize); ("usize", TokenKind.KwUSize);
   ("float", TokenKind.KwFloat); ("double", TokenKind.KwDouble);
   ("bool", TokenKind.KwBool); ("string", TokenKind.KwString);
   ("char", TokenKind.KwChar); ("half", TokenKind.KwHalf);
   ("quarter", TokenKind.KwQuarter); ("decimal", TokenKind.KwDecimal);
   ("any", TokenKind.KwAny); ("as", TokenKind.KwAs);
   ("true", TokenKind.KwTrue); ("false", TokenKind.KwFalse);
   ("public", TokenKind.KwPublic); ("private", TokenKind.KwPrivate);
   ("protected", TokenKind.KwProtected); ("promise", TokenKind.KwPromise);
   ("const", TokenKind.KwConst); ("cast", TokenKind.KwCast);
   ("bitcast", TokenKind.KwBitcast); ("static", TokenKind.KwStatic);
   ("async", TokenKind.KwAsync); ("await", TokenKind.KwAwait);
   ("import", TokenKind.KwImport); ("from", TokenKind.KwFrom);
   ("macro", TokenKind.KwMacro); ("enum", TokenKind.KwEnum);
   ("table", TokenKind.KwTable); ("generic", TokenKind.KwGeneric);
   ("struct", TokenKind.KwStruct); ("union", TokenKind.KwUnion);
   ("packed", TokenKind.KwPacked); ("volatile", TokenKind.KwVolatile);
   ("align", TokenKind.KwAlign); ("sizeof", TokenKind.KwSizeof);
   ("interrupt", TokenKind.KwInterrupt); ("naked", TokenKind.KwNaked);
   ("noreturn", TokenKind.KwNoreturn); ("noinline", TokenKind.KwNoinline);
   ("inline", TokenKind.KwInline); ("pure", TokenKind.KwPure);
   ("cold", TokenKind.KwCold); ("lock", TokenKind.KwLock);
   ("view", TokenKind.KwView); ("mut", TokenKind.KwMut);
   ("virtual", TokenKind.KwVirtual); ("override", TokenKind.KwOverride);
   ("input", TokenKind.KwInput); ("closure", TokenKind.KwClosure);
   ("move", TokenKind.KwMove); ("out", TokenKind.KwOut);
   ("inout", TokenKind.KwInout); ("clobber", TokenKind.KwClobber);
   ("extern", TokenKind.KwExtern); ("using", TokenKind.KwUsing);
   ("asm", TokenKind.KwAsm); ("section", TokenKind.KwSection);
   ("used", TokenKind.KwUsed); ("thread_local", TokenKind.KwThreadLocal)].

(** The keyword resolution at the end of [scanIdentifier]. *)
Definition keyword_kind (spelling : string) : TokenKind.t :=
  StringSwitch keyword_cases TokenKind.Identifier spelling.

Definition suffix_cases : list (string * NumericSuffix.t) :=
  [("i8", NumericSuffix.i8); ("u8", NumericSuffix.u8);
   ("i16", NumericSuffix.i16); ("u16", NumericSuffix.u16);
   ("i32", NumericSuffix.i32); ("u32", NumericSuffix.u32);
   ("i64", NumericSuffix.i64); ("u64", NumericSuffix.u64);
   ("isize", NumericSuffix.isize); ("usize", NumericSuffix.usize);
   ("f8", NumericSuffix.f8); ("f16", NumericSuffix.f16);
   ("f32", NumericSuffix.f32); ("f64", NumericSuffix.f64);
   ("d", NumericSuffix.d)].

(** The suffix resolution of [scanNumber]. *)
Definition numeric_suffix (suffixStr : string) : NumericSuffix.t :=
  StringSwitch suffix_cases NumericSuffix.None suffixStr.
