(* ===== verification/Lexer.v ===== *)
(** * The lexer

    [class Lexer] of [lib/frontend/lexer/Lexer.cpp]: a cursor over the source
    buffer, a two-valued state for template strings, the stack of brace balances
    of the open interpolations, and the diagnostics it reports.  Pointers into the
    buffer are offsets, [bufferEnd] is its length, and the byte at [bufferEnd] is
    the NUL with which [llvm::MemoryBuffer] terminates every buffer.

    The loops whose step is not one byte ([ident_loop], [string_loop] and
    [trivia_loop]) take a fuel, always the number of bytes left plus one; the
    theorems of [LexerClaims] show that this is enough, so that [next] always
    returns. *)

From S2P Require Import Prelude Diag Tokens.

(** Buffers are lists of bytes. *)
Abbreviation buffer := (list ascii).

(** The two functions of [llvm/Support/ConvertUTF.h] the lexer calls, which are
    not part of the repository. *)
Class Utf8 := {
  getNumBytesForUTF8 : ascii -> nat;
  isLegalUTF8Sequence : list ascii -> bool;
}.

#[local] Open Scope char_scope.
#[local] Open Scope nat_scope.

Infix "=?c" := Ascii.eqb (at level 70).

Definition NUL : ascii := "000".
Definition TAB : ascii := "009".
Definition LF : ascii := "010".
Definition VT : ascii := "011".
Definition FF : ascii := "012".
Definition CR : ascii := "013".
Definition DQUOTE : ascii := "034".
Definition BACKSLASH : ascii := "092".
Definition BACKTICK : ascii := "096".

(** ** Character classes *)

Definition in_range (lo hi c : ascii) : bool :=
  (N_of_ascii lo <=? N_of_ascii c)%N && (N_of_ascii c <=? N_of_ascii hi)%N.

(** [std::isdigit], [std::isalpha] and [std::isalnum] in the "C" locale. *)
Definition isdigit (c : ascii) : bool := in_range "0" "9" c.
Definition isalpha (c : ascii) : bool := in_range "a" "z" c || in_range "A" "Z" c.
Definition isalnum (c : ascii) : bool := isalpha c || isdigit c.

Definition isHexDigit (c : ascii) : bool :=
  in_range "0" "9" c || in_range "a" "f" c || in_range "A" "F" c.
Definition isBinDigit (c : ascii) : bool := (c =?c "0") || (c =?c "1").
Definition isOctDigit (c : ascii) : bool := in_range "0" "7" c.
Definition isAsciiIdentStart (c : ascii) : bool := isalpha c || (c =?c "_").
Definition isAsciiIdentBody (c : ascii) : bool := isalnum c || (c =?c "_").
Definition isUTF8Start (c : ascii) : bool := (128 <=? N_of_ascii c)%N.

(** The whitespace that [skipWhitespace] skips. *)
Definition isWhitespace (c : ascii) : bool :=
  (c =?c " ") || (c =?c TAB) || (c =?c VT) || (c =?c FF) || (c =?c CR) || (c =?c LF).

(** ** The state *)

Module LexerState.
Inductive t : Set := Normal | TemplateString.
#[export] Instance eq_dec : EqDecision t.
Proof. solve_decision. Defined.
End LexerState.
#[export] Existing Instance LexerState.eq_dec.

(** The mutable fields of [class Lexer].  [interpolationStack] has its [back()]
    at the head; an element is the [braceBalance] of an [InterpolationState]. *)
Record Lexer := {
  curPtr : nat;
  fragmentStart : option nat;
  state : LexerState.t;
  interpolationStack : list Z;
  Diags : DiagnosticEngine;
}.

Definition newLexer (E : DiagnosticEngine) : Lexer :=
  {| curPtr := 0; fragmentStart := None; state := LexerState.Normal;
     interpolationStack := []; Diags := E |}.

Definition set_cur (p : nat) (s : Lexer) : Lexer :=
  {| curPtr := p; fragmentStart := fragmentStart s; state := state s;
     interpolationStack := interpolationStack s; Diags := Diags s |}.

Definition set_fragment (f : option nat) (s : Lexer) : Lexer :=
  {| curPtr := curPtr s; fragmentStart := f; state := state s;
     interpolationStack := interpolationStack s; Diags := Diags s |}.

Definition set_state (m : LexerState.t) (s : Lexer) : Lexer :=
  {| curPtr := curPtr s; fragmentStart := fragmentStart s; state := m;
     interpolationStack := interpolationStack s; Diags := Diags s |}.

Definition set_stack (k : list Z) (s : Lexer) : Lexer :=
  {| curPtr := curPtr s; fragmentStart := fragmentStart s; state := state s;
     interpolationStack := k; Diags := Diags s |}.

(** [Diags.report(loc, DiagID::err_unexpected_char) << msg;] *)
Definition diag (loc : SourceLocation) (msg : list string) (s : Lexer) : Lexer :=
  {| curPtr := curPtr s; fragmentStart := fragmentStart s; state := state s;
     interpolationStack := interpolationStack s;
     Diags := report_with loc DiagID.err_unexpected_char msg (Diags s) |}.

(** [curPtr += n]. *)
Definition advance (n : nat) (s : Lexer) : Lexer := set_cur (curPtr s + n) s.

Definition inTemplateString (s : Lexer) : bool :=
  bool_decide (state s = LexerState.TemplateString).

(** [errorAt(start)]: an error token of at least one byte, up to the cursor. *)
Definition errorAt (start : nat) (s : Lexer) : Token :=
  mkToken TokenKind.Error start
    (Z.max 1 (u64 (Z.of_nat (curPtr s) - Z.of_nat start))).

(** [Token(kind, start, curPtr - start)]. *)
Definition tokenTo (k : TokenKind.t) (start : nat) (s : Lexer) : Token :=
  mkToken k start (Z.of_nat (curPtr s) - Z.of_nat start).

(** The base a number's prefix announces: the flags [isHex], [isBin] and [isOct]. *)
Module Base.
Inductive t : Set := Dec | Hex | Bin | Oct.
End Base.

(** How the loop that skips whitespace and comments ends. *)
Module Trivia.
Inductive t : Set := AtEof | BadComment | AtToken.
End Trivia.

Section Scanner.
Context (buf : buffer) {U : Utf8}.

Definition bufferEnd : nat := List.length buf.

(** [*p]. *)
Definition deref (p : nat) : ascii := default NUL (buf !! p).

Definition peek (n : nat) (s : Lexer) : ascii :=
  if bufferEnd <=? curPtr s + n then NUL else deref (curPtr s + n).

(** How many bytes from [p] on satisfy [P], up to [bufferEnd]: the loop
    [while (curPtr < bufferEnd && P( *curPtr)) curPtr++]. *)
Fixpoint span (P : ascii -> bool) (l : buffer) : nat :=
  match l with
  | c :: r => if P c then S (span P r) else 0
  | [] => 0
  end.

Definition skip_while (P : ascii -> bool) (s : Lexer) : Lexer :=
  advance (span P (drop (curPtr s) buf)) s.

Definition skipWhitespace (s : Lexer) : Lexer := skip_while isWhitespace s.

(** The body of a block comment after its opening [/*], at nesting [depth]: the
    bytes up to and including the [*/] that closes it, or [None] at the end of
    the buffer. *)
Fixpoint block_comment (l : buffer) (depth : nat) : option nat :=
  match l with
  | [] => None
  | c :: r =>
      match r with
      | d :: r' =>
          if (c =?c "/") && (d =?c "*") then
            n ← block_comment r' (depth + 1); Some (2 + n)
          else if (c =?c "*") && (d =?c "/") then
            if depth - 1 =? 0 then Some 2
            else n ← block_comment r' (depth - 1); Some (2 + n)
          else n ← block_comment r depth; Some (1 + n)
      | [] => n ← block_comment r depth; Some (1 + n)
      end
  end.

Definition skipComment (s : Lexer) : bool * Lexer :=
  if peek 1 s =?c "/" then
    (true, skip_while (fun c => negb (c =?c LF) && negb (c =?c CR)) (advance 2 s))
  else if peek 1 s =?c "*" then
    let commentStart := curPtr s in
    let s1 := advance 2 s in
    match block_comment (drop (curPtr s1) buf) 1 with
    | Some n => (true, advance n s1)
    | None =>
        (false, diag (Some commentStart) ["unterminated block comment"%string]
                  (set_cur (Nat.max (curPtr s1) bufferEnd) s1))
    end
  else (false, s).

Definition advanceUTF8 (s : Lexer) : bool * Lexer :=
  let len := getNumBytesForUTF8 (deref (curPtr s)) in
  if (0 <? len) && (curPtr s + len <=? bufferEnd)
     && isLegalUTF8Sequence (take len (drop (curPtr s) buf))
  then (true, advance len s)
  else (false, s).

(** [for (i < n) if (!isHexDigit(curPtr[i])) { report; return false; }
    curPtr += n; return true;] after the bound check. *)
Definition hex_digits (n : nat) (s : Lexer) : bool * Lexer :=
  if bufferEnd <? curPtr s + n then (false, s)
  else if forallb isHexDigit (take n (drop (curPtr s) buf)) then (true, advance n s)
  else (false, diag (Some (curPtr s)) ["invalid hex digit in escape"%string] s).

(** The digits of [\u{...}] after the brace: the loop stops at ['}'], at the end
    of the buffer, or at a byte that is no hexadecimal digit. *)
Definition braced_digits (s : Lexer) : bool * Lexer :=
  let s1 := skip_while isHexDigit s in
  if bufferEnd <=? curPtr s1 then
    (false, diag (Some (curPtr s1)) ["unterminated unicode escape sequence"%string] s1)
  else if deref (curPtr s1) =?c "}" then (true, advance 1 s1)
  else (false, diag (Some (curPtr s1)) ["invalid hex digit in unicode escape"%string] s1).

Definition isSimpleEscape (c : ascii) : bool :=
  existsb (Ascii.eqb c)
    ["n"; "r"; "t"; "0"; "b"; BACKSLASH; "'"; DQUOTE; BACKTICK; "$"].

Definition consumeEscape (s : Lexer) : bool * Lexer :=
  let escapeStart := curPtr s in
  let s1 := advance 1 s in
  if bufferEnd <=? curPtr s1 then (false, s1)
  else
    let c := deref (curPtr s1) in
    if isSimpleEscape c then (true, advance 1 s1)
    else if c =?c "x" then hex_digits 2 (advance 1 s1)
    else if c =?c "u" then
      let s2 := advance 1 s1 in
      if (curPtr s2 <? bufferEnd) && (deref (curPtr s2) =?c "{")
      then braced_digits (advance 1 s2)
      else hex_digits 4 s2
    else if c =?c "U" then hex_digits 8 (advance 1 s1)
    else (false, diag (Some escapeStart) ["invalid escape sequence"%string] s1).

(** ** Identifiers *)

Fixpoint ident_loop (fuel : nat) (s : Lexer) : option (bool * Lexer) :=
  match fuel with
  | 0 => None
  | S fuel =>
      if bufferEnd <=? curPtr s then Some (true, s)
      else
        let c := deref (curPtr s) in
        if isAsciiIdentBody c then ident_loop fuel (advance 1 s)
        else if isUTF8Start c then
          let '(ok, s1) := advanceUTF8 s in
          if ok then ident_loop fuel s1 else Some (false, s1)
        else Some (true, s)
  end.

(** The bytes from [start] to the cursor, as a string. *)
Definition spelling (start : nat) (s : Lexer) : string :=
  string_of_list_ascii (take (curPtr s - start) (drop start buf)).

Definition scanIdentifier (s : Lexer) : option (Token * Lexer) :=
  let start := curPtr s in
  let c := deref start in
  let '(ok, s1) :=
    if isAsciiIdentStart c then (true, advance 1 s)
    else if isUTF8Start c then advanceUTF8 s
    else (false, s) in
  if negb ok then Some (errorAt start s1, s1)
  else
    '(ok, s2) ← ident_loop (S (bufferEnd - curPtr s1)) s1;
    if negb ok then Some (errorAt start s2, s2)
    else Some (tokenTo (keyword_kind (spelling start s2)) start s2, s2).

(** ** Numbers *)

Definition isDigitOrUnderscore (c : ascii) : bool := isdigit c || (c =?c "_").

(** What [scanNumber] knows after a step: the cursor and the diagnostics, and the
    two flags [isFloat] and [hadLexicalError]. *)
Record NumberScan := {
  ns_lexer : Lexer;
  ns_isFloat : bool;
  ns_hadLexicalError : bool;
}.

(** Step 1, the prefix: which base was announced, and the digits after it. *)
Definition number_prefix (s : Lexer) : Base.t * NumberScan :=
  let done b f s := (b, {| ns_lexer := s; ns_isFloat := f; ns_hadLexicalError := false |}) in
  let c := deref (curPtr s) in
  if c =?c "." then
    done Base.Dec true (skip_while isDigitOrUnderscore (advance 1 s))
  else if c =?c "0" then
    let next := peek 1 s in
    if (next =?c "x") || (next =?c "X") then
      done Base.Hex false
        (skip_while (fun c => isHexDigit c || (c =?c "_")) (advance 2 s))
    else if (next =?c "b") || (next =?c "B") then
      done Base.Bin false
        (skip_while (fun c => isBinDigit c || (c =?c "_")) (advance 2 s))
    else if (next =?c "o") || (next =?c "O") then
      done Base.Oct false
        (skip_while (fun c => isOctDigit c || (c =?c "_")) (advance 2 s))
    else done Base.Dec false s
  else done Base.Dec false s.

(** The fraction of step 2: a dot followed by digits, a second dot (an error that
    swallows the rest), or a trailing dot. *)
Definition number_fraction (n : NumberScan) : NumberScan :=
  let s := ns_lexer n in
  if peek 0 s =?c "." then
    if isdigit (peek 1 s) then
      let s1 := skip_while isDigitOrUnderscore (advance 1 s) in
      if peek 0 s1 =?c "." then
        let s2 := diag (Some (curPtr s1)) ["multiple decimal points in float literal"%string] s1 in
        {| ns_lexer := skip_while (fun c => isdigit c || (c =?c ".") || (c =?c "_")) s2;
           ns_isFloat := true; ns_hadLexicalError := true |}
      else {| ns_lexer := s1; ns_isFloat := true; ns_hadLexicalError := ns_hadLexicalError n |}
    else if negb (isAsciiIdentStart (peek 1 s)) then
      {| ns_lexer := advance 1 s; ns_isFloat := true;
         ns_hadLexicalError := ns_hadLexicalError n |}
    else n
  else n.

(** The exponent of step 2. *)
Definition number_exponent (n : NumberScan) : NumberScan :=
  let s := ns_lexer n in
  if (peek 0 s =?c "e") || (peek 0 s =?c "E") then
    let s1 := advance 1 s in
    let s2 := if (peek 0 s1 =?c "+") || (peek 0 s1 =?c "-") then advance 1 s1 else s1 in
    let missing := negb (isdigit (peek 0 s2)) in
    let s3 := if missing
              then diag (Some (curPtr s2)) ["missing digits after exponent"%string] s2
              else s2 in
    {| ns_lexer := skip_while isDigitOrUnderscore s3; ns_isFloat := true;
       ns_hadLexicalError := ns_hadLexicalError n || missing |}
  else n.

(** Step 2, for decimal numbers only. *)
Definition number_body (b : Base.t) (n : NumberScan) : NumberScan :=
  match b with
  | Base.Dec =>
      number_exponent (number_fraction
        {| ns_lexer := skip_while isDigitOrUnderscore (ns_lexer n);
           ns_isFloat := ns_isFloat n; ns_hadLexicalError := ns_hadLexicalError n |})
  | _ => n
  end.

(** Step 3, the suffix. *)
Definition number_suffix (n : NumberScan) : NumericSuffix.t * NumberScan :=
  let s := ns_lexer n in
  if (curPtr s <? bufferEnd)
     && (isAsciiIdentStart (deref (curPtr s)) || isUTF8Start (deref (curPtr s))) then
    let suffixStart := curPtr s in
    let s1 := skip_while (fun c => isalnum c || (c =?c "_")) s in
    let suffixStr := spelling suffixStart s1 in
    let sx := numeric_suffix suffixStr in
    if enum_eqb sx NumericSuffix.None && negb (String.eqb suffixStr "") then
      (sx, {| ns_lexer := diag (Some suffixStart)
                 ["invalid numeric suffix '"%string; suffixStr; "'"%string] s1;
              ns_isFloat := ns_isFloat n; ns_hadLexicalError := true |})
    else (sx, {| ns_lexer := s1; ns_isFloat := ns_isFloat n;
                 ns_hadLexicalError := ns_hadLexicalError n |})
  else (NumericSuffix.None, n).

(** The check for a trailing underscore. *)
Definition number_trailing (start : nat) (sx : NumericSuffix.t) (n : NumberScan) : NumberScan :=
  let s := ns_lexer n in
  if (start <? curPtr s) && (deref (curPtr s - 1) =?c "_")
     && enum_eqb sx NumericSuffix.None then
    {| ns_lexer := diag (Some (curPtr s)) ["number cannot end with underscore"%string] s;
       ns_isFloat := ns_isFloat n; ns_hadLexicalError := true |}
  else n.

(** The offset of the first two underscores in a row in the bytes from [p] on. *)
Fixpoint double_underscore (p : nat) (l : buffer) : option nat :=
  match l with
  | c :: r =>
      match r with
      | d :: _ => if (c =?c "_") && (d =?c "_") then Some p else double_underscore (S p) r
      | [] => None
      end
  | [] => None
  end.

Definition number_consecutive (start : nat) (n : NumberScan) : NumberScan :=
  let s := ns_lexer n in
  match double_underscore start (take (curPtr s - start) (drop start buf)) with
  | Some p =>
      {| ns_lexer := diag (Some p) ["number cannot contain consecutive underscores"%string] s;
         ns_isFloat := ns_isFloat n; ns_hadLexicalError := true |}
  | None => n
  end.

Definition base_flag (b : Base.t) (t : Token) : Token :=
  match b with
  | Base.Hex => add_flag TF_IsHex t
  | Base.Bin => add_flag TF_IsBin t
  | Base.Oct => add_flag TF_IsOctal t
  | Base.Dec => t
  end.

Definition scanNumber (s : Lexer) : Token * Lexer :=
  let start := curPtr s in
  let '(b, n1) := number_prefix s in
  let n2 := number_body b n1 in
  let '(sx, n3) := number_suffix n2 in
  let n4 := number_trailing start sx n3 in
  let n5 := number_consecutive start n4 in
  let s' := ns_lexer n5 in
  if ns_hadLexicalError n5 then (errorAt start s', s')
  else
    let k := if enum_eqb sx NumericSuffix.d then TokenKind.DecimalLiteral
             else if ns_isFloat n5 then TokenKind.FloatLiteral
             else TokenKind.IntegerLiteral in
    (base_flag b (set_suffix sx (tokenTo k start s')), s').

(** ** Operators *)

(** The operators other than the braces: the kind for the character [c] and the
    two characters [p0] and [p1] after it, with the number of characters the
    operator takes after [c]. *)
Definition operator_kind (c p0 p1 : ascii) : TokenKind.t * nat :=
  if c =?c "+" then
    if p0 =?c "+" then (TokenKind.PlusPlus, 1)
    else if p0 =?c "=" then (TokenKind.PlusEqual, 1) else (TokenKind.Plus, 0)
  else if c =?c "-" then
    if p0 =?c "-" then (TokenKind.MinusMinus, 1)
    else if p0 =?c "=" then (TokenKind.MinusEqual, 1)
    else if p0 =?c ">" then (TokenKind.Arrow, 1) else (TokenKind.Minus, 0)
  else if c =?c "*" then
    if p0 =?c "*" then (TokenKind.Power, 1)
    else if p0 =?c "=" then (TokenKind.StarEqual, 1) else (TokenKind.Star, 0)
  else if c =?c "/" then
    if p0 =?c "=" then (TokenKind.SlashEqual, 1) else (TokenKind.Slash, 0)
  else if c =?c "%" then
    if p0 =?c "=" then (TokenKind.PercentEqual, 1) else (TokenKind.Percent, 0)
  else if c =?c "<" then
    if p0 =?c "<" then
      if p1 =?c "=" then (TokenKind.LessLessEqual, 2) else (TokenKind.LessLess, 1)
    else if p0 =?c "=" then (TokenKind.LessEqual, 1) else (TokenKind.Less, 0)
  else if c =?c ">" then
    if p0 =?c ">" then
      if p1 =?c "=" then (TokenKind.GreaterGreaterEqual, 2) else (TokenKind.GreaterGreater, 1)
    else if p0 =?c "=" then (TokenKind.GreaterEqual, 1) else (TokenKind.Greater, 0)
  else if c =?c "=" then
    if p0 =?c "=" then (TokenKind.EqualEqual, 1)
    else if p0 =?c ">" then (TokenKind.FatArrow, 1) else (TokenKind.Equal, 0)
  else if c =?c "!" then
    if p0 =?c "=" then (TokenKind.NotEqual, 1) else (TokenKind.Bang, 0)
  else if c =?c "&" then
    if p0 =?c "&" then (TokenKind.AmpAmp, 1)
    else if p0 =?c "=" then (TokenKind.AmpEqual, 1) else (TokenKind.Amp, 0)
  else if c =?c "|" then
    if p0 =?c ">" then (TokenKind.PipeGreater, 1)
    else if p0 =?c "|" then (TokenKind.PipePipe, 1)
    else if p0 =?c "=" then (TokenKind.PipeEqual, 1) else (TokenKind.Pipe, 0)
  else if c =?c "^" then
    if p0 =?c "=" then (TokenKind.CaretEqual, 1) else (TokenKind.Caret, 0)
  else if c =?c "~" then (TokenKind.Tilde, 0)
  else if c =?c "?" then
    if p0 =?c "?" then (TokenKind.QuestionQuestion, 1)
    else if p0 =?c "." then (TokenKind.QuestionDot, 1) else (TokenKind.Question, 0)
  else if c =?c "." then
    if (p0 =?c ".") && (p1 =?c ".") then (TokenKind.DotDotDot, 2) else (TokenKind.Dot, 0)
  else if c =?c "," then (TokenKind.Comma, 0)
  else if c =?c ";" then (TokenKind.Semicolon, 0)
  else if c =?c ":" then (TokenKind.Colon, 0)
  else if c =?c "(" then (TokenKind.LParen, 0)
  else if c =?c ")" then (TokenKind.RParen, 0)
  else if c =?c "[" then (TokenKind.LBracket, 0)
  else if c =?c "]" then (TokenKind.RBracket, 0)
  else (TokenKind.Error, 0).

Definition scanOperator (s : Lexer) : Token * Lexer :=
  let start := curPtr s in
  let c := deref start in
  let s1 := advance 1 s in
  if c =?c "{" then
    let s2 := match interpolationStack s1 with
              | bal :: rest => set_stack ((bal + 1)%Z :: rest) s1
              | [] => s1
              end in
    (tokenTo TokenKind.LBrace start s2, s2)
  else if c =?c "}" then
    match interpolationStack s1 with
    | bal :: rest =>
        if Z.eqb bal 0 then
          let s2 := set_fragment (Some (curPtr s1))
                      (set_state LexerState.TemplateString (set_stack rest s1)) in
          (tokenTo TokenKind.InterpolationEnd start s2, s2)
        else
          let s2 := set_stack ((bal - 1)%Z :: rest) s1 in
          (tokenTo TokenKind.RBrace start s2, s2)
    | [] => (tokenTo TokenKind.RBrace start s1, s1)
    end
  else
    let '(k, extra) := operator_kind c (peek 0 s1) (peek 1 s1) in
    let s2 := advance extra s1 in
    (tokenTo k start s2, s2).

(** ** Strings and characters *)

(** The scanning loop of [scanString].  [start] is the opening quote of a
    standard string and [None] in a template. *)
Fixpoint string_loop (fuel : nat) (isTemplate : bool) (start : option nat)
    (hasEscape hadError : bool) (s : Lexer) : option (Token * Lexer) :=
  match fuel with
  | 0 => None
  | S fuel =>
      let quote := if isTemplate then BACKTICK else DQUOTE in
      let leave s := if isTemplate
                     then set_fragment None (set_state LexerState.Normal s) else s in
      if bufferEnd <=? curPtr s then
        let errStart := if isTemplate then fragmentStart s else start in
        let s2 := diag errStart
                    [if isTemplate then "unterminated template string"%string
                     else "unterminated string literal"%string] (leave s) in
        Some (errorAt (default 0 errStart) s2, s2)
      else
        let c := deref (curPtr s) in
        if negb isTemplate && ((c =?c LF) || (c =?c CR)) then
          let s1 := diag (Some (curPtr s)) ["unterminated string literal"%string] s in
          Some (errorAt (default 0 start) s1, s1)
        else if c =?c BACKSLASH then
          let '(ok, s1) := consumeEscape s in
          string_loop fuel isTemplate start true (hadError || negb ok) s1
        else if c =?c quote then
          let tokenStart := if isTemplate then fragmentStart s else start in
          let s1 := leave (advance 1 s) in
          if hadError then Some (errorAt (default 0 tokenStart) s1, s1)
          else
            let t := tokenTo (if isTemplate then TokenKind.TemplateString
                              else TokenKind.StringLiteral) (default 0 tokenStart) s1 in
            Some (if hasEscape then add_flag TF_IsEscaped t else t, s1)
        else if isTemplate && (c =?c "$") && (peek 1 s =?c "{") then
          if bool_decide (fragmentStart s = Some (curPtr s)) then
            let s1 := set_stack (0%Z :: interpolationStack s)
                        (set_state LexerState.Normal (advance 2 s)) in
            Some (mkToken TokenKind.InterpolationStart (curPtr s) 2, s1)
          else
            let t := tokenTo TokenKind.StringFragment (default 0 (fragmentStart s)) s in
            Some (if hasEscape then add_flag TF_IsEscaped t else t,
                  set_fragment (Some (curPtr s)) s)
        else string_loop fuel isTemplate start hasEscape hadError (advance 1 s)
  end.

Definition scanString (s : Lexer) : option (Token * Lexer) :=
  let loop isTemplate start s :=
    string_loop (S (bufferEnd - curPtr s)) isTemplate start false false s in
  if inTemplateString s then
    loop true None
      (match fragmentStart s with None => set_fragment (Some (curPtr s)) s | Some _ => s end)
  else
    let start := curPtr s in
    let s1 := advance 1 s in
    if deref start =?c BACKTICK then
      loop true None
        (set_fragment (Some (curPtr s1)) (set_state LexerState.TemplateString s1))
    else loop false (Some start) s1.

Definition scanChar (s : Lexer) : Token * Lexer :=
  let start := curPtr s in
  let s1 := advance 1 s in
  let '(ok, s2) := if peek 0 s1 =?c BACKSLASH then consumeEscape s1 else advanceUTF8 s1 in
  if negb ok then (errorAt start s2, s2)
  else if negb (peek 0 s2 =?c "'") then (errorAt start s2, s2)
  else
    let s3 := advance 1 s2 in
    (tokenTo TokenKind.CharLiteral start s3, s3).

(** ** The entry point *)

Fixpoint trivia_loop (fuel : nat) (s : Lexer) : option (Trivia.t * Lexer) :=
  match fuel with
  | 0 => None
  | S fuel =>
      let s1 := skipWhitespace s in
      if bufferEnd <=? curPtr s1 then Some (Trivia.AtEof, s1)
      else if (deref (curPtr s1) =?c "/")
              && ((peek 1 s1 =?c "/") || (peek 1 s1 =?c "*")) then
        let '(ok, s2) := skipComment s1 in
        if ok then trivia_loop fuel s2 else Some (Trivia.BadComment, s2)
      else Some (Trivia.AtToken, s1)
  end.

(** The dispatch on the first character of a token. *)
Definition scanToken (s : Lexer) : option (Token * Lexer) :=
  let c := deref (curPtr s) in
  if isAsciiIdentStart c || isUTF8Start c then scanIdentifier s
  else if isdigit c then Some (scanNumber s)
  else if (c =?c ".") && isdigit (peek 1 s) then Some (scanNumber s)
  else if (c =?c DQUOTE) || (c =?c BACKTICK) then scanString s
  else if c =?c "'" then Some (scanChar s)
  else Some (scanOperator s).

Definition next (s : Lexer) : option (Token * Lexer) :=
  if inTemplateString s && bool_decide (interpolationStack s = []) then
    if bufferEnd <=? curPtr s then Some (errorAt (default 0 (fragmentStart s)) s, s)
    else scanString s
  else
    '(r, s1) ← trivia_loop (S (bufferEnd - curPtr s)) s;
    match r with
    | Trivia.AtEof => Some (mkToken TokenKind.Eof (curPtr s1) 0, s1)
    | Trivia.BadComment => Some (errorAt (curPtr s1) s1, s1)
    | Trivia.AtToken => scanToken s1
    end.

(** The token stream a client pulls: [n] calls of [next]. *)
Fixpoint next_n (n : nat) (s : Lexer) : option (list Token * Lexer) :=
  match n with
  | 0 => Some ([], s)
  | S n =>
      '(t, s1) ← next s;
      '(ts, s2) ← next_n n s1;
      Some (t :: ts, s2)
  end.

(** Pulling tokens until [Eof], at most [fuel] of them. *)
Fixpoint lex_all (fuel : nat) (s : Lexer) : option (list Token) :=
  match fuel with
  | 0 => None
  | S fuel =>
      '(t, s1) ← next s;
      if tok_is t TokenKind.Eof then Some [t]
      else ts ← lex_all fuel s1; Some (t :: ts)
  end.

End Scanner.
