(* ===== verification/LexerFacts.v ===== *)
(** * The lexer's scanning steps

    The lemmas the properties of the lexer rest on.  A scanning step [moves] the
    lexer when it only advances the cursor inside the buffer (and reports
    diagnostics): the template state, the fragment and the interpolation stack
    stay as they are.  [moves] is a preorder, and every helper of [Lexer.cpp] that
    is not a state change of the template machine is shown to move. *)

From S2P Require Import Prelude Diag Tokens Lexer.

Section Facts.
Context (buf : buffer) {U : Utf8}.
Implicit Types (s : Lexer) (t : Token) (c : ascii) (P : ascii -> bool).
Abbreviation bufferEnd := (bufferEnd buf).

Record moves s s' : Prop := {
  mv_le : curPtr s <= curPtr s';
  mv_end : curPtr s <= bufferEnd -> curPtr s' <= bufferEnd;
  mv_fragment : fragmentStart s' = fragmentStart s;
  mv_state : state s' = state s;
  mv_stack : interpolationStack s' = interpolationStack s;
}.

#[export] Instance moves_preorder : PreOrder moves.
Proof.
  split.
  - intros s. by split.
  - intros s1 s2 s3 [] []. split; [lia | auto | congruence..].
Qed.

Lemma moves_refl s : moves s s.
Proof. done. Qed.

Lemma moves_diag loc m s : moves s (diag loc m s).
Proof. by split. Qed.

Lemma moves_advance n s : curPtr s + n <= bufferEnd -> moves s (advance n s).
Proof. intros H. split; simpl; [lia | lia | done..]. Qed.

Lemma moves_from_advance n s s' :
  curPtr s + n <= bufferEnd -> moves (advance n s) s' -> moves s s'.
Proof. intros L M. etransitivity; [by apply moves_advance | done]. Qed.

(** ** Bytes and spans *)

Lemma length_rest p : List.length (drop p buf) = bufferEnd - p.
Proof. apply length_drop. Qed.

Lemma drop_deref p :
  p < bufferEnd -> drop p buf = deref buf p :: drop (S p) buf.
Proof.
  intros H. unfold deref. destruct (lookup_lt_is_Some_2 buf p H) as [c E].
  rewrite E. simpl. by apply drop_S.
Qed.

Lemma peek_lt n s c :
  peek buf n s = c -> c <> NUL -> curPtr s + n < bufferEnd.
Proof. unfold peek. case_match; breflect; [congruence | lia]. Qed.

Lemma peek_deref n s :
  curPtr s + n < bufferEnd -> peek buf n s = deref buf (curPtr s + n).
Proof. intros H. unfold peek. case_match; breflect; [lia | done]. Qed.

Lemma deref_lt p c : deref buf p = c -> c <> NUL -> p < bufferEnd.
Proof.
  unfold deref. intros E N. destruct (buf !! p) as [d |] eqn:L; [| by simplify_eq/=].
  by apply lookup_lt_Some in L.
Qed.

Lemma span_le P l : span P l <= List.length l.
Proof. induction l as [| c l IH]; simpl; [lia |]. case_match; lia. Qed.

Lemma span_take P l : forallb P (take (span P l) l) = true.
Proof.
  induction l as [| c l IH]; simpl; [done |]. case_match eqn:E; simpl; [| done].
  by rewrite E.
Qed.

Lemma span_stop P l c r : drop (span P l) l = c :: r -> P c = false.
Proof.
  induction l as [| d l IH]; simpl; [done |]. case_match eqn:E; simpl; [done |].
  intros ?. by simplify_eq.
Qed.

Lemma moves_skip_while P s : moves s (skip_while buf P s).
Proof.
  unfold skip_while, advance. pose proof (span_le P (drop (curPtr s) buf)) as L.
  rewrite length_rest in L. split; simpl; [lia | lia | done..].
Qed.

Lemma skip_while_stop P s :
  curPtr (skip_while buf P s) < bufferEnd ->
  P (deref buf (curPtr (skip_while buf P s))) = false.
Proof.
  intros H. pose proof (drop_deref _ H) as D. revert H D.
  unfold skip_while. simpl. set (n := span P (drop (curPtr s) buf)). intros H D.
  apply (span_stop P (drop (curPtr s) buf) _ (drop (S (curPtr s + n)) buf)).
  fold n. rewrite drop_drop. done.
Qed.


(** ** Comments *)

Lemma block_comment_cons2 c d r depth :
  block_comment (c :: d :: r) depth =
    (if (c =?c "/") && (d =?c "*") then n ← block_comment r (depth + 1); Some (2 + n)
     else if (c =?c "*") && (d =?c "/") then
       if depth - 1 =? 0 then Some 2
       else n ← block_comment r (depth - 1); Some (2 + n)
     else n ← block_comment (d :: r) depth; Some (1 + n)).
Proof. done. Qed.

(** A block comment ends inside the buffer and takes at least one byte. *)
Lemma block_comment_bound k :
  forall l depth n, List.length l <= k -> block_comment l depth = Some n ->
    0 < n <= List.length l.
Proof.
  induction k as [| k IH]; intros [| c [| d r]] depth n L; simpl in L; try done; try lia.
  assert (Hrec : forall l' dp e m, List.length l' <= k ->
            (m' ← block_comment l' dp; Some (e + m')) = Some m -> 0 < m <= e + List.length l').
  { intros l' dp e m L' E. destruct (block_comment l' dp) as [m' |] eqn:Em; simplify_eq/=.
    apply IH in Em; [lia | done]. }
  rewrite block_comment_cons2. simpl List.length.
  intros E. repeat case_match; first [apply Hrec in E; simpl in *; lia | simplify_eq; lia].
Qed.

Lemma moves_skipComment s :
  (peek buf 1 s = "/"%char \/ peek buf 1 s = "*"%char) ->
  moves s (skipComment buf s).2 /\ curPtr s < curPtr (skipComment buf s).2.
Proof.
  intros H.
  assert (E : curPtr s + 1 < bufferEnd) by (destruct H as [H | H]; by apply (peek_lt 1) in H).
  unfold skipComment. case_match eqn:E1; [| case_match eqn:E2].
  - pose proof (moves_skip_while (fun c => negb (c =?c LF) && negb (c =?c CR)) (advance 2 s)) as M.
    simpl. split; [| apply mv_le in M; simpl in *; lia].
    transitivity (advance 2 s); [apply moves_advance; lia | done].
  - simpl. destruct (block_comment _ 1) as [n |] eqn:B; simpl.
    + apply (block_comment_bound _ _ _ _ (Nat.le_refl _)) in B.
      rewrite length_rest in B. split; [| lia]. split; simpl; [lia | lia | done..].
    + split; [| lia]. split; simpl; [lia | lia | done..].
  - breflect. by destruct H.
Qed.

(** ** Escapes and UTF-8 *)

Lemma moves_hex_digits n s : moves s (hex_digits buf n s).2.
Proof.
  unfold hex_digits. case_match; breflect; [done |]. case_match; simpl.
  - apply moves_advance. lia.
  - apply moves_diag.
Qed.

Lemma moves_braced_digits s : curPtr s <= bufferEnd -> moves s (braced_digits buf s).2.
Proof.
  intros L. unfold braced_digits. pose proof (moves_skip_while isHexDigit s) as M.
  repeat case_match; breflect; simpl; (etransitivity; [exact M |]);
    first [apply moves_diag | apply moves_advance; lia].
Qed.

Lemma moves_consumeEscape s :
  curPtr s < bufferEnd ->
  moves s (consumeEscape buf s).2 /\ curPtr s < curPtr (consumeEscape buf s).2.
Proof.
  intros L.
  assert (H : moves (advance 1 s) (consumeEscape buf s).2).
  { unfold consumeEscape. simpl. repeat case_match; breflect; simpl in *;
      try apply moves_refl; try apply moves_diag;
      (apply (moves_from_advance 1); simpl; [lia |]);
      try apply moves_refl; try apply moves_hex_digits.
      apply (moves_from_advance 1); simpl; [lia |]. apply moves_braced_digits. simpl. lia. }
  split; [| apply mv_le in H; simpl in H; lia].
  transitivity (advance 1 s); [apply moves_advance; lia | done].
Qed.

Lemma moves_advanceUTF8 s : moves s (advanceUTF8 buf s).2.
Proof.
  unfold advanceUTF8. case_match; [| done]. breflect. apply moves_advance. lia.
Qed.

Lemma advanceUTF8_true s :
  (advanceUTF8 buf s).1 = true -> curPtr s < curPtr (advanceUTF8 buf s).2.
Proof. unfold advanceUTF8. case_match; [| done]. breflect. simpl. lia. Qed.

Lemma advanceUTF8_false s :
  (advanceUTF8 buf s).1 = false -> (advanceUTF8 buf s).2 = s.
Proof. unfold advanceUTF8. by case_match. Qed.

Lemma ident_loop_total fuel s :
  curPtr s <= bufferEnd -> bufferEnd - curPtr s < fuel ->
  exists ok s', ident_loop buf fuel s = Some (ok, s') /\ moves s s'.
Proof.
  revert s. induction fuel as [| fuel IH]; intros s L F; [lia |]. simpl.
  case_match eqn:E1; breflect; [eauto using moves_refl |].
  case_match; [| case_match]; [| | eauto using moves_refl].
  - destruct (IH (advance 1 s)) as (ok & s' & -> & M); simpl; [lia.. |].
    exists ok, s'. split; [done |]. by apply (moves_from_advance 1); [lia |].
  - pose proof (moves_advanceUTF8 s) as M. pose proof (advanceUTF8_true s) as P.
    destruct (advanceUTF8 buf s) as [[] s1]; simpl in *; [| eauto].
    specialize (P eq_refl). pose proof (mv_end _ _ M).
    destruct (IH s1) as (ok & s' & -> & M'); [lia.. |].
    exists ok, s'. split; [done |]. by etransitivity.
Qed.

(** Where a token starts there is nothing to skip. *)
Lemma skip_while_here P s : P (deref buf (curPtr s)) = false -> skip_while buf P s = s.
Proof.
  intros Q. unfold skip_while, advance. destruct (decide (curPtr s < bufferEnd)) as [L | L].
  - rewrite (drop_deref _ L). simpl. rewrite Q. rewrite Nat.add_0_r. by destruct s.
  - rewrite drop_ge by (unfold bufferEnd in *; lia). simpl. rewrite Nat.add_0_r. by destruct s.
Qed.

Lemma trivia_loop_here fuel s :
  curPtr s < bufferEnd -> isWhitespace (deref buf (curPtr s)) = false ->
  (deref buf (curPtr s) =?c "/") = false ->
  trivia_loop buf (S fuel) s = Some (Trivia.AtToken, s).
Proof.
  intros L W N. cbn [trivia_loop]. unfold skipWhitespace. rewrite (skip_while_here _ _ W).
  rewrite N. simpl. destruct (_ <=? _) eqn:E; breflect; [lia | done].
Qed.

(** ** Numbers *)

Lemma moves_peek n s c :
  peek buf n s = c -> c <> NUL -> moves s (advance (S n) s).
Proof. intros E N. apply moves_advance. pose proof (peek_lt n s c E N). lia. Qed.

Lemma isdigit_NUL c : isdigit c = true -> c <> NUL.
Proof. by intros H ->. Qed.

Lemma moves_skip_after n s c P :
  peek buf n s = c -> c <> NUL -> moves s (skip_while buf P (advance (S n) s)).
Proof. intros E N. etransitivity; [by eapply moves_peek | apply moves_skip_while]. Qed.

Lemma skip_while_pos P s :
  curPtr s < bufferEnd -> P (deref buf (curPtr s)) = true ->
  curPtr s < curPtr (skip_while buf P s).
Proof.
  intros L E. unfold skip_while. rewrite (drop_deref _ L). simpl. rewrite E. lia.
Qed.

Lemma moves_number_prefix s :
  curPtr s < bufferEnd -> moves s (ns_lexer (number_prefix buf s).2).
Proof.
  intros L. unfold number_prefix. repeat case_match; breflect; simpl;
    try apply moves_refl;
    try (apply (moves_skip_after 0 s "."%char); [| done]; rewrite peek_deref;
         by rewrite ?Nat.add_0_r).
  all: match goal with H : _ || _ = true |- _ => apply orb_true_iff in H; destruct H end;
    breflect; by eapply moves_skip_after.
Qed.

Lemma moves_number_fraction n : moves (ns_lexer n) (ns_lexer (number_fraction buf n)).
Proof.
  unfold number_fraction. repeat case_match; breflect; simpl; try apply moves_refl.
  - etransitivity; [by apply (moves_skip_after 0 _ "."%char) |].
    etransitivity; [by apply moves_diag | apply moves_skip_while].
  - by apply (moves_skip_after 0 _ "."%char).
  - by apply (moves_peek 0 _ "."%char).
Qed.

Lemma moves_number_exponent n : moves (ns_lexer n) (ns_lexer (number_exponent buf n)).
Proof.
  unfold number_exponent. case_match eqn:E; [| apply moves_refl].
  assert (E1 : exists c, peek buf 0 (ns_lexer n) = c /\ c <> NUL).
  { apply orb_true_iff in E. destruct E; breflect; eexists; split; eauto; done. }
  destruct E1 as (c & E1 & N1). cbn zeta. simpl.
  etransitivity; [by apply (moves_peek 0 _ c) |].
  set (s1 := advance 1 (ns_lexer n)).
  etransitivity; [| apply moves_skip_while].
  transitivity (if (peek buf 0 s1 =?c "+") || (peek buf 0 s1 =?c "-") then advance 1 s1 else s1).
  - case_match eqn:E2; [| apply moves_refl]. apply orb_true_iff in E2.
    destruct E2; breflect; by eapply moves_peek.
  - match goal with |- moves ?x _ => generalize x; intros s2 end.
    destruct (negb _); first [apply moves_diag | apply moves_refl].
Qed.

Lemma moves_number_body b n : moves (ns_lexer n) (ns_lexer (number_body buf b n)).
Proof.
  destruct b; simpl; try apply moves_refl.
  etransitivity; [| apply moves_number_exponent].
  etransitivity; [| apply moves_number_fraction]. apply moves_skip_while.
Qed.

Lemma moves_number_suffix n : moves (ns_lexer n) (ns_lexer (number_suffix buf n).2).
Proof.
  unfold number_suffix. repeat case_match; simpl; try apply moves_refl;
    try apply moves_skip_while.
  etransitivity; [apply moves_skip_while | apply moves_diag].
Qed.

Lemma moves_number_trailing st sx n :
  moves (ns_lexer n) (ns_lexer (number_trailing buf st sx n)).
Proof. unfold number_trailing. case_match; [apply moves_diag | apply moves_refl]. Qed.

Lemma moves_number_consecutive st n :
  moves (ns_lexer n) (ns_lexer (number_consecutive buf st n)).
Proof. unfold number_consecutive. case_match; [apply moves_diag | apply moves_refl]. Qed.

Lemma number_prefix_progress s :
  curPtr s < bufferEnd ->
  isdigit (deref buf (curPtr s)) || (deref buf (curPtr s) =?c ".") = true ->
  curPtr s < curPtr (ns_lexer (number_prefix buf s).2)
  \/ (number_prefix buf s).1 = Base.Dec /\ ns_lexer (number_prefix buf s).2 = s
      /\ isdigit (deref buf (curPtr s)) = true.
Proof.
  intros L D. unfold number_prefix.
  repeat case_match; simpl; try (left; lia); right; split_and!; try done;
    by rewrite orb_false_r in D.
Qed.

(** [scanNumber] moves, and its tokens are not empty. *)
Lemma moves_scanNumber s :
  curPtr s < bufferEnd ->
  isdigit (deref buf (curPtr s)) || (deref buf (curPtr s) =?c ".") = true ->
  moves s (scanNumber buf s).2 /\ curPtr s < curPtr (scanNumber buf s).2.
Proof.
  intros L D. unfold scanNumber.
  pose proof (moves_number_prefix s L) as M1.
  pose proof (number_prefix_progress s L D) as P1.
  destruct (number_prefix buf s) as [b n1]. simpl in M1, P1.
  pose proof (moves_number_body b n1) as M2.
  assert (P2 : curPtr s < curPtr (ns_lexer (number_body buf b n1))).
  { destruct P1 as [P1 | (-> & E & D')]; [apply mv_le in M2; lia |].
    pose proof (skip_while_pos isDigitOrUnderscore s L) as P.
    unfold isDigitOrUnderscore at 1 in P. rewrite D' in P. specialize (P eq_refl).
    clear M2. simpl. rewrite E.
    match goal with |- context [number_fraction buf ?n] =>
      pose proof (mv_le _ _ (moves_number_fraction n));
      pose proof (mv_le _ _ (moves_number_exponent (number_fraction buf n))) end.
    simpl in *. lia. }
  set (n2 := number_body buf b n1) in *.
  pose proof (moves_number_suffix n2) as M3. destruct (number_suffix buf n2) as [sx n3].
  pose proof (moves_number_trailing (curPtr s) sx n3) as M4.
  set (n4 := number_trailing buf (curPtr s) sx n3) in *.
  pose proof (moves_number_consecutive (curPtr s) n4) as M5.
  set (n5 := number_consecutive buf (curPtr s) n4) in *. simpl in *.
  assert (M : moves (ns_lexer n2) (ns_lexer n5)) by (etransitivity; [done |]; by etransitivity).
  assert (G : moves s (ns_lexer n5) /\ curPtr s < curPtr (ns_lexer n5)).
  { split; [| apply mv_le in M; lia]. by do 2 (etransitivity; [done |]). }
  by case_match.
Qed.

End Facts.

(** ** Tokens *)

(** The token [t] ends where the cursor of [s] stands; an error token of no bytes
    is reported with the length one. *)
Record covers (s : Lexer) (t : Token) : Prop := {
  cv_start : location t <= curPtr s;
  cv_length : length t = (Z.of_nat (curPtr s) - Z.of_nat (location t))%Z
    \/ kind t = TokenKind.Error /\ length t = 1%Z /\ location t = curPtr s;
}.

(** How a token changes the number of open interpolations. *)
Definition interpolation_step (t : Token) (d d' : nat) : Prop :=
  match kind t with
  | TokenKind.InterpolationStart => d' = S d
  | TokenKind.InterpolationEnd => d = S d'
  | _ => d' = d
  end.

Section Tokens.
Context (buf : buffer).
Context (Hsize : (Z.of_nat (bufferEnd buf) < 2 ^ 32)%Z).
Implicit Types (s : Lexer) (t : Token).

Lemma covers_tokenTo k st s :
  curPtr s <= bufferEnd buf -> st <= curPtr s -> covers s (tokenTo k st s).
Proof. intros L1 L2. split; simpl; [done |]. left. apply u32_small. lia. Qed.

Lemma covers_errorAt st s :
  curPtr s <= bufferEnd buf -> st <= curPtr s -> covers s (errorAt st s).
Proof.
  intros L1 L2. split; simpl; [done |].
  assert (E : u64 (Z.of_nat (curPtr s) - Z.of_nat st) = (Z.of_nat (curPtr s) - Z.of_nat st)%Z)
    by (apply u64_small; lia).
  rewrite E. destruct (decide (st = curPtr s)) as [-> | N].
  - right. split_and!; [done | | done]. rewrite Z.sub_diag. done.
  - left. rewrite Z.max_r by lia. apply u32_small. lia.
Qed.

Lemma covers_add_flag f s t : covers s t -> covers s (add_flag f t).
Proof. by intros [C1 C2]. Qed.

Lemma covers_set_suffix x s t : covers s t -> covers s (set_suffix x t).
Proof. by intros [C1 C2]. Qed.

Lemma covers_base_flag b s t : covers s t -> covers s (base_flag b t).
Proof. by destruct b; simpl; try apply covers_add_flag. Qed.
End Tokens.

#[export] Hint Resolve covers_tokenTo covers_errorAt covers_add_flag covers_set_suffix
  covers_base_flag : moksha.

(** The kinds that are neither an end of an interpolation, so that they leave the
    depth alone, nor the end of the file. *)
Definition plain_kind (k : TokenKind.t) : bool :=
  negb (enum_eqb k TokenKind.Eof)
  && (negb (enum_eqb k TokenKind.InterpolationStart)
      && negb (enum_eqb k TokenKind.InterpolationEnd)).

Lemma plain_step t d : plain_kind (kind t) = true -> interpolation_step t d d.
Proof. unfold interpolation_step. by destruct (kind t). Qed.

Lemma StringSwitch_elem {A} (cases : list (string * A)) d x :
  StringSwitch cases d x = d \/ StringSwitch cases d x ∈ map snd cases.
Proof.
  induction cases as [| [k v] cases IH]; simpl; [by left |].
  case_match; [right; by left | destruct IH; [by left | right; by right]].
Qed.

Lemma keyword_kind_plain x : plain_kind (keyword_kind x) = true.
Proof.
  destruct (StringSwitch_elem keyword_cases TokenKind.Identifier x) as [E | E];
    unfold keyword_kind; [by rewrite E |].
  assert (F : forallb plain_kind (map snd keyword_cases) = true) by done.
  rewrite forallb_forall in F. apply F. by apply list_elem_of_In.
Qed.

Lemma operator_kind_plain c p0 p1 : plain_kind (operator_kind c p0 p1).1 = true.
Proof. unfold operator_kind. by case_all. Qed.

(** An operator takes a character after its first only when it looked at it. *)
Lemma operator_kind_extra c p0 p1 :
  let n := (operator_kind c p0 p1).2 in
  n = 0 \/ n = 1 /\ p0 <> NUL \/ n = 2 /\ p1 <> NUL.
Proof. unfold operator_kind. case_all; breflect; subst; auto; right; by auto. Qed.
