(* ===== verification/LexerProps.v ===== *)
(** * The lexer: invariant and properties

    [wf] is the invariant of [class Lexer]; [scanned] says what one call of a
    scanning function guarantees.  Every function of the dispatch satisfies it, so
    [next] does. *)

From S2P Require Import Prelude Diag Tokens Lexer LexerFacts.

(** The invariant: the cursor and the pending fragment lie in the buffer, a
    template has a fragment, outside every interpolation it starts at the cursor,
    and no brace balance is negative. *)
Record wf (buf : buffer) (s : Lexer) : Prop := {
  wf_end : curPtr s <= bufferEnd buf;
  wf_fragment : forall f, fragmentStart s = Some f -> f <= curPtr s;
  wf_template : state s = LexerState.TemplateString -> is_Some (fragmentStart s);
  wf_pending : state s = LexerState.TemplateString -> interpolationStack s = [] ->
    fragmentStart s = Some (curPtr s);
  wf_balance : Forall (fun b => (0 <= b)%Z) (interpolationStack s);
}.

(** The result [(t, s')] of scanning from [s] a token that starts at [from] or
    later. *)
Record scanned (buf : buffer) (from : nat) (s : Lexer) (t : Token) (s' : Lexer) : Prop := {
  sc_wf : wf buf s';
  sc_covers : covers s' t;
  sc_from : from <= location t;
  sc_eof : kind t = TokenKind.Eof ->
    location t = bufferEnd buf /\ curPtr s' = bufferEnd buf;
  sc_le : curPtr s <= curPtr s';
  sc_step : interpolation_step t (List.length (interpolationStack s))
    (List.length (interpolationStack s'));
}.

Section Props.
Context (buf : buffer) {U : Utf8}.
Context (Hsize : (Z.of_nat (bufferEnd buf) < 2 ^ 32)%Z).
Implicit Types (s : Lexer) (t : Token) (c : ascii).

Lemma wf_moves s s' :
  wf buf s -> moves buf s s' ->
  (state s = LexerState.TemplateString -> interpolationStack s <> []) -> wf buf s'.
Proof.
  intros [W1 W2 W3 W4 W5] [M1 M2 M3 M4 M5] N. split; rewrite ?M3, ?M4, ?M5; auto.
  - intros f Hf. apply W2 in Hf. lia.
  - intros E1 E2. by apply N in E1.
Qed.

Lemma scanned_moves from s t s' :
  wf buf s -> moves buf s s' ->
  (state s = LexerState.TemplateString -> interpolationStack s <> []) ->
  covers s' t -> from <= location t -> plain_kind (kind t) = true -> scanned buf from s t s'.
Proof.
  intros W M N C F K.
  split; [by eapply wf_moves | done | done | intros Q; by rewrite Q in K | apply M |].
  rewrite (mv_stack _ _ _ M). by apply plain_step.
Qed.

(** ** Identifiers, numbers, characters *)

Definition outside_template s : Prop :=
  state s = LexerState.TemplateString -> interpolationStack s <> [].

Lemma scanIdentifier_scanned s :
  wf buf s -> outside_template s -> curPtr s < bufferEnd buf ->
  exists t s', scanIdentifier buf s = Some (t, s') /\ scanned buf (curPtr s) s t s'
    /\ moves buf s s'
    /\ (curPtr s < curPtr s'
        \/ kind t = TokenKind.Error /\ isAsciiIdentStart (deref buf (curPtr s)) = false).
Proof.
  intros W N L. unfold scanIdentifier.
  set (first := if isAsciiIdentStart _ then _ else _).
  assert (F : moves buf s first.2 /\ (first.1 = true -> curPtr s < curPtr first.2)
    /\ (first.1 = false -> isAsciiIdentStart (deref buf (curPtr s)) = false)).
  { unfold first. case_match; [| case_match]; simpl.
    - split_and!; [apply moves_advance; lia | lia | done].
    - split_and!; [apply moves_advanceUTF8 | apply advanceUTF8_true | done].
    - split_and!; [apply moves_refl | done | done]. }
  destruct first as [ok s1]. simpl in F. destruct F as (M & P & Q).
  pose proof (mv_end _ _ _ M (wf_end _ _ W)) as L1. pose proof (mv_le _ _ _ M) as L2.
  destruct ok; cbn [negb].
  - destruct (ident_loop_total buf (S (bufferEnd buf - curPtr s1)) s1) as (ok & s2 & E & M2);
      [done | lia |].
    rewrite E. simpl. specialize (P eq_refl). pose proof (mv_le _ _ _ M2).
    pose proof (mv_end _ _ _ M2 L1).
    assert (M3 : moves buf s s2) by (by etransitivity).
    destruct ok; simpl; eexists _, s2; (split; [done |]); (split; [| split; [done | left; lia]]);
      apply scanned_moves; auto.
    + apply covers_tokenTo with buf; [done.. | lia].
    + apply keyword_kind_plain.
    + apply covers_errorAt with buf; [done.. | lia].
  - eexists _, s1. split; [done |]. split; [| split; [done | right; auto]].
    apply scanned_moves; auto. by apply covers_errorAt with buf.
Qed.

(** What [scanNumber] returns: an error over the bytes it scanned, or a literal of
    one of the three numeric kinds over those bytes. *)
Lemma scanNumber_token s :
  let s' := (scanNumber buf s).2 in
  (scanNumber buf s).1 = errorAt (curPtr s) s'
  \/ exists k b sx, (scanNumber buf s).1 = base_flag b (set_suffix sx (tokenTo k (curPtr s) s'))
       /\ k ∈ [TokenKind.DecimalLiteral; TokenKind.FloatLiteral; TokenKind.IntegerLiteral].
Proof.
  unfold scanNumber. destruct (number_prefix buf s) as [b n1].
  destruct (number_suffix buf _) as [sx n3]. simpl. case_match; [by left |]. right. simpl.
  eexists _, _, _. split; [done |].
  repeat case_match; rewrite !elem_of_cons; auto.
Qed.

Lemma kind_base_flag b t : kind (base_flag b t) = kind t.
Proof. by destruct b. Qed.

Lemma scanNumber_scanned s :
  wf buf s -> outside_template s -> curPtr s < bufferEnd buf ->
  isdigit (deref buf (curPtr s)) || (deref buf (curPtr s) =?c ".") = true ->
  scanned buf (curPtr s) s (scanNumber buf s).1 (scanNumber buf s).2
  /\ curPtr s < curPtr (scanNumber buf s).2 /\ moves buf s (scanNumber buf s).2.
Proof.
  intros W N L D. destruct (moves_scanNumber buf s L D) as [M P]. split; [| by split].
  pose proof (mv_end _ _ _ M (wf_end _ _ W)) as L1.
  destruct (scanNumber_token s) as [-> | (k & b & sx & -> & K)]; apply scanned_moves; auto.
  - apply covers_errorAt with buf; [done.. | lia].
  - apply covers_base_flag, covers_set_suffix, covers_tokenTo with buf; [done.. | lia].
  - by destruct b.
  - rewrite kind_base_flag. rewrite !elem_of_cons in K. simpl.
    destruct K as [-> | [-> | [-> | K]]]; [done.. |]. by apply not_elem_of_nil in K.
Qed.

Lemma scanChar_scanned s :
  wf buf s -> outside_template s -> curPtr s < bufferEnd buf ->
  scanned buf (curPtr s) s (scanChar buf s).1 (scanChar buf s).2
  /\ curPtr s < curPtr (scanChar buf s).2 /\ moves buf s (scanChar buf s).2.
Proof.
  intros W N L. unfold scanChar.
  set (inner := if _ =?c BACKSLASH then _ else _).
  assert (F : moves buf (advance 1 s) inner.2).
  { unfold inner. case_match; [| apply moves_advanceUTF8].
    breflect. apply moves_consumeEscape. apply (peek_lt buf 0) in H; [| done]. lia. }
  destruct inner as [ok s2]. cbn [snd] in F.
  assert (M : moves buf s s2) by (apply (moves_from_advance buf 1); [lia | done]).
  pose proof (mv_le _ _ _ F) as P. pose proof (mv_end _ _ _ M (wf_end _ _ W)) as L1.
  simpl in P.
  assert (Err : scanned buf (curPtr s) s (errorAt (curPtr s) s2) s2).
  { apply scanned_moves; auto. apply covers_errorAt with buf; [done.. | lia]. }
  destruct ok; cbn [negb]; [case_match eqn:Q |]; cbn [fst snd]; [split_and!; [done | lia | done] | | split_and!; [done | lia | done]].
  breflect. apply (peek_lt buf 0) in Q; [| done].
  assert (M' : moves buf s (advance 1 s2)).
  { etransitivity; [done |]. apply moves_advance. lia. }
  split_and!; [| simpl; lia | done].
  apply scanned_moves; auto. apply covers_tokenTo with buf; simpl; [done | lia..].
Qed.

(** ** Operators and interpolation braces *)

Lemma scanOperator_scanned s :
  wf buf s -> outside_template s -> curPtr s < bufferEnd buf ->
  scanned buf (curPtr s) s (scanOperator buf s).1 (scanOperator buf s).2
  /\ curPtr s < curPtr (scanOperator buf s).2
  /\ (interpolationStack s = [] -> moves buf s (scanOperator buf s).2).
Proof.
  intros W N L. unfold scanOperator. cbn zeta.
  assert (M1 : moves buf s (advance 1 s)) by (apply moves_advance; lia).
  assert (C : forall k s', curPtr s' = S (curPtr s) -> covers s' (tokenTo k (curPtr s) s')).
  { intros k s' E. apply covers_tokenTo with buf; rewrite ?E; [done | lia..]. }
  destruct W as [W1 W2 W3 W4 W5].
  assert (W2' : forall f, fragmentStart s = Some f -> f <= curPtr s + 1).
  { intros f Hf. apply W2 in Hf. lia. }
  case_match; [| case_match].
  - split; [| split; [destruct (interpolationStack (advance 1 s)); simpl; lia |]];
      [| intros K; destruct (interpolationStack (advance 1 s)) eqn:K'; [done |];
         simpl in K'; congruence].
    destruct (interpolationStack (advance 1 s)) as [| b k] eqn:K; simpl in K; simpl.
    + split; [| by apply C; simpl; lia | done | done | simpl; lia | by simpl; rewrite K].
      by eapply wf_moves.
    + split; [| by apply C; simpl; lia | done | done | simpl; lia | by simpl; rewrite K].
      rewrite K in W5. apply Forall_cons in W5 as [B F].
      split; simpl; [lia | done.. |]. apply Forall_cons. split; [lia | done].
  - destruct (interpolationStack (advance 1 s)) as [| b k] eqn:K; simpl in K.
    + split; [| by split; [simpl; lia |]].
      split; [| by apply C; simpl; lia | done | done | simpl; lia | by simpl; rewrite K].
      by eapply wf_moves.
    + rewrite K in W5. apply Forall_cons in W5 as [B F]. case_match; breflect; simpl.
      * split; [| split; [simpl; lia | intros; congruence]].
        split; [| by apply C; simpl; lia | done | done | simpl; lia | by simpl; rewrite K].
        split; simpl; [lia | | done.. |]; [|done].
        intros f Hf. by simplify_eq.
      * split; [| split; [simpl; lia | intros; congruence]].
        split; [| by apply C; simpl; lia | done | done | simpl; lia | by simpl; rewrite K].
        split; simpl; [lia | done.. |]. apply Forall_cons. split; [lia | done].
  - pose proof (operator_kind_plain (deref buf (curPtr s)) (peek buf 0 (advance 1 s))
                  (peek buf 1 (advance 1 s))) as P.
    pose proof (operator_kind_extra (deref buf (curPtr s)) (peek buf 0 (advance 1 s))
                  (peek buf 1 (advance 1 s))) as X.
    destruct (operator_kind _ _ _) as [k n]. cbn [fst snd] in *.
    assert (B : curPtr s + 1 + n <= bufferEnd buf).
    { destruct X as [-> | [[-> X] | [-> X]]]; [lia | |].
      - pose proof (peek_lt buf 0 (advance 1 s) _ eq_refl X). simpl in *. lia.
      - pose proof (peek_lt buf 1 (advance 1 s) _ eq_refl X). simpl in *. lia. }
    assert (M : moves buf s (advance n (advance 1 s))).
    { etransitivity; [exact M1 |]. apply moves_advance. simpl. lia. }
    split; [| by split; [simpl; lia |]].
    apply scanned_moves; [done.. | | done | done].
    apply covers_tokenTo with buf; simpl; [done | lia..].
Qed.

(** ** Strings *)

(** Where the string scanner may stand: in a standard string that opened at
    [start], or in a template with a fragment. *)
Definition in_string (isTemplate : bool) (start : option nat) s : Prop :=
  if isTemplate
  then state s = LexerState.TemplateString /\ exists f, fragmentStart s = Some f /\ f <= curPtr s
  else outside_template s /\ (exists p, start = Some p /\ p <= curPtr s)
       /\ (forall f, fragmentStart s = Some f -> f <= curPtr s)
       /\ (state s = LexerState.TemplateString -> is_Some (fragmentStart s)).

Lemma in_string_moves T st s s' : moves buf s s' -> in_string T st s -> in_string T st s'.
Proof.
  intros [M1 M2 M3 M4 M5]. unfold in_string, outside_template. rewrite M3, M4, M5.
  destruct T.
  - intros (E & f & F & L). split; [done |]. exists f. split; [done | lia].
  - intros (N & (p & P & L) & F & G). split_and!; [done | | | done].
    + exists p. split; [done | lia].
    + intros f Hf. apply F in Hf. lia.
Qed.

(** [s'] is a later state with the same interpolations, out of the template if
    the string was one. *)
Definition left_string (T : bool) s s' : Prop :=
  curPtr s <= curPtr s' <= bufferEnd buf
  /\ interpolationStack s' = interpolationStack s
  /\ if T then state s' = LexerState.Normal /\ fragmentStart s' = None
     else state s' = state s /\ fragmentStart s' = fragmentStart s.

(** A token that closes a string leaves the lexer well-formed. *)
Lemma scanned_leave (T : bool) st s s' t p :
  in_string T st s -> Forall (fun b => (0 <= b)%Z) (interpolationStack s) ->
  left_string T s s' -> plain_kind (kind t) = true -> covers s' t ->
  p <= location t -> scanned buf p s t s'.
Proof.
  intros I B (L & E & X) K C Hp.
  split; [| done | done | intros Q; by rewrite Q in K | lia | rewrite E; by apply plain_step].
  destruct T; destruct X as [X1 X2].
  - split; rewrite ?X1, ?X2, ?E; done || lia.
  - destruct I as (N & _ & F & G).
    split; rewrite ?X1, ?X2, ?E; try done; [lia | |].
    + intros f Hf. apply F in Hf. lia.
    + intros Q1 Q2. by apply N in Q1.
Qed.

Lemma string_loop_scanned fuel : forall (T : bool) (st : option nat) esc err s p,
  (if T then fragmentStart s else st) = Some p -> p <= curPtr s ->
  curPtr s <= bufferEnd buf -> bufferEnd buf - curPtr s < fuel ->
  Forall (fun b => (0 <= b)%Z) (interpolationStack s) -> in_string T st s ->
  exists t s', string_loop buf fuel T st esc err s = Some (t, s') /\ scanned buf p s t s'
    /\ (T = true -> curPtr s < bufferEnd buf ->
        fragmentStart s = Some (curPtr s) \/ deref buf (curPtr s) <> "$"%char ->
        curPtr s < curPtr s').
Proof.
  induction fuel as [| fuel IH]; intros T st esc err s p Ep Lp L F B I; [lia |].
  cbn [string_loop].
  assert (Rec : forall e1 e2 s1, moves buf s s1 -> curPtr s < curPtr s1 ->
    exists t s', string_loop buf fuel T st e1 e2 s1 = Some (t, s') /\ scanned buf p s t s'
      /\ curPtr s < curPtr s').
  { intros e1 e2 s1 M P. pose proof (mv_end _ _ _ M L).
    destruct (IH T st e1 e2 s1 p) as (t & s' & E & [S1 S2 S3 S4 S5 S6] & _).
    - by rewrite (mv_fragment _ _ _ M).
    - pose proof (mv_le _ _ _ M). lia.
    - done.
    - lia.
    - by rewrite (mv_stack _ _ _ M).
    - by eapply in_string_moves.
    - exists t, s'. split; [done |]. split; [| lia].
      split; [done | done | done | done | lia | by rewrite <- (mv_stack _ _ _ M)]. }
  destruct (bufferEnd buf <=? curPtr s) eqn:E1; breflect.
  { rewrite Ep. eexists _, _. split; [done |]. split; [| intros; lia].
    apply (scanned_leave T st); auto.
    - destruct T; split_and!; simpl; done || lia.
    - apply covers_errorAt with buf; destruct T; simpl; done. }
  destruct (negb T && _) eqn:E2.
  { breflect. destruct T; [done |]. rewrite Ep. eexists _, _. split; [done |]. split; [| done].
    apply (scanned_leave false st); auto.
    - by split_and!; simpl.
    - by apply covers_errorAt with buf. }
  destruct (deref buf (curPtr s) =?c BACKSLASH) eqn:E3.
  { destruct (moves_consumeEscape buf s E1) as [M P].
    destruct (consumeEscape buf s) as [ok s1].
    destruct (Rec true (err || negb ok) s1 M P) as (t & s' & -> & S & P'). eauto 10. }
  destruct (deref buf (curPtr s) =?c (if T then BACKTICK else DQUOTE)) eqn:E4.
  { rewrite Ep. cbn zeta.
    match goal with |- context [errorAt _ ?x] => set (s2 := x) end.
    assert (X : left_string T s s2) by (unfold s2; destruct T; split_and!; simpl; done || lia).
    assert (C : curPtr s2 = curPtr s + 1) by (by destruct T).
    destruct err; eexists _, s2; (split; [reflexivity |]); (split; [| lia]);
      apply (scanned_leave T st); auto.
    - apply covers_errorAt with buf; simpl; [done | lia..].
    - by destruct esc, T.
    - destruct esc; try apply covers_add_flag; apply covers_tokenTo with buf; simpl; done || lia.
    - by destruct esc. }
  destruct (T && _ && _) eqn:E5.
  - breflect. destruct T; [| done]. destruct I as (I1 & f & I2 & I3).
    case_bool_decide as E6.
    + eexists _, _. split; [done |].
      assert (P : curPtr s + 1 < bufferEnd buf) by (by apply (peek_lt buf 1) in H0).
      split; [| simpl; lia]. split; simpl.
      * split; simpl; try done; [lia | |].
        -- intros g Hg. rewrite I2 in Hg. simplify_eq. lia.
        -- apply Forall_cons. split; [lia | done].
      * split; simpl; [lia |]. left. rewrite u32_small; lia.
      * lia.
      * done.
      * lia.
      * done.
    + eexists _, _. split; [done |]. split; [split |]; simpl.
      * split; simpl; try done. intros g Hg. by simplify_eq.
      * rewrite I2. destruct esc; try apply covers_add_flag; split; simpl; try done; left;
          apply u32_small; lia.
      * rewrite I2. simplify_eq. by destruct esc.
      * by destruct esc.
      * done.
      * by destruct esc.
      * intros _ _ [Q | Q]; [done |]. by breflect.
  - destruct (Rec esc err (advance 1 s)) as (t & s' & -> & S & P'); [| | eauto 10].
    + apply moves_advance. lia.
    + simpl. lia.
Qed.

(** Where the next token starts at the earliest: at the pending fragment of a
    template, at the cursor otherwise. *)
Definition earliest s : nat :=
  if inTemplateString s then default 0 (fragmentStart s) else curPtr s.

Lemma earliest_le s : wf buf s -> earliest s <= curPtr s.
Proof.
  intros W. unfold earliest. case_match; [| done].
  destruct (fragmentStart s) eqn:E; simpl; [by apply W | lia].
Qed.

Lemma scanned_from from from' s t s' :
  from' <= from -> scanned buf from s t s' -> scanned buf from' s t s'.
Proof. intros L [S1 S2 S3 S4 S5 S6]. split; auto. lia. Qed.

Lemma scanString_scanned s :
  wf buf s -> curPtr s < bufferEnd buf ->
  (inTemplateString s = true -> interpolationStack s = [] \/ deref buf (curPtr s) <> "$"%char) ->
  exists t s', scanString buf s = Some (t, s') /\ scanned buf (earliest s) s t s' /\ curPtr s < curPtr s'.
Proof.
  intros [W1 W2 W3 W4 W5] L H. unfold scanString, earliest, inTemplateString in *.
  case_bool_decide as E.
  - destruct (W3 E) as [f Ef]. rewrite Ef.
    destruct (string_loop_scanned (S (bufferEnd buf - curPtr s)) true None false false s f)
      as (t & s' & -> & S & P); [done | auto | lia | lia | done | |].
    + split; [done |]. exists f. split; [done | auto].
    + exists t, s'. split_and!; [done.. |]. apply P; [done.. |].
      destruct H as [H | H]; [done | left; auto | by right].
  - assert (Rec : forall (T : bool) (st : option nat) s1, curPtr s1 = curPtr s + 1 ->
      interpolationStack s1 = interpolationStack s ->
      (exists p, (if T then fragmentStart s1 else st) = Some p /\ curPtr s <= p <= curPtr s1) ->
      in_string T st s1 ->
      exists t s', string_loop buf (S (bufferEnd buf - curPtr s1)) T st false false s1
        = Some (t, s') /\ scanned buf (curPtr s) s t s' /\ curPtr s < curPtr s').
    { intros T st s1 E1 E2 (p & E3 & E4) I.
      destruct (string_loop_scanned (S (bufferEnd buf - curPtr s1)) T st false false s1 p)
        as (t & s' & -> & [S1 S2 S3 S4 S5 S6] & _); [done | lia.. | by rewrite E2 | done |].
      exists t, s'. split; [done |]. split; [| lia].
      split; [done | done | lia | done | lia | by rewrite <- E2]. }
    assert (N : state s = LexerState.Normal) by (by destruct (state s)).
    case_match.
    + apply Rec; [done.. | |]; simpl; [eexists; split; [done | lia] |].
      split; [done |]. by eexists.
    + apply Rec; [done.. | |]; simpl; [eexists; split; [done | lia] |]. split_and!.
      * intros Q. simpl in Q. by rewrite N in Q.
      * eexists. split; [done | lia].
      * intros f Hf. apply W2 in Hf. lia.
      * intros Q. by rewrite N in Q.
Qed.

(** ** Trivia and the entry point *)

Lemma trivia_loop_total fuel s :
  curPtr s <= bufferEnd buf -> bufferEnd buf - curPtr s < fuel ->
  exists r s', trivia_loop buf fuel s = Some (r, s') /\ moves buf s s'
    /\ match r with
       | Trivia.AtEof => curPtr s' = bufferEnd buf
       | Trivia.BadComment => curPtr s < curPtr s'
       | Trivia.AtToken => curPtr s' < bufferEnd buf
       end.
Proof.
  revert s. induction fuel as [| fuel IH]; intros s L F; [lia |]. cbn [trivia_loop].
  pose proof (moves_skip_while buf isWhitespace s) as M. fold (skipWhitespace buf s) in M.
  pose proof (mv_end _ _ _ M L). pose proof (mv_le _ _ _ M).
  set (s1 := skipWhitespace buf s) in *.
  destruct (bufferEnd buf <=? curPtr s1) eqn:E1; breflect.
  { eexists _, s1. split_and!; [done.. | by apply Nat.le_antisymm]. }
  destruct (_ && _) eqn:E2; [| eexists _, s1; by split_and!].
  cbn zeta.
  apply andb_true_iff in E2 as [_ E2]. apply orb_true_iff in E2.
  destruct (moves_skipComment buf s1) as [M2 P]; [destruct E2; breflect; auto |].
  pose proof (mv_end _ _ _ M2 ltac:(done)). destruct (skipComment buf s1) as [ok s2].
  simpl in *. assert (M3 : moves buf s s2) by (by etransitivity).
  destruct ok; [| eexists _, s2; split_and!; [done.. | simpl; lia]].
  destruct (IH s2) as (r & s' & -> & M4 & R); [lia.. |]. pose proof (mv_le _ _ _ M4).
  eexists _, s'. split; [done |]. split; [by etransitivity |]. destruct r; simpl in *; lia.
Qed.

(** The dispatch on the first character. *)
Lemma scanToken_scanned s :
  wf buf s -> outside_template s -> curPtr s < bufferEnd buf ->
  exists t s', scanToken buf s = Some (t, s') /\ scanned buf (earliest s) s t s'
    /\ (curPtr s < curPtr s' \/ kind t = TokenKind.Error).
Proof.
  intros W N R. pose proof (earliest_le s W) as Le.
  assert (Pack : forall r (Q : Prop), scanned buf (curPtr s) s r.1 r.2 /\ curPtr s < curPtr r.2 /\ Q ->
    exists t s', Some r = Some (t, s') /\ scanned buf (earliest s) s t s'
      /\ (curPtr s < curPtr s' \/ kind t = TokenKind.Error)).
  { intros [t s'] Q (S & P & _). exists t, s'. split_and!; [done | by eapply scanned_from | by left]. }
  unfold scanToken.
  destruct (_ || isUTF8Start _) eqn:D1.
  { destruct (scanIdentifier_scanned s W N R) as (t & s' & E & S & _ & P).
    exists t, s'. split_and!; [done | by eapply scanned_from |].
    destruct P as [P | [P _]]; [by left | by right]. }
  destruct (isdigit _) eqn:D2.
  { eapply Pack, scanNumber_scanned; auto. by rewrite D2. }
  destruct (_ && isdigit _) eqn:D3.
  { eapply Pack, scanNumber_scanned; auto. breflect. rewrite H. by rewrite orb_true_r. }
  destruct (_ || (_ =?c BACKTICK)) eqn:D4.
  { destruct (scanString_scanned s W R) as (t & s' & -> & S & P); [| eauto 10].
    intros _. right. intros Q. by rewrite Q in D4. }
  destruct (_ =?c "'") eqn:D5; eapply Pack; [by apply scanChar_scanned | by apply scanOperator_scanned].
Qed.

(** [next] does not move: at the end of the input, at an illegal UTF-8 sequence
    where an identifier could start, or in a template at the end of the buffer. *)
Definition stuck_token t : Prop := kind t = TokenKind.Eof \/ kind t = TokenKind.Error.

Lemma next_scanned s :
  wf buf s ->
  exists t s', next buf s = Some (t, s') /\ scanned buf (earliest s) s t s'
    /\ (curPtr s < curPtr s' \/ stuck_token t).
Proof.
  intros W. unfold next. pose proof (wf_end _ _ W) as L.
  destruct (inTemplateString s && _) eqn:E.
  - breflect. unfold inTemplateString in H. breflect.
    pose proof (wf_pending _ _ W H H0) as Ef. rewrite Ef. simpl default.
    destruct (bufferEnd buf <=? curPtr s) eqn:E1; breflect.
    + eexists _, s. split; [done |]. split; [| right; by right].
      unfold earliest, inTemplateString. rewrite bool_decide_true, Ef by done.
      by split; [done | apply covers_errorAt with buf | ..].
    + destruct (scanString_scanned s W E1) as (t & s' & -> & S & P); [by left |]. eauto 10.
  - destruct (trivia_loop_total (S (bufferEnd buf - curPtr s)) s) as (r & s1 & -> & M & R);
      [done | lia |]. cbn [mbind option_bind].
    assert (N : outside_template s).
    { intros Q1 Q2. unfold inTemplateString in E. rewrite Q1, Q2 in E. done. }
    assert (N1 : outside_template s1).
    { unfold outside_template. by rewrite (mv_state _ _ _ M), (mv_stack _ _ _ M). }
    assert (W1 : wf buf s1) by (by eapply wf_moves).
    assert (He : earliest s <= earliest s1).
    { unfold earliest, inTemplateString. rewrite (mv_state _ _ _ M), (mv_fragment _ _ _ M).
      pose proof (mv_le _ _ _ M). repeat case_bool_decide; done || lia. }
    pose proof (earliest_le s W).
    assert (Hstack : interpolationStack s1 = interpolationStack s) by apply M.
    pose proof (mv_le _ _ _ M).
    assert (Lift : forall t s', scanned buf (earliest s1) s1 t s' -> scanned buf (earliest s) s t s').
    { intros t s' [S1 S2 S3 S4 S5 S6].
      split; [done | done | lia | done | lia | by rewrite <- Hstack]. }
    destruct r.
    + eexists _, s1. split; [done |]. split; [| right; by left].
      split; [done | | simpl; lia | done | lia | by rewrite <- Hstack].
      split; simpl; [done |]. left. rewrite u32_small; lia.
    + eexists _, s1. split; [done |]. split; [| left; lia].
      apply scanned_moves; simpl; auto; [| lia]. apply covers_errorAt with buf; [done | apply W1 | done].
    + destruct (scanToken_scanned s1 W1 N1 R) as (t & s' & -> & S & P).
      eexists _, _. split; [done |]. split; [by apply Lift |].
      destruct P; [left; lia | by right; right].
Qed.

(** ** Outside templates

    In the normal state with no open interpolation and away from a backtick, a
    call only moves the cursor. *)

Lemma string_loop_moves fuel st esc err s t s' :
  string_loop buf fuel false st esc err s = Some (t, s') -> moves buf s s'.
Proof.
  revert esc err s. induction fuel as [| fuel IH]; intros esc err s; [done |].
  cbn [string_loop negb andb].
  case_match; breflect; [intros; simplify_eq; apply moves_diag |].
  case_match; [intros; simplify_eq; apply moves_diag |].
  case_match; breflect.
  - destruct (moves_consumeEscape buf s) as [M _]; [done |].
    destruct (consumeEscape buf s) as [ok s1]. intros E. apply IH in E. by etransitivity.
  - case_match; [case_match; intros; simplify_eq; apply moves_advance; lia |].
    intros E. apply IH in E. apply (moves_from_advance buf 1); [lia | done].
Qed.

Definition plain_state s : Prop := state s = LexerState.Normal /\ interpolationStack s = [].

Lemma moves_plain s s' : moves buf s s' -> plain_state s -> plain_state s'.
Proof. intros M [P1 P2]. split; [by rewrite (mv_state _ _ _ M) | by rewrite (mv_stack _ _ _ M)]. Qed.

Lemma scanToken_plain s t s' :
  wf buf s -> plain_state s -> curPtr s < bufferEnd buf ->
  deref buf (curPtr s) <> BACKTICK -> isUTF8Start (deref buf (curPtr s)) = false ->
  scanToken buf s = Some (t, s') -> moves buf s s' /\ curPtr s < curPtr s'.
Proof.
  intros W [P1 P2] L B A.
  assert (N : outside_template s) by (intros Q; by rewrite P1 in Q).
  assert (Pack : forall r, curPtr s < curPtr r.2 /\ moves buf s r.2 ->
    Some r = Some (t, s') -> moves buf s s' /\ curPtr s < curPtr s').
  { intros r [Q1 Q2] Q. by simplify_eq/=. }
  unfold scanToken. rewrite A, orb_false_r.
  destruct (isAsciiIdentStart _) eqn:D1.
  { destruct (scanIdentifier_scanned s W N L) as (t' & s1 & -> & _ & M & [P | [_ P]]).
    - intros Q. by simplify_eq.
    - by rewrite P in D1. }
  destruct (isdigit _) eqn:D2.
  { apply Pack. destruct (scanNumber_scanned s) as (_ & P & M); auto. by rewrite D2. }
  destruct (_ && isdigit _) eqn:D3.
  { apply Pack. destruct (scanNumber_scanned s) as (_ & P & M); auto. breflect. rewrite H.
    by rewrite orb_true_r. }
  destruct (_ || (_ =?c BACKTICK)) eqn:D4.
  { unfold scanString, inTemplateString. rewrite bool_decide_false by (by rewrite P1).
    cbn zeta. destruct (deref buf (curPtr s) =?c BACKTICK) eqn:D5; breflect; [done |].
    intros E. apply string_loop_moves in E. pose proof (mv_le _ _ _ E) as P. simpl in P.
    split; [| lia]. apply (moves_from_advance buf 1); [lia | done]. }
  destruct (_ =?c "'"); apply Pack.
  - by destruct (scanChar_scanned s) as (_ & P & M).
  - destruct (scanOperator_scanned s) as (_ & P & M); auto.
Qed.

(** Outside templates a call reaches the end of the file or advances. *)
Lemma next_plain s t s' :
  wf buf s -> plain_state s ->
  (forall p, p < bufferEnd buf -> deref buf p <> BACKTICK /\ isUTF8Start (deref buf p) = false) ->
  next buf s = Some (t, s') ->
  plain_state s' /\ (curPtr s < curPtr s' \/ kind t = TokenKind.Eof).
Proof.
  intros W P B. unfold next, inTemplateString. destruct P as [P1 P2].
  rewrite bool_decide_false by (by rewrite P1). cbn [andb].
  destruct (trivia_loop_total (S (bufferEnd buf - curPtr s)) s) as (r & s1 & E & M & R);
    [apply W | lia |].
  rewrite E. cbn [mbind option_bind]. assert (P : plain_state s1) by (by eapply moves_plain).
  destruct r; intros Q; simplify_eq; [by split; [| right] | by split; [| left] |].
  assert (W1 : wf buf s1).
  { eapply wf_moves; [done.. |]. intros Q1. by rewrite P1 in Q1. }
  destruct (B (curPtr s1) R) as [B1 B2].
  destruct (scanToken_plain s1 t s' W1 P R B1 B2 Q) as [M2 P'].
  split; [by eapply moves_plain |]. left. pose proof (mv_le _ _ _ M). lia.
Qed.
End Props.
