(* ===== verification/LexerClaims.v ===== *)
(** * The lexer: properties

    What a call of [Lexer::next] guarantees, what the token stream of a source
    looks like, and what each scanner recognises. *)

From Stdlib Require Import Sorted.
From S2P Require Import Prelude Diag Tokens Lexer LexerFacts LexerProps.

#[local] Open Scope char_scope.
#[local] Open Scope nat_scope.

(** A concrete UTF-8 decoder for the examples: it accepts ASCII bytes only. *)
Definition ascii_only : Utf8 :=
  {| getNumBytesForUTF8 := fun _ => 1;
     isLegalUTF8Sequence := fun l =>
       match l with [c] => (N_of_ascii c <? 128)%N | _ => false end |}.

Definition source (x : string) : buffer := list_ascii_of_string x.

(** ** Runs *)

(** The tokens [ts] follow each other from the offset [p] on: a token starts where
    the previous one ended or later; only an error token may be longer than the
    bytes the lexer consumed, of which there are none then. *)
Fixpoint ordered (p : nat) (ts : list Token) : Prop :=
  match ts with
  | [] => True
  | t :: r => p <= location t /\ exists q,
      ((Z.of_nat q = Z.of_nat (location t) + length t)%Z
       \/ kind t = TokenKind.Error /\ length t = 1%Z /\ q = location t)
      /\ ordered q r
  end.

Definition count_kind (k : TokenKind.t) (ts : list Token) : nat :=
  List.length (filter (fun t => kind t = k) ts).

(** No byte opens a template or is part of a multi-byte character. *)
Definition plain_buffer (buf : buffer) : Prop :=
  Forall (fun c => c <> BACKTICK /\ isUTF8Start c = false) buf.

Lemma wf_newLexer buf E : wf buf (newLexer E).
Proof. split; simpl; try done. lia. Qed.

Lemma plain_newLexer E : plain_state (newLexer E).
Proof. done. Qed.

Lemma count_kind_cons k t ts :
  count_kind k (t :: ts) = (if enum_eqb (kind t) k then 1 else 0) + count_kind k ts.
Proof.
  unfold count_kind. destruct (enum_eqb (kind t) k) eqn:E; breflect.
  - by rewrite filter_cons_True.
  - by rewrite filter_cons_False.
Qed.

Lemma interpolation_step_count t d d' :
  interpolation_step t d d' ->
  (if enum_eqb (kind t) TokenKind.InterpolationStart then 1 else 0) + d
  = (if enum_eqb (kind t) TokenKind.InterpolationEnd then 1 else 0) + d'.
Proof. unfold interpolation_step. destruct (kind t); simpl; lia. Qed.

Lemma covers_end s t :
  covers s t ->
  (Z.of_nat (curPtr s) = Z.of_nat (location t) + length t)%Z
  \/ kind t = TokenKind.Error /\ length t = 1%Z /\ curPtr s = location t.
Proof. intros [C1 [C2 | (C2 & C3 & C4)]]; [left; lia | by right]. Qed.

Lemma utf8_start_facts c :
  isUTF8Start c = true ->
  isAsciiIdentStart c = false /\ isWhitespace c = false /\ (c =?c "/") = false.
Proof. destruct c as [[] [] [] [] [] [] [] []]; done. Qed.

Section Runs.
Context (buf : buffer) {U : Utf8}.
Context (Hsize : (Z.of_nat (bufferEnd buf) < 2 ^ 32)%Z).

Lemma next_n_balanced_from n s :
  wf buf s ->
  exists ts s', next_n buf n s = Some (ts, s') /\ wf buf s'
    /\ count_kind TokenKind.InterpolationStart ts + List.length (interpolationStack s)
       = count_kind TokenKind.InterpolationEnd ts + List.length (interpolationStack s').
Proof.
  revert s. induction n as [| n IH]; intros s W; [by exists [], s |].
  destruct (next_scanned buf Hsize s W) as (t & s1 & E & S & _).
  destruct (IH s1 (sc_wf _ _ _ _ _ S)) as (ts & s' & E' & W' & C).
  exists (t :: ts), s'. cbn [next_n]. rewrite E. simpl. rewrite E'. split_and!; [done.. |].
  rewrite !count_kind_cons.
  pose proof (interpolation_step_count t _ _ (sc_step _ _ _ _ _ S)). lia.
Qed.

Lemma plain_buffer_deref p :
  plain_buffer buf -> p < bufferEnd buf ->
  deref buf p <> BACKTICK /\ isUTF8Start (deref buf p) = false.
Proof.
  intros B L. unfold deref. destruct (lookup_lt_is_Some_2 buf p L) as [c E]. rewrite E.
  by eapply (Forall_lookup_1 _ _ _ _ B).
Qed.

Lemma earliest_plain s : plain_state s -> earliest s = curPtr s.
Proof.
  intros [P _]. unfold earliest, inTemplateString. by rewrite bool_decide_false by (by rewrite P).
Qed.

Lemma lex_all_plain_from fuel s :
  plain_buffer buf -> wf buf s -> plain_state s -> bufferEnd buf - curPtr s + 1 < fuel ->
  exists ts t, lex_all buf fuel s = Some (ts ++ [t]) /\ ordered (curPtr s) (ts ++ [t])
    /\ Forall (fun t => kind t <> TokenKind.Eof) ts
    /\ kind t = TokenKind.Eof /\ location t = bufferEnd buf.
Proof.
  intros B. revert s. induction fuel as [| fuel IH]; intros s W P F; [lia |].
  destruct (next_scanned buf Hsize s W) as (t & s1 & E & [S1 S2 S3 S4 S5 S6] & _).
  destruct (next_plain buf Hsize s t s1) as [P1 Q]; auto using plain_buffer_deref.
  rewrite (earliest_plain s P) in S3. cbn [lex_all]. rewrite E. cbn [mbind option_bind].
  pose proof (covers_end _ _ S2) as C. unfold tok_is.
  destruct (enum_eqb (kind t) TokenKind.Eof) eqn:K; breflect.
  - exists [], t. split_and!; [done | simpl | done.. |].
    + split; [done |]. exists (curPtr s1). by split.
    + by apply S4.
  - destruct (IH s1) as (ts & t' & E' & O & N & K' & L); [done.. | |].
    + pose proof (wf_end _ _ S1). destruct Q as [Q | Q]; [lia | done].
    + exists (t :: ts), t'. rewrite E'. split_and!; [done | simpl | | done..].
      * split; [done |]. exists (curPtr s1). by split.
      * by apply Forall_cons.
Qed.
(** ** The front of the lexer *)

(** C1: on a source of less than 2^32 bytes, one call of [Lexer::next] always returns and
    preserves the invariant; its
    token lies between the end of the previous one (or the start of the pending
    template fragment) and the cursor, and covers the bytes in between up to the
    cursor; the interpolation stack follows the interpolation tokens; and the
    cursor advances unless the token is the end of the file or an error. *)
Theorem next_correct s :
  wf buf s ->
  exists t s', next buf s = Some (t, s') /\ scanned buf (earliest s) s t s'
    /\ (curPtr s < curPtr s' \/ kind t = TokenKind.Eof \/ kind t = TokenKind.Error).
Proof. apply next_scanned, Hsize. Qed.

(** C18: however many tokens are pulled from a fresh lexer, every call returns, and
    the interpolations opened less those closed are the ones on the stack. *)
Theorem interpolations_balanced n E :
  exists ts s', next_n buf n (newLexer E) = Some (ts, s') /\ wf buf s'
    /\ count_kind TokenKind.InterpolationStart ts
       = count_kind TokenKind.InterpolationEnd ts + List.length (interpolationStack s').
Proof.
  destruct (next_n_balanced_from n (newLexer E) (wf_newLexer _ _)) as (ts & s' & E' & W & C).
  exists ts, s'. split_and!; [done.. |]. simpl in C. lia.
Qed.

(** C17: a source without template strings and multi-byte characters is lexed to
    its end: the loop that pulls tokens stops after at most two more tokens than
    there are bytes, the tokens follow each other without overlap, and the only
    [Eof] is the last token, at the end of the buffer. *)
Theorem lex_all_plain E :
  plain_buffer buf ->
  exists ts t, lex_all buf (bufferEnd buf + 2) (newLexer E) = Some (ts ++ [t])
    /\ ordered 0 (ts ++ [t]) /\ Forall (fun t => kind t <> TokenKind.Eof) ts
    /\ kind t = TokenKind.Eof /\ location t = bufferEnd buf.
Proof.
  intros B. apply (lex_all_plain_from _ (newLexer E)); auto using wf_newLexer, plain_newLexer.
  simpl. lia.
Qed.

(** C31: an illegal UTF-8 sequence where a token may start stops the lexer.  [next]
    returns an error token and leaves every field as it was, so the loop that pulls
    tokens never sees the end of the file, whatever the number of calls. *)
Theorem invalid_utf8_livelock s :
  plain_state s -> isUTF8Start (deref buf (curPtr s)) = true ->
  (advanceUTF8 buf s).1 = false ->
  next buf s = Some (errorAt (curPtr s) s, s) /\ forall fuel, lex_all buf fuel s = None.
Proof.
  intros [P1 P2] A B.
  assert (E : next buf s = Some (errorAt (curPtr s) s, s)).
  { unfold next, inTemplateString. rewrite bool_decide_false by (by rewrite P1). cbn [andb].
    destruct (utf8_start_facts _ A) as (F1 & F2 & F3).
    assert (L : curPtr s < bufferEnd buf).
    { apply (deref_lt buf _ _ eq_refl). by intros Q; rewrite Q in A. }
    rewrite trivia_loop_here by done. cbn [mbind option_bind]. unfold scanToken.
    rewrite A, orb_true_r. unfold scanIdentifier. rewrite F1, A.
    pose proof (advanceUTF8_false buf s) as X. destruct (advanceUTF8 buf s) as [ok s1].
    simpl in *. subst ok. by rewrite (X eq_refl). }
  split; [done |]. induction fuel as [| fuel IH]; [done |]. simpl. rewrite E. simpl.
  by rewrite IH.
Qed.
End Runs.

(** ** Identifiers and keywords *)

Section Scanners.
Context (buf : buffer) {U : Utf8}.

Lemma span_drop P p :
  p < bufferEnd buf ->
  span P (drop p buf) = if P (deref buf p) then S (span P (drop (S p) buf)) else 0.
Proof. intros L. by rewrite (drop_deref buf _ L). Qed.

Lemma advance_advance n m s : advance m (advance n s) = advance (n + m) s.
Proof. unfold advance, set_cur. simpl. by rewrite Nat.add_assoc. Qed.

Lemma advance_0 s : advance 0 s = s.
Proof. unfold advance, set_cur. rewrite Nat.add_0_r. by destruct s. Qed.

Lemma ident_loop_run n fuel s :
  span isAsciiIdentBody (drop (curPtr s) buf) = n -> n < fuel ->
  isUTF8Start (deref buf (curPtr s + n)) = false ->
  ident_loop buf fuel s = Some (true, advance n s).
Proof.
  revert fuel s. induction n as [| n IH]; intros [| fuel] s E F A; [lia | | lia |]; simpl.
  all: destruct (bufferEnd buf <=? curPtr s) eqn:L; breflect.
  - by rewrite advance_0.
  - rewrite (span_drop _ _ L) in E. rewrite Nat.add_0_r in A. rewrite A, advance_0.
    by destruct (isAsciiIdentBody _).
  - by rewrite drop_ge in E.
  - rewrite (span_drop _ _ L) in E. destruct (isAsciiIdentBody _); [| done]. simplify_eq.
    rewrite IH; [by rewrite advance_advance | | lia |]; simpl; rewrite Nat.add_1_r.
    + done.
    + rewrite <- A. do 2 f_equal. lia.
Qed.

Lemma identStart_body c : isAsciiIdentStart c = true -> isAsciiIdentBody c = true.
Proof. unfold isAsciiIdentStart, isAsciiIdentBody, isalnum. by destruct (isalpha c), (isdigit c), (c =?c "_"). Qed.

(** At an ASCII letter or underscore [scanIdentifier] takes the longest run of
    letters, digits and underscores, and its kind is that run's entry of the
    keyword table, [Identifier] when it has none. *)
Theorem scanIdentifier_word s :
  let n := span isAsciiIdentBody (drop (curPtr s) buf) in
  isAsciiIdentStart (deref buf (curPtr s)) = true ->
  isUTF8Start (deref buf (curPtr s + n)) = false ->
  let word := string_of_list_ascii (take n (drop (curPtr s) buf)) in
  scanIdentifier buf s =
    Some (tokenTo (keyword_kind word) (curPtr s) (advance n s), advance n s).
Proof.
  intros n I A. unfold scanIdentifier. rewrite I. cbn [negb].
  assert (L : curPtr s < bufferEnd buf).
  { apply (deref_lt buf _ _ eq_refl). by intros Q; rewrite Q in I. }
  pose proof (span_drop isAsciiIdentBody _ L) as E. rewrite identStart_body in E by done.
  fold n in E. pose proof (span_le isAsciiIdentBody (drop (curPtr s) buf)) as B. fold n in B.
  rewrite length_rest in B.
  assert (R : ident_loop buf (S (bufferEnd buf - curPtr (advance 1 s))) (advance 1 s)
              = Some (true, advance (n - 1) (advance 1 s))).
  { apply ident_loop_run; simpl; rewrite ?Nat.add_1_r.
    - rewrite E. simpl. by rewrite Nat.sub_0_r.
    - lia.
    - rewrite <- A. do 2 f_equal. lia. }
  rewrite R. cbn [mbind option_bind negb]. rewrite advance_advance.
  replace (1 + (n - 1)) with n by lia.
  unfold spelling. simpl. do 5 f_equal. replace (curPtr s + n - curPtr s) with n by lia. done.
Qed.
End Scanners.

Lemma StringSwitch_found {A} (cases : list (string * A)) d x v :
  NoDup (map fst cases) -> (x, v) ∈ cases -> StringSwitch cases d x = v.
Proof.
  induction cases as [| [k w] cases IH]; intros N E; [by apply not_elem_of_nil in E |].
  simpl in *. apply NoDup_cons in N as [N1 N2]. apply elem_of_cons in E as [E | E].
  - simplify_eq. by rewrite String.eqb_refl.
  - destruct (String.eqb_spec x k) as [-> |]; [| by apply IH].
    destruct N1. change k with (fst (k, v)). by apply list_elem_of_fmap_2.
Qed.

Lemma StringSwitch_cases {A} (cases : list (string * A)) d x :
  (x, StringSwitch cases d x) ∈ cases
  \/ StringSwitch cases d x = d /\ x ∉ map fst cases.
Proof.
  induction cases as [| [k w] cases IH]; simpl; [right; split; [done | apply not_elem_of_nil] |].
  destruct (String.eqb_spec x k) as [-> | N]; [left; apply list_elem_of_here |].
  destruct IH as [IH | [IH1 IH2]]; [left; by apply list_elem_of_further |].
  right. split; [done |]. by rewrite not_elem_of_cons.
Qed.

(** The keywords of the enumeration: [KwClass] to [KwThreadLocal]. *)
Definition is_keyword (k : TokenKind.t) : bool :=
  (enum_code TokenKind.KwClass <=? enum_code k)
  && (enum_code k <=? enum_code TokenKind.KwThreadLocal).

Lemma keyword_cases_NoDup :
  NoDup (map fst keyword_cases) /\ NoDup (map snd keyword_cases).
Proof. split; apply (bool_decide_unpack _); vm_compute; exact I. Qed.

Lemma keyword_cases_complete k :
  is_keyword k = true <-> k ∈ map snd keyword_cases.
Proof.
  pose (T := fun k => Bool.eqb (is_keyword k) (existsb (enum_eqb k) (map snd keyword_cases))).
  assert (F : T k = true) by (apply enum_forallb; by vm_compute).
  unfold T in F. apply Bool.eqb_prop in F. rewrite F, existsb_exists. split.
  - intros (k' & E & Q). breflect. subst. by apply list_elem_of_In.
  - intros E. exists k. split; [by apply list_elem_of_In | apply enum_eqb_refl].
Qed.

Lemma NoDup_snd_inj {A B} (l : list (A * B)) x y v :
  NoDup (map snd l) -> (x, v) ∈ l -> (y, v) ∈ l -> x = y.
Proof.
  induction l as [| [k w] l IH]; intros N E1 E2; [by apply not_elem_of_nil in E1 |].
  simpl in N. apply NoDup_cons in N as [N1 N2].
  assert (H : forall z, (z, w) ∈ l -> False).
  { intros z Hz. apply N1. change w with (snd (z, w)). by apply list_elem_of_fmap_2. }
  apply elem_of_cons in E1 as [E1 | E1], E2 as [E2 | E2]; simplify_eq; auto;
    exfalso; by eapply H.
Qed.

(** Keyword resolution is a bijection: every keyword kind has exactly one
    spelling, which [keyword_kind] maps back to it, and a string gets the kind
    [Identifier] or a keyword kind, never another one. *)
Theorem keyword_kind_bijective :
  (forall k, is_keyword k = true -> exists x, forall y, keyword_kind y = k <-> y = x)
  /\ (forall x, keyword_kind x = TokenKind.Identifier \/ is_keyword (keyword_kind x) = true).
Proof.
  destruct keyword_cases_NoDup as [N1 N2]. split.
  - intros k K. apply keyword_cases_complete in K as E.
    apply list_elem_of_fmap in E as ([x k'] & -> & E). exists x. intros y. split.
    + intros Q. unfold keyword_kind in Q.
      destruct (StringSwitch_cases keyword_cases TokenKind.Identifier y) as [H | [H _]];
        rewrite Q in H; [by eapply NoDup_snd_inj | by rewrite H in K].
    + intros ->. by apply StringSwitch_found.
  - intros x. destruct (StringSwitch_cases keyword_cases TokenKind.Identifier x) as [H | [H _]];
      [right | by left].
    apply keyword_cases_complete. apply list_elem_of_fmap. by eexists (x, _).
Qed.

(** ** Operators *)

(** The operators and punctuation of the language, the braces aside, the longest
    first. *)
Definition operators : list (list ascii * TokenKind.t) :=
  map (fun '(x, k) => (list_ascii_of_string x, k))
  [("<<=", TokenKind.LessLessEqual); (">>=", TokenKind.GreaterGreaterEqual);
   ("...", TokenKind.DotDotDot); ("++", TokenKind.PlusPlus); ("+=", TokenKind.PlusEqual);
   ("--", TokenKind.MinusMinus); ("-=", TokenKind.MinusEqual); ("->", TokenKind.Arrow);
   ("**", TokenKind.Power); ("*=", TokenKind.StarEqual); ("/=", TokenKind.SlashEqual);
   ("%=", TokenKind.PercentEqual); ("<<", TokenKind.LessLess); ("<=", TokenKind.LessEqual);
   (">>", TokenKind.GreaterGreater); (">=", TokenKind.GreaterEqual);
   ("==", TokenKind.EqualEqual); ("=>", TokenKind.FatArrow); ("!=", TokenKind.NotEqual);
   ("&&", TokenKind.AmpAmp); ("&=", TokenKind.AmpEqual); ("|>", TokenKind.PipeGreater);
   ("||", TokenKind.PipePipe); ("|=", TokenKind.PipeEqual); ("^=", TokenKind.CaretEqual);
   ("??", TokenKind.QuestionQuestion); ("?.", TokenKind.QuestionDot); ("+", TokenKind.Plus);
   ("-", TokenKind.Minus); ("*", TokenKind.Star); ("/", TokenKind.Slash);
   ("%", TokenKind.Percent); ("<", TokenKind.Less); (">", TokenKind.Greater);
   ("=", TokenKind.Equal); ("!", TokenKind.Bang); ("&", TokenKind.Amp);
   ("|", TokenKind.Pipe); ("^", TokenKind.Caret); ("~", TokenKind.Tilde);
   ("?", TokenKind.Question); (".", TokenKind.Dot); (",", TokenKind.Comma);
   (";", TokenKind.Semicolon); (":", TokenKind.Colon); ("(", TokenKind.LParen);
   (")", TokenKind.RParen); ("[", TokenKind.LBracket); ("]", TokenKind.RBracket)]%string.

Fixpoint starts_with (x l : list ascii) : bool :=
  match x, l with
  | [], _ => true
  | c :: x, d :: l => (d =?c c) && starts_with x l
  | _ :: _, [] => false
  end.

(** [(x, k)] is the longest operator at the start of [l]. *)
Definition longest_operator (l x : list ascii) (k : TokenKind.t) : Prop :=
  (x, k) ∈ operators /\ starts_with x l = true
  /\ forall y k', (y, k') ∈ operators -> starts_with y l = true ->
       List.length y <= List.length x.

Definition find_operator (l : list ascii) : option (list ascii * TokenKind.t) :=
  find (fun op => starts_with (fst op) l) operators.

Lemma find_longest (l : list ascii) (ops : list (list ascii * TokenKind.t)) :
  StronglySorted (fun a b : list ascii * TokenKind.t =>
    List.length (fst b) <= List.length (fst a)) ops ->
  match find (fun op => starts_with (fst op) l) ops with
  | Some (x, k) => (x, k) ∈ ops /\ starts_with x l = true
      /\ forall y k', (y, k') ∈ ops -> starts_with y l = true -> List.length y <= List.length x
  | None => forall y k', (y, k') ∈ ops -> starts_with y l = false
  end.
Proof.
  induction ops as [| [x k] ops IH]; intros S; simpl.
  - intros y k' E. by apply not_elem_of_nil in E.
  - inversion S as [| ? ? S' F]; subst. rewrite Forall_forall in F. clear S.
    destruct (starts_with x l) eqn:X.
    + split_and!; [apply list_elem_of_here | done |]. intros y k' E _.
      apply elem_of_cons in E as [E | E]; [simplify_eq; lia | by apply F in E].
    + specialize (IH S'). destruct (find _ ops) as [[x' k'] |].
      * destruct IH as (E & X' & L). split_and!; [by apply list_elem_of_further | done |].
        intros y q Q Y. apply elem_of_cons in Q as [Q | Q]; [simplify_eq; congruence | by eapply L].
      * intros y q Q. apply elem_of_cons in Q as [Q | Q]; [simplify_eq; congruence | by eapply IH].
Qed.

Lemma operators_sorted :
  StronglySorted (fun a b : list ascii * TokenKind.t =>
    List.length (fst b) <= List.length (fst a)) operators.
Proof. repeat constructor. Qed.

(** Neither side distinguishes the characters that occur in no operator. *)
Definition operator_chars : list ascii := nodup Ascii.ascii_dec (concat (map fst operators)).

Definition norm (c : ascii) : ascii := if existsb (Ascii.eqb c) operator_chars then c else NUL.

Lemma norm_elem c : norm c ∈ NUL :: operator_chars.
Proof.
  unfold norm. destruct (existsb _ _) eqn:E; [| apply list_elem_of_here].
  apply existsb_exists in E as (d & D & Q). breflect. subst.
  apply list_elem_of_further. by apply list_elem_of_In.
Qed.

Lemma norm_eqb c d : existsb (Ascii.eqb d) operator_chars = true -> (norm c =?c d) = (c =?c d).
Proof.
  intros D. unfold norm. destruct (existsb (Ascii.eqb c) _) eqn:E; [done |].
  destruct (NUL =?c d) eqn:E1; breflect; [by subst |].
  symmetry. apply Ascii.eqb_neq. intros ->. congruence.
Qed.

Lemma starts_with_norm x l :
  forallb (fun d => existsb (Ascii.eqb d) operator_chars) x = true ->
  starts_with x (map norm l) = starts_with x l.
Proof.
  revert l. induction x as [| d x IH]; intros [| c l] F; simpl in *; try done.
  apply andb_true_iff in F as [F1 F2]. by rewrite norm_eqb, IH.
Qed.

Lemma find_operator_norm l : find_operator (map norm l) = find_operator l.
Proof.
  assert (F : Forall (fun op => forallb (fun d => existsb (Ascii.eqb d) operator_chars) (fst op) = true)
                operators).
  { apply (bool_decide_unpack _). by vm_compute. }
  unfold find_operator. induction F as [| op ops E F IH]; simpl; [done |].
  by rewrite starts_with_norm, IH.
Qed.

Lemma operator_kind_norm c p0 p1 :
  operator_kind (norm c) (norm p0) (norm p1) = operator_kind c p0 p1.
Proof. unfold operator_kind. by rewrite !norm_eqb by reflexivity. Qed.

Lemma operator_kind_find c p0 p1 :
  operator_kind c p0 p1 =
    match find_operator [c; p0; p1] with
    | Some (x, k) => (k, List.length x - 1)
    | None => (TokenKind.Error, 0)
    end.
Proof.
  rewrite <- operator_kind_norm, <- find_operator_norm. cbn [map].
  pose (ok a b d := bool_decide (operator_kind a b d =
    match find_operator [a; b; d] with
    | Some (x, k) => (k, List.length x - 1)
    | None => (TokenKind.Error, 0)
    end)).
  assert (F : forallb (fun a => forallb (fun b => forallb (ok a b) (NUL :: operator_chars))
    (NUL :: operator_chars)) (NUL :: operator_chars) = true) by (vm_compute; reflexivity).
  rewrite forallb_forall in F. specialize (F _ (proj1 (list_elem_of_In _ _) (norm_elem c))).
  rewrite forallb_forall in F. specialize (F _ (proj1 (list_elem_of_In _ _) (norm_elem p0))).
  rewrite forallb_forall in F. specialize (F _ (proj1 (list_elem_of_In _ _) (norm_elem p1))).
  by apply bool_decide_eq_true in F.
Qed.

Section Literals.
Context (buf : buffer) {U : Utf8}.

(** C29: away from the braces [scanOperator] is maximal munch: the token is the
    longest operator of the language that starts at the cursor, and an error of one
    byte when no operator starts there. *)
Theorem scanOperator_longest s :
  let c := deref buf (curPtr s) in
  c <> "{" -> c <> "}" ->
  let l := [c; peek buf 1 s; peek buf 2 s] in
  (exists x k, longest_operator l x k
    /\ scanOperator buf s
       = (tokenTo k (curPtr s) (advance (List.length x) s), advance (List.length x) s))
  \/ (forall x k, (x, k) ∈ operators -> starts_with x l = false)
     /\ scanOperator buf s
        = (tokenTo TokenKind.Error (curPtr s) (advance 1 s), advance 1 s).
Proof.
  intros c N1 N2 l. unfold scanOperator. fold c.
  rewrite (proj2 (Ascii.eqb_neq c "{") N1), (proj2 (Ascii.eqb_neq c "}") N2).
  assert (P : forall n, peek buf n (advance 1 s) = peek buf (S n) s).
  { intros n. unfold peek. simpl. by replace (curPtr s + 1 + n) with (curPtr s + S n) by lia. }
  rewrite !P, operator_kind_find. fold l. cbn zeta. fold (find_operator l).
  pose proof (find_longest l operators operators_sorted) as F. fold (find_operator l) in F.
  destruct (find_operator l) as [[x k] |].
  - left. exists x, k. split; [done |]. destruct F as (E & _ & _).
    assert (L : 1 <= List.length x).
    { revert E. apply (Forall_forall (fun op => 1 <= List.length (fst op)) operators).
      apply (bool_decide_unpack _). by vm_compute. }
    rewrite !advance_advance. by replace (1 + (List.length x - 1)) with (List.length x) by lia.
  - right. split; [done |]. by rewrite !advance_advance.
Qed.

(** ** Numbers *)

Lemma double_underscore_none p l :
  double_underscore p l = None ->
  forall i, ~ (l !! i = Some "_" /\ l !! S i = Some "_").
Proof.
  revert p. induction l as [| c [| d l] IH]; intros p E i [H1 H2]; [done | by destruct i |].
  simpl in E. destruct (_ && _) eqn:X; [done |]. destruct i as [| i].
  - simpl in H1, H2. by simplify_eq.
  - by apply (IH _ E i).
Qed.

Lemma last_between st en c :
  en <= bufferEnd buf -> last (take (en - st) (drop st buf)) = Some c ->
  st < en /\ deref buf (en - 1) = c.
Proof.
  intros L H. rewrite last_lookup, length_take, length_drop in H. unfold bufferEnd in L.
  destruct (decide (st < en)) as [G | G]; [| by replace (en - st) with 0 in H by lia].
  split; [done |]. rewrite lookup_take_lt, lookup_drop in H by lia. unfold deref.
  replace (st + _) with (en - 1) in H by lia. by rewrite H.
Qed.

Lemma number_checks start sx n :
  let n5 := number_consecutive buf start (number_trailing buf start sx n) in
  ns_hadLexicalError n5 = false ->
  n5 = n /\ double_underscore start
              (take (curPtr (ns_lexer n) - start) (drop start buf)) = None
  /\ ((start <? curPtr (ns_lexer n)) && (deref buf (curPtr (ns_lexer n) - 1) =?c "_")
      && enum_eqb sx NumericSuffix.None = false).
Proof.
  unfold number_consecutive, number_trailing. cbn zeta.
  destruct (_ && _ && _) eqn:E1; simpl; destruct (double_underscore _ _) eqn:E2; done.
Qed.

(** A number that is accepted has no two underscores in a row, and does not end
    in one unless it has a suffix. *)
Theorem scanNumber_underscores s :
  curPtr s < bufferEnd buf ->
  isdigit (deref buf (curPtr s)) || (deref buf (curPtr s) =?c ".") = true ->
  let t := (scanNumber buf s).1 in
  let s' := (scanNumber buf s).2 in
  let word := take (curPtr s' - curPtr s) (drop (curPtr s) buf) in
  kind t <> TokenKind.Error ->
  (forall i, ~ (word !! i = Some "_" /\ word !! S i = Some "_"))
  /\ (suffix t = NumericSuffix.None -> last word <> Some "_").
Proof.
  intros L D. destruct (moves_scanNumber buf s L D) as [M _].
  pose proof (mv_end _ _ _ M ltac:(lia)) as B. clear M. revert B. unfold scanNumber.
  destruct (number_prefix buf s) as [b n1].
  destruct (number_suffix buf (number_body buf b n1)) as [sx n3].
  set (n5 := number_consecutive _ _ _). simpl.
  destruct (ns_hadLexicalError n5) eqn:E; [done |]. simpl. intros B _.
  destruct (number_checks (curPtr s) sx n3 E) as (Q & N & T).
  assert (X : n5 = n3) by exact Q. clearbody n5. subst n5.
  split; [by apply double_underscore_none with (curPtr s) |].
  intros Sx Hl. apply last_between in Hl as [H1 H2]; [| done].
  rewrite H2 in T. destruct (Nat.ltb_spec (curPtr s) (curPtr (ns_lexer n3))); [| lia].
  assert (Y : sx = NumericSuffix.None) by (by destruct b). by rewrite Y in T.
Qed.

(** ** Strings *)

(** The characters that stand for themselves in a standard string. *)
Definition string_char (c : ascii) : bool :=
  negb (c =?c DQUOTE) && negb (c =?c BACKSLASH) && negb (c =?c LF) && negb (c =?c CR).

Lemma string_loop_plain body : forall fuel st s post,
  drop (curPtr s) buf = body ++ DQUOTE :: post ->
  forallb string_char body = true -> List.length body < fuel ->
  let s' := advance (S (List.length body)) s in
  string_loop buf fuel false (Some st) false false s
  = Some (tokenTo TokenKind.StringLiteral st s', s').
Proof.
  induction body as [| c body IH]; intros [| fuel] st s post D F L; try (simpl in L; lia).
  all: assert (Q : curPtr s < bufferEnd buf)
    by (apply (f_equal List.length) in D; rewrite length_drop, length_app in D;
        simpl in D; unfold bufferEnd; lia).
  all: pose proof (drop_deref buf _ Q) as E; rewrite D in E; simpl in E; injection E as E1 E2.
  all: cbn [string_loop]; destruct (_ <=? _) eqn:X; breflect; [lia |]; rewrite <- E1.
  - done.
  - simpl in F. apply andb_true_iff in F as [F1 F2].
    unfold string_char in F1. breflect. cbn [negb andb].
    repeat match goal with H : c <> ?d |- _ => rewrite (proj2 (Ascii.eqb_neq c d) H); clear H end.
    simpl orb. cbn iota. rewrite (IH fuel st (advance 1 s) post); simpl in *.
    + rewrite advance_advance. done.
    + rewrite Nat.add_1_r. done.
    + done.
    + lia.
Qed.

(** A standard string of plain characters is read as written: [scanString] at
    the opening quote yields one [StringLiteral] without flags that spans the two
    quotes and the characters between them, and stops after the closing quote. *)
Theorem scanString_plain pre body post s :
  buf = pre ++ DQUOTE :: body ++ DQUOTE :: post -> forallb string_char body = true ->
  state s = LexerState.Normal -> curPtr s = List.length pre ->
  let s' := advance (List.length body + 2) s in
  scanString buf s = Some (tokenTo TokenKind.StringLiteral (curPtr s) s', s').
Proof.
  intros Eb F N P s'. unfold scanString, inTemplateString.
  rewrite bool_decide_false by (by rewrite N).
  assert (D : drop (S (curPtr s)) buf = body ++ DQUOTE :: post).
  { rewrite Eb, P. change (DQUOTE :: body ++ DQUOTE :: post)
      with ([DQUOTE] ++ body ++ DQUOTE :: post).
    rewrite app_assoc. rewrite drop_app_length'; [done |]. rewrite length_app. simpl. lia. }
  assert (Q : deref buf (curPtr s) = DQUOTE).
  { unfold deref. rewrite Eb, P, lookup_app_r, Nat.sub_diag by lia. done. }
  rewrite Q. cbn [Ascii.eqb]. cbv zeta.
  change (DQUOTE =?c BACKTICK) with false. cbn iota.
  assert (L : bufferEnd buf = S (curPtr s) + List.length (body ++ DQUOTE :: post)).
  { rewrite <- D, length_drop. unfold bufferEnd. rewrite Eb, length_app, P. simpl. lia. }
  rewrite (string_loop_plain body _ _ (advance 1 s) post); simpl.
  - rewrite advance_advance. unfold s'. by replace (1 + S (List.length body))
      with (List.length body + 2) by lia.
  - by rewrite Nat.add_1_r.
  - done.
  - rewrite L, length_app. simpl. lia.
Qed.
(** The characters that stand for themselves in a template. *)
Definition template_char (c : ascii) : bool :=
  negb (c =?c BACKTICK) && negb (c =?c BACKSLASH) && negb (c =?c "$").

Lemma string_loop_template body : forall fuel s f post,
  drop (curPtr s) buf = body ++ BACKTICK :: post -> fragmentStart s = Some f ->
  forallb template_char body = true -> List.length body < fuel ->
  let s' := set_fragment None (set_state LexerState.Normal (advance (S (List.length body)) s)) in
  string_loop buf fuel true None false false s
  = Some (tokenTo TokenKind.TemplateString f s', s').
Proof.
  induction body as [| c body IH]; intros [| fuel] s f post D Fr F L; try (simpl in L; lia).
  all: assert (Q : curPtr s < bufferEnd buf)
    by (apply (f_equal List.length) in D; rewrite length_drop, length_app in D;
        simpl in D; unfold bufferEnd; lia).
  all: pose proof (drop_deref buf _ Q) as E; rewrite D in E; simpl in E; injection E as E1 E2.
  all: cbn [string_loop]; destruct (_ <=? _) eqn:X; breflect; [lia |]; rewrite <- E1.
  - by rewrite Fr.
  - simpl in F. apply andb_true_iff in F as [F1 F2].
    unfold template_char in F1. breflect. cbn [negb andb].
    repeat match goal with H : c <> ?d |- _ => rewrite (proj2 (Ascii.eqb_neq c d) H); clear H end.
    simpl andb. cbn iota. rewrite (IH fuel (advance 1 s) f post); simpl in *.
    + by rewrite advance_advance.
    + by rewrite Nat.add_1_r.
    + done.
    + done.
    + lia.
Qed.

Lemma scanString_template pre body post s :
  buf = pre ++ BACKTICK :: body ++ BACKTICK :: post -> forallb template_char body = true ->
  state s = LexerState.Normal -> curPtr s = List.length pre ->
  let s' := set_fragment None (set_state LexerState.Normal (advance (List.length body + 2) s)) in
  scanString buf s
  = Some (tokenTo TokenKind.TemplateString (S (curPtr s)) s', s').
Proof.
  intros Eb F N P s'. unfold scanString, inTemplateString.
  rewrite bool_decide_false by (by rewrite N).
  assert (D : drop (S (curPtr s)) buf = body ++ BACKTICK :: post).
  { rewrite Eb, P. change (BACKTICK :: body ++ BACKTICK :: post)
      with ([BACKTICK] ++ body ++ BACKTICK :: post).
    rewrite app_assoc. rewrite drop_app_length'; [done |]. rewrite length_app. simpl. lia. }
  assert (Q : deref buf (curPtr s) = BACKTICK).
  { unfold deref. rewrite Eb, P, lookup_app_r, Nat.sub_diag by lia. done. }
  rewrite Q. cbv zeta. change (BACKTICK =?c BACKTICK) with true. cbn iota.
  assert (L : bufferEnd buf = S (curPtr s) + List.length (body ++ BACKTICK :: post)).
  { rewrite <- D, length_drop. unfold bufferEnd. rewrite Eb, length_app, P. simpl. lia. }
  rewrite (string_loop_template body _ _ (S (curPtr s)) post); simpl.
  - unfold s', advance, set_cur, set_state, set_fragment, tokenTo. simpl.
    by replace (curPtr s + 1 + S (List.length body)) with (curPtr s + (List.length body + 2)) by lia.
  - by rewrite Nat.add_1_r.
  - by rewrite Nat.add_1_r.
  - done.
  - rewrite L, length_app. simpl. lia.
Qed.
End Literals.

(** ** Concrete instances *)

Lemma next_correct_witness :
  let buf := source "`a${b}c`" in
  exists t s', next buf (U := ascii_only) (newLexer newEngine) = Some (t, s')
    /\ scanned buf (earliest (newLexer newEngine)) (newLexer newEngine) t s'
    /\ (curPtr (newLexer newEngine) < curPtr s' \/ kind t = TokenKind.Eof
        \/ kind t = TokenKind.Error).
Proof.
  intros buf. apply (next_correct buf); [by vm_compute | apply wf_newLexer].
Defined.

Lemma interpolations_balanced_witness :
  exists ts s', next_n (source "`a${b}c`") (U := ascii_only) 5 (newLexer newEngine)
      = Some (ts, s')
    /\ wf (source "`a${b}c`") s'
    /\ count_kind TokenKind.InterpolationStart ts
       = count_kind TokenKind.InterpolationEnd ts + List.length (interpolationStack s').
Proof. apply (interpolations_balanced (source "`a${b}c`")). by vm_compute. Defined.

Lemma lex_all_plain_witness :
  let buf := source "x += 0x1F_u8; // e" in
  exists ts t, lex_all buf (U := ascii_only) (bufferEnd buf + 2) (newLexer newEngine)
      = Some (ts ++ [t])
    /\ ordered 0 (ts ++ [t]) /\ Forall (fun t => kind t <> TokenKind.Eof) ts
    /\ kind t = TokenKind.Eof /\ location t = bufferEnd buf.
Proof.
  intros buf. apply (lex_all_plain buf (U := ascii_only)).
  - by vm_compute.
  - apply (bool_decide_unpack _). by vm_compute.
Defined.

Lemma invalid_utf8_livelock_witness :
  let buf := ["255"] in
  next buf (U := ascii_only) (newLexer newEngine)
    = Some (errorAt 0 (newLexer newEngine), newLexer newEngine)
  /\ forall fuel, lex_all buf (U := ascii_only) fuel (newLexer newEngine) = None.
Proof.
  intros buf. apply (invalid_utf8_livelock buf (U := ascii_only) (newLexer newEngine));
    by vm_compute.
Defined.

Lemma scanIdentifier_word_witness :
  let buf := source "while(x" in
  scanIdentifier buf (U := ascii_only) (newLexer newEngine)
  = Some (tokenTo (keyword_kind "while") 0 (advance 5 (newLexer newEngine)),
          advance 5 (newLexer newEngine)).
Proof.
  intros buf. apply (scanIdentifier_word buf (U := ascii_only) (newLexer newEngine));
    by vm_compute.
Defined.

Lemma scanOperator_longest_witness :
  let buf := source "<<=x" in
  let s := newLexer newEngine in
  let l := [deref buf 0; peek buf 1 s; peek buf 2 s] in
  (exists x k, longest_operator l x k
    /\ scanOperator buf s = (tokenTo k 0 (advance (List.length x) s), advance (List.length x) s))
  \/ (forall x k, (x, k) ∈ operators -> starts_with x l = false)
     /\ scanOperator buf s = (tokenTo TokenKind.Error 0 (advance 1 s), advance 1 s).
Proof. intros buf s. apply (scanOperator_longest buf s); by vm_compute. Defined.

Lemma scanNumber_underscores_witness :
  let buf := source "1_000_u16;" in
  let s := newLexer newEngine in
  let t := (scanNumber buf s).1 in
  let s' := (scanNumber buf s).2 in
  let word := take (curPtr s' - 0) (drop 0 buf) in
  (forall i, ~ (word !! i = Some "_" /\ word !! S i = Some "_"))
  /\ (suffix t = NumericSuffix.None -> last word <> Some "_").
Proof.
  intros buf s. apply (scanNumber_underscores buf s); [vm_compute; lia | by vm_compute..].
Defined.

Lemma scanString_plain_witness :
  let buf := [" "; DQUOTE; "h"; "i"; DQUOTE; ";"] in
  let s := advance 1 (newLexer newEngine) in
  scanString buf s
  = Some (tokenTo TokenKind.StringLiteral 1 (advance 4 s), advance 4 s).
Proof.
  intros buf s. apply (scanString_plain buf [" "] ["h"; "i"] [";"] s); by vm_compute.
Defined.
