(* ===== verification/Unescape.v ===== *)
(** * Escape sequences of literals

    [unescapeString] of [lib/frontend/parser/Parser.cpp], which turns the spelling
    of a string or template literal into its bytes, and the case of
    [parseTemplateString] for a template without interpolations.

    [std::stoi] and [std::stoul] in base 16 are modelled after the C++ standard
    (skip white space, an optional sign, an optional [0x], digits; [None] when they
    throw); [llvm::ConvertCodePointToUTF8] is not part of the repository and is a
    parameter. *)

From S2P Require Import Prelude Diag Tokens Lexer LexerFacts LexerProps LexerClaims.

#[local] Open Scope char_scope.
#[local] Open Scope nat_scope.

(** [llvm::ConvertCodePointToUTF8]: the bytes of a code point, or [None]. *)
Class CodePoints := ConvertCodePointToUTF8 : Z -> option (list ascii).

(** ** Hexadecimal numbers *)

Definition hex_value (c : ascii) : option Z :=
  let n := Z.of_N (N_of_ascii c) in
  if in_range "0" "9" c then Some (n - 48)%Z
  else if in_range "a" "f" c then Some (n - 87)%Z
  else if in_range "A" "F" c then Some (n - 55)%Z
  else None.

(** The value of the longest run of digits, [None] when there is no digit. *)
Fixpoint hex_run (acc : option Z) (l : list ascii) : option Z :=
  match l with
  | [] => acc
  | c :: r =>
      match hex_value c with
      | Some d => hex_run (Some (16 * default 0 acc + d)%Z) r
      | None => acc
      end
  end.

Definition strip_0x (l : list ascii) : list ascii :=
  match l with
  | z :: x :: d :: r =>
      if (z =?c "0") && ((x =?c "x") || (x =?c "X")) && isHexDigit d then d :: r else l
  | _ => l
  end.

(** [strtol] and [strtoul] in base 16: the sign and the magnitude. *)
Definition parse_hex (l : list ascii) : option (bool * Z) :=
  let l := drop (span isWhitespace l) l in
  let '(neg, l) := match l with
                   | c :: r => if c =?c "-" then (true, r) else if c =?c "+" then (false, r)
                               else (false, l)
                   | [] => (false, l)
                   end in
  n ← hex_run None (strip_0x l); Some (neg, n).

(** [std::stoi(l, nullptr, 16)]: [None] for [invalid_argument] and [out_of_range]. *)
Definition stoi16 (l : list ascii) : option Z :=
  '(neg, n) ← parse_hex l;
  let v := if neg : bool then (- n)%Z else n in
  if ((- 2 ^ 31 <=? v) && (v <? 2 ^ 31))%Z then Some v else None.

(** [std::stoul(l, nullptr, 16)]: a negative number wraps around. *)
Definition stoul16 (l : list ascii) : option Z :=
  '(neg, n) ← parse_hex l;
  if (n <? 2 ^ 64)%Z then Some (if neg : bool then u64 (- n) else n) else None.

(** [static_cast<char>]. *)
Definition char_of (v : Z) : ascii := ascii_of_N (Z.to_N (v `mod` 256)).

(** ** Decoding *)

Section Decode.
Context `{CodePoints}.

(** The escapes of one character, and the byte each stands for. *)
Definition simple_escapes : list (ascii * ascii) :=
  [("n", LF); ("r", CR); ("t", TAB); ("b", "008"); ("0", NUL); (BACKSLASH, BACKSLASH);
   ("'", "'"); (DQUOTE, DQUOTE); (BACKTICK, BACKTICK); ("$", "$")].

Fixpoint assoc_char (c : ascii) (l : list (ascii * ascii)) : option ascii :=
  match l with
  | [] => None
  | (k, v) :: l => if c =?c k then Some v else assoc_char c l
  end.

(** [raw.find('}', from)]: the distance from the start of [l]. *)
Fixpoint find_char (c : ascii) (l : list ascii) : option nat :=
  match l with
  | [] => None
  | d :: l => if d =?c c then Some 0 else option_map S (find_char c l)
  end.

(** The digits of a [\u] or [\U] escape and the value of [consumed], which is zero
    when the escape is malformed; [l] starts at the backslash. *)
Definition unicode_digits (escape : ascii) (l : list ascii) : list ascii * nat :=
  if (escape =?c "u") && (2 <? List.length l) && (default NUL (l !! 2) =?c "{") then
    match find_char "}" (drop 3 l) with
    | Some n => (take n (drop 3 l), 3 + n)
    | None => ([], 0)
    end
  else if (escape =?c "u") && (5 <? List.length l) then (take 4 (drop 2 l), 5)
  else if (escape =?c "U") && (9 <? List.length l) then (take 8 (drop 2 l), 9)
  else ([], 0).

(** One iteration of the loop at the backslash that starts [l], with [escape] the
    character after it: the bytes appended to the result, and the bytes consumed. *)
Definition unescape_one (escape : ascii) (l : list ascii) : list ascii * nat :=
  match assoc_char escape simple_escapes with
  | Some b => ([b], 2)
  | None =>
      if escape =?c "x" then
        if 3 <? List.length l then
          (match stoi16 (take 2 (drop 2 l)) with Some v => [char_of v] | None => [] end, 4)
        else ([BACKSLASH], 1)
      else if (escape =?c "u") || (escape =?c "U") then
        let '(digits, consumed) := unicode_digits escape l in
        if 0 <? consumed then
          let codePoint := match stoul16 digits with Some v => u32 v | None => 0%Z end in
          (default [] (ConvertCodePointToUTF8 codePoint), consumed + 1)
        else ([BACKSLASH], 1)
      else ([escape], 2)
  end.

(** [unescapeString]; [fuel] bounds the iterations, of which there are at most as
    many as bytes. *)
Fixpoint unescape_loop (fuel : nat) (l : list ascii) : list ascii :=
  match fuel, l with
  | S fuel, c :: r =>
      match r with
      | escape :: _ =>
          if c =?c BACKSLASH then
            let '(out, n) := unescape_one escape l in
            out ++ unescape_loop fuel (drop n l)
          else c :: unescape_loop fuel r
      | [] => [c]
      end
  | _, _ => []
  end.

Definition unescapeString (raw : list ascii) : list ascii :=
  unescape_loop (List.length raw) raw.

(** The text of a template literal without interpolations, from its token's
    spelling: the first and the last byte are dropped, then escapes are decoded. *)
Definition simpleTemplate (spelling : list ascii) : list ascii :=
  unescapeString
    (if 2 <=? List.length spelling
     then take (List.length spelling - 2) (drop 1 spelling) else spelling).

(** ** Encoding, for the round trip *)

Definition quote_char (c : ascii) : list ascii :=
  if c =?c LF then [BACKSLASH; "n"]
  else if c =?c CR then [BACKSLASH; "r"]
  else if c =?c TAB then [BACKSLASH; "t"]
  else if c =?c NUL then [BACKSLASH; "0"]
  else if existsb (Ascii.eqb c) [BACKSLASH; "'"; DQUOTE; BACKTICK; "$"] then [BACKSLASH; c]
  else [c].

Definition quote (l : list ascii) : list ascii := concat (map quote_char l).

(** ** Lemmas *)

Lemma unescape_plain_char fuel c r :
  (c =?c BACKSLASH) = false -> unescape_loop (S fuel) (c :: r) = c :: unescape_loop fuel r.
Proof. intros N. simpl. rewrite N. destruct r; [by destruct fuel | done]. Qed.

Lemma unescape_simple fuel e b r :
  assoc_char e simple_escapes = Some b ->
  unescape_loop (S fuel) (BACKSLASH :: e :: r) = b :: unescape_loop fuel r.
Proof. intros A. cbn [unescape_loop]. unfold unescape_one. by rewrite A. Qed.

Lemma unescape_quote_char fuel c r :
  unescape_loop (S fuel) (quote_char c ++ r) = c :: unescape_loop fuel r.
Proof.
  unfold quote_char.
  destruct (c =?c LF) eqn:E1; [breflect; subst; by apply unescape_simple |].
  destruct (c =?c CR) eqn:E2; [breflect; subst; by apply unescape_simple |].
  destruct (c =?c TAB) eqn:E3; [breflect; subst; by apply unescape_simple |].
  destruct (c =?c NUL) eqn:E4; [breflect; subst; by apply unescape_simple |].
  destruct (existsb _ _) eqn:E5.
  - apply existsb_exists in E5 as (d & D & Q). breflect. subst d. apply unescape_simple.
    simpl in D. repeat destruct D as [<- | D]; done.
  - apply unescape_plain_char. simpl in E5. breflect. by apply Ascii.eqb_neq.
Qed.

(** Enough fuel: more changes nothing. *)
Lemma unescape_one_pos e l : 0 < (unescape_one e l).2.
Proof. unfold unescape_one. repeat case_match; simpl; lia. Qed.

Lemma unescape_fuel f1 : forall f2 l,
  List.length l <= f1 -> List.length l <= f2 -> unescape_loop f1 l = unescape_loop f2 l.
Proof.
  induction f1 as [| f1 IH]; intros [| f2] [| c [| e r]] L1 L2; simpl in *; try lia; try done.
  destruct (c =?c BACKSLASH); [| f_equal; apply IH; simpl; lia].
  pose proof (unescape_one_pos e (c :: e :: r)) as P.
  destruct (unescape_one e (c :: e :: r)) as [out n]. simpl in P. f_equal.
  apply IH; rewrite length_drop; simpl; lia.
Qed.

Lemma length_quote_char c : 1 <= List.length (quote_char c).
Proof. unfold quote_char. repeat case_match; simpl; lia. Qed.

(** ** Properties *)

(** C22: decoding undoes escaping: any sequence of bytes, written with the escapes
    the language has for its quotes, line breaks and backslashes, is read back. *)
Theorem unescape_quote l : unescapeString (quote l) = l.
Proof.
  unfold unescapeString. assert (G : forall f, List.length (quote l) <= f ->
    unescape_loop f (quote l) = l); [| by apply G].
  induction l as [| c l IH]; intros f L; [by destruct f |].
  change (quote (c :: l)) with (quote_char c ++ quote l) in *. rewrite length_app in L.
  pose proof (length_quote_char c) as P. destruct f as [| f]; [lia |].
  rewrite unescape_quote_char. f_equal. apply IH. lia.
Qed.

Lemma unescape_no_backslash l :
  forallb (fun c => negb (c =?c BACKSLASH)) l = true -> unescapeString l = l.
Proof.
  unfold unescapeString. intros F. assert (G : forall f, List.length l <= f ->
    unescape_loop f l = l); [| by apply G].
  induction l as [| c l IH]; intros [| f] L; simpl in L; try lia; try done.
  simpl in F. apply andb_true_iff in F as [F1 F2]. breflect.
  rewrite unescape_plain_char by (by apply Ascii.eqb_neq). f_equal. apply IH; [done | lia].
Qed.

(** C37: a template literal without interpolations loses its first character.  The
    lexer's [TemplateString] token starts after the opening backtick, so its
    spelling is the body and the closing backtick; the parser drops the first and
    the last byte of it, and an empty template becomes a backtick. *)
Theorem simple_template_text buf pre body post s :
  (Z.of_nat (bufferEnd buf) < 2 ^ 32)%Z ->
  buf = pre ++ BACKTICK :: body ++ BACKTICK :: post -> forallb template_char body = true ->
  state s = LexerState.Normal -> curPtr s = List.length pre ->
  exists t s', scanString buf s = Some (t, s') /\ kind t = TokenKind.TemplateString
    /\ getSpelling buf t = body ++ [BACKTICK]
    /\ simpleTemplate (getSpelling buf t) = match body with [] => [BACKTICK] | _ :: r => r end.
Proof.
  intros Sz Eb F N P. rewrite (scanString_template buf pre body post s) by done.
  eexists _, _. split; [done |]. split; [done |].
  assert (G : getSpelling buf (tokenTo TokenKind.TemplateString (S (curPtr s))
      (set_fragment None (set_state LexerState.Normal (advance (List.length body + 2) s))))
    = body ++ [BACKTICK]).
  { unfold getSpelling, tokenTo, mkToken. simpl. unfold bufferEnd in Sz.
    rewrite Eb in Sz. rewrite length_app in Sz. simpl in Sz. rewrite length_app in Sz. simpl in Sz.
    rewrite u32_small by lia. rewrite Eb, P.
    replace (Z.to_nat _) with (List.length (body ++ [BACKTICK])) by (rewrite length_app; simpl; lia).
    replace (pre ++ _) with ((pre ++ [BACKTICK]) ++ (body ++ [BACKTICK]) ++ post)
      by (by rewrite <- !app_assoc).
    rewrite drop_app_length' by (rewrite length_app; simpl; lia). by rewrite take_app_length. }
  split; [done |]. rewrite G. unfold simpleTemplate. rewrite length_app. simpl List.length.
  destruct body as [| c r]; [done |]. simpl in F. apply andb_true_iff in F as [_ F].
  simpl app. destruct (2 <=? _) eqn:E; breflect; [| simpl in E; lia].
  change (drop 1 (c :: r ++ [BACKTICK])) with (r ++ [BACKTICK]).
  rewrite take_app_length' by (simpl; lia). apply unescape_no_backslash.
  rewrite forallb_forall in *. intros x Hx. apply F in Hx. unfold template_char in Hx. breflect.
  by apply negb_true_iff, Ascii.eqb_neq.
Qed.
End Decode.

Lemma simple_template_text_witness :
  let buf := source "x = `hello`;" in
  let s := advance 4 (newLexer newEngine) in
  exists t s', scanString buf s = Some (t, s')
    /\ kind t = TokenKind.TemplateString
    /\ getSpelling buf t = source "hello" ++ [BACKTICK]
    /\ simpleTemplate (H := fun _ => None) (getSpelling buf t) = source "ello".
Proof.
  intros buf s.
  apply (simple_template_text (H := fun _ => None) buf (source "x = ") (source "hello")
           (source ";") s); by vm_compute.
Defined.
