(* ===== verification/SymbolTable.v ===== *)
(** * The symbol table

    [class SymbolTable] of [lib/frontend/sema/SymbolTable.cpp]: a stack of scopes,
    each a map from names to symbols, over the diagnostic engine.  The properties
    are its contract with the type checker: an abstract environment with
    innermost-first lookup, and scopes that are last-in first-out. *)

From S2P Require Import Prelude Diag.

#[local] Open Scope string_scope.
#[local] Set Warnings "-register-all".

(** Addresses of [Type] and [Decl] objects, which the table stores and never
    follows. *)
Abbreviation TypeRef := (option positive).
Abbreviation DeclRef := (option positive).

Module SymbolKind.
(** [enum class SymbolKind]. *)
Inductive t : Set :=
  | Variable_ | Function_ | Type_ | Class_ | Module_ | Macro_.
#[export] Instance eq_dec : EqDecision t.
Proof. solve_decision. Defined.
End SymbolKind.
#[export] Existing Instance SymbolKind.eq_dec.

Module ScopeKind.
(** [enum class ScopeKind]. *)
Inductive t : Set := Global | Function_ | Block | Class_.
#[export] Instance eq_dec : EqDecision t.
Proof. solve_decision. Defined.
End ScopeKind.
#[export] Existing Instance ScopeKind.eq_dec.

(** [struct Symbol]; [overloads] holds the later declarations of a function. *)
Inductive Symbol := mkSymbolFull {
  sym_kind : SymbolKind.t;
  sym_name : string;
  sym_type : TypeRef;
  sym_decl : DeclRef;
  overloads : list Symbol;
  bitWidth : Z;
}.

(** The constructor [Symbol(k, n, t, d)]. *)
Definition mkSymbol (k : SymbolKind.t) (n : string) (t : TypeRef) (d : DeclRef) : Symbol :=
  mkSymbolFull k n t d [] (-1).

Definition kindToString (s : Symbol) : string :=
  match sym_kind s with
  | SymbolKind.Variable_ => "Variable"
  | SymbolKind.Function_ => "Function"
  | SymbolKind.Type_ => "Type"
  | SymbolKind.Class_ => "Class"
  | SymbolKind.Module_ => "Module"
  | SymbolKind.Macro_ => "Unknown"
  end.

(** [existing->overloads.push_back(symbol)]. *)
Definition push_overload (existing symbol : Symbol) : Symbol :=
  mkSymbolFull (sym_kind existing) (sym_name existing) (sym_type existing)
    (sym_decl existing) (overloads existing ++ [symbol])%list (bitWidth existing).

(** [class Scope]. *)
Record Scope := {
  symbols : gmap string Symbol;
  scope_kind : ScopeKind.t;
}.

Definition newScope (k : ScopeKind.t) : Scope := {| symbols := ∅; scope_kind := k |}.

Definition findSymbol (name : string) (sc : Scope) : option Symbol := symbols sc !! name.

Module Scope.
(** [StringMap::insert] leaves an existing entry as it is; the assertion excludes
    that case. *)
Definition addSymbol (name : string) (symbol : Symbol) (sc : Scope) : Scope :=
  {| symbols := match symbols sc !! name with
                | Some _ => symbols sc
                | None => <[name := symbol]> (symbols sc)
                end;
     scope_kind := scope_kind sc |}.

Definition addOverload (name : string) (symbol : Symbol) (sc : Scope) : Scope :=
  {| symbols := match symbols sc !! name with
                | Some existing => <[name := push_overload existing symbol]> (symbols sc)
                | None => <[name := symbol]> (symbols sc)
                end;
     scope_kind := scope_kind sc |}.
End Scope.

(** [class SymbolTable]; the innermost scope, [scopeStack.back()], is the head. *)
Record SymbolTable := {
  scopeStack : list Scope;
  st_Diags : DiagnosticEngine;
}.

Definition with_scopes (f : list Scope -> list Scope) (t : SymbolTable) : SymbolTable :=
  {| scopeStack := f (scopeStack t); st_Diags := st_Diags t |}.

Definition enterScope (k : ScopeKind.t) (t : SymbolTable) : SymbolTable :=
  with_scopes (cons (newScope k)) t.

Definition newSymbolTable (E : DiagnosticEngine) : SymbolTable :=
  enterScope ScopeKind.Global {| scopeStack := []; st_Diags := E |}.

(** Popping the empty stack is excluded by the assertion: [None]. *)
Definition exitScope (t : SymbolTable) : option SymbolTable :=
  match scopeStack t with
  | [] => None
  | _ :: rest => Some {| scopeStack := rest; st_Diags := st_Diags t |}
  end.

Definition currentScope (t : SymbolTable) : option Scope := head (scopeStack t).

Definition getCurrentScopeKind (t : SymbolTable) : ScopeKind.t :=
  match currentScope t with
  | None => ScopeKind.Global
  | Some sc => scope_kind sc
  end.

Definition addSymbol (name : string) (symbol : Symbol) (loc : SourceLocation)
    (t : SymbolTable) : bool * SymbolTable :=
  match scopeStack t with
  | [] => (false, t)
  | cur :: rest =>
      match findSymbol name cur with
      | Some existing =>
          if bool_decide (sym_kind existing = sym_kind symbol)
             && (bool_decide (sym_kind symbol = SymbolKind.Module_)
                 || bool_decide (sym_kind symbol = SymbolKind.Variable_))
          then (true, t)
          else if bool_decide (sym_kind existing = SymbolKind.Function_)
                  && bool_decide (sym_kind symbol = SymbolKind.Function_)
          then
            (true, {| scopeStack :=
                        {| symbols := <[name := push_overload existing symbol]> (symbols cur);
                           scope_kind := scope_kind cur |} :: rest;
                      st_Diags := st_Diags t |})
          else
            (false, {| scopeStack := scopeStack t;
                       st_Diags := report_with loc DiagID.err_symbol_redefinition [name]
                                     (st_Diags t) |})
      | None =>
          (true, {| scopeStack := Scope.addSymbol name symbol cur :: rest;
                    st_Diags := st_Diags t |})
      end
  end.

(** The loop from [rbegin] to [rend]. *)
Fixpoint lookup_in (name : string) (scopes : list Scope) : option Symbol :=
  match scopes with
  | [] => None
  | sc :: rest =>
      match findSymbol name sc with
      | Some sym => Some sym
      | None => lookup_in name rest
      end
  end.

Definition lookup (name : string) (t : SymbolTable) : option Symbol :=
  lookup_in name (scopeStack t).

(** [scopeStack.front()] is the outermost scope. *)
Definition lookupGlobal (name : string) (t : SymbolTable) : option Symbol :=
  match last (scopeStack t) with
  | None => None
  | Some sc => findSymbol name sc
  end.

Definition isDefinedInCurrentScope (name : string) (t : SymbolTable) : bool :=
  match currentScope t with
  | None => false
  | Some sc => match findSymbol name sc with Some _ => true | None => false end
  end.

Definition addOverload (name : string) (symbol : Symbol) (t : SymbolTable) : SymbolTable :=
  with_scopes (fun k => match k with
                        | [] => []
                        | cur :: rest => Scope.addOverload name symbol cur :: rest
                        end) t.

(** The accessors of [ASTContext] that name the built-in types. *)
Record ASTContext := {
  getI8Type : TypeRef; getI16Type : TypeRef; getI32Type : TypeRef; getI64Type : TypeRef;
  getISizeType : TypeRef;
  getU8Type : TypeRef; getU16Type : TypeRef; getU32Type : TypeRef; getU64Type : TypeRef;
  getUSizeType : TypeRef;
  getF8Type : TypeRef; getF16Type : TypeRef; getF32Type : TypeRef; getF64Type : TypeRef;
  getBoolType : TypeRef; getVoidType : TypeRef; getAnyType : TypeRef;
}.

(** The names and types [addPrimitiveTypes] declares, in its order. *)
Definition primitives (ctx : ASTContext) : list (string * TypeRef) :=
  [("i8", getI8Type ctx); ("i16", getI16Type ctx); ("i32", getI32Type ctx);
   ("i64", getI64Type ctx); ("u8", getU8Type ctx); ("u16", getU16Type ctx);
   ("u32", getU32Type ctx); ("u64", getU64Type ctx);
   ("f8", getF8Type ctx); ("f16", getF16Type ctx); ("f32", getF32Type ctx);
   ("f64", getF64Type ctx);
   ("boolean", getBoolType ctx); ("void", getVoidType ctx); ("any", getAnyType ctx);
   ("char", getI8Type ctx); ("short", getI16Type ctx); ("int", getI32Type ctx);
   ("long", getI64Type ctx);
   ("isize", getISizeType ctx); ("usize", getUSizeType ctx);
   ("quarter", getF8Type ctx); ("half", getF16Type ctx); ("float", getF32Type ctx);
   ("double", getF64Type ctx)].

Definition addPrimitiveTypes (ctx : ASTContext) (t : SymbolTable) : SymbolTable :=
  fold_left (fun t '(n, ty) =>
    (addSymbol n (mkSymbol SymbolKind.Type_ n ty None) None t).2) (primitives ctx) t.

(** ** Sequences of operations *)

Module Op.
(** The operations a client performs between two points of its traversal. *)
Inductive t : Type :=
  | Enter (k : ScopeKind.t)
  | Exit
  | Add (name : string) (symbol : Symbol) (loc : SourceLocation)
  | AddOverload (name : string) (symbol : Symbol).
End Op.

Definition run_op (o : Op.t) (t : SymbolTable) : option SymbolTable :=
  match o with
  | Op.Enter k => Some (enterScope k t)
  | Op.Exit => exitScope t
  | Op.Add n s loc => Some (addSymbol n s loc t).2
  | Op.AddOverload n s => Some (addOverload n s t)
  end.

Fixpoint run_ops (os : list Op.t) (t : SymbolTable) : option SymbolTable :=
  match os with
  | [] => Some t
  | o :: os => t1 ← run_op o t; run_ops os t1
  end.

(** Properly nested operations: every scope entered is left again, and none that
    was open before. *)
Inductive nested : list Op.t -> Prop :=
  | nested_nil : nested []
  | nested_add n s loc os : nested os -> nested (Op.Add n s loc :: os)
  | nested_overload n s os : nested os -> nested (Op.AddOverload n s :: os)
  | nested_scope k body os : nested body -> nested os ->
      nested ((Op.Enter k :: body ++ Op.Exit :: os)%list).

(** ** Lemmas *)

Lemma run_ops_app os1 os2 t :
  run_ops (os1 ++ os2)%list t = (t1 ← run_ops os1 t; run_ops os2 t1).
Proof.
  revert t. induction os1 as [| o os1 IH]; intros t; simpl; [done |].
  destruct (run_op o t); simpl; [apply IH | done].
Qed.

(** An operation other than [Exit] leaves the scopes below the current one. *)
Lemma addSymbol_tail n s loc t :
  tail (scopeStack (addSymbol n s loc t).2) = tail (scopeStack t).
Proof. unfold addSymbol. destruct t as [[| sc k] D]; simpl; [done |]. by repeat case_match. Qed.

Lemma addSymbol_length n s loc t :
  length (scopeStack (addSymbol n s loc t).2) = length (scopeStack t).
Proof. unfold addSymbol. destruct t as [[| sc k] D]; simpl; [done |]. by repeat case_match. Qed.

Lemma addOverload_tail n s t : tail (scopeStack (addOverload n s t)) = tail (scopeStack t).
Proof. destruct t as [[] D]; done. Qed.

Lemma addOverload_length n s t :
  length (scopeStack (addOverload n s t)) = length (scopeStack t).
Proof. destruct t as [[] D]; done. Qed.

Lemma nested_run os :
  nested os -> forall t, scopeStack t <> [] ->
  exists t', run_ops os t = Some t' /\ tail (scopeStack t') = tail (scopeStack t)
    /\ length (scopeStack t') = length (scopeStack t).
Proof.
  induction 1 as [| n s loc os _ IH | n s os _ IH | k body os _ IH1 _ IH2]; intros t N.
  - by exists t.
  - destruct (IH (addSymbol n s loc t).2) as (t' & E & T & L).
    { intros Q. apply (f_equal (@length _)) in Q. rewrite addSymbol_length in Q.
      by destruct (scopeStack t). }
    exists t'. by rewrite T, L, addSymbol_tail, addSymbol_length.
  - destruct (IH (addOverload n s t)) as (t' & E & T & L).
    { intros Q. apply (f_equal (@length _)) in Q. rewrite addOverload_length in Q.
      by destruct (scopeStack t). }
    exists t'. by rewrite T, L, addOverload_tail, addOverload_length.
  - destruct (IH1 (enterScope k t)) as (t1 & E1 & T1 & L1); [done |].
    destruct (scopeStack t1) as [| sc rest] eqn:S1; [done |]. simpl in T1. subst rest.
    destruct (IH2 {| scopeStack := scopeStack t; st_Diags := st_Diags t1 |}) as (t' & E & T & L);
      [done |].
    exists t'. cbn [run_ops run_op mbind option_bind]. rewrite run_ops_app, E1. simpl.
    unfold exitScope. rewrite S1. by simpl.
Qed.

Lemma findSymbol_insert name x sc n :
  findSymbol n {| symbols := <[name := x]> (symbols sc); scope_kind := scope_kind sc |} =
    if bool_decide (n = name) then Some x else findSymbol n sc.
Proof.
  unfold findSymbol. simpl.
  case_bool_decide as D; [by rewrite D, lookup_insert_eq | by rewrite lookup_insert_ne].
Qed.

Lemma findSymbol_scope_add name symbol sc n :
  findSymbol name sc = None ->
  findSymbol n (Scope.addSymbol name symbol sc) =
    if bool_decide (n = name) then Some symbol else findSymbol n sc.
Proof.
  unfold findSymbol, Scope.addSymbol. intros E. simpl. rewrite E.
  case_bool_decide as D; [by rewrite D, lookup_insert_eq | by rewrite lookup_insert_ne].
Qed.

Lemma lookup_in_spec name scopes s :
  lookup_in name scopes = Some s <->
  exists i sc, scopes !! i = Some sc /\ findSymbol name sc = Some s
    /\ forall j sc', j < i -> scopes !! j = Some sc' -> findSymbol name sc' = None.
Proof.
  induction scopes as [| sc scopes IH]; simpl.
  - split; [done | by intros ([] & sc & E & _)].
  - destruct (findSymbol name sc) as [s' |] eqn:F.
    + split.
      * intros E. simplify_eq. exists 0, sc. split_and!; [done | done | lia].
      * intros ([| i] & sc' & E1 & E2 & E3); [by simplify_eq/= |].
        specialize (E3 0 sc ltac:(lia) eq_refl). congruence.
    + rewrite IH. split.
      * intros (i & sc' & E1 & E2 & E3). exists (S i), sc'. split_and!; [done.. |].
        intros [| j] sc2 L Q; [by simplify_eq/= |]. apply (E3 j); [lia | done].
      * intros ([| i] & sc' & E1 & E2 & E3); [by simplify_eq/= |].
        exists i, sc'. split_and!; [done.. |]. intros j sc2 L Q. apply (E3 (S j)); [lia | done].
Qed.

(** Declaring a list of new, pairwise different names binds each of them. *)
Lemma fold_add_spec (l : list (string * TypeRef)) : forall t cur,
  scopeStack t = [cur] -> NoDup (map fst l) ->
  (forall n, n ∈ map fst l -> findSymbol n cur = None) ->
  let t' := fold_left (fun t '(n, ty) =>
    (addSymbol n (mkSymbol SymbolKind.Type_ n ty None) None t).2) l t in
  st_Diags t' = st_Diags t
  /\ (forall n ty, (n, ty) ∈ l -> lookup n t' = Some (mkSymbol SymbolKind.Type_ n ty None))
  /\ (forall n, n ∉ map fst l -> lookup n t' = lookup n t).
Proof.
  induction l as [| [m ty] l IH]; intros t cur S N F t'.
  - split_and!; [done | | done]. intros n ty E. by apply not_elem_of_nil in E.
  - simpl in N. apply NoDup_cons in N as [N1 N2].
    assert (Fm : findSymbol m cur = None) by (apply F; left).
    set (sm := mkSymbol SymbolKind.Type_ m ty None).
    assert (A : (addSymbol m sm None t).2 =
      {| scopeStack := [Scope.addSymbol m sm cur]; st_Diags := st_Diags t |}).
    { unfold addSymbol. rewrite S, Fm. done. }
    unfold t'. cbn [fold_left]. fold sm. rewrite A. clear A t'.
    destruct (IH {| scopeStack := [Scope.addSymbol m sm cur]; st_Diags := st_Diags t |}
                (Scope.addSymbol m sm cur)) as (D & B & O); [done | done | |].
    { intros n E. rewrite findSymbol_scope_add by done.
      case_bool_decide; [by subst | apply F; by right]. }
    split_and!; [done | |].
    + intros n ty' E. apply elem_of_cons in E as [E | E]; [| by apply B].
      simplify_eq. rewrite O by done. unfold lookup. simpl.
      rewrite findSymbol_scope_add by done. by rewrite bool_decide_true.
    + intros n E. simpl in E. rewrite not_elem_of_cons in E. destruct E as [E1 E2].
      rewrite O by done. unfold lookup. rewrite S. simpl.
      rewrite findSymbol_scope_add by done. by rewrite bool_decide_false.
Qed.

(** ** Properties *)

(** C21: scopes are last-in first-out: after any properly nested operations inside a
    new scope, leaving it succeeds and every scope, hence every lookup, is what it
    was before the scope was entered. *)
Theorem scope_restored k body t :
  nested body ->
  exists t', run_ops (Op.Enter k :: body ++ [Op.Exit])%list t = Some t'
    /\ scopeStack t' = scopeStack t /\ forall name, lookup name t' = lookup name t.
Proof.
  intros N. destruct (nested_run body N (enterScope k t)) as (t1 & E & T & L); [done |].
  destruct (scopeStack t1) as [| sc rest] eqn:S; [done |]. simpl in T. subst rest.
  exists {| scopeStack := scopeStack t; st_Diags := st_Diags t1 |}.
  split; [| by split]. cbn [run_ops run_op mbind option_bind].
  rewrite run_ops_app, E. simpl. unfold exitScope. by rewrite S.
Qed.

(** C30: [addSymbol] on every branch: a fresh name is bound in the current scope and
    shadows outer ones; a second variable or module keeps the first silently; a
    second function becomes an overload of the first; anything else is refused with
    one error and no change.  Other names and outer scopes are never affected. *)
Theorem addSymbol_branches name symbol loc t cur rest :
  scopeStack t = cur :: rest ->
  let '(ok, t') := addSymbol name symbol loc t in
  tail (scopeStack t') = rest
  /\ (forall n, n <> name -> lookup n t' = lookup n t)
  /\ match findSymbol name cur with
     | None => ok = true /\ lookup name t' = Some symbol /\ st_Diags t' = st_Diags t
     | Some old =>
         if bool_decide (sym_kind old = sym_kind symbol
              /\ (sym_kind symbol = SymbolKind.Module_ \/ sym_kind symbol = SymbolKind.Variable_))
         then ok = true /\ t' = t
         else if bool_decide (sym_kind old = SymbolKind.Function_
                              /\ sym_kind symbol = SymbolKind.Function_)
         then ok = true /\ lookup name t' = Some (push_overload old symbol)
              /\ st_Diags t' = st_Diags t
         else ok = false /\ scopeStack t' = scopeStack t
              /\ NumErrors (st_Diags t') = u32 (NumErrors (st_Diags t) + 1)
     end.
Proof.
  intros S. unfold addSymbol, lookup. rewrite S.
  destruct (findSymbol name cur) as [old |] eqn:F.
  - rewrite <- bool_decide_or, <- !bool_decide_and.
    repeat case_bool_decide; rewrite ?S; split_and!; try done.
    + intros n Hn. simpl. rewrite findSymbol_insert. by rewrite bool_decide_false.
    + simpl. rewrite findSymbol_insert. by rewrite bool_decide_true.
  - simpl. split_and!; [done | | done | | done].
    + intros n Hn. rewrite findSymbol_scope_add by done. by rewrite bool_decide_false.
    + rewrite findSymbol_scope_add by done. by rewrite bool_decide_true.
Qed.

(** [lookup] finds the innermost declaration of a name, and [lookupGlobal] the
    one of the outermost scope. *)
Theorem lookup_innermost name t s :
  (lookup name t = Some s <->
    exists i sc, scopeStack t !! i = Some sc /\ findSymbol name sc = Some s
      /\ forall j sc', j < i -> scopeStack t !! j = Some sc' -> findSymbol name sc' = None)
  /\ (lookupGlobal name t = Some s <->
       exists sc, last (scopeStack t) = Some sc /\ findSymbol name sc = Some s)
  /\ (lookupGlobal name t <> None -> lookup name t <> None).
Proof.
  split; [apply lookup_in_spec |]. unfold lookupGlobal, lookup. split.
  - destruct (last (scopeStack t)) as [sc |]; split.
    + intros E. by exists sc.
    + intros (sc' & E1 & E2). by simplify_eq.
    + done.
    + by intros (sc' & E1 & E2).
  - destruct (last (scopeStack t)) as [sc |] eqn:L; [| done]. intros F E. apply F.
    apply last_Some in L as [k L]. rewrite L in E. clear -E.
    induction k as [| c k IH]; simpl in *; [by destruct (findSymbol name sc) |].
    destruct (findSymbol name c); [done | auto].
Qed.

(** [addPrimitiveTypes] on a fresh table declares every built-in type name once,
    with its type, and nothing else, without a diagnostic. *)
Theorem addPrimitiveTypes_spec ctx E :
  let t := addPrimitiveTypes ctx (newSymbolTable E) in
  st_Diags t = E
  /\ (forall n ty, (n, ty) ∈ primitives ctx ->
        lookup n t = Some (mkSymbol SymbolKind.Type_ n ty None))
  /\ (forall n, n ∉ map fst (primitives ctx) -> lookup n t = None).
Proof.
  apply (fold_add_spec (primitives ctx) (newSymbolTable E) (newScope ScopeKind.Global)).
  - reflexivity.
  - apply (bool_decide_unpack _). vm_compute. exact I.
  - intros n _. apply lookup_empty.
Qed.

Lemma scope_restored_witness :
  let x := mkSymbol SymbolKind.Variable_ "x" None None in
  let body := [Op.Add "x" x None; Op.Enter ScopeKind.Block; Op.Add "x" x None; Op.Exit] in
  exists t', run_ops (Op.Enter ScopeKind.Function_ :: body ++ [Op.Exit])%list
      (newSymbolTable newEngine) = Some t'
    /\ scopeStack t' = scopeStack (newSymbolTable newEngine)
    /\ forall name, lookup name t' = lookup name (newSymbolTable newEngine).
Proof.
  intros x body. apply scope_restored. unfold body.
  apply nested_add, (nested_scope _ [Op.Add "x" x None] []); repeat constructor.
Defined.

Lemma addSymbol_branches_witness :
  let f := mkSymbol SymbolKind.Function_ "f" None None in
  let t := (addSymbol "f" f None (newSymbolTable newEngine)).2 in
  let c := {| symbols := {["f" := f]}; scope_kind := ScopeKind.Global |} in
  let '(ok, t') := addSymbol "f" f None t in
  tail (scopeStack t') = []
  /\ (forall n, n <> "f" -> lookup n t' = lookup n t)
  /\ match findSymbol "f" c with
     | None => ok = true /\ lookup "f" t' = Some f /\ st_Diags t' = st_Diags t
     | Some old =>
         if bool_decide (sym_kind old = sym_kind f
              /\ (sym_kind f = SymbolKind.Module_ \/ sym_kind f = SymbolKind.Variable_))
         then ok = true /\ t' = t
         else if bool_decide (sym_kind old = SymbolKind.Function_
                              /\ sym_kind f = SymbolKind.Function_)
         then ok = true /\ lookup "f" t' = Some (push_overload old f)
              /\ st_Diags t' = st_Diags t
         else ok = false /\ scopeStack t' = scopeStack t
              /\ NumErrors (st_Diags t') = u32 (NumErrors (st_Diags t) + 1)
     end.
Proof. intros f t c. apply (addSymbol_branches "f" f None t c []). by vm_compute. Defined.
