(* ===== verification/AST.v ===== *)
(** * The syntax tree

    The nodes of [include/moksha/AST/Type.h], [Expr.h] and [Stmt.h].  A [unique_ptr] to a
    node is an option: the parser leaves null pointers in trees where it found an error.  The
    fields of expressions that only the type checker sets (their types, resolved operators,
    layouts and captures) are left out. *)

From Stdlib Require Import SpecFloat.
From S2P Require Import Prelude Diag Tokens.

#[local] Open Scope string_scope.

Module Scalar.
(** [PrimitiveType::Scalar]. *)
Inductive t : Set :=
  | Void | Bool | Char | String | Int | I8 | I16 | I32 | I64 | ISize | U8 | U16 | U32 | U64
  | USize | F8 | F16 | F32 | F64.
#[export] Instance eq_dec : EqDecision t.
Proof. solve_decision. Defined.
End Scalar.
#[export] Existing Instance Scalar.eq_dec.

Module Variance.
(** [enum class Variance]. *)
Inductive t : Set := Invariant | Covariant | Contravariant.
#[export] Instance eq_dec : EqDecision t.
Proof. solve_decision. Defined.
End Variance.
#[export] Existing Instance Variance.eq_dec.

Module Visibility.
(** [enum class Visibility]. *)
Inductive t : Set := Default | Public | Private | Protected.
End Visibility.

Module AggregateKind.
(** [enum class AggregateKind]. *)
Inductive t : Set := Class | Struct | Union.
End AggregateKind.

Module IntrinsicKind.
(** [enum class IntrinsicKind]. *)
Inductive t : Set :=
  | None | AtomicLoad | AtomicStore | AtomicAdd | AtomicCAS | AtomicFence | Bswap16 | Bswap32
  | Bswap64 | Clz | Ctz.
End IntrinsicKind.

Module CaptureMode.
(** [enum class CaptureMode]. *)
Inductive t : Set := Snapshot | View | Mut | Move.
End CaptureMode.

(** The members of [VariableDecl] beside its type, name and initializer. *)
Record VariableAttrs := {
  v_isConst : bool;
  v_isStatic : bool;
  v_isShared : bool;
  v_isVolatile : bool;
  v_isExtern : bool;
  v_alignment : Z;
  v_section : string;
  v_isUsed : bool;
  v_bitfieldFlag : bool;
  v_bitWidth : Z;
  v_isThreadLocal : bool;
  v_isWeakLinkage : bool;
  v_bitOffset : Z;
  v_physicalIndex : Z;
}.

(** The members of [FunctionDecl] beside its signature and its body. *)
Record FunctionAttrs := {
  f_isAsync : bool;
  f_isStatic : bool;
  f_isVariadic : bool;
  f_isWeak : bool;
  f_isBuiltin : bool;
  f_intrinsicKind : IntrinsicKind.t;
  f_isExtern : bool;
  f_externLinkage : string;
  f_isInterrupt : bool;
  f_isNaked : bool;
  f_isNoReturn : bool;
  f_isNoInline : bool;
  f_isInline : bool;
  f_isPure : bool;
  f_isCold : bool;
  f_isUsed : bool;
  f_section : string;
  f_abi : string;
  f_isVirtual : bool;
  f_isOverride : bool;
  f_vtableIndex : Z;
  f_isView : bool;
  f_isUnsafe : bool;
}.

(** The members of [ClassDecl] beside its parents and its members. *)
Record ClassAttrs := {
  c_isRef : bool;
  c_aggKind : AggregateKind.t;
  c_isPacked : bool;
  c_alignment : Z;
  c_section : string;
  c_hasVTable : bool;
}.

(** [GenericDecl::GenericParam]. *)
Record GenericParam := {
  gp_name : string;
  gp_isShared : bool;
  gp_loc : SourceLocation;
}.

(** What a declaration has in common: the members of [Decl]. *)
Record DeclBase := {
  d_name : string;
  d_visibility : Visibility.t;
  d_loc : SourceLocation;
}.

(** [class Type] and its subclasses. *)
#[warnings="-register-all"]
Inductive Ty : Type :=
  | NullType (loc : SourceLocation)
  | PrimitiveType (scalar : Scalar.t) (loc : SourceLocation)
  | AnyType (loc : SourceLocation)
  | PointerType (pointee : option Ty) (loc : SourceLocation)
  | ReferenceType (inner : option Ty) (loc : SourceLocation)
  | ArrayType (elementType : option Ty) (sizeExpr : option Expr) (loc : SourceLocation)
  | SliceType (elementType : option Ty) (loc : SourceLocation)
  | MapType (keyType valueType : option Ty) (loc : SourceLocation)
  | ClosureType (returnType : option Ty) (paramTypes : list (option Ty)) (loc : SourceLocation)
  | FunctionType (returnType : option Ty) (paramTypes : list (option Ty))
      (isVariadic isInterrupt : bool) (loc : SourceLocation)
  | NamedType (name : string) (genericArgs : list (option Ty * Variance.t))
      (isRefClassFlag : bool) (loc : SourceLocation)
  | NullableType (innerType : option Ty) (loc : SourceLocation)
  | EnumType (name : string) (members : list string) (loc : SourceLocation)
  | LockType (inner : option Ty) (loc : SourceLocation)
  | ViewType (inner : option Ty) (loc : SourceLocation)
  | MutType (inner : option Ty) (loc : SourceLocation)
  | VolatileType (inner : option Ty) (loc : SourceLocation)
  | ConstType (inner : option Ty) (loc : SourceLocation)
  | WeakType (inner : option Ty) (loc : SourceLocation)
  | DecimalType (precision scale : Z) (loc : SourceLocation)
  | PromiseType (innerType : option Ty) (loc : SourceLocation)

(** [class Expr] and its subclasses; a [double] is a [spec_float]. *)
with Expr : Type :=
  | IntegerLiteral (value : Z) (suffix : NumericSuffix.t) (loc : SourceLocation)
  | FloatLiteral (value : spec_float) (suffix : NumericSuffix.t) (loc : SourceLocation)
  | DecimalLiteral (exactValue : string) (loc : SourceLocation)
  | StringLiteral (value : string) (isTemplate : bool) (loc : SourceLocation)
  | BoolLiteral (value : bool) (loc : SourceLocation)
  | NullLiteral (loc : SourceLocation)
  | CharLiteral (value : ascii) (loc : SourceLocation)
  | ArrayLiteral (elements : list (option Expr)) (loc : SourceLocation)
  | MapLiteral (entries : list (option Expr * option Expr)) (loc : SourceLocation)
  | BinaryExpr (lhs : option Expr) (op : TokenKind.t) (rhs : option Expr) (loc : SourceLocation)
  | UnaryExpr (op : TokenKind.t) (operand : option Expr) (isPostfix : bool) (loc : SourceLocation)
  | TernaryExpr (condition trueBranch falseBranch : option Expr) (loc : SourceLocation)
  | CastExpr (targetType : option Ty) (expr : option Expr) (loc : SourceLocation)
  | BitcastExpr (targetType : option Ty) (expr : option Expr) (loc : SourceLocation)
  | IdentifierExpr (name : string) (loc : SourceLocation)
  | CallExpr (callee : option Expr) (args : list (option Expr)) (loc : SourceLocation)
  | MemberExpr (object : option Expr) (memberName : string) (isOptional : bool)
      (loc : SourceLocation)
  | IndexExpr (array index : option Expr) (isOptional : bool) (loc : SourceLocation)
  | LambdaExpr (params : list LambdaParam) (body : option Stmt) (isExprBody : bool)
      (captureMode : CaptureMode.t) (isAsyncFlag : bool) (loc : SourceLocation)
  | NewExpr (type : option Ty) (args : list (option Expr)) (loc : SourceLocation)
  | TemplateStringExpr (parts : list (option Expr)) (loc : SourceLocation)
  | ThreadExpr (isWeak : bool) (body : option Expr) (loc : SourceLocation)
  | ThisExpr (loc : SourceLocation)
  | SuperExpr (loc : SourceLocation)
  | AwaitExpr (expr : option Expr) (loc : SourceLocation)
  | SizeOfExpr (expression : option Expr) (loc : SourceLocation)
  | InputExpr (prompt : option Expr) (loc : SourceLocation)
  | AsmExpr (assemblyStr : string) (outputs inputs inouts : list AsmOperand)
      (clobbers : list string) (isVolatile : bool) (type : option Ty) (loc : SourceLocation)

(** [class LambdaParam]. *)
with LambdaParam : Type :=
  | mkLambdaParam (type : option Ty) (name : string) (defaultValue : option Expr)

(** [AsmExpr::AsmOperand]. *)
with AsmOperand : Type :=
  | mkAsmOperand (constraint : string) (expr : option Expr)

(** [class Stmt] and its subclasses. *)
with Stmt : Type :=
  | BlockStmt (statements : list (option Stmt)) (loc : SourceLocation)
  | ExpressionStmt (expression : option Expr) (loc : SourceLocation)
  | DeclStmt (decl : option Decl) (loc : SourceLocation)
  | ReturnStmt (returnValue : option Expr) (loc : SourceLocation)
  | BreakStmt (loc : SourceLocation)
  | ContinueStmt (loc : SourceLocation)
  | IfStmt (condition : option Expr) (thenStmt elseStmt : option Stmt) (loc : SourceLocation)
  | WhileStmt (condition : option Expr) (body : option Stmt) (loc : SourceLocation)
  | DoWhileStmt (body : option Stmt) (condition : option Expr) (loc : SourceLocation)
  | ForStmt (init : option Stmt) (condition increment : option Expr) (body : option Stmt)
      (loc : SourceLocation)
  | ForInStmt (variable indexVariable : option Decl) (collection : option Expr)
      (body : option Stmt) (loc : SourceLocation)
  | SwitchStmt (condition : option Expr) (cases : list SwitchCase) (loc : SourceLocation)
  | DeferStmt (deferredStmt : option Stmt) (loc : SourceLocation)
  | UnsafeBlockStmt (statements : list (option Stmt)) (loc : SourceLocation)
  | TryCatchStmt (tryBody : option Stmt) (catches : list CatchClause) (finallyBody : option Stmt)
      (loc : SourceLocation)
  | ThrowStmt (expression : option Expr) (loc : SourceLocation)
  | LockStmt (target : option Expr) (body : option Stmt) (isAsync : bool) (loc : SourceLocation)

(** [class SwitchCase]. *)
with SwitchCase : Type :=
  | mkSwitchCase (values : list (option Expr)) (body : option Stmt) (isDefault : bool)

(** [struct CatchClause]. *)
with CatchClause : Type :=
  | mkCatchClause (var : option Decl) (body : option Stmt) (loc : SourceLocation)

(** [class Decl] and its subclasses. *)
with Decl : Type :=
  | ModuleDecl (base : DeclBase) (decls : list (option Decl))
  | VariableDecl (base : DeclBase) (type : option Ty) (initializer : option Expr)
      (attrs : VariableAttrs)
  | FunctionDecl (base : DeclBase) (params : list Param) (returnType : option Ty)
      (body : option Stmt) (attrs : FunctionAttrs)
  | ClassDecl (base : DeclBase) (parentNames : list string) (members : list (option Decl))
      (attrs : ClassAttrs)
  | GenericDecl (base : DeclBase) (typeParams : list GenericParam) (innerDecl : option Decl)
  | ImportDecl (base : DeclBase) (aliasName : string) (symbols : list (string * string))
  | EnumDecl (base : DeclBase) (cases : list EnumCase)
  | MacroDecl (base : DeclBase) (params : list string) (body : list (option Stmt))
      (isFunction : bool)
  | UsingDecl (base : DeclBase) (targetType : option Ty)

(** [FunctionDecl::Param]. *)
with Param : Type :=
  | mkParam (name : string) (type : option Ty) (loc : SourceLocation)
      (defaultValue : option Expr)

(** [EnumDecl::Case]. *)
with EnumCase : Type :=
  | mkEnumCase (name : string) (value : option Expr).

(** ** Locations, names and kinds *)

Definition type_loc (t : Ty) : SourceLocation :=
  match t with
  | NullType loc | PrimitiveType _ loc | AnyType loc | PointerType _ loc | ReferenceType _ loc
  | ArrayType _ _ loc | SliceType _ loc | MapType _ _ loc | ClosureType _ _ loc
  | FunctionType _ _ _ _ loc | NamedType _ _ _ loc | NullableType _ loc | EnumType _ _ loc
  | LockType _ loc | ViewType _ loc | MutType _ loc | VolatileType _ loc | ConstType _ loc
  | WeakType _ loc | DecimalType _ _ loc | PromiseType _ loc => loc
  end.

Definition expr_loc (e : Expr) : SourceLocation :=
  match e with
  | IntegerLiteral _ _ loc | FloatLiteral _ _ loc | DecimalLiteral _ loc
  | StringLiteral _ _ loc | BoolLiteral _ loc | NullLiteral loc | CharLiteral _ loc
  | ArrayLiteral _ loc | MapLiteral _ loc | BinaryExpr _ _ _ loc | UnaryExpr _ _ _ loc
  | TernaryExpr _ _ _ loc | CastExpr _ _ loc | BitcastExpr _ _ loc | IdentifierExpr _ loc
  | CallExpr _ _ loc | MemberExpr _ _ _ loc | IndexExpr _ _ _ loc
  | LambdaExpr _ _ _ _ _ loc | NewExpr _ _ loc | TemplateStringExpr _ loc
  | ThreadExpr _ _ loc | ThisExpr loc | SuperExpr loc | AwaitExpr _ loc | SizeOfExpr _ loc
  | InputExpr _ loc | AsmExpr _ _ _ _ _ _ _ loc => loc
  end.

Definition decl_base (d : Decl) : DeclBase :=
  match d with
  | ModuleDecl b _ | VariableDecl b _ _ _ | FunctionDecl b _ _ _ _ | ClassDecl b _ _ _
  | GenericDecl b _ _ | ImportDecl b _ _ | EnumDecl b _ | MacroDecl b _ _ _
  | UsingDecl b _ => b
  end.

Definition decl_loc (d : Decl) : SourceLocation := d_loc (decl_base d).
Definition getName (d : Decl) : string := d_name (decl_base d).

Definition isImmutable (t : Ty) : bool :=
  match t with ViewType _ _ | ConstType _ _ => true | _ => false end.
Definition is_volatile (t : Ty) : bool := match t with VolatileType _ _ => true | _ => false end.
Definition is_nullable (t : Ty) : bool := match t with NullableType _ _ => true | _ => false end.

(** [isInteger()], [isFloat()] and [isNumeric()]. *)
Definition isInteger (t : Ty) : bool :=
  match t with
  | PrimitiveType
      (Scalar.I8 | Scalar.I16 | Scalar.I32 | Scalar.I64 | Scalar.ISize | Scalar.U8 | Scalar.U16
      | Scalar.U32 | Scalar.U64 | Scalar.USize | Scalar.Int) _ => true
  | _ => false
  end.
Definition isFloat (t : Ty) : bool :=
  match t with
  | PrimitiveType (Scalar.F8 | Scalar.F16 | Scalar.F32 | Scalar.F64) _ => true
  | _ => false
  end.
Definition isNumeric (t : Ty) : bool :=
  match t with DecimalType _ _ _ => true | _ => isInteger t || isFloat t end.

(** [VariableDecl::isConstVar]. *)
Definition isConstVar (type : option Ty) (a : VariableAttrs) : bool :=
  v_isConst a || match type with Some t => isImmutable t | None => false end.

(** ** Constructors with their default members *)

Definition newVariableAttrs (isConst isStatic isShared : bool) : VariableAttrs :=
  {| v_isConst := isConst; v_isStatic := isStatic; v_isShared := isShared;
     v_isVolatile := false; v_isExtern := false; v_alignment := 0; v_section := "";
     v_isUsed := false; v_bitfieldFlag := false; v_bitWidth := -1; v_isThreadLocal := false;
     v_isWeakLinkage := false; v_bitOffset := 0; v_physicalIndex := 0 |}.

Definition newFunctionAttrs (isAsync isStatic isVariadic isWeak : bool) : FunctionAttrs :=
  {| f_isAsync := isAsync; f_isStatic := isStatic; f_isVariadic := isVariadic;
     f_isWeak := isWeak; f_isBuiltin := false; f_intrinsicKind := IntrinsicKind.None;
     f_isExtern := false; f_externLinkage := ""; f_isInterrupt := false; f_isNaked := false;
     f_isNoReturn := false; f_isNoInline := false; f_isInline := false; f_isPure := false;
     f_isCold := false; f_isUsed := false; f_section := ""; f_abi := "C";
     f_isVirtual := false; f_isOverride := false; f_vtableIndex := -1; f_isView := false;
     f_isUnsafe := false |}.

Definition newClassAttrs (isRef : bool) (aggKind : AggregateKind.t) : ClassAttrs :=
  {| c_isRef := isRef; c_aggKind := aggKind; c_isPacked := false; c_alignment := 0;
     c_section := ""; c_hasVTable := false |}.

Definition mkDecl (name : string) (vis : Visibility.t) (loc : SourceLocation) : DeclBase :=
  {| d_name := name; d_visibility := vis; d_loc := loc |}.
