(* ===== verification/ASTClone.v ===== *)
(** * Copying the syntax tree

    The [clone] methods of [lib/frontend/ast/Expr.cpp], [Stmt.cpp] and [Type.cpp] and of the
    headers of the tree.  A method that follows a null pointer is undefined. *)

From Stdlib Require Import SpecFloat.
From S2P Require Import Prelude Diag Tokens AST.

(** [p->clone()], and [p ? p->clone() : nullptr]. *)
Definition deref_clone {A} (f : A -> option A) (p : option A) : option (option A) :=
  match p with Some x => y ← f x; Some (Some y) | None => None end.
Definition null_clone {A} (f : A -> option A) (p : option A) : option (option A) :=
  match p with Some x => y ← f x; Some (Some y) | None => Some None end.

(** The loop over a vector. *)
Section Each.
Context {A : Type} (f : A -> option A).
Fixpoint each_clone (l : list A) : option (list A) :=
  match l with
  | [] => Some []
  | x :: l => y ← f x; l ← each_clone l; Some (y :: l)
  end.
End Each.

(** [VariableDecl::clone] sets the bit field again with its width. *)
Definition clone_variable_attrs (type : option Ty) (a : VariableAttrs) : VariableAttrs :=
  {| v_isConst := isConstVar type a; v_isStatic := v_isStatic a; v_isShared := v_isShared a;
     v_isVolatile := v_isVolatile a; v_isExtern := v_isExtern a; v_alignment := v_alignment a;
     v_section := v_section a; v_isUsed := v_isUsed a; v_bitfieldFlag := true;
     v_bitWidth := v_bitWidth a; v_isThreadLocal := v_isThreadLocal a;
     v_isWeakLinkage := v_isWeakLinkage a; v_bitOffset := v_bitOffset a;
     v_physicalIndex := v_physicalIndex a |}.

(** [FunctionDecl::clone] copies all members but three. *)
Definition clone_function_attrs (a : FunctionAttrs) : FunctionAttrs :=
  {| f_isAsync := f_isAsync a; f_isStatic := f_isStatic a; f_isVariadic := f_isVariadic a;
     f_isWeak := f_isWeak a; f_isBuiltin := f_isBuiltin a;
     f_intrinsicKind := f_intrinsicKind a; f_isExtern := f_isExtern a;
     f_externLinkage := f_externLinkage a; f_isInterrupt := f_isInterrupt a;
     f_isNaked := f_isNaked a; f_isNoReturn := f_isNoReturn a;
     f_isNoInline := f_isNoInline a; f_isInline := f_isInline a; f_isPure := f_isPure a;
     f_isCold := f_isCold a; f_isUsed := f_isUsed a; f_section := f_section a;
     f_abi := "C"%string; f_isVirtual := f_isVirtual a; f_isOverride := f_isOverride a;
     f_vtableIndex := f_vtableIndex a; f_isView := false; f_isUnsafe := false |}.

(** The name and the location, with the visibility of the constructor that is used. *)
Definition public_base (b : DeclBase) : DeclBase := mkDecl (d_name b) Visibility.Default (d_loc b).

Fixpoint clone_type (t : Ty) : option Ty :=
  match t with
  | NullType loc => Some (NullType loc)
  | PrimitiveType s loc => Some (PrimitiveType s loc)
  | AnyType loc => Some (AnyType loc)
  | PointerType p loc => p ← deref_clone clone_type p; Some (PointerType p loc)
  | ReferenceType p loc => p ← deref_clone clone_type p; Some (ReferenceType p loc)
  | ArrayType p n loc =>
      n ← null_clone clone_expr n; p ← deref_clone clone_type p; Some (ArrayType p n loc)
  | SliceType p loc => p ← deref_clone clone_type p; Some (SliceType p loc)
  | MapType k v loc =>
      k ← deref_clone clone_type k; v ← deref_clone clone_type v; Some (MapType k v loc)
  | ClosureType r ps loc =>
      ps ← each_clone (deref_clone clone_type) ps; r ← deref_clone clone_type r;
      Some (ClosureType r ps loc)
  | FunctionType r ps va it loc =>
      ps ← each_clone (deref_clone clone_type) ps; r ← deref_clone clone_type r;
      Some (FunctionType r ps va it loc)
  | NamedType name args isRef loc =>
      args ← each_clone (fun '(t, v) => t ← deref_clone clone_type t; Some (t, v)) args;
      Some (NamedType name args isRef loc)
  | NullableType p loc => p ← deref_clone clone_type p; Some (NullableType p loc)
  | EnumType name members loc => Some (EnumType name members loc)
  | LockType p loc => p ← deref_clone clone_type p; Some (LockType p loc)
  | ViewType p loc => p ← deref_clone clone_type p; Some (ViewType p loc)
  | MutType p loc => p ← deref_clone clone_type p; Some (MutType p loc)
  | VolatileType p loc => p ← deref_clone clone_type p; Some (VolatileType p loc)
  | ConstType p loc => p ← deref_clone clone_type p; Some (ConstType p loc)
  | WeakType p loc => p ← deref_clone clone_type p; Some (WeakType p loc)
  | DecimalType p s loc => Some (DecimalType p s loc)
  | PromiseType p loc => p ← deref_clone clone_type p; Some (PromiseType p loc)
  end

with clone_expr (e : Expr) : option Expr :=
  match e with
  | IntegerLiteral v sx loc => Some (IntegerLiteral v sx loc)
  | FloatLiteral v sx loc => Some (FloatLiteral v sx loc)
  | DecimalLiteral v loc => Some (DecimalLiteral v loc)
  | StringLiteral v tpl loc => Some (StringLiteral v tpl loc)
  | BoolLiteral v loc => Some (BoolLiteral v loc)
  | NullLiteral loc => Some (NullLiteral loc)
  | CharLiteral v loc => Some (CharLiteral v loc)
  | ArrayLiteral es loc => es ← each_clone (deref_clone clone_expr) es; Some (ArrayLiteral es loc)
  | MapLiteral es loc =>
      es ← each_clone (fun '(k, v) =>
        k ← deref_clone clone_expr k; v ← deref_clone clone_expr v; Some (k, v)) es;
      Some (MapLiteral es loc)
  | BinaryExpr l op r loc =>
      l ← deref_clone clone_expr l; r ← deref_clone clone_expr r; Some (BinaryExpr l op r loc)
  | UnaryExpr op x post loc => x ← deref_clone clone_expr x; Some (UnaryExpr op x post loc)
  | TernaryExpr c a b loc =>
      c ← deref_clone clone_expr c; a ← deref_clone clone_expr a; b ← deref_clone clone_expr b;
      Some (TernaryExpr c a b loc)
  | CastExpr t x loc =>
      t ← deref_clone clone_type t; x ← deref_clone clone_expr x; Some (CastExpr t x loc)
  | BitcastExpr t x loc =>
      t ← deref_clone clone_type t; x ← deref_clone clone_expr x; Some (BitcastExpr t x loc)
  | IdentifierExpr name loc => Some (IdentifierExpr name loc)
  | CallExpr f args loc =>
      args ← each_clone (deref_clone clone_expr) args; f ← deref_clone clone_expr f;
      Some (CallExpr f args loc)
  | MemberExpr o name opt loc => o ← deref_clone clone_expr o; Some (MemberExpr o name opt loc)
  | IndexExpr a i opt loc =>
      a ← deref_clone clone_expr a; i ← deref_clone clone_expr i; Some (IndexExpr a i opt loc)
  | LambdaExpr ps body eb mode async loc =>
      ps ← each_clone clone_lambda_param ps; body ← deref_clone clone_stmt body;
      Some (LambdaExpr ps body eb mode async loc)
  | NewExpr t args loc =>
      args ← each_clone (deref_clone clone_expr) args; t ← deref_clone clone_type t;
      Some (NewExpr t args loc)
  | TemplateStringExpr ps loc =>
      ps ← each_clone (deref_clone clone_expr) ps; Some (TemplateStringExpr ps loc)
  | ThreadExpr weak body loc => body ← null_clone clone_expr body; Some (ThreadExpr weak body loc)
  | ThisExpr loc => Some (ThisExpr loc)
  | SuperExpr loc => Some (SuperExpr loc)
  | AwaitExpr x loc => x ← deref_clone clone_expr x; Some (AwaitExpr x loc)
  | SizeOfExpr x loc => x ← deref_clone clone_expr x; Some (SizeOfExpr x loc)
  | InputExpr x loc => x ← null_clone clone_expr x; Some (InputExpr x loc)
  | AsmExpr s o i io cl vol t loc =>
      o ← each_clone clone_operand o; i ← each_clone clone_operand i;
      io ← each_clone clone_operand io; Some (AsmExpr s o i io cl vol t loc)
  end

with clone_lambda_param (p : LambdaParam) : option LambdaParam :=
  match p with
  | mkLambdaParam t name d =>
      t ← deref_clone clone_type t; d ← null_clone clone_expr d; Some (mkLambdaParam t name d)
  end

with clone_operand (o : AsmOperand) : option AsmOperand :=
  match o with
  | mkAsmOperand c x => x ← null_clone clone_expr x; Some (mkAsmOperand c x)
  end

with clone_stmt (st : Stmt) : option Stmt :=
  match st with
  | BlockStmt l loc => l ← each_clone (deref_clone clone_stmt) l; Some (BlockStmt l loc)
  | ExpressionStmt x loc => x ← deref_clone clone_expr x; Some (ExpressionStmt x loc)
  | DeclStmt d loc => d ← deref_clone clone_decl d; Some (DeclStmt d loc)
  | ReturnStmt x loc => x ← null_clone clone_expr x; Some (ReturnStmt x loc)
  | BreakStmt loc => Some (BreakStmt loc)
  | ContinueStmt loc => Some (ContinueStmt loc)
  | IfStmt c a b loc =>
      c ← deref_clone clone_expr c; a ← deref_clone clone_stmt a; b ← null_clone clone_stmt b;
      Some (IfStmt c a b loc)
  | WhileStmt c b loc =>
      c ← deref_clone clone_expr c; b ← deref_clone clone_stmt b; Some (WhileStmt c b loc)
  | DoWhileStmt b c loc =>
      b ← deref_clone clone_stmt b; c ← deref_clone clone_expr c; Some (DoWhileStmt b c loc)
  | ForStmt i c n b loc =>
      i ← null_clone clone_stmt i; c ← null_clone clone_expr c; n ← null_clone clone_expr n;
      b ← deref_clone clone_stmt b; Some (ForStmt i c n b loc)
  | ForInStmt v i c b loc =>
      v ← deref_clone clone_decl v; i ← null_clone clone_decl i; c ← deref_clone clone_expr c;
      b ← deref_clone clone_stmt b; Some (ForInStmt v i c b loc)
  | SwitchStmt c cases loc =>
      cases ← each_clone clone_case cases; c ← deref_clone clone_expr c;
      Some (SwitchStmt c cases loc)
  | DeferStmt b loc => b ← deref_clone clone_stmt b; Some (DeferStmt b loc)
  | UnsafeBlockStmt l loc => l ← each_clone (deref_clone clone_stmt) l; Some (UnsafeBlockStmt l loc)
  | TryCatchStmt b cs f loc =>
      cs ← each_clone clone_catch cs; b ← null_clone clone_stmt b; f ← null_clone clone_stmt f;
      Some (TryCatchStmt b cs f loc)
  | ThrowStmt x loc => x ← null_clone clone_expr x; Some (ThrowStmt x loc)
  | LockStmt x b async loc =>
      x ← null_clone clone_expr x; b ← null_clone clone_stmt b; Some (LockStmt x b async loc)
  end

with clone_case (c : SwitchCase) : option SwitchCase :=
  match c with
  | mkSwitchCase vs body def =>
      vs ← each_clone (deref_clone clone_expr) vs; body ← null_clone clone_stmt body;
      Some (mkSwitchCase vs body def)
  end

with clone_catch (c : CatchClause) : option CatchClause :=
  match c with
  | mkCatchClause v body loc =>
      v ← null_clone clone_decl v; body ← null_clone clone_stmt body;
      Some (mkCatchClause v body loc)
  end

with clone_decl (d : Decl) : option Decl :=
  match d with
  | ModuleDecl b ds => ds ← each_clone (deref_clone clone_decl) ds; Some (ModuleDecl b ds)
  | VariableDecl b t i a =>
      t' ← deref_clone clone_type t; i ← null_clone clone_expr i;
      Some (VariableDecl b t' i (clone_variable_attrs t a))
  | FunctionDecl b ps r body a =>
      ps ← each_clone clone_param ps; r ← deref_clone clone_type r;
      body ← null_clone clone_stmt body;
      Some (FunctionDecl b ps r body (clone_function_attrs a))
  | ClassDecl b parents ms a =>
      ms ← each_clone (deref_clone clone_decl) ms; Some (ClassDecl b parents ms a)
  | GenericDecl b ps inner =>
      inner ← deref_clone clone_decl inner; Some (GenericDecl (public_base b) ps inner)
  | ImportDecl b alias syms => Some (ImportDecl (public_base b) alias syms)
  | EnumDecl b cases => cases ← each_clone clone_enum_case cases; Some (EnumDecl b cases)
  | MacroDecl b ps body f =>
      body ← each_clone (deref_clone clone_stmt) body; Some (MacroDecl (public_base b) ps body f)
  | UsingDecl b t => t ← deref_clone clone_type t; Some (UsingDecl (public_base b) t)
  end

with clone_param (p : Param) : option Param :=
  match p with
  | mkParam name t loc d =>
      t ← deref_clone clone_type t; d ← null_clone clone_expr d; Some (mkParam name t loc d)
  end

with clone_enum_case (c : EnumCase) : option EnumCase :=
  match c with
  | mkEnumCase name v => v ← null_clone clone_expr v; Some (mkEnumCase name v)
  end.
