(* ===== verification/ParserCore.v ===== *)
(** * The parser: state and elementary operations

    The members of [class Parser] ([include/moksha/Parser/Parser.h]) and the operations of
    [lib/frontend/parser/Parser.cpp] that every production uses: the two tokens of
    look-ahead, [expect] and its messages, the recovery from errors, and the scans of the raw
    text by which the parser tells declarations from expressions. *)

From Stdlib Require Import SpecFloat.
From S2P Require Import Prelude Diag Tokens Lexer Unescape AST.

Declare Scope parser_scope.
Delimit Scope parser_scope with parser.
#[local] Open Scope string_scope.

(** What the parser is compiled and run with: the functions of LLVM and of the C++ library
    that are parameters, the order in which the compiler evaluates the arguments of a call, which
    C++ leaves open, and what a member that no constructor sets holds. *)
Class Platform := {
  pf_utf8 :: Utf8;
  pf_code_points :: CodePoints;
  stod : list ascii -> option spec_float;
  left_to_right : bool;
  uninitialized_bool : bool;
}.

(** ** The state *)

(** [scriptCounter] is the static counter of [parseModule]. *)
Record Parser := {
  lexer : Lexer;
  curTok : Token;
  nextTok : Token;
  loopDepth : Z;
  scriptCounter : nat;
}.

Definition set_lexer (L : Lexer) (s : Parser) : Parser :=
  {| lexer := L; curTok := curTok s; nextTok := nextTok s; loopDepth := loopDepth s;
     scriptCounter := scriptCounter s |}.
Definition set_tokens (L : Lexer) (cur next : Token) (s : Parser) : Parser :=
  {| lexer := L; curTok := cur; nextTok := next; loopDepth := loopDepth s;
     scriptCounter := scriptCounter s |}.
Definition set_depth (d : Z) (s : Parser) : Parser :=
  {| lexer := lexer s; curTok := curTok s; nextTok := nextTok s; loopDepth := d;
     scriptCounter := scriptCounter s |}.
Definition set_counter (n : nat) (s : Parser) : Parser :=
  {| lexer := lexer s; curTok := curTok s; nextTok := nextTok s; loopDepth := loopDepth s;
     scriptCounter := n |}.

(** The engine is shared with the lexer. *)
Definition set_diags (E : DiagnosticEngine) (L : Lexer) : Lexer :=
  {| curPtr := curPtr L; fragmentStart := fragmentStart L; state := state L;
     interpolationStack := interpolationStack L; Diags := E |}.

(** Where a run stops without a result: a byte before the source is read, an exception of
    the standard library is not caught, a null pointer is cloned, a pointer is read after it
    was moved, or the first of no declarations is read. *)
Inductive Crash : Set := BufferUnderrun | UncaughtException | NullClone | MovedPointer | NoDeclaration.

(** The result of a call: a value and a state; [NoFuel] is a run that has not ended within
    its fuel, and [Undefined] one that crashes or whose behaviour C++ leaves undefined. *)
Inductive Result (A : Type) : Type :=
  | Ok (a : A) (s : Parser)
  | NoFuel
  | Undefined (why : Crash).
Arguments Ok {A} a s.
Arguments NoFuel {A}.
Arguments Undefined {A} why.

Definition P (A : Type) : Type := Parser -> Result A.

Definition ret {A} (a : A) : P A := fun s => Ok a s.
Definition bind {A B} (p : P A) (f : A -> P B) : P B := fun s =>
  match p s with
  | Ok a s => f a s
  | NoFuel => NoFuel
  | Undefined why => Undefined why
  end.
Definition undefined {A} (why : Crash) : P A := fun _ => Undefined why.
Definition no_fuel {A} : P A := fun _ => NoFuel.
Definition get : P Parser := fun s => Ok s s.
Definition modify (f : Parser -> Parser) : P unit := fun s => Ok tt (f s).

Notation "x <-- p ;; k" := (bind p (fun x => k))
  (at level 100, p at next level, right associativity) : parser_scope.
Notation "p ;; k" := (bind p (fun _ => k)) (at level 100, right associativity) : parser_scope.
(** [auto x = p; if (!x) return nullptr;] *)
Notation "x <-? p ;; k" := (bind p (fun y => match y with Some x => k | None => ret None end))
  (at level 100, p at next level, right associativity) : parser_scope.
#[local] Open Scope parser_scope.

(** [if (c) p;] *)
Definition when (c : bool) (p : P unit) : P unit := if c then p else ret tt.

(** A value that C++ leaves undefined when there is none. *)
Definition defined {A} (why : Crash) (o : option A) : P A :=
  match o with Some a => ret a | None => undefined why end.

(** A loop: the body goes on with a new accumulator or stops with a result. *)
Fixpoint loop {A B} (fuel : nat) (body : A -> P (A + B)) (a : A) : P B :=
  match fuel with
  | 0 => no_fuel
  | S fuel => r <-- body a;; match r with inl a => loop fuel body a | inr b => ret b end
  end.

(** ** Names of tokens in messages *)

Definition literal_text : list (TokenKind.t * string) :=
  [(TokenKind.Eof, "end of file"); (TokenKind.Error, "error");
   (TokenKind.Identifier, "identifier"); (TokenKind.IntegerLiteral, "integer literal");
   (TokenKind.FloatLiteral, "float literal"); (TokenKind.DecimalLiteral, "decimal literal");
   (TokenKind.StringLiteral, "string literal");
   (TokenKind.TemplateString, "template string"); (TokenKind.CharLiteral, "char literal");
   (TokenKind.StringFragment, "string fragment"); (TokenKind.InterpolationStart, "${");
   (TokenKind.InterpolationEnd, "}")].

Definition keyword_text : list (TokenKind.t * string) :=
  [(TokenKind.KwClass, "'class'"); (TokenKind.KwRef, "'ref'"); (TokenKind.KwWeak, "'weak'");
   (TokenKind.KwShared, "'shared'"); (TokenKind.KwNew, "'new'");
   (TokenKind.KwDelete, "'delete'"); (TokenKind.KwUnsafe, "'unsafe'");
   (TokenKind.KwUnsigned, "'unsigned'"); (TokenKind.KwConstructor, "'constructor'");
   (TokenKind.KwDestructor, "'destructor'"); (TokenKind.KwThis, "'this'");
   (TokenKind.KwSuper, "'super'"); (TokenKind.KwNull, "'null'"); (TokenKind.KwIf, "'if'");
   (TokenKind.KwElse, "'else'"); (TokenKind.KwWhile, "'while'"); (TokenKind.KwDo, "'do'");
   (TokenKind.KwFor, "'for'"); (TokenKind.KwIn, "'in'"); (TokenKind.KwSwitch, "'switch'");
   (TokenKind.KwCase, "'case'"); (TokenKind.KwDefault, "'default'");
   (TokenKind.KwReturn, "'return'"); (TokenKind.KwBreak, "'break'");
   (TokenKind.KwContinue, "'continue'"); (TokenKind.KwDefer, "'defer'");
   (TokenKind.KwWith, "'with'"); (TokenKind.KwTry, "'try'"); (TokenKind.KwCatch, "'catch'");
   (TokenKind.KwThrow, "'throw'"); (TokenKind.KwFinally, "'finally'");
   (TokenKind.KwVoid, "'void'"); (TokenKind.KwInt, "'int'"); (TokenKind.KwFloat, "'float'");
   (TokenKind.KwBool, "'bool'"); (TokenKind.KwString, "'string'");
   (TokenKind.KwChar, "'char'"); (TokenKind.KwDecimal, "'decimal'");
   (TokenKind.KwAny, "'any'"); (TokenKind.KwPromise, "'promise'"); (TokenKind.KwAs, "'as'");
   (TokenKind.KwTrue, "'true'"); (TokenKind.KwFalse, "'false'");
   (TokenKind.KwPublic, "'public'"); (TokenKind.KwPrivate, "'private'");
   (TokenKind.KwProtected, "'protected'"); (TokenKind.KwConst, "'const'");
   (TokenKind.KwStatic, "'static'"); (TokenKind.KwAsync, "'async'");
   (TokenKind.KwAwait, "'await'"); (TokenKind.KwThread, "'thread'");
   (TokenKind.KwImport, "'import'"); (TokenKind.KwFrom, "'from'");
   (TokenKind.KwMacro, "'macro'"); (TokenKind.KwTable, "'table'");
   (TokenKind.KwGeneric, "'generic'"); (TokenKind.KwStruct, "'struct'");
   (TokenKind.KwUnion, "'union'"); (TokenKind.KwPacked, "'packed'");
   (TokenKind.KwVolatile, "'volatile'"); (TokenKind.KwAlign, "'align'");
   (TokenKind.KwSizeof, "'sizeof'"); (TokenKind.KwInterrupt, "'interrupt'");
   (TokenKind.KwNaked, "'naked'"); (TokenKind.KwNoreturn, "'noreturn'");
   (TokenKind.KwNoinline, "'noinline'"); (TokenKind.KwInline, "'inline'");
   (TokenKind.KwPure, "'pure'"); (TokenKind.KwCold, "'cold'"); (TokenKind.KwLock, "'lock'");
   (TokenKind.KwView, "'view'"); (TokenKind.KwMut, "'mut'");
   (TokenKind.KwExtern, "'extern'"); (TokenKind.KwUsing, "'using'");
   (TokenKind.KwAsm, "'asm'"); (TokenKind.KwSection, "'section'");
   (TokenKind.KwUsed, "'used'"); (TokenKind.KwThreadLocal, "'thread_local'");
   (TokenKind.KwClosure, "'closure'"); (TokenKind.KwOut, "'out'");
   (TokenKind.KwInout, "'inout'"); (TokenKind.KwClobber, "'clobber'");
   (TokenKind.KwBitcast, "'bitcast'")].

Definition operator_text : list (TokenKind.t * string) :=
  [(TokenKind.Plus, "'+'"); (TokenKind.Minus, "'-'"); (TokenKind.Star, "'*'");
   (TokenKind.Slash, "'/'"); (TokenKind.Percent, "'%'"); (TokenKind.Power, "'**'");
   (TokenKind.PlusPlus, "'++'"); (TokenKind.MinusMinus, "'--'"); (TokenKind.Equal, "'='");
   (TokenKind.PlusEqual, "'+='"); (TokenKind.MinusEqual, "'-='");
   (TokenKind.StarEqual, "'*='"); (TokenKind.SlashEqual, "'/='");
   (TokenKind.PercentEqual, "'%='"); (TokenKind.Amp, "'&'"); (TokenKind.Pipe, "'|'");
   (TokenKind.Caret, "'^'"); (TokenKind.Tilde, "'~'"); (TokenKind.AmpEqual, "'&='");
   (TokenKind.PipeEqual, "'|='"); (TokenKind.CaretEqual, "'^='");
   (TokenKind.LessLess, "'<<'"); (TokenKind.GreaterGreater, "'>>'");
   (TokenKind.LessLessEqual, "'<<='"); (TokenKind.GreaterGreaterEqual, "'>>='");
   (TokenKind.AmpAmp, "'&&'"); (TokenKind.PipePipe, "'||'");
   (TokenKind.PipeGreater, "'|>'"); (TokenKind.Bang, "'!'"); (TokenKind.EqualEqual, "'=='");
   (TokenKind.NotEqual, "'!='"); (TokenKind.Less, "'<'"); (TokenKind.LessEqual, "'<='");
   (TokenKind.Greater, "'>'"); (TokenKind.GreaterEqual, "'>='");
   (TokenKind.FatArrow, "'=>'"); (TokenKind.Dot, "'.'"); (TokenKind.DotDotDot, "'...'");
   (TokenKind.QuestionDot, "'?.'"); (TokenKind.QuestionQuestion, "'??'");
   (TokenKind.Question, "'?'"); (TokenKind.Colon, "':'"); (TokenKind.Comma, "','");
   (TokenKind.Semicolon, "';'"); (TokenKind.LParen, "'('"); (TokenKind.RParen, "')'");
   (TokenKind.LBrace, "'{'"); (TokenKind.RBrace, "'}'"); (TokenKind.LBracket, "'['");
   (TokenKind.RBracket, "']'")].

Fixpoint assoc_kind {A} (k : TokenKind.t) (l : list (TokenKind.t * A)) : option A :=
  match l with
  | [] => None
  | (k', a) :: l => if enum_eqb k k' then Some a else assoc_kind k l
  end.

Definition tokenKindToString (k : TokenKind.t) : string :=
  default "token" (assoc_kind k (literal_text ++ keyword_text ++ operator_text)%list).

(** ** Scanning the text *)

Definition is_blank (c : ascii) : bool := (c =?c " ") || (c =?c TAB) || (c =?c CR) || (c =?c LF).
Definition is_letter (c : ascii) : bool := in_range "a" "z" c || in_range "A" "Z" c || (c =?c "_").
Definition is_word (c : ascii) : bool := is_letter c || in_range "0" "9" c.

Fixpoint drop_while (p : ascii -> bool) (l : list ascii) : list ascii :=
  match l with
  | c :: r => if p c then drop_while p r else l
  | [] => []
  end.

(** The byte at the start, NUL at the end of the buffer. *)
Definition byte (l : list ascii) : ascii := default NUL (head l).

Definition ends_line (c : ascii) : bool := (c =?c NUL) || (c =?c ";") || (c =?c LF).

(** The angle brackets that open at the start: whether they are closed before a byte that
    satisfies [stop], and the text from there. *)
Fixpoint scan_angle (stop : ascii -> bool) (l : list ascii) (depth : Z) : bool * list ascii :=
  match l with
  | [] => (false, [])
  | c :: r =>
      if stop c then (false, l)
      else if c =?c "<" then scan_angle stop r (depth + 1)
      else if c =?c ">" then
        if Z.eqb (depth - 1) 0 then (true, r) else scan_angle stop r (depth - 1)
      else scan_angle stop r depth
  end.

(** The parentheses that open at the start: whether [=>] follows them; [None] when they are
    not closed on the line. *)
Fixpoint scan_paren (l : list ascii) (depth : Z) : option bool :=
  match l with
  | [] => None
  | c :: r =>
      if ends_line c then None
      else if c =?c "(" then scan_paren r (depth + 1)
      else if c =?c ")" then
        if Z.eqb (depth - 1) 0 then
          let r := drop_while is_blank r in
          Some ((byte r =?c "=") && (byte (tail r) =?c ">"))
        else scan_paren r (depth - 1)
      else scan_paren r depth
  end.

(** What follows a type name: brackets, [?], [*] and blanks are skipped; is it a name?  With
    [depth] brackets open. *)
Fixpoint scan_suffix (l : list ascii) (depth : Z) : bool :=
  match l with
  | [] => false
  | c :: r =>
      if c =?c NUL then false
      else if Z.eqb depth 0 then
        if c =?c "[" then scan_suffix r 1
        else if is_blank c then scan_suffix r 0
        else if (c =?c "?") || (c =?c "*") then scan_suffix r 0
        else is_letter c
      else if c =?c "[" then scan_suffix r (depth + 1)
      else if c =?c "]" then scan_suffix r (depth - 1)
      else scan_suffix r depth
  end.

(** The segments [.name] of a qualified name. *)
Fixpoint skip_segments (fuel : nat) (l : list ascii) : list ascii :=
  match fuel with
  | 0 => l
  | S fuel =>
      let t := drop_while is_blank l in
      if byte t =?c "." then
        let t := drop_while is_blank (tail t) in
        if is_letter (byte t) then skip_segments fuel (drop_while is_word t) else l
      else l
  end.

(** Does a declaration start with the identifier at the start of [l]? *)
Definition starts_named (l : list ascii) : bool :=
  let l := drop_while is_word l in
  let l := drop_while is_blank (skip_segments (List.length l) l) in
  if is_letter (byte l) then true
  else if byte l =?c "<" then
    let '(closed, l) := scan_angle ends_line l 0 in
    closed && is_letter (byte (drop_while is_blank l))
  else scan_suffix l 0.

Definition type_words : list string :=
  ["mut"; "const"; "lock"; "view"; "int"; "float"; "double"; "bool"; "string"; "char"; "short";
   "long"; "isize"; "usize"; "half"; "quarter"; "void"; "any"; "unsigned"; "volatile";
   "decimal"].

(** The longest prefix of bytes with [p]. *)
Fixpoint take_while (p : ascii -> bool) (l : list ascii) : list ascii :=
  match l with
  | c :: r => if p c then c :: take_while p r else []
  | [] => []
  end.

(** Does a declaration start with the prefix [*], [**] or [&] at the start of [l]? *)
Definition starts_prefixed (l : list ascii) : bool :=
  let l := drop_while (fun c => (c =?c "*") || (c =?c "&") || is_blank c) l in
  if existsb (String.eqb (string_of_list_ascii (take_while is_word l))) type_words then true
  else
    let l := drop_while is_word l in
    let l := if byte l =?c "<" then snd (scan_angle ends_line l 0) else l in
    is_letter (byte (drop_while is_blank l)).

(** ** Elementary operations *)

Section Operations.
Context `{Platform} (buf : buffer).

Definition spelling_of (t : Token) : string := string_of_list_ascii (getSpelling buf t).

(** [curTok = nextTok; nextTok = lexer.next();] *)
Definition shift : P unit := fun s =>
  match next buf (lexer s) with
  | Some (t, L) => Ok tt (set_tokens L (nextTok s) t s)
  | None => NoFuel
  end.

Definition cur : P Token := s <-- get;; ret (curTok s).
Definition peek : P Token := s <-- get;; ret (nextTok s).
Definition cur_is (k : TokenKind.t) : P bool := t <-- cur;; ret (tok_is t k).
Definition cur_isAny (ks : list TokenKind.t) : P bool := t <-- cur;; ret (isAny t ks).
Definition peekIs (k : TokenKind.t) : P bool := t <-- peek;; ret (tok_is t k).
Definition loc_here : P SourceLocation := t <-- cur;; ret (Some (location t)).
Definition spelling_here : P string := t <-- cur;; ret (spelling_of t).

(** The constructor. *)
Definition newParser (L : Lexer) (counter : nat) : Result unit :=
  match next buf L with
  | Some (c, L) =>
      match next buf L with
      | Some (n, L) =>
          Ok tt {| lexer := L; curTok := c; nextTok := n; loopDepth := 0; scriptCounter := counter |}
      | None => NoFuel
      end
  | None => NoFuel
  end.

(** Comments are skipped; the lexer makes no token of one. *)
Definition advance : P unit :=
  shift;;
  loop (bufferEnd buf + 3) (fun _ =>
    c <-- cur_is TokenKind.Comment;;
    if c : bool then shift;; ret (inl tt) else ret (inr tt)) tt.

Definition consume : P unit := advance.

(** [Diags.report(loc, id) << vals...] *)
Definition report_at (loc : SourceLocation) (id : DiagID.t) (vals : list string) : P unit :=
  modify (fun s => set_lexer (set_diags (report_with loc id vals (Diags (lexer s))) (lexer s)) s).

Definition error (message : string) : P unit :=
  loc <-- loc_here;; report_at loc DiagID.err_expected_token [message].

Definition consumeIf (k : TokenKind.t) : P bool :=
  c <-- cur_is k;; if c : bool then advance;; ret true else ret false.

Definition expect (k : TokenKind.t) : P bool :=
  c <-- cur_is k;;
  if c : bool then advance;; ret true
  else
    found <-- spelling_here;;
    error ("Expected " ++ tokenKindToString k ++ ", but found " ++ found);;
    ret false.

(** [curTok.kind = k]. *)
Definition set_kind (k : TokenKind.t) : P unit := modify (fun s =>
  let t := curTok s in
  set_tokens (lexer s)
    {| kind := k; location := location t; length := length t; suffix := suffix t;
       flags := flags t |} (nextTok s) s).

Definition expectGreater : P bool :=
  t <-- cur;;
  match kind t with
  | TokenKind.Greater => advance;; ret true
  | TokenKind.GreaterGreater => set_kind TokenKind.Greater;; ret true
  | TokenKind.GreaterGreaterEqual => set_kind TokenKind.GreaterEqual;; ret true
  | _ => expect TokenKind.Greater
  end.

(** Where [synchronize] stops. *)
Definition sync_kinds : list TokenKind.t :=
  [TokenKind.KwClass; TokenKind.KwIf; TokenKind.KwWhile; TokenKind.KwFor; TokenKind.KwReturn;
   TokenKind.KwImport; TokenKind.RBrace].

Definition synchronize (fuel : nat) : P unit :=
  t <-- cur;;
  if tok_is t TokenKind.Eof then ret tt
  else if tok_is t TokenKind.Semicolon then advance
  else
    advance;;
    loop fuel (fun _ =>
      t <-- cur;;
      if tok_is t TokenKind.Eof then ret (inr tt)
      else if tok_is t TokenKind.Semicolon then advance;; ret (inr tt)
      else if isAny t sync_kinds then ret (inr tt)
      else advance;; ret (inl tt)) tt.

(** The blanks before a position, backwards: is there a line break?  Undefined when they
    reach the start of the buffer, because the byte before it is read. *)
Fixpoint newline_before (p : nat) : option bool :=
  match p with
  | 0 => None
  | S p =>
      let c := deref buf p in
      if (c =?c LF) || (c =?c CR) then Some true
      else if is_blank c then newline_before p
      else Some false
  end.

Definition hasNewlineBeforeToken (t : Token) : option bool :=
  match getSpelling buf t with
  | [] => Some false
  | _ => newline_before (location t)
  end.

Definition newline_here : P bool := t <-- cur;; defined BufferUnderrun (hasNewlineBeforeToken t).

Definition declaration_keywords : list TokenKind.t :=
  [TokenKind.KwImport; TokenKind.KwFrom; TokenKind.KwGeneric; TokenKind.KwEnum;
   TokenKind.KwClass; TokenKind.KwStruct; TokenKind.KwUnion; TokenKind.KwRef;
   TokenKind.KwThread; TokenKind.KwTable; TokenKind.KwUnsigned; TokenKind.KwWeak;
   TokenKind.KwAsync; TokenKind.KwShared; TokenKind.KwMacro; TokenKind.KwConst;
   TokenKind.KwStatic; TokenKind.KwPublic; TokenKind.KwPrivate; TokenKind.KwProtected;
   TokenKind.KwExtern; TokenKind.KwUsing; TokenKind.KwPacked; TokenKind.KwAlign;
   TokenKind.KwSection; TokenKind.KwInterrupt; TokenKind.KwNaked; TokenKind.KwNoreturn;
   TokenKind.KwNoinline; TokenKind.KwVolatile; TokenKind.KwInline; TokenKind.KwPure;
   TokenKind.KwCold; TokenKind.KwLock; TokenKind.KwView; TokenKind.KwMut; TokenKind.KwUsed;
   TokenKind.KwThreadLocal].

Definition primitive_keywords : list TokenKind.t :=
  [TokenKind.KwInt; TokenKind.KwFloat; TokenKind.KwBool; TokenKind.KwString; TokenKind.KwVoid;
   TokenKind.KwAny; TokenKind.KwChar; TokenKind.KwISize; TokenKind.KwUSize; TokenKind.KwShort;
   TokenKind.KwLong; TokenKind.KwDouble; TokenKind.KwHalf; TokenKind.KwQuarter;
   TokenKind.KwUnsigned; TokenKind.KwDecimal; TokenKind.KwPromise].

Definition isStartOfDeclaration (s : Parser) : bool :=
  let c := curTok s in
  let n := nextTok s in
  let text := drop (location c) buf in
  if isAny c declaration_keywords then
    negb (tok_is c TokenKind.KwLock && (tok_is n TokenKind.LBrace || tok_is n TokenKind.LParen))
    && negb (isAny c [TokenKind.KwView; TokenKind.KwMut] && tok_is n TokenKind.LBrace)
    && negb (tok_is c TokenKind.KwAsync && tok_is n TokenKind.KwLock)
  else if tok_is c TokenKind.KwClosure then true
  else if tok_is c TokenKind.LParen then default false (scan_paren text 0)
  else if isAny c primitive_keywords then negb (tok_is n TokenKind.LParen)
  else if tok_is c TokenKind.Identifier then starts_named text
  else if isAny c [TokenKind.Star; TokenKind.Power; TokenKind.Amp] then starts_prefixed text
  else false.

Definition at_declaration : P bool := s <-- get;; ret (isStartOfDeclaration s).

(** [do body while (consumeIf(Comma));] with an accumulator. *)
Definition comma_separated {A} (fuel : nat) (body : A -> P A) (a : A) : P A :=
  loop fuel (fun a =>
    a <-- body a;;
    more <-- consumeIf TokenKind.Comma;;
    ret (if more : bool then inl a else inr a)) a.

(** The text of a string literal without its quotes. *)
Definition unquote (l : list ascii) : list ascii :=
  if (2 <=? List.length l)%nat then take (List.length l - 2) (drop 1 l) else l.

End Operations.

(** ** Numbers: [std::stoull], [std::stoul] and [std::stoi] *)

Inductive Converted : Type := Value (z : Z) | InvalidArgument | OutOfRange.

Definition digit_value (c : ascii) : option Z :=
  let n := Z.of_N (N_of_ascii c) in
  if in_range "0" "9" c then Some (n - 48)%Z
  else if in_range "a" "z" c then Some (n - 87)%Z
  else if in_range "A" "Z" c then Some (n - 55)%Z
  else None.

(** The digits of a base at the start of a text. *)
Fixpoint digits (base : Z) (acc : option Z) (l : list ascii) : option Z :=
  match l with
  | [] => acc
  | c :: r =>
      match digit_value c with
      | Some d => if Z.ltb d base then digits base (Some (base * default 0%Z acc + d)%Z) r else acc
      | None => acc
      end
  end.

(** The sign and the magnitude that [strtoull] reads; base 0 is told by the prefix. *)
Definition read_number (base : Z) (l : list ascii) : option (bool * Z) :=
  let l := drop_while isWhitespace l in
  let '(negative, l) :=
    if byte l =?c "-" then (true, tail l) else if byte l =?c "+" then (false, tail l) else (false, l) in
  let hex := (byte l =?c "0") && ((byte (tail l) =?c "x") || (byte (tail l) =?c "X"))
             && isHexDigit (byte (tail (tail l))) in
  n ← (if (Z.eqb base 0 || Z.eqb base 16) && hex then digits 16 None (tail (tail l))
       else if Z.eqb base 0 then digits (if byte l =?c "0" then 8 else 10) None l
       else digits base None l);
  Some (negative, n).

Definition stoull (base : Z) (l : list ascii) : Converted :=
  match read_number base l with
  | None => InvalidArgument
  | Some (negative, n) =>
      if (n <? 2 ^ 64)%Z then Value (if negative : bool then u64 (- n) else n) else OutOfRange
  end.

Definition stoi (l : list ascii) : Converted :=
  match read_number 10 l with
  | None => InvalidArgument
  | Some (negative, n) =>
      let z := if negative : bool then (- n)%Z else n in
      if ((- 2 ^ 31 <=? z) && (z <? 2 ^ 31))%Z then Value z else OutOfRange
  end.

(** The conversion to [int] of an unsigned number. *)
Definition int_of (z : Z) : Z := ((z + 2 ^ 31) `mod` 2 ^ 32 - 2 ^ 31)%Z.

(** [try { x = c; } catch (const std::out_of_range &) { error(message); x = fallback; }]: an
    invalid argument is not caught and ends the program. *)
Definition caught (c : Converted) (message : string) (fallback : Z) : P Z :=
  match c with
  | Value z => ret z
  | OutOfRange => error message;; ret fallback
  | InvalidArgument => undefined UncaughtException
  end.

(** ** Productions

    The productions that call each other; a production is defined against this record, and
    the knot is tied in [Parser]. *)
Record Productions := {
  p_expression : P (option Expr);
  p_ternary : P (option Expr);
  p_power : P (option Expr);
  p_prefix : P (option Expr);
  p_primary : P (option Expr);
  p_type : P (option Ty);
  p_statement : P (option Stmt);
  p_topLevelDecls : P (list Decl);
}.
