(* ===== verification/ParserType.v ===== *)
(** * The parser: types

    [parseType] and [parseClosureType] of [lib/frontend/parser/Parser.cpp]. *)

From S2P Require Import Prelude Diag Tokens Lexer AST ParserCore.

#[local] Open Scope string_scope.
#[local] Open Scope parser_scope.

Section Types.
Context `{Platform} (buf : buffer) (fuel : nat) (rec : Productions).

#[local] Abbreviation consume := (consume buf).
#[local] Abbreviation consumeIf := (consumeIf buf).
#[local] Abbreviation expect := (expect buf).
#[local] Abbreviation expectGreater := (expectGreater buf).
#[local] Abbreviation parseType := (p_type rec).
#[local] Abbreviation parseExpression := (p_expression rec).

(** The parameter types up to the parenthesis. *)
Definition type_list : P (list (option Ty)) :=
  close <-- cur_is TokenKind.RParen;;
  if close : bool then ret []
  else comma_separated buf fuel (fun params =>
         t <-- parseType;;
         ret match t with Some _ => (params ++ [t])%list | None => params end) [].

Definition parseClosureType : P (option Ty) :=
  loc <-- loc_here;;
  consume;;
  expect TokenKind.LParen;;
  paramTypes <-- type_list;;
  expect TokenKind.RParen;;
  arrow <-- consumeIf TokenKind.Arrow;;
  returnType <-- (if arrow : bool then parseType
                  else here <-- loc_here;; ret (Some (PrimitiveType Scalar.Void here)));;
  ret (Some (ClosureType returnType paramTypes loc)).

(** The number of a decimal type. *)
Definition decimal_number (too_large expected : string) : P Z :=
  t <-- cur;;
  if tok_is t TokenKind.IntegerLiteral then
    n <-- caught (stoull 10 (getSpelling buf t)) too_large 0;;
    consume;;
    ret (u32 n)
  else error expected;; ret 0%Z.

Definition decimal_type (loc : SourceLocation) : P (option Ty) :=
  consume;;
  open <-- expect TokenKind.Less;;
  if open : bool then
    precision <-- decimal_number "Decimal precision is too large"
                    "Expected integer literal for decimal precision";;
    expect TokenKind.Comma;;
    scale <-- decimal_number "Decimal scale is too large"
                "Expected integer literal for decimal scale";;
    expectGreater;;
    ret (Some (DecimalType precision scale loc))
  else ret (Some (DecimalType 0 0 loc)).

(** [name.name...]. *)
Definition qualified_name (name : string) : P string :=
  loop fuel (fun name =>
    dot <-- consumeIf TokenKind.Dot;;
    if dot : bool then
      t <-- cur;;
      if tok_is t TokenKind.Identifier then consume;; ret (inl (name ++ "." ++ spelling_of buf t))
      else error "Expected identifier after '.' in type name";; ret (inr name)
    else ret (inr name)) name.

Definition generic_arguments : P (list (option Ty * Variance.t)) :=
  open <-- consumeIf TokenKind.Less;;
  if open : bool then
    args <-- comma_separated buf fuel (fun args =>
      t <-- parseType;;
      match t with
      | Some _ => ret (args ++ [(t, Variance.Invariant)])%list
      | None =>
          error "Expected type argument";;
          loop fuel (fun _ =>
            stop <-- cur_isAny [TokenKind.Comma; TokenKind.Greater; TokenKind.Eof];;
            if stop : bool then ret (inr tt) else advance buf;; ret (inl tt)) tt;;
          ret args
      end) [];;
    expectGreater;;
    ret args
  else ret [].

(** The token is taken, and the type follows it. *)
Definition scalar (s : Scalar.t) (loc : SourceLocation) : P (option (option Ty)) :=
  consume;; ret (Some (Some (PrimitiveType s loc))).

(** A prefix and the type after it; without a type the production returns null. *)
Definition prefixed (make : option Ty -> Ty) : P (option (option Ty)) :=
  consume;;
  inner <-? parseType;;
  ret (Some (Some (make (Some inner)))).

(** The [switch] on the first token: [None] is [return nullptr], and a null type goes on to
    the suffixes. *)
Definition type_base (loc : SourceLocation) (isUnsigned : bool) : P (option (option Ty)) :=
  t <-- cur;;
  let here := Some (location t) in
  match kind t with
  | TokenKind.Amp => prefixed (fun inner => ReferenceType inner here)
  | TokenKind.Star => prefixed (fun inner => PointerType inner here)
  | TokenKind.Power => prefixed (fun inner => PointerType (Some (PointerType inner here)) here)
  | TokenKind.KwInt => scalar (if isUnsigned then Scalar.U32 else Scalar.I32) loc
  | TokenKind.KwShort => scalar (if isUnsigned then Scalar.U16 else Scalar.I16) loc
  | TokenKind.KwLong => scalar (if isUnsigned then Scalar.U64 else Scalar.I64) loc
  | TokenKind.KwChar => scalar (if isUnsigned then Scalar.U8 else Scalar.Char) loc
  | TokenKind.KwFloat => scalar Scalar.F32 loc
  | TokenKind.KwDouble => scalar Scalar.F64 loc
  | TokenKind.KwISize => scalar Scalar.ISize loc
  | TokenKind.KwUSize => scalar Scalar.USize loc
  | TokenKind.KwBool => scalar Scalar.Bool loc
  | TokenKind.KwString => scalar Scalar.String loc
  | TokenKind.KwVoid => scalar Scalar.Void loc
  | TokenKind.KwNull => consume;; ret (Some (Some (NullType loc)))
  | TokenKind.KwAny => consume;; ret (Some (Some (AnyType loc)))
  | TokenKind.KwHalf => scalar Scalar.F16 loc
  | TokenKind.KwQuarter => scalar Scalar.F8 loc
  | TokenKind.KwDecimal => type <-- decimal_type loc;; ret (Some type)
  | TokenKind.KwLock => prefixed (fun inner => LockType inner loc)
  | TokenKind.KwView => prefixed (fun inner => ViewType inner loc)
  | TokenKind.KwMut => prefixed (fun inner => MutType inner loc)
  | TokenKind.KwWeak => prefixed (fun inner => NullableType (Some (WeakType inner loc)) loc)
  | TokenKind.KwPromise =>
      consume;;
      open <-- consumeIf TokenKind.Less;;
      if open : bool then
        inner <-? parseType;;
        expectGreater;;
        ret (Some (Some (PromiseType (Some inner) loc)))
      else error "Expected '<' after promise";; ret (Some None)
  | TokenKind.KwClosure => type <-- parseClosureType;; ret (Some type)
  | TokenKind.KwThread => consume;; ret (Some (Some (NamedType "Thread" [] false loc)))
  | TokenKind.KwRef => consume;; inner <-- parseType;; ret (Some (Some (ReferenceType inner loc)))
  | TokenKind.KwTable =>
      consume;;
      open <-- consumeIf TokenKind.Less;;
      if open : bool then
        key <-- parseType;;
        expect TokenKind.Comma;;
        val <-- parseType;;
        expectGreater;;
        ret (Some (Some (MapType key val loc)))
      else ret (Some (Some (MapType (Some (AnyType loc)) (Some (AnyType loc)) loc)))
  | TokenKind.Identifier =>
      consume;;
      name <-- qualified_name (spelling_of buf t);;
      args <-- generic_arguments;;
      ret (Some (Some (NamedType name args false loc)))
  | TokenKind.KwInterrupt | TokenKind.LParen =>
      consume;;
      params <-- type_list;;
      expect TokenKind.RParen;;
      arrow <-- consumeIf TokenKind.FatArrow;;
      if arrow : bool then
        result <-- parseType;;
        ret (Some (Some (FunctionType result params false false loc)))
      else error "Expected '=>' for function type";; ret None
  | _ => ret None
  end.

(** The dimensions [[n][m]...]. *)
Definition dimensions : P (list (option Expr)) :=
  loop fuel (fun sizes =>
    consume;;
    close <-- cur_is TokenKind.RBracket;;
    size <-- (if close : bool then ret None else parseExpression);;
    expect TokenKind.RBracket;;
    more <-- cur_is TokenKind.LBracket;;
    ret (if more : bool then inl (sizes ++ [size])%list else inr (sizes ++ [size])%list)) [].

(** One dimension around a type: the last one is the innermost. *)
Definition dimension (loc : SourceLocation) (type : option Ty) (size : option Expr) : option Ty :=
  Some (match size with None => SliceType type loc | Some _ => ArrayType type size loc end).

Definition type_suffixes (type : option Ty) : P (option Ty) :=
  loop fuel (fun type =>
    loc <-- loc_here;;
    nullable <-- consumeIf TokenKind.Question;;
    if nullable : bool then ret (inl (Some (NullableType type loc)))
    else
      open <-- cur_is TokenKind.LBracket;;
      if open : bool then
        sizes <-- dimensions;;
        ret (inl (foldl (dimension loc) type (rev sizes)))
      else
        star <-- consumeIf TokenKind.Star;;
        if star : bool then ret (inl (Some (PointerType type loc)))
        else
          power <-- consumeIf TokenKind.Power;;
          if power : bool then
            ret (inl (Some (PointerType (Some (PointerType type loc)) loc)))
          else ret (inr type)) type.

Definition parseType_body : P (option Ty) :=
  loc <-- loc_here;;
  isVolatile <-- consumeIf TokenKind.KwVolatile;;
  isConst <-- consumeIf TokenKind.KwConst;;
  isUnsigned <-- consumeIf TokenKind.KwUnsigned;;
  type <-? type_base loc isUnsigned;;
  let type := if isConst : bool then Some (ConstType type loc) else type in
  let type := if isVolatile : bool then Some (VolatileType type loc) else type in
  type_suffixes type.

End Types.
