(* ===== verification/ParserExpr.v ===== *)
(** * The parser: expressions

    The productions of [lib/frontend/parser/Parser.cpp] from [parseExpression] to
    [parseAsmExpr], and [parseBlock], which the bodies of lambda expressions need. *)

From Stdlib Require Import SpecFloat.
From S2P Require Import Prelude Diag Tokens Lexer Unescape AST ParserCore.

#[local] Open Scope string_scope.
#[local] Open Scope parser_scope.

(** ** Literals *)

(** The digits of an [\x], [\u] or [\U] escape of a character. *)
Definition char_digits (n : nat) (l : list ascii) : Z :=
  fold_left (fun v c => u64 (Z.lor (Z.shiftl v 4)
    match hex_value c with Some d => d | None => 0 end))%Z (take n l) 0%Z.

Section Expressions.
Context `{Platform} (buf : buffer) (fuel : nat) (rec : Productions).

#[local] Abbreviation consume := (consume buf).
#[local] Abbreviation consumeIf := (consumeIf buf).
#[local] Abbreviation expect := (expect buf).
#[local] Abbreviation expectGreater := (expectGreater buf).
#[local] Abbreviation parseType := (p_type rec).
#[local] Abbreviation parseExpression := (p_expression rec).

(** The text of a literal without underscores. *)
Definition without_underscores (l : list ascii) : list ascii :=
  filter (fun c => (c =?c "_"%char) = false) l.

Definition out_of_range (text : list ascii) : P unit :=
  loc <-- loc_here;;
  report_at loc DiagID.err_type_mismatch
    ["Integer literal '"; string_of_list_ascii text; "' is out of range for i64"].

Definition integer_literal (loc : SourceLocation) : P (option Expr) :=
  t <-- cur;;
  let text := without_underscores (getSpelling buf t) in
  let prefix (a b : ascii) := (2 <=? List.length text)%nat && (byte text =?c "0"%char)
    && ((byte (tail text) =?c a) || (byte (tail text) =?c b)) in
  let isBin := prefix "b"%char "B"%char in
  let isOct := prefix "o"%char "O"%char in
  let isHexBinOct := isBin || isOct || prefix "x"%char "X"%char in
  let converted := if isBin then stoull 2 (drop 2 text)
                   else if isOct then stoull 8 (drop 2 text) else stoull 0 text in
  val <-- match converted with
          | Value val =>
              when (negb isHexBinOct && enum_eqb (suffix t) NumericSuffix.None
                    && (9223372036854775808 <? val)%Z) (out_of_range text);;
              ret val
          | _ => out_of_range text;; ret 0%Z
          end;;
  consume;;
  ret (Some (IntegerLiteral val (suffix t) loc)).

Definition float_literal (loc : SourceLocation) : P (option Expr) :=
  t <-- cur;;
  val <-- match stod (without_underscores (getSpelling buf t)) with
          | Some val => ret val
          | None => error "Invalid float literal";; ret (S754_zero false)
          end;;
  consume;;
  ret (Some (FloatLiteral val (suffix t) loc)).

Definition decimal_literal (loc : SourceLocation) : P (option Expr) :=
  t <-- cur;;
  consume;;
  ret (Some (DecimalLiteral (string_of_list_ascii (without_underscores (getSpelling buf t))) loc)).

(** The escape of a character literal, [text] with its quotes. *)
Definition char_escape (text : list ascii) : P ascii :=
  let escape := default NUL (text !! 2%nat) in
  match assoc_char escape [("n", LF); ("t", TAB); ("b", "008"); ("r", CR); ("0", NUL);
                           (BACKSLASH, BACKSLASH); ("'", "'")]%char with
  | Some c => ret c
  | None =>
      if (escape =?c "x"%char) || (escape =?c "u"%char) || (escape =?c "U"%char) then
        let hexLen := if escape =?c "x"%char then 2%nat
                      else if escape =?c "u"%char then 4%nat else 8%nat in
        if (3 + hexLen <=? List.length text)%nat then
          let intVal := char_digits hexLen (drop 3 text) in
          when (255 <? intVal)%Z (error "Character literal too large for 'char' type");;
          ret (char_of intVal)
        else error "Invalid escape sequence length";; ret NUL
      else error "Invalid escape sequence in char literal";; ret escape
  end.

Definition char_literal (loc : SourceLocation) : P (option Expr) :=
  t <-- cur;;
  let text := getSpelling buf t in
  val <-- (if (3 <=? List.length text)%nat then
             if (default NUL (text !! 1%nat) =?c BACKSLASH) && (4 <=? List.length text)%nat
             then char_escape text
             else ret (default NUL (text !! 1%nat))
           else ret NUL);;
  consume;;
  ret (Some (CharLiteral val loc)).

Definition is_quote (c : ascii) : bool := (c =?c DQUOTE) || (c =?c BACKTICK) || (c =?c "'"%char).

Definition parseStringLiteral : P (option Expr) :=
  t <-- cur;;
  let val := getSpelling buf t in
  let val := if (2 <=? List.length val)%nat && is_quote (byte val) then unquote val else val in
  consume;;
  ret (Some (StringLiteral (string_of_list_ascii (unescapeString val)) false (Some (location t)))).

(** A part of a template: the decoded text. *)
Definition template_part (val : list ascii) (t : Token) : Expr :=
  StringLiteral (string_of_list_ascii (unescapeString val)) true (Some (location t)).

Definition template_loop : P (list (option Expr)) :=
  loop fuel (fun parts =>
    t <-- cur;;
    let val := getSpelling buf t in
    if tok_is t TokenKind.StringFragment then
      consume;; ret (inl (parts ++ [Some (template_part val t)])%list)
    else
      start <-- consumeIf TokenKind.InterpolationStart;;
      if start : bool then
        expr <-- parseExpression;;
        let parts := match expr with Some _ => (parts ++ [expr])%list | None => parts end in
        close <-- expect TokenKind.InterpolationEnd;;
        ret (if close : bool then inl parts else inr parts)
      else if tok_is t TokenKind.TemplateString then
        let val := match last val with
                   | Some c => if c =?c BACKTICK then removelast val else val
                   | None => val
                   end in
        consume;; ret (inr (parts ++ [Some (template_part val t)])%list)
      else error "Malformed template string";; ret (inr parts)) [].

Definition parseTemplateString : P (option Expr) :=
  t <-- cur;;
  if tok_is t TokenKind.TemplateString then
    consume;;
    ret (Some (StringLiteral (string_of_list_ascii (simpleTemplate (getSpelling buf t))) true
                 (Some (location t))))
  else
    parts <-- template_loop;;
    ret (Some (TemplateStringExpr parts (Some (location t)))).

(** ** Lists of expressions *)

(** The arguments up to the parenthesis, null ones included. *)
Definition call_arguments : P (list (option Expr)) :=
  close <-- cur_is TokenKind.RParen;;
  if close : bool then ret []
  else comma_separated buf fuel (fun args => arg <-- parseExpression;; ret (args ++ [arg])%list) [].

(** The arguments of [new]: null ones are left out. *)
Definition new_arguments : P (list (option Expr)) :=
  close <-- cur_is TokenKind.RParen;;
  if close : bool then ret []
  else comma_separated buf fuel (fun args =>
         arg <-- parseExpression;;
         ret match arg with Some _ => (args ++ [arg])%list | None => args end) [].

Definition parseArrayLiteral : P (option Expr) :=
  loc <-- loc_here;;
  consume;;
  elements <-- loop fuel (fun elements =>
    stop <-- cur_isAny [TokenKind.RBracket; TokenKind.Eof];;
    if stop : bool then ret (inr elements)
    else
      spread <-- consumeIf TokenKind.DotDotDot;;
      expr <-- parseExpression;;
      let element := if spread : bool then Some (UnaryExpr TokenKind.DotDotDot expr false loc)
                     else expr in
      more <-- consumeIf TokenKind.Comma;;
      ret (if more : bool then inl (elements ++ [element])%list
           else inr (elements ++ [element])%list)) [];;
  expect TokenKind.RBracket;;
  ret (Some (ArrayLiteral elements loc)).

Definition parseMapLiteral : P (option Expr) :=
  loc <-- loc_here;;
  consume;;
  close <-- cur_is TokenKind.RBrace;;
  entries <-- (if close : bool then ret []
               else comma_separated buf fuel (fun entries =>
                      key <-- parseExpression;;
                      expect TokenKind.Colon;;
                      val <-- parseExpression;;
                      ret (entries ++ [(key, val)])%list) []);;
  expect TokenKind.RBrace;;
  ret (Some (MapLiteral entries loc)).

(** ** Blocks and lambda expressions *)

(** [while (!stop) if (auto s = parseStatement()) push; else synchronize();] *)
Definition statements_until (stops : list TokenKind.t) : P (list (option Stmt)) :=
  loop fuel (fun stmts =>
    stop <-- cur_isAny stops;;
    if stop : bool then ret (inr stmts)
    else
      stmt <-- p_statement rec;;
      match stmt with
      | Some _ => ret (inl (stmts ++ [stmt])%list)
      | None => synchronize buf fuel;; ret (inl stmts)
      end) [].

Definition parseBlock : P (option Stmt) :=
  loc <-- loc_here;;
  expect TokenKind.LBrace;;
  stmts <-- statements_until [TokenKind.RBrace; TokenKind.Eof];;
  expect TokenKind.RBrace;;
  ret (Some (BlockStmt stmts loc)).

Definition parseLambdaBody (params : list LambdaParam) (mode : CaptureMode.t) : P (option Expr) :=
  loc <-- loc_here;;
  block <-- cur_is TokenKind.LBrace;;
  if block : bool then
    body <-- parseBlock;;
    ret (Some (LambdaExpr params body false mode false loc))
  else
    expr <-- parseExpression;;
    let body := ReturnStmt expr match expr with Some e => expr_loc e | None => loc end in
    ret (Some (LambdaExpr params (Some body) true mode false loc)).

Definition lambda_keywords : list TokenKind.t :=
  [TokenKind.KwInt; TokenKind.KwFloat; TokenKind.KwBool; TokenKind.KwString; TokenKind.KwVoid;
   TokenKind.KwAny; TokenKind.KwChar; TokenKind.KwDouble; TokenKind.KwHalf;
   TokenKind.KwQuarter; TokenKind.KwShort; TokenKind.KwLong; TokenKind.KwUSize;
   TokenKind.KwISize].

(** Do the parentheses hold the parameters of a lambda expression? *)
Definition isTypedLambda (s : Parser) : bool :=
  let c := curTok s in
  let n := nextTok s in
  if isAny c lambda_keywords then tok_is n TokenKind.Identifier
  else if tok_is c TokenKind.Identifier then
    if isAny n [TokenKind.Identifier; TokenKind.Question] then true
    else if tok_is n TokenKind.Less then
      let '(closed, l) := scan_angle (fun c => (c =?c NUL) || (c =?c ")"%char) || (c =?c LF))
                            (drop (location n) buf) 0 in
      closed && is_letter (byte (drop_while is_blank l))
    else false
  else false.

(** The parameters; they end where there is no type. *)
Definition lambda_params : P (list LambdaParam) :=
  loop fuel (fun params =>
    t <-- parseType;;
    match t with
    | None => ret (inr params)
    | Some _ =>
        c <-- cur;;
        n <-- (if tok_is c TokenKind.Identifier then consume;; ret (spelling_of buf c)
               else error "Expected parameter name";; ret "");;
        has_default <-- consumeIf TokenKind.Equal;;
        defVal <-- (if has_default : bool then parseExpression else ret None);;
        let params := (params ++ [mkLambdaParam t n defVal])%list in
        more <-- consumeIf TokenKind.Comma;;
        ret (if more : bool then inl params else inr params)
    end) [].

(** The case of a parenthesis. *)
Definition parenthesized (loc : SourceLocation) (capture : option CaptureMode.t) : P (option Expr) :=
  let mode := default CaptureMode.Snapshot capture in
  consume;;
  close <-- consumeIf TokenKind.RParen;;
  if close : bool then
    arrow <-- consumeIf TokenKind.FatArrow;;
    if arrow : bool then parseLambdaBody [] mode
    else error "Expected expression after empty parentheses";; ret None
  else
    s <-- get;;
    if isTypedLambda s then
      params <-- lambda_params;;
      expect TokenKind.RParen;;
      arrow <-- consumeIf TokenKind.FatArrow;;
      if arrow : bool then parseLambdaBody params mode
      else error "Expected '=>' after typed lambda parameters";; ret None
    else
      expr <-- parseExpression;;
      untyped <-- cur_isAny [TokenKind.FatArrow; TokenKind.Comma];;
      if untyped : bool then
        error ("Invalid lambda syntax. Moksha requires typed parameters (e.g., " ++
               "'(int x) => { ... }')");;
        loop fuel (fun _ =>
          stop <-- cur_isAny [TokenKind.RParen; TokenKind.Eof];;
          if stop : bool then ret (inr tt) else consume;; ret (inl tt)) tt;;
        consumeIf TokenKind.RParen;;
        ret None
      else
        expect TokenKind.RParen;;
        match capture with
        | Some _ =>
            report_at loc DiagID.err_expected_token
              ["closure capture modifier can only be applied to lambda expressions"];;
            ret None
        | None => ret expr
        end.

(** ** [new], [input] and [asm] *)

Definition parseNewExpr : P (option Expr) :=
  loc <-- loc_here;;
  consume;;
  isWeak <-- consumeIf TokenKind.KwWeak;;
  thread <-- consumeIf TokenKind.KwThread;;
  if thread : bool then
    open <-- expect TokenKind.LParen;;
    if open : bool then
      task <-? parseExpression;;
      match task with
      | LambdaExpr _ _ _ _ _ _ =>
          close <-- expect TokenKind.RParen;;
          ret (if close : bool then Some (ThreadExpr isWeak (Some task) loc) else None)
      | _ => error "Thread instantiation requires a closure/lambda expression.";; ret None
      end
    else ret None
  else
    type <-? parseType;;
    let type := if isWeak : bool then WeakType (Some type) loc else type in
    expect TokenKind.LParen;;
    args <-- new_arguments;;
    expect TokenKind.RParen;;
    ret (Some (NewExpr (Some type) args loc)).

Definition parseInputExpr : P (option Expr) :=
  loc <-- loc_here;;
  consume;;
  expect TokenKind.LParen;;
  prompt <-- parseExpression;;
  when (bool_decide (prompt = None)) (error "input() requires a mandatory prompt string argument");;
  expect TokenKind.RParen;;
  ret (Some (InputExpr prompt loc)).

(** A string literal without its quotes. *)
Definition raw_string (message : string) : P string :=
  t <-- cur;;
  if tok_is t TokenKind.StringLiteral then
    consume;; ret (string_of_list_ascii (unquote (getSpelling buf t)))
  else error message;; ret "".

(** What follows the text of [asm]. *)
Record AsmParts := {
  ap_outputs : list AsmOperand;
  ap_inputs : list AsmOperand;
  ap_inouts : list AsmOperand;
  ap_clobbers : list string;
  ap_volatile : bool;
}.

Definition add_operand (k : TokenKind.t) (o : AsmOperand) (a : AsmParts) : AsmParts :=
  match k with
  | TokenKind.KwOut => {| ap_outputs := (ap_outputs a ++ [o])%list; ap_inputs := ap_inputs a;
      ap_inouts := ap_inouts a; ap_clobbers := ap_clobbers a; ap_volatile := ap_volatile a |}
  | TokenKind.KwIn => {| ap_outputs := ap_outputs a; ap_inputs := (ap_inputs a ++ [o])%list;
      ap_inouts := ap_inouts a; ap_clobbers := ap_clobbers a; ap_volatile := ap_volatile a |}
  | TokenKind.KwInout => {| ap_outputs := ap_outputs a; ap_inputs := ap_inputs a;
      ap_inouts := (ap_inouts a ++ [o])%list; ap_clobbers := ap_clobbers a;
      ap_volatile := ap_volatile a |}
  | _ => a
  end.

Definition asm_clobbers (a : AsmParts) : P AsmParts :=
  expect TokenKind.LParen;;
  close <-- cur_is TokenKind.RParen;;
  clobbers <-- (if close : bool then ret []
    else comma_separated buf fuel (fun cs =>
           t <-- cur;;
           if tok_is t TokenKind.StringLiteral then
             consume;; ret (cs ++ [string_of_list_ascii (unquote (getSpelling buf t))])%list
           else error "Expected string literal for clobber register";; ret cs) []);;
  expect TokenKind.RParen;;
  ret {| ap_outputs := ap_outputs a; ap_inputs := ap_inputs a; ap_inouts := ap_inouts a;
         ap_clobbers := (ap_clobbers a ++ clobbers)%list; ap_volatile := ap_volatile a |}.

Definition asm_operands (k : TokenKind.t) (a : AsmParts) : P AsmParts :=
  expect TokenKind.LParen;;
  close <-- cur_is TokenKind.RParen;;
  a <-- (if close : bool then ret a
    else comma_separated buf fuel (fun a =>
           constraint <-- raw_string "Expected string literal for asm constraint";;
           expect TokenKind.LParen;;
           expr <-- parseExpression;;
           expect TokenKind.RParen;;
           ret (add_operand k (mkAsmOperand constraint expr) a)) a);;
  expect TokenKind.RParen;;
  ret a.

Definition asm_directives : P AsmParts :=
  loop fuel (fun a =>
    t <-- cur;;
    match kind t with
    | TokenKind.KwVolatile =>
        consume;;
        ret (inl {| ap_outputs := ap_outputs a; ap_inputs := ap_inputs a;
                    ap_inouts := ap_inouts a; ap_clobbers := ap_clobbers a;
                    ap_volatile := true |})
    | TokenKind.KwClobber => consume;; a <-- asm_clobbers a;; ret (inl a)
    | TokenKind.KwOut | TokenKind.KwIn | TokenKind.KwInout =>
        consume;; a <-- asm_operands (kind t) a;; ret (inl a)
    | _ => ret (inr a)
    end)
    {| ap_outputs := []; ap_inputs := []; ap_inouts := []; ap_clobbers := [];
       ap_volatile := false |}.

Definition parseAsmExpr : P (option Expr) :=
  loc <-- loc_here;;
  consume;;
  typed <-- consumeIf TokenKind.Less;;
  type <-- (if typed : bool then t <-- parseType;; expectGreater;; ret t else ret None);;
  expect TokenKind.LParen;;
  asmStr <-- raw_string "Expected string literal for asm block";;
  expect TokenKind.RParen;;
  a <-- asm_directives;;
  ret (Some (AsmExpr asmStr (ap_outputs a) (ap_inputs a) (ap_inouts a) (ap_clobbers a)
               (ap_volatile a) type loc)).

(** ** Primary expressions *)

(** The capture modifier of a closure: [move], [&] and [&mut]. *)
Definition capture_modifier : P (option CaptureMode.t) :=
  t <-- cur;;
  if tok_is t TokenKind.KwMove
     || (tok_is t TokenKind.Identifier && String.eqb (spelling_of buf t) "move") then
    advance buf;; ret (Some CaptureMode.Move)
  else if tok_is t TokenKind.Amp then
    advance buf;;
    mut <-- consumeIf TokenKind.KwMut;;
    ret (Some (if mut : bool then CaptureMode.Mut else CaptureMode.View))
  else ret None.

Definition set_async (e : Expr) : option Expr :=
  match e with
  | LambdaExpr ps body eb mode _ loc => Some (LambdaExpr ps body eb mode true loc)
  | _ => None
  end.

Definition async_lambda : P (option Expr) :=
  consume;;
  open <-- cur_is TokenKind.LParen;;
  expr <-- (if open : bool then p_primary rec else ret None);;
  match expr with
  | Some e =>
      match set_async e with
      | Some e => ret (Some e)
      | None => error "Expected lambda expression after 'async'";; ret expr
      end
  | None => error "Expected '(' for async lambda expression";; ret None
  end.

(** [cast<T>(e)] and [bitcast<T>(e)]. *)
Definition cast_expression (make : option Ty -> option Expr -> Expr) : P (option Expr) :=
  consume;;
  open <-- expect TokenKind.Less;;
  if open : bool then
    type <-? parseType;;
    expectGreater;;
    open <-- expect TokenKind.LParen;;
    if open : bool then
      expr <-? parseExpression;;
      expect TokenKind.RParen;;
      ret (Some (make (Some type) (Some expr)))
    else ret None
  else ret None.

Definition name_keywords : list TokenKind.t :=
  [TokenKind.Identifier; TokenKind.KwInt; TokenKind.KwFloat; TokenKind.KwDouble;
   TokenKind.KwBool; TokenKind.KwString; TokenKind.KwChar; TokenKind.KwShort;
   TokenKind.KwLong; TokenKind.KwISize; TokenKind.KwUSize; TokenKind.KwHalf;
   TokenKind.KwQuarter; TokenKind.KwAny; TokenKind.KwPromise].

(** A token that is an expression. *)
Definition single (e : Expr) : P (option Expr) := consume;; ret (Some e).

Definition primary_switch (loc : SourceLocation) (capture : option CaptureMode.t) : P (option Expr) :=
  t <-- cur;;
  if isAny t name_keywords then single (IdentifierExpr (spelling_of buf t) loc)
  else
  match kind t with
  | TokenKind.KwAsync => async_lambda
  | TokenKind.KwInput => parseInputExpr
  | TokenKind.KwNew => parseNewExpr
  | TokenKind.KwCast => cast_expression (fun type expr => CastExpr type expr loc)
  | TokenKind.KwBitcast => cast_expression (fun type expr => BitcastExpr type expr loc)
  | TokenKind.IntegerLiteral => integer_literal loc
  | TokenKind.FloatLiteral => float_literal loc
  | TokenKind.DecimalLiteral => decimal_literal (Some (location t))
  | TokenKind.CharLiteral => char_literal loc
  | TokenKind.KwNull => single (NullLiteral loc)
  | TokenKind.KwTrue => single (BoolLiteral true loc)
  | TokenKind.KwFalse => single (BoolLiteral false loc)
  | TokenKind.LParen => parenthesized loc capture
  | TokenKind.StringLiteral => parseStringLiteral
  | TokenKind.LBracket => parseArrayLiteral
  | TokenKind.LBrace => parseMapLiteral
  | TokenKind.TemplateString | TokenKind.StringFragment | TokenKind.InterpolationStart =>
      parseTemplateString
  | TokenKind.KwThis => single (ThisExpr loc)
  | TokenKind.KwSuper => single (SuperExpr loc)
  | TokenKind.KwAsm => parseAsmExpr
  | TokenKind.Error => consume;; ret None
  | TokenKind.KwSizeof =>
      consume;;
      expect TokenKind.LParen;;
      expr <-- parseExpression;;
      expect TokenKind.RParen;;
      ret (Some (SizeOfExpr expr loc))
  | _ => error "Expected expression";; ret None
  end.

Definition parsePrimary : P (option Expr) :=
  loc <-- loc_here;;
  capture <-- capture_modifier;;
  open <-- cur_is TokenKind.LParen;;
  match capture, (open : bool) with
  | Some _, false =>
      here <-- loc_here;;
      report_at here DiagID.err_expected_token
        ["'(' for lambda parameter list after capture modifier"];;
      ret None
  | _, _ => primary_switch loc capture
  end.

(** ** Operators *)

Definition postfix_step (lhs : Expr) : P (Expr + option Expr) :=
  t <-- cur;;
  n <-- peek;;
  let loc := expr_loc lhs in
  match kind t with
  | TokenKind.LParen =>
      newline <-- newline_here buf;;
      if newline : bool then ret (inr (Some lhs))
      else
        consume;;
        args <-- call_arguments;;
        expect TokenKind.RParen;;
        ret (inl (CallExpr (Some lhs) args loc))
  | TokenKind.Dot | TokenKind.QuestionDot =>
      consume;;
      name <-- spelling_here buf;;
      expect TokenKind.Identifier;;
      ret (inl (MemberExpr (Some lhs) name (tok_is t TokenKind.QuestionDot) loc))
  | TokenKind.PlusPlus | TokenKind.MinusMinus =>
      consume;; ret (inl (UnaryExpr (kind t) (Some lhs) true loc))
  | TokenKind.LBracket | TokenKind.Question =>
      let isOptional := tok_is t TokenKind.Question in
      if isOptional && negb (tok_is n TokenKind.LBracket) then ret (inr (Some lhs))
      else
        when isOptional consume;;
        newline <-- newline_here buf;;
        if newline : bool then ret (inr (Some lhs))
        else
          consume;;
          index <-- parseExpression;;
          expect TokenKind.RBracket;;
          ret (inl (IndexExpr (Some lhs) index isOptional loc))
  | _ => ret (inr (Some lhs))
  end.

Definition parsePostfix : P (option Expr) :=
  lhs <-? parsePrimary;;
  loop fuel postfix_step lhs.

Definition prefix_operators : list TokenKind.t :=
  [TokenKind.Bang; TokenKind.Minus; TokenKind.Tilde; TokenKind.PlusPlus; TokenKind.MinusMinus;
   TokenKind.DotDotDot; TokenKind.Amp; TokenKind.Star; TokenKind.KwShared].

Definition parsePrefix : P (option Expr) :=
  t <-- cur;;
  n <-- peek;;
  let loc := Some (location t) in
  if tok_is t TokenKind.KwAwait then
    consume;;
    operand <-- p_prefix rec;;
    ret (Some (AwaitExpr operand loc))
  else if tok_is t TokenKind.Amp
          && (isAny n [TokenKind.LParen; TokenKind.KwMut]
              || (tok_is n TokenKind.Identifier && String.eqb (spelling_of buf n) "mut"))
  then parsePostfix
  else if tok_is t TokenKind.Power then
    consume;;
    operand <-? p_prefix rec;;
    ret (Some (UnaryExpr TokenKind.Star (Some (UnaryExpr TokenKind.Star (Some operand) false loc))
                 false loc))
  else if isAny t prefix_operators then
    consume;;
    operand <-? p_prefix rec;;
    ret (Some (UnaryExpr (kind t) (Some operand) false loc))
  else parsePostfix.

(** Right-associative. *)
Definition parsePower : P (option Expr) :=
  lhs <-- parsePrefix;;
  t <-- cur;;
  if tok_is t TokenKind.Power then
    declaration <-- at_declaration buf;;
    if declaration : bool then ret lhs
    else
      match lhs with
      | None => ret None
      | Some _ =>
          consume;;
          rhs <-? p_power rec;;
          ret (Some (BinaryExpr lhs TokenKind.Power (Some rhs) (Some (location t))))
      end
  else ret lhs.

(** The productions of left-associative operators: [guard] is whether the operator here is
    not one of this expression. *)
Definition binary_level (ops : list TokenKind.t) (guard : P bool) (operand : P (option Expr)) :
    P (option Expr) :=
  lhs <-- operand;;
  loop fuel (fun lhs =>
    t <-- cur;;
    if isAny t ops then
      stop <-- guard;;
      if stop : bool then ret (inr lhs)
      else
        match lhs with
        | None => ret (inr None)
        | Some _ =>
            consume;;
            rhs <-- operand;;
            match rhs with
            | None => ret (inr None)
            | Some _ => ret (inl (Some (BinaryExpr lhs (kind t) rhs (Some (location t)))))
            end
        end
    else ret (inr lhs)) lhs.

Definition no_guard : P bool := ret false.

(** A star that starts a declaration, or stands on a new line, is no multiplication. *)
Definition star_guard : P bool :=
  star <-- cur_is TokenKind.Star;;
  if star : bool then
    declaration <-- at_declaration buf;;
    if declaration : bool then ret true else newline_here buf
  else ret false.

Definition parseMultiplicative : P (option Expr) :=
  binary_level [TokenKind.Star; TokenKind.Slash; TokenKind.Percent] star_guard parsePower.

Definition parseAdditive : P (option Expr) :=
  binary_level [TokenKind.Plus; TokenKind.Minus] (newline_here buf) parseMultiplicative.

Definition parseShift : P (option Expr) :=
  binary_level [TokenKind.LessLess; TokenKind.GreaterGreater] no_guard parseAdditive.

Definition parseNullCoalescing : P (option Expr) :=
  binary_level [TokenKind.QuestionQuestion] no_guard parseShift.

(** [x |> f(y)] is [f(x, y)]: the argument goes to the call under members and indices. *)
Fixpoint insert_first (arg : option Expr) (e : Expr) : option Expr :=
  match e with
  | MemberExpr (Some o) name opt loc =>
      o ← insert_first arg o; Some (MemberExpr (Some o) name opt loc)
  | IndexExpr (Some a) i opt loc =>
      a ← insert_first arg a; Some (IndexExpr (Some a) i opt loc)
  | CallExpr f args loc => Some (CallExpr f (arg :: args) loc)
  | _ => None
  end.

Definition pipe_into (lhs : option Expr) (rhs : Expr) (opLoc : SourceLocation) : option Expr :=
  match insert_first lhs rhs, rhs with
  | Some e, _ => Some e
  | None, IdentifierExpr _ _ => Some (CallExpr (Some rhs) [lhs] opLoc)
  | None, _ => None
  end.

Definition parsePipe : P (option Expr) :=
  lhs <-? parseNullCoalescing;;
  loop fuel (fun lhs =>
    t <-- cur;;
    if tok_is t TokenKind.PipeGreater then
      consume;;
      rhs <-- parsePostfix;;
      match rhs with
      | None => ret (inr None)
      | Some rhs =>
          match pipe_into (Some lhs) rhs (Some (location t)) with
          | Some e => ret (inl e)
          | None =>
              error ("Right side of '|>' must be a function call, identifier, or member " ++
                     "access");;
              ret (inr None)
          end
      end
    else ret (inr (Some lhs))) lhs.

Definition parseRelational : P (option Expr) :=
  binary_level [TokenKind.Less; TokenKind.LessEqual; TokenKind.Greater; TokenKind.GreaterEqual]
    no_guard parsePipe.

Definition parseEquality : P (option Expr) :=
  binary_level [TokenKind.EqualEqual; TokenKind.NotEqual] no_guard parseRelational.

Definition parseBitwiseAnd : P (option Expr) :=
  binary_level [TokenKind.Amp] (newline_here buf) parseEquality.

Definition parseBitwiseXor : P (option Expr) :=
  binary_level [TokenKind.Caret] no_guard parseBitwiseAnd.

Definition parseBitwiseOr : P (option Expr) :=
  binary_level [TokenKind.Pipe] no_guard parseBitwiseXor.

Definition parseLogicalAnd : P (option Expr) :=
  binary_level [TokenKind.AmpAmp] no_guard parseBitwiseOr.

Definition parseLogicalOr : P (option Expr) :=
  binary_level [TokenKind.PipePipe] no_guard parseLogicalAnd.

Definition parseTernary : P (option Expr) :=
  cond <-? parseLogicalOr;;
  question <-- consumeIf TokenKind.Question;;
  if question : bool then
    trueBranch <-? p_ternary rec;;
    colon <-- expect TokenKind.Colon;;
    if colon : bool then
      falseBranch <-? p_ternary rec;;
      ret (Some (TernaryExpr (Some cond) (Some trueBranch) (Some falseBranch) (expr_loc cond)))
    else ret None
  else ret (Some cond).

Definition assignment_operators : list TokenKind.t :=
  [TokenKind.Equal; TokenKind.PlusEqual; TokenKind.MinusEqual; TokenKind.StarEqual;
   TokenKind.SlashEqual; TokenKind.PercentEqual; TokenKind.AmpEqual; TokenKind.PipeEqual;
   TokenKind.CaretEqual; TokenKind.LessLessEqual; TokenKind.GreaterGreaterEqual].

(** [parseExpression] is [parseAssignment]. *)
Definition parseAssignment : P (option Expr) :=
  lhs <-? parseTernary;;
  t <-- cur;;
  if isAny t assignment_operators then
    consume;;
    rhs <-? parseExpression;;
    ret (Some (BinaryExpr (Some lhs) (kind t) (Some rhs) (Some (location t))))
  else ret (Some lhs).

End Expressions.
