(* ===== verification/ParserDecl.v ===== *)
(** * The parser: declarations

    The productions of [lib/frontend/parser/Parser.cpp] from [parseImportSymbolList] to
    [parseMacroDecl].  The loops over modifiers of the source set one local variable for each
    keyword; here the keywords are collected. *)

From S2P Require Import Prelude Diag Tokens Lexer AST ASTClone ParserCore ParserExpr.

#[local] Open Scope string_scope.
#[local] Open Scope parser_scope.

(** ** Modifiers *)

Record Modifiers := {
  m_vis : Visibility.t;
  m_seen : list TokenKind.t;
  m_alignment : Z;
  m_section : string;
  m_linkage : string;
}.

Definition no_modifiers : Modifiers :=
  {| m_vis := Visibility.Default; m_seen := []; m_alignment := 0; m_section := "";
     m_linkage := "" |}.

Definition has (k : TokenKind.t) (m : Modifiers) : bool := existsb (enum_eqb k) (m_seen m).

Definition set_vis (v : Visibility.t) (m : Modifiers) : Modifiers :=
  {| m_vis := v; m_seen := m_seen m; m_alignment := m_alignment m; m_section := m_section m;
     m_linkage := m_linkage m |}.
Definition see (k : TokenKind.t) (m : Modifiers) : Modifiers :=
  {| m_vis := m_vis m; m_seen := k :: m_seen m; m_alignment := m_alignment m;
     m_section := m_section m; m_linkage := m_linkage m |}.
Definition set_alignment (z : Z) (m : Modifiers) : Modifiers :=
  {| m_vis := m_vis m; m_seen := m_seen m; m_alignment := z; m_section := m_section m;
     m_linkage := m_linkage m |}.
Definition set_section (x : string) (m : Modifiers) : Modifiers :=
  {| m_vis := m_vis m; m_seen := m_seen m; m_alignment := m_alignment m; m_section := x;
     m_linkage := m_linkage m |}.
Definition set_linkage (x : string) (m : Modifiers) : Modifiers :=
  {| m_vis := m_vis m; m_seen := m_seen m; m_alignment := m_alignment m;
     m_section := m_section m; m_linkage := x |}.

Definition visibility_words : list TokenKind.t :=
  [TokenKind.KwPublic; TokenKind.KwPrivate; TokenKind.KwProtected].

(** The modifiers of a top-level declaration, of a variable, of a member of a generic class
    and of a member of a class. *)
Definition declaration_modifiers : list TokenKind.t :=
  (visibility_words ++
   [TokenKind.KwStatic; TokenKind.KwAsync; TokenKind.KwShared; TokenKind.KwWeak;
    TokenKind.KwExtern; TokenKind.KwInterrupt; TokenKind.KwNaked; TokenKind.KwNoreturn;
    TokenKind.KwNoinline; TokenKind.KwInline; TokenKind.KwPure; TokenKind.KwCold;
    TokenKind.KwPacked; TokenKind.KwAlign; TokenKind.KwSection; TokenKind.KwUsed;
    TokenKind.KwThreadLocal])%list.
Definition variable_modifiers : list TokenKind.t :=
  (visibility_words ++
   [TokenKind.KwStatic; TokenKind.KwShared; TokenKind.KwExtern; TokenKind.KwUsed;
    TokenKind.KwThreadLocal; TokenKind.KwAlign; TokenKind.KwSection])%list.
Definition generic_modifiers : list TokenKind.t :=
  (visibility_words ++
   [TokenKind.KwStatic; TokenKind.KwAsync; TokenKind.KwShared; TokenKind.KwWeak])%list.
Definition member_modifiers : list TokenKind.t :=
  (visibility_words ++
   [TokenKind.KwStatic; TokenKind.KwAsync; TokenKind.KwShared; TokenKind.KwWeak;
    TokenKind.KwThreadLocal; TokenKind.KwAlign; TokenKind.KwSection; TokenKind.KwVirtual;
    TokenKind.KwOverride; TokenKind.KwUsed; TokenKind.KwNoinline; TokenKind.KwInline;
    TokenKind.KwPure; TokenKind.KwCold])%list.

(** ** What a declaration takes from its modifiers *)

(** The setters that follow [parseVariableRest]. *)
Definition set_storage (isVolatile weak used : bool) (m : Modifiers) (d : Decl) : Decl :=
  match d with
  | VariableDecl base type init a =>
      VariableDecl base type init
        {| v_isConst := v_isConst a; v_isStatic := v_isStatic a; v_isShared := v_isShared a;
           v_isVolatile := isVolatile; v_isExtern := has TokenKind.KwExtern m;
           v_alignment := m_alignment m; v_section := m_section m; v_isUsed := used;
           v_bitfieldFlag := v_bitfieldFlag a; v_bitWidth := v_bitWidth a;
           v_isThreadLocal := has TokenKind.KwThreadLocal m; v_isWeakLinkage := weak;
           v_bitOffset := v_bitOffset a; v_physicalIndex := v_physicalIndex a |}
  | _ => d
  end.

(** The setters that follow [parseFunctionRest]; a modifier that is not one of the
    declaration is not seen, and leaves the member as the constructor made it. *)
Definition set_function (m : Modifiers) (d : Decl) : Decl :=
  match d with
  | FunctionDecl base params result body a =>
      FunctionDecl base params result body
        {| f_isAsync := f_isAsync a; f_isStatic := f_isStatic a;
           f_isVariadic := f_isVariadic a; f_isWeak := f_isWeak a;
           f_isBuiltin := f_isBuiltin a; f_intrinsicKind := f_intrinsicKind a;
           f_isExtern := has TokenKind.KwExtern m; f_externLinkage := m_linkage m;
           f_isInterrupt := has TokenKind.KwInterrupt m; f_isNaked := has TokenKind.KwNaked m;
           f_isNoReturn := has TokenKind.KwNoreturn m;
           f_isNoInline := has TokenKind.KwNoinline m; f_isInline := has TokenKind.KwInline m;
           f_isPure := has TokenKind.KwPure m; f_isCold := has TokenKind.KwCold m;
           f_isUsed := has TokenKind.KwUsed m; f_section := m_section m;
           f_abi := if String.eqb (m_linkage m) "" then f_abi a else m_linkage m;
           f_isVirtual := has TokenKind.KwVirtual m;
           f_isOverride := has TokenKind.KwOverride m; f_vtableIndex := f_vtableIndex a;
           f_isView := f_isView a; f_isUnsafe := f_isUnsafe a |}
  | _ => d
  end.

Definition set_class (m : Modifiers) (d : Decl) : Decl :=
  match d with
  | ClassDecl base parents members a =>
      ClassDecl base parents members
        {| c_isRef := c_isRef a; c_aggKind := c_aggKind a;
           c_isPacked := has TokenKind.KwPacked m; c_alignment := m_alignment m;
           c_section := m_section m; c_hasVTable := c_hasVTable a |}
  | _ => d
  end.

Definition set_view (isView : bool) (a : FunctionAttrs) : FunctionAttrs :=
  {| f_isAsync := f_isAsync a; f_isStatic := f_isStatic a; f_isVariadic := f_isVariadic a;
     f_isWeak := f_isWeak a; f_isBuiltin := f_isBuiltin a;
     f_intrinsicKind := f_intrinsicKind a; f_isExtern := f_isExtern a;
     f_externLinkage := f_externLinkage a; f_isInterrupt := f_isInterrupt a;
     f_isNaked := f_isNaked a; f_isNoReturn := f_isNoReturn a; f_isNoInline := f_isNoInline a;
     f_isInline := f_isInline a; f_isPure := f_isPure a; f_isCold := f_isCold a;
     f_isUsed := f_isUsed a; f_section := f_section a; f_abi := f_abi a;
     f_isVirtual := f_isVirtual a; f_isOverride := f_isOverride a;
     f_vtableIndex := f_vtableIndex a; f_isView := isView; f_isUnsafe := f_isUnsafe a |}.

(** [setBitfield(width)] unless the width is -1. *)
Definition set_bits (width : Z) (a : VariableAttrs) : VariableAttrs :=
  if Z.eqb width (-1) then a
  else
    {| v_isConst := v_isConst a; v_isStatic := v_isStatic a; v_isShared := v_isShared a;
       v_isVolatile := v_isVolatile a; v_isExtern := v_isExtern a;
       v_alignment := v_alignment a; v_section := v_section a; v_isUsed := v_isUsed a;
       v_bitfieldFlag := true; v_bitWidth := width; v_isThreadLocal := v_isThreadLocal a;
       v_isWeakLinkage := v_isWeakLinkage a; v_bitOffset := v_bitOffset a;
       v_physicalIndex := v_physicalIndex a |}.

(** ** Imports *)

Definition strip_quotes (l : list ascii) : list ascii :=
  if (2 <=? List.length l)%nat && is_quote (byte l) then unquote l else l.

Section Declarations.
Context `{Platform} (buf : buffer) (fuel : nat) (rec : Productions).

#[local] Abbreviation consume := (consume buf).
#[local] Abbreviation consumeIf := (consumeIf buf).
#[local] Abbreviation expect := (expect buf).
#[local] Abbreviation expectGreater := (expectGreater buf).
#[local] Abbreviation parseType := (p_type rec).
#[local] Abbreviation parseExpression := (p_expression rec).

(** [if (cur is k) { take its text } else error(message);] *)
Definition word_or (message : string) : P (option string) :=
  t <-- cur;;
  if tok_is t TokenKind.Identifier then consume;; ret (Some (spelling_of buf t))
  else error message;; ret None.

(** [name = spelling; expect(Identifier);] *)
Definition declared_name : P string :=
  name <-- spelling_here buf;;
  expect TokenKind.Identifier;;
  ret name.

Definition parseImportSymbolList : P (list (string * string)) :=
  symbols <-- loop fuel (fun symbols =>
    stop <-- cur_isAny [TokenKind.RBrace; TokenKind.Eof];;
    if stop : bool then ret (inr symbols)
    else
      t <-- cur;;
      symbols <--
        (if isAny t [TokenKind.Identifier; TokenKind.KwTable] then
           let originalName := spelling_of buf t in
           consume;;
           aliased <-- consumeIf TokenKind.KwAs;;
           aliasName <-- (if aliased : bool then
                            w <-- word_or "Expected identifier after 'as'";;
                            ret (default originalName w)
                          else ret originalName);;
           ret (symbols ++ [(originalName, aliasName)])%list
         else error "Expected identifier or type in import list";; consume;; ret symbols);;
      close <-- cur_is TokenKind.RBrace;;
      if close : bool then ret (inl symbols)
      else
        comma <-- consumeIf TokenKind.Comma;;
        if comma : bool then ret (inl symbols)
        else error "Expected ',' between imported symbols";; consume;; ret (inl symbols)) [];;
  expect TokenKind.RBrace;;
  ret symbols.

(** The name of a module, or the message. *)
Definition module_name (message : string) : P string :=
  t <-- cur;;
  if isAny t [TokenKind.StringLiteral; TokenKind.Identifier] then
    consume;; ret (string_of_list_ascii (strip_quotes (getSpelling buf t)))
  else error message;; ret "".

Definition import_from : P (string * string * list (string * string)) :=
  name <-- module_name "Expected string literal or identifier after 'from'";;
  expect TokenKind.KwImport;;
  expect TokenKind.LBrace;;
  symbols <-- parseImportSymbolList;;
  ret (name, "", symbols).

Definition import_plain : P (string * string * list (string * string)) :=
  t <-- cur;;
  if tok_is t TokenKind.LBrace then
    consume;;
    symbols <-- parseImportSymbolList;;
    expect TokenKind.KwFrom;;
    name <-- module_name "Expected string literal or identifier after 'from'";;
    ret (name, "", symbols)
  else if isAny t [TokenKind.StringLiteral; TokenKind.Identifier] then
    consume;;
    aliased <-- consumeIf TokenKind.KwAs;;
    alias <-- (if aliased : bool then
                 w <-- word_or "Expected identifier after 'as'";; ret (default "" w)
               else ret "");;
    ret (string_of_list_ascii (strip_quotes (getSpelling buf t)), alias, [])
  else
    error "Expected '{', identifier, or string literal after 'import'";;
    ret ("", "", []).

Definition parseImportDecl : P (option Decl) :=
  loc <-- loc_here;;
  from <-- consumeIf TokenKind.KwFrom;;
  parts <-- (if from : bool then import_from
             else
               plain <-- consumeIf TokenKind.KwImport;;
               if plain : bool then import_plain else ret ("", "", []));;
  let '(name, alias, symbols) := parts in
  consumeIf TokenKind.Semicolon;;
  ret (Some (ImportDecl (mkDecl name Visibility.Default loc) alias symbols)).

(** ** The modifiers before a declaration *)

Definition modifier_align (m : Modifiers) : P Modifiers :=
  expect TokenKind.LParen;;
  t <-- cur;;
  m <-- (if tok_is t TokenKind.IntegerLiteral then
           n <-- caught (stoull 10 (getSpelling buf t)) "Alignment value is too large" 0;;
           consume;;
           ret (set_alignment (int_of n) m)
         else error "Expected integer alignment";; ret m);;
  expect TokenKind.RParen;;
  ret m.

Definition modifier_section (m : Modifiers) : P Modifiers :=
  expect TokenKind.LParen;;
  t <-- cur;;
  m <-- (if tok_is t TokenKind.StringLiteral then
           consume;; ret (set_section (string_of_list_ascii (unquote (getSpelling buf t))) m)
         else error "Expected section name";; ret m);;
  expect TokenKind.RParen;;
  ret m.

Definition modifier_extern (m : Modifiers) : P Modifiers :=
  t <-- cur;;
  let m := see TokenKind.KwExtern m in
  if tok_is t TokenKind.StringLiteral then
    consume;; ret (set_linkage (string_of_list_ascii (unquote (getSpelling buf t))) m)
  else ret m.

Definition modifiers (allowed : list TokenKind.t) : P Modifiers :=
  loop fuel (fun m =>
    t <-- cur;;
    if isAny t allowed then
      consume;;
      m <-- match kind t with
            | TokenKind.KwPublic => ret (set_vis Visibility.Public m)
            | TokenKind.KwPrivate => ret (set_vis Visibility.Private m)
            | TokenKind.KwProtected => ret (set_vis Visibility.Protected m)
            | TokenKind.KwExtern => modifier_extern m
            | TokenKind.KwAlign => modifier_align m
            | TokenKind.KwSection => modifier_section m
            | k => ret (see k m)
            end;;
      ret (inl m)
    else ret (inr m)) no_modifiers.

(** ** Functions and variables *)

Definition function_params : P (list Param * bool) :=
  close <-- cur_is TokenKind.RParen;;
  if close : bool then ret ([], false)
  else
    loop fuel (fun params =>
      variadic <-- consumeIf TokenKind.DotDotDot;;
      if variadic : bool then ret (inr (params, true))
      else
        paramType <-- parseType;;
        t <-- cur;;
        paramName <-- (if tok_is t TokenKind.Identifier then consume;; ret (spelling_of buf t)
                       else ret "");;
        assigned <-- consumeIf TokenKind.Equal;;
        defaultVal <-- (if assigned : bool then parseExpression else ret None);;
        let params :=
          (params ++ [mkParam paramName paramType (Some (location t)) defaultVal])%list in
        more <-- consumeIf TokenKind.Comma;;
        ret (if more : bool then inl params else inr (params, false))) [].

Definition method_qualifiers : P bool :=
  loop fuel (fun isView =>
    t <-- cur;;
    if isAny t [TokenKind.KwView; TokenKind.KwMut] then
      consume;; ret (inl (isView || tok_is t TokenKind.KwView))
    else ret (inr isView)) false.

Definition parseFunctionRest (returnType : Ty) (name : string) (isAsync isStatic isWeak : bool)
    (vis : Visibility.t) : P Decl :=
  let loc := type_loc returnType in
  expect TokenKind.LParen;;
  ps <-- function_params;;
  let '(params, isVariadic) := ps in
  expect TokenKind.RParen;;
  isView <-- method_qualifiers;;
  bodiless <-- consumeIf TokenKind.Semicolon;;
  body <-- (if bodiless : bool then ret None else parseBlock buf fuel rec);;
  ret (FunctionDecl (mkDecl name vis loc) params (Some returnType) body
         (set_view isView (newFunctionAttrs isAsync isStatic isVariadic isWeak))).

Definition bitfield_width : P Z :=
  t <-- cur;;
  if tok_is t TokenKind.IntegerLiteral then
    n <-- caught (stoi (getSpelling buf t)) "Bitfield width is too large" (-1);;
    consume;; ret n
  else error "Expected integer literal for bitfield width";; ret (-1)%Z.

Definition parseVariableRest (type : Ty) (name : string) (isConst isStatic isShared : bool)
    (vis : Visibility.t) : P (option Decl) :=
  let loc := type_loc type in
  let finish (init : option Expr) (width : Z) :=
    let init := match init with
                | None => if is_nullable type then Some (NullLiteral loc) else None
                | Some _ => init
                end in
    ret (Some (VariableDecl (mkDecl name vis loc) (Some type) init
                 (set_bits width (newVariableAttrs isConst isStatic isShared)))) in
  colon <-- consumeIf TokenKind.Colon;;
  if colon : bool then width <-- bitfield_width;; finish None width
  else
    assigned <-- consumeIf TokenKind.Equal;;
    if assigned : bool then
      init <-? parseExpression;;
      finish (Some init) (-1)%Z
    else finish None (-1)%Z.

(** The end of a list of variables. *)
Definition declaration_end : P unit :=
  semicolon <-- consumeIf TokenKind.Semicolon;;
  if semicolon : bool then ret tt
  else
    t <-- cur;;
    if tok_is t TokenKind.KwIn then ret tt
    else
      newline <-- newline_here buf;;
      if newline || isAny t [TokenKind.Eof; TokenKind.RBrace] then ret tt
      else error "Expected ';' or newline after declaration".

(** [if (decl) decls.push_back(std::move(decl));] *)
Definition push {A} (l : list A) (o : option A) : list A :=
  match o with Some a => (l ++ [a])%list | None => l end.

Definition parseVariableDecls : P (list Decl) :=
  m <-- modifiers variable_modifiers;;
  first <-- parseType;;
  match first with
  | None => ret []
  | Some first =>
      loop fuel (fun '(type, decls) =>
        name <-- declared_name;;
        clonedType <-- defined NullClone (clone_type type);;
        decl <-- parseVariableRest clonedType name (isImmutable type) (has TokenKind.KwStatic m)
                   (has TokenKind.KwShared m) (m_vis m);;
        let decl := option_map
          (set_storage (is_volatile type) false (has TokenKind.KwUsed m) m) decl in
        let decls := push decls decl in
        comma <-- consumeIf TokenKind.Comma;;
        if comma : bool then
          again <-- at_declaration buf;;
          if again : bool then
            nextType <-- parseType;;
            ret (inl (default type nextType, decls))
          else ret (inl (type, decls))
        else declaration_end;; ret (inr decls)) (first, [])
  end.

(** [make_unique<NullableType>(make_unique<WeakType>(move(type), type->getLoc()),
    type->getLoc())]: when the first argument is evaluated first, the pointer is null by the
    time the second one reads it. *)
Definition weak_reference (type : Ty) : P Ty :=
  if left_to_right then undefined MovedPointer
  else ret (NullableType (Some (WeakType (Some type) (type_loc type))) (type_loc type)).

(** ** Classes, enumerations and macros *)

(** The parents after the parenthesis; an error ends the class and is one of many errors of
    a generic class. *)
Definition parent_names (stop : bool) : P (option (list string)) :=
  loop fuel (fun parents =>
    w <-- word_or "Expected parent class name";;
    match w with
    | None => if stop then ret (inr None)
              else more <-- consumeIf TokenKind.Comma;;
                   ret (if more : bool then inl parents else inr (Some parents))
    | Some w =>
        let parents := (parents ++ [w])%list in
        more <-- consumeIf TokenKind.Comma;;
        ret (if more : bool then inl parents else inr (Some parents))
    end) [].

(** [constructor] and [destructor]. *)
Definition special_member (vis : Visibility.t) : P (option Decl) :=
  t <-- cur;;
  consume;;
  d <-- parseFunctionRest (PrimitiveType Scalar.Void (Some (location t)))
          (if tok_is t TokenKind.KwConstructor then "constructor" else "destructor")
          false false false vis;;
  ret (Some d).

(** The members of a class up to the brace; [member] returns those that it read, null
    pointers included, or [None] without a type. *)
Definition members_until_brace (member : P (option (list (option Decl)))) :
    P (list (option Decl)) :=
  loop fuel (fun members =>
    stop <-- cur_isAny [TokenKind.RBrace; TokenKind.Eof];;
    if stop : bool then ret (inr members)
    else
      new <-- member;;
      match new with
      | Some new => ret (inl (members ++ new)%list)
      | None => synchronize buf fuel;; ret (inl members)
      end) [].

Definition generic_member : P (option (list (option Decl))) :=
  m <-- modifiers generic_modifiers;;
  special <-- cur_isAny [TokenKind.KwConstructor; TokenKind.KwDestructor];;
  if special : bool then d <-- special_member (m_vis m);; ret (Some [d])
  else
    memberType <-? parseType;;
    memName <-- declared_name;;
    method <-- cur_is TokenKind.LParen;;
    if method : bool then
      d <-- parseFunctionRest memberType memName (has TokenKind.KwAsync m)
              (has TokenKind.KwStatic m) (has TokenKind.KwWeak m) (m_vis m);;
      ret (Some [Some d])
    else
      type <-- (if has TokenKind.KwWeak m then weak_reference memberType else ret memberType);;
      d <-- parseVariableRest type memName (isImmutable memberType) (has TokenKind.KwStatic m)
              (has TokenKind.KwShared m) (m_vis m);;
      ret (Some [option_map (set_storage (is_volatile memberType) false false no_modifiers) d]).

Definition type_params : P (list GenericParam) :=
  open <-- consumeIf TokenKind.Less;;
  if open : bool then
    params <-- comma_separated buf fuel (fun params =>
      isShared <-- consumeIf TokenKind.KwShared;;
      loc <-- loc_here;;
      w <-- word_or "Expected type parameter name";;
      ret (push params (option_map (fun name =>
        {| gp_name := name; gp_isShared := isShared; gp_loc := loc |}) w))) [];;
    expectGreater;;
    ret params
  else ret [].

Definition generic_class (name : string) (params : list GenericParam) (loc : SourceLocation) :
    P (option Decl) :=
  open <-- consumeIf TokenKind.LParen;;
  parents <-- (if open : bool then
                 parents <-- parent_names false;;
                 expect TokenKind.RParen;;
                 ret (default [] parents)
               else ret []);;
  expect TokenKind.LBrace;;
  members <-- members_until_brace generic_member;;
  expect TokenKind.RBrace;;
  let base := mkDecl name Visibility.Default loc in
  ret (Some (GenericDecl base params
    (Some (ClassDecl base parents members (newClassAttrs false AggregateKind.Class))))).

Definition parseGenericDecl : P (option Decl) :=
  loc <-- loc_here;;
  expect TokenKind.KwGeneric;;
  t <-- cur;;
  name <-- (if tok_is t TokenKind.Identifier then consume;; ret (spelling_of buf t)
            else ret "");;
  params <-- type_params;;
  body <-- cur_isAny [TokenKind.LBrace; TokenKind.LParen];;
  if negb (String.eqb name "") && body then generic_class name params loc
  else
    innerDecls <-- p_topLevelDecls rec;;
    ret match innerDecls with
        | [] => None
        | d :: _ => Some (GenericDecl (mkDecl (getName d) Visibility.Default loc) params (Some d))
        end.

Definition operator_names : list (TokenKind.t * string) :=
  [(TokenKind.Plus, "+"); (TokenKind.Minus, "-"); (TokenKind.Star, "*"); (TokenKind.Slash, "/");
   (TokenKind.EqualEqual, "=="); (TokenKind.NotEqual, "!="); (TokenKind.Less, "<");
   (TokenKind.Greater, ">"); (TokenKind.LessEqual, "<="); (TokenKind.GreaterEqual, ">=")].

Definition operator_name : P string :=
  t <-- cur;;
  match assoc_kind (kind t) operator_names with
  | Some x => consume;; ret ("operator" ++ x)
  | None =>
      if tok_is t TokenKind.LBracket then
        consume;;
        close <-- consumeIf TokenKind.RBracket;;
        ret (if close : bool then "operator[]" else "operator[")
      else error "Invalid operator for overloading";; ret "operator"
  end.

(** One field of a class; the others of its line follow a comma. *)
Definition class_field (m : Modifiers) (type : Ty) (memName : string) (base : Ty) :
    P (option Decl) :=
  type <-- (if has TokenKind.KwWeak m then weak_reference type else ret type);;
  d <-- parseVariableRest type memName (isImmutable base) (has TokenKind.KwStatic m)
          (has TokenKind.KwShared m) (m_vis m);;
  ret (option_map (set_storage (is_volatile base) false false m) d).

Definition class_fields (m : Modifiers) (memberType : Ty) (memName : string) :
    P (list (option Decl)) :=
  when (has TokenKind.KwVirtual m || has TokenKind.KwOverride m)
    (error "Variables cannot be marked 'virtual' or 'override'");;
  when (has TokenKind.KwAsync m) (error "'async' on fields not supported");;
  baseType <-- defined NullClone (clone_type memberType);;
  first <-- class_field m memberType memName memberType;;
  fields <-- loop fuel (fun fields =>
    comma <-- consumeIf TokenKind.Comma;;
    if comma : bool then
      name <-- declared_name;;
      nextType <-- defined NullClone (clone_type baseType);;
      d <-- class_field m nextType name memberType;;
      ret (inl (fields ++ [d])%list)
    else ret (inr fields)) [first];;
  consumeIf TokenKind.Semicolon;;
  ret fields.

Definition class_member : P (option (list (option Decl))) :=
  m <-- modifiers member_modifiers;;
  special <-- cur_isAny [TokenKind.KwConstructor; TokenKind.KwDestructor];;
  if special : bool then d <-- special_member (m_vis m);; ret (Some [d])
  else
    memberType <-? parseType;;
    operator <-- consumeIf TokenKind.KwOperator;;
    memName <-- (if operator : bool then operator_name else declared_name);;
    method <-- cur_is TokenKind.LParen;;
    if method : bool then
      when (isImmutable memberType) (error "'const' on methods not supported yet");;
      d <-- parseFunctionRest memberType memName (has TokenKind.KwAsync m)
              (has TokenKind.KwStatic m) (has TokenKind.KwWeak m) (m_vis m);;
      ret (Some [Some (set_function m d)])
    else fields <-- class_fields m memberType memName;; ret (Some fields).

Definition class_body (name : string) (parents : list string) (isRef : bool)
    (aggKind : AggregateKind.t) (loc : SourceLocation) : P (option Decl) :=
  open <-- expect TokenKind.LBrace;;
  if open : bool then
    members <-- members_until_brace class_member;;
    expect TokenKind.RBrace;;
    ret (Some (ClassDecl (mkDecl name Visibility.Default loc) parents members
                 (newClassAttrs isRef aggKind)))
  else ret None.

Definition parseClassDecl : P (option Decl) :=
  isRef <-- consumeIf TokenKind.KwRef;;
  t <-- cur;;
  let loc := Some (location t) in
  let aggKind := match kind t with
                 | TokenKind.KwStruct => AggregateKind.Struct
                 | TokenKind.KwUnion => AggregateKind.Union
                 | _ => AggregateKind.Class
                 end in
  if isAny t [TokenKind.KwClass; TokenKind.KwStruct; TokenKind.KwUnion] then
    consume;;
    name <-- spelling_here buf;;
    named <-- expect TokenKind.Identifier;;
    if named : bool then
      open <-- consumeIf TokenKind.LParen;;
      if open : bool then
        parents <-? parent_names true;;
        close <-- expect TokenKind.RParen;;
        if close : bool then class_body name parents isRef aggKind loc else ret None
      else class_body name [] isRef aggKind loc
    else ret None
  else error "Expected 'class', 'struct', or 'union'";; ret None.

Definition enum_cases : P (list EnumCase) :=
  loop fuel (fun cases =>
    stop <-- cur_isAny [TokenKind.RBrace; TokenKind.Eof];;
    if stop : bool then ret (inr cases)
    else
      caseName <-- declared_name;;
      assigned <-- consumeIf TokenKind.Equal;;
      value <-- (if assigned : bool then parseExpression else ret None);;
      consumeIf TokenKind.Comma;;
      ret (inl (cases ++ [mkEnumCase caseName value])%list)) [].

Definition parseEnumDecl : P (option Decl) :=
  loc <-- loc_here;;
  consume;;
  name <-- declared_name;;
  expect TokenKind.LBrace;;
  cases <-- enum_cases;;
  expect TokenKind.RBrace;;
  ret (Some (EnumDecl (mkDecl name Visibility.Default loc) cases)).

Definition skip_until (stops : list TokenKind.t) : P unit :=
  loop fuel (fun _ =>
    stop <-- cur_isAny stops;;
    if stop : bool then ret (inr tt) else consume;; ret (inl tt)) tt.

Definition macro_params : P (list string) :=
  close <-- cur_is TokenKind.RParen;;
  params <-- (if close : bool then ret []
    else comma_separated buf fuel (fun params =>
      w <-- word_or "Expected identifier in macro parameters";;
      match w with
      | Some w => ret (params ++ [w])%list
      | None => skip_until [TokenKind.Comma; TokenKind.RParen; TokenKind.Eof];; ret params
      end) []);;
  close <-- expect TokenKind.RParen;;
  when (negb close) (skip_until [TokenKind.LBrace; TokenKind.Eof]);;
  ret params.

Definition macro_body (loc : SourceLocation) : P (list (option Stmt)) :=
  open <-- cur_is TokenKind.LBrace;;
  if open : bool then
    consume;;
    body <-- statements_until buf fuel rec [TokenKind.RBrace; TokenKind.Eof];;
    expect TokenKind.RBrace;;
    ret body
  else
    expr <-- parseExpression;;
    ret match expr with Some _ => [Some (ExpressionStmt expr loc)] | None => [] end.

Definition parseMacroDecl : P (option Decl) :=
  loc <-- loc_here;;
  consume;;
  name <-- spelling_here buf;;
  named <-- expect TokenKind.Identifier;;
  if named : bool then
    isFunctionMacro <-- consumeIf TokenKind.LParen;;
    params <-- (if isFunctionMacro : bool then macro_params else ret []);;
    body <-- macro_body loc;;
    ret (Some (MacroDecl (mkDecl name Visibility.Default loc) params body isFunctionMacro))
  else ret None.

(** ** Top-level declarations *)

Definition using_decl : P (list Decl) :=
  loc <-- loc_here;;
  name <-- declared_name;;
  expect TokenKind.Equal;;
  target <-- parseType;;
  consumeIf TokenKind.Semicolon;;
  ret [UsingDecl (mkDecl name Visibility.Default loc) target].

(** The types that the modifier [weak] makes weak references; on the others it is the
    linkage. *)
Definition can_be_weak (t : Ty) : bool :=
  match t with PointerType _ _ | ReferenceType _ _ | NamedType _ _ _ _ => true | _ => false end.

Definition toplevel_variables (m : Modifiers) (type : Ty) (name : string) : P (list Decl) :=
  let isWeak := has TokenKind.KwWeak m in
  loop fuel (fun '(name, decls) =>
    clonedType <-- defined NullClone (clone_type type);;
    let isARCWeak := isWeak && can_be_weak clonedType in
    clonedType <-- (if isARCWeak then weak_reference clonedType else ret clonedType);;
    decl <-- parseVariableRest clonedType name (isImmutable type) (has TokenKind.KwStatic m)
               (has TokenKind.KwShared m) (m_vis m);;
    let decl := option_map
      (set_storage (is_volatile type) (isWeak && negb isARCWeak) (has TokenKind.KwUsed m) m)
      decl in
    let decls := push decls decl in
    comma <-- consumeIf TokenKind.Comma;;
    if comma : bool then name <-- declared_name;; ret (inl (name, decls))
    else declaration_end;; ret (inr decls)) (name, []).

(** [vis != Default || isStatic || isConst || isAsync], where [isConst] is never set. *)
Definition needs_declaration (m : Modifiers) : bool :=
  match m_vis m with Visibility.Default => false | _ => true end
  || has TokenKind.KwStatic m || has TokenKind.KwAsync m.

Definition typed_decls (m : Modifiers) : P (list Decl) :=
  type <-- parseType;;
  match type with
  | None =>
      when (needs_declaration m) (error "Expected declaration after modifiers");; ret []
  | Some type =>
      name <-- declared_name;;
      function <-- cur_is TokenKind.LParen;;
      if function : bool then
        d <-- parseFunctionRest type name (has TokenKind.KwAsync m) (has TokenKind.KwStatic m)
                (has TokenKind.KwWeak m) (m_vis m);;
        ret [set_function m d]
      else toplevel_variables m type name
  end.

(** The declaration after its modifiers. *)
Definition modified_decls (m : Modifiers) : P (list Decl) :=
  t <-- cur;;
  match kind t with
  | TokenKind.KwImport | TokenKind.KwFrom => d <-- parseImportDecl;; ret (push [] d)
  | TokenKind.KwMacro => d <-- parseMacroDecl;; ret (push [] d)
  | TokenKind.KwGeneric => d <-- parseGenericDecl;; ret (push [] d)
  | TokenKind.KwEnum => d <-- parseEnumDecl;; ret (push [] d)
  | TokenKind.KwClass | TokenKind.KwStruct | TokenKind.KwRef | TokenKind.KwUnion =>
      d <-- parseClassDecl;; ret (push [] (option_map (set_class m) d))
  | _ => typed_decls m
  end.

Definition parseTopLevelDecls : P (list Decl) :=
  m <-- modifiers declaration_modifiers;;
  alias <-- consumeIf TokenKind.KwUsing;;
  if alias : bool then using_decl else modified_decls m.

End Declarations.
