(* ===== verification/ParserStmt.v ===== *)
(** * The parser: statements

    The productions of [lib/frontend/parser/Parser.cpp] from [parseStatement] to
    [parseThrowStmt]. *)

From S2P Require Import Prelude Diag Tokens Lexer AST ASTClone ParserCore ParserExpr ParserDecl.

#[local] Open Scope string_scope.
#[local] Open Scope parser_scope.

Section Statements.
Context `{Platform} (buf : buffer) (fuel : nat) (rec : Productions).

#[local] Abbreviation consume := (consume buf).
#[local] Abbreviation consumeIf := (consumeIf buf).
#[local] Abbreviation expect := (expect buf).
#[local] Abbreviation parseType := (p_type rec).
#[local] Abbreviation parseExpression := (p_expression rec).
#[local] Abbreviation parseStatement := (p_statement rec).
#[local] Abbreviation parseBlock := (parseBlock buf fuel rec).

(** ** Declarations as statements *)

(** One declaration is a statement, several are a block of statements. *)
Definition decl_stmts (decls : list Decl) (loc : SourceLocation) : Stmt :=
  match decls with
  | [d] => DeclStmt (Some d) loc
  | _ => BlockStmt (map (fun d => Some (DeclStmt (Some d) (decl_loc d))) decls) loc
  end.

Definition declared (production : P (list Decl)) : P (option Stmt) :=
  loc <-- loc_here;;
  decls <-- production;;
  ret (Some (decl_stmts decls loc)).

(** ** Conditions and loops *)

(** [( e )]. *)
Definition condition : P (option Expr) :=
  expect TokenKind.LParen;;
  cond <-- parseExpression;;
  expect TokenKind.RParen;;
  ret cond.

Definition parseIfStmt : P (option Stmt) :=
  loc <-- loc_here;;
  consume;;
  cond <-- condition;;
  thenStmt <-- parseStatement;;
  otherwise <-- consumeIf TokenKind.KwElse;;
  elseStmt <-- (if otherwise : bool then parseStatement else ret None);;
  ret (Some (IfStmt cond thenStmt elseStmt loc)).

Definition add_depth (d : Z) : P unit := modify (fun s => set_depth (loopDepth s + d) s).

(** [loopDepth++; body; loopDepth--;] *)
Definition in_loop {A} (body : P A) : P A :=
  add_depth 1;; a <-- body;; add_depth (-1);; ret a.

Definition parseWhileStmt : P (option Stmt) :=
  loc <-- loc_here;;
  consume;;
  cond <-- condition;;
  body <-- in_loop parseStatement;;
  ret (Some (WhileStmt cond body loc)).

Definition parseDoWhileStmt : P (option Stmt) :=
  loc <-- loc_here;;
  consume;;
  body <-- in_loop parseStatement;;
  expect TokenKind.KwWhile;;
  cond <-- condition;;
  consumeIf TokenKind.Semicolon;;
  ret (Some (DoWhileStmt body cond loc)).

(** The variable of an untyped [for (x in e)]. *)
Definition any_variable (name : string) (loc : SourceLocation) : Decl :=
  VariableDecl (mkDecl name Visibility.Default loc) (Some (AnyType loc)) None
    (newVariableAttrs false false false).

(** [in e) body], after the variables. *)
Definition for_in (var index : option Decl) (loc : SourceLocation) : P (option Stmt) :=
  collection <-- parseExpression;;
  expect TokenKind.RParen;;
  body <-- in_loop parseStatement;;
  ret (Some (ForInStmt var index collection body loc)).

(** [x in e] and [i, x in e]; [None] goes on with the other forms after an error. *)
Definition untyped_for_in (loc : SourceLocation) : P (option (option Stmt)) :=
  t <-- cur;;
  let varLoc := Some (location t) in
  let name1 := spelling_of buf t in
  consume;;
  comma <-- consumeIf TokenKind.Comma;;
  name2 <-- (if comma : bool then
               w <-- word_or buf "Expected second identifier in for-in loop";;
               ret (default "" w)
             else ret "");;
  is_in <-- consumeIf TokenKind.KwIn;;
  if is_in : bool then
    r <-- (if String.eqb name2 "" then for_in (Some (any_variable name1 varLoc)) None loc
           else for_in (Some (any_variable name2 varLoc)) (Some (any_variable name1 varLoc)) loc);;
    ret (Some r)
  else error "Expected 'in' in for-in loop";; ret None.

(** [e; e) body], after the initialization. *)
Definition standard_for (init : option Stmt) (loc : SourceLocation) : P (option Stmt) :=
  none <-- cur_is TokenKind.Semicolon;;
  cond <-- (if none : bool then ret None else parseExpression);;
  expect TokenKind.Semicolon;;
  close <-- cur_is TokenKind.RParen;;
  inc <-- (if close : bool then ret None else parseExpression);;
  expect TokenKind.RParen;;
  body <-- in_loop parseStatement;;
  ret (Some (ForStmt init cond inc body loc)).

(** After a declaration: the [in] of one or two variables, or the rest of the loop. *)
Definition for_decls (loc : SourceLocation) : P (option Stmt) :=
  decls <-- parseVariableDecls buf fuel rec;;
  is_in <-- (if ((List.length decls =? 1) || (List.length decls =? 2))%nat
             then consumeIf TokenKind.KwIn else ret false);;
  if is_in : bool then
    match decls with
    | [i; x] => for_in (Some x) (Some i) loc
    | d :: _ => for_in (Some d) None loc
    | [] => undefined NoDeclaration
    end
  else standard_for match decls with [] => None | _ => Some (decl_stmts decls loc) end loc.

Definition for_expression (loc : SourceLocation) : P (option Stmt) :=
  none <-- cur_is TokenKind.Semicolon;;
  init <-- (if none : bool then ret None
            else
              expr <-- parseExpression;;
              here <-- loc_here;;
              ret match expr with Some _ => Some (ExpressionStmt expr here) | None => None end);;
  expect TokenKind.Semicolon;;
  standard_for init loc.

Definition parseForStmt : P (option Stmt) :=
  loc <-- loc_here;;
  consume;;
  expect TokenKind.LParen;;
  t <-- cur;;
  n <-- peek;;
  early <-- (if tok_is t TokenKind.Identifier && isAny n [TokenKind.KwIn; TokenKind.Comma]
             then untyped_for_in loc else ret None);;
  match early with
  | Some stmt => ret stmt
  | None =>
      typed <-- at_declaration buf;;
      if typed : bool then for_decls loc else for_expression loc
  end.

(** ** [switch] *)

Definition range_ends : list TokenKind.t :=
  [TokenKind.IntegerLiteral; TokenKind.FloatLiteral; TokenKind.StringLiteral;
   TokenKind.CharLiteral].

(** A value, or a range of values. *)
Definition case_value : P (option Expr) :=
  val <-- parseExpression;;
  t <-- cur;;
  n <-- peek;;
  if tok_is t TokenKind.Colon && isAny n range_ends then
    consume;;
    endVal <-- parseExpression;;
    here <-- loc_here;;
    ret (Some (BinaryExpr val TokenKind.Colon endVal here))
  else ret val.

Definition case_body (stops : list TokenKind.t) : P (option Stmt) :=
  stmts <-- statements_until buf fuel rec stops;;
  here <-- loc_here;;
  ret (Some (BlockStmt stmts here)).

Definition switch_cases : P (list SwitchCase) :=
  loop fuel (fun cases =>
    more <-- consumeIf TokenKind.KwCase;;
    if more : bool then
      values <-- comma_separated buf fuel (fun values =>
        val <-- case_value;; ret (values ++ [val])%list) [];;
      expect TokenKind.Colon;;
      body <-- case_body [TokenKind.KwCase; TokenKind.KwDefault; TokenKind.RBrace];;
      ret (inl (cases ++ [mkSwitchCase values body false])%list)
    else ret (inr cases)) [].

Definition switch_default (cases : list SwitchCase) : P (list SwitchCase) :=
  other <-- consumeIf TokenKind.KwDefault;;
  if other : bool then
    expect TokenKind.Colon;;
    body <-- case_body [TokenKind.RBrace];;
    ret (cases ++ [mkSwitchCase [] body true])%list
  else ret cases.

Definition parseSwitchStmt : P (option Stmt) :=
  loc <-- loc_here;;
  consume;;
  cond <-- condition;;
  expect TokenKind.LBrace;;
  cases <-- in_loop (cases <-- switch_cases;; switch_default cases);;
  expect TokenKind.RBrace;;
  ret (Some (SwitchStmt cond cases loc)).

(** ** Jumps *)

Definition parseReturnStmt : P (option Stmt) :=
  loc <-- loc_here;;
  consume;;
  none <-- cur_is TokenKind.Semicolon;;
  val <-- (if none : bool then ret None else parseExpression);;
  consumeIf TokenKind.Semicolon;;
  ret (Some (ReturnStmt val loc)).

(** [break] and [continue]. *)
Definition jump_stmt (message : string) (make : SourceLocation -> Stmt) : P (option Stmt) :=
  loc <-- loc_here;;
  consume;;
  s <-- get;;
  when (Z.eqb (loopDepth s) 0) (error message);;
  consumeIf TokenKind.Semicolon;;
  ret (Some (make loc)).

Definition parseBreakStmt : P (option Stmt) := jump_stmt "break outside loop" BreakStmt.
Definition parseContinueStmt : P (option Stmt) := jump_stmt "continue outside loop" ContinueStmt.

Definition parseDeferStmt : P (option Stmt) :=
  loc <-- loc_here;;
  consume;;
  stmt <-- parseStatement;;
  ret (Some (DeferStmt stmt loc)).

Definition parseThrowStmt : P (option Stmt) :=
  loc <-- loc_here;;
  consume;;
  expr <-- parseExpression;;
  consumeIf TokenKind.Semicolon;;
  ret (Some (ThrowStmt expr loc)).

(** ** Blocks *)

(** The constructor of a catch variable does not set [isShared]. *)
Definition catch_variable (type : option Ty) : P (option Decl) :=
  t <-- cur;;
  if tok_is t TokenKind.Identifier then
    consume;;
    here <-- loc_here;;
    ret (Some (VariableDecl (mkDecl (spelling_of buf t) Visibility.Default here) type None
                 (newVariableAttrs false false uninitialized_bool)))
  else ret None.

Definition catch_clauses : P (list CatchClause) :=
  loop fuel (fun catches =>
    more <-- consumeIf TokenKind.KwCatch;;
    if more : bool then
      catchLoc <-- loc_here;;
      expect TokenKind.LParen;;
      type <-- parseType;;
      catchVar <-- catch_variable type;;
      expect TokenKind.RParen;;
      catchBlock <-- parseBlock;;
      ret (inl (catches ++ [mkCatchClause catchVar catchBlock catchLoc])%list)
    else ret (inr catches)) [].

Definition parseTryCatchStmt : P (option Stmt) :=
  loc <-- loc_here;;
  consume;;
  tryBlock <-- parseBlock;;
  catches <-- catch_clauses;;
  last <-- consumeIf TokenKind.KwFinally;;
  finallyBlock <-- (if last : bool then parseBlock else ret None);;
  ret (Some (TryCatchStmt tryBlock catches finallyBlock loc)).

Definition parseUnsafeBlock : P (option Stmt) :=
  loc <-- loc_here;;
  consume;;
  expect TokenKind.LBrace;;
  stmts <-- statements_until buf fuel rec [TokenKind.RBrace; TokenKind.Eof];;
  expect TokenKind.RBrace;;
  ret (Some (UnsafeBlockStmt stmts loc)).

Definition parseLockStmt : P (option Stmt) :=
  loc <-- loc_here;;
  isAsync <-- consumeIf TokenKind.KwAsync;;
  consume;;
  open <-- consumeIf TokenKind.LParen;;
  target <-- (if open : bool then
                target <-- parseExpression;; expect TokenKind.RParen;; ret target
              else ret None);;
  body <-- parseBlock;;
  ret (Some (LockStmt target body isAsync loc)).

(** ** Statements *)

Definition expression_statement : P (option Stmt) :=
  loc <-- loc_here;;
  expr <-? parseExpression;;
  semicolon <-- consumeIf TokenKind.Semicolon;;
  (if semicolon : bool then ret tt
   else
     newline <-- newline_here buf;;
     t <-- cur;;
     when (negb newline && negb (isAny t [TokenKind.Eof; TokenKind.RBrace]))
       (error "Expected ';' or newline after expression"));;
  ret (Some (ExpressionStmt (Some expr) loc)).

(** The [default] case. *)
Definition default_statement : P (option Stmt) :=
  declaration <-- at_declaration buf;;
  if declaration : bool then declared (p_topLevelDecls rec)
  else
    t <-- cur;;
    n <-- peek;;
    if tok_is t TokenKind.Identifier && tok_is n TokenKind.Identifier
    then declared (parseVariableDecls buf fuel rec)
    else expression_statement.

(** The modifiers of locks: a lock statement, or a declaration. *)
Definition lock_or_declaration (lock : bool) : P (option Stmt) :=
  if lock then parseLockStmt
  else
    declaration <-- at_declaration buf;;
    if declaration : bool then declared (p_topLevelDecls rec) else ret None.

Definition parseStatement_body : P (option Stmt) :=
  t <-- cur;;
  n <-- peek;;
  match kind t with
  | TokenKind.LBrace => parseBlock
  | TokenKind.KwIf => parseIfStmt
  | TokenKind.KwWhile => parseWhileStmt
  | TokenKind.KwDo => parseDoWhileStmt
  | TokenKind.KwFor => parseForStmt
  | TokenKind.KwSwitch => parseSwitchStmt
  | TokenKind.KwReturn => parseReturnStmt
  | TokenKind.KwBreak => parseBreakStmt
  | TokenKind.KwContinue => parseContinueStmt
  | TokenKind.KwDefer => parseDeferStmt
  | TokenKind.KwTry => parseTryCatchStmt
  | TokenKind.KwThrow => parseThrowStmt
  | TokenKind.KwUnsafe => parseUnsafeBlock
  | TokenKind.KwLock => lock_or_declaration (isAny n [TokenKind.LBrace; TokenKind.LParen])
  | TokenKind.KwView | TokenKind.KwMut => lock_or_declaration (tok_is n TokenKind.LBrace)
  | TokenKind.KwAsync =>
      if tok_is n TokenKind.KwLock then parseLockStmt else default_statement
  | _ => default_statement
  end.

End Statements.
