(* ===== verification/Parser.v ===== *)
(** * The parser: modules

    The productions of [ParserType], [ParserExpr], [ParserDecl] and [ParserStmt] tied together,
    and [parseModule] of [lib/frontend/parser/Parser.cpp].  The fuel bounds the depth of the
    calls and the turns of each loop. *)

From stdpp Require Import pretty.
From S2P Require Import Prelude Diag Tokens Lexer AST ParserCore.
From S2P Require Import ParserType ParserExpr ParserDecl ParserStmt.

#[local] Open Scope string_scope.
#[local] Open Scope parser_scope.

Definition no_productions : Productions :=
  {| p_expression := no_fuel; p_ternary := no_fuel; p_power := no_fuel; p_prefix := no_fuel;
     p_primary := no_fuel; p_type := no_fuel; p_statement := no_fuel;
     p_topLevelDecls := no_fuel |}.

Section Modules.
Context `{Platform} (buf : buffer).

(** One more level of calls. *)
Definition productions (fuel : nat) (rec : Productions) : Productions :=
  {| p_expression := parseAssignment buf fuel rec;
     p_ternary := parseTernary buf fuel rec;
     p_power := parsePower buf fuel rec;
     p_prefix := parsePrefix buf fuel rec;
     p_primary := parsePrimary buf fuel rec;
     p_type := parseType_body buf fuel rec;
     p_statement := parseStatement_body buf fuel rec;
     p_topLevelDecls := parseTopLevelDecls buf fuel rec |}.

Fixpoint parsers (fuel : nat) : Productions :=
  match fuel with
  | 0 => no_productions
  | S fuel => productions fuel (parsers fuel)
  end.

(** [std::to_string] of a counter. *)
Definition script_name (n : nat) : string :=
  match n with 0 => "main" | _ => "__moksha_imported_script_" ++ pretty n end.

(** The function that holds the statements of a script. *)
Definition script_function (name : string) (stmts : list (option Stmt)) (loc : SourceLocation) :
    Decl :=
  FunctionDecl (mkDecl name Visibility.Default loc)
    [mkParam "argc" (Some (PrimitiveType Scalar.I32 loc)) loc None;
     mkParam "argv"
       (Some (PointerType (Some (PointerType (Some (PrimitiveType Scalar.Char loc)) loc)) loc))
       loc None]
    (Some (PrimitiveType Scalar.Void loc)) (Some (BlockStmt stmts loc))
    (newFunctionAttrs false false false false).

(** The next declarations or statement of a file. *)
Definition module_item (fuel : nat) (items : list Decl * list Stmt) :
    P ((list Decl * list Stmt) + (list Decl * list Stmt)) :=
  let '(decls, stmts) := items in
  stop <-- cur_is TokenKind.Eof;;
  if stop : bool then ret (inr (decls, stmts))
  else
    declaration <-- at_declaration buf;;
    if declaration : bool then
      new <-- p_topLevelDecls (parsers fuel);;
      ret (inl ((decls ++ new)%list, stmts))
    else
      stmt <-- p_statement (parsers fuel);;
      match stmt with
      | Some stmt => ret (inl (decls, (stmts ++ [stmt])%list))
      | None => synchronize buf fuel;; ret (inl (decls, stmts))
      end.

(** The declarations and the statements of a file. *)
Definition module_items (fuel : nat) : P (list Decl * list Stmt) :=
  loop fuel (module_item fuel) ([], []).

(** The module of a file: its statements become the function [main]. *)
Definition finish_module (decls : list Decl) (stmts : list Stmt) (startLoc : SourceLocation) :
    P (list Decl) :=
  match stmts with
  | [] => ret decls
  | _ =>
      if existsb (fun d => String.eqb (getName d) "main") decls then
        error "Cannot mix top-level statements with an explicit 'main' function.";;
        ret decls
      else
        s <-- get;;
        modify (set_counter (S (scriptCounter s)));;
        ret (decls ++ [script_function (script_name (scriptCounter s)) (map Some stmts) startLoc])%list
  end.

Definition parseModule (fuel : nat) : P Decl :=
  startLoc <-- loc_here;;
  items <-- module_items fuel;;
  let '(decls, stmts) := items in
  decls <-- finish_module decls stmts startLoc;;
  ret (ModuleDecl (mkDecl "main" Visibility.Default startLoc) (map Some decls)).

(** A file from its text. *)
Definition parse_source (fuel counter : nat) (E : DiagnosticEngine) : Result Decl :=
  match newParser buf (newLexer E) counter with
  | Ok _ s => parseModule fuel s
  | NoFuel => NoFuel
  | Undefined why => Undefined why
  end.

End Modules.
