(* ===== verification/ParserSource.v ===== *)
(** * The tokens that the parser reads

    What the parser expects of the lexer, as a class: a call of [next] returns, consumes
    bytes unless the end is reached, and makes no token on which a loop of the parser hangs.
    The lexer keeps that promise on sources without template strings, multi-byte characters
    and the words [enum] and [switch]. *)

From S2P Require Import Prelude Diag Tokens Lexer LexerFacts LexerProps LexerClaims ParserCore.

#[local] Open Scope nat_scope.

(** The keywords of the productions whose loops do not stop at the end of the file. *)
Definition hangs (k : TokenKind.t) : bool :=
  match k with TokenKind.KwEnum | TokenKind.KwSwitch => true | _ => false end.

(** [remaining L]: at most how many tokens, the end apart, are still to come. *)
Class TokenSource `{Platform} (buf : buffer) := {
  valid : Lexer -> Prop;
  remaining : Lexer -> nat;
  valid_diags : forall L E, valid L -> valid (set_diags E L);
  remaining_diags : forall L E, remaining (set_diags E L) = remaining L;
  remaining_bound : forall L, remaining L <= bufferEnd buf;
  next_ok : forall L, valid L -> exists t L',
    next buf L = Some (t, L') /\ valid L' /\ hangs (kind t) = false
    /\ (remaining L' < remaining L /\ kind t <> TokenKind.Eof \/ kind t = TokenKind.Eof /\ remaining L' = 0);
}.

(** ** The kinds of the tokens of a text *)

(** A keyword in the text. *)
Fixpoint contains (w l : list ascii) : bool :=
  match l with
  | [] => false
  | _ :: r => bool_decide (take (List.length w) l = w) || contains w r
  end.

Definition no_word (w : string) (buf : buffer) : bool := negb (contains (list_ascii_of_string w) buf).

Lemma contains_take w n p buf :
  w <> [] -> take n (drop p buf) = w -> contains w buf = true.
Proof.
  intros N. revert p. induction buf as [| c buf IH]; intros p E.
  - rewrite drop_nil, take_nil in E. by subst.
  - simpl. apply orb_true_iff. destruct p as [| p]; [left | right; by apply (IH p)].
    apply bool_decide_eq_true. rewrite drop_0 in E. rewrite <- E, length_take.
    destruct (Nat.min_spec n (List.length (c :: buf))) as [[_ ->] | [? ->]]; [done |].
    by rewrite !take_ge.
Qed.

Section Kinds.
Context (buf : buffer) {U : Utf8}.

(** No keyword and not the end. *)
Definition other_kind (k : TokenKind.t) : Prop :=
  is_keyword k = false /\ k <> TokenKind.Eof.

Lemma operator_other c p0 p1 : other_kind (operator_kind c p0 p1).1.
Proof. unfold operator_kind. by case_all. Qed.

Lemma scanNumber_other s : other_kind (kind (scanNumber buf s).1).
Proof.
  destruct (scanNumber_token buf s) as [-> | (k & b & sx & -> & K)]; [by split |].
  rewrite kind_base_flag. rewrite !elem_of_cons in K. simpl.
  destruct K as [-> | [-> | [-> | K]]]; [by split.. |]. by apply not_elem_of_nil in K.
Qed.

Lemma scanOperator_other s : other_kind (kind (scanOperator buf s).1).
Proof.
  unfold scanOperator. do 2 (case_match; [by case_all |]).
  pose proof (operator_other (deref buf (curPtr s)) (Lexer.peek buf 0 (Lexer.advance 1 s))
                (Lexer.peek buf 1 (Lexer.advance 1 s))) as K.
  by destruct (operator_kind _ _ _).
Qed.

Lemma scanChar_other s : other_kind (kind (scanChar buf s).1).
Proof. unfold scanChar. case_match. by repeat case_match. Qed.

Lemma string_loop_other fuel tpl st esc err s t s' :
  string_loop buf fuel tpl st esc err s = Some (t, s') -> other_kind (kind t).
Proof.
  revert esc err s. induction fuel as [| fuel IH]; intros esc err s; [done |].
  cbn [string_loop]. destruct tpl; repeat (case_match; try by eauto);
    intros; simplify_eq/=; by repeat case_match.
Qed.

Lemma scanToken_keyword s t s' :
  scanToken buf s = Some (t, s') ->
  kind t <> TokenKind.Eof
  /\ (is_keyword (kind t) = true ->
      exists n, keyword_kind (string_of_list_ascii (take n (drop (location t) buf))) = kind t).
Proof.
  unfold scanToken.
  assert (Other : forall k, other_kind k -> k <> TokenKind.Eof /\ (is_keyword k = true ->
    exists n, keyword_kind (string_of_list_ascii (take n (drop (location t) buf))) = k)).
  { intros k [K1 K2]. split; [done |]. by rewrite K1. }
  destruct (_ || isUTF8Start _).
  { unfold scanIdentifier. destruct (if isAsciiIdentStart _ then _ else _) as [[] s1];
      cbn [negb]; [| by intros; simplify_eq; apply Other].
    destruct (ident_loop _ _ _) as [[ok s2] |]; [| done]. cbn [mbind option_bind].
    destruct ok; intros; simplify_eq/=; [| by apply Other]. split.
    - intros E. pose proof (keyword_kind_plain (spelling buf (curPtr s) s')) as K.
      by rewrite E in K.
    - intros _. by eexists. }
  assert (Pair : forall r, other_kind (kind r.1) -> Some r = Some (t, s') -> other_kind (kind t)).
  { by intros r K E; simplify_eq/=. }
  intros E. apply Other. revert E.
  destruct (isdigit _); [apply Pair, scanNumber_other |].
  destruct (_ && isdigit _); [apply Pair, scanNumber_other |].
  destruct (_ || (_ =?c BACKTICK)).
  { unfold scanString. case_match; [apply string_loop_other |].
    cbn zeta. case_match; apply string_loop_other. }
  destruct (_ =?c "'"%char); apply Pair; [apply scanChar_other | apply scanOperator_other].
Qed.

(** A keyword token starts where the text has its keyword. *)
Lemma next_keyword s t s' :
  next buf s = Some (t, s') -> is_keyword (kind t) = true ->
  exists n, keyword_kind (string_of_list_ascii (take n (drop (location t) buf))) = kind t.
Proof.
  unfold next. case_match.
  { case_match; intros E K; simplify_eq; revert E; unfold scanString.
    cbn zeta. repeat case_match; intros E; apply string_loop_other in E as [E _];
      by rewrite E in K. }
  destruct (trivia_loop _ _ _) as [[r s1] |]; [| done].
  cbn [mbind option_bind]. destruct r; intros Q K; simplify_eq/=; try done.
  by apply (scanToken_keyword s1 t s').
Qed.

Lemma next_quiet s t s' :
  no_word "enum" buf = true -> no_word "switch" buf = true ->
  next buf s = Some (t, s') -> hangs (kind t) = false.
Proof.
  intros W1 W2 E. unfold no_word in *. breflect.
  assert (K : forall k w, kind t = k -> is_keyword k = true ->
    (forall x, keyword_kind x = k -> x = w) -> w <> "" ->
    contains (list_ascii_of_string w) buf = true).
  { intros k w K1 K2 K3 K4. subst k. destruct (next_keyword s t s' E K2) as [n Hn].
    apply K3 in Hn. apply (f_equal list_ascii_of_string) in Hn.
    rewrite list_ascii_of_string_of_list_ascii in Hn.
    apply (contains_take _ n (location t)); [by destruct w | done]. }
  destruct keyword_kind_bijective as [B _].
  assert (I : forall k w x, is_keyword k = true -> keyword_kind w = k -> keyword_kind x = k -> x = w).
  { intros k w x K1 K2 K3. destruct (B k K1) as [y Hy]. apply Hy in K2, K3. by subst. }
  destruct (kind t) eqn:Kt; try done; exfalso.
  - rewrite (K _ "switch" eq_refl eq_refl) in W2; [done | by intros x; apply (I TokenKind.KwSwitch) | done].
  - rewrite (K _ "enum" eq_refl eq_refl) in W1; [done | by intros x; apply (I TokenKind.KwEnum) | done].
Qed.

End Kinds.

(** ** Plain sources *)

(** A source that the parser reads to its end. *)
Definition quiet_source (buf : buffer) : Prop :=
  (Z.of_nat (bufferEnd buf) < 2 ^ 32)%Z /\ plain_buffer buf
  /\ no_word "enum" buf = true /\ no_word "switch" buf = true.

(** What the lexer satisfies at every moment on such a source. *)
Definition plain_lexer (buf : buffer) (L : Lexer) : Prop := wf buf L /\ plain_state L.

Program Definition plain_source `{Platform} (buf : buffer) (Q : quiet_source buf) :
    TokenSource buf := {|
  valid := plain_lexer buf;
  remaining := fun L => bufferEnd buf - curPtr L;
|}.
Next Obligation. intros P buf Q L E [[] []]. by split. Qed.
Next Obligation. done. Qed.
Next Obligation. intros. cbn. lia. Qed.
Next Obligation.
  intros P buf (Q1 & Q2 & Q3 & Q4) L [W S].
  destruct (next_scanned buf Q1 L W) as (t & L' & E & [S1 S2 S3 S4 S5 S6] & _).
  destruct (next_plain buf Q1 L t L') as [P1 P2]; auto using plain_buffer_deref.
  exists t, L'. split_and!; [done | by split | by eapply next_quiet |].
  pose proof (wf_end _ _ S1). destruct (decide (kind t = TokenKind.Eof)) as [K | K].
  - right. destruct (S4 K) as [_ C]. split; [done | lia].
  - left. destruct P2 as [P2 |]; [split; [lia | done] | done].
Qed.
