(* ===== verification/ParserWp.v ===== *)
(** * The parser: what a production guarantees

    A weakest precondition for the monad of the parser that excludes a lack of fuel, the
    measure of the input that is left, and a class of specifications: the instances for the
    elementary operations are here, those for the productions in the files that follow, and
    the tactic [wp_run] goes through a production with the instances at hand.  The productions
    of [ParserType] are the first. *)

From S2P Require Import Prelude Diag Tokens Lexer AST ParserCore ParserType ParserSource.

#[local] Open Scope nat_scope.
#[local] Open Scope parser_scope.

(** ** Weakest preconditions *)

(** The ways to crash that are not excluded: a moved pointer is read only by a compiler that
    evaluates arguments from left to right, and the list of declarations is never empty. *)
Definition possible `{Platform} (why : Crash) : Prop :=
  match why with
  | BufferUnderrun | UncaughtException | NullClone => True
  | MovedPointer => left_to_right = true
  | NoDeclaration => False
  end.

Section Wp.
Context {Pf : Platform}.

Definition wp {A} (p : P A) (Q : A -> Parser -> Prop) (s : Parser) : Prop :=
  match p s with
  | Ok a s => Q a s
  | NoFuel => False
  | Undefined why => possible why
  end.

Lemma wp_bind {A B} (p : P A) (f : A -> P B) Q s :
  wp p (fun a s => wp (f a) Q s) s -> wp (bind p f) Q s.
Proof. unfold wp, bind. by destruct (p s). Qed.

Lemma wp_mono {A} (p : P A) (Q R : A -> Parser -> Prop) s :
  (forall a s, Q a s -> R a s) -> wp p Q s -> wp p R s.
Proof. unfold wp. destruct (p s); auto. Qed.

Lemma wp_ret {A} (a : A) Q s : Q a s -> wp (ret a) Q s.
Proof. done. Qed.

Lemma wp_undefined {A} why (Q : A -> Parser -> Prop) s : possible why -> wp (undefined why) Q s.
Proof. done. Qed.

Lemma wp_defined {A} why (o : option A) Q s :
  possible why -> (forall a, o = Some a -> Q a s) -> wp (defined why o) Q s.
Proof. destruct o; cbn; auto. Qed.

(** The operations that only look. *)
Lemma wp_get Q s : Q s s -> wp get Q s. Proof. done. Qed.
Lemma wp_cur Q s : Q (curTok s) s -> wp cur Q s. Proof. done. Qed.
Lemma wp_peek Q s : Q (nextTok s) s -> wp ParserCore.peek Q s. Proof. done. Qed.
Lemma wp_cur_is k Q s : Q (tok_is (curTok s) k) s -> wp (cur_is k) Q s. Proof. done. Qed.
Lemma wp_cur_isAny ks Q s : Q (isAny (curTok s) ks) s -> wp (cur_isAny ks) Q s. Proof. done. Qed.
Lemma wp_loc_here Q s : Q (Some (location (curTok s))) s -> wp loc_here Q s. Proof. done. Qed.
Lemma wp_spelling buf Q s : Q (spelling_of buf (curTok s)) s -> wp (spelling_here buf) Q s.
Proof. done. Qed.
Lemma wp_at_declaration buf Q s :
  Q (isStartOfDeclaration buf s) s -> wp (at_declaration buf) Q s.
Proof. done. Qed.

End Wp.

(** Goes to the next operation that does more. *)
Ltac wp_look :=
  repeat (lazymatch goal with
  | |- wp (bind _ _) _ _ => apply wp_bind
  | |- wp (ret _) _ _ => apply wp_ret
  | |- wp get _ _ => apply wp_get
  | |- wp cur _ _ => apply wp_cur
  | |- wp ParserCore.peek _ _ => apply wp_peek
  | |- wp (cur_is _) _ _ => apply wp_cur_is
  | |- wp (cur_isAny _) _ _ => apply wp_cur_isAny
  | |- wp loc_here _ _ => apply wp_loc_here
  | |- wp (spelling_here _) _ _ => apply wp_spelling
  | |- wp (at_declaration _) _ _ => apply wp_at_declaration
  | |- wp (defined _ _) _ _ => apply wp_defined; [exact I | intros ? ?]
  | |- wp (undefined _) _ _ => apply wp_undefined; exact I
  end; cbv beta).

(** A loop with an invariant and a measure. *)
Lemma wp_loop {Pf : Platform} {A B} (I : A -> Parser -> Prop) (mu : Parser -> nat) fuel (body : A -> P (A + B)) Q :
  (forall a s, I a s -> wp (body a) (fun r s' =>
     match r with inl a => I a s' /\ mu s' < mu s | inr b => Q b s' end) s) ->
  forall a s, I a s -> mu s < fuel -> wp (loop fuel body a) Q s.
Proof.
  intros H. induction fuel as [| fuel IH]; intros a s Ha Hm; [lia |].
  cbn [loop]. apply wp_bind. eapply wp_mono; [| by apply H].
  intros [a' | b] s' Hs; cbn in Hs; [| by apply wp_ret].
  destruct Hs as [Hi Hl]. apply IH; [done | lia].
Qed.

(** ** The input that is left *)

Section Measure.
Context `{Platform} {buf : buffer} {Src : TokenSource buf}.

Definition weight (t : Token) : nat := if tok_is t TokenKind.Eof then 0 else 1.

Definition input (s : Parser) : nat :=
  weight (curTok s) + weight (nextTok s) + remaining (lexer s).

(** The parser reads from a source that keeps its promises, and after the end comes the end. *)
Record Good (s : Parser) : Prop := {
  g_lexer : valid (lexer s);
  g_cur : hangs (kind (curTok s)) = false;
  g_next : hangs (kind (nextTok s)) = false;
  g_cur_end : kind (curTok s) = TokenKind.Eof -> kind (nextTok s) = TokenKind.Eof;
  g_next_end : kind (nextTok s) = TokenKind.Eof -> remaining (lexer s) = 0;
}.

Lemma weight_eof t : kind t = TokenKind.Eof -> weight t = 0.
Proof. unfold weight, tok_is. by intros ->. Qed.
Lemma weight_other t : kind t <> TokenKind.Eof -> weight t = 1.
Proof. unfold weight, tok_is. intros N. by rewrite (proj2 (enum_eqb_neq _ _) N). Qed.

Lemma input_eof s : Good s -> kind (curTok s) = TokenKind.Eof -> input s = 0.
Proof.
  intros [_ _ _ G4 G5] E. unfold input. rewrite weight_eof, weight_eof, G5; auto.
Qed.
Lemma input_pos s k : kind (curTok s) = k -> k <> TokenKind.Eof -> 0 < input s.
Proof. intros <- N. unfold input. rewrite (weight_other _ N). lia. Qed.
Lemma input_is s k : tok_is (curTok s) k = true -> k <> TokenKind.Eof -> 0 < input s.
Proof. unfold tok_is. intros E. breflect. by apply input_pos. Qed.
Lemma input_any s ks :
  isAny (curTok s) ks = true -> existsb (enum_eqb TokenKind.Eof) ks = false -> 0 < input s.
Proof.
  intros E N. eapply input_pos; [done |]. intros K. rewrite <- not_true_iff_false in N.
  apply N. unfold isAny in E. apply existsb_exists in E as (k & I & E). apply existsb_exists.
  exists k. split; [done |]. unfold tok_is in E. breflect. rewrite <- K, E. apply enum_eqb_refl.
Qed.
Lemma input_stop s ks :
  isAny (curTok s) ks = false -> existsb (enum_eqb TokenKind.Eof) ks = true -> 0 < input s.
Proof.
  intros N E. eapply input_pos; [done |]. intros K. rewrite <- not_true_iff_false in N.
  apply N. apply existsb_exists in E as (k & I & E). apply existsb_exists.
  exists k. split; [done |]. unfold tok_is. breflect. subst k. rewrite K. apply enum_eqb_refl.
Qed.
Lemma input_not_eof s : tok_is (curTok s) TokenKind.Eof = false -> 0 < input s.
Proof. unfold tok_is. intros E. breflect. by eapply input_pos. Qed.

(** ** Specifications *)

(** From a good state that satisfies [pre] the production ends in a good state, related to
    the first one by [post]. *)
Class Spec {A} (p : P A) (pre : Parser -> Prop) (post : Parser -> A -> Parser -> Prop) : Prop :=
  spec : forall s, Good s -> pre s -> wp p (fun a s' => Good s' /\ post s a s') s.

Lemma wp_spec {A} (p : P A) pre post `{S : !Spec p pre post} Q s :
  Good s -> pre s -> (forall a s', Good s' -> post s a s' -> Q a s') -> wp p Q s.
Proof. intros G H' K. eapply wp_mono; [| by apply S]. intros a s' [G' P']. auto. Qed.

End Measure.

(** The production at the head is replaced by what its instance says. *)
Ltac wp_call := eapply wp_spec; [typeclasses eauto | eassumption | cbv beta | cbv beta].

(** What the tests say about the input that is left. *)
Ltac input_fact H :=
  lazymatch type of H with
  | tok_is (curTok ?s) TokenKind.Eof = false => apply input_not_eof in H
  | tok_is (curTok ?s) ?k = true => apply (input_is s k) in H; [| discriminate]
  | isAny (curTok ?s) ?ks = true => apply (input_any s ks) in H; [| reflexivity]
  | isAny (curTok ?s) ?ks = false => apply (input_stop s ks) in H; [| reflexivity]
  | kind (curTok ?s) = ?k => apply (input_pos s k) in H; [| discriminate]
  end.

Section Operations.
Context `{Platform} {buf : buffer} {Src : TokenSource buf}.

(** No input comes back. *)
Definition keeps {A} (s : Parser) (_ : A) (s' : Parser) : Prop := input s' <= input s.
(** Moreover a result that is no null pointer has consumed some. *)
Definition some_consumes {A} (s : Parser) (a : option A) (s' : Parser) : Prop :=
  input s' <= input s /\ (a <> None -> input s' < input s).
Definition true_consumes (s : Parser) (b : bool) (s' : Parser) : Prop :=
  input s' <= input s /\ (b = true -> input s' < input s).
Definition always (_ : Parser) : Prop := True.

(** The tokens a type starts with, without and with its modifiers. *)
Definition base_start (k : TokenKind.t) : bool :=
  existsb (enum_eqb k)
    [TokenKind.Amp; TokenKind.Star; TokenKind.Power; TokenKind.KwInt; TokenKind.KwShort;
     TokenKind.KwLong; TokenKind.KwChar; TokenKind.KwFloat; TokenKind.KwDouble;
     TokenKind.KwISize; TokenKind.KwUSize; TokenKind.KwBool; TokenKind.KwString;
     TokenKind.KwVoid; TokenKind.KwNull; TokenKind.KwAny; TokenKind.KwHalf;
     TokenKind.KwQuarter; TokenKind.KwDecimal; TokenKind.KwLock; TokenKind.KwView;
     TokenKind.KwMut; TokenKind.KwWeak; TokenKind.KwPromise; TokenKind.KwClosure;
     TokenKind.KwThread; TokenKind.KwRef; TokenKind.KwTable; TokenKind.Identifier;
     TokenKind.KwInterrupt; TokenKind.LParen].

Definition type_start (k : TokenKind.t) : bool :=
  existsb (enum_eqb k) [TokenKind.KwVolatile; TokenKind.KwConst; TokenKind.KwUnsigned]
  || base_start k.

(** A type consumes input when there is one, and when its first token announces it. *)
Definition type_consumes (s : Parser) (a : option Ty) (s' : Parser) : Prop :=
  some_consumes s a s' /\ (type_start (kind (curTok s)) = true -> input s' < input s).

(** ** Elementary operations *)

Lemma shift_spec : Spec (shift buf) always (fun s _ s' =>
  input s' <= input s - 1 /\ curTok s' = nextTok s).
Proof.
  intros s [G1 G2 G3 G4 G5] _. unfold wp, shift.
  destruct (next_ok (lexer s)) as (t & L & -> & V & Q & W); [done |].
  split.
  - split; cbn; auto.
    + intros E. specialize (G5 E). destruct W as [[W _] | [W _]]; [lia | done].
    + intros E. by destruct W as [[_ W] | [_ W]].
  - split; [| done]. unfold input. cbn.
    destruct (decide (kind (curTok s) = TokenKind.Eof)) as [E | E].
    + specialize (G4 E). specialize (G5 G4). rewrite (weight_eof _ E), (weight_eof _ G4), G5.
      destruct W as [[W _] | [W1 W2]]; [lia |]. rewrite (weight_eof _ W1). lia.
    + rewrite (weight_other _ E). destruct W as [[W N] | [W1 W2]].
      * rewrite (weight_other _ N). lia.
      * rewrite (weight_eof _ W1). lia.
Qed.

Lemma input_bound s : input s <= bufferEnd buf + 2.
Proof.
  pose proof (remaining_bound (lexer s)). unfold input, weight. repeat case_match; lia.
Qed.

#[export] Instance advance_spec :
  Spec (advance buf) always (fun s _ s' => input s' <= input s - 1).
Proof.
  intros s G _. unfold advance. wp_look. eapply (wp_spec _ _ _ (S := shift_spec)); [done.. |].
  intros _ s1 G1 [L _].
  apply (wp_loop (fun _ s2 => Good s2 /\ input s2 <= input s - 1) input).
  - intros [] s2 [G2 L2]. wp_look. destruct (tok_is (curTok s2) TokenKind.Comment) eqn:E; wp_look;
      [| done]. input_fact E. eapply (wp_spec _ _ _ (S := shift_spec)); [done.. |].
    intros _ s3 G3 [L3 _]. wp_look. split; [split; [done | lia] | lia].
  - by split.
  - pose proof (input_bound s1). lia.
Qed.

#[export] Instance consume_spec :
  Spec (consume buf) always (fun s _ s' => input s' <= input s - 1) := advance_spec.

(** A report leaves the input alone. *)
Definition untouched {A} (s : Parser) (_ : A) (s' : Parser) : Prop :=
  input s' = input s /\ curTok s' = curTok s /\ nextTok s' = nextTok s.

#[export] Instance report_spec loc id vals : Spec (report_at loc id vals) always untouched.
Proof.
  intros s [G1 G2 G3 G4 G5] _. cbn.
  assert (G : Good (set_lexer (set_diags (report_with loc id vals (Diags (lexer s))) (lexer s)) s)).
  { split; cbn; auto using valid_diags. by rewrite remaining_diags. }
  split; [done |]. split_and!; [| done..].
  unfold input. cbn. by rewrite remaining_diags.
Qed.

#[export] Instance error_spec msg : Spec (error msg) always untouched.
Proof. intros s G _. unfold error. wp_look. by apply report_spec. Qed.

#[export] Instance when_spec c (p : P unit) :
  Spec p always untouched -> Spec (when c p) always untouched.
Proof. intros S s G _. destruct c; [by apply S | by apply wp_ret]. Qed.

#[export] Instance when_consume_spec c : Spec (when c (consume buf)) always keeps.
Proof.
  intros s G _. destruct c; cbn [when]; wp_look; [| by split; [| unfold keeps]].
  wp_call; [done |]. intros ? s' G' L. split; [done |]. unfold keeps. lia.
Qed.

#[export] Instance consumeIf_spec k : Spec (consumeIf buf k) (fun _ => k <> TokenKind.Eof)
  (fun s b s' => true_consumes s b s' /\ (b = false -> s' = s /\ tok_is (curTok s) k = false)
    /\ (b = true -> tok_is (curTok s) k = true)).
Proof.
  intros s G N. unfold consumeIf. wp_look. destruct (tok_is (curTok s) k) eqn:E; wp_look.
  - wp_call; [done |]. intros _ s' G' L. wp_look. pose proof (input_is s k E N).
    unfold true_consumes. split_and!; intros; done || lia.
  - unfold true_consumes. split_and!; intros; done || lia.
Qed.

#[export] Instance expect_spec k : Spec (expect buf k) (fun _ => k <> TokenKind.Eof)
  (fun s b s' => true_consumes s b s' /\ b = tok_is (curTok s) k).
Proof.
  intros s G N. unfold expect. wp_look. destruct (tok_is (curTok s) k) eqn:E; wp_look;
    (wp_call; [done |]).
  - intros _ s' G' L. wp_look. pose proof (input_is s k E N).
    unfold true_consumes. split_and!; intros; done || lia.
  - intros _ s' G' (L & _). wp_look. unfold true_consumes. split_and!; intros; done || lia.
Qed.

Lemma set_kind_spec k : Spec (set_kind k)
  (fun s => hangs k = false /\ k <> TokenKind.Eof /\ kind (curTok s) <> TokenKind.Eof) keeps.
Proof.
  intros s [G1 G2 G3 G4 G5] (K1 & K2 & K3). cbn. split; [split; cbn; done || congruence |].
  unfold keeps, input, weight, tok_is. cbn [kind curTok nextTok lexer set_tokens].
  by rewrite (proj2 (enum_eqb_neq _ _) K2), (proj2 (enum_eqb_neq _ _) K3).
Qed.

#[export] Instance expectGreater_spec : Spec (expectGreater buf) always keeps.
Proof.
  intros s G _. unfold expectGreater. wp_look.
  assert (D : wp (expect buf TokenKind.Greater) (fun a s' => Good s' /\ keeps s a s') s).
  { wp_call; [done |]. by intros b s' G' [[L _] _]. }
  destruct (kind (curTok s)) eqn:E; try exact D; wp_look;
    first [wp_call; [done |]
          | eapply (wp_spec _ _ _ (S := set_kind_spec _)); [done | by cbv beta; rewrite E | cbv beta]];
    intros ? s' G' L; wp_look; (split; [done |]); unfold keeps in *; lia.
Qed.

#[export] Instance caught_spec c msg z : Spec (caught c msg z) always untouched.
Proof.
  intros s G _. destruct c; cbn [caught]; wp_look; [by split |].
  wp_call; [done |]. intros ? s' G' U. by wp_look.
Qed.

#[export] Instance newline_spec : Spec (newline_here buf) always (fun s _ s' => s' = s).
Proof. intros s G _. unfold newline_here. wp_look. by split. Qed.

#[export] Instance synchronize_spec fuel :
  Spec (synchronize buf fuel) (fun s => input s < fuel) (fun s _ s' => input s' <= input s - 1).
Proof.
  intros s G F. unfold synchronize. wp_look. destruct (tok_is (curTok s) TokenKind.Eof) eqn:E1; wp_look.
  { split; [done |]. unfold tok_is in E1. breflect. rewrite (input_eof s G E1). lia. }
  destruct (tok_is (curTok s) TokenKind.Semicolon); [by apply advance_spec |]. wp_look.
  wp_call; [done |]. intros _ s1 G1 L1.
  apply (wp_loop (fun _ s2 => Good s2 /\ input s2 <= input s - 1) input); [| done | lia].
  intros [] s2 [G2 L2]. wp_look. destruct (tok_is (curTok s2) TokenKind.Eof) eqn:E2; wp_look; [done |].
  input_fact E2. destruct (tok_is (curTok s2) TokenKind.Semicolon); [| case_match]; wp_look;
    [| done |]; (wp_call; [done |]); intros _ s3 G3 L3; wp_look; split_and!; try done; lia.
Qed.

(** ** Loops that consume in every turn *)

Lemma wp_loop_keeps {A B} fuel (body : A -> P (A + B)) a Q s0 :
  Good s0 -> input s0 < fuel ->
  (forall a s, Good s -> input s <= input s0 ->
    wp (body a) (fun r s' => Good s' /\ input s' <= input s
      /\ match r with inl _ => input s' < input s | inr _ => True end) s) ->
  (forall b s', Good s' -> input s' <= input s0 -> Q b s') ->
  wp (loop fuel body a) Q s0.
Proof.
  intros G F Hb K. apply (wp_loop (fun _ s => Good s /\ input s <= input s0) input); [| done..].
  intros a' s [Gs L]. eapply wp_mono; [| by apply Hb].
  intros [a2 | b] s' (G' & L' & M); [split; [split; [done | lia] | done] |]. apply K; [done | lia].
Qed.

Lemma wp_comma {A} fuel (body : A -> P A) a Q s0 :
  Good s0 -> input s0 < fuel ->
  (forall a s, Good s -> input s <= input s0 ->
    wp (body a) (fun _ s' => Good s' /\ input s' <= input s) s) ->
  (forall b s', Good s' -> input s' <= input s0 -> Q b s') ->
  wp (comma_separated buf fuel body a) Q s0.
Proof.
  intros G F Hb K. apply wp_loop_keeps; [done.. | | done].
  intros a' s Gs L. wp_look. eapply wp_mono; [| by apply Hb]. intros a2 s1 [G1 L1]. wp_look.
  wp_call; [done |]. intros b s2 G2 [[L2 M2] _]. wp_look.
  destruct b; split_and!; auto; lia.
Qed.

End Operations.

(** ** Going through a production *)

(** What a test says is kept beside it. *)
Ltac input_note H :=
  try lazymatch type of H with
  | tok_is (curTok _) TokenKind.Eof = false => pose proof (input_not_eof _ H)
  | tok_is (curTok _) _ = true => pose proof (input_is _ _ H ltac:(discriminate))
  | isAny (curTok _) _ = true => pose proof (input_any _ _ H eq_refl)
  | isAny (curTok _) _ = false => pose proof (input_stop _ _ H eq_refl)
  | kind (curTok _) = _ => pose proof (input_pos _ _ H ltac:(discriminate))
  | tok_is _ _ = _ => idtac
  | isStartOfDeclaration _ _ = _ => idtac
  | _ => clear H
  end.

Ltac wp_tidy :=
  repeat match goal with
  | H : _ /\ _ |- _ => destruct H
  | H : ?x = ?x -> _ |- _ => specialize (H eq_refl)
  | H : ?b = true -> _, E : ?b = true |- _ => specialize (H E)
  | H : true = false -> _ |- _ => clear H
  | H : false = true -> _ |- _ => clear H
  | H : Some _ <> None -> _ |- _ => specialize (H ltac:(discriminate))
  | H : None <> None -> _ |- _ => clear H
  | H : ?a <> None -> _, N : ?a <> None |- _ => specialize (H N)
  | H : ?s' = ?s |- _ => first [is_var s'; subst s' | is_var s; subst s]
  end.

Ltac wp_posts H := unfold keeps, type_consumes, some_consumes, true_consumes, untouched in H.

(** The end: a good state and what is left of the input. *)
Ltac wp_done :=
  cbv beta iota; unfold keeps, type_consumes, some_consumes, true_consumes, untouched;
  repeat (match goal with
    | |- context [match ?x with _ => _ end] =>
        lazymatch x with
        | context [match _ with _ => _ end] => fail
        | _ => let E := fresh "E" in destruct x eqn:E; input_note E; cbv beta iota
        end
    end);
  wp_tidy; split_and?; intros; wp_tidy;
  first [assumption | done | lia | congruence].

Ltac wp_side :=
  wp_tidy; split_and?;
  first [exact I | discriminate | reflexivity | assumption | lia | left; lia | right; split; [lia | assumption]].

Ltac wp_step :=
  wp_look;
  lazymatch goal with
  | |- wp (match ?x with _ => _ end) _ _ =>
      let E := fresh "E" in destruct x eqn:E; input_note E; wp_tidy
  | |- wp (loop _ _ _) _ _ => eapply wp_loop_keeps; [eassumption | wp_side | intros ? ? ? ? | intros ? ? ? ?]
  | |- wp (comma_separated _ _ _ _) _ _ =>
      eapply wp_comma; [eassumption | wp_side | intros ? ? ? ? | intros ? ? ? ?]
  | |- wp _ _ _ => let Hpost := fresh "Hpost" in
      wp_call; [wp_side | intros ? ? ? Hpost; wp_posts Hpost; wp_tidy]
  end; cbv beta zeta.

Ltac wp_run := cbv beta zeta; repeat wp_step; wp_look; try wp_done.

(** ** Types are read to an end

    The productions of [ParserType] return, with no more input than before. *)

#[local] Open Scope nat_scope.
#[local] Hint Constants Opaque : typeclass_instances.

Section Types.
Context `{Platform} (buf : buffer) {Src : TokenSource buf}.

Context (n fuel : nat) (rec : Productions).
Context {Htype : Spec (p_type rec) (fun s => input s < n) type_consumes}.
Context {Hexpr : Spec (p_expression rec) (fun s => input s < n) some_consumes}.
Context (Hfuel : n < fuel).

#[local] Instance type_list_spec : Spec (type_list buf fuel rec) (fun s => input s < n) keeps.
Proof. intros s G L. unfold type_list. wp_run. Qed.

#[local] Instance parseClosureType_spec :
  Spec (parseClosureType buf fuel rec) (fun s => input s <= n /\ 0 < input s) (fun s _ s' => input s' < input s).
Proof. intros s G L. unfold parseClosureType. wp_run. Qed.

#[local] Instance decimal_number_spec m1 m2 : Spec (decimal_number buf m1 m2) always keeps.
Proof. intros s G L. unfold decimal_number. wp_run. Qed.

#[local] Instance decimal_type_spec loc : Spec (decimal_type buf loc)
  (fun s => 0 < input s) (fun s _ s' => input s' < input s).
Proof. intros s G L. unfold decimal_type. wp_run. Qed.

#[local] Instance qualified_name_spec name :
  Spec (qualified_name buf fuel name) (fun s => input s <= n) keeps.
Proof. intros s G L. unfold qualified_name. wp_run. Qed.

#[local] Instance generic_arguments_spec :
  Spec (generic_arguments buf fuel rec) (fun s => input s < n) keeps.
Proof. intros s G L. unfold generic_arguments. wp_run. Qed.

#[local] Instance dimensions_spec : Spec (dimensions buf fuel rec)
  (fun s => input s <= n /\ 0 < input s) (fun s _ s' => input s' < input s).
Proof. intros s G L. unfold dimensions.
  apply (wp_loop (fun _ s' => Good s' /\ input s' <= input s /\ 0 < input s') input);
    [| by destruct L | lia].
  intros sizes s1 (G1 & L1 & P1). wp_run.
Qed.

#[local] Instance type_suffixes_spec type :
  Spec (type_suffixes buf fuel rec type) (fun s => input s <= n) keeps.
Proof. intros s G L. unfold type_suffixes. wp_run. Qed.

#[local] Instance prefixed_spec make : Spec (prefixed buf rec make)
  (fun s => input s <= n /\ 0 < input s) (fun s _ s' => input s' < input s).
Proof. intros s G L. unfold prefixed. wp_run. Qed.

#[local] Instance scalar_spec k loc : Spec (scalar buf k loc)
  (fun s => 0 < input s) (fun s _ s' => input s' < input s).
Proof. intros s G L. unfold scalar. wp_run. Qed.

Lemma type_base_spec loc u : Spec (type_base buf fuel rec loc u) (fun s => input s <= n)
  (fun s a s' => input s' <= input s /\ (a <> None -> input s' < input s)
     /\ (base_start (kind (curTok s)) = true -> input s' < input s)).
Proof.
  intros s G L. unfold type_base. wp_look. destruct (kind (curTok s)) eqn:E; input_note E; wp_run.
Qed.

Lemma parseType_spec : Spec (parseType_body buf fuel rec) (fun s => input s <= n) type_consumes.
Proof.
  intros s G L. unfold parseType_body. pose proof type_base_spec as Hbase.
  wp_look. wp_call; [wp_side |]. intros v s1 G1 (C1 & F1 & _).
  wp_look. wp_call; [wp_side |]. intros c s2 G2 (C2 & F2 & _).
  wp_look. wp_call; [wp_side |]. intros u s3 G3 (C3 & F3 & _).
  unfold true_consumes in C1, C2, C3.
  assert (K : type_start (kind (curTok s)) = true -> input s3 < input s
    \/ s3 = s /\ base_start (kind (curTok s)) = true).
  { destruct v; [wp_tidy; lia |]. destruct (F1 eq_refl) as [-> N1].
    destruct c; [wp_tidy; lia |]. destruct (F2 eq_refl) as [-> N2].
    destruct u; [wp_tidy; lia |]. destruct (F3 eq_refl) as [-> N3].
    intros T. right. split; [done |]. unfold type_start in T. cbn [existsb] in T.
    unfold tok_is in *. by rewrite N1, N2, N3 in T. }
  wp_run. unfold type_consumes, some_consumes. split_and!; intros; try done; [lia |].
  destruct K as [? | [-> B]]; [done | lia | auto].
Qed.

End Types.
