(* ===== verification/ParserExprEnds.v ===== *)
(** * The parser: expressions are read to an end

    The productions of [ParserExpr] return, and an expression that is no null pointer has
    consumed input. *)

From S2P Require Import Prelude Diag Tokens Lexer AST ParserCore ParserSource ParserWp.
From S2P Require Import ParserExpr.

#[local] Open Scope nat_scope.
#[local] Hint Constants Opaque : typeclass_instances.

Section Expressions.
Context `{Platform} {buf : buffer} {Src : TokenSource buf}.
Context {n fuel : nat} {rec : Productions}.
Context {Hexpr : Spec (p_expression rec) (fun s => input s < n) some_consumes}.
Context {Hternary : Spec (p_ternary rec) (fun s => input s < n) some_consumes}.
Context {Hpower : Spec (p_power rec) (fun s => input s < n) some_consumes}.
Context {Hprefix : Spec (p_prefix rec) (fun s => input s < n) some_consumes}.
Context {Hprimary : Spec (p_primary rec) (fun s => input s < n) some_consumes}.
Context {Htype : Spec (p_type rec) (fun s => input s < n) type_consumes}.
Context {Hstmt : Spec (p_statement rec) (fun s => input s < n) some_consumes}.
Context (Hfuel : n < fuel).

Ltac run := intros s G L; wp_tidy.

(** ** Literals *)

#[local] Instance out_of_range_spec text : Spec (out_of_range text) always untouched.
Proof. run. unfold out_of_range. wp_run. Qed.

#[local] Instance integer_literal_spec loc :
  Spec (integer_literal buf loc) (fun s => 0 < input s) (fun s _ s' => input s' < input s).
Proof. run. unfold integer_literal. wp_run. Qed.

#[local] Instance float_literal_spec loc :
  Spec (float_literal buf loc) (fun s => 0 < input s) (fun s _ s' => input s' < input s).
Proof. run. unfold float_literal. wp_run. Qed.

#[local] Instance decimal_literal_spec loc :
  Spec (decimal_literal buf loc) (fun s => 0 < input s) (fun s _ s' => input s' < input s).
Proof. run. unfold decimal_literal. wp_run. Qed.

#[local] Instance char_escape_spec text : Spec (char_escape text) always untouched.
Proof. run. unfold char_escape. wp_run. Qed.

#[local] Instance char_literal_spec loc :
  Spec (char_literal buf loc) (fun s => 0 < input s) (fun s _ s' => input s' < input s).
Proof. run. unfold char_literal. wp_run. Qed.

#[local] Instance parseStringLiteral_spec :
  Spec (parseStringLiteral buf) (fun s => 0 < input s) (fun s _ s' => input s' < input s).
Proof. run. unfold parseStringLiteral. wp_run. Qed.

Definition template_tokens : list TokenKind.t :=
  [TokenKind.TemplateString; TokenKind.StringFragment; TokenKind.InterpolationStart].

#[local] Instance template_loop_spec : Spec (template_loop buf fuel rec)
  (fun s => input s <= n /\ isAny (curTok s) template_tokens = true)
  (fun s _ s' => input s' < input s).
Proof.
  run. pose proof (input_any _ _ H1 eq_refl). unfold template_loop. destruct fuel as [| fuel']; [lia |].
  apply existsb_exists in H1 as (k & I & K). cbn [loop].
  destruct I as [<- | [<- | [<- | []]]]; wp_run.
Qed.

(** ** Lists, blocks and lambda expressions *)

#[local] Instance call_arguments_spec :
  Spec (call_arguments buf fuel rec) (fun s => input s < n) keeps.
Proof. run. unfold call_arguments. wp_run. Qed.

#[local] Instance new_arguments_spec :
  Spec (new_arguments buf fuel rec) (fun s => input s < n) keeps.
Proof. run. unfold new_arguments. wp_run. Qed.

#[local] Instance parseArrayLiteral_spec : Spec (parseArrayLiteral buf fuel rec)
  (fun s => input s <= n /\ 0 < input s) (fun s _ s' => input s' < input s).
Proof. run. unfold parseArrayLiteral. wp_run. Qed.

#[local] Instance parseMapLiteral_spec : Spec (parseMapLiteral buf fuel rec)
  (fun s => input s <= n /\ 0 < input s) (fun s _ s' => input s' < input s).
Proof. run. unfold parseMapLiteral. wp_run. Qed.

Lemma statements_until_spec stops : Spec (statements_until buf fuel rec stops)
  (fun s => input s < n /\ existsb (enum_eqb TokenKind.Eof) stops = true) keeps.
Proof.
  intros s G [L S]. unfold statements_until. wp_step; [| wp_run].
  wp_look. destruct (isAny (curTok s0) stops) eqn:E; [wp_run |].
  pose proof (input_stop _ _ E S). wp_run.
Qed.
#[local] Existing Instance statements_until_spec.

Lemma parseBlock_spec : Spec (parseBlock buf fuel rec)
  (fun s => input s < n \/ input s <= n /\ tok_is (curTok s) TokenKind.LBrace = true)
  (fun s _ s' => input s' <= input s
     /\ (tok_is (curTok s) TokenKind.LBrace = true -> input s' < input s)).
Proof.
  run. unfold parseBlock. wp_look. wp_call; [wp_side |]. intros b s1 G1 [[L1 C1] ->].
  assert (input s1 < n) by (destruct L as [| [L E]]; [lia | specialize (C1 E); lia]). wp_run.
Qed.
#[local] Existing Instance parseBlock_spec.

#[local] Instance parseLambdaBody_spec params mode :
  Spec (parseLambdaBody buf fuel rec params mode) (fun s => input s < n) keeps.
Proof. run. unfold parseLambdaBody. wp_run. Qed.

#[local] Instance lambda_params_spec :
  Spec (lambda_params buf fuel rec) (fun s => input s < n) keeps.
Proof. run. unfold lambda_params. wp_run. Qed.

#[local] Instance parenthesized_spec loc capture : Spec (parenthesized buf fuel rec loc capture)
  (fun s => input s <= n /\ 0 < input s) (fun s _ s' => input s' < input s).
Proof. run. unfold parenthesized. wp_run. Qed.

(** ** [new], [input] and [asm] *)

#[local] Instance parseNewExpr_spec : Spec (parseNewExpr buf fuel rec)
  (fun s => input s <= n /\ 0 < input s) (fun s _ s' => input s' < input s).
Proof. run. unfold parseNewExpr. wp_run. Qed.

#[local] Instance parseInputExpr_spec : Spec (parseInputExpr buf rec)
  (fun s => input s <= n /\ 0 < input s) (fun s _ s' => input s' < input s).
Proof. run. unfold parseInputExpr. wp_run. Qed.

#[local] Instance raw_string_spec msg : Spec (raw_string buf msg) always keeps.
Proof. run. unfold raw_string. wp_run. Qed.

#[local] Instance asm_clobbers_spec a :
  Spec (asm_clobbers buf fuel a) (fun s => input s < n) keeps.
Proof. run. unfold asm_clobbers. wp_run. Qed.

#[local] Instance asm_operands_spec k a :
  Spec (asm_operands buf fuel rec k a) (fun s => input s < n) keeps.
Proof. run. unfold asm_operands. wp_run. Qed.

#[local] Instance asm_directives_spec :
  Spec (asm_directives buf fuel rec) (fun s => input s < n) keeps.
Proof. run. unfold asm_directives. wp_run. Qed.

#[local] Instance parseAsmExpr_spec : Spec (parseAsmExpr buf fuel rec)
  (fun s => input s <= n /\ 0 < input s) (fun s _ s' => input s' < input s).
Proof. run. unfold parseAsmExpr. wp_run. Qed.

(** ** Primary expressions *)

#[local] Instance capture_modifier_spec : Spec (capture_modifier buf) always keeps.
Proof. run. unfold capture_modifier. wp_run. Qed.

#[local] Instance async_lambda_spec : Spec (async_lambda buf rec)
  (fun s => input s <= n /\ 0 < input s) (fun s _ s' => input s' < input s).
Proof. run. unfold async_lambda. wp_run. Qed.

#[local] Instance cast_expression_spec make : Spec (cast_expression buf rec make)
  (fun s => input s <= n /\ 0 < input s) (fun s _ s' => input s' < input s).
Proof. run. unfold cast_expression. wp_run. Qed.

#[local] Instance single_spec e : Spec (single buf e)
  (fun s => 0 < input s) (fun s _ s' => input s' < input s).
Proof. run. unfold single. wp_run. Qed.

#[local] Instance parseTemplateString_spec : Spec (parseTemplateString buf fuel rec)
  (fun s => input s <= n /\ isAny (curTok s) template_tokens = true)
  (fun s _ s' => input s' < input s).
Proof. run. pose proof (input_any _ _ H1 eq_refl). unfold parseTemplateString. wp_run. Qed.

#[local] Instance primary_switch_spec loc capture :
  Spec (primary_switch buf fuel rec loc capture) (fun s => input s <= n) some_consumes.
Proof.
  run. unfold primary_switch. wp_look. destruct (isAny _ _) eqn:E; input_note E; [wp_run |].
  destruct (kind (curTok s)) eqn:K; input_note K;
    assert (T : existsb (enum_eqb (kind (curTok s))) template_tokens = isAny (curTok s) template_tokens)
      by done;
    rewrite K in T; cbn in T; symmetry in T; wp_run.
Qed.

Lemma parsePrimary_spec : Spec (parsePrimary buf fuel rec) (fun s => input s <= n) some_consumes.
Proof. run. unfold parsePrimary. wp_run. Qed.
#[local] Existing Instance parsePrimary_spec.

(** ** Operators *)

#[local] Instance postfix_step_spec e : Spec (postfix_step buf fuel rec e) (fun s => input s <= n)
  (fun s r s' => input s' <= input s /\ match r with inl _ => input s' < input s | inr _ => True end).
Proof. run. unfold postfix_step. wp_run. Qed.

#[local] Instance parsePostfix_spec :
  Spec (parsePostfix buf fuel rec) (fun s => input s <= n) some_consumes.
Proof. run. unfold parsePostfix. wp_run. Qed.

Lemma parsePrefix_spec : Spec (parsePrefix buf fuel rec) (fun s => input s <= n) some_consumes.
Proof. run. unfold parsePrefix. wp_run. Qed.
#[local] Existing Instance parsePrefix_spec.

Lemma parsePower_spec : Spec (parsePower buf fuel rec) (fun s => input s <= n) some_consumes.
Proof. run. unfold parsePower. wp_run. Qed.
#[local] Existing Instance parsePower_spec.

#[local] Instance no_guard_spec : Spec no_guard always (fun s _ s' => s' = s).
Proof. run. unfold no_guard. wp_run. Qed.

#[local] Instance star_guard_spec : Spec (star_guard buf) always (fun s _ s' => s' = s).
Proof. run. unfold star_guard. wp_run. Qed.

(** Each turn of a level reads an operator. *)
Lemma binary_level_spec ops guard operand :
  existsb (enum_eqb TokenKind.Eof) ops = false ->
  Spec guard always (fun s _ s' => s' = s) ->
  Spec operand (fun s => input s <= n) some_consumes ->
  Spec (binary_level buf fuel ops guard operand) (fun s => input s <= n) some_consumes.
Proof.
  intros Hops Hguard Hop s G L. unfold binary_level. wp_look. wp_call; [done |].
  intros lhs s1 G1 [L1 C1].
  apply (wp_loop (fun lhs s2 => Good s2 /\ input s2 <= input s /\ (lhs <> None -> input s2 < input s))
           input); [| done | lia].
  intros lhs2 s2 (G2 & L2 & C2). wp_look. destruct (isAny (curTok s2) ops) eqn:E; [| by wp_look].
  pose proof (input_any _ _ E Hops). wp_run.
Qed.

Ltac level def :=
  unfold def; apply binary_level_spec; [reflexivity | typeclasses eauto..].

#[local] Instance parseMultiplicative_spec :
  Spec (parseMultiplicative buf fuel rec) (fun s => input s <= n) some_consumes.
Proof. level @parseMultiplicative. Qed.

#[local] Instance parseAdditive_spec :
  Spec (parseAdditive buf fuel rec) (fun s => input s <= n) some_consumes.
Proof. level @parseAdditive. Qed.

#[local] Instance parseShift_spec :
  Spec (parseShift buf fuel rec) (fun s => input s <= n) some_consumes.
Proof. level @parseShift. Qed.

#[local] Instance parseNullCoalescing_spec :
  Spec (parseNullCoalescing buf fuel rec) (fun s => input s <= n) some_consumes.
Proof. level @parseNullCoalescing. Qed.

#[local] Instance parsePipe_spec :
  Spec (parsePipe buf fuel rec) (fun s => input s <= n) some_consumes.
Proof. run. unfold parsePipe. wp_run. Qed.

#[local] Instance parseRelational_spec :
  Spec (parseRelational buf fuel rec) (fun s => input s <= n) some_consumes.
Proof. level @parseRelational. Qed.

#[local] Instance parseEquality_spec :
  Spec (parseEquality buf fuel rec) (fun s => input s <= n) some_consumes.
Proof. level @parseEquality. Qed.

#[local] Instance parseBitwiseAnd_spec :
  Spec (parseBitwiseAnd buf fuel rec) (fun s => input s <= n) some_consumes.
Proof. level @parseBitwiseAnd. Qed.

#[local] Instance parseBitwiseXor_spec :
  Spec (parseBitwiseXor buf fuel rec) (fun s => input s <= n) some_consumes.
Proof. level @parseBitwiseXor. Qed.

#[local] Instance parseBitwiseOr_spec :
  Spec (parseBitwiseOr buf fuel rec) (fun s => input s <= n) some_consumes.
Proof. level @parseBitwiseOr. Qed.

#[local] Instance parseLogicalAnd_spec :
  Spec (parseLogicalAnd buf fuel rec) (fun s => input s <= n) some_consumes.
Proof. level @parseLogicalAnd. Qed.

#[local] Instance parseLogicalOr_spec :
  Spec (parseLogicalOr buf fuel rec) (fun s => input s <= n) some_consumes.
Proof. level @parseLogicalOr. Qed.

Lemma parseTernary_spec : Spec (parseTernary buf fuel rec) (fun s => input s <= n) some_consumes.
Proof. run. unfold parseTernary. wp_run. Qed.
#[local] Existing Instance parseTernary_spec.

Lemma parseAssignment_spec :
  Spec (parseAssignment buf fuel rec) (fun s => input s <= n) some_consumes.
Proof. run. unfold parseAssignment. wp_run. Qed.

End Expressions.
