(* ===== verification/ParserDeclEnds.v ===== *)
(** * The parser: declarations are read to an end

    The productions of [ParserDecl] return, and a declaration that its first token announces
    has consumed input. *)

From S2P Require Import Prelude Diag Tokens Lexer AST ASTClone ParserCore ParserSource ParserWp.
From S2P Require Import ParserExpr ParserDecl ParserExprEnds.

#[local] Open Scope nat_scope.
#[local] Hint Constants Opaque : typeclass_instances.

(** The tokens a declaration starts with, but for [enum]: after its modifiers and before. *)
Definition rest_start (k : TokenKind.t) : bool :=
  existsb (enum_eqb k)
    [TokenKind.KwImport; TokenKind.KwFrom; TokenKind.KwMacro; TokenKind.KwGeneric;
     TokenKind.KwClass; TokenKind.KwStruct; TokenKind.KwRef; TokenKind.KwUnion]
  || type_start k.

Definition decl_start (k : TokenKind.t) : bool :=
  existsb (enum_eqb k) declaration_modifiers
  || enum_eqb k TokenKind.KwUsing || rest_start k.

Lemma start_of_declaration `{Platform} buf s :
  isStartOfDeclaration buf s = true -> hangs (kind (curTok s)) = false ->
  decl_start (kind (curTok s)) = true.
Proof.
  unfold isStartOfDeclaration, isAny, tok_is. by destruct (kind (curTok s)).
Qed.

Section Declarations.
Context `{Platform} {buf : buffer} {Src : TokenSource buf}.
Context {n fuel : nat} {rec : Productions}.
Context {Hexpr : Spec (p_expression rec) (fun s => input s <= n) some_consumes}.
Context {Htype : Spec (p_type rec) (fun s => input s <= n) type_consumes}.
Context {Hstmt : Spec (p_statement rec) (fun s => input s < n) some_consumes}.
Context {Hdecl : Spec (p_topLevelDecls rec) (fun s => input s < n) keeps}.
Context (Hfuel : n < fuel).

Ltac run := intros s G L; wp_tidy.

#[local] Instance block_spec : Spec (parseBlock buf fuel rec)
  (fun s => input s < n \/ input s <= n /\ tok_is (curTok s) TokenKind.LBrace = true)
  (fun s _ s' => input s' <= input s
     /\ (tok_is (curTok s) TokenKind.LBrace = true -> input s' < input s)) := parseBlock_spec Hfuel.

#[local] Instance stmts_spec stops : Spec (statements_until buf fuel rec stops)
  (fun s => input s < n /\ existsb (enum_eqb TokenKind.Eof) stops = true) keeps :=
  statements_until_spec Hfuel stops.

(** ** Names and modifiers *)

#[local] Instance word_or_spec message : Spec (word_or buf message) always some_consumes.
Proof. run. unfold word_or. wp_run. Qed.

#[local] Instance declared_name_spec : Spec (declared_name buf) always keeps.
Proof. run. unfold declared_name. wp_run. Qed.

#[local] Instance modifier_align_spec m : Spec (modifier_align buf m) always keeps.
Proof. run. unfold modifier_align. wp_run. Qed.

#[local] Instance modifier_section_spec m : Spec (modifier_section buf m) always keeps.
Proof. run. unfold modifier_section. wp_run. Qed.

#[local] Instance modifier_extern_spec m : Spec (modifier_extern buf m) always keeps.
Proof. run. unfold modifier_extern. wp_run. Qed.

(** No modifier is there, or input has been consumed. *)
#[local] Instance modifiers_spec allowed : Spec (modifiers buf fuel allowed)
  (fun s => input s <= n /\ existsb (enum_eqb TokenKind.Eof) allowed = false)
  (fun s _ s' => s' = s /\ isAny (curTok s) allowed = false \/ input s' < input s).
Proof.
  run. unfold modifiers.
  apply (wp_loop (fun _ s2 => Good s2 /\ (s2 = s \/ input s2 < input s)) input); [| by auto | lia].
  intros m s2 [G2 D]. wp_look. destruct (isAny (curTok s2) allowed) eqn:E.
  2: { wp_look. split; [done |]. destruct D as [-> | D]; auto. }
  pose proof (input_any _ _ E H1). assert (input s2 <= input s) by (destruct D as [-> |]; lia).
  wp_look. wp_call; [done |]. intros _ s3 G3 L3.
  destruct (kind (curTok s2)); wp_run.
Qed.

(** Either the modifiers are none or they consumed. *)
Ltac after_modifiers := wp_step; wp_tidy;
  match goal with D : _ \/ _ |- _ => destruct D as [[-> ?] |] end.

(** ** Imports *)

#[local] Instance parseImportSymbolList_spec :
  Spec (parseImportSymbolList buf fuel) (fun s => input s <= n) keeps.
Proof. run. unfold parseImportSymbolList. wp_run. Qed.

#[local] Instance module_name_spec message : Spec (module_name buf message) always keeps.
Proof. run. unfold module_name. wp_run. Qed.

#[local] Instance import_from_spec : Spec (import_from buf fuel) (fun s => input s <= n) keeps.
Proof. run. unfold import_from. wp_run. Qed.

#[local] Instance import_plain_spec : Spec (import_plain buf fuel) (fun s => input s <= n) keeps.
Proof. run. unfold import_plain. wp_run. Qed.

#[local] Instance parseImportDecl_spec : Spec (parseImportDecl buf fuel)
  (fun s => input s <= n /\ isAny (curTok s) [TokenKind.KwImport; TokenKind.KwFrom] = true)
  (fun s _ s' => input s' < input s).
Proof.
  run. unfold parseImportDecl. apply existsb_exists in H1 as (k & I & K).
  destruct I as [<- | [<- | []]]; pose proof (input_is _ _ K ltac:(discriminate)); wp_run. 
Qed.

(** ** Functions and variables *)

#[local] Instance function_params_spec :
  Spec (function_params buf fuel rec) (fun s => input s <= n) keeps.
Proof. run. unfold function_params. wp_run. Qed.

#[local] Instance method_qualifiers_spec :
  Spec (method_qualifiers buf fuel) (fun s => input s <= n) keeps.
Proof. run. unfold method_qualifiers. wp_run. Qed.

#[local] Instance parseFunctionRest_spec type name a st w vis :
  Spec (parseFunctionRest buf fuel rec type name a st w vis) (fun s => input s < n) keeps.
Proof. run. unfold parseFunctionRest. wp_run. Qed.

#[local] Instance bitfield_width_spec : Spec (bitfield_width buf) always keeps.
Proof. run. unfold bitfield_width. wp_run. Qed.

#[local] Instance parseVariableRest_spec type name c st sh vis :
  Spec (parseVariableRest buf rec type name c st sh vis) (fun s => input s <= n) keeps.
Proof. run. unfold parseVariableRest. wp_run. Qed.

#[local] Instance declaration_end_spec : Spec (declaration_end buf) always keeps.
Proof. run. unfold declaration_end. wp_run. Qed.

Lemma parseVariableDecls_spec : Spec (parseVariableDecls buf fuel rec) (fun s => input s <= n)
  (fun s _ s' => input s' <= input s /\ (type_start (kind (curTok s)) = true -> input s' < input s)).
Proof.
  run. unfold parseVariableDecls. after_modifiers; wp_run.
Qed.

#[local] Instance weak_reference_spec type : Spec (weak_reference type) always (fun s _ s' => s' = s).
Proof. run. unfold weak_reference. destruct left_to_right eqn:E; [by apply wp_undefined | wp_run]. Qed.

(** ** Classes *)

#[local] Instance parent_names_spec stop :
  Spec (parent_names buf fuel stop) (fun s => input s <= n) keeps.
Proof. run. unfold parent_names. wp_run. Qed.

#[local] Instance special_member_spec vis : Spec (special_member buf fuel rec vis)
  (fun s => input s <= n /\ isAny (curTok s) [TokenKind.KwConstructor; TokenKind.KwDestructor] = true)
  (fun s _ s' => input s' < input s).
Proof. run. pose proof (input_any _ _ H1 eq_refl). unfold special_member. wp_run. Qed.

#[local] Instance members_until_brace_spec member :
  Spec member (fun s => input s <= n) some_consumes ->
  Spec (members_until_brace buf fuel member) (fun s => input s <= n) keeps.
Proof. intros Hmember. run. unfold members_until_brace. wp_run. Qed.

#[local] Instance generic_member_spec :
  Spec (generic_member buf fuel rec) (fun s => input s <= n) some_consumes.
Proof. run. unfold generic_member. after_modifiers; wp_run. Qed.

#[local] Instance type_params_spec : Spec (type_params buf fuel) (fun s => input s <= n) keeps.
Proof. run. unfold type_params. wp_run. Qed.

#[local] Instance generic_class_spec name params loc :
  Spec (generic_class buf fuel rec name params loc) (fun s => input s <= n) keeps.
Proof. run. unfold generic_class. wp_run. Qed.

#[local] Instance parseGenericDecl_spec : Spec (parseGenericDecl buf fuel rec)
  (fun s => input s <= n /\ tok_is (curTok s) TokenKind.KwGeneric = true)
  (fun s _ s' => input s' < input s).
Proof. run. pose proof (input_is _ _ H1 ltac:(discriminate)). unfold parseGenericDecl. wp_run. Qed.

#[local] Instance operator_name_spec : Spec (operator_name buf) always keeps.
Proof.
  run. unfold operator_name. wp_look. destruct (assoc_kind _ _) as [x |]; wp_run.
Qed.

#[local] Instance class_field_spec m type name base :
  Spec (class_field buf rec m type name base) (fun s => input s <= n) keeps.
Proof. run. unfold class_field. wp_run. Qed.

#[local] Instance class_fields_spec m type name :
  Spec (class_fields buf fuel rec m type name) (fun s => input s <= n) keeps.
Proof. run. unfold class_fields. wp_run. Qed.

#[local] Instance class_member_spec :
  Spec (class_member buf fuel rec) (fun s => input s <= n) some_consumes.
Proof. run. unfold class_member. after_modifiers; wp_run. Qed.

#[local] Instance class_body_spec name parents isRef aggKind loc :
  Spec (class_body buf fuel rec name parents isRef aggKind loc) (fun s => input s <= n) keeps.
Proof. run. unfold class_body. wp_run. Qed.

#[local] Instance parseClassDecl_spec : Spec (parseClassDecl buf fuel rec)
  (fun s => input s <= n /\ isAny (curTok s)
     [TokenKind.KwClass; TokenKind.KwStruct; TokenKind.KwRef; TokenKind.KwUnion] = true)
  (fun s _ s' => input s' < input s).
Proof.
  run. pose proof (input_any _ _ H1 eq_refl). unfold parseClassDecl. wp_step.
  assert (isAny (curTok s') [TokenKind.KwClass; TokenKind.KwStruct; TokenKind.KwUnion] = true
    \/ input s' < input s) as D.
  { destruct a; [right; auto |]. left. wp_tidy. unfold isAny, existsb in *.
    destruct (tok_is _ _); [done |]. destruct (tok_is _ _); [done |]. by rewrite H8 in H1. }
  destruct D; wp_run.
Qed.

(** ** Macros *)

#[local] Instance skip_until_spec stops : Spec (skip_until buf fuel stops)
  (fun s => input s <= n /\ existsb (enum_eqb TokenKind.Eof) stops = true) keeps.
Proof.
  run. unfold skip_until. wp_step; [| wp_run]. wp_look.
  destruct (isAny (curTok s0) stops) eqn:E; [wp_run |].
  pose proof (input_stop _ _ E H1). wp_run.
Qed.

#[local] Instance when_skip_spec c stops : Spec (when c (skip_until buf fuel stops))
  (fun s => input s <= n /\ existsb (enum_eqb TokenKind.Eof) stops = true) keeps.
Proof. run. destruct c; cbn [when]; wp_run. Qed.

#[local] Instance macro_params_spec : Spec (macro_params buf fuel) (fun s => input s <= n) keeps.
Proof. run. unfold macro_params. wp_run. Qed.

#[local] Instance macro_body_spec loc :
  Spec (macro_body buf fuel rec loc) (fun s => input s <= n) keeps.
Proof. run. unfold macro_body. wp_run. Qed.

#[local] Instance parseMacroDecl_spec : Spec (parseMacroDecl buf fuel rec)
  (fun s => input s <= n /\ tok_is (curTok s) TokenKind.KwMacro = true)
  (fun s _ s' => input s' < input s).
Proof. run. pose proof (input_is _ _ H1 ltac:(discriminate)). unfold parseMacroDecl. wp_run. Qed.

(** ** Top-level declarations *)

#[local] Instance using_decl_spec : Spec (using_decl buf rec) (fun s => input s <= n) keeps.
Proof. run. unfold using_decl. wp_run. Qed.

#[local] Instance toplevel_variables_spec m type name :
  Spec (toplevel_variables buf fuel rec m type name) (fun s => input s <= n) keeps.
Proof. run. unfold toplevel_variables. wp_run. Qed.

#[local] Instance typed_decls_spec m : Spec (typed_decls buf fuel rec m) (fun s => input s <= n)
  (fun s _ s' => input s' <= input s /\ (type_start (kind (curTok s)) = true -> input s' < input s)).
Proof. run. unfold typed_decls. wp_run. Qed.

(** What the tests of a declaration say when its first token is known. *)
Lemma isAny_kind t k ks : kind t = k -> isAny t ks = existsb (enum_eqb k) ks.
Proof. by intros <-. Qed.

(** Each first token leads to a production that consumes it. *)
Lemma modified_decls_spec m : Spec (modified_decls buf fuel rec m) (fun s => input s <= n)
  (fun s _ s' => input s' <= input s /\ (rest_start (kind (curTok s)) = true -> input s' < input s)).
Proof.
  run. unfold modified_decls. wp_look. pose proof (g_cur _ G) as K.
  pose proof (fun ks => isAny_kind (curTok s) _ ks eq_refl) as A.
  destruct (kind (curTok s)) eqn:E; input_note E; try discriminate K; wp_look;
    try (wp_call; [split; [assumption | first [by unfold tok_is; rewrite E | by rewrite A]] |];
         intros ? ? ? ?; wp_run);
    (wp_call; [done |]; intros ? ? ? [? C]; rewrite E in C; auto).
Qed.
#[local] Existing Instance modified_decls_spec.

Lemma parseTopLevelDecls_spec : Spec (parseTopLevelDecls buf fuel rec) (fun s => input s <= n)
  (fun s _ s' => input s' <= input s /\ (decl_start (kind (curTok s)) = true -> input s' < input s)).
Proof.
  run. unfold parseTopLevelDecls. after_modifiers; [| wp_run].
  wp_step. wp_step; [wp_run |]. wp_tidy. wp_step. wp_tidy.
  split; [done |]. split; [lia |]. intros D. apply H6.
  unfold decl_start in D. rewrite <- (isAny_kind _ _ declaration_modifiers eq_refl), H1 in D.
  unfold tok_is in H7. by rewrite H7 in D.
Qed.

End Declarations.
