(* ===== verification/ParserEnds.v ===== *)
(** * The parser reads a file to its end

    The productions of statements, and then all of them tied together: with enough fuel for the tokens that are left every one of
    them returns, and [parse_source] reads the whole file. *)

From S2P Require Import Prelude Diag Tokens Lexer LexerProps AST ASTClone ParserCore ParserType ParserExpr.
From S2P Require Import ParserDecl ParserStmt Parser ParserSource ParserWp ParserExprEnds ParserDeclEnds.

(** ** Statements are read to an end

    The productions of [ParserStmt] return, and a statement that is no null pointer has
    consumed input. *)

#[local] Open Scope nat_scope.
#[local] Hint Constants Opaque : typeclass_instances.

Section Statements.
Context `{Platform} {buf : buffer} {Src : TokenSource buf}.
Context {n fuel : nat} {rec : Productions}.
Context {Hexpr : Spec (p_expression rec) (fun s => input s <= n) some_consumes}.
Context {Htype : Spec (p_type rec) (fun s => input s <= n) type_consumes}.
Context {Hdecl : Spec (p_topLevelDecls rec) (fun s => input s <= n)
  (fun s _ s' => input s' <= input s /\ (decl_start (kind (curTok s)) = true -> input s' < input s))}.
Context {Hstmt : Spec (p_statement rec) (fun s => input s < n) some_consumes}.
Context (Hfuel : n < fuel).

Ltac run := intros s G L; wp_tidy.

#[local] Instance block_spec : Spec (parseBlock buf fuel rec)
  (fun s => input s < n \/ input s <= n /\ tok_is (curTok s) TokenKind.LBrace = true)
  (fun s _ s' => input s' <= input s
     /\ (tok_is (curTok s) TokenKind.LBrace = true -> input s' < input s)) := parseBlock_spec Hfuel.

#[local] Instance stmts_spec stops : Spec (statements_until buf fuel rec stops)
  (fun s => input s < n /\ existsb (enum_eqb TokenKind.Eof) stops = true) keeps :=
  statements_until_spec Hfuel stops.

#[local] Instance variables_spec : Spec (parseVariableDecls buf fuel rec) (fun s => input s <= n)
  (fun s _ s' => input s' <= input s /\ (type_start (kind (curTok s)) = true -> input s' < input s)) :=
  parseVariableDecls_spec Hfuel.

#[local] Instance word_or_spec message : Spec (word_or buf message) always some_consumes.
Proof. run. unfold word_or. wp_run. Qed.

(** ** Conditions and loops *)

#[local] Instance condition_spec : Spec (condition buf rec) (fun s => input s <= n) keeps.
Proof. run. unfold condition. wp_run. Qed.

#[local] Instance add_depth_spec d :
  Spec (add_depth d) always (fun s _ s' => input s' = input s).
Proof. intros s [] _. by repeat split. Qed.

#[local] Instance loop_body_spec :
  Spec (in_loop (p_statement rec)) (fun s => input s < n) keeps.
Proof. run. unfold in_loop. wp_run. Qed.

#[local] Instance parseIfStmt_spec : Spec (parseIfStmt buf rec)
  (fun s => input s <= n /\ 0 < input s) (fun s _ s' => input s' < input s).
Proof. run. unfold parseIfStmt. wp_run. Qed.

#[local] Instance parseWhileStmt_spec : Spec (parseWhileStmt buf rec)
  (fun s => input s <= n /\ 0 < input s) (fun s _ s' => input s' < input s).
Proof. run. unfold parseWhileStmt. wp_run. Qed.

#[local] Instance parseDoWhileStmt_spec : Spec (parseDoWhileStmt buf rec)
  (fun s => input s <= n /\ 0 < input s) (fun s _ s' => input s' < input s).
Proof. run. unfold parseDoWhileStmt. wp_run. Qed.

#[local] Instance for_in_spec var index loc :
  Spec (for_in buf rec var index loc) (fun s => input s < n) keeps.
Proof. run. unfold for_in. wp_run. Qed.

#[local] Instance untyped_for_in_spec loc :
  Spec (untyped_for_in buf rec loc) (fun s => input s < n) keeps.
Proof. run. unfold untyped_for_in. wp_run. Qed.

#[local] Instance standard_for_spec init loc :
  Spec (standard_for buf rec init loc) (fun s => input s < n) keeps.
Proof. run. unfold standard_for. wp_run. Qed.

#[local] Instance for_decls_spec loc :
  Spec (for_decls buf fuel rec loc) (fun s => input s < n) keeps.
Proof.
  run. unfold for_decls. wp_look. wp_call; [wp_side |]. intros [| d decls] s1 G1 L1; [| wp_run].
  cbn [List.length Nat.eqb orb]. wp_look. unfold keeps in *. wp_run.
Qed.

#[local] Instance for_expression_spec loc :
  Spec (for_expression buf rec loc) (fun s => input s < n) keeps.
Proof. run. unfold for_expression. wp_run. Qed.

#[local] Instance parseForStmt_spec : Spec (parseForStmt buf fuel rec)
  (fun s => input s <= n /\ 0 < input s) (fun s _ s' => input s' < input s).
Proof. run. unfold parseForStmt. wp_run. Qed.

(** ** Jumps and blocks *)

#[local] Instance parseReturnStmt_spec : Spec (parseReturnStmt buf rec)
  (fun s => input s <= n /\ 0 < input s) (fun s _ s' => input s' < input s).
Proof. run. unfold parseReturnStmt. wp_run. Qed.

#[local] Instance jump_stmt_spec message make : Spec (jump_stmt buf message make)
  (fun s => 0 < input s) (fun s _ s' => input s' < input s).
Proof. run. unfold jump_stmt. wp_run. Qed.

#[local] Instance parseBreakStmt_spec : Spec (parseBreakStmt buf)
  (fun s => 0 < input s) (fun s _ s' => input s' < input s) := jump_stmt_spec _ _.

#[local] Instance parseContinueStmt_spec : Spec (parseContinueStmt buf)
  (fun s => 0 < input s) (fun s _ s' => input s' < input s) := jump_stmt_spec _ _.

#[local] Instance parseDeferStmt_spec : Spec (parseDeferStmt buf rec)
  (fun s => input s <= n /\ 0 < input s) (fun s _ s' => input s' < input s).
Proof. run. unfold parseDeferStmt. wp_run. Qed.

#[local] Instance parseThrowStmt_spec : Spec (parseThrowStmt buf rec)
  (fun s => input s <= n /\ 0 < input s) (fun s _ s' => input s' < input s).
Proof. run. unfold parseThrowStmt. wp_run. Qed.

#[local] Instance catch_variable_spec type : Spec (catch_variable buf type) always keeps.
Proof. run. unfold catch_variable. wp_run. Qed.

#[local] Instance catch_clauses_spec :
  Spec (catch_clauses buf fuel rec) (fun s => input s < n) keeps.
Proof. run. unfold catch_clauses. wp_run. Qed.

#[local] Instance parseTryCatchStmt_spec : Spec (parseTryCatchStmt buf fuel rec)
  (fun s => input s <= n /\ 0 < input s) (fun s _ s' => input s' < input s).
Proof. run. unfold parseTryCatchStmt. wp_run. Qed.

#[local] Instance parseUnsafeBlock_spec : Spec (parseUnsafeBlock buf fuel rec)
  (fun s => input s <= n /\ 0 < input s) (fun s _ s' => input s' < input s).
Proof. run. unfold parseUnsafeBlock. wp_run. Qed.

#[local] Instance parseLockStmt_spec : Spec (parseLockStmt buf fuel rec)
  (fun s => input s <= n /\ 0 < input s) (fun s _ s' => input s' < input s).
Proof. run. unfold parseLockStmt. wp_run. Qed.

(** ** Statements *)

#[local] Instance expression_statement_spec :
  Spec (expression_statement buf rec) (fun s => input s <= n) some_consumes.
Proof. run. unfold expression_statement. wp_run. Qed.

(** A token that announces a declaration. *)
#[local] Instance declared_spec : Spec (declared (p_topLevelDecls rec))
  (fun s => input s <= n /\ isStartOfDeclaration buf s = true) (fun s _ s' => input s' < input s).
Proof.
  run. unfold declared. pose proof (start_of_declaration _ _ H1 (g_cur _ G)). wp_run.
Qed.

#[local] Instance declared_variables_spec : Spec (declared (parseVariableDecls buf fuel rec))
  (fun s => input s <= n /\ kind (curTok s) = TokenKind.Identifier) (fun s _ s' => input s' < input s).
Proof.
  run. unfold declared.
  assert (type_start (kind (curTok s)) = true) by (by rewrite H1). wp_run.
Qed.

#[local] Instance default_statement_spec :
  Spec (default_statement buf fuel rec) (fun s => input s <= n) some_consumes.
Proof.
  run. unfold default_statement. wp_step; [wp_run |]. wp_look.
  destruct (tok_is (curTok s) TokenKind.Identifier) eqn:I; cbn [andb]; [| wp_run].
  unfold tok_is in I. breflect. wp_run.
Qed.

#[local] Instance lock_or_declaration_spec lock : Spec (lock_or_declaration buf fuel rec lock)
  (fun s => input s <= n /\ 0 < input s) some_consumes.
Proof. run. unfold lock_or_declaration. wp_run. Qed.

Lemma parseStatement_spec :
  Spec (parseStatement_body buf fuel rec) (fun s => input s <= n) some_consumes.
Proof.
  run. unfold parseStatement_body. wp_look. pose proof (g_cur _ G) as K.
  destruct (kind (curTok s)) eqn:E; input_note E; try discriminate K;
    try assert (tok_is (curTok s) TokenKind.LBrace = true) by (by unfold tok_is; rewrite E);
    wp_run.
Qed.

End Statements.

(** ** The productions together *)

Section Knot.
Context `{Platform} {buf : buffer} {Src : TokenSource buf}.

Lemma spec_weaken {A} (p : P A) (pre pre' : Parser -> Prop) post post' :
  (forall s, pre' s -> pre s) -> (forall s a s', post s a s' -> post' s a s') ->
  Spec p pre post -> Spec p pre' post'.
Proof.
  intros K1 K2 S s G L. eapply wp_mono; [| by apply S, K1]. intros a s' [G' P']. auto.
Qed.

Lemma spec_le {A} (p : P A) (pre : Parser -> Prop) post :
  (forall s, pre s -> Spec p (fun s' => input s' <= input s) post) -> Spec p pre post.
Proof. intros K s G L. by apply (K s L). Qed.

(** What the calls of depth [fuel] guarantee: an expression and a type are the cheapest, a
    declaration may begin with a type and a statement may begin with a declaration. *)
Record Ends (fuel : nat) (r : Productions) : Prop := {
  e_expression : Spec (p_expression r) (fun s => 3 * input s + 2 <= fuel) some_consumes;
  e_ternary : Spec (p_ternary r) (fun s => 3 * input s + 2 <= fuel) some_consumes;
  e_power : Spec (p_power r) (fun s => 3 * input s + 2 <= fuel) some_consumes;
  e_prefix : Spec (p_prefix r) (fun s => 3 * input s + 2 <= fuel) some_consumes;
  e_primary : Spec (p_primary r) (fun s => 3 * input s + 2 <= fuel) some_consumes;
  e_type : Spec (p_type r) (fun s => 3 * input s + 2 <= fuel) type_consumes;
  e_decl : Spec (p_topLevelDecls r) (fun s => 3 * input s + 3 <= fuel)
    (fun s _ s' => input s' <= input s /\ (decl_start (kind (curTok s)) = true -> input s' < input s));
  e_stmt : Spec (p_statement r) (fun s => 3 * input s + 4 <= fuel) some_consumes;
}.

(** Weakens what the inner calls guarantee to what a production asks of them. *)
Ltac inner I :=
  match goal with
  | |- Spec (p_expression _) _ _ => eapply spec_weaken; [| | exact (e_expression _ _ I)]
  | |- Spec (p_ternary _) _ _ => eapply spec_weaken; [| | exact (e_ternary _ _ I)]
  | |- Spec (p_power _) _ _ => eapply spec_weaken; [| | exact (e_power _ _ I)]
  | |- Spec (p_prefix _) _ _ => eapply spec_weaken; [| | exact (e_prefix _ _ I)]
  | |- Spec (p_primary _) _ _ => eapply spec_weaken; [| | exact (e_primary _ _ I)]
  | |- Spec (p_type _) _ _ => eapply spec_weaken; [| | exact (e_type _ _ I)]
  | |- Spec (p_topLevelDecls _) _ _ => eapply spec_weaken; [| | exact (e_decl _ _ I)]
  | |- Spec (p_statement _) _ _ => eapply spec_weaken; [| | exact (e_stmt _ _ I)]
  end; cbv beta; [intros; lia | unfold keeps; tauto].

Lemma productions_end fuel r : Ends fuel r -> Ends (S fuel) (productions buf fuel r).
Proof.
  intros I. split; cbn [productions p_expression p_ternary p_power p_prefix p_primary p_type
    p_statement p_topLevelDecls]; apply spec_le; intros s L.
  - unshelve eapply (parseAssignment_spec (n := input s)); first [lia | inner I].
  - unshelve eapply (parseTernary_spec (n := input s)); first [lia | inner I].
  - unshelve eapply (parsePower_spec (n := input s)); first [lia | inner I].
  - unshelve eapply (parsePrefix_spec (n := input s)); first [lia | inner I].
  - unshelve eapply (parsePrimary_spec (n := input s)); first [lia | inner I].
  - unshelve eapply (parseType_spec buf (input s)); first [lia | inner I].
  - unshelve eapply (parseTopLevelDecls_spec (n := input s)); first [lia | inner I].
  - unshelve eapply (parseStatement_spec (n := input s)); first [lia | inner I].
Qed.

Lemma parsers_end fuel : Ends fuel (parsers buf fuel).
Proof.
  induction fuel as [| fuel IH]; [| by apply productions_end].
  split; intros s _ L; lia.
Qed.

(** ** Modules *)

#[local] Instance module_items_spec fuel : Spec (module_items buf fuel)
  (fun s => 3 * input s + 4 <= fuel) (fun s _ s' => kind (curTok s') = TokenKind.Eof).
Proof.
  intros s G L. unfold module_items.
  pose proof (e_decl _ _ (parsers_end fuel)) as Hdecl. pose proof (e_stmt _ _ (parsers_end fuel)) as Hstmt.
  apply (wp_loop (fun _ s' => Good s' /\ input s' <= input s) input); [| by split | lia].
  intros [decls stmts] s1 [G1 L1]. unfold module_item. wp_look. destruct (tok_is (curTok s1) TokenKind.Eof) eqn:E.
  { wp_look. split; [done |]. unfold tok_is in E. by breflect. }
  input_note E. wp_look. destruct (isStartOfDeclaration buf s1) eqn:D; wp_look.
  - pose proof (start_of_declaration _ _ D (g_cur _ G1)). wp_call; [lia |]. intros a s2 G2 [L2 C2].
    wp_look. specialize (C2 ltac:(done)). split_and!; [done | lia | done].
  - wp_call; [lia |]. intros [a |] s2 G2 [L2 C2]; wp_look.
    + specialize (C2 ltac:(done)). split_and!; [done | lia | lia].
    + wp_call; [lia |]. intros _ s3 G3 L3. wp_look.
      destruct (decide (kind (curTok s2) = TokenKind.Eof)) as [K | K].
      * pose proof (input_eof s2 G2 K). split_and!; [done | lia | lia].
      * pose proof (input_pos s2 _ eq_refl K). split_and!; [done | lia | lia].
Qed.

End Knot.
