(* ===== verification/ParserClaims.v ===== *)
(** * The parser: claims

    A quiet source is read to its end; the loops of [enum] and [switch] that no source with an
    error ends; the operators of one level associate to the left. *)

From S2P Require Import Prelude Diag Tokens Lexer LexerProps LexerClaims AST ASTClone ParserCore.
From S2P Require Import ParserType ParserExpr ParserDecl ParserStmt Parser.
From S2P Require Import ParserSource ParserWp ParserDeclEnds ParserEnds.

#[local] Open Scope nat_scope.
#[local] Open Scope parser_scope.

(** ** Whole files *)

Section Files.
Context `{Platform} (buf : buffer) (Q : quiet_source buf).

#[local] Instance source : TokenSource buf := plain_source buf Q.

(** The constructor fills the two tokens. *)
Lemma newParser_good counter E : exists s,
  newParser buf (newLexer E) counter = Ok tt s /\ Good s /\ input s <= bufferEnd buf + 2.
Proof.
  assert (V : valid (newLexer E)) by (split; [apply wf_newLexer | apply plain_newLexer]).
  destruct (next_ok _ V) as (c & L1 & E1 & V1 & K1 & N1).
  destruct (next_ok _ V1) as (n & L2 & E2 & V2 & K2 & N2).
  unfold newParser. rewrite E1, E2. eexists. split; [done |]. split.
  - split; cbn -[remaining]; auto.
    + intros K. destruct N1 as [[_ N1] | [_ N1]]; [done |].
      destruct N2 as [[N2 _] | [N2 _]]; [lia | done].
    + intros K. by destruct N2 as [[_ N2] | [_ N2]].
  - eapply Nat.le_trans; [| by rewrite Nat.add_comm].
    pose proof (remaining_bound L2). unfold input, weight. cbn [curTok nextTok lexer].
    repeat case_match; lia.
Qed.

(** C2: on a source of less than 2^32 bytes, without template strings, multi-byte characters and
    the words [enum] and [switch], the parser never hangs: fuel in proportion to its size is enough for every loop and
    every depth of calls, whatever errors are met on the way.  It returns a module, and has then
    read the source to the end of the file, or it stops in one of four ways: it reads the byte
    before the source when it looks back over blanks for a line break, an exception of a
    conversion to a number is not caught, a type with a null part, left by an earlier error, is
    cloned, or, where the compiler evaluates arguments from left to right, the pointer of a weak
    reference is read after it was moved.  The declarations of a [for] loop are never empty, so
    that the fifth way does not arise. *)
Theorem parse_source_ends fuel counter E :
  3 * (bufferEnd buf + 2) + 4 <= fuel ->
  match parse_source buf fuel counter E with
  | Ok m s => kind (curTok s) = TokenKind.Eof /\ exists b decls, m = ModuleDecl b decls
  | NoFuel => False
  | Undefined why =>
      match why with
      | BufferUnderrun | UncaughtException | NullClone => True
      | MovedPointer => left_to_right = true
      | NoDeclaration => False
      end
  end.
Proof.
  intros L. unfold parse_source. destruct (newParser_good counter E) as (s & -> & G & I).
  change (wp (parseModule buf fuel)
    (fun m s => kind (curTok s) = TokenKind.Eof /\ exists b decls, m = ModuleDecl b decls) s).
  unfold parseModule. wp_look.
  eapply (wp_spec _ _ _ (S := module_items_spec fuel)); [done | cbv beta; lia |].
  intros [decls stmts] s1 G1 K1. wp_look.
  assert (F : wp (finish_module decls stmts (Some (location (curTok s))))
    (fun _ s => kind (curTok s) = TokenKind.Eof) s1).
  { unfold finish_module. destruct stmts; [by wp_look |]. destruct (existsb _ _); wp_look; [| done].
    wp_call; [done |]. intros _ s2 _ (_ & C & _). wp_look. by rewrite C. }
  wp_look. eapply wp_mono; [| exact F]. cbv beta. intros ds s2 K2. wp_look. eauto.
Qed.

End Files.

(** ** Examples *)

Module Examples.

(** A host whose library functions decode only ASCII and read no floating-point numbers. *)
Definition host : Platform :=
  {| pf_utf8 := ascii_only; pf_code_points := fun _ => None; stod := fun _ => None;
     left_to_right := true; uninitialized_bool := false |}.

Definition source (s : string) : buffer := list_ascii_of_string s.

Definition parse (s : string) (fuel : nat) : Result Decl :=
  @parse_source host (source s) fuel 0 newEngine.

(** The statements of the function that holds the statements of a file. *)
Definition script (r : Result Decl) : option (list (option Stmt) * Z) :=
  match r with
  | Ok (ModuleDecl _ [Some (FunctionDecl _ _ _ (Some (BlockStmt l _)) _)]) s =>
      Some (l, NumErrors (Diags (lexer s)))
  | _ => None
  end.

End Examples.

Lemma parse_source_ends_witness :
  let src := Examples.source "int f(int n) { if (n < 2) return 1; return n * f(n - 1) }" in
  quiet_source src /\
  match @parse_source Examples.host src 200 0 newEngine with
  | Ok m s => kind (curTok s) = TokenKind.Eof /\ exists b decls, m = ModuleDecl b decls
  | NoFuel => False
  | Undefined why =>
      match why with
      | BufferUnderrun | UncaughtException | NullClone => True
      | MovedPointer => true = true
      | NoDeclaration => False
      end
  end.
Proof.
  intros src.
  assert (Q : quiet_source src).
  { split_and!; [| | vm_compute; reflexivity..].
    - vm_compute. reflexivity.
    - unfold plain_buffer. repeat (apply Forall_cons; split; [split; [discriminate | reflexivity] |]).
      apply Forall_nil_2. }
  split; [exact Q |]. apply (@parse_source_ends Examples.host src Q).
  vm_compute. lia.
Defined.

(** ** Loops that do not end *)

Section Hangs.
Context `{Platform} (buf : buffer).

(** The tokens at which a turn of the loop over the cases of [enum] consumes nothing. *)
Definition no_case (k : TokenKind.t) : bool :=
  negb (existsb (enum_eqb k)
    [TokenKind.RBrace; TokenKind.Eof; TokenKind.Identifier; TokenKind.Equal; TokenKind.Comma]).

(** A loop that stays in states of an invariant. *)
Lemma loop_hangs {A B} (I : A -> Parser -> Prop) (body : A -> P (A + B)) :
  (forall a s, I a s -> exists a' s', body a s = Ok (inl a') s' /\ I a' s') ->
  forall fuel a s, I a s -> loop fuel body a s = NoFuel.
Proof.
  intros K fuel. induction fuel as [| fuel IH]; [done |]. intros a s Ia.
  cbn [loop]. unfold bind. destruct (K a s Ia) as (a' & s' & -> & I'). by apply IH.
Qed.

Lemma cur_isAny_bind {A} ks (f : bool -> P A) s :
  bind (cur_isAny ks) f s = f (isAny (curTok s) ks) s.
Proof. done. Qed.

Lemma case_turn_stays rec cases s :
  no_case (kind (curTok s)) = true -> exists cases' s',
  (caseName <-- declared_name buf;;
   assigned <-- consumeIf buf TokenKind.Equal;;
   value <-- (if assigned : bool then p_expression rec else ret None);;
   consumeIf buf TokenKind.Comma;;
   ret (inl (cases ++ [mkEnumCase caseName value])%list : _ + list EnumCase)) s
  = Ok (inl cases') s' /\ curTok s' = curTok s.
Proof.
  destruct s as [L [k l n x f] nt d c]. unfold no_case. cbn [kind curTok]. intros N.
  unfold declared_name, expect, consumeIf, error, spelling_here, cur, cur_is, loc_here, get, bind, ret.
  destruct k; try discriminate N; do 2 eexists; (split; [reflexivity |]); reflexivity.
Qed.

Lemma case_turn_goes s :
  no_case (kind (curTok s)) = true -> isAny (curTok s) [TokenKind.RBrace; TokenKind.Eof] = false.
Proof. unfold isAny, tok_is. by destruct (kind (curTok s)). Qed.

(** At the end of the file a statement is an error that consumes nothing. *)
Lemma statement_eof F s :
  kind (curTok s) = TokenKind.Eof ->
  p_statement (parsers buf (S (S (S F)))) s = (error "Expected expression";; ret None) s.
Proof. destruct s as [L [k l n x f] nt d c]. cbn [curTok kind]. by intros ->. Qed.

Lemma synchronize_eof fuel s :
  kind (curTok s) = TokenKind.Eof -> synchronize buf fuel s = Ok tt s.
Proof. destruct s as [L [k l n x f] nt d c]. cbn [curTok kind]. by intros ->. Qed.

(** C20: two loops of the parser do not end, whatever the fuel: the cases of [enum] at a token
    that is no name, [=], comma or closing brace, and the body of a case of [switch] at the
    end of the file. *)
Theorem parser_hangs :
  (forall rec fuel s, no_case (kind (curTok s)) = true -> enum_cases buf fuel rec s = NoFuel)
  /\ (forall F fuel stops s, kind (curTok s) = TokenKind.Eof -> isAny (curTok s) stops = false ->
      3 <= F -> case_body buf fuel (parsers buf F) stops s = NoFuel).
Proof.
  split.
  - intros rec fuel s N. unfold enum_cases.
    apply (loop_hangs (fun _ s => no_case (kind (curTok s)) = true)); [| done]. clear.
    intros cases s N. destruct (case_turn_stays rec cases s N) as (cases' & s' & E & C).
    exists cases', s'. rewrite C. split; [| done]. rewrite <- E.
    by rewrite cur_isAny_bind, case_turn_goes by done.
  - intros F fuel stops s E N L. do 3 (destruct F as [| F]; [lia |]). unfold case_body, bind at 1.
    assert (K : statements_until buf fuel (parsers buf (S (S (S F)))) stops s = NoFuel);
      [| by rewrite K].
    apply (loop_hangs (fun _ s => kind (curTok s) = TokenKind.Eof /\ isAny (curTok s) stops = false));
      [| done]. clear s E N. intros stmts s [E N].
    rewrite cur_isAny_bind, N. unfold bind at 1. rewrite statement_eof by done. 
    unfold error, report_at, modify. cbn beta iota delta [bind loc_here ret cur get].
    do 2 eexists. split; [unfold bind; rewrite synchronize_eof by done; reflexivity | done].
Qed.

End Hangs.

(** The loops are reached, with the declaration and the statement that need them. *)
Lemma parser_hangs_witness :
  Examples.parse "enum E { 1 }" 60 = NoFuel
  /\ Examples.parse "switch (x) { case 1: " 60 = NoFuel
  /\ enum_cases (H := Examples.host) (Examples.source "") 60 no_productions
       {| lexer := newLexer newEngine;
          curTok := {| kind := TokenKind.IntegerLiteral; location := 0; length := 1;
                       suffix := NumericSuffix.None; flags := 0 |};
          nextTok := {| kind := TokenKind.Eof; location := 0; length := 0;
                        suffix := NumericSuffix.None; flags := 0 |}; loopDepth := 0; scriptCounter := 0 |} = NoFuel.
Proof.
  split_and!; [vm_compute; reflexivity.. |].
  apply (proj1 (@parser_hangs Examples.host (Examples.source ""))). reflexivity.
Defined.

(** ** Levels of operators *)

Section Levels.
Context `{Platform} (buf : buffer) (ops : list TokenKind.t) (guard : P bool).
Context (operand : P (option Expr)).

(** The operators that follow an operand, each with its right operand. *)
Inductive operations : Parser -> list (Token * Expr) -> Parser -> Prop :=
  | ops_none s : isAny (curTok s) ops = false -> operations s [] s
  | ops_guarded s s' :
      isAny (curTok s) ops = true -> guard s = Ok true s' -> operations s [] s'
  | ops_one s s1 s2 s3 r rest s' :
      isAny (curTok s) ops = true -> guard s = Ok false s1 -> consume buf s1 = Ok tt s2 ->
      operand s2 = Ok (Some r) s3 -> operations s3 rest s' ->
      operations s ((curTok s, r) :: rest) s'.

(** Operators of one level associate to the left. *)
Definition left_assoc (e : Expr) (l : list (Token * Expr)) : Expr :=
  foldl (fun e '(t, r) => BinaryExpr (Some e) (kind t) (Some r) (Some (location t))) e l.

Definition level_turn (lhs : option Expr) : P (option Expr + option Expr) :=
  t <-- cur;;
  if isAny t ops then
    stop <-- guard;;
    if stop : bool then ret (inr lhs)
    else
      match lhs with
      | None => ret (inr None)
      | Some _ =>
          consume buf;;
          rhs <-- operand;;
          match rhs with
          | None => ret (inr None)
          | Some _ => ret (inl (Some (BinaryExpr lhs (kind t) rhs (Some (location t)))))
          end
      end
  else ret (inr lhs).

Lemma level_turn_eq e s :
  level_turn (Some e) s =
  if isAny (curTok s) ops then
    match guard s with
    | Ok true s1 => Ok (inr (Some e)) s1
    | Ok false s1 =>
        match consume buf s1 with
        | Ok _ s2 =>
            match operand s2 with
            | Ok (Some r) s3 => Ok (inl (Some (left_assoc e [(curTok s, r)]))) s3
            | Ok None s3 => Ok (inr None) s3
            | NoFuel => NoFuel
            | Undefined why => Undefined why
            end
        | NoFuel => NoFuel
        | Undefined why => Undefined why
        end
    | NoFuel => NoFuel
    | Undefined why => Undefined why
    end
  else Ok (inr (Some e)) s.
Proof.
  unfold level_turn, bind, cur, get, ret, bind. cbn beta iota. destruct (isAny _ _); [| done].
  destruct (guard s) as [[] s1 | |]; try done. destruct (consume buf s1) as [? s2 | |]; try done.
  by destruct (operand s2) as [[] | |].
Qed.

Lemma loop_step {A B} fuel (body : A -> P (A + B)) a s :
  loop (S fuel) body a s =
  match body a s with
  | Ok (inl a') s' => loop fuel body a' s'
  | Ok (inr b) s' => Ok b s'
  | NoFuel => NoFuel
  | Undefined why => Undefined why
  end.
Proof. cbn [loop]. unfold bind. by destruct (body a s) as [[] | |]. Qed.

Lemma level_loop fuel e s e' s' :
  loop fuel level_turn (Some e) s = Ok (Some e') s' <->
  exists l, operations s l s' /\ e' = left_assoc e l /\ List.length l < fuel.
Proof.
  split.
  - revert e s. induction fuel as [| fuel IH]; intros e s; [done |].
    rewrite loop_step, level_turn_eq. destruct (isAny (curTok s) ops) eqn:A.
    2: { intros [= -> ->]. exists []. split_and!; [by constructor | done | cbn; lia]. }
    destruct (guard s) as [[] s1 | |] eqn:G; try done.
    { intros [= -> ->]. exists []. split_and!; [by apply ops_guarded | done | cbn; lia]. }
    destruct (consume buf s1) as [[] s2 | |] eqn:C; try done.
    destruct (operand s2) as [[r |] s3 | |] eqn:O; try done.
    intros R. destruct (IH _ _ R) as (l & Hl & -> & L). exists ((curTok s, r) :: l).
    split_and!; [by eapply ops_one | done | cbn; lia].
  - intros (l & Hl & -> & L). revert fuel e L.
    induction Hl as [s A | s s' A G | s s1 s2 s3 r l s' A G C O Hl IH]; intros fuel e L;
      (destruct fuel as [| fuel]; [cbn in L; lia |]);
      rewrite loop_step, level_turn_eq, A; [done | by rewrite G |].
    rewrite G, C, O. apply IH. cbn in L. lia.
Qed.

(** C19: a level of binary operators returns an expression exactly when its operand does and a
    chain of its operators with their operands follows, up to a token that is none of them or
    that the guard refuses; the expression is the left-associated tree of the chain. *)
Theorem binary_level_left fuel s e s' :
  binary_level buf fuel ops guard operand s = Ok (Some e) s' <->
  exists e0 s0 l, operand s = Ok (Some e0) s0 /\ operations s0 l s'
    /\ e = left_assoc e0 l /\ List.length l < fuel.
Proof.
  unfold binary_level. fold level_turn. unfold bind at 1.
  destruct (operand s) as [[e0 |] s0 | |] eqn:O.
  - rewrite level_loop. split; [intros (l & ?); by exists e0, s0, l |].
    intros (e1 & s1 & l & [= <- <-] & ?). by exists l.
  - split; [| by intros (? & ? & ? & ? & _)].
    destruct fuel as [| fuel]; [done |]. rewrite loop_step.
    unfold level_turn, bind, cur, get, ret, bind. cbn beta iota.
    destruct (isAny _ _); [| done]. by destruct (guard s0) as [[] ? | |].
  - split; [done | by intros (? & ? & ? & ? & _)].
  - split; [done | by intros (? & ? & ? & ? & _)].
Qed.

End Levels.

(** ** An object without a type *)

Section NewWithoutType.
Context `{Platform} (buf : buffer).
Context (s s1 : Parser) (Hnew : kind (curTok s) = TokenKind.KwNew) (Hnext : consume buf s = Ok tt s1).

Lemma bind_ok {A B} (p : P A) (f : A -> P B) t a t' : p t = Ok a t' -> bind p f t = f a t'.
Proof. intros E. unfold bind. by rewrite E. Qed.

Lemma cur_is_kind t k : cur_is k t = Ok (enum_eqb (kind (curTok t)) k) t.
Proof. done. Qed.

Lemma consumeIf_other t k : enum_eqb (kind (curTok t)) k = false -> consumeIf buf k t = Ok false t.
Proof. intros E. unfold consumeIf. rewrite (bind_ok _ _ _ _ _ (cur_is_kind t k)). by rewrite E. Qed.

Lemma not_start t : type_start (kind (curTok t)) = false ->
  forall k, type_start k = true -> enum_eqb (kind (curTok t)) k = false.
Proof. intros E k K. apply enum_eqb_neq. intros D. by rewrite D, K in E. Qed.

(** No type, and nothing is read, where no type can start. *)
Lemma no_type fuel rec t : type_start (kind (curTok t)) = false -> parseType_body buf fuel rec t = Ok None t.
Proof.
  intros E. pose proof (not_start t E) as Q.
  unfold parseType_body. rewrite (bind_ok loc_here _ _ _ t eq_refl).
  rewrite (bind_ok _ _ _ _ _ (consumeIf_other t _ (Q TokenKind.KwVolatile eq_refl))).
  rewrite (bind_ok _ _ _ _ _ (consumeIf_other t _ (Q TokenKind.KwConst eq_refl))).
  rewrite (bind_ok _ _ _ _ _ (consumeIf_other t _ (Q TokenKind.KwUnsigned eq_refl))).
  unfold bind at 1, type_base, cur, get, bind, ret. destruct (kind (curTok t)); try done.
Qed.

Lemma new_null fuel rec :
  (forall t, type_start (kind (curTok t)) = false -> p_type rec t = Ok None t) ->
  type_start (kind (curTok s1)) = false -> parsePrimary buf fuel rec s = Ok None s1.
Proof.
  intros R E. pose proof (not_start s1 E) as Q.
  unfold parsePrimary. rewrite (bind_ok loc_here _ _ _ s eq_refl).
  assert (C : capture_modifier buf s = Ok None s).
  { unfold capture_modifier, bind, cur, get, ret, bind, tok_is. by rewrite Hnew. }
  rewrite (bind_ok _ _ _ _ _ C), (bind_ok _ _ _ _ _ (cur_is_kind s _)).
  unfold primary_switch. rewrite (bind_ok cur _ _ _ s eq_refl), (isAny_kind _ _ _ Hnew), Hnew.
  change (existsb _ name_keywords) with false. cbn match.
  unfold parseNewExpr. rewrite (bind_ok loc_here _ _ _ s eq_refl), (bind_ok _ _ _ _ _ Hnext).
  rewrite (bind_ok _ _ _ _ _ (consumeIf_other s1 _ (Q TokenKind.KwWeak eq_refl))).
  rewrite (bind_ok _ _ _ _ _ (consumeIf_other s1 _ (Q TokenKind.KwThread eq_refl))).
  by rewrite (bind_ok _ _ _ _ _ (R s1 E)).
Qed.


(** A level of operators has nothing to combine. *)
Lemma level_null fuel ops guard operand : operand s = Ok None s1 -> isAny (curTok s1) ops = false ->
  binary_level buf (S fuel) ops guard operand s = Ok None s1.
Proof.
  intros O A. unfold binary_level. rewrite (bind_ok _ _ _ _ _ O). cbn [loop].
  unfold bind, cur, get, bind, ret. by rewrite A.
Qed.

Lemma expression_null fuel rec :
  (forall t, type_start (kind (curTok t)) = false -> p_type rec t = Ok None t) ->
  kind (curTok s1) = TokenKind.Semicolon -> parseAssignment buf (S fuel) rec s = Ok None s1.
Proof.
  intros R K. assert (P0 : parsePower buf (S fuel) rec s = Ok None s1).
  { assert (X : parsePrefix buf (S fuel) rec s = Ok None s1).
    { unfold parsePrefix. rewrite (bind_ok cur _ _ _ s eq_refl), (bind_ok peek _ _ _ s eq_refl), (isAny_kind _ _ _ Hnew).
      unfold tok_is. rewrite Hnew. change (existsb _ prefix_operators) with false.
      change (enum_eqb TokenKind.KwNew _) with false. cbn [andb]. unfold parsePostfix.
      change (enum_eqb TokenKind.KwNew TokenKind.Power) with false.
      change (enum_eqb TokenKind.KwNew TokenKind.Amp) with false. cbn [andb].
      by rewrite (bind_ok _ _ _ _ _ (new_null _ _ R ltac:(by rewrite K))). }
    unfold parsePower. rewrite (bind_ok _ _ _ _ _ X). unfold bind, cur, get, bind, ret, tok_is. by rewrite K. }
  assert (A : forall ops, existsb (enum_eqb TokenKind.Semicolon) ops = false -> isAny (curTok s1) ops = false).
  { intros ops. by rewrite (isAny_kind _ _ _ K). }
  assert (L : parsePipe buf (S fuel) rec s = Ok None s1).
  { unfold parsePipe, parseNullCoalescing, parseShift, parseAdditive, parseMultiplicative.
    assert (N : binary_level buf (S fuel) [TokenKind.QuestionQuestion] no_guard
      (binary_level buf (S fuel) [TokenKind.LessLess; TokenKind.GreaterGreater] no_guard
         (binary_level buf (S fuel) [TokenKind.Plus; TokenKind.Minus] (newline_here buf)
            (binary_level buf (S fuel) [TokenKind.Star; TokenKind.Slash; TokenKind.Percent] (star_guard buf)
               (parsePower buf (S fuel) rec)))) s = Ok None s1)
      by (repeat (apply level_null; [| by apply A]); done).
    by rewrite (bind_ok _ _ _ _ _ N). }
  assert (O : parseLogicalOr buf (S fuel) rec s = Ok None s1).
  { unfold parseLogicalOr, parseLogicalAnd, parseBitwiseOr, parseBitwiseXor, parseBitwiseAnd, parseEquality,
      parseRelational. repeat (apply level_null; [| by apply A]). done. }
  unfold parseAssignment, parseTernary. unfold bind at 1. by rewrite (bind_ok _ _ _ _ _ O).
Qed.

Lemma new_declares_nothing : isStartOfDeclaration buf s = false.
Proof. unfold isStartOfDeclaration, isAny, tok_is. by rewrite Hnew. Qed.

Lemma statement_null fuel rec :
  p_expression rec s = Ok None s1 -> parseStatement_body buf fuel rec s = Ok None s1.
Proof.
  intros R. unfold parseStatement_body. rewrite (bind_ok cur _ _ _ s eq_refl), (bind_ok peek _ _ _ s eq_refl), Hnew.
  unfold default_statement. rewrite (bind_ok (at_declaration buf) _ _ _ s eq_refl), new_declares_nothing.
  rewrite (bind_ok cur _ _ _ s eq_refl), (bind_ok peek _ _ _ s eq_refl). unfold tok_is at 1. rewrite Hnew.
  change (enum_eqb TokenKind.KwNew _) with false. cbn [andb]. unfold expression_statement.
  by rewrite (bind_ok loc_here _ _ _ s eq_refl), (bind_ok _ _ _ _ _ R).
Qed.

End NewWithoutType.

(** C36: an object without a type is dropped without a message.  In every file and at every
    point of it, [new] followed by a token that starts no type is a null expression: the parser
    has read the word [new] and reported nothing.  When the token is a semicolon, so are the whole
    expression and the statement that starts with [new]; among the statements of a file
    [new ;] is skipped, and the declarations and statements of the module are those without it. *)
Theorem new_without_type_dropped `{Platform} buf n s s1 :
  kind (curTok s) = TokenKind.KwNew -> consume buf s = Ok tt s1 ->
  type_start (kind (curTok s1)) = false ->
  p_primary (parsers buf (S (S n))) s = Ok None s1
  /\ (kind (curTok s1) = TokenKind.Semicolon ->
      p_expression (parsers buf (S (S n))) s = Ok None s1
      /\ p_statement (parsers buf (S (S (S n)))) s = Ok None s1
      /\ forall s2 items, consume buf s1 = Ok tt s2 ->
           module_item buf (S (S (S n))) items s = Ok (inl items) s2).
Proof.
  intros Hnew Hnext E. assert (T : forall t, type_start (kind (curTok t)) = false ->
    p_type (parsers buf (S n)) t = Ok None t) by (intros t; apply no_type).
  split; [by apply (new_null buf s s1 Hnew Hnext) |]. intros K.
  assert (X : p_expression (parsers buf (S (S n))) s = Ok None s1) by by apply (expression_null buf s s1 Hnew Hnext).
  assert (Y : p_statement (parsers buf (S (S (S n)))) s = Ok None s1) by by apply (statement_null buf s s1 Hnew).
  split_and!; [done .. |]. intros s2 [decls stmts] C. unfold module_item.
  rewrite (bind_ok _ _ _ _ _ (cur_is_kind s _)), Hnew. change (enum_eqb TokenKind.KwNew _) with false. cbn match.
  rewrite (bind_ok (at_declaration buf) _ _ _ s eq_refl), (new_declares_nothing buf s Hnew), (bind_ok _ _ _ _ _ Y).
  unfold synchronize, bind at 1 2, cur, get, bind at 1, ret, tok_is. rewrite K. cbn. unfold consume in C. by rewrite C.
Qed.

Lemma new_without_type_dropped_witness :
  let src := Examples.source "new ; y();" in
  match @newParser Examples.host src (newLexer newEngine) 0 with
  | Ok _ s =>
      match @consume Examples.host src s with
      | Ok _ s1 =>
          match @consume Examples.host src s1 with
          | Ok _ s2 =>
              kind (curTok s) = TokenKind.KwNew /\ kind (curTok s1) = TokenKind.Semicolon
              /\ forall items, @module_item Examples.host src 3 items s = Ok (inl items) s2
          | _ => False
          end
      | _ => False
      end
  | _ => False
  end.
Proof.
  intros src. destruct (newParser src (newLexer newEngine) 0) as [[] s | |] eqn:E; [| vm_compute in E; discriminate..].
  vm_compute in E. injection E as <-.
  match goal with |- context [consume src ?s] => destruct (consume src s) as [[] s1 | |] eqn:C end;
    [| vm_compute in C; discriminate..].
  match goal with |- context [consume src ?s] => destruct (consume src s) as [[] s2 | |] eqn:D end.
  - assert (K : kind (curTok s1) = TokenKind.Semicolon) by (vm_compute in C; by injection C as <-).
    split_and!; [reflexivity | done |]. intros items.
    match type of C with consume _ ?s = _ =>
      destruct (@new_without_type_dropped Examples.host src 0 s s1 eq_refl C ltac:(by rewrite K)) as [_ R] end.
    by apply (R K).
  - exfalso. vm_compute in C. injection C as <-. by vm_compute in D.
  - exfalso. vm_compute in C. injection C as <-. by vm_compute in D.
Defined.

(** [x = new ; y();]: one statement and no message. *)
Example new_dropped_from_file :
  option_map (fun '(l, n) => (List.length l, n))
    (Examples.script (Examples.parse "x = new ; y();" 60)) = Some (1, 0%Z).
Proof. vm_compute. reflexivity. Qed.
