(* ===== verification/HIRType.v ===== *)
(** * The types of the high-level IR

    The class hierarchy of [include/moksha/HIR/HIRType.h] and
    [lib/middle/hir/HIRType.cpp]: the subclasses of [HIRType], their text
    ([toString]), the data that identifies them ([Profile]) and the removal of
    modifiers.  Types refer to types by address; the objects live in a heap.  The
    virtual functions that follow addresses take a fuel and return [None] when it
    runs out or when an address is dangling. *)

From S2P Require Import Prelude.
From stdpp Require Export pretty.
#[local] Open Scope string_scope.

(** Addresses of types; 0 is the null pointer. *)
Abbreviation TypePtr := N.

Module TypeKind.
(** [enum class TypeKind], in declaration order. *)
Inductive t : Set :=
  | Void | Int | Float | Bool | String | Struct | Union | Array | Slice | Function_
  | Pointer | Reference | Nullable | Decimal | Promise | Closure | Weak | View | Mut
  | Lock | Const | Volatile | Null | Any | Map.

Definition all : list t :=
  [Void; Int; Float; Bool; String; Struct; Union; Array; Slice; Function_; Pointer;
   Reference; Nullable; Decimal; Promise; Closure; Weak; View; Mut; Lock; Const;
   Volatile; Null; Any; Map].

Definition code (k : t) : nat :=
  match k with
  | Void => 0 | Int => 1 | Float => 2 | Bool => 3 | String => 4 | Struct => 5
  | Union => 6 | Array => 7 | Slice => 8 | Function_ => 9 | Pointer => 10
  | Reference => 11 | Nullable => 12 | Decimal => 13 | Promise => 14 | Closure => 15
  | Weak => 16 | View => 17 | Mut => 18 | Lock => 19 | Const => 20 | Volatile => 21
  | Null => 22 | Any => 23 | Map => 24
  end.

#[export] Instance enum : Enum t.
Proof. refine {| enum_all := all; enum_code := code |}. abstract (by intros []). Defined.
#[export] Instance eq_dec : EqDecision t.
Proof. solve_decision. Defined.
End TypeKind.
#[export] Existing Instance TypeKind.enum.
#[export] Existing Instance TypeKind.eq_dec.

Module Ownership.
(** [enum class Ownership]. *)
Inductive t : Set := None_ | Owned | Borrowed | Shared.
Definition code (o : t) : nat :=
  match o with None_ => 0 | Owned => 1 | Borrowed => 2 | Shared => 3 end.
#[export] Instance eq_dec : EqDecision t.
Proof. solve_decision. Defined.
End Ownership.
#[export] Existing Instance Ownership.eq_dec.

Module BorrowState.
(** [enum class BorrowState]. *)
Inductive t : Set := None_ | View | Mut | Lock.
Definition code (b : t) : nat :=
  match b with None_ => 0 | View => 1 | Mut => 2 | Lock => 3 end.
#[export] Instance eq_dec : EqDecision t.
Proof. solve_decision. Defined.
End BorrowState.
#[export] Existing Instance BorrowState.eq_dec.

(** [struct FieldInfo]. *)
Record FieldInfo := {
  fi_name : string;
  fi_index : Z;
  isBitfield : bool;
  fi_bitWidth : Z;
  bitOffset : Z;
}.

#[export] Instance FieldInfo_eq_dec : EqDecision FieldInfo.
Proof. solve_decision. Defined.

(** The members of [class StructType]. *)
Record StructInfo := {
  st_name : string;
  st_fields : list TypePtr;
  st_fieldNames : list string;
  parentTypes : list TypePtr;
  fieldInfos : list FieldInfo;
  isPacked : bool;
  hasVTable : bool;
  isRefClass : bool;
}.

#[export] Instance StructInfo_eq_dec : EqDecision StructInfo.
Proof. solve_decision. Defined.

(** The constructor of [StructType]. *)
Definition mkStruct (name : string) (fields : list TypePtr) (fieldNames : list string)
    (packed refClass : bool) : StructInfo :=
  {| st_name := name; st_fields := fields; st_fieldNames := fieldNames; parentTypes := [];
     fieldInfos := []; isPacked := packed; hasVTable := false; isRefClass := refClass |}.

(** The subclasses of [HIRType]. *)
Inductive HIRType : Type :=
  | HIRIntType (width : Z) (isSigned isPtrWidth : bool)
  | HIRFloatType (width : Z)
  | HIRStringType
  | PrimitiveType (kind : TypeKind.t)
  | PointerType (pointee : TypePtr) (own : Ownership.t) (state : BorrowState.t)
  | ArrayType (element : TypePtr) (size : Z)
  | SliceType (element : TypePtr)
  | StructType (info : StructInfo)
  | UnionType (name : string) (fields : list TypePtr) (fieldNames : list string)
  | FunctionType (ret : TypePtr) (params : list TypePtr) (isVariadic isInterrupt : bool)
  | HIRNullableType (inner : TypePtr)
  | ReferenceType (inner : TypePtr) (own : Ownership.t) (state : BorrowState.t)
  | HIRDecimalType (precision scale : Z)
  | HIRPromiseType (inner : TypePtr)
  | HIRClosureType (ret : TypePtr) (params : list TypePtr)
  | HIRWeakType (inner : TypePtr)
  | HIRViewType (inner : TypePtr)
  | HIRMutType (inner : TypePtr)
  | HIRLockType (inner : TypePtr)
  | HIRConstType (inner : TypePtr)
  | HIRVolatileType (inner : TypePtr)
  | HIRNullType
  | HIRAnyType
  | HIRMapType (key value : TypePtr).

#[export] Instance HIRType_eq_dec : EqDecision HIRType.
Proof. solve_decision. Defined.

(** [getKind()]. *)
Definition getKind (t : HIRType) : TypeKind.t :=
  match t with
  | HIRIntType _ _ _ => TypeKind.Int
  | HIRFloatType _ => TypeKind.Float
  | HIRStringType => TypeKind.String
  | PrimitiveType k => k
  | PointerType _ _ _ => TypeKind.Pointer
  | ArrayType _ _ => TypeKind.Array
  | SliceType _ => TypeKind.Slice
  | StructType _ => TypeKind.Struct
  | UnionType _ _ _ => TypeKind.Union
  | FunctionType _ _ _ _ => TypeKind.Function_
  | HIRNullableType _ => TypeKind.Nullable
  | ReferenceType _ _ _ => TypeKind.Reference
  | HIRDecimalType _ _ => TypeKind.Decimal
  | HIRPromiseType _ => TypeKind.Promise
  | HIRClosureType _ _ => TypeKind.Closure
  | HIRWeakType _ => TypeKind.Weak
  | HIRViewType _ => TypeKind.View
  | HIRMutType _ => TypeKind.Mut
  | HIRLockType _ => TypeKind.Lock
  | HIRConstType _ => TypeKind.Const
  | HIRVolatileType _ => TypeKind.Volatile
  | HIRNullType => TypeKind.Null
  | HIRAnyType => TypeKind.Any
  | HIRMapType _ _ => TypeKind.Map
  end.

(** [getOwnership()]: what each constructor passes to [HIRType]. *)
Definition getOwnership (t : HIRType) : Ownership.t :=
  match t with
  | PointerType _ own _ | ReferenceType _ own _ => own
  | HIRWeakType _ | HIRViewType _ | HIRMutType _ | HIRLockType _ => Ownership.Borrowed
  | _ => Ownership.None_
  end.

Definition isImmutable (t : HIRType) : bool :=
  match t with HIRViewType _ | HIRConstType _ => true | _ => false end.

(** [StructType::getFieldIndex] and [UnionType::getFieldIndex]: -1 if there is none. *)
Fixpoint index_of (i : Z) (searchName : string) (names : list string) : Z :=
  match names with
  | [] => -1
  | n :: r => if String.eqb n searchName then i else index_of (i + 1) searchName r
  end.
Definition getFieldIndex (names : list string) (searchName : string) : Z :=
  index_of 0 searchName names.

(** [StructType::setFields] and the other setters of [StructType]. *)
Definition setFields (fields : list TypePtr) (names : list string) (s : StructInfo) : StructInfo :=
  {| st_name := st_name s; st_fields := fields; st_fieldNames := names;
     parentTypes := parentTypes s; fieldInfos := fieldInfos s; isPacked := isPacked s;
     hasVTable := hasVTable s; isRefClass := isRefClass s |}.
Definition setParentTypes (parents : list TypePtr) (s : StructInfo) : StructInfo :=
  {| st_name := st_name s; st_fields := st_fields s; st_fieldNames := st_fieldNames s;
     parentTypes := parents; fieldInfos := fieldInfos s; isPacked := isPacked s;
     hasVTable := hasVTable s; isRefClass := isRefClass s |}.
Definition setFieldInfos (infos : list FieldInfo) (s : StructInfo) : StructInfo :=
  {| st_name := st_name s; st_fields := st_fields s; st_fieldNames := st_fieldNames s;
     parentTypes := parentTypes s; fieldInfos := infos; isPacked := isPacked s;
     hasVTable := hasVTable s; isRefClass := isRefClass s |}.
Definition setPacked (packed : bool) (s : StructInfo) : StructInfo :=
  {| st_name := st_name s; st_fields := st_fields s; st_fieldNames := st_fieldNames s;
     parentTypes := parentTypes s; fieldInfos := fieldInfos s; isPacked := packed;
     hasVTable := hasVTable s; isRefClass := isRefClass s |}.
Definition setHasVTable (v : bool) (s : StructInfo) : StructInfo :=
  {| st_name := st_name s; st_fields := st_fields s; st_fieldNames := st_fieldNames s;
     parentTypes := parentTypes s; fieldInfos := fieldInfos s; isPacked := isPacked s;
     hasVTable := v; isRefClass := isRefClass s |}.

(** ** Identity: [Profile] *)

(** The data a [FoldingSetNodeID] gathers, in the order of the [Add] calls. *)
Inductive IDItem : Set :=
  | AddInteger (i : Z)
  | AddPointer (p : TypePtr)
  | AddString (s : string)
  | AddBoolean (b : bool).
Abbreviation NodeID := (list IDItem).

#[export] Instance IDItem_eq_dec : EqDecision IDItem.
Proof. solve_decision. Defined.

Definition AddKind (k : TypeKind.t) : IDItem := AddInteger (Z.of_nat (TypeKind.code k)).
Definition AddOwnership (o : Ownership.t) : IDItem := AddInteger (Z.of_nat (Ownership.code o)).
Definition AddState (b : BorrowState.t) : IDItem := AddInteger (Z.of_nat (BorrowState.code b)).

Definition Profile (t : HIRType) : NodeID :=
  AddKind (getKind t) ::
  match t with
  | HIRIntType w s p => [AddInteger w; AddBoolean s; AddBoolean p]
  | HIRFloatType w => [AddInteger w]
  | HIRStringType | PrimitiveType _ | HIRNullType | HIRAnyType => []
  | PointerType p own st => [AddPointer p; AddState st; AddOwnership own]
  | ArrayType e n => [AddPointer e; AddInteger n]
  | SliceType e => [AddPointer e]
  | StructType i => [AddString (st_name i); AddBoolean (isRefClass i)]
  | UnionType n _ _ => [AddString n]
  | FunctionType r ps va it =>
      AddPointer r :: map AddPointer ps ++ [AddBoolean va; AddBoolean it]
  | HIRNullableType p | HIRPromiseType p | HIRWeakType p | HIRViewType p | HIRMutType p
  | HIRLockType p | HIRConstType p | HIRVolatileType p => [AddPointer p]
  | ReferenceType p own st => [AddPointer p; AddState st; AddOwnership own]
  | HIRDecimalType p s => [AddInteger p; AddInteger s]
  | HIRClosureType r ps => AddPointer r :: map AddPointer ps
  | HIRMapType k v => [AddPointer k; AddPointer v]
  end.

(** ** Text: [toString] *)

(** The heap of types. *)
Abbreviation TypeHeap := (gmap TypePtr HIRType).

(** [std::to_string] of an unsigned number. *)
Definition to_string (z : Z) : string := pretty (Z.to_N z).

Definition primitive_name (k : TypeKind.t) : string :=
  match k with
  | TypeKind.Void => "void"
  | TypeKind.Bool => "bool"
  | TypeKind.String => "string"
  | TypeKind.Int => "int_generic"
  | TypeKind.Float => "float_generic"
  | _ => "unknown_primitive"
  end.

Definition pointer_prefix (st : BorrowState.t) : string :=
  match st with
  | BorrowState.Mut => "*mut "
  | BorrowState.View => "*view "
  | BorrowState.Lock => "*lock "
  | BorrowState.None_ => "*"
  end.

Definition reference_prefix (st : BorrowState.t) : string :=
  match st with
  | BorrowState.Mut => "&mut "
  | BorrowState.View => "&view "
  | BorrowState.Lock => "&lock "
  | BorrowState.None_ => "&"
  end.

(** The parameters of [FunctionType::toString], with their separators. *)
Fixpoint params_text (text : TypePtr -> option string) (ps : list TypePtr) : option string :=
  match ps with
  | [] => Some ""
  | p :: r =>
      s ← (if N.eqb p 0 then Some "<?> " else text p);
      rest ← params_text text r;
      Some (s +:+ (match r with [] => "" | _ => ", " end) +:+ rest)
  end.

(** The text of an object, given that of the types it refers to. *)
Definition object_text (text : TypePtr -> option string) (t : HIRType) : option string :=
  match t with
  | HIRIntType w s _ => Some ((if s then "i" else "u") +:+ to_string w)
  | HIRFloatType w => Some ("f" +:+ to_string w)
  | HIRStringType => Some "string"
  | PrimitiveType k => Some (primitive_name k)
  | PointerType p _ st => String.append (pointer_prefix st) <$> text p
  | ArrayType e n => (fun s => s +:+ "[" +:+ to_string n +:+ "]") <$> text e
  | SliceType e => (fun s => s +:+ "[]") <$> text e
  | StructType i => Some (st_name i)
  | UnionType n _ _ => Some n
  | FunctionType r ps va it =>
      args ← params_text text ps;
      ret ← (if N.eqb r 0 then Some "void" else text r);
      Some ("fn(" +:+ args
              +:+ (if va : bool then (match ps with [] => "" | _ => ", " end) +:+ "..." else "")
              +:+ ") -> " +:+ ret +:+ (if it : bool then " [interrupt]" else ""))
  | HIRNullableType p => (fun s => s +:+ "?") <$> text p
  | ReferenceType p _ st => String.append (reference_prefix st) <$> text p
  | HIRDecimalType p s => Some ("decimal<" +:+ to_string p +:+ ", " +:+ to_string s +:+ ">")
  | HIRPromiseType p => (fun s => "promise<" +:+ s +:+ ">") <$> text p
  | HIRClosureType _ _ => Some "closure"
  | HIRWeakType p => String.append "weak " <$> text p
  | HIRViewType p => String.append "view " <$> text p
  | HIRMutType p => String.append "mut " <$> text p
  | HIRLockType p => String.append "lock " <$> text p
  | HIRConstType p => String.append "const " <$> text p
  | HIRVolatileType p => String.append "volatile " <$> text p
  | HIRNullType => Some "null"
  | HIRAnyType => Some "any"
  | HIRMapType k v =>
      ks ← text k; vs ← text v; Some ("table<" +:+ ks +:+ ", " +:+ vs +:+ ">")
  end.

Fixpoint toString (fuel : nat) (H : TypeHeap) (p : TypePtr) : option string :=
  match fuel with
  | 0 => None
  | S fuel => t ← H !! p; object_text (toString fuel H) t
  end.

(** [stripModifiers], virtual. *)
Fixpoint stripModifiers (fuel : nat) (H : TypeHeap) (p : TypePtr) : option TypePtr :=
  match fuel with
  | 0 => None
  | S fuel =>
      t ← H !! p;
      match t with
      | HIRViewType q | HIRMutType q | HIRLockType q | HIRConstType q | HIRVolatileType q =>
          stripModifiers fuel H q
      | _ => Some p
      end
  end.

(** ** Well-founded heaps *)

(** The types that the text of a type refers to; a struct or union is nominal. *)
Definition components (t : HIRType) : list TypePtr :=
  match t with
  | PointerType p _ _ | ReferenceType p _ _ | ArrayType p _ | SliceType p
  | HIRNullableType p | HIRPromiseType p | HIRWeakType p | HIRViewType p | HIRMutType p
  | HIRLockType p | HIRConstType p | HIRVolatileType p => [p]
  | FunctionType r ps _ _ => filter (fun p => p <> 0%N) (r :: ps)
  | HIRMapType k v => [k; v]
  | _ => []
  end.

(** A type refers to types that were allocated before it. *)
Definition founded (H : TypeHeap) : Prop :=
  forall p t q, H !! p = Some t -> q ∈ components t -> is_Some (H !! q) /\ (q < p)%N.

Definition is_modifier (t : HIRType) : bool :=
  match t with
  | HIRViewType _ | HIRMutType _ | HIRLockType _ | HIRConstType _ | HIRVolatileType _ => true
  | _ => false
  end.

Lemma params_text_total text ps :
  (forall p, p ∈ ps -> p <> 0%N -> is_Some (text p)) -> is_Some (params_text text ps).
Proof.
  induction ps as [| p ps IH]; intros Hp; simpl; [by eexists |].
  destruct IH as [rest ->]; [intros q Hq; apply Hp; by right |].
  destruct (N.eqb_spec p 0) as [-> | Np]; simpl; [by eexists |].
  destruct (Hp p) as [s ->]; [left | done | by eexists].
Qed.

Lemma object_text_total text t :
  (forall q, q ∈ components t -> is_Some (text q)) -> is_Some (object_text text t).
Proof.
  intros Hq. assert (One : forall q f, q ∈ components t -> is_Some (f <$> text q : option string)).
  { intros q f H. destruct (Hq q H) as [s ->]. by eexists. }
  destruct t; simpl; try (by eexists); try (apply One; left).
  - destruct (params_text_total text params) as [a ->].
    { intros p Hp Np. apply Hq. simpl. apply list_elem_of_filter. split; [done | by right]. }
    simpl. destruct (N.eqb_spec ret 0) as [-> | Nr]; simpl; [by eexists |].
    destruct (Hq ret) as [s ->]; [| by eexists].
    simpl. apply list_elem_of_filter. split; [done | left].
  - destruct (Hq key) as [k ->]; [left |]. destruct (Hq value) as [v ->]; [right; left |].
    by eexists.
Qed.

(** The text of a type of a well-founded heap is computed with a fuel above its
    address. *)
Lemma toString_total fuel H p :
  founded H -> is_Some (H !! p) -> N.to_nat p < fuel -> is_Some (toString fuel H p).
Proof.
  intros W. revert p. induction fuel as [| fuel IH]; intros p [t E] L; [lia |].
  simpl. rewrite E. simpl. apply object_text_total. intros q Hq.
  destruct (W p t q E Hq) as [? ?]. apply IH; [done | lia].
Qed.

Lemma stripModifiers_spec fuel H p :
  founded H -> is_Some (H !! p) -> N.to_nat p < fuel ->
  exists q t, stripModifiers fuel H p = Some q /\ H !! q = Some t /\ is_modifier t = false
    /\ forall fuel', stripModifiers (S fuel') H q = Some q.
Proof.
  intros W. revert p. induction fuel as [| fuel IH]; intros p [t E] L; [lia |].
  simpl. rewrite E. simpl.
  destruct (is_modifier t) eqn:M.
  - assert (Q : exists q, q ∈ components t /\ match t with
      | HIRViewType q | HIRMutType q | HIRLockType q | HIRConstType q | HIRVolatileType q =>
          stripModifiers fuel H q
      | _ => Some p
      end = stripModifiers fuel H q).
    { destruct t; try done; simpl; (eexists; split; [apply list_elem_of_singleton |]; done). }
    destruct Q as (q & Hq & ->). destruct (W p t q E Hq) as [? ?]. apply IH; [done | lia].
  - exists p, t. split_and!; [by destruct t | done | done |]. intros f. simpl. rewrite E. by destruct t.
Qed.
