(* ===== verification/HIRModule.v ===== *)
(** * Interning of types

    The type interning of [lib/middle/hir/HIRModule.cpp]: a set of type objects,
    looked up by the data that identifies them, from which each [get...Type] returns
    an object or to which it adds a new one.  [llvm::FoldingSet] is a parameter: the
    class [FoldingSet] states what its documentation promises of a lookup. *)

From S2P Require Import Prelude HIRType.
#[local] Open Scope string_scope.

(** The objects allocated so far, and those entered into [uniqueTypes].  Addresses
    from [next_type] on are free; 0 is null. *)
Record HIRModule := {
  hm_types : TypeHeap;
  uniqueTypes : list TypePtr;
  next_type : TypePtr;
}.

Definition newHIRModule : HIRModule :=
  {| hm_types := ∅; uniqueTypes := []; next_type := 1 |}.

(** The lookup by identification: a node that it finds is in the set and has the
    profile asked for, and it finds a node that has. *)
Class FoldingSet (FindNode : TypeHeap -> list TypePtr -> NodeID -> option TypePtr) : Prop := {
  find_sound : forall H l id p,
    FindNode H l id = Some p -> p ∈ l /\ exists t, H !! p = Some t /\ Profile t = id;
  find_complete : forall H l p t,
    p ∈ l -> H !! p = Some t -> is_Some (FindNode H l (Profile t));
}.

Module Request.
(** A request to one of the getters; [getPrimitiveType] is asked for the two kinds
    that its objects stand for. *)
Inductive t : Type :=
  | Void | Bool | Null | Any | String_
  | Map (key value : TypePtr)
  | Int (width : Z) (isSigned isPtrWidth : bool)
  | Float (width : Z)
  | Decimal (precision scale : Z)
  | Array (element : TypePtr) (size : Z)
  | Slice (element : TypePtr)
  | Promise (inner : TypePtr)
  | View (inner : TypePtr)
  | Mut (inner : TypePtr)
  | Lock (inner : TypePtr)
  | Const (inner : TypePtr)
  | Volatile (inner : TypePtr)
  | Union (name : string) (fields : list TypePtr) (fieldNames : list string)
  | Primitive (isBool : bool)
  | Struct (name : string) (fields : list TypePtr) (fieldNames : list string)
      (isPacked isRefClass : bool)
  | Pointer (pointee : TypePtr) (own : Ownership.t) (state : BorrowState.t)
  | Function_ (ret : TypePtr) (params : list TypePtr) (isVariadic isInterrupt : bool)
  | Closure (ret : TypePtr) (params : list TypePtr)
  | Nullable (inner : TypePtr)
  | Weak (inner : TypePtr).
End Request.

Section Interning.
Context (FindNodeOrInsertPos : TypeHeap -> list TypePtr -> NodeID -> option TypePtr).

(** The body that the getters share: look [ID] up; enter [newType] if it is new. *)
Definition intern (ID : NodeID) (newType : HIRType) (M : HIRModule) : TypePtr * HIRModule :=
  match FindNodeOrInsertPos (hm_types M) (uniqueTypes M) ID with
  | Some existing => (existing, M)
  | None =>
      (next_type M,
       {| hm_types := <[next_type M := newType]> (hm_types M);
          uniqueTypes := uniqueTypes M ++ [next_type M];
          next_type := N.succ (next_type M) |})
  end.

Definition getVoidType : HIRModule -> TypePtr * HIRModule :=
  intern [AddKind TypeKind.Void] (PrimitiveType TypeKind.Void).
Definition getBoolType : HIRModule -> TypePtr * HIRModule :=
  intern [AddKind TypeKind.Bool] (PrimitiveType TypeKind.Bool).
Definition getNullType : HIRModule -> TypePtr * HIRModule :=
  intern [AddKind TypeKind.Null] HIRNullType.
Definition getAnyType : HIRModule -> TypePtr * HIRModule :=
  intern [AddKind TypeKind.Any] HIRAnyType.
Definition getMapType (key value : TypePtr) : HIRModule -> TypePtr * HIRModule :=
  intern [AddKind TypeKind.Map; AddPointer key; AddPointer value] (HIRMapType key value).
Definition getStringType : HIRModule -> TypePtr * HIRModule :=
  intern [AddKind TypeKind.String] HIRStringType.
Definition getIntType (width : Z) (isSigned isPtrWidth : bool) :
    HIRModule -> TypePtr * HIRModule :=
  intern [AddKind TypeKind.Int; AddInteger width; AddBoolean isSigned; AddBoolean isPtrWidth]
    (HIRIntType width isSigned isPtrWidth).
Definition getFloatType (width : Z) : HIRModule -> TypePtr * HIRModule :=
  intern [AddKind TypeKind.Float; AddInteger width] (HIRFloatType width).
Definition getDecimalType (precision scale : Z) : HIRModule -> TypePtr * HIRModule :=
  intern [AddKind TypeKind.Decimal; AddInteger precision; AddInteger scale]
    (HIRDecimalType precision scale).
Definition getArrayType (element : TypePtr) (size : Z) : HIRModule -> TypePtr * HIRModule :=
  intern [AddKind TypeKind.Array; AddPointer element; AddInteger size] (ArrayType element size).
Definition getSliceType (element : TypePtr) : HIRModule -> TypePtr * HIRModule :=
  intern [AddKind TypeKind.Slice; AddPointer element] (SliceType element).
Definition getPromiseType (inner : TypePtr) : HIRModule -> TypePtr * HIRModule :=
  intern [AddKind TypeKind.Promise; AddPointer inner] (HIRPromiseType inner).
Definition getViewType (inner : TypePtr) : HIRModule -> TypePtr * HIRModule :=
  intern [AddKind TypeKind.View; AddPointer inner] (HIRViewType inner).
Definition getMutType (inner : TypePtr) : HIRModule -> TypePtr * HIRModule :=
  intern [AddKind TypeKind.Mut; AddPointer inner] (HIRMutType inner).
Definition getLockType (inner : TypePtr) : HIRModule -> TypePtr * HIRModule :=
  intern [AddKind TypeKind.Lock; AddPointer inner] (HIRLockType inner).
Definition getConstType (inner : TypePtr) : HIRModule -> TypePtr * HIRModule :=
  intern [AddKind TypeKind.Const; AddPointer inner] (HIRConstType inner).
Definition getVolatileType (inner : TypePtr) : HIRModule -> TypePtr * HIRModule :=
  intern [AddKind TypeKind.Volatile; AddPointer inner] (HIRVolatileType inner).
Definition getUnionType (name : string) (fields : list TypePtr) (fieldNames : list string) :
    HIRModule -> TypePtr * HIRModule :=
  intern [AddKind TypeKind.Union; AddString name] (UnionType name fields fieldNames).
Definition getPrimitiveType (kind : TypeKind.t) : HIRModule -> TypePtr * HIRModule :=
  intern [AddKind kind] (PrimitiveType kind).
Definition getStructType (name : string) (fields : list TypePtr) (fieldNames : list string)
    (isPacked isRefClass : bool) : HIRModule -> TypePtr * HIRModule :=
  intern [AddKind TypeKind.Struct; AddString name; AddBoolean isRefClass]
    (StructType (mkStruct name fields fieldNames isPacked isRefClass)).
Definition getPointerType (pointee : TypePtr) (own : Ownership.t) (state : BorrowState.t) :
    HIRModule -> TypePtr * HIRModule :=
  intern [AddKind TypeKind.Pointer; AddPointer pointee; AddOwnership own; AddState state]
    (PointerType pointee own state).
Definition getFunctionType (ret : TypePtr) (params : list TypePtr)
    (isVariadic isInterrupt : bool) : HIRModule -> TypePtr * HIRModule :=
  intern (AddKind TypeKind.Function_ :: AddPointer ret :: map AddPointer params
            ++ [AddBoolean isVariadic; AddBoolean isInterrupt])%list
    (FunctionType ret params isVariadic isInterrupt).
Definition getClosureType (ret : TypePtr) (params : list TypePtr) :
    HIRModule -> TypePtr * HIRModule :=
  intern (AddKind TypeKind.Closure :: AddPointer ret :: map AddPointer params)
    (HIRClosureType ret params).
Definition getNullableType (inner : TypePtr) : HIRModule -> TypePtr * HIRModule :=
  intern [AddKind TypeKind.Nullable; AddPointer inner] (HIRNullableType inner).
Definition getWeakType (inner : TypePtr) : HIRModule -> TypePtr * HIRModule :=
  intern [AddKind TypeKind.Weak; AddPointer inner] (HIRWeakType inner).

Definition get (r : Request.t) : HIRModule -> TypePtr * HIRModule :=
  match r with
  | Request.Void => getVoidType | Request.Bool => getBoolType | Request.Null => getNullType
  | Request.Any => getAnyType | Request.String_ => getStringType
  | Request.Map k v => getMapType k v
  | Request.Int w s p => getIntType w s p
  | Request.Float w => getFloatType w
  | Request.Decimal p s => getDecimalType p s
  | Request.Array e n => getArrayType e n
  | Request.Slice e => getSliceType e
  | Request.Promise p => getPromiseType p
  | Request.View p => getViewType p
  | Request.Mut p => getMutType p
  | Request.Lock p => getLockType p
  | Request.Const p => getConstType p
  | Request.Volatile p => getVolatileType p
  | Request.Union n f fn => getUnionType n f fn
  | Request.Primitive b => getPrimitiveType (if b then TypeKind.Bool else TypeKind.Void)
  | Request.Struct n f fn pk rc => getStructType n f fn pk rc
  | Request.Pointer p o s => getPointerType p o s
  | Request.Function_ r ps va it => getFunctionType r ps va it
  | Request.Closure r ps => getClosureType r ps
  | Request.Nullable p => getNullableType p
  | Request.Weak p => getWeakType p
  end.

(** The object that a request describes. *)
Definition requested (r : Request.t) : HIRType :=
  match r with
  | Request.Void => PrimitiveType TypeKind.Void | Request.Bool => PrimitiveType TypeKind.Bool
  | Request.Null => HIRNullType | Request.Any => HIRAnyType | Request.String_ => HIRStringType
  | Request.Map k v => HIRMapType k v
  | Request.Int w s p => HIRIntType w s p
  | Request.Float w => HIRFloatType w
  | Request.Decimal p s => HIRDecimalType p s
  | Request.Array e n => ArrayType e n
  | Request.Slice e => SliceType e
  | Request.Promise p => HIRPromiseType p
  | Request.View p => HIRViewType p
  | Request.Mut p => HIRMutType p
  | Request.Lock p => HIRLockType p
  | Request.Const p => HIRConstType p
  | Request.Volatile p => HIRVolatileType p
  | Request.Union n f fn => UnionType n f fn
  | Request.Primitive b => PrimitiveType (if b then TypeKind.Bool else TypeKind.Void)
  | Request.Struct n f fn pk rc => StructType (mkStruct n f fn pk rc)
  | Request.Pointer p o s => PointerType p o s
  | Request.Function_ r ps va it => FunctionType r ps va it
  | Request.Closure r ps => HIRClosureType r ps
  | Request.Nullable p => HIRNullableType p
  | Request.Weak p => HIRWeakType p
  end.
End Interning.

(** ** What identifies a type *)

(** Structs and unions are identified by name, anything else by all its data. *)
Definition nominal_eq (t1 t2 : HIRType) : Prop :=
  match t1, t2 with
  | StructType i, StructType j => st_name i = st_name j /\ isRefClass i = isRefClass j
  | UnionType n _ _, UnionType m _ _ => n = m
  | _, _ => t1 = t2
  end.

(** The kinds of [PrimitiveType::classof]. *)
Definition proper (t : HIRType) : Prop :=
  match t with PrimitiveType k => k = TypeKind.Void \/ k = TypeKind.Bool | _ => True end.

(** A request whose identification is the profile of the object it describes: for
    pointers the two enumerators are added in the other order. *)
Definition keyed (r : Request.t) : Prop :=
  match r with
  | Request.Pointer _ own state => Ownership.code own = BorrowState.code state
  | _ => True
  end.

Lemma map_AddPointer_inj (l k : list TypePtr) (a b : NodeID) :
  List.length a = List.length b ->
  (map AddPointer l ++ a = map AddPointer k ++ b)%list -> l = k /\ a = b.
Proof.
  intros L. revert k. induction l as [| x l IH]; intros [| y k] E; simpl in E.
  - done.
  - exfalso. subst a. simpl in L. rewrite length_app, length_map in L. lia.
  - exfalso. subst b. simpl in L. rewrite length_app, length_map in L. lia.
  - injection E as -> E. by destruct (IH k E) as [-> ->].
Qed.

Lemma map_AddPointer_inj' (l k : list TypePtr) :
  map AddPointer l = map AddPointer k -> l = k.
Proof.
  intros E. destruct (map_AddPointer_inj l k [] []) as [-> _]; [done | by rewrite !app_nil_r | done].
Qed.

Lemma Ownership_code_inj o1 o2 : Z.of_nat (Ownership.code o1) = Z.of_nat (Ownership.code o2) -> o1 = o2.
Proof. by destruct o1, o2. Qed.
Lemma BorrowState_code_inj b1 b2 :
  Z.of_nat (BorrowState.code b1) = Z.of_nat (BorrowState.code b2) -> b1 = b2.
Proof. by destruct b1, b2. Qed.

Lemma Profile_kind t1 t2 : Profile t1 = Profile t2 -> getKind t1 = getKind t2.
Proof.
  intros E. assert (H : AddKind (getKind t1) = AddKind (getKind t2)) by exact (f_equal (List.hd (AddBoolean true)) E).
  unfold AddKind in H. injection H as H. apply Nat2Z.inj in H.
  by destruct (getKind t1), (getKind t2).
Qed.

Lemma Profile_inj t1 t2 :
  proper t1 -> proper t2 -> Profile t1 = Profile t2 -> nominal_eq t1 t2.
Proof.
  intros P1 P2 E. pose proof (Profile_kind _ _ E) as K.
  destruct t1, t2; simpl in K; try discriminate K; try done;
    try (destruct P1 as [-> | ->]; discriminate K); try (destruct P2 as [-> | ->]; discriminate K);
    unfold Profile in E; cbn [getKind] in E; cbn [nominal_eq]; try (simplify_eq; done).
  - injection E as -> E1 E2.
    by rewrite (BorrowState_code_inj _ _ E1), (Ownership_code_inj _ _ E2).
  - injection E as -> E. destruct (map_AddPointer_inj params params0
      [AddBoolean isVariadic; AddBoolean isInterrupt]
      [AddBoolean isVariadic0; AddBoolean isInterrupt0]) as [-> E2]; [done | exact E |].
    by simplify_eq.
  - injection E as -> E1 E2.
    by rewrite (BorrowState_code_inj _ _ E1), (Ownership_code_inj _ _ E2).
  - injection E as -> E. by rewrite (map_AddPointer_inj' _ _ E).
Qed.

Lemma nominal_eq_Profile t1 t2 : nominal_eq t1 t2 -> Profile t1 = Profile t2.
Proof. destruct t1, t2; simpl; intros H; simplify_eq; try done. destruct H as [H1 H2].
  unfold Profile. simpl. by rewrite H1, H2. Qed.

(** ** Interning *)

(** The state between requests. *)
Record canonical (M : HIRModule) : Prop := {
  cn_fresh : forall p, is_Some (hm_types M !! p) -> (p < next_type M)%N;
  cn_object : forall p, p ∈ uniqueTypes M -> exists t, hm_types M !! p = Some t /\ proper t;
  cn_unique : forall p q t u, p ∈ uniqueTypes M -> q ∈ uniqueTypes M ->
    hm_types M !! p = Some t -> hm_types M !! q = Some u -> Profile t = Profile u -> p = q;
}.

Lemma newHIRModule_canonical : canonical newHIRModule.
Proof.
  split; simpl.
  - intros p [t E]. by rewrite lookup_empty in E.
  - intros p H. by apply not_elem_of_nil in H.
  - intros p q t u H. by apply not_elem_of_nil in H.
Qed.

Lemma requested_proper r : proper (requested r).
Proof. destruct r as [| | | | | | | | | | | | | | | | | | [] | | | | | |]; simpl; auto. Qed.

Section Canonical.
Context (F : TypeHeap -> list TypePtr -> NodeID -> option TypePtr).
Context `{FS : !FoldingSet F}.

Lemma get_keyed r M : keyed r -> get F r M = intern F (Profile (requested r)) (requested r) M.
Proof.
  intros K. destruct r; try done. unfold get, getPointerType, requested, Profile.
  simpl in K. unfold AddOwnership, AddState. by rewrite K.
Qed.

Lemma intern_found t M p :
  canonical M -> p ∈ uniqueTypes M -> (exists u, hm_types M !! p = Some u /\ Profile u = Profile t) ->
  intern F (Profile t) t M = (p, M).
Proof.
  intros C Hp (u & Eu & Pu). unfold intern. rewrite <- Pu.
  destruct (find_complete (hm_types M) (uniqueTypes M) p u Hp Eu) as [q Eq].
  rewrite Eq. destruct (find_sound _ _ _ _ Eq) as (Hq & v & Ev & Pv).
  by rewrite (cn_unique M C q p v u).
Qed.

Lemma intern_spec t M :
  canonical M -> proper t ->
  let '(p, M') := intern F (Profile t) t M in
  canonical M' /\ p ∈ uniqueTypes M'
  /\ (exists u, hm_types M' !! p = Some u /\ proper u /\ Profile u = Profile t)
  /\ (forall q u, hm_types M !! q = Some u -> hm_types M' !! q = Some u)
  /\ (forall q, q ∈ uniqueTypes M -> q ∈ uniqueTypes M').
Proof.
  intros C Pt. unfold intern.
  destruct (F (hm_types M) (uniqueTypes M) (Profile t)) as [p |] eqn:E.
  - destruct (find_sound _ _ _ _ E) as (Hp & u & Eu & Pu).
    destruct (cn_object M C p Hp) as (u' & Eu' & Pu'). split_and!; try done.
    exists u. assert (u' = u) as -> by congruence. done.
  - assert (Fresh : forall q u, hm_types M !! q = Some u -> q <> next_type M).
    { intros q u Eq ->. pose proof (cn_fresh M C _ (ex_intro _ u Eq)). lia. }
    split_and!; simpl.
    + split; simpl.
      * intros p [u Eu]. destruct (decide (p = next_type M)) as [-> | N]; [lia |].
        rewrite lookup_insert_ne in Eu by done. pose proof (cn_fresh M C p (ex_intro _ u Eu)). lia.
      * intros p Hp. apply elem_of_app in Hp as [Hp | Hp].
        { destruct (cn_object M C p Hp) as (u & Eu & Pu). exists u.
          rewrite lookup_insert_ne by (by apply not_eq_sym, (Fresh p u)). done. }
        apply list_elem_of_singleton in Hp as ->. exists t. by rewrite lookup_insert_eq.
      * assert (New : forall q u, q ∈ uniqueTypes M -> hm_types M !! q = Some u ->
          Profile u <> Profile t).
        { intros q u Hq Eq P. destruct (find_complete (hm_types M) (uniqueTypes M) q u Hq Eq) as [v Ev].
          by rewrite P, E in Ev. }
        assert (Old : forall q, q ∈ uniqueTypes M -> q <> next_type M).
        { intros q Hq. destruct (cn_object M C q Hq) as (u & Eu & _). by apply (Fresh q u). }
        intros p q u v Hp Hq Ep Eq P. apply elem_of_app in Hp, Hq.
        destruct Hp as [Hp | Hp], Hq as [Hq | Hq].
        { rewrite lookup_insert_ne in Ep, Eq by (by apply not_eq_sym, Old).
          by apply (cn_unique M C p q u v). }
        { apply list_elem_of_singleton in Hq as ->. rewrite lookup_insert_eq in Eq.
          rewrite lookup_insert_ne in Ep by (by apply not_eq_sym, Old).
          injection Eq as <-. by destruct (New p u). }
        { apply list_elem_of_singleton in Hp as ->. rewrite lookup_insert_eq in Ep.
          rewrite lookup_insert_ne in Eq by (by apply not_eq_sym, Old).
          injection Ep as <-. by destruct (New q v). }
        { apply list_elem_of_singleton in Hp as ->. by apply list_elem_of_singleton in Hq as ->. }
    + apply elem_of_app. right. left.
    + exists t. by rewrite lookup_insert_eq.
    + intros q u Eq. rewrite lookup_insert_ne; [done |]. by apply not_eq_sym, (Fresh q u).
    + intros q Hq. apply elem_of_app. by left.
Qed.

(** C16: interning makes the comparison of addresses decide the equality of types.  On a
    canonical module, two requests one after the other, to any getters, those for pointers with
    an ownership and a borrow state of the same number only ([keyed]: the others are looked up
    under a key that is not the one they are entered under, which is the claim on
    [getPointerType] below), answer with the
    same address exactly when they describe the same type (structs and unions being
    identified by name); each answer is an object that is the type asked for; asking
    again changes nothing; no object is lost; and the module stays canonical. *)
Theorem interning_canonical (r1 r2 : Request.t) M :
  canonical M -> keyed r1 -> keyed r2 ->
  let '(p1, M1) := get F r1 M in
  let '(p2, M2) := get F r2 M1 in
  canonical M1 /\ canonical M2
  /\ (p1 = p2 <-> nominal_eq (requested r1) (requested r2))
  /\ (exists t, hm_types M2 !! p1 = Some t /\ nominal_eq t (requested r1))
  /\ (exists t, hm_types M2 !! p2 = Some t /\ nominal_eq t (requested r2))
  /\ get F r1 M2 = (p1, M2)
  /\ (forall q t, hm_types M !! q = Some t -> hm_types M2 !! q = Some t).
Proof.
  intros C K1 K2. rewrite (get_keyed r1 M K1).
  pose proof (intern_spec (requested r1) M C (requested_proper r1)) as S1.
  destruct (intern F (Profile (requested r1)) (requested r1) M) as [p1 M1].
  destruct S1 as (C1 & U1 & (t1 & E1 & T1 & P1) & X1 & Y1). rewrite (get_keyed r2 M1 K2).
  pose proof (intern_spec (requested r2) M1 C1 (requested_proper r2)) as S2.
  destruct (intern F (Profile (requested r2)) (requested r2) M1) as [p2 M2].
  destruct S2 as (C2 & U2 & (t2 & E2 & T2 & P2) & X2 & Y2).
  pose proof (X2 p1 t1 E1) as E1'. split_and!; try done.
  - split; intros H.
    + subst p2. apply Profile_inj; try apply requested_proper.
      assert (t1 = t2) as -> by congruence. congruence.
    + apply (cn_unique M2 C2 p1 p2 t1 t2); auto. apply nominal_eq_Profile in H. congruence.
  - exists t1. split; [done |]. apply Profile_inj; [done | apply requested_proper | done].
  - exists t2. split; [done |]. apply Profile_inj; [done | apply requested_proper | done].
  - rewrite (get_keyed r1 M2 K1). apply intern_found; [done | by apply Y2 |]. by exists t1.
  - intros q t Eq. by apply X2, X1.
Qed.

(** C33: pointer types are entered under one identification and looked up under another:
    [getPointerType] adds the ownership before the borrow state, the profile of a pointer
    after it.  When the two enumerators have different values, a request for a pointer
    never finds the object that an earlier request for the same pointer made, and an
    object it does find is another type, a pointer with the two values exchanged. *)
Theorem getPointerType_not_canonical pointee own state M :
  Ownership.code own <> BorrowState.code state ->
  canonical M ->
  let '(p, M1) := getPointerType F pointee own state M in
  match hm_types M !! p with
  | Some t => exists own' state', t = PointerType pointee own' state'
                /\ Ownership.code own' = BorrowState.code state
                /\ BorrowState.code state' = Ownership.code own
  | None =>
      hm_types M1 !! p = Some (PointerType pointee own state)
      /\ (getPointerType F pointee own state M1).1 <> p
  end.
Proof.
  intros N C. unfold getPointerType, intern.
  set (ID := [AddKind TypeKind.Pointer; AddPointer pointee; AddOwnership own; AddState state]).
  assert (Swap : forall t, proper t -> Profile t = ID -> exists own' state',
    t = PointerType pointee own' state' /\ Ownership.code own' = BorrowState.code state
    /\ BorrowState.code state' = Ownership.code own).
  { intros t Pt E. assert (Kt : getKind t = TypeKind.Pointer).
    { assert (S : exists o' s', Profile t = Profile (PointerType pointee o' s')).
      { exists (match state with BorrowState.None_ => Ownership.None_ | BorrowState.View => Ownership.Owned
          | BorrowState.Mut => Ownership.Borrowed | BorrowState.Lock => Ownership.Shared end),
          (match own with Ownership.None_ => BorrowState.None_ | Ownership.Owned => BorrowState.View
          | Ownership.Borrowed => BorrowState.Mut | Ownership.Shared => BorrowState.Lock end).
        rewrite E. by destruct own, state. }
      destruct S as (o' & s' & S). by apply Profile_kind in S. }
    destruct t; try discriminate Kt; [by destruct Pt as [-> | ->] |].
    unfold Profile, ID in E. injection E as -> E1 E2. apply Nat2Z.inj in E1, E2.
    by exists own0, state0. }
  destruct (F (hm_types M) (uniqueTypes M) ID) as [p |] eqn:E.
  - destruct (find_sound _ _ _ _ E) as (Hp & t & Et & Pt). rewrite Et.
    destruct (cn_object M C p Hp) as (t' & Et' & Prt). apply Swap; [congruence | done].
  - assert (Fr : hm_types M !! next_type M = None).
    { destruct (hm_types M !! next_type M) eqn:E'; [| done].
      pose proof (cn_fresh M C _ (ex_intro _ _ E')). lia. }
    rewrite Fr. simpl. rewrite lookup_insert_eq. split; [done |].
    destruct (F _ (uniqueTypes M ++ [next_type M])%list ID) as [q |] eqn:E2;
      [simpl | exact (N.neq_succ_diag_l _)].
    intros ->. destruct (find_sound _ _ _ _ E2) as (_ & t & Et & Pt). simpl in Et.
    rewrite lookup_insert_eq in Et. injection Et as <-. unfold Profile, ID in Pt.
    injection Pt as E1 _. apply Nat2Z.inj in E1. by symmetry in E1.
Qed.

End Canonical.

(** A lookup that keeps what is promised: the first node with the profile. *)
Definition first_with_profile (H : TypeHeap) (l : list TypePtr) (id : NodeID) : option TypePtr :=
  List.find (fun p => match H !! p with Some t => bool_decide (Profile t = id) | None => false end) l.

Lemma first_with_profile_spec : FoldingSet first_with_profile.
Proof.
  split.
  - intros H l id p E. apply List.find_some in E as [Hp E]. split; [by apply list_elem_of_In |].
    destruct (H !! p) as [t |] eqn:Et; [| done]. exists t. split; [done |].
    by apply bool_decide_eq_true in E.
  - intros H l p t Hp Et. unfold first_with_profile.
    destruct (List.find _ l) as [q |] eqn:E; [by eexists |].
    apply list_elem_of_In in Hp. pose proof (List.find_none _ _ E p Hp) as X. simpl in X.
    rewrite Et in X. by rewrite bool_decide_true in X.
Qed.

Lemma interning_canonical_witness :
  let '(p1, M1) := get first_with_profile (Request.Int 32 true false) newHIRModule in
  let '(p2, M2) := get first_with_profile (Request.Slice p1) M1 in
  p1 <> p2 /\ get first_with_profile (Request.Int 32 true false) M2 = (p1, M2).
Proof.
  pose proof first_with_profile_spec as FS.
  destruct (interning_canonical first_with_profile (Request.Int 32 true false) (Request.Slice 1)
    newHIRModule newHIRModule_canonical Logic.I Logic.I) as (_ & _ & H3 & _ & _ & H6 & _).
  split; [| exact H6]. intros E. by apply H3 in E.
Defined.

Lemma getPointerType_not_canonical_witness :
  let '(p, M1) := getPointerType first_with_profile 1 Ownership.Shared BorrowState.None_ newHIRModule in
  (getPointerType first_with_profile 1 Ownership.Shared BorrowState.None_ M1).1 <> p.
Proof.
  pose proof first_with_profile_spec as FS.
  pose proof (getPointerType_not_canonical first_with_profile 1 Ownership.Shared
    BorrowState.None_ newHIRModule) as H.
  destruct H as [_ H]; [done | exact newHIRModule_canonical | exact H].
Defined.

(** ** Texts *)

(** The modules that requests build, each about types of the module. *)
Inductive built (F : TypeHeap -> list TypePtr -> NodeID -> option TypePtr) : HIRModule -> Prop :=
  | built_new : built F newHIRModule
  | built_get r M :
      built F M -> (forall q, q ∈ components (requested r) -> is_Some (hm_types M !! q)) ->
      built F (get F r M).2.

Lemma get_cases F r M :
  (get F r M).2 = M \/
  (get F r M).2 = {| hm_types := <[next_type M := requested r]> (hm_types M);
                     uniqueTypes := uniqueTypes M ++ [next_type M];
                     next_type := N.succ (next_type M) |}.
Proof.
  assert (H : exists id, get F r M = intern F id (requested r) M)
    by (destruct r; eexists; reflexivity).
  destruct H as [id ->]. unfold intern. destruct (F _ _ id); [by left | by right].
Qed.

Lemma built_founded F M :
  built F M ->
  founded (hm_types M) /\ forall p, is_Some (hm_types M !! p) -> (p < next_type M)%N.
Proof.
  induction 1 as [| r M B [W L] Hc].
  - split; [intros p t q E | intros p [t E]]; simpl in E; by rewrite lookup_empty in E.
  - destruct (get_cases F r M) as [-> | ->]; [done |]. simpl.
    assert (Fr : forall q, is_Some (hm_types M !! q) -> q <> next_type M)
      by (intros q Hq ->; specialize (L _ Hq); lia).
    split.
    + intros p t q E Hq. destruct (decide (p = next_type M)) as [-> | N].
      * rewrite lookup_insert_eq in E. injection E as <-. specialize (Hc q Hq).
        split; [| by apply L]. by rewrite lookup_insert_ne by (by apply not_eq_sym, Fr).
      * rewrite lookup_insert_ne in E by done. destruct (W p t q E Hq) as [H1 H2].
        split; [| done]. by rewrite lookup_insert_ne by (by apply not_eq_sym, Fr).
    + intros p Hp. destruct (decide (p = next_type M)) as [-> | N]; [lia |].
      rewrite lookup_insert_ne in Hp by done. specialize (L p Hp). lia.
Qed.

(** The virtual functions that follow inner types end on every type of a module that
    the getters built: [toString] returns a text, and [stripModifiers] returns a type that
    is not a view, mut, lock, const or volatile and that it does not change further. *)
Theorem built_text F M p :
  built F M -> is_Some (hm_types M !! p) ->
  let fuel := N.to_nat (next_type M) in
  is_Some (toString fuel (hm_types M) p)
  /\ exists q t, stripModifiers fuel (hm_types M) p = Some q /\ hm_types M !! q = Some t
       /\ is_modifier t = false /\ stripModifiers fuel (hm_types M) q = Some q.
Proof.
  intros B Hp fuel. destruct (built_founded F M B) as [W L]. specialize (L p Hp).
  split; [apply toString_total; [done | done | lia] |].
  destruct (stripModifiers_spec fuel (hm_types M) p) as (q & t & E1 & E2 & E3 & E4);
    [done | done | lia |].
  exists q, t. split_and!; try done. destruct fuel as [| f] eqn:Ef; [lia | apply E4].
Qed.

Lemma built_text_witness :
  exists M p, toString 5 (hm_types M) p = Some "const i32[]" /\
    is_Some (toString (N.to_nat (next_type M)) (hm_types M) p).
Proof.
  set (F := first_with_profile).
  set (M1 := (get F (Request.Int 32 true false) newHIRModule).2).
  set (M2 := (get F (Request.Const 1) M1).2). set (M3 := (get F (Request.Slice 2) M2).2).
  exists M3, 3%N. split; [by vm_compute |]. apply (built_text F M3).
  - apply built_get; [apply built_get; [apply built_get; [apply built_new |] |] |].
    + intros q Hq. by apply not_elem_of_nil in Hq.
    + intros q Hq. apply list_elem_of_singleton in Hq as ->. by eexists.
    + intros q Hq. apply list_elem_of_singleton in Hq as ->. by eexists.
  - by eexists.
Defined.
