(* ===== verification/MIR.v ===== *)
(** * The mid-level IR: values, instructions and blocks

    The object graph of [include/moksha/MIR/MIRInst.h], [MIRBlock.h] and
    [MIRFunction.h].  A [MIRValue *] is an address; the objects live in a heap that
    is split by [ValueKind], so that [dyn_cast] is a lookup in the map of that
    kind.  [unique_ptr] ownership is membership in the owner's list.  Reading
    through a dangling or null pointer, which is undefined in C++, finds nothing
    in the heap; writing through one changes nothing. *)

From S2P Require Import Prelude Diag.
From S2P Require Export HIRType.
From stdpp Require Export fin_maps.

(** Addresses of values; [nullptr] is 0. *)
Abbreviation ref := N.
Definition nullptr : ref := 0%N.

Module MemoryOrder.
(** [enum class MemoryOrder]. *)
Inductive t : Set := Relaxed | Consume | Acquire | Release | AcqRel | SeqCst.
End MemoryOrder.

Module AtomicOp.
(** [enum class AtomicOp]. *)
Inductive t : Set := Xchg | Add | Sub | And | Nand | Or | Xor | Max | Min | UMax | UMin.
End AtomicOp.

Module Opcode.
(** [enum class Opcode], in declaration order. *)
Inductive t : Set :=
  | Alloca | Load | Store | GetElementPtr | InsertValue | ExtractValue | Add | Sub
  | Mul | Div | Mod | Pow | FAdd | FSub | FMul | FDiv | And | Or | Xor | Shl | Shr
  | ICmp | FCmp | Br | CondBr | Return | Unreachable | Call | Switch | BitCast
  | IntToFloat | FloatToInt | ZExt | SExt | Trunc | PtrToInt | IntToPtr | AnyCast
  | ArrayToSlice | SliceToArray | Upcast | Retain | Release | StoreWeak | LoadWeak
  | Phi | Invoke | LandingPad | Resume | Throw | InlineAsm | MakeClosure
  | MakeShared | Spawn | Await | AtomicLoad | AtomicStore | AtomicRMW
  | AtomicCmpXchg | Fence.

Definition all : list t :=
  [Alloca; Load; Store; GetElementPtr; InsertValue; ExtractValue; Add; Sub; Mul;
   Div; Mod; Pow; FAdd; FSub; FMul; FDiv; And; Or; Xor; Shl; Shr; ICmp; FCmp; Br;
   CondBr; Return; Unreachable; Call; Switch; BitCast; IntToFloat; FloatToInt;
   ZExt; SExt; Trunc; PtrToInt; IntToPtr; AnyCast; ArrayToSlice; SliceToArray;
   Upcast; Retain; Release; StoreWeak; LoadWeak; Phi; Invoke; LandingPad; Resume;
   Throw; InlineAsm; MakeClosure; MakeShared; Spawn; Await; AtomicLoad;
   AtomicStore; AtomicRMW; AtomicCmpXchg; Fence].

Definition code (o : t) : nat :=
  match o with
  | Alloca => 0 | Load => 1 | Store => 2 | GetElementPtr => 3 | InsertValue => 4
  | ExtractValue => 5 | Add => 6 | Sub => 7 | Mul => 8 | Div => 9 | Mod => 10
  | Pow => 11 | FAdd => 12 | FSub => 13 | FMul => 14 | FDiv => 15 | And => 16
  | Or => 17 | Xor => 18 | Shl => 19 | Shr => 20 | ICmp => 21 | FCmp => 22
  | Br => 23 | CondBr => 24 | Return => 25 | Unreachable => 26 | Call => 27
  | Switch => 28 | BitCast => 29 | IntToFloat => 30 | FloatToInt => 31 | ZExt => 32
  | SExt => 33 | Trunc => 34 | PtrToInt => 35 | IntToPtr => 36 | AnyCast => 37
  | ArrayToSlice => 38 | SliceToArray => 39 | Upcast => 40 | Retain => 41
  | Release => 42 | StoreWeak => 43 | LoadWeak => 44 | Phi => 45 | Invoke => 46
  | LandingPad => 47 | Resume => 48 | Throw => 49 | InlineAsm => 50
  | MakeClosure => 51 | MakeShared => 52 | Spawn => 53 | Await => 54
  | AtomicLoad => 55 | AtomicStore => 56 | AtomicRMW => 57 | AtomicCmpXchg => 58
  | Fence => 59
  end.

#[export] Instance enum : Enum t.
Proof. refine {| enum_all := all; enum_code := code |}. abstract (by intros []). Defined.

End Opcode.
#[export] Existing Instance Opcode.enum.

Module CmpPredicate.
(** [CompareInst::Predicate]. *)
Inductive t : Set := EQ | NE | LT | LE | GT | GE | ULT | ULE | UGT | UGE.
End CmpPredicate.

Module FCmpPredicate.
(** [FCmpInst::Predicate]. *)
Inductive t : Set := OEQ | ONE | OLT | OLE | OGT | OGE | UEQ | UNE | ULT | ULE | UGT | UGE.
End FCmpPredicate.

Module ThreadKind.
(** [hir::ThreadKind]. *)
Inductive t : Set := Strong | Weak | Detached.
End ThreadKind.

Module BorrowKind.
(** [enum class BorrowKind]. *)
Inductive t : Set := None_ | View | Mut | Lock.
#[export] Instance eq_dec : EqDecision t.
Proof. solve_decision. Defined.
End BorrowKind.
#[export] Existing Instance BorrowKind.eq_dec.

(** The subclasses of [MIRInst], each with its own fields.  [BinaryInst],
    [CastInst] and [ARCInst] stand for several opcodes and carry theirs. *)
Inductive InstKind : Type :=
  | BranchInst (target : ref)
  | CondBranchInst (cond trueBlock falseBlock : ref)
  | SwitchInst (cond defaultBlock : ref) (cases : list (ref * ref))
  | ReturnInst (val : ref)
  | UnreachableInst
  | AllocaInst (allocatedType : TypePtr) (alignment : Z)
  | LoadInst (ptr : ref) (alignment : Z) (isVolatile : bool)
  | StoreInst (val ptr : ref) (alignment : Z) (isVolatile : bool)
  | GetElementPtrInst (ptr : ref) (indices : list ref)
  | InsertValueInst (agg val : ref) (index : Z)
  | ExtractValueInst (agg : ref) (index : Z)
  | ARCInst (op : Opcode.t) (object dropFunc : ref)
  | StoreWeakInst (val ptr : ref)
  | LoadWeakInst (ptr : ref)
  | BinaryInst (op : Opcode.t) (lhs rhs : ref)
  | CastInst (op : Opcode.t) (value : ref) (byteOffset : Z)
  | CompareInst (pred : CmpPredicate.t) (lhs rhs : ref)
  | FCmpInst (pred : FCmpPredicate.t) (lhs rhs : ref)
  | PhiInst (incoming : list (ref * ref))
  | CallInst (callee : ref) (args : list ref) (isVarArg : bool)
  | InvokeInst (callee : ref) (args : list ref) (normalDest unwindDest : ref)
  | LandingPadInst (catchTypes : list TypePtr)
  | ResumeInst (exception : ref)
  | ThrowInst (exception unwindDest : ref)
  | InlineAsmInst (asmString constraints : string) (args : list ref) (isVolatile : bool)
  | MakeClosureInst (funcPtr : ref) (captures : list ref)
  | MakeSharedInst (operand : ref)
  | SpawnInst (closure : ref) (threadKind : ThreadKind.t)
  | AwaitInst (promise : ref)
  | AtomicLoadInst (pointer : ref) (order : MemoryOrder.t)
  | AtomicStoreInst (value pointer : ref) (order : MemoryOrder.t)
  | AtomicRMWInst (op : AtomicOp.t) (pointer value : ref) (order : MemoryOrder.t)
  | AtomicCmpXchgInst (pointer expected desired : ref)
      (successOrder failureOrder : MemoryOrder.t)
  | FenceInst (order : MemoryOrder.t).

(** [class MIRInst]: the subclass with the members of [MIRInst] and [MIRValue].  The
    constructor of [MIRValue] leaves the borrow kind as it is in memory: [None] until
    [setBorrowKind] is called. *)
Record MIRInst := {
  i_kind : InstKind;
  i_type : TypePtr;
  i_name : string;
  i_loc : SourceLocation;
  i_borrow : option BorrowKind.t;
  i_parent : ref;
}.

(** [getOpcode()]. *)
Definition getOpcode (i : MIRInst) : Opcode.t :=
  match i_kind i with
  | BranchInst _ => Opcode.Br
  | CondBranchInst _ _ _ => Opcode.CondBr
  | SwitchInst _ _ _ => Opcode.Switch
  | ReturnInst _ => Opcode.Return
  | UnreachableInst => Opcode.Unreachable
  | AllocaInst _ _ => Opcode.Alloca
  | LoadInst _ _ _ => Opcode.Load
  | StoreInst _ _ _ _ => Opcode.Store
  | GetElementPtrInst _ _ => Opcode.GetElementPtr
  | InsertValueInst _ _ _ => Opcode.InsertValue
  | ExtractValueInst _ _ => Opcode.ExtractValue
  | ARCInst op _ _ => op
  | StoreWeakInst _ _ => Opcode.StoreWeak
  | LoadWeakInst _ => Opcode.LoadWeak
  | BinaryInst op _ _ => op
  | CastInst op _ _ => op
  | CompareInst _ _ _ => Opcode.ICmp
  | FCmpInst _ _ _ => Opcode.FCmp
  | PhiInst _ => Opcode.Phi
  | CallInst _ _ _ => Opcode.Call
  | InvokeInst _ _ _ _ => Opcode.Invoke
  | LandingPadInst _ => Opcode.LandingPad
  | ResumeInst _ => Opcode.Resume
  | ThrowInst _ _ => Opcode.Throw
  | InlineAsmInst _ _ _ _ => Opcode.InlineAsm
  | MakeClosureInst _ _ => Opcode.MakeClosure
  | MakeSharedInst _ => Opcode.MakeShared
  | SpawnInst _ _ => Opcode.Spawn
  | AwaitInst _ => Opcode.Await
  | AtomicLoadInst _ _ => Opcode.AtomicLoad
  | AtomicStoreInst _ _ _ => Opcode.AtomicStore
  | AtomicRMWInst _ _ _ _ => Opcode.AtomicRMW
  | AtomicCmpXchgInst _ _ _ _ _ => Opcode.AtomicCmpXchg
  | FenceInst _ => Opcode.Fence
  end.

(** [class MIRConstant] and its subclasses; an [int] payload is a [uint64_t], a
    double is left to [ConstantFolding]. *)
Inductive ConstKind {F : Type} : Type :=
  | ConstantInt (value : Z)
  | ConstantFloat (value : F)
  | ConstantDecimal (value : string)
  | ConstantBool (value : bool)
  | ConstantString (value : string)
  | ConstantNull
  | ConstantUndef
  | ConstantArray (elements : list ref)
  | ConstantSlice (elements : list ref)
  | ConstantMap (entries : list (ref * ref))
  | ConstantStruct (fields : list ref)
  | ConstantUnion (activeField : ref)
  | ConstantBitCast (value : ref)
  | ConstantUpcast (value : ref)
  | ConstantAnyCast (value : ref)
  | ConstantArrayToSlice (value : ref)
  | ConstantSliceToArray (value : ref).
Arguments ConstKind : clear implicits.

(** [class MIRBlock]: the instructions it owns, oldest first, and its recorded CFG
    edges, vectors used as sets. *)
Record MIRBlock := {
  b_name : string;
  instructions : list ref;
  predecessors : list ref;
  successors : list ref;
}.

(** The blocks and instructions a function owns, by address; [blocks] is
    [MIRFunction::blocks], in order, with the entry block first.  Addresses from
    [next_ref] on are free: an allocation takes the first one. *)
Record MIRFunction := {
  insts : gmap ref MIRInst;
  bbs : gmap ref MIRBlock;
  blocks : list ref;
  next_ref : ref;
}.

Definition set_insts (m : gmap ref MIRInst) (F : MIRFunction) : MIRFunction :=
  {| insts := m; bbs := bbs F; blocks := blocks F; next_ref := next_ref F |}.
Definition set_bbs (m : gmap ref MIRBlock) (F : MIRFunction) : MIRFunction :=
  {| insts := insts F; bbs := m; blocks := blocks F; next_ref := next_ref F |}.
Definition set_blocks (l : list ref) (F : MIRFunction) : MIRFunction :=
  {| insts := insts F; bbs := bbs F; blocks := l; next_ref := next_ref F |}.

(** Assignment to fields of the object at an address. *)
Definition upd_inst (i : ref) (f : MIRInst -> MIRInst) (F : MIRFunction) : MIRFunction :=
  set_insts (alter f i (insts F)) F.
Definition upd_block (b : ref) (f : MIRBlock -> MIRBlock) (F : MIRFunction) : MIRFunction :=
  set_bbs (alter f b (bbs F)) F.

Definition with_kind (k : InstKind) (i : MIRInst) : MIRInst :=
  {| i_kind := k; i_type := i_type i; i_name := i_name i; i_loc := i_loc i;
     i_borrow := i_borrow i; i_parent := i_parent i |}.
Definition setParent (b : ref) (i : MIRInst) : MIRInst :=
  {| i_kind := i_kind i; i_type := i_type i; i_name := i_name i; i_loc := i_loc i;
     i_borrow := i_borrow i; i_parent := b |}.
Definition setBorrowKind (bk : BorrowKind.t) (i : MIRInst) : MIRInst :=
  {| i_kind := i_kind i; i_type := i_type i; i_name := i_name i; i_loc := i_loc i;
     i_borrow := Some bk; i_parent := i_parent i |}.
Definition with_instructions (l : list ref) (b : MIRBlock) : MIRBlock :=
  {| b_name := b_name b; instructions := l; predecessors := predecessors b;
     successors := successors b |}.
Definition with_predecessors (l : list ref) (b : MIRBlock) : MIRBlock :=
  {| b_name := b_name b; instructions := instructions b; predecessors := l;
     successors := successors b |}.
Definition with_successors (l : list ref) (b : MIRBlock) : MIRBlock :=
  {| b_name := b_name b; instructions := instructions b; predecessors := predecessors b;
     successors := l |}.

(** [std::make_unique] of an instruction, and the destruction of one. *)
Definition new_inst (J : MIRInst) (F : MIRFunction) : ref * MIRFunction :=
  (next_ref F,
   {| insts := <[next_ref F := J]> (insts F); bbs := bbs F; blocks := blocks F;
      next_ref := N.succ (next_ref F) |}).
Definition free_inst (i : ref) (F : MIRFunction) : MIRFunction :=
  set_insts (delete i (insts F)) F.

(** Reading: [getInstructions], [getPredecessors], [getSuccessors]; a dangling block
    reads as empty. *)
Definition getInstructions (b : ref) (F : MIRFunction) : list ref :=
  match bbs F !! b with Some B => instructions B | None => [] end.
Definition getPredecessors (b : ref) (F : MIRFunction) : list ref :=
  match bbs F !! b with Some B => predecessors B | None => [] end.
Definition getSuccessors (b : ref) (F : MIRFunction) : list ref :=
  match bbs F !! b with Some B => successors B | None => [] end.

Definition getEntryBlock (F : MIRFunction) : ref := default nullptr (head (blocks F)).

(** The subclass of the instruction at [i], for [dyn_cast_or_null]. *)
Definition kind_of (i : ref) (F : MIRFunction) : option InstKind := i_kind <$> insts F !! i.

(** [getInstructionsMut().pop_back()]: the last instruction is destroyed. *)
Definition pop_back (b : ref) (F : MIRFunction) : MIRFunction :=
  match last (getInstructions b F) with
  | None => F
  | Some i => free_inst i (upd_block b (fun B => with_instructions (removelast (instructions B)) B) F)
  end.

(** [getInstructions().back()], [nullptr] in an empty block. *)
Definition terminator (b : ref) (F : MIRFunction) : ref :=
  default nullptr (last (getInstructions b F)).

Definition isDeclaration (F : MIRFunction) : bool := bool_decide (blocks F = []).

(** ** CFG edges: [MIRBlock.cpp] *)

Definition addPredecessor (b pred : ref) : MIRFunction -> MIRFunction :=
  upd_block b (fun B => with_predecessors (add_unique pred (predecessors B)) B).
Definition addSuccessor (b succ : ref) : MIRFunction -> MIRFunction :=
  upd_block b (fun B => with_successors (add_unique succ (successors B)) B).
Definition removePredecessor (b pred : ref) : MIRFunction -> MIRFunction :=
  upd_block b (fun B => with_predecessors (erase_all pred (predecessors B)) B).
Definition removeSuccessor (b succ : ref) : MIRFunction -> MIRFunction :=
  upd_block b (fun B => with_successors (erase_all succ (successors B)) B).

(** The blocks a terminator transfers control to, in the order in which the code
    visits them; an absent unwind destination is [nullptr]. *)
Definition targets (k : InstKind) : list ref :=
  match k with
  | BranchInst t => [t]
  | CondBranchInst _ t f => [t; f]
  | SwitchInst _ d cs => d :: map snd cs
  | InvokeInst _ _ n u => [n; u]
  | ThrowInst _ u => [u]
  | _ => []
  end.

(** The edges from [b] to a list of targets: null targets are skipped. *)
Definition wire (b : ref) (ts : list ref) (F : MIRFunction) : MIRFunction :=
  fold_left (fun F t =>
    if N.eqb t nullptr then F else addPredecessor t b (addSuccessor b t F)) ts F.

(** [MIRBlock::addInstruction]: [i] is the address of the instruction handed over,
    which is in the heap already; its parent and its edges are set before it is
    appended. *)
Definition addInstruction (b i : ref) (F : MIRFunction) : MIRFunction :=
  match insts F !! i with
  | None => F
  | Some J =>
      let F := upd_inst i (setParent b) F in
      let F := wire b (targets (i_kind J)) F in
      upd_block b (fun B => with_instructions (instructions B ++ [i]) B) F
  end.

(** ** Phis and operands: [MIRInst.cpp] *)

(** [PhiInst::addIncoming] and [PhiInst::removeIncoming]. *)
Definition addIncoming (val block : ref) (inc : list (ref * ref)) : list (ref * ref) :=
  inc ++ [(val, block)].
Definition removeIncoming (block : ref) (inc : list (ref * ref)) : list (ref * ref) :=
  filter (fun p => snd p <> block) inc.

Definition subst_ref (oldVal newVal r : ref) : ref := if N.eqb r oldVal then newVal else r.

(** [replaceOperand]; [isBlock] is whether [newVal] is a [MIRBlock]. *)
Definition replaceOperand (isBlock : bool) (oldVal newVal : ref) (k : InstKind) : InstKind :=
  let s := subst_ref oldVal newVal in
  let sb r := if isBlock then s r else r in
  match k with
  | BranchInst t => BranchInst (s t)
  | CondBranchInst c t f => CondBranchInst (s c) (s t) (s f)
  | SwitchInst c d cs => SwitchInst (s c) (sb d) (map (fun '(v, b) => (s v, sb b)) cs)
  | ReturnInst v => ReturnInst (s v)
  | UnreachableInst => UnreachableInst
  | AllocaInst ty al => AllocaInst ty al
  | LoadInst p al vo => LoadInst (s p) al vo
  | StoreInst v p al vo => StoreInst (s v) (s p) al vo
  | GetElementPtrInst p ix => GetElementPtrInst (s p) (map s ix)
  | InsertValueInst a v ix => InsertValueInst (s a) (s v) ix
  | ExtractValueInst a ix => ExtractValueInst (s a) ix
  | ARCInst op o d => ARCInst op (s o) d
  | StoreWeakInst v p => StoreWeakInst (s v) (s p)
  | LoadWeakInst p => LoadWeakInst (s p)
  | BinaryInst op l r => BinaryInst op (s l) (s r)
  | CastInst op v off => CastInst op (s v) off
  | CompareInst p l r => CompareInst p (s l) (s r)
  | FCmpInst p l r => FCmpInst p (s l) (s r)
  | PhiInst inc => PhiInst (map (fun '(v, b) => (s v, sb b)) inc)
  | CallInst c ar va => CallInst (s c) (map s ar) va
  | InvokeInst c ar n u => InvokeInst (s c) (map s ar) (s n) (s u)
  | LandingPadInst ct => LandingPadInst ct
  | ResumeInst e => ResumeInst (s e)
  | ThrowInst e u => ThrowInst (s e) (s u)
  | InlineAsmInst a c ar vo => InlineAsmInst a c (map s ar) vo
  | MakeClosureInst f cs => MakeClosureInst (s f) (map s cs)
  | MakeSharedInst o => MakeSharedInst (s o)
  | SpawnInst c tk => SpawnInst (s c) tk
  | AwaitInst p => AwaitInst (s p)
  | AtomicLoadInst p o => AtomicLoadInst (s p) o
  | AtomicStoreInst v p o => AtomicStoreInst (s v) (s p) o
  | AtomicRMWInst op p v o => AtomicRMWInst op (s p) (s v) o
  | AtomicCmpXchgInst p e d o1 o2 => AtomicCmpXchgInst (s p) (s e) (s d) o1 o2
  | FenceInst o => FenceInst o
  end.

(** [replaceAllUsesInFunction], as [SimplifyCFGPass.cpp] and
    [ConstantFoldingPass.cpp] define it: every instruction of every block, in order. *)
Definition replaceAllUsesInFunction (oldVal newVal : ref) (F : MIRFunction) : MIRFunction :=
  let isBlock := bool_decide (is_Some (bbs F !! newVal)) in
  fold_left (fun F b =>
    fold_left (fun F i =>
      upd_inst i (fun J => with_kind (replaceOperand isBlock oldVal newVal (i_kind J)) J) F)
    (getInstructions b F) F) (blocks F) F.

(** The instructions a block starts with as long as they are phis: the loops over
    the phis of a block stop at the first other instruction.  A slot of a block is
    null only while [mergeBlocks] moves instructions out of it, which no such loop
    observes. *)
Fixpoint leading_phis (l : list ref) (F : MIRFunction) : list ref :=
  match l with
  | [] => []
  | i :: r =>
      match kind_of i F with
      | Some (PhiInst _) => i :: leading_phis r F
      | _ => []
      end
  end.

(** [for (auto &inst : b->getInstructionsMut()) if phi: f(phi) else break]. *)
Definition upd_phis (b : ref) (f : list (ref * ref) -> list (ref * ref)) (F : MIRFunction) :
    MIRFunction :=
  fold_left (fun F i =>
    upd_inst i (fun J => match i_kind J with
                         | PhiInst inc => with_kind (PhiInst (f inc)) J
                         | _ => J
                         end) F)
    (leading_phis (getInstructions b F) F) F.

(** The value a phi receives from [pred]: the first entry for it, [nullptr] if none. *)
Definition incoming_from (pred : ref) (inc : list (ref * ref)) : ref :=
  match find (fun p => N.eqb (snd p) pred) inc with
  | Some (v, _) => v
  | None => nullptr
  end.
