(* ===== verification/MIRClone.v ===== *)
(** * Construction and cloning of instructions

    The constructors of [lib/middle/mir/MIRInst.cpp] and the [clone] methods of
    [include/moksha/MIR/MIRInst.h], which the inliner uses.  A constructor decides
    the type and the name of the instruction: some take them as arguments, some
    compute the type from an operand.  [typeOf] is [getType()] of an operand, which
    may be any kind of value. *)

From S2P Require Import Prelude Diag HIRType MIR.
#[local] Open Scope string_scope.

Section Construct.
Context (tys : TypeHeap) (typeOf : ref -> TypePtr).

(** [determineLoadType]. *)
Definition determineLoadType (ptr : ref) : TypePtr :=
  if N.eqb ptr nullptr || N.eqb (typeOf ptr) nullptr then nullptr
  else match tys !! typeOf ptr with
       | Some (PointerType pointee _ _) => pointee
       | _ => typeOf ptr
       end.

(** The type that [AtomicLoadInst] sets. *)
Definition atomicLoadType (pointer : ref) : TypePtr :=
  match tys !! typeOf pointer with
  | Some (PointerType pointee _ _) => pointee
  | _ => nullptr
  end.

(** The type an instruction is constructed with; [ty] is the type argument of the
    constructors that have one ([ptrType] for [GetElementPtrInst]). *)
Definition ctor_type (k : InstKind) (ty : TypePtr) : TypePtr :=
  match k with
  | BranchInst _ | CondBranchInst _ _ _ | SwitchInst _ _ _ | ReturnInst _
  | UnreachableInst | StoreInst _ _ _ _ | StoreWeakInst _ _ | ARCInst _ _ _
  | ResumeInst _ | ThrowInst _ _ | AtomicStoreInst _ _ _ | FenceInst _ => nullptr
  | LoadInst ptr _ _ => determineLoadType ptr
  | InsertValueInst agg _ _ => typeOf agg
  | BinaryInst _ lhs _ => typeOf lhs
  | AtomicLoadInst pointer _ => atomicLoadType pointer
  | AtomicRMWInst _ _ value _ => typeOf value
  | AtomicCmpXchgInst _ expected _ _ _ => typeOf expected
  | _ => ty
  end.

(** The name: some constructors pass the empty one. *)
Definition ctor_name (k : InstKind) (name : string) : string :=
  match k with
  | AllocaInst _ _ | LoadInst _ _ _ | GetElementPtrInst _ _ | InsertValueInst _ _ _
  | ExtractValueInst _ _ | LoadWeakInst _ | BinaryInst _ _ _ | CastInst _ _ _
  | CompareInst _ _ _ | FCmpInst _ _ _ | PhiInst _ | CallInst _ _ _
  | InvokeInst _ _ _ _ | LandingPadInst _ | MakeClosureInst _ _ | SpawnInst _ _
  | AwaitInst _ => name
  | _ => ""
  end.

Definition construct (k : InstKind) (ty : TypePtr) (name : string) (loc : SourceLocation) : MIRInst :=
  {| i_kind := k; i_type := ctor_type k ty; i_name := ctor_name k name; i_loc := loc;
     i_borrow := None; i_parent := nullptr |}.

(** [MIRBuilder::createGEP]: the result is a pointer to [resType]. *)
Definition createGEP (getPointerType : TypePtr -> TypePtr) (ptr : ref) (indices : list ref)
    (resType : TypePtr) (name : string) (loc : SourceLocation) : MIRInst :=
  construct (GetElementPtrInst ptr indices) (getPointerType resType) name loc.

(** What [clone] passes as the type: its own, but that of the base pointer for a
    [GetElementPtrInst]. *)
Definition clone_type (J : MIRInst) : TypePtr :=
  match i_kind J with
  | GetElementPtrInst ptr _ => typeOf ptr
  | _ => i_type J
  end.

Definition clone (J : MIRInst) : MIRInst :=
  construct (i_kind J) (clone_type J) (i_name J) (i_loc J).

Lemma clone_constructed_eq k ty name loc :
  let J := construct k ty name loc in
  clone J = J <-> match k with GetElementPtrInst ptr _ => typeOf ptr = ty | _ => True end.
Proof.
  unfold clone, construct, clone_type. destruct k; simpl; split; intros H; try done.
  - by injection H.
  - by rewrite H.
Qed.

(** A clone of a constructed instruction is the instruction, detached: the same
    subclass with the same operands and attributes, the same name, location and type.
    The exception is an address computation, whose clone has the type of its base
    pointer: it has the type of the original only when the two types are the same. *)
Theorem clone_constructed k ty name loc :
  let J := construct k ty name loc in
  i_kind (clone J) = k /\ i_name (clone J) = i_name J /\ i_loc (clone J) = loc
  /\ i_parent (clone J) = nullptr
  /\ (clone J = J <-> match k with
                      | GetElementPtrInst ptr _ => typeOf ptr = ty
                      | _ => True
                      end).
Proof.
  intros J. split_and!; try done; [by destruct k | apply clone_constructed_eq].
Qed.

(** So cloning changes the type of the address computations that [createGEP] builds
    whose base does not already point to the result type. *)
Lemma clone_createGEP getPointerType ptr indices resType name loc :
  let J := createGEP getPointerType ptr indices resType name loc in
  clone J = J <-> typeOf ptr = getPointerType resType.
Proof. apply clone_constructed_eq. Qed.

End Construct.
