(* ===== verification/Worklist.v ===== *)
(** * Searches with a worklist

    The loop by which [MIRVerifier.cpp] and [DeadCodeEliminationPass.cpp] collect what is
    reached from some roots: a set of the values seen, and a stack of those whose
    successors are still to be looked at.  The fuel bounds the number of rounds; a round
    takes one value from the stack and each value is pushed once. *)

From S2P Require Import Prelude MIR.

Implicit Types (r w l : list ref).

(** [reachable.insert(succ).second] for each successor: the new ones are pushed, the
    last one on top. *)
Fixpoint push_new (succs : list ref) (reachable worklist : list ref) : list ref * list ref :=
  match succs with
  | [] => (reachable, worklist)
  | s :: r =>
      if bool_decide (s ∈ reachable) then push_new r reachable worklist
      else push_new r (s :: reachable) (s :: worklist)
  end.

Section Search.
Context (next : ref -> list ref).

(** The loop over the worklist; [None] when the fuel runs out. *)
Fixpoint search (fuel : nat) (reachable worklist : list ref) : option (list ref) :=
  match fuel with
  | 0 => None
  | S fuel =>
      match worklist with
      | [] => Some reachable
      | current :: rest =>
          let '(reachable, worklist) := push_new (next current) reachable rest in
          search fuel reachable worklist
      end
  end.

(** The loop from some roots. *)
Definition search_from (fuel : nat) (roots : list ref) : option (list ref) :=
  let '(reachable, worklist) := push_new roots [] [] in search fuel reachable worklist.

(** What is reached. *)
Inductive reached (roots : list ref) : ref -> Prop :=
  | reached_root v : v ∈ roots -> reached roots v
  | reached_next u v : reached roots u -> v ∈ next u -> reached roots v.

End Search.

Lemma push_new_spec ss : forall r w,
  NoDup r ->
  exists new, push_new ss r w = (new ++ r, new ++ w)
    /\ NoDup (new ++ r) /\ forall x, x ∈ new <-> x ∈ ss /\ x ∉ r.
Proof.
  induction ss as [| s ss IH]; intros r w N; simpl.
  - exists []. split_and!; [done | done |]. intros x. rewrite !elem_of_nil. tauto.
  - case_bool_decide as D.
    + destruct (IH r w N) as (new & -> & N' & H). exists new. split_and!; [done | done |].
      intros x. rewrite H, elem_of_cons. split; [tauto |]. intros [[-> | ?] ?]; tauto.
    + destruct (IH (s :: r) (s :: w)) as (new & -> & N' & H); [by constructor |].
      exists (new ++ [s]). rewrite <- !app_assoc. split_and!; [done | done |].
      intros x. rewrite elem_of_app, H, list_elem_of_singleton, !elem_of_cons.
      destruct (decide (x = s)) as [-> | ?]; tauto.
Qed.

Section Correct.
Context (next : ref -> list ref) (roots U : list ref).
Context (Closed : forall x, reached next roots x -> x ∈ U).

Lemma search_spec fuel : forall r w,
  NoDup r -> (forall x, x ∈ roots -> x ∈ r) -> (forall x, x ∈ w -> x ∈ r) ->
  (forall x, x ∈ r -> reached next roots x) ->
  (forall x y, x ∈ r -> x ∉ w -> y ∈ next x -> y ∈ r) ->
  length U - length r + length w < fuel ->
  exists R, search next fuel r w = Some R /\ NoDup R /\ forall x, x ∈ R <-> reached next roots x.
Proof.
  induction fuel as [| fuel IH]; intros r w N Ro Hw Hr Cl L; [lia |]. cbn [search].
  destruct w as [| cur rest].
  - exists r. split_and!; [done | done |]. intros x. split; [apply Hr |].
    induction 1 as [v Hv | u v _ IHu Hv]; [by apply Ro |].
    apply (Cl u); [done | apply not_elem_of_nil | done].
  - destruct (push_new_spec (next cur) r rest N) as (new & -> & N' & Hn).
    assert (Hr' : forall x, x ∈ new ++ r -> reached next roots x).
    { intros x Hx. apply elem_of_app in Hx as [Hx | Hx]; [| by apply Hr].
      apply Hn in Hx as [Hx _]. apply (reached_next next roots cur); [| done].
      apply Hr, Hw. left. }
    assert (Len : length (new ++ r) <= length U).
    { apply List.NoDup_incl_length; [by apply NoDup_ListNoDup |].
      intros x Hx. apply list_elem_of_In. apply list_elem_of_In in Hx. by apply Closed, Hr'. }
    apply IH; [done | | | done | |].
    + intros x Hx. apply elem_of_app. right. by apply Ro.
    + intros x Hx. apply elem_of_app in Hx as [Hx | Hx]; apply elem_of_app; [by left |].
      right. apply Hw. by right.
    + intros x y Hx Nx Hy. rewrite elem_of_app in Nx. apply elem_of_app in Hx as [Hx | Hx]; [tauto |].
      apply elem_of_app. destruct (decide (y ∈ r)) as [? | D]; [by right |].
      destruct (decide (x = cur)) as [-> | Nc]; [left; by apply Hn |].
      right. apply (Cl x); [done | | done]. rewrite elem_of_cons. tauto.
    + rewrite !length_app in *. simpl in L. lia.
Qed.

(** The search ends, on exactly what is reached, when a list [U] of everything that is
    reached is no longer than the fuel. *)
Lemma search_from_spec fuel :
  length U < fuel ->
  exists R, search_from next fuel roots = Some R /\ NoDup R /\ forall x, x ∈ R <-> reached next roots x.
Proof.
  intros L. unfold search_from. destruct (push_new_spec roots [] []) as (new & -> & N & Hn); [apply NoDup_nil_2 |].
  rewrite app_nil_r in *.
  assert (Hn' : forall x, x ∈ new <-> x ∈ roots).
  { intros x. rewrite Hn. split; [tauto |]. intros H. split; [done | apply not_elem_of_nil]. }
  assert (Hr : forall x, x ∈ new -> reached next roots x).
  { intros x Hx. by apply reached_root, Hn'. }
  assert (Len : length new <= length U).
  { apply List.NoDup_incl_length; [by apply NoDup_ListNoDup |].
    intros x Hx. apply list_elem_of_In. apply list_elem_of_In in Hx. by apply Closed, Hr. }
  apply search_spec; [done | by intros; apply Hn' | done | done | done | lia].
Qed.

End Correct.
