(* ===== verification/MIRModule.v ===== *)
(** * Modules of the mid-level IR

    [MIRModule] of [include/moksha/MIR/MIRModule.h] and [lib/middle/mir/MIRModule.cpp] with
    the globals of [MIRGlobal.h]: the functions, globals and constants that a module owns,
    the maps from names, the caches of raw pointers with their dirty flags, and the derived
    types.  Each function keeps the heap of its own instructions and blocks; constants and
    globals are in the heaps of the module.  One counter, [m_next], hands out the addresses
    of all of them. *)

From S2P Require Import Prelude Diag HIRType MIR.
From Stdlib Require Import SpecFloat.
#[local] Open Scope string_scope.

(** A C++ [double]: the IEEE 754 numbers of 53 bits of precision. *)
Definition double : Type := spec_float.

Module Linkage.
(** [enum class Linkage]. *)
Inductive t : Set := Internal | External | Weak | LinkOnce.
#[export] Instance eq_dec : EqDecision t.
Proof. solve_decision. Defined.
End Linkage.
#[export] Existing Instance Linkage.eq_dec.

Module IntrinsicID.
(** [enum class IntrinsicID]. *)
Inductive t : Set :=
  | None_ | Bswap | Ctlz | Cttz | Ctpop | Trap | AtomicLoad | AtomicStore | AtomicAdd
  | AtomicCAS | AtomicFenceAcquire | AtomicFenceRelease | AtomicFenceSeqCst
  | AtomicThreadFence.
End IntrinsicID.

(** [class MIRGlobal]; a null [initializer] is 0. *)
Record MIRGlobal := {
  g_name : string;
  g_type : TypePtr;
  initializer : ref;
  isConstantFlag : bool;
  g_linkage : Linkage.t;
  isExternFlag : bool;
  g_alignment : Z;
  isUsedFlag : bool;
  isThreadLocalFlag : bool;
  isVolatileFlag : bool;
  sectionName : string;
}.

(** The constructor of [MIRGlobal]. *)
Definition newGlobal (name : string) (type : TypePtr) (init : ref) (isConst : bool)
    (linkage : Linkage.t) : MIRGlobal :=
  {| g_name := name; g_type := type; initializer := init; isConstantFlag := isConst;
     g_linkage := linkage; isExternFlag := false; g_alignment := 0; isUsedFlag := false;
     isThreadLocalFlag := false; isVolatileFlag := false; sectionName := "" |}.

(** A constant: its subclass with its payload, and its type. *)
Record MIRConstant := {
  c_kind : ConstKind double;
  c_type : TypePtr;
}.

(** A function: its name and its body. *)
Record Function_ := {
  fn_name : string;
  fn_body : MIRFunction;
}.

Record MIRModule := {
  m_name : string;
  fns : gmap ref Function_;
  functions : list ref;
  functionMap : gmap string ref;
  functionsDirty : bool;
  functionCache : list ref;
  globs : gmap ref MIRGlobal;
  globals : list ref;
  globalMap : gmap string ref;
  globalsDirty : bool;
  globalCache : list ref;
  consts : gmap ref MIRConstant;
  m_types : TypeHeap;
  pointerTypeCache : gmap TypePtr TypePtr;
  m_next_type : TypePtr;
  m_next : ref;
}.

Definition newModule (name : string) (types : TypeHeap) (next_type : TypePtr) (next : ref) :
    MIRModule :=
  {| m_name := name; fns := ∅; functions := []; functionMap := ∅; functionsDirty := true;
     functionCache := []; globs := ∅; globals := []; globalMap := ∅; globalsDirty := true;
     globalCache := []; consts := ∅; m_types := types; pointerTypeCache := ∅;
     m_next_type := next_type; m_next := next |}.

Definition set_fns (h : gmap ref Function_) (M : MIRModule) : MIRModule :=
  {| m_name := m_name M; fns := h; functions := functions M; functionMap := functionMap M;
     functionsDirty := functionsDirty M; functionCache := functionCache M; globs := globs M;
     globals := globals M; globalMap := globalMap M; globalsDirty := globalsDirty M;
     globalCache := globalCache M; consts := consts M; m_types := m_types M;
     pointerTypeCache := pointerTypeCache M; m_next_type := m_next_type M;
     m_next := m_next M |}.
Definition set_consts (h : gmap ref MIRConstant) (M : MIRModule) : MIRModule :=
  {| m_name := m_name M; fns := fns M; functions := functions M; functionMap := functionMap M;
     functionsDirty := functionsDirty M; functionCache := functionCache M; globs := globs M;
     globals := globals M; globalMap := globalMap M; globalsDirty := globalsDirty M;
     globalCache := globalCache M; consts := h; m_types := m_types M;
     pointerTypeCache := pointerTypeCache M; m_next_type := m_next_type M;
     m_next := m_next M |}.
Definition set_next (n : ref) (M : MIRModule) : MIRModule :=
  {| m_name := m_name M; fns := fns M; functions := functions M; functionMap := functionMap M;
     functionsDirty := functionsDirty M; functionCache := functionCache M; globs := globs M;
     globals := globals M; globalMap := globalMap M; globalsDirty := globalsDirty M;
     globalCache := globalCache M; consts := consts M; m_types := m_types M;
     pointerTypeCache := pointerTypeCache M; m_next_type := m_next_type M; m_next := n |}.

(** ** Functions *)

Definition addFunction (f : ref) (func : Function_) (M : MIRModule) : MIRModule :=
  {| m_name := m_name M; fns := <[f := func]> (fns M); functions := (functions M ++ [f])%list;
     functionMap := <[fn_name func := f]> (functionMap M); functionsDirty := true;
     functionCache := functionCache M; globs := globs M; globals := globals M;
     globalMap := globalMap M; globalsDirty := globalsDirty M; globalCache := globalCache M;
     consts := consts M; m_types := m_types M; pointerTypeCache := pointerTypeCache M;
     m_next_type := m_next_type M; m_next := m_next M |}.

Definition getFunctions (M : MIRModule) : list ref * MIRModule :=
  if functionsDirty M then
    (functions M,
     {| m_name := m_name M; fns := fns M; functions := functions M;
        functionMap := functionMap M; functionsDirty := false; functionCache := functions M;
        globs := globs M; globals := globals M; globalMap := globalMap M;
        globalsDirty := globalsDirty M; globalCache := globalCache M; consts := consts M;
        m_types := m_types M; pointerTypeCache := pointerTypeCache M;
        m_next_type := m_next_type M; m_next := m_next M |})
  else (functionCache M, M).

Definition getFunction (name : string) (M : MIRModule) : ref :=
  default nullptr (functionMap M !! name).

(** ** Globals *)

Definition addGlobal (g : ref) (global : MIRGlobal) (M : MIRModule) : MIRModule :=
  {| m_name := m_name M; fns := fns M; functions := functions M; functionMap := functionMap M;
     functionsDirty := functionsDirty M; functionCache := functionCache M;
     globs := <[g := global]> (globs M); globals := (globals M ++ [g])%list;
     globalMap := <[g_name global := g]> (globalMap M); globalsDirty := true;
     globalCache := globalCache M; consts := consts M; m_types := m_types M;
     pointerTypeCache := pointerTypeCache M; m_next_type := m_next_type M;
     m_next := m_next M |}.

Definition getGlobals (M : MIRModule) : list ref * MIRModule :=
  if globalsDirty M then
    (globals M,
     {| m_name := m_name M; fns := fns M; functions := functions M;
        functionMap := functionMap M; functionsDirty := functionsDirty M;
        functionCache := functionCache M; globs := globs M; globals := globals M;
        globalMap := globalMap M; globalsDirty := false; globalCache := globals M;
        consts := consts M; m_types := m_types M; pointerTypeCache := pointerTypeCache M;
        m_next_type := m_next_type M; m_next := m_next M |})
  else (globalCache M, M).

Definition getGlobal (name : string) (M : MIRModule) : ref :=
  default nullptr (globalMap M !! name).

(** The erasure of a global through [getGlobalsMut] and [getGlobalMapMut]: the entry of its
    name goes, the object is destroyed, and nothing else changes. *)
Definition erase_global (g : ref) (M : MIRModule) : MIRModule :=
  {| m_name := m_name M; fns := fns M; functions := functions M; functionMap := functionMap M;
     functionsDirty := functionsDirty M; functionCache := functionCache M;
     globs := delete g (globs M); globals := filter (fun h => h <> g) (globals M);
     globalMap := match globs M !! g with
                  | Some G => delete (g_name G) (globalMap M)
                  | None => globalMap M
                  end;
     globalsDirty := globalsDirty M; globalCache := globalCache M; consts := consts M;
     m_types := m_types M; pointerTypeCache := pointerTypeCache M;
     m_next_type := m_next_type M; m_next := m_next M |}.

(** ** Constants, types and intrinsics *)

(** [getOrInsertConstant]: every call makes a new object. *)
Definition getOrInsertConstant (k : ConstKind double) (t : TypePtr) (M : MIRModule) :
    ref * MIRModule :=
  (m_next M, set_next (N.succ (m_next M))
               (set_consts (<[m_next M := {| c_kind := k; c_type := t |}]> (consts M)) M)).

(** A new type object. *)
Definition new_type (t : HIRType) (cache : gmap TypePtr TypePtr) (M : MIRModule) :
    TypePtr * MIRModule :=
  (m_next_type M,
   {| m_name := m_name M; fns := fns M; functions := functions M; functionMap := functionMap M;
      functionsDirty := functionsDirty M; functionCache := functionCache M; globs := globs M;
      globals := globals M; globalMap := globalMap M; globalsDirty := globalsDirty M;
      globalCache := globalCache M; consts := consts M;
      m_types := <[m_next_type M := t]> (m_types M); pointerTypeCache := cache;
      m_next_type := N.succ (m_next_type M); m_next := m_next M |}).

Definition getPointerType (pointeeType : TypePtr) (M : MIRModule) : TypePtr * MIRModule :=
  if N.eqb pointeeType nullptr then (nullptr, M)
  else
    match pointerTypeCache M !! pointeeType with
    | Some p => (p, M)
    | None =>
        new_type (PointerType pointeeType Ownership.None_ BorrowState.None_)
          (<[pointeeType := m_next_type M]> (pointerTypeCache M)) M
    end.

Definition getArrayType (elemTy : TypePtr) (size : Z) (M : MIRModule) : TypePtr * MIRModule :=
  new_type (ArrayType elemTy size) (pointerTypeCache M) M.

Definition IntrinsicTable : list (string * IntrinsicID.t) :=
  [("llvm.bswap.i16", IntrinsicID.Bswap); ("llvm.bswap.i32", IntrinsicID.Bswap);
   ("llvm.bswap.i64", IntrinsicID.Bswap); ("llvm.ctlz.i32", IntrinsicID.Ctlz);
   ("llvm.cttz.i32", IntrinsicID.Cttz); ("llvm.ctpop.i32", IntrinsicID.Ctpop);
   ("llvm.trap", IntrinsicID.Trap); ("atomic_load", IntrinsicID.AtomicLoad);
   ("atomic_store", IntrinsicID.AtomicStore); ("atomic_add", IntrinsicID.AtomicAdd);
   ("atomic_cas", IntrinsicID.AtomicCAS);
   ("atomic_fence_acquire", IntrinsicID.AtomicFenceAcquire);
   ("atomic_fence_release", IntrinsicID.AtomicFenceRelease);
   ("atomic_fence_seqcst", IntrinsicID.AtomicFenceSeqCst);
   ("atomic_thread_fence", IntrinsicID.AtomicThreadFence)].

Definition lookupIntrinsic (name : string) : IntrinsicID.t :=
  match find (fun p => String.eqb (fst p) name) IntrinsicTable with
  | Some (_, id) => id
  | None => IntrinsicID.None_
  end.

(** ** Working on a function *)

(** The body of the function at an address, allocating from the counter of the module. *)
Definition with_next (n : ref) (F : MIRFunction) : MIRFunction :=
  {| insts := insts F; bbs := bbs F; blocks := blocks F; next_ref := n |}.

Definition body (f : ref) (M : MIRModule) : MIRFunction :=
  match fns M !! f with
  | Some func => fn_body func
  | None => {| insts := ∅; bbs := ∅; blocks := []; next_ref := m_next M |}
  end.

Definition set_body (f : ref) (F : MIRFunction) (M : MIRModule) : MIRModule :=
  set_fns (alter (fun func => {| fn_name := fn_name func; fn_body := F |}) f (fns M)) M.

(** [getOpcode] and the operands are read through the heap of the function; a value is a
    constant or a global of the module. *)
Definition const_of (v : ref) (M : MIRModule) : option (ConstKind double) :=
  c_kind <$> consts M !! v.
Definition is_global (v : ref) (M : MIRModule) : bool := bool_decide (is_Some (globs M !! v)).

(** [getType()] of a value that is an instruction of [F], a constant or a global;
    [argType] is that of the others (arguments, functions, blocks). *)
Definition getType (argType : ref -> TypePtr) (F : MIRFunction) (M : MIRModule) (v : ref) : TypePtr :=
  match insts F !! v with
  | Some J => i_type J
  | None =>
      match consts M !! v with
      | Some c => c_type c
      | None => match globs M !! v with Some g => g_type g | None => argType v end
      end
  end.
