(* ===== verification/MIRFacts.v ===== *)
(** * Lemmas on the mid-level IR

    What the CFG operations of [MIRBlock.cpp] change, read through the getters, and
    [same_code], the relation between two states of a function whose blocks,
    instruction lists and control transfers agree: only recorded edges and the
    incoming lists of phis may differ. *)

From S2P Require Import Prelude Diag MIR.

Implicit Types (F G : MIRFunction) (b c p s i : ref).

(** The blocks to which [b] transfers control. *)
Definition inst_targets i F : list ref :=
  match kind_of i F with
  | Some k => filter (fun t => t <> nullptr) (targets k)
  | None => []
  end.
Definition term_targets b F : list ref := inst_targets (terminator b F) F.

(** Substituting twice. *)
Lemma subst_ref_idem (o n v : ref) : subst_ref o n (subst_ref o n v) = subst_ref o n v.
Proof.
  unfold subst_ref. destruct (N.eqb_spec v o) as [-> | N]; [by destruct (N.eqb_spec n o) |].
  by rewrite (proj2 (N.eqb_neq _ _) N).
Qed.

(** ** Getters *)

Lemma bbs_upd_block b f F c :
  bbs (upd_block b f F) !! c = if decide (c = b) then f <$> bbs F !! c else bbs F !! c.
Proof.
  unfold upd_block. simpl. case_decide as E.
  - subst. by rewrite lookup_alter_eq.
  - by rewrite lookup_alter_ne.
Qed.

Lemma insts_upd_inst i f F j :
  insts (upd_inst i f F) !! j = if decide (j = i) then f <$> insts F !! j else insts F !! j.
Proof.
  unfold upd_inst. simpl. case_decide as E.
  - subst. by rewrite lookup_alter_eq.
  - by rewrite lookup_alter_ne.
Qed.

Lemma get_upd_block_same {A} (g : MIRBlock -> A) (d : A) b f F c :
  (forall B, g (f B) = g B) ->
  match bbs (upd_block b f F) !! c with Some B => g B | None => d end
  = match bbs F !! c with Some B => g B | None => d end.
Proof. intros H. rewrite bbs_upd_block. case_decide; [| done]. destruct (bbs F !! c); simpl; auto. Qed.

Definition has_block b F : Prop := is_Some (bbs F !! b).

Lemma has_block_upd b f F c : has_block c (upd_block b f F) <-> has_block c F.
Proof.
  unfold has_block. rewrite bbs_upd_block. case_decide; [| done]. by rewrite fmap_is_Some.
Qed.

(** ** What an edge operation preserves *)

(** An instruction up to the incoming list of a phi. *)
Definition erase_phi (k : InstKind) : InstKind :=
  match k with PhiInst _ => PhiInst [] | _ => k end.
Definition shape i F : option InstKind := erase_phi <$> kind_of i F.

Record same_code F G : Prop := {
  sc_blocks : blocks G = blocks F;
  sc_next : next_ref G = next_ref F;
  sc_has : forall b, has_block b G <-> has_block b F;
  sc_instructions : forall b, getInstructions b G = getInstructions b F;
  sc_shape : forall i, shape i G = shape i F;
}.

#[export] Instance same_code_preorder : PreOrder same_code.
Proof.
  split; [by split |].
  intros F1 F2 F3 [A1 A2 A3 A4 A5] [B1 B2 B3 B4 B5].
  split; [congruence.. | intros b; by rewrite B3 | congruence | congruence].
Qed.

Lemma same_code_upd_block b f F :
  (forall B, instructions (f B) = instructions B) -> same_code F (upd_block b f F).
Proof.
  intros H. split; try done.
  - intros c. apply has_block_upd.
  - intros c. unfold getInstructions. by apply get_upd_block_same.
Qed.

Lemma kind_of_upd_inst i f F j :
  kind_of j (upd_inst i f F) =
    if decide (j = i) then (fun J => i_kind (f J)) <$> insts F !! j else kind_of j F.
Proof.
  unfold kind_of. rewrite insts_upd_inst. case_decide; [| done]. by destruct (insts F !! j).
Qed.

Lemma same_code_upd_inst i f F :
  (forall J, erase_phi (i_kind (f J)) = erase_phi (i_kind J)) -> same_code F (upd_inst i f F).
Proof.
  intros H. split; try done. intros j. unfold shape. rewrite kind_of_upd_inst.
  case_decide; [| done]. subst. unfold kind_of. destruct (insts F !! i); simpl; by f_equal.
Qed.

Lemma targets_erase k : targets (erase_phi k) = targets k.
Proof. by destruct k. Qed.

Lemma inst_targets_shape i F :
  inst_targets i F = match shape i F with
                     | Some k => filter (fun t => t <> nullptr) (targets k)
                     | None => []
                     end.
Proof.
  unfold inst_targets, shape. destruct (kind_of i F); simpl; [by rewrite targets_erase | done].
Qed.

Lemma terminator_same F G b : same_code F G -> terminator b G = terminator b F.
Proof. intros S. unfold terminator. by rewrite (sc_instructions _ _ S). Qed.

Lemma term_targets_same F G b : same_code F G -> term_targets b G = term_targets b F.
Proof.
  intros S. unfold term_targets.
  by rewrite !inst_targets_shape, (terminator_same _ _ _ S), (sc_shape _ _ S).
Qed.

Lemma same_code_fold {A} (f : MIRFunction -> A -> MIRFunction) (l : list A) F :
  (forall F x, same_code F (f F x)) -> same_code F (fold_left f l F).
Proof.
  intros H. revert F. induction l as [| x l IH]; intros F; simpl; [done |].
  etransitivity; [apply H | apply IH].
Qed.

Lemma same_code_addSuccessor b t F : same_code F (addSuccessor b t F).
Proof. by apply same_code_upd_block. Qed.
Lemma same_code_addPredecessor b t F : same_code F (addPredecessor b t F).
Proof. by apply same_code_upd_block. Qed.
Lemma same_code_removeSuccessor b t F : same_code F (removeSuccessor b t F).
Proof. by apply same_code_upd_block. Qed.
Lemma same_code_removePredecessor b t F : same_code F (removePredecessor b t F).
Proof. by apply same_code_upd_block. Qed.

Lemma same_code_wire b ts F : same_code F (wire b ts F).
Proof.
  apply same_code_fold. intros G t. case_match; [done |].
  etransitivity; [apply same_code_addSuccessor | apply same_code_addPredecessor].
Qed.

Lemma same_code_upd_phis b f F : same_code F (upd_phis b f F).
Proof.
  apply same_code_fold. intros G i. apply same_code_upd_inst.
  intros J. by destruct (i_kind J) eqn:E; simpl; rewrite ?E.
Qed.

#[export] Hint Resolve same_code_addSuccessor same_code_addPredecessor
  same_code_removeSuccessor same_code_removePredecessor same_code_wire
  same_code_upd_phis : moksha.

(** ** Recorded edges *)

(** The edges of two states agree. *)
Definition same_edges F G : Prop :=
  forall b, getSuccessors b G = getSuccessors b F /\ getPredecessors b G = getPredecessors b F.

Lemma same_edges_upd_phis b f F : same_edges F (upd_phis b f F).
Proof.
  unfold upd_phis. generalize (leading_phis (getInstructions b F) F). intros l c.
  revert F. induction l as [| i l IH]; intros F; simpl; [done |].
  specialize (IH (upd_inst i (fun J => match i_kind J with
    | PhiInst inc => with_kind (PhiInst (f inc)) J | _ => J end) F)).
  exact IH.
Qed.

Lemma elem_of_addSuccessor b t F c x :
  x ∈ getSuccessors c (addSuccessor b t F) <->
  x ∈ getSuccessors c F \/ (c = b /\ x = t /\ has_block b F).
Proof.
  unfold getSuccessors, addSuccessor, has_block. rewrite bbs_upd_block. case_decide as E.
  - subst c. destruct (bbs F !! b) as [B |]; simpl.
    + rewrite elem_of_add_unique. split; [intros [-> | ?]; eauto | intros [? | (_ & ? & _)]; auto].
    + split; [by left | intros [? | (_ & _ & [? ?])]; done].
  - split; [by left | intros [? | (? & _)]; done].
Qed.

Lemma elem_of_addPredecessor b t F c x :
  x ∈ getPredecessors c (addPredecessor b t F) <->
  x ∈ getPredecessors c F \/ (c = b /\ x = t /\ has_block b F).
Proof.
  unfold getPredecessors, addPredecessor, has_block. rewrite bbs_upd_block. case_decide as E.
  - subst c. destruct (bbs F !! b) as [B |]; simpl.
    + rewrite elem_of_add_unique. split; [intros [-> | ?]; eauto | intros [? | (_ & ? & _)]; auto].
    + split; [by left | intros [? | (_ & _ & [? ?])]; done].
  - split; [by left | intros [? | (? & _)]; done].
Qed.

Lemma getSuccessors_upd b f F c :
  (forall B, successors (f B) = successors B) ->
  getSuccessors c (upd_block b f F) = getSuccessors c F.
Proof. intros H. unfold getSuccessors. by apply get_upd_block_same. Qed.

Lemma getPredecessors_upd b f F c :
  (forall B, predecessors (f B) = predecessors B) ->
  getPredecessors c (upd_block b f F) = getPredecessors c F.
Proof. intros H. unfold getPredecessors. by apply get_upd_block_same. Qed.

Lemma getSuccessors_removeSuccessor b t F c :
  getSuccessors c (removeSuccessor b t F) =
    if decide (c = b) then erase_all t (getSuccessors c F) else getSuccessors c F.
Proof.
  unfold getSuccessors, removeSuccessor. rewrite bbs_upd_block. case_decide; [| done].
  by destruct (bbs F !! c).
Qed.

Lemma getPredecessors_removePredecessor b t F c :
  getPredecessors c (removePredecessor b t F) =
    if decide (c = b) then erase_all t (getPredecessors c F) else getPredecessors c F.
Proof.
  unfold getPredecessors, removePredecessor. rewrite bbs_upd_block. case_decide; [| done].
  by destruct (bbs F !! c).
Qed.

Lemma getSuccessors_addPredecessor b t F c :
  getSuccessors c (addPredecessor b t F) = getSuccessors c F.
Proof. by apply getSuccessors_upd. Qed.
Lemma getPredecessors_addSuccessor b t F c :
  getPredecessors c (addSuccessor b t F) = getPredecessors c F.
Proof. by apply getPredecessors_upd. Qed.
Lemma getSuccessors_removePredecessor b t F c :
  getSuccessors c (removePredecessor b t F) = getSuccessors c F.
Proof. by apply getSuccessors_upd. Qed.
Lemma getPredecessors_removeSuccessor b t F c :
  getPredecessors c (removeSuccessor b t F) = getPredecessors c F.
Proof. by apply getPredecessors_upd. Qed.

(** [wire] records exactly the edges to the non-null targets. *)
Lemma elem_of_wire b ts : forall F c x,
  (forall t, t ∈ ts -> t <> nullptr -> has_block t F) -> has_block b F ->
  (x ∈ getSuccessors c (wire b ts F) <->
     x ∈ getSuccessors c F \/ (c = b /\ x ∈ ts /\ x <> nullptr))
  /\ (x ∈ getPredecessors c (wire b ts F) <->
     x ∈ getPredecessors c F \/ (x = b /\ c ∈ ts /\ c <> nullptr)).
Proof.
  induction ts as [| t ts IH]; intros F c x H Hb.
  - simpl. split; (split; [by left | intros [? | (_ & E & _)]; [done | by apply not_elem_of_nil in E]]).
  - cbn [wire fold_left]. fold (wire b ts). destruct (N.eqb_spec t nullptr) as [-> | N].
    + destruct (IH F c x) as [I1 I2]; [| done |].
      { intros u Hu. apply H. by right. }
      unfold wire in I1, I2 |- *. rewrite I1, I2, !elem_of_cons. clear. intuition congruence.
    + set (G := addPredecessor t b (addSuccessor b t F)).
      assert (SC : same_code F G) by (etransitivity; [apply same_code_addSuccessor | apply same_code_addPredecessor]).
      destruct (IH G c x) as [I1 I2].
      { intros u Hu Nu. apply (sc_has _ _ SC). apply H; [by right | done]. }
      { by apply (sc_has _ _ SC). }
      unfold wire in I1, I2 |- *. rewrite I1, I2. unfold G.
      rewrite getSuccessors_addPredecessor, elem_of_addSuccessor.
      rewrite elem_of_addPredecessor, getPredecessors_addSuccessor.
      assert (Ht : has_block t (addSuccessor b t F)).
      { apply has_block_upd. apply H; [by left | done]. }
      rewrite !elem_of_cons. clear -Hb N Ht. intuition congruence.
Qed.

(** ** Functions that differ in their recorded edges only *)

Record same_body F G : Prop := {
  sb_insts : insts G = insts F;
  sb_blocks : blocks G = blocks F;
  sb_instructions : forall b, getInstructions b G = getInstructions b F;
  sb_has : forall b, has_block b G <-> has_block b F;
}.

#[export] Instance same_body_equivalence : Equivalence same_body.
Proof.
  split.
  - by split.
  - intros F G [A1 A2 A3 A4]. split; [done | done | congruence |]. intros b. by rewrite A4.
  - intros F G H [A1 A2 A3 A4] [B1 B2 B3 B4]. split; [congruence | congruence | congruence |].
    intros b. by rewrite B4.
Qed.

Lemma same_body_kind F G i : same_body F G -> kind_of i G = kind_of i F.
Proof. intros S. unfold kind_of. by rewrite (sb_insts _ _ S). Qed.

Lemma same_body_terminator F G b : same_body F G -> terminator b G = terminator b F.
Proof. intros S. unfold terminator. by rewrite (sb_instructions _ _ S). Qed.

Lemma same_body_upd_inst i f F G : same_body F G -> same_body (upd_inst i f F) (upd_inst i f G).
Proof. intros [A1 A2 A3 A4]. split; try done. cbn. by rewrite A1. Qed.

Lemma same_body_free i F G : same_body F G -> same_body (free_inst i F) (free_inst i G).
Proof. intros [A1 A2 A3 A4]. split; try done. cbn. by rewrite A1. Qed.

(** Changing edges. *)
Lemma same_body_edges b f F : (forall B, instructions (f B) = instructions B) -> same_body F (upd_block b f F).
Proof.
  intros E. split; [done | done | |].
  - intros c. unfold getInstructions. by apply get_upd_block_same.
  - intros c. apply has_block_upd.
Qed.

(** Changing the instructions of a block. *)
Lemma same_body_upd_block b (g : list ref -> list ref) F G :
  same_body F G ->
  same_body (upd_block b (fun B => with_instructions (g (instructions B)) B) F)
    (upd_block b (fun B => with_instructions (g (instructions B)) B) G).
Proof.
  intros [A1 A2 A3 A4]. split; [done | done | |].
  - intros c. specialize (A3 c). specialize (A4 c). unfold getInstructions, has_block in *.
    rewrite !bbs_upd_block. case_decide as D; [subst c | done].
    destruct (bbs F !! b) as [B |], (bbs G !! b) as [C |]; cbn in *; [by rewrite A3 | | | done].
    + destruct A4 as [_ A4]. destruct A4; [by eexists | done].
    + destruct A4 as [A4 _]. destruct A4; [by eexists | done].
  - intros c. by rewrite !has_block_upd, A4.
Qed.

Lemma same_body_wire b ts F : same_body F (wire b ts F).
Proof.
  unfold wire. revert F. induction ts as [| t ts IH]; intros F; [done |]. cbn [fold_left].
  etransitivity; [| apply IH]. case_match; [done |].
  etransitivity; by apply same_body_edges.
Qed.

Lemma same_body_pop_back b F G : same_body F G -> same_body (pop_back b F) (pop_back b G).
Proof.
  intros S. unfold pop_back. rewrite (sb_instructions _ _ S). destruct (last (getInstructions b F)); [| done].
  by apply same_body_free, (same_body_upd_block b (@removelast ref)).
Qed.

Lemma same_body_addInstruction b i F G : same_body F G -> same_body (addInstruction b i F) (addInstruction b i G).
Proof.
  intros S. unfold addInstruction. rewrite (sb_insts _ _ S). destruct (insts F !! i) as [J |]; [| done].
  apply (same_body_upd_block b (fun l => l ++ [i])).
  rewrite <- (same_body_wire b (targets (i_kind J)) (upd_inst i (setParent b) F)).
  rewrite <- (same_body_wire b (targets (i_kind J)) (upd_inst i (setParent b) G)).
  by apply same_body_upd_inst.
Qed.

Lemma same_body_leading F G (l : list ref) : same_body F G -> leading_phis l G = leading_phis l F.
Proof.
  intros S. induction l as [| i l IH]; [done |]. cbn [leading_phis]. rewrite (same_body_kind _ _ i S).
  destruct (kind_of i F) as [[] |]; try done. by rewrite IH.
Qed.

Lemma same_body_upd_phis b f F G : same_body F G -> same_body (upd_phis b f F) (upd_phis b f G).
Proof.
  intros S. unfold upd_phis. rewrite (sb_instructions _ _ S), (same_body_leading _ _ _ S).
  generalize (leading_phis (getInstructions b F) F). intros l. revert F G S.
  induction l as [| i l IH]; intros F G S; [done |]. cbn [fold_left]. by apply IH, same_body_upd_inst.
Qed.
