(* ===== verification/SimplifyCFG.v ===== *)
(** * Simplification of the control-flow graph

    [SimplifyCFGPass] of [lib/middle/mir/passes/SimplifyCFGPass.cpp]: the healer
    that recomputes the recorded edges from the terminators, the three
    simplifications that the pass iterates, and the sweep of the blocks that
    nothing reaches.  The iteration is bounded by a fuel, and [None] is an
    iteration that did not end within it. *)

From S2P Require Import Prelude Diag MIR.

(** [replaceTargetBlock], on the subclass of the terminator. *)
Definition replaceTargetBlock (oldTarget newTarget : ref) (k : InstKind) : InstKind :=
  let s := subst_ref oldTarget newTarget in
  match k with
  | BranchInst t => BranchInst (s t)
  | CondBranchInst c t f => CondBranchInst c (s t) (s f)
  | InvokeInst c ar n u => InvokeInst c ar (s n) (s u)
  | ThrowInst e u => ThrowInst e (s u)
  | SwitchInst c d cs => SwitchInst c (s d) (map (fun '(v, b) => (v, s b)) cs)
  | _ => k
  end.

(** ** The healer *)

Definition clear_edges (F : MIRFunction) : MIRFunction :=
  fold_left (fun F b =>
    upd_block b (fun B => with_predecessors [] (with_successors [] B)) F) (blocks F) F.

(** One phi of a block with predecessors [preds]: a single stale entry is moved to
    the predecessors that have no entry. *)
Definition heal_phi (preds : list ref) (inc : list (ref * ref)) : list (ref * ref) :=
  let stalePhiBlocks := filter (fun p => p ∉ preds) (map snd inc) in
  let missingCFGBlocks := filter (fun p => p ∉ map snd inc) preds in
  match stalePhiBlocks, missingCFGBlocks with
  | [stale], _ :: _ =>
      let rescuedVal := incoming_from stale inc in
      if N.eqb rescuedVal nullptr then inc
      else fold_left (fun inc m => addIncoming rescuedVal m inc) missingCFGBlocks
             (removeIncoming stale inc)
  | _, _ => inc
  end.

(** The edges of the terminator of [b].  The code follows the targets of branches
    and the normal destination of an invoke without a null test. *)
Definition heal_edges (b : ref) (F : MIRFunction) : MIRFunction :=
  match kind_of (terminator b F) F with
  | Some k => wire b (targets k) F
  | None => F
  end.

Definition heal_block (F : MIRFunction) (b : ref) : MIRFunction :=
  if bool_decide (getInstructions b F = []) then F
  else
    let F := heal_edges b F in
    upd_phis b (heal_phi (getPredecessors b F)) F.

Definition heal (F : MIRFunction) : MIRFunction :=
  fold_left heal_block (blocks F) (clear_edges F).

(** ** Branch folding *)

Fixpoint erase_first (b : ref) (inc : list (ref * ref)) : list (ref * ref) :=
  match inc with
  | [] => []
  | p :: r => if N.eqb (snd p) b then r else p :: erase_first b r
  end.

Definition fold_branch (acc : bool * MIRFunction) (b : ref) : bool * MIRFunction :=
  let '(changed, F) := acc in
  match insts F !! terminator b F with
  | Some J =>
      match i_kind J with
      | CondBranchInst _ t f =>
          if N.eqb t f then
            let '(newBr, F) := new_inst
              {| i_kind := BranchInst t; i_type := nullptr; i_name := "";
                 i_loc := i_loc J; i_borrow := None; i_parent := nullptr |} F in
            let F := pop_back b F in
            let F := addInstruction b newBr F in
            let F := removeSuccessor b t F in
            let F := removePredecessor t b F in
            (true, upd_phis t (erase_first b) F)
          else acc
      | _ => acc
      end
  | None => acc
  end.

Definition foldBranches (F : MIRFunction) : bool * MIRFunction :=
  fold_left fold_branch (blocks F) (false, F).

(** ** Bypassing empty blocks *)

Definition is_phi (F : MIRFunction) (i : ref) : bool :=
  match kind_of i F with Some (PhiInst _) => true | _ => false end.

Definition is_invoke (F : MIRFunction) (i : ref) : bool :=
  match kind_of i F with Some (InvokeInst _ _ _ _) => true | _ => false end.

(** The target to which the predecessors of [B] may be redirected. *)
Definition bypass_target (F : MIRFunction) (B : ref) : option ref :=
  if N.eqb B (getEntryBlock F) then None
  else if bool_decide (getPredecessors B F = []) then None
  else
    match getInstructions B F with
    | [i] =>
        match kind_of i F with
        | Some (BranchInst C) =>
            if N.eqb B C then None
            else
              let cHasPhi := existsb (is_phi F) (getInstructions C F) in
              let byInvoke := existsb (fun A => is_invoke F (terminator A F))
                                (getPredecessors B F) in
              let shared := existsb (fun A => bool_decide (A ∈ getPredecessors C F))
                              (getPredecessors B F) in
              if byInvoke || (cHasPhi && shared) then None else Some C
        | _ => None
        end
    | _ => None
    end.

(** One predecessor [A] of [B], redirected to [C]. *)
Definition redirect (B C : ref) (F : MIRFunction) (A : ref) : MIRFunction :=
  let F := upd_inst (terminator A F)
             (fun J => with_kind (replaceTargetBlock B C (i_kind J)) J) F in
  let F := removeSuccessor A B F in
  let F := addSuccessor A C F in
  let F := addPredecessor C A F in
  upd_phis C (fun inc => let valForB := incoming_from B inc in
                         if N.eqb valForB nullptr then inc else addIncoming valForB A inc) F.

Definition bypass (B C : ref) (F : MIRFunction) : MIRFunction :=
  let F := fold_left (redirect B C) (getPredecessors B F) F in
  let F := removePredecessor C B F in
  let F := upd_phis C (removeIncoming B) F in
  upd_block B (fun D => with_predecessors [] (with_successors [] D)) F.

Fixpoint bypass_first (l : list ref) (F : MIRFunction) : bool * MIRFunction :=
  match l with
  | [] => (false, F)
  | B :: r =>
      match bypass_target F B with
      | Some C => (true, bypass B C F)
      | None => bypass_first r F
      end
  end.

Definition bypassEmptyBlocks (F : MIRFunction) : bool * MIRFunction :=
  bypass_first (blocks F) F.

(** ** Merging a block into its only predecessor *)

Definition merge_target (F : MIRFunction) (A : ref) : option ref :=
  match kind_of (terminator A F) F with
  | Some (BranchInst B) =>
      if N.eqb B A || N.eqb B (getEntryBlock F) then None
      else if bool_decide (getPredecessors B F = [A]) then Some B else None
  | _ => None
  end.

(** One instruction of [B]: a phi is replaced by its value for [A], anything else
    moves to the end of [A]. *)
Definition merge_inst (A B : ref) (F : MIRFunction) (i : ref) : MIRFunction :=
  match kind_of i F with
  | Some (PhiInst inc) =>
      let incomingVal := incoming_from A inc in
      if N.eqb incomingVal nullptr then F else replaceAllUsesInFunction i incomingVal F
  | Some _ =>
      let F := upd_inst i (setParent A) F in
      let F := upd_block A (fun D => with_instructions (instructions D ++ [i]) D) F in
      upd_block B (fun D => with_instructions
        (map (fun j => if N.eqb j i then nullptr else j) (instructions D)) D) F
  | None => F
  end.

(** [B->getInstructionsMut().clear()]: what was not moved out, the phis, is
    destroyed. *)
Definition clear_instructions (B : ref) (F : MIRFunction) : MIRFunction :=
  let F' := fold_left (fun F i => free_inst i F) (getInstructions B F) F in
  upd_block B (with_instructions []) F'.

(** One successor of [B], which becomes a successor of [A]. *)
Definition merge_succ (A B : ref) (F : MIRFunction) (succ : ref) : MIRFunction :=
  let F := addSuccessor A succ F in
  let F := removePredecessor succ B F in
  let F := addPredecessor succ A F in
  upd_phis succ (fun inc => let valForB := incoming_from B inc in
                            if N.eqb valForB nullptr then inc
                            else addIncoming valForB A (removeIncoming B inc)) F.

Definition merge (A B : ref) (F : MIRFunction) : MIRFunction :=
  let F := pop_back A F in
  let F := fold_left (merge_inst A B) (getInstructions B F) F in
  let F := clear_instructions B F in
  let F := removeSuccessor A B F in
  let F := fold_left (merge_succ A B) (getSuccessors B F) F in
  upd_block B (fun D => with_predecessors [] (with_successors [] D)) F.

Fixpoint merge_first (l : list ref) (F : MIRFunction) : bool * MIRFunction :=
  match l with
  | [] => (false, F)
  | A :: r =>
      match merge_target F A with
      | Some B => (true, merge A B F)
      | None => merge_first r F
      end
  end.

Definition mergeBlocks (F : MIRFunction) : bool * MIRFunction :=
  merge_first (blocks F) F.

(** ** Dead blocks *)

(** [truePreds[block]] is not empty, for the edges recorded in [F]. *)
Definition has_true_pred (F : MIRFunction) (b : ref) : bool :=
  existsb (fun p => bool_decide (b ∈ getSuccessors p F)) (blocks F).

(** [blocks.erase]: the block and the instructions it owns are destroyed. *)
Definition erase_block (b : ref) (F : MIRFunction) : MIRFunction :=
  let F := fold_left (fun F i => free_inst i F) (getInstructions b F) F in
  set_blocks (erase_all b (blocks F)) (set_bbs (delete b (bbs F)) F).

Definition sever (b : ref) (F : MIRFunction) (succ : ref) : MIRFunction :=
  upd_phis succ (removeIncoming b) (removePredecessor succ b F).

Definition remove_dead (b : ref) (F : MIRFunction) : MIRFunction :=
  let F := fold_left (sever b) (getSuccessors b F) F in
  erase_block b (upd_block b (with_successors []) F).

(** One round of the loop: the blocks that had no predecessor when it began. *)
Definition sweep_block (live : ref -> bool) (acc : bool * MIRFunction) (b : ref) :
    bool * MIRFunction :=
  let '(changed, F) := acc in
  if N.eqb b (getEntryBlock F) || live b then acc else (true, remove_dead b F).

Definition sweep (F : MIRFunction) : bool * MIRFunction :=
  fold_left (sweep_block (has_true_pred F)) (blocks F) (false, F).

Fixpoint sweep_loop (fuel : nat) (F : MIRFunction) : option MIRFunction :=
  match fuel with
  | 0 => None
  | S fuel =>
      let '(changed, F) := sweep F in
      if changed then sweep_loop fuel F else Some F
  end.

(** Every round but the last erases a block. *)
Definition removeDeadBlocks (F : MIRFunction) : option MIRFunction :=
  sweep_loop (S (length (blocks F))) F.

(** ** The pass *)

(** One iteration of the simplification loop; the three calls are all made. *)
Definition simplify_step (F : MIRFunction) : bool * MIRFunction :=
  let '(c1, F) := foldBranches F in
  let '(c2, F) := bypassEmptyBlocks F in
  let '(c3, F) := mergeBlocks F in
  (c1 || c2 || c3, F).

Fixpoint simplify_loop (fuel : nat) (changed : bool) (F : MIRFunction) :
    option (bool * MIRFunction) :=
  match fuel with
  | 0 => None
  | S fuel =>
      let '(localChanged, F) := simplify_step F in
      if localChanged then simplify_loop fuel true F else Some (changed, F)
  end.

Definition runOnFunction (fuel : nat) (F : MIRFunction) : option (bool * MIRFunction) :=
  '(changed, F1) ← simplify_loop fuel false (heal F);
  F2 ← removeDeadBlocks F1;
  Some (changed || negb (length (blocks F2) =? length (blocks F1)), F2).

(** [runOnModule]: every function with a body. *)
Fixpoint runOnModule (fuel : nat) (M : list MIRFunction) : option (bool * list MIRFunction) :=
  match M with
  | [] => Some (false, [])
  | F :: M =>
      '(c1, F) ← if isDeclaration F then Some (false, F) else runOnFunction fuel F;
      '(c2, M) ← runOnModule fuel M;
      Some (c1 || c2, F :: M)
  end.
