(* ===== verification/SimplifyCFGProps.v ===== *)
(** * Simplification of the control-flow graph: properties

    The healer establishes the consistency of the recorded edges with the
    terminators; the sweep of dead blocks ends and keeps every block that the
    recorded edges reach; and the effect of branch folding on the edges, with the
    programs it breaks. *)

From S2P Require Import Prelude Diag MIR MIRFacts SimplifyCFG.

Implicit Types (F G : MIRFunction) (b c p x : ref).

(** A function whose blocks are in the heap and whose terminators stay inside it. *)
Record well_formed F : Prop := {
  wf_heap : forall b, b ∈ blocks F -> has_block b F;
  wf_null : insts F !! nullptr = None;
  wf_closed : forall b c, b ∈ blocks F -> c ∈ term_targets b F -> c ∈ blocks F;
}.

(** The recorded edges are those of the terminators, in both directions. *)
Record consistent F : Prop := {
  co_succ : forall b c, b ∈ blocks F -> (c ∈ getSuccessors b F <-> c ∈ term_targets b F);
  co_pred : forall c p, c ∈ blocks F ->
    (p ∈ getPredecessors c F <-> p ∈ blocks F /\ c ∈ getSuccessors p F);
}.

(** ** The healer *)

Lemma clear_edges_same l F :
  same_code F (fold_left (fun F b =>
    upd_block b (fun B => with_predecessors [] (with_successors [] B)) F) l F).
Proof. apply same_code_fold. intros G b. by apply same_code_upd_block. Qed.

Lemma clear_edges_cleared l : forall F b,
  (b ∈ l \/ getSuccessors b F = [] /\ getPredecessors b F = []) ->
  let G := fold_left (fun F b =>
    upd_block b (fun B => with_predecessors [] (with_successors [] B)) F) l F in
  getSuccessors b G = [] /\ getPredecessors b G = [].
Proof.
  induction l as [| c l IH]; intros F b H; simpl.
  - destruct H as [H | H]; [by apply not_elem_of_nil in H | done].
  - apply IH. destruct (decide (b = c)) as [-> | N].
    + right. unfold getSuccessors, getPredecessors. rewrite bbs_upd_block, decide_True by done.
      by destruct (bbs F !! c).
    + destruct H as [H | H].
      * apply elem_of_cons in H as [H | H]; [done | by left].
      * right. unfold getSuccessors, getPredecessors in *. by rewrite bbs_upd_block, decide_False.
Qed.

Lemma heal_block_same F b : same_code F (heal_block F b).
Proof.
  unfold heal_block. case_bool_decide; [done |]. etransitivity; [| apply same_code_upd_phis].
  unfold heal_edges. case_match; [apply same_code_wire | done].
Qed.

Lemma term_targets_null b F : insts F !! nullptr = None -> getInstructions b F = [] ->
  term_targets b F = [].
Proof.
  intros N E. unfold term_targets, terminator, inst_targets, kind_of. rewrite E. simpl.
  by rewrite N.
Qed.

(** Processing [b] records the edges of its terminator and no other. *)
Lemma heal_block_edges F G b c x :
  well_formed F -> same_code F G -> insts G !! nullptr = None -> b ∈ blocks F ->
  (x ∈ getSuccessors c (heal_block G b) <->
     x ∈ getSuccessors c G \/ (c = b /\ x ∈ term_targets b F))
  /\ (x ∈ getPredecessors c (heal_block G b) <->
     x ∈ getPredecessors c G \/ (x = b /\ c ∈ term_targets b F)).
Proof.
  intros W S N Hb. unfold heal_block. rewrite <- (term_targets_same _ _ b S).
  case_bool_decide as E.
  - rewrite (term_targets_null b G N E). rewrite !elem_of_nil. tauto.
  - destruct (same_edges_upd_phis b (heal_phi (getPredecessors b (heal_edges b G)))
                (heal_edges b G) c) as [-> ->].
    unfold heal_edges. assert (T : term_targets b G = term_targets b F)
      by (by apply term_targets_same).
    unfold term_targets, inst_targets in T |- *.
    destruct (kind_of (terminator b G) G) as [k |] eqn:K; [| rewrite !elem_of_nil; tauto].
    destruct (elem_of_wire b (targets k) G c x) as [W1 W2].
    + intros t Ht Nt. apply (sc_has _ _ S), (wf_heap _ W), (wf_closed _ W b); [done |].
      unfold term_targets, inst_targets. rewrite <- T. by rewrite list_elem_of_filter.
    + by apply (sc_has _ _ S), (wf_heap _ W).
    + rewrite W1, W2, !list_elem_of_filter. tauto.
Qed.

Lemma heal_fold_edges F l : forall G c x,
  well_formed F -> same_code F G -> insts G !! nullptr = None ->
  (forall b, b ∈ l -> b ∈ blocks F) ->
  let H := fold_left heal_block l G in
  (x ∈ getSuccessors c H <-> x ∈ getSuccessors c G \/ (c ∈ l /\ x ∈ term_targets c F))
  /\ (x ∈ getPredecessors c H <-> x ∈ getPredecessors c G \/ (x ∈ l /\ c ∈ term_targets x F)).
Proof.
  induction l as [| b l IH]; intros G c x W S N Hl H.
  - unfold H. simpl. rewrite !elem_of_nil. tauto.
  - assert (Hb : b ∈ blocks F) by (apply Hl; left).
    destruct (heal_block_edges F G b c x W S N Hb) as [E1 E2].
    destruct (IH (heal_block G b) c x) as [I1 I2]; [done | | | |].
    + etransitivity; [exact S | apply heal_block_same].
    + pose proof (sc_shape _ _ (heal_block_same G b) nullptr) as Q.
      unfold shape, kind_of in Q. rewrite N in Q. simpl in Q.
      by destruct (insts (heal_block G b) !! nullptr).
    + intros d Hd. apply Hl. by right.
    + unfold H. simpl. rewrite I1, I2, E1, E2, !elem_of_cons.
      split; split; intros; destruct_or?; destruct_and?; destruct_or?; subst; auto 6.
Qed.

(** C15: the healer makes the recorded edges consistent: whatever edges were recorded
    before, afterwards every block's successors are the targets of its terminator
    and its predecessors the blocks with an edge to it.  It changes no instruction
    but the incoming lists of phis. *)
Theorem heal_consistent F :
  well_formed F -> consistent (heal F) /\ same_code F (heal F).
Proof.
  intros W.
  pose proof (clear_edges_same (blocks F) F) as S0. fold (clear_edges F) in S0.
  assert (N0 : insts (clear_edges F) !! nullptr = None).
  { pose proof (sc_shape _ _ S0 nullptr) as Q. unfold shape, kind_of in Q.
    rewrite (wf_null _ W) in Q. simpl in Q. by destruct (insts (clear_edges F) !! nullptr). }
  assert (S : same_code F (heal F)).
  { etransitivity; [exact S0 |]. apply same_code_fold. intros G b. apply heal_block_same. }
  assert (E : forall c x, c ∈ blocks F ->
    (x ∈ getSuccessors c (heal F) <-> x ∈ term_targets c F)
    /\ (x ∈ getPredecessors c (heal F) <-> x ∈ blocks F /\ c ∈ term_targets x F)).
  { intros c x Hc.
    destruct (heal_fold_edges F (blocks F) (clear_edges F) c x W S0 N0) as [E1 E2]; [done |].
    destruct (clear_edges_cleared (blocks F) F c) as [C1 C2]; [by left |].
    fold (clear_edges F) in C1, C2. unfold heal. rewrite C1 in E1. rewrite C2 in E2.
    rewrite E1, E2, !elem_of_nil. tauto. }
  split; [| done]. split.
  - intros b c Hb. rewrite (sc_blocks _ _ S) in Hb. rewrite (term_targets_same _ _ b S).
    by apply E.
  - intros c p Hc. rewrite (sc_blocks _ _ S) in *. destruct (E c p Hc) as [_ ->].
    split; intros [Hp T]; (split; [done |]); [by apply E | by apply (E p c Hp)].
Qed.

(** ** Dead blocks *)

(** Reachability along the recorded successors. *)
Inductive reach F : ref -> Prop :=
  | reach_entry b r : blocks F = b :: r -> reach F b
  | reach_succ a c : reach F a -> c ∈ getSuccessors a F -> reach F c.

(** Recorded successors are blocks of the function. *)
Definition closed_edges F : Prop :=
  forall a c, a ∈ blocks F -> c ∈ getSuccessors a F -> c ∈ blocks F.

(** [G] comes from [F] by erasing blocks that no edge of [F] enters. *)
Record swept F G : Prop := {
  sw_entry : head (blocks G) = head (blocks F);
  sw_sub : forall c, c ∈ blocks G -> c ∈ blocks F;
  sw_live : forall c, c ∈ blocks F -> head (blocks F) = Some c \/ has_true_pred F c = true ->
    c ∈ blocks G;
  sw_succ : forall c, c ∈ blocks G -> getSuccessors c G = getSuccessors c F;
  sw_code : forall c, c ∈ blocks G -> getInstructions c G = getInstructions c F;
}.

Lemma free_insts_bbs l F :
  bbs (fold_left (fun F i => free_inst i F) l F) = bbs F
  /\ blocks (fold_left (fun F i => free_inst i F) l F) = blocks F.
Proof. revert F. induction l as [| i l IH]; intros F; simpl; [done |]. apply (IH (free_inst i F)). Qed.

(** Erasing [b] leaves the other blocks' successors and instructions. *)
Lemma remove_dead_spec b F :
  let G := remove_dead b F in
  blocks G = erase_all b (blocks F)
  /\ forall c, c <> b -> getSuccessors c G = getSuccessors c F
       /\ getInstructions c G = getInstructions c F.
Proof.
  intros G. unfold G, remove_dead.
  set (F1 := fold_left (sever b) (getSuccessors b F) F).
  assert (S : same_code F F1 /\ forall c, getSuccessors c F1 = getSuccessors c F).
  { unfold F1. generalize (getSuccessors b F) as l. intros l. generalize F as H.
    induction l as [| s l IH]; intros H; simpl; [done |]. destruct (IH (sever b H s)) as [I1 I2].
    split.
    - etransitivity; [| exact I1]. unfold sever.
      etransitivity; [apply same_code_removePredecessor | apply same_code_upd_phis].
    - intros c. rewrite I2. unfold sever.
      destruct (same_edges_upd_phis s (removeIncoming b) (removePredecessor s b H) c) as [-> _].
      apply getSuccessors_removePredecessor. }
  destruct S as [S1 S2]. set (F2 := upd_block b (with_successors []) F1).
  assert (E : forall c, c <> b -> getSuccessors c F2 = getSuccessors c F
    /\ getInstructions c F2 = getInstructions c F).
  { intros c N. unfold F2. unfold getSuccessors, getInstructions.
    rewrite bbs_upd_block, decide_False by done. split; [apply S2 | apply (sc_instructions _ _ S1)]. }
  unfold erase_block. destruct (free_insts_bbs (getInstructions b F2) F2) as [B1 B2].
  set (F3 := fold_left _ _ F2) in *. clearbody F3.
  split.
  - simpl. rewrite B2. unfold F2. simpl. by rewrite (sc_blocks _ _ S1).
  - intros c N. destruct (E c N) as [E1 E2]. unfold getSuccessors, getInstructions in *. simpl.
    rewrite B1, lookup_delete_ne by done. by split.
Qed.

Lemma swept_refl F : swept F F.
Proof. by split. Qed.

Lemma getEntryBlock_head F b : head (blocks F) = Some b -> getEntryBlock F = b.
Proof. unfold getEntryBlock. by intros ->. Qed.

Lemma swept_step F G b :
  swept F G -> N.eqb b (getEntryBlock G) || has_true_pred F b = false ->
  swept F (remove_dead b G).
Proof.
  intros [S1 S2 S3 S4 S5] D. breflect. apply N.eqb_neq in H.
  destruct (remove_dead_spec b G) as [R1 R2]. split.
  - rewrite R1, <- S1. destruct (blocks G) as [| e r] eqn:Eb; [done |].
    rewrite (getEntryBlock_head G e) in H by (by rewrite Eb).
    unfold erase_all. by rewrite filter_cons_True.
  - intros c. rewrite R1, elem_of_erase_all. intros [_ Hc]. by apply S2.
  - intros c Hc Hl. rewrite R1, elem_of_erase_all. split; [| by apply S3].
    intros ->. destruct Hl as [Hl | Hl]; [| congruence].
    apply H. symmetry. apply getEntryBlock_head. by rewrite S1.
  - intros c. rewrite R1, elem_of_erase_all. intros [N Hc]. rewrite <- (S4 c Hc). by apply R2.
  - intros c. rewrite R1, elem_of_erase_all. intros [N Hc]. rewrite <- (S5 c Hc). by apply R2.
Qed.

Lemma sweep_fold F l : forall changed G,
  (forall b, b ∈ l -> b ∈ blocks F) -> swept F G ->
  length (blocks G) <= length (blocks F) ->
  (if changed : bool then length (blocks G) < length (blocks F) else G = F) ->
  let r := fold_left (sweep_block (has_true_pred F)) l (changed, G) in
  swept F r.2 /\ (if r.1 then length (blocks r.2) < length (blocks F) else r.2 = F)
  /\ (r.1 = false -> changed = false /\
       forall b, b ∈ l -> N.eqb b (getEntryBlock F) || has_true_pred F b = true).
Proof.
  induction l as [| b l IH]; intros changed G Hl S L C; simpl.
  - split_and!; [done | done |]. intros E. split; [done |].
    intros b Hb. by apply not_elem_of_nil in Hb.
  - assert (Hl' : forall c, c ∈ l -> c ∈ blocks F) by (intros c Hc; apply Hl; by right).
    destruct (N.eqb b (getEntryBlock G) || has_true_pred F b) eqn:D.
    + destruct (IH changed G Hl' S L C) as (I1 & I2 & I3). split_and!; [done | done |].
      intros E. destruct (I3 E) as [-> I4]. split; [done |]. simpl in C. subst G.
      intros c Hc. apply elem_of_cons in Hc as [-> | Hc]; [done | by apply I4].
    + destruct (remove_dead_spec b G) as [R1 _].
      assert (L' : length (blocks (remove_dead b G)) < length (blocks F)).
      { rewrite R1. destruct changed.
        - pose proof (length_erase_all b (blocks G)). lia.
        - subst G. apply length_erase_all_lt, Hl. left. }
      destruct (IH true (remove_dead b G) Hl') as (I1 & I2 & I3);
        [by apply swept_step | lia | done |].
      split_and!; [done | done |]. intros E. by destruct (I3 E).
Qed.

Lemma swept_closed F G : closed_edges F -> swept F G -> closed_edges G.
Proof.
  intros C S a c Ha Hc. rewrite (sw_succ _ _ S a Ha) in Hc. pose proof (sw_sub _ _ S a Ha) as Ha'.
  apply (sw_live _ _ S); [by apply (C a) |]. right. apply existsb_exists. exists a.
  split; [by apply list_elem_of_In | by apply bool_decide_eq_true].
Qed.

Lemma reach_block F c : closed_edges F -> reach F c -> c ∈ blocks F.
Proof. intros C. induction 1 as [b r E | a c _ IH E]; [rewrite E; left | by apply (C a)]. Qed.

Lemma swept_reach F G c : closed_edges F -> swept F G -> reach F c -> reach G c.
Proof.
  intros C S R. induction R as [b r E | a c R IH E].
  - pose proof (sw_entry _ _ S) as H. rewrite E in H. simpl in H.
    destruct (blocks G) as [| b' r'] eqn:Eg; [done |]. simpl in H. simplify_eq.
    by apply reach_entry with r'.
  - apply reach_succ with a; [done |]. rewrite (sw_succ _ _ S); [done |].
    apply (reach_block G); [by apply (swept_closed F) | done].
Qed.

Lemma swept_trans_facts F G H :
  swept F G -> swept G H ->
  head (blocks H) = head (blocks F) /\ (forall c, c ∈ blocks H -> c ∈ blocks F
    /\ getSuccessors c H = getSuccessors c F /\ getInstructions c H = getInstructions c F).
Proof.
  intros [A1 A2 A3 A4 A5] [B1 B2 B3 B4 B5]. split; [congruence |]. intros c Hc.
  pose proof (B2 c Hc). split_and!; [auto | rewrite B4, A4; auto | rewrite B5, A5; auto].
Qed.

Lemma sweep_spec F :
  let r := sweep F in
  swept F r.2
  /\ (if r.1 then length (blocks r.2) < length (blocks F)
      else r.2 = F /\ forall b, b ∈ blocks F -> N.eqb b (getEntryBlock F) || has_true_pred F b = true).
Proof.
  destruct (sweep_fold F (blocks F) false F) as (S1 & S2 & S3); auto using swept_refl.
  fold (sweep F) in S1, S2, S3. split; [done |]. destruct (sweep F).1; [done |].
  split; [done |]. by apply S3.
Qed.

Lemma sweep_loop_spec fuel : forall F,
  closed_edges F -> length (blocks F) < fuel ->
  exists G, sweep_loop fuel F = Some G
    /\ (forall c, reach F c -> c ∈ blocks G)
    /\ head (blocks G) = head (blocks F)
    /\ (forall c, c ∈ blocks G -> c ∈ blocks F
          /\ (c = getEntryBlock G \/ has_true_pred G c = true)
          /\ getSuccessors c G = getSuccessors c F /\ getInstructions c G = getInstructions c F).
Proof.
  induction fuel as [| fuel IH]; intros F C L; [lia |]. simpl.
  destruct (sweep_spec F) as [S D]. destruct (sweep F) as [changed G]. simpl in S, D.
  destruct changed.
  - destruct (IH G) as (H & E & R & Hd & P); [by apply (swept_closed F) | lia |].
    exists H. split_and!; [done | | by rewrite Hd, (sw_entry _ _ S) |].
    + intros c Hc. by apply R, (swept_reach F).
    + intros c Hc. destruct (P c Hc) as (P1 & P2 & P3 & P4).
      split_and!; [by apply (sw_sub _ _ S) | done | |].
      * by rewrite P3, (sw_succ _ _ S).
      * by rewrite P4, (sw_code _ _ S).
  - destruct D as [-> D]. exists F. split_and!; [done | intros c; by apply reach_block | done |].
    intros c Hc. split_and!; try done. specialize (D c Hc). apply orb_true_iff in D as [D | D].
    + left. by apply N.eqb_eq.
    + by right.
Qed.

(** C28: [removeDeadBlocks] ends, and what it does is safe with respect to the
    recorded edges: every block they reach from the entry is kept with its
    instructions and successors, the entry stays the entry, and every other block
    that is left has a recorded predecessor. *)
Theorem removeDeadBlocks_keeps_reachable F :
  closed_edges F ->
  exists G, removeDeadBlocks F = Some G
    /\ (forall c, reach F c -> c ∈ blocks G)
    /\ head (blocks G) = head (blocks F)
    /\ (forall c, c ∈ blocks G -> c ∈ blocks F
          /\ (c = getEntryBlock G \/ has_true_pred G c = true)
          /\ getSuccessors c G = getSuccessors c F /\ getInstructions c G = getInstructions c F).
Proof. intros C. apply sweep_loop_spec; [done | lia]. Qed.

(** ** Branch folding loses the edge it keeps *)

(** [addInstruction] of the branch allocated by [fold_branch], after [pop_back]. *)
Lemma replace_terminator_spec F b i J :
  has_block b F -> last (getInstructions b F) = Some i -> i <> next_ref F ->
  let F1 := (new_inst J F).2 in
  let G := addInstruction b (next_ref F) (pop_back b F1) in
  getInstructions b G = removelast (getInstructions b F) ++ [next_ref F]
  /\ kind_of (next_ref F) G = Some (i_kind J)
  /\ forall c x, (forall t, t ∈ targets (i_kind J) -> t <> nullptr -> has_block t F) ->
       (x ∈ getSuccessors c G <->
          x ∈ getSuccessors c F \/ (c = b /\ x ∈ targets (i_kind J) /\ x <> nullptr)).
Proof.
  intros Hb L N F1. set (n := next_ref F) in *.
  set (F2 := pop_back b F1).
  assert (E2 : F2 = free_inst i (upd_block b
    (fun B => with_instructions (removelast (instructions B)) B) F1)).
  { unfold F2, pop_back. change (getInstructions b F1) with (getInstructions b F). by rewrite L. }
  assert (I2 : insts F2 !! n = Some J).
  { rewrite E2. simpl. rewrite lookup_delete_ne by done. apply lookup_insert_eq. }
  assert (H2 : forall c, has_block c F2 <-> has_block c F).
  { intros c. rewrite E2. exact (has_block_upd b _ F1 c). }
  assert (C2 : getInstructions b F2 = removelast (getInstructions b F)).
  { rewrite E2. unfold getInstructions. simpl. rewrite lookup_alter_eq.
    destruct Hb as [B EB]. by rewrite EB. }
  assert (S2 : forall c, getSuccessors c F2 = getSuccessors c F).
  { intros c. rewrite E2. unfold free_inst.
    change (getSuccessors c (upd_block b (fun B =>
      with_instructions (removelast (instructions B)) B) F1) = getSuccessors c F).
    by rewrite getSuccessors_upd. }
  set (F3 := upd_inst n (setParent b) F2). set (F4 := wire b (targets (i_kind J)) F3).
  assert (S34 : same_code F3 F4) by apply same_code_wire.
  intros G. assert (EG : G = upd_block b (fun B => with_instructions (instructions B ++ [n]) B) F4).
  { unfold G, addInstruction. fold F2. by rewrite I2. }
  split_and!.
  - rewrite EG. unfold getInstructions. rewrite bbs_upd_block, decide_True by done.
    assert (H4 : has_block b F4) by (apply (sc_has _ _ S34), H2, Hb).
    pose proof (sc_instructions _ _ S34 b) as Q. unfold getInstructions in Q.
    destruct H4 as [B4 E4]. rewrite E4 in Q |- *. simpl. rewrite Q.
    change (match bbs F3 !! b with Some B => instructions B | None => [] end)
      with (getInstructions b F2). by rewrite C2.
  - rewrite EG. change (kind_of n F4 = Some (i_kind J)).
    (* [wire] changes no instruction *)
    assert (W : insts F4 = insts F3).
    { unfold F4. generalize F3. generalize (targets (i_kind J)). clear.
      induction l as [| t l IH]; intros F; [done |]. cbn [wire fold_left]. fold (wire b l).
      unfold wire in IH. rewrite IH. by case_match. }
    unfold kind_of. rewrite W. unfold F3. by rewrite insts_upd_inst, decide_True, I2.
  - intros c x Ht. rewrite EG, getSuccessors_upd by done. unfold F4.
    destruct (elem_of_wire b (targets (i_kind J)) F3 c x) as [-> _].
    + intros t T Nt. by apply H2, Ht.
    + by apply H2.
    + change (getSuccessors c F3) with (getSuccessors c F2). by rewrite S2.
Qed.

(** C38: [fold_branch] turns a conditional branch with equal targets into a branch,
    but leaves no recorded edge to its target: the terminator still transfers
    control there, while the block has no successor and the target has lost it as
    a predecessor, so the consistency the healer established is broken. *)
Theorem fold_branch_loses_edge F b cond t :
  well_formed F -> consistent F -> b ∈ blocks F -> t <> nullptr ->
  (forall i, i ∈ getInstructions b F -> i <> next_ref F) ->
  kind_of (terminator b F) F = Some (CondBranchInst cond t t) ->
  let '(changed, G) := fold_branch (false, F) b in
  changed = true /\ term_targets b G = [t]
  /\ getSuccessors b G = [] /\ b ∉ getPredecessors t G.
Proof.
  intros W C Hb Nt Fr K.
  assert (T : term_targets b F = [t; t]).
  { unfold term_targets, inst_targets. rewrite K. simpl.
    by rewrite !filter_cons_True, filter_nil. }
  unfold fold_branch. unfold kind_of in K.
  destruct (insts F !! terminator b F) as [J |] eqn:EJ; [| done].
  simpl in K. injection K as K. rewrite K, N.eqb_refl.
  destruct (last (getInstructions b F)) as [i |] eqn:L;
    [| unfold terminator in EJ; rewrite L in EJ; simpl in EJ; by rewrite (wf_null _ W) in EJ].
  set (J' := {| i_kind := BranchInst t; i_type := nullptr; i_name := "";
                i_loc := i_loc J; i_borrow := None; i_parent := nullptr |}).
  assert (Ni : i <> next_ref F).
  { apply Fr. apply last_Some in L as [l ->]. apply elem_of_app. right. by left. }
  destruct (replace_terminator_spec F b i J' (wf_heap _ W b Hb) L Ni) as (R1 & R2 & R3).
  simpl in R1, R2, R3. cbn [new_inst]. simpl snd in *.
  set (G4 := addInstruction b (next_ref F) _) in *.
  set (G5 := removeSuccessor b t G4). set (G6 := removePredecessor t b G5).
  assert (S : same_code G4 (upd_phis t (erase_first b) G6)).
  { etransitivity; [apply same_code_removeSuccessor |].
    etransitivity; [apply same_code_removePredecessor | apply same_code_upd_phis]. }
  destruct (same_edges_upd_phis t (erase_first b) G6 b) as [Es _].
  destruct (same_edges_upd_phis t (erase_first b) G6 t) as [_ Ep].
  split_and!; [done | | |].
  - rewrite (term_targets_same _ _ b S). unfold term_targets, terminator, inst_targets.
    rewrite R1, last_snoc. simpl. rewrite R2. simpl. by rewrite filter_cons_True, filter_nil.
  - rewrite Es. unfold G6, G5. rewrite getSuccessors_removePredecessor,
      getSuccessors_removeSuccessor, decide_True by done.
    apply elem_of_nil_inv. intros x Hx. apply elem_of_erase_all in Hx as [Nx Hx].
    apply R3 in Hx; [| intros u Hu Nu; apply (wf_heap _ W), (wf_closed _ W b); [done |];
      rewrite T; apply list_elem_of_singleton in Hu; subst; left].
    destruct Hx as [Hx | (_ & Hx & _)].
    + apply (co_succ _ C b x Hb) in Hx. rewrite T, !elem_of_cons in Hx.
      destruct Hx as [? | [? | Hx]]; [done.. | by apply not_elem_of_nil in Hx].
    + apply list_elem_of_singleton in Hx. done.
  - rewrite Ep. unfold G6. rewrite getPredecessors_removePredecessor, decide_True by done.
    rewrite elem_of_erase_all. tauto.
Qed.

(** [if (c) {}]: the entry branches to two empty blocks that jump to the block that
    returns. *)
Definition inst_of (k : InstKind) : MIRInst :=
  {| i_kind := k; i_type := nullptr; i_name := ""; i_loc := None; i_borrow := None; i_parent := nullptr |}.
Definition block_of (l : list ref) : MIRBlock :=
  {| b_name := ""; instructions := l; predecessors := []; successors := [] |}.

Definition empty_if : MIRFunction :=
  {| insts := list_to_map [(11%N, inst_of (CondBranchInst 90 2 3));
                           (12%N, inst_of (BranchInst 4));
                           (13%N, inst_of (BranchInst 4));
                           (14%N, inst_of (ReturnInst nullptr))];
     bbs := list_to_map [(1%N, block_of [11%N]); (2%N, block_of [12%N]);
                         (3%N, block_of [13%N]); (4%N, block_of [14%N])];
     blocks := [1%N; 2%N; 3%N; 4%N]; next_ref := 100%N |}.

(** A loop [6 -> 5 -> 6] whose latch ends in a conditional branch with equal targets,
    entered from two blocks. *)
Definition spinning : MIRFunction :=
  {| insts := list_to_map [(11%N, inst_of (CondBranchInst 90 2 3));
                           (12%N, inst_of (StoreInst 90 91 0 false));
                           (22%N, inst_of (BranchInst 5));
                           (13%N, inst_of (StoreInst 90 91 0 false));
                           (23%N, inst_of (BranchInst 5));
                           (15%N, inst_of (BranchInst 6));
                           (16%N, inst_of (CondBranchInst 90 5 5))];
     bbs := list_to_map [(1%N, block_of [11%N]); (2%N, block_of [12%N; 22%N]);
                         (3%N, block_of [13%N; 23%N]); (5%N, block_of [15%N]);
                         (6%N, block_of [16%N])];
     blocks := [1%N; 2%N; 3%N; 5%N; 6%N]; next_ref := 100%N |}.

(** The pass erases a live block: for [if (c) {}] it ends with the entry block
    alone, whose terminator is a branch to the erased block that returned. *)
Theorem simplify_erases_live_block :
  exists G, runOnFunction 10 empty_if = Some (true, G)
    /\ blocks G = [1%N] /\ term_targets 1 G = [4%N] /\ ~ has_block 4 G.
Proof.
  destruct (runOnFunction 10 empty_if) as [[c G] |] eqn:E; [| by vm_compute in E].
  exists G. vm_compute in E. injection E as <- <-. split; [done |]. split; [done |].
  split; [by vm_compute |]. unfold has_block. by intros [B ?].
Qed.

(** Once the state repeats, the loop never ends. *)
Lemma simplify_loop_cycle F G :
  simplify_step F = (true, G) -> simplify_step G = (true, F) ->
  forall fuel ch, simplify_loop fuel ch F = None /\ simplify_loop fuel ch G = None.
Proof.
  intros H1 H2. induction fuel as [| fuel IH]; intros ch; [done |]. simpl.
  rewrite H1, H2. split; apply IH.
Qed.

(** Two functions with the same contents are equal; the contents can be computed. *)
Definition contents F :=
  (map_to_list (insts F), map_to_list (bbs F), blocks F, next_ref F).

Lemma contents_inj F G : contents F = contents G -> F = G.
Proof.
  destruct F as [i1 b1 l1 n1], G as [i2 b2 l2 n2]. unfold contents. simpl.
  intros H. injection H as H1 H2 H3 H4. subst.
  rewrite <- (list_to_map_to_list i1), <- (list_to_map_to_list b1), H1, H2.
  by rewrite !list_to_map_to_list.
Qed.

(** C32: the simplification loop need not end: on [spinning], two empty blocks are
    bypassed into each other again and again, whatever the number of iterations. *)
Theorem simplify_diverges : forall fuel, runOnFunction fuel spinning = None.
Proof.
  set (F := (simplify_step (heal spinning)).2). set (G := (simplify_step F).2).
  assert (H0 : simplify_step (heal spinning) = (true, F)).
  { apply injective_projections; [by vm_compute | done]. }
  assert (H1 : simplify_step F = (true, G)).
  { apply injective_projections; [by vm_compute | done]. }
  assert (H2 : simplify_step G = (true, F)).
  { apply injective_projections; [by vm_compute |]. apply contents_inj. by vm_compute. }
  intros fuel. unfold runOnFunction.
  destruct fuel as [| fuel]; [done |]. cbn [simplify_loop]. rewrite H0.
  by destruct (simplify_loop_cycle F G H1 H2 fuel true) as [-> _].
Qed.

(** ** Deciding the hypotheses on a concrete function *)

Definition subset_b (l k : list ref) : bool := forallb (fun x => bool_decide (x ∈ k)) l.

Lemma subset_b_spec l k : subset_b l k = true -> forall x, x ∈ l -> x ∈ k.
Proof.
  intros H x Hx. unfold subset_b in H. rewrite forallb_forall in H.
  apply (bool_decide_eq_true (x ∈ k)), H. by apply list_elem_of_In.
Qed.

Definition well_formed_b F : bool :=
  forallb (fun b => bool_decide (is_Some (bbs F !! b)) && subset_b (term_targets b F) (blocks F))
    (blocks F)
  && match insts F !! nullptr with None => true | Some _ => false end.

Lemma well_formed_b_spec F : well_formed_b F = true -> well_formed F.
Proof.
  unfold well_formed_b. intros H. apply andb_true_iff in H as [H N].
  rewrite forallb_forall in H.
  assert (Q : forall b, b ∈ blocks F -> is_Some (bbs F !! b) /\
    subset_b (term_targets b F) (blocks F) = true).
  { intros b Hb. apply list_elem_of_In, H, andb_true_iff in Hb as [H1 H2].
    by apply bool_decide_eq_true in H1. }
  split.
  - intros b Hb. by apply Q.
  - by destruct (insts F !! nullptr).
  - intros b c Hb Hc. destruct (Q b Hb) as [_ S]. by apply (subset_b_spec _ _ S).
Qed.

Definition consistent_b F : bool :=
  forallb (fun b =>
    subset_b (getSuccessors b F) (term_targets b F) &&
    subset_b (term_targets b F) (getSuccessors b F) &&
    forallb (fun p => bool_decide (p ∈ getPredecessors b F <-> b ∈ getSuccessors p F)) (blocks F) &&
    subset_b (getPredecessors b F) (blocks F)) (blocks F).

Lemma consistent_b_spec F : consistent_b F = true -> consistent F.
Proof.
  unfold consistent_b. rewrite forallb_forall. intros H.
  split; intros b c Hb; apply list_elem_of_In, H in Hb;
    rewrite !andb_true_iff, forallb_forall in Hb; destruct Hb as [[[H1 H2] H3] H4].
  - split; apply subset_b_spec; done.
  - split.
    + intros Hc. pose proof (subset_b_spec _ _ H4 c Hc) as Hin. split; [done |].
      apply list_elem_of_In, H3, bool_decide_eq_true in Hin. by apply Hin.
    + intros [Hc S]. apply list_elem_of_In, H3, bool_decide_eq_true in Hc. by apply Hc.
Qed.

(** ** The theorems at concrete functions *)

Lemma heal_consistent_witness :
  well_formed empty_if /\ consistent (heal empty_if) /\ same_code empty_if (heal empty_if).
Proof.
  split; [by apply well_formed_b_spec |]. apply heal_consistent. by apply well_formed_b_spec.
Defined.

Lemma removeDeadBlocks_keeps_reachable_witness :
  exists G, removeDeadBlocks (heal empty_if) = Some G
    /\ (forall c, reach (heal empty_if) c -> c ∈ blocks G).
Proof.
  destruct (removeDeadBlocks_keeps_reachable (heal empty_if)) as (G & E & R & _).
  - intros a c Ha Hc. apply (subset_b_spec (getSuccessors a (heal empty_if))); [| done].
    change (blocks (heal empty_if)) with [1%N; 2%N; 3%N; 4%N] in Ha.
    repeat (apply elem_of_cons in Ha as [-> | Ha]; [by vm_compute |]).
    by apply not_elem_of_nil in Ha.
  - exact (ex_intro _ G (conj E R)).
Defined.

(** The entry block ends in a conditional branch with equal targets. *)
Definition same_arms : MIRFunction :=
  {| insts := list_to_map [(11%N, inst_of (CondBranchInst 90 2 2));
                           (12%N, inst_of (ReturnInst nullptr))];
     bbs := list_to_map [(1%N, block_of [11%N]); (2%N, block_of [12%N])];
     blocks := [1%N; 2%N]; next_ref := 100%N |}.

Lemma fold_branch_loses_edge_witness :
  getSuccessors 1 (heal same_arms) = [2%N] /\
  let '(changed, G) := fold_branch (false, heal same_arms) 1 in
  changed = true /\ term_targets 1 G = [2%N]
  /\ getSuccessors 1 G = [] /\ 1%N ∉ getPredecessors 2 G.
Proof.
  split; [by vm_compute |]. apply (fold_branch_loses_edge (heal same_arms) 1 90 2).
  - apply well_formed_b_spec. by vm_compute.
  - apply consistent_b_spec. by vm_compute.
  - change (blocks (heal same_arms)) with [1%N; 2%N]. left.
  - done.
  - intros i Hi. change (getInstructions 1 (heal same_arms)) with [11%N] in Hi.
    apply list_elem_of_singleton in Hi. by subst.
  - by vm_compute.
Defined.
