(* ===== verification/BypassProps.v ===== *)
(** * Bypassing and merging blocks: properties

    What [bypassEmptyBlocks] and [mergeBlocks] do to control transfers, to phis and
    to the order of instructions. *)

From S2P Require Import Prelude Diag MIR MIRFacts SimplifyCFG SimplifyCFGProps.

Implicit Types (F G : MIRFunction) (A B C b c p x i : ref).

(** ** Phis *)

Lemma incoming_from_app B inc l :
  incoming_from B inc <> nullptr -> incoming_from B (inc ++ l) = incoming_from B inc.
Proof.
  unfold incoming_from. induction inc as [| [v p] inc IH]; simpl; [done |].
  by destruct (N.eqb p B).
Qed.

Lemma incoming_from_none B inc :
  (forall v, (v, B) ∉ inc) -> incoming_from B inc = nullptr.
Proof.
  unfold incoming_from. induction inc as [| [v p] inc IH]; intros H; simpl; [done |].
  destruct (N.eqb_spec p B) as [-> | N]; [destruct (H v); left |].
  apply IH. intros w Hw. apply (H w). by right.
Qed.

Lemma incoming_from_app_none B inc l :
  (forall v, (v, B) ∉ inc) -> incoming_from B (inc ++ l) = incoming_from B l.
Proof.
  unfold incoming_from. induction inc as [| [v p] inc IH]; intros H; simpl; [done |].
  destruct (N.eqb_spec p B) as [-> | N]; [destruct (H v); left |].
  apply IH. intros w Hw. apply (H w). by right.
Qed.

Lemma incoming_from_app_other B inc l :
  (forall v, (v, B) ∉ l) -> incoming_from B (inc ++ l) = incoming_from B inc.
Proof.
  intros H. destruct (decide (incoming_from B inc = nullptr)) as [Z | Z];
    [| by apply incoming_from_app].
  unfold incoming_from in *. induction inc as [| [v p] inc IH]; simpl in *;
    [by apply incoming_from_none |].
  by destruct (N.eqb p B); [| apply IH].
Qed.

Lemma incoming_from_map (v : ref) l A :
  incoming_from A (map (fun A => (v, A)) l) = if decide (A ∈ l) then v else nullptr.
Proof.
  unfold incoming_from. induction l as [| a l IH]; cbn [map find snd].
  - by rewrite decide_False by apply not_elem_of_nil.
  - destruct (N.eqb_spec a A) as [-> | N]; [by rewrite decide_True by left |]. rewrite IH.
    destruct (decide (A ∈ l)) as [E | E].
    + by rewrite decide_True by (by right).
    + rewrite decide_False; [done |]. rewrite elem_of_cons. intros [? | ?]; congruence.
Qed.

Lemma incoming_from_removeIncoming A B inc :
  incoming_from A (removeIncoming B inc) =
    if decide (A = B) then nullptr else incoming_from A inc.
Proof.
  unfold incoming_from, removeIncoming. induction inc as [| [v p] inc IH]; [by case_decide |].
  destruct (decide (p = B)) as [-> | N].
  - rewrite filter_cons_False by (intros Q; by apply Q). rewrite IH. cbn [find snd].
    case_decide; [done |]. by rewrite (proj2 (N.eqb_neq B A)).
  - rewrite filter_cons_True by done. cbn [find snd]. destruct (N.eqb_spec p A) as [-> | N'];
      [by rewrite decide_False | apply IH].
Qed.

(** ** The kinds of instructions after a redirection *)

(** The incoming list of a phi of [C] once the predecessors [l] of [B] have been
    redirected to [C]. *)
Definition extend B (l : list ref) (inc : list (ref * ref)) : list (ref * ref) :=
  let v := incoming_from B inc in
  if N.eqb v nullptr then inc else inc ++ map (fun A => (v, A)) l.

Definition redirected B C (terms phis l : list ref) i (k : InstKind) : InstKind :=
  match k with
  | PhiInst inc => if decide (i ∈ phis) then PhiInst (extend B l inc) else k
  | _ => if decide (i ∈ terms) then replaceTargetBlock B C k else k
  end.

Lemma extend_nil B inc : extend B [] inc = inc.
Proof. unfold extend. simpl. rewrite app_nil_r. by case_match. Qed.

Lemma extend_cons B A l inc : extend B l (extend B [A] inc) = extend B (A :: l) inc.
Proof.
  unfold extend. destruct (N.eqb_spec (incoming_from B inc) nullptr) as [E | E].
  - by rewrite E.
  - rewrite incoming_from_app by done. rewrite (proj2 (N.eqb_neq _ _) E). simpl.
    by rewrite <- app_assoc.
Qed.

Lemma replaceTargetBlock_idem B C k :
  B <> C -> replaceTargetBlock B C (replaceTargetBlock B C k) = replaceTargetBlock B C k.
Proof.
  intros N. destruct k; simpl; rewrite ?subst_ref_idem by done; try done.
  f_equal. rewrite map_map. apply map_ext. intros [v b]. by rewrite subst_ref_idem.
Qed.

Lemma replaceTargetBlock_targets B C k :
  targets (replaceTargetBlock B C k) = map (subst_ref B C) (targets k).
Proof.
  destruct k; simpl; try done. f_equal. rewrite !map_map. apply map_ext. by intros [v b].
Qed.

Lemma replaceTargetBlock_phi B C k inc :
  replaceTargetBlock B C k = PhiInst inc <-> k = PhiInst inc.
Proof. by destruct k. Qed.

Lemma kind_of_upd_phis b f F i :
  NoDup (getInstructions b F) ->
  kind_of i (upd_phis b f F) =
    match kind_of i F with
    | Some (PhiInst inc) =>
        if decide (i ∈ leading_phis (getInstructions b F) F)
        then Some (PhiInst (f inc)) else Some (PhiInst inc)
    | k => k
    end.
Proof.
  intros N. unfold upd_phis.
  assert (NL : NoDup (leading_phis (getInstructions b F) F)).
  { clear -N. induction (getInstructions b F) as [| j l IH]; [constructor |].
    apply NoDup_cons in N as [N1 N2]. simpl. repeat case_match; try constructor; [| by apply IH].
    intros E. apply N1. clear -E. induction l as [| a l IH]; simpl in E; [done |].
    repeat case_match; try (by apply not_elem_of_nil in E).
    apply elem_of_cons in E as [-> | E]; [left | right; by apply IH]. }
  revert NL. generalize (leading_phis (getInstructions b F) F) as l. clear N. intros l.
  revert F. induction l as [| j l IH]; intros F NL.
  - simpl. repeat case_match; try done.
  - apply NoDup_cons in NL as [N1 N2]. cbn [fold_left]. rewrite IH by done.
    rewrite kind_of_upd_inst. destruct (decide (i = j)) as [-> | Nij].
    + unfold kind_of. destruct (insts F !! j) as [J |] eqn:E; [| done]. simpl.
      destruct (i_kind J) eqn:K; rewrite ?K; try done. simpl.
      by rewrite decide_False, decide_True by (try left; done).
    + destruct (kind_of i F) as [k |]; [| done]. destruct k; try done.
      destruct (decide (i ∈ l)) as [H | H].
      * by rewrite decide_True by (by right).
      * rewrite decide_False; [done |]. rewrite elem_of_cons. tauto.
Qed.

Lemma leading_phis_ext l F G :
  (forall i, is_phi G i = is_phi F i) -> leading_phis l G = leading_phis l F.
Proof.
  intros H. induction l as [| i l IH]; simpl; [done |]. specialize (H i). unfold is_phi in H.
  rewrite IH. repeat case_match; try done; congruence.
Qed.

Lemma is_phi_redirected B C terms phis l i k :
  match redirected B C terms phis l i k with PhiInst _ => true | _ => false end
  = match k with PhiInst _ => true | _ => false end.
Proof. destruct k; simpl; try case_decide; done. Qed.

Lemma redirect_spec B C F A :
  NoDup (getInstructions C F) ->
  let G := redirect B C F A in
  (forall i, kind_of i G = redirected B C [terminator A F]
       (leading_phis (getInstructions C F) F) [A] i <$> kind_of i F)
  /\ (forall c, getInstructions c G = getInstructions c F).
Proof.
  intros N G. unfold G, redirect.
  set (F1 := upd_inst (terminator A F)
    (fun J => with_kind (replaceTargetBlock B C (i_kind J)) J) F).
  set (F2 := addPredecessor C A (addSuccessor A C (removeSuccessor A B F1))).
  assert (S : same_code F1 F2).
  { unfold F2. etransitivity; [apply same_code_removeSuccessor |].
    etransitivity; [apply same_code_addSuccessor | apply same_code_addPredecessor]. }
  assert (I2 : forall c, getInstructions c F2 = getInstructions c F)
    by apply (sc_instructions _ _ S).
  assert (K1 : forall i, kind_of i F2 =
    if decide (i = terminator A F) then replaceTargetBlock B C <$> kind_of i F else kind_of i F).
  { intros i. change (kind_of i F2) with (kind_of i F1). unfold F1. rewrite kind_of_upd_inst.
    case_decide; [| done]. unfold kind_of. by destruct (insts F !! i). }
  assert (P : leading_phis (getInstructions C F2) F2 = leading_phis (getInstructions C F) F).
  { rewrite I2. apply leading_phis_ext. intros i. unfold is_phi. rewrite K1. case_decide; [| done].
    destruct (kind_of i F) as [k |]; [by destruct k | done]. }
  split.
  - intros i. rewrite kind_of_upd_phis by (by rewrite I2). rewrite P, K1. fold (extend B [A]).
    destruct (kind_of i F) as [k |]; [| by case_decide]. simpl.
    destruct (decide (i = terminator A F)) as [E | E]; cbn [fmap option_fmap option_map].
    + subst i. unfold redirected.
      destruct k; try (by rewrite decide_True by apply list_elem_of_here).
      cbn [replaceTargetBlock]. by case_decide.
    + unfold redirected.
      destruct k; try (by rewrite decide_False by (rewrite list_elem_of_singleton; done)).
      by case_decide.
  - intros c. rewrite (sc_instructions _ _ (same_code_upd_phis C _ F2)). apply I2.
Qed.

Lemma redirected_nonphi B C terms phis l i k :
  (forall inc, k <> PhiInst inc) ->
  redirected B C terms phis l i k = if decide (i ∈ terms) then replaceTargetBlock B C k else k.
Proof. intros N. destruct k; try done. by destruct (N incoming). Qed.

Lemma phi_or_not k : (exists inc, k = PhiInst inc) \/ forall inc, k <> PhiInst inc.
Proof. destruct k; try (by right); left; by eexists. Qed.

Lemma redirected_compose B C t1 t2 phis A l i k :
  B <> C ->
  redirected B C t2 phis l i (redirected B C t1 phis [A] i k)
  = redirected B C (t1 ++ t2) phis (A :: l) i k.
Proof.
  intros N. destruct (phi_or_not k) as [[inc ->] | K].
  - cbn [redirected]. repeat (case_decide; cbn [redirected]); try done. by rewrite extend_cons.
  - rewrite !(redirected_nonphi _ _ _ _ _ _ k) by done.
    destruct (decide (i ∈ t1)) as [D | D].
    + rewrite redirected_nonphi by (intros inc Q; by apply replaceTargetBlock_phi, K in Q).
      rewrite replaceTargetBlock_idem by done.
      rewrite (decide_True (P := i ∈ t1 ++ t2)) by (apply elem_of_app; by left). by case_decide.
    + rewrite redirected_nonphi by done. destruct (decide (i ∈ t2)) as [E | E].
      * by rewrite decide_True by (apply elem_of_app; by right).
      * rewrite decide_False; [done |]. rewrite elem_of_app. tauto.
Qed.

Lemma redirect_fold B C l : B <> C -> forall F,
  NoDup (getInstructions C F) ->
  let G := fold_left (redirect B C) l F in
  (forall i, kind_of i G = redirected B C (map (fun A => terminator A F) l)
       (leading_phis (getInstructions C F) F) l i <$> kind_of i F)
  /\ (forall c, getInstructions c G = getInstructions c F).
Proof.
  intros N. induction l as [| A l IH]; intros F ND G.
  - split; [| done]. intros i. unfold G. simpl. destruct (kind_of i F) as [k |]; [| done].
    simpl. f_equal. destruct k; unfold redirected;
      try (rewrite decide_False by (apply not_elem_of_nil); done).
    by case_decide; [rewrite extend_nil |].
  - destruct (redirect_spec B C F A ND) as [K1 I1].
    destruct (IH (redirect B C F A)) as [K2 I2]; [by rewrite I1 |].
    unfold G. cbn [fold_left]. split; [| intros c; by rewrite I2].
    intros i. rewrite K2, K1.
    assert (P : leading_phis (getInstructions C (redirect B C F A)) (redirect B C F A)
                = leading_phis (getInstructions C F) F).
    { rewrite I1. apply leading_phis_ext. intros j. unfold is_phi. rewrite K1.
      destruct (kind_of j F) as [k |]; [| done]. simpl.
      pose proof (is_phi_redirected B C [terminator A F]
        (leading_phis (getInstructions C F) F) [A] j k) as Q.
      destruct (redirected _ _ _ _ _ _ _), k; done. }
    assert (T : map (fun A0 => terminator A0 (redirect B C F A)) l
                = map (fun A0 => terminator A0 F) l).
    { apply map_ext. intros a. unfold terminator. by rewrite I1. }
    rewrite P, T. destruct (kind_of i F) as [k |]; [| done]. simpl. f_equal.
    apply (redirected_compose B C [terminator A F]). done.
Qed.

(** ** Edges after a redirection *)

Lemma redirect_edges B C F A c x :
  has_block A F -> has_block C F ->
  (x ∈ getSuccessors c (redirect B C F A) <->
     if decide (c = A) then (x <> B /\ x ∈ getSuccessors c F) \/ x = C
     else x ∈ getSuccessors c F)
  /\ (x ∈ getPredecessors c (redirect B C F A) <->
     x ∈ getPredecessors c F \/ (c = C /\ x = A)).
Proof.
  intros HA HC. unfold redirect. set (F1 := upd_inst _ _ F).
  match goal with |- context [upd_phis C ?f ?G] =>
    destruct (same_edges_upd_phis C f G c) as [-> ->] end.
  assert (HA1 : has_block A (removeSuccessor A B F1)) by (by apply has_block_upd).
  assert (HC1 : has_block C (addSuccessor A C (removeSuccessor A B F1)))
    by (unfold addSuccessor, removeSuccessor; by rewrite !has_block_upd).
  split.
  - rewrite getSuccessors_addPredecessor, elem_of_addSuccessor, getSuccessors_removeSuccessor.
    change (getSuccessors c F1) with (getSuccessors c F).
    case_decide; rewrite ?elem_of_erase_all; tauto.
  - rewrite elem_of_addPredecessor, getPredecessors_addSuccessor, getPredecessors_removeSuccessor.
    change (getPredecessors c F1) with (getPredecessors c F). tauto.
Qed.

Lemma has_block_redirect B C F A b : has_block b (redirect B C F A) <-> has_block b F.
Proof.
  unfold redirect.
  match goal with |- context [upd_phis C ?f ?G] =>
    rewrite (sc_has _ _ (same_code_upd_phis C f G)) end.
  unfold addPredecessor, addSuccessor, removeSuccessor. by rewrite !has_block_upd.
Qed.

Lemma redirect_fold_edges B C l : B <> C -> forall F c x,
  has_block C F -> (forall A, A ∈ l -> has_block A F) ->
  (x ∈ getSuccessors c (fold_left (redirect B C) l F) <->
     if decide (c ∈ l) then (x <> B /\ x ∈ getSuccessors c F) \/ x = C
     else x ∈ getSuccessors c F)
  /\ (x ∈ getPredecessors c (fold_left (redirect B C) l F) <->
     x ∈ getPredecessors c F \/ (c = C /\ x ∈ l)).
Proof.
  intros N. induction l as [| A l IH]; intros F c x HC HA.
  - cbn [fold_left]. rewrite decide_False by apply not_elem_of_nil. rewrite elem_of_nil. tauto.
  - cbn [fold_left]. destruct (IH (redirect B C F A) c x) as [-> ->].
    + by apply has_block_redirect.
    + intros D HD. apply has_block_redirect, HA. by right.
    + destruct (redirect_edges B C F A c x) as [E1 E2]; [apply HA; left | done |].
      split; [| rewrite E2, elem_of_cons; tauto].
      destruct (decide (c = A)) as [-> | Nc].
      * destruct (decide (A ∈ A :: l)) as [_ | Q]; [| destruct Q; left].
        case_decide; rewrite E1; [| tauto]. split; [| tauto].
        intros [[? [? | ?]] | ?]; [tauto | right; congruence | tauto].
      * destruct (decide (c ∈ l)) as [E | E].
        { rewrite (decide_True (P := c ∈ A :: l)) by (by right). by rewrite E1. }
        rewrite decide_False; [done |]. rewrite elem_of_cons. tauto.
Qed.

(** ** Bypassing preserves control flow *)

Lemma map_subst_other B C l : B ∉ l -> map (subst_ref B C) l = l.
Proof.
  induction l as [| t l IH]; intros H; simpl; [done |]. rewrite elem_of_cons in H.
  rewrite IH by tauto. unfold subst_ref. by rewrite (proj2 (N.eqb_neq t B)) by (intros ->; tauto).
Qed.

Lemma filter_null_subst B C (l : list ref) :
  B <> nullptr -> C <> nullptr ->
  filter (fun t => t <> nullptr) (map (subst_ref B C) l)
  = map (subst_ref B C) (filter (fun t => t <> nullptr) l).
Proof.
  intros NB NC. induction l as [| t l IH]; [done |]. cbn [map]. unfold subst_ref at 1.
  destruct (N.eqb_spec t B) as [-> | D].
  - rewrite !filter_cons_True by done. cbn [map]. rewrite IH. unfold subst_ref at 2.
    by rewrite N.eqb_refl.
  - destruct (decide (t = nullptr)) as [-> | Nt].
    + by rewrite !filter_cons_False by (intros Q; by apply Q).
    + rewrite !filter_cons_True by done. cbn [map]. rewrite IH. unfold subst_ref at 2.
      by rewrite (proj2 (N.eqb_neq t B)).
Qed.

(** The test of [bypassEmptyBlocks], read off. *)
Lemma bypass_target_inv F B C :
  bypass_target F B = Some C ->
  B <> C /\ (exists i, getInstructions B F = [i] /\ kind_of i F = Some (BranchInst C))
  /\ forall i A, i ∈ getInstructions C F -> is_phi F i = true ->
       A ∈ getPredecessors B F -> A ∉ getPredecessors C F.
Proof.
  unfold bypass_target. intros H. destruct (N.eqb B (getEntryBlock F)); [done |].
  case_bool_decide; [done |]. destruct (getInstructions B F) as [| i [| j l]] eqn:E; try done.
  destruct (kind_of i F) as [[] |] eqn:K; try done.
  destruct (N.eqb_spec B target) as [-> | N]; [done |].
  destruct (existsb _ _ || _) eqn:X; [done |]. injection H as ->.
  split_and!; [done | by exists i |].
  intros k A Hk Pk HA HC. apply orb_false_iff in X as [_ X].
  assert (P : existsb (is_phi F) (getInstructions C F) = true).
  { apply existsb_exists. exists k. split; [by apply list_elem_of_In | done]. }
  assert (Q : existsb (fun A => bool_decide (A ∈ getPredecessors C F)) (getPredecessors B F) = true).
  { apply existsb_exists. exists A. split; [by apply list_elem_of_In | by apply bool_decide_eq_true]. }
  by rewrite P, Q in X.
Qed.

Lemma incoming_from_extend B inc l p :
  p <> B -> (p ∈ l -> forall v, (v, p) ∉ inc) ->
  incoming_from p (removeIncoming B (extend B l inc)) =
    if decide (p ∈ l) then incoming_from B inc else incoming_from p inc.
Proof.
  intros N H. rewrite incoming_from_removeIncoming, decide_False by done. unfold extend.
  destruct (N.eqb_spec (incoming_from B inc) nullptr) as [E | E].
  - case_decide as D; [| done]. rewrite E. by apply incoming_from_none, H.
  - destruct (decide (p ∈ l)) as [D | D].
    + rewrite incoming_from_app_none by (by apply H). by rewrite incoming_from_map, decide_True.
    + apply incoming_from_app_other. intros v Hv. apply D.
      apply list_elem_of_In, in_map_iff in Hv as (q & Q1 & Q2). injection Q1 as _ ->.
      by apply list_elem_of_In.
Qed.

(** The block [B] has left the graph: the recorded edges of every other block are those
    of its terminator, [B] takes part in none of them, and the terminators transfer
    control only to the blocks of the function other than [B]. *)
Record consistent_without B F : Prop := {
  cw_succ : forall b c, b ∈ blocks F -> b <> B ->
    (c ∈ getSuccessors b F <-> c ∈ term_targets b F);
  cw_pred : forall c p, c ∈ blocks F -> c <> B ->
    (p ∈ getPredecessors c F <-> p ∈ blocks F /\ p <> B /\ c ∈ getSuccessors p F);
  cw_gone : getSuccessors B F = [] /\ getPredecessors B F = [];
  cw_closed : forall b c, b ∈ blocks F -> b <> B -> c ∈ term_targets b F ->
    c ∈ blocks F /\ c <> B;
}.

Lemma elem_of_subst_ref B C c l :
  B <> C -> (c ∈ map (subst_ref B C) l <-> (c = C /\ B ∈ l) \/ (c <> B /\ c ∈ l)).
Proof.
  intros N. induction l as [| t l IH]; cbn [map]; [rewrite !elem_of_nil; tauto |].
  rewrite !elem_of_cons, IH. unfold subst_ref.
  destruct (N.eqb_spec t B) as [-> | D]; clear IH; intuition congruence.
Qed.

Section bypass.
Context (F : MIRFunction) (B C : ref).
Hypothesis wf : well_formed F.
Hypothesis edges : consistent F.
Hypothesis blocks_null : nullptr ∉ blocks F.
Hypothesis HB : B ∈ blocks F.
Hypothesis HC : C ∈ blocks F.
Hypothesis owned : NoDup (getInstructions C F).
Hypothesis test : bypass_target F B = Some C.

Let preds := getPredecessors B F.
Let phis := leading_phis (getInstructions C F) F.
Let G := bypass B C F.

Lemma bypass_neq : B <> C.
Proof. exact (proj1 (bypass_target_inv _ _ _ test)). Qed.

(** The states between the steps of [bypass]. *)
Lemma bypass_steps : exists G1 G2,
  G1 = fold_left (redirect B C) preds F
  /\ G2 = upd_phis C (removeIncoming B) (removePredecessor C B G1)
  /\ G = upd_block B (fun D => with_predecessors [] (with_successors [] D)) G2
  /\ same_code (removePredecessor C B G1) G2 /\ same_code G2 G.
Proof.
  eexists _, _. split_and!; [reflexivity.. | apply same_code_upd_phis | by apply same_code_upd_block].
Qed.

Lemma bypass_code i :
  kind_of i G = match redirected B C (map (fun A => terminator A F) preds) phis preds i
                        <$> kind_of i F with
                | Some (PhiInst inc) =>
                    if decide (i ∈ phis) then Some (PhiInst (removeIncoming B inc))
                    else Some (PhiInst inc)
                | k => k
                end.
Proof.
  destruct bypass_steps as (G1 & G2 & E1 & E2 & E & _).
  destruct (redirect_fold B C preds bypass_neq F owned) as [K I]. rewrite <- E1 in K, I.
  rewrite E. change (kind_of i (upd_block _ _ G2)) with (kind_of i G2). rewrite E2.
  assert (I' : getInstructions C (removePredecessor C B G1) = getInstructions C F).
  { rewrite (sc_instructions _ _ (same_code_removePredecessor C B G1)). apply I. }
  rewrite kind_of_upd_phis, I' by (by rewrite I').
  change (kind_of i (removePredecessor C B G1)) with (kind_of i G1). rewrite K.
  replace (leading_phis (getInstructions C F) (removePredecessor C B G1)) with phis; [done |].
  symmetry. apply leading_phis_ext. intros j. unfold is_phi.
  change (kind_of j (removePredecessor C B G1)) with (kind_of j G1). rewrite K.
  destruct (kind_of j F) as [k |]; [| done]. apply is_phi_redirected.
Qed.

Lemma bypass_instructions c : getInstructions c G = getInstructions c F.
Proof.
  destruct bypass_steps as (G1 & G2 & E1 & E2 & E & S1 & S2).
  destruct (redirect_fold B C preds bypass_neq F owned) as [_ I]. rewrite <- E1 in I.
  rewrite (sc_instructions _ _ S2), (sc_instructions _ _ S1),
    (sc_instructions _ _ (same_code_removePredecessor C B G1)). apply I.
Qed.

Lemma pred_iff A : A ∈ preds <-> A ∈ blocks F /\ B ∈ term_targets A F.
Proof.
  unfold preds. rewrite (co_pred _ edges B A HB). split; intros [H1 H2]; (split; [done |]);
    by apply (co_succ _ edges A B H1).
Qed.

Lemma block_non_null b : b ∈ blocks F -> b <> nullptr.
Proof. intros H ->. by apply blocks_null. Qed.

Lemma targets_of_B : term_targets B F = [C].
Proof.
  destruct (bypass_target_inv _ _ _ test) as (_ & (i & Ei & Ki) & _).
  unfold term_targets, terminator. rewrite Ei. cbn [last default]. unfold inst_targets. simpl.
  rewrite Ki. simpl. by rewrite filter_cons_True, filter_nil by (by apply block_non_null).
Qed.

Lemma B_not_pred : B ∉ preds.
Proof.
  intros H. apply pred_iff in H as [_ H]. rewrite targets_of_B in H.
  apply list_elem_of_singleton in H. by apply bypass_neq.
Qed.

Lemma bypass_targets A :
  A ∈ blocks F -> term_targets A G = map (subst_ref B C) (term_targets A F).
Proof.
  intros HA. unfold term_targets, terminator. rewrite bypass_instructions.
  fold (terminator A F). unfold inst_targets. rewrite bypass_code.
  destruct (kind_of (terminator A F) F) as [k |] eqn:K; [| done]. simpl.
  destruct (phi_or_not k) as [[inc ->] | P].
  { simpl. repeat case_decide; done. }
  rewrite redirected_nonphi by done.
  transitivity (filter (fun t => t <> nullptr) (map (subst_ref B C) (targets k)));
    [| by apply filter_null_subst; apply block_non_null].
  case_decide as D.
  - rewrite <- replaceTargetBlock_targets. by destruct k; try (by destruct (P incoming)).
  - rewrite filter_null_subst by (by apply block_non_null).
    rewrite map_subst_other; [by destruct k; try (by destruct (P incoming)) |].
    intros Q. apply D. apply list_elem_of_In, (in_map (fun A => terminator A F)).
    apply list_elem_of_In, pred_iff.
    split; [done |]. unfold term_targets, inst_targets. by rewrite K.
Qed.

Lemma bypass_phi i inc :
  i ∈ phis -> kind_of i F = Some (PhiInst inc) ->
  kind_of i G = Some (PhiInst (removeIncoming B (extend B preds inc))).
Proof.
  intros Hi K. rewrite bypass_code, K. simpl. by rewrite !decide_True by done.
Qed.

Lemma bypass_edges c x :
  c <> B ->
  (x ∈ getSuccessors c G <->
     if decide (c ∈ preds) then (x <> B /\ x ∈ getSuccessors c F) \/ x = C
     else x ∈ getSuccessors c F)
  /\ (x ∈ getPredecessors c G <->
     (c = C -> x <> B) /\ (x ∈ getPredecessors c F \/ (c = C /\ x ∈ preds))).
Proof.
  intros N. destruct bypass_steps as (G1 & G2 & E1 & E2 & E & _).
  destruct (redirect_fold_edges B C preds bypass_neq F c x) as [R1 R2].
  { by apply (wf_heap _ wf). }
  { intros A HA. apply (wf_heap _ wf). by apply pred_iff in HA as [? _]. }
  rewrite <- E1 in R1, R2.
  assert (D : getSuccessors c G = getSuccessors c G2 /\ getPredecessors c G = getPredecessors c G2).
  { rewrite E. unfold getSuccessors, getPredecessors. by rewrite bbs_upd_block, decide_False. }
  destruct (same_edges_upd_phis C (removeIncoming B) (removePredecessor C B G1) c) as [P1 P2].
  rewrite <- E2 in P1, P2. destruct D as [-> ->]. rewrite P1, P2.
  rewrite getSuccessors_removePredecessor, getPredecessors_removePredecessor.
  split; [done |]. destruct (decide (c = C)); rewrite ?elem_of_erase_all; rewrite R2; tauto.
Qed.

Lemma bypass_blocks : blocks G = blocks F.
Proof.
  destruct bypass_steps as (G1 & G2 & E1 & E2 & E & S1 & S2).
  rewrite (sc_blocks _ _ S2), (sc_blocks _ _ S1),
    (sc_blocks _ _ (same_code_removePredecessor C B G1)), E1.
  generalize preds. clear. intros l. revert F. induction l as [| A l IH]; intros F; [done |].
  cbn [fold_left]. rewrite IH. unfold redirect.
  match goal with |- context [upd_phis C ?f ?G] =>
    rewrite (sc_blocks _ _ (same_code_upd_phis C f G)) end. done.
Qed.

Lemma bypass_consistent : consistent_without B G.
Proof.
  assert (SC : forall b c, b ∈ blocks F -> b <> B ->
    (c ∈ getSuccessors b G <-> c ∈ term_targets b G)).
  { intros b c Hb Nb. rewrite bypass_targets, elem_of_subst_ref by (done || apply bypass_neq).
    destruct (bypass_edges b c Nb) as [-> _]. pose proof (pred_iff b) as P.
    pose proof (co_succ _ edges b c Hb) as S. pose proof bypass_neq as N.
    case_decide; [clear -P S H Hb N | clear -P S H Hb N];
      destruct (decide (c = B)) as [-> | ?]; tauto. }
  split; rewrite ?bypass_blocks.
  - exact SC.
  - intros c p Hc Nc. destruct (bypass_edges c p Nc) as [_ ->].
    rewrite (co_pred _ edges c p Hc). destruct (decide (p = B)) as [-> | Np].
    { assert (Q : c ∈ getSuccessors B F -> c = C).
      { intros Q. apply (co_succ _ edges B c HB) in Q. rewrite targets_of_B in Q.
        by apply list_elem_of_singleton in Q. }
      pose proof B_not_pred. tauto. }
    pose proof (pred_iff p) as P. destruct (bypass_edges p c Np) as [S _].
    pose proof bypass_neq as N. case_decide as D; rewrite S; clear S; [| clear -D Np; tauto].
    destruct (proj1 P D) as [Hp _]. clear -D Np Nc Hp. tauto.
  - destruct bypass_steps as (G1 & G2 & E1 & E2 & E & _). rewrite E.
    unfold getSuccessors, getPredecessors. rewrite bbs_upd_block, decide_True by done.
    by destruct (bbs G2 !! B).
  - intros b c Hb Nb. rewrite bypass_targets, elem_of_subst_ref by (done || apply bypass_neq).
    intros [[-> _] | [? H]]; [split; [done |]; intros Q; symmetry in Q; by apply bypass_neq |].
    split; [by apply (wf_closed _ wf b) | done].
Qed.

(** A phi of [C] gets from a redirected predecessor the value it got from [B]. *)
Lemma bypass_phi_value i inc p :
  i ∈ phis -> kind_of i F = Some (PhiInst inc) ->
  (forall v q, (v, q) ∈ inc -> q ∈ getPredecessors C F) -> p <> B ->
  exists inc', kind_of i G = Some (PhiInst inc')
    /\ incoming_from p inc' = incoming_from (if decide (p ∈ preds) then B else p) inc.
Proof.
  intros Hi K H N. eexists. split; [by apply bypass_phi |].
  rewrite incoming_from_extend; [by case_decide | done |].
  intros Hp v Hv. destruct (bypass_target_inv _ _ _ test) as (_ & _ & Q).
  apply (Q i p); [| | done | by apply (H v)].
  - clear -Hi. unfold phis in Hi. induction (getInstructions C F) as [| j l IH]; simpl in Hi; [done |].
    destruct (kind_of j F) as [[] |]; try (by apply not_elem_of_nil in Hi).
    apply elem_of_cons in Hi as [-> | Hi]; [left | right; by apply IH].
  - unfold is_phi. by rewrite K.
Qed.

End bypass.

(** C11: [bypassEmptyBlocks] preserves what the program does.  When a block [B] that
    only jumps to [C] is bypassed, every terminator transfers control where it did,
    with [C] in place of [B], and the instructions of every block stay; a phi of [C]
    receives from a redirected predecessor the value it received from [B], and from
    any other the value it did; and the recorded edges of the blocks other than [B]
    are again those of the terminators. *)
Theorem bypass_preserves_control F B C :
  well_formed F -> consistent F -> nullptr ∉ blocks F -> B ∈ blocks F -> C ∈ blocks F ->
  NoDup (getInstructions C F) -> bypass_target F B = Some C ->
  let G := bypass B C F in
  consistent_without B G
  /\ (forall A, A ∈ blocks F -> getInstructions A G = getInstructions A F
        /\ term_targets A G = map (subst_ref B C) (term_targets A F))
  /\ (forall i inc p, i ∈ leading_phis (getInstructions C F) F ->
        kind_of i F = Some (PhiInst inc) ->
        (forall v q, (v, q) ∈ inc -> q ∈ getPredecessors C F) -> p <> B ->
        exists inc', kind_of i G = Some (PhiInst inc')
          /\ incoming_from p inc' =
               incoming_from (if decide (p ∈ getPredecessors B F) then B else p) inc).
Proof.
  intros W E Z HB HC ND T. split_and!; [by apply bypass_consistent | |].
  - intros A HA. split; [by apply bypass_instructions | by apply bypass_targets].
  - intros i inc p. by apply bypass_phi_value.
Qed.

(** [x = c ? a : b]: the first arm is empty, and the join has a phi. *)
Definition choice : MIRFunction :=
  {| insts := list_to_map [(11%N, inst_of (CondBranchInst 90 2 3));
                           (12%N, inst_of (BranchInst 4));
                           (13%N, inst_of (StoreInst 90 91 0 false));
                           (23%N, inst_of (BranchInst 4));
                           (14%N, inst_of (PhiInst [(70%N, 2%N); (71%N, 3%N)]));
                           (24%N, inst_of (ReturnInst 14))];
     bbs := list_to_map [(1%N, block_of [11%N]); (2%N, block_of [12%N]);
                         (3%N, block_of [13%N; 23%N]); (4%N, block_of [14%N; 24%N])];
     blocks := [1%N; 2%N; 3%N; 4%N]; next_ref := 100%N |}.

Lemma bypass_preserves_control_witness :
  bypass_target (heal choice) 2 = Some 4%N
  /\ consistent_without 2 (bypass 2 4 (heal choice))
  /\ exists inc', kind_of 14 (bypass 2 4 (heal choice)) = Some (PhiInst inc')
       /\ incoming_from 1 inc' = 70%N.
Proof.
  destruct (bypass_preserves_control (heal choice) 2 4) as (H1 & _ & H3).
  - apply well_formed_b_spec. by vm_compute.
  - apply consistent_b_spec. by vm_compute.
  - by apply (bool_decide_eq_true (nullptr ∉ blocks (heal choice))).
  - by apply (bool_decide_eq_true (2%N ∈ blocks (heal choice))).
  - by apply (bool_decide_eq_true (4%N ∈ blocks (heal choice))).
  - by apply (bool_decide_eq_true (NoDup (getInstructions 4 (heal choice)))).
  - by vm_compute.
  - split; [by vm_compute |]. split; [exact H1 |].
    destruct (H3 14%N [(70%N, 2%N); (71%N, 3%N)] 1%N) as (inc' & K & V).
    + by apply (bool_decide_eq_true (14%N ∈ leading_phis (getInstructions 4 (heal choice)) (heal choice))).
    + by vm_compute.
    + intros v q Hq. change (getPredecessors 4 (heal choice)) with [2%N; 3%N].
      apply elem_of_cons in Hq as [Hq | Hq]; [injection Hq as _ ->; left |].
      apply list_elem_of_singleton in Hq. injection Hq as _ ->. right. left.
    + done.
    + exists inc'. split; [exact K |]. rewrite V. by vm_compute.
Defined.
