(* ===== verification/Dominance.v ===== *)
(** * The dominator tree

    [MIRDominance] of [lib/middle/analysis/MIRDominance.cpp]: a reverse post-order of the
    blocks, the iteration that computes immediate dominators, the dominator tree with its
    depth-first numbers, and the check of SSA form that uses it.  Recursive functions and
    loops take a fuel; [None] is a loop that ran out of it or an [at] that threw. *)

From S2P Require Import Prelude Diag HIRType MIR.

(** Operands, for the classes of instructions that [getOperands] knows. *)
Definition getOperands (k : InstKind) : list ref :=
  match k with
  | BinaryInst _ l r => [l; r]
  | StoreInst v p _ _ => [v; p]
  | LoadInst p _ _ => [p]
  | StoreWeakInst v p => [v; p]
  | LoadWeakInst p => [p]
  | ARCInst _ o _ => [o]
  | CondBranchInst c _ _ => [c]
  | ReturnInst v => if N.eqb v nullptr then [] else [v]
  | CallInst c args _ => c :: args
  | InvokeInst c args _ _ => c :: args
  | ResumeInst e => [e]
  | ThrowInst e _ => [e]
  | InlineAsmInst _ _ args _ => args
  | MakeClosureInst f cs => f :: cs
  | SpawnInst c _ => [c]
  | AwaitInst p => [p]
  | ExtractValueInst a _ => [a]
  | InsertValueInst a v _ => [a; v]
  | CastInst _ v _ => [v]
  | _ => []
  end.

(** [computeRPO]: the post-order [rpo] and the visited blocks. *)
Fixpoint computeRPO (F : MIRFunction) (fuel : nat) (st : list ref * list ref) (entry : ref) :
    option (list ref * list ref) :=
  match fuel with
  | 0 => None
  | S fuel =>
      if bool_decide (entry ∈ snd st) then Some st
      else
        '(rpo, visited) ← fold_some (computeRPO F fuel) (getSuccessors entry F)
                            (fst st, entry :: snd st);
        Some (rpo ++ [entry], visited)
  end.

(** The members of the analysis. *)
Record MIRDominance := {
  depths : gmap ref nat;
  idoms : gmap ref ref;
  domTree : gmap ref (list ref);
  dfsNumbers : gmap ref (nat * nat);
}.

Definition newDominance : MIRDominance :=
  {| depths := ∅; idoms := ∅; domTree := ∅; dfsNumbers := ∅ |}.

Section Intersect.
Context (rpoIndex : gmap ref nat) (idoms : gmap ref ref).

(** [while (rpoIndex.at(b) > rpoIndex.at(target)) b = idoms.at(b);] *)
Fixpoint climb (fuel : nat) (b target : ref) : option ref :=
  match fuel with
  | 0 => None
  | S fuel =>
      i ← rpoIndex !! b;
      j ← rpoIndex !! target;
      if j <? i then b' ← idoms !! b; climb fuel b' target else Some b
  end.

Fixpoint intersect_loop (fuel : nat) (b1 b2 : ref) : option ref :=
  match fuel with
  | 0 => None
  | S fuel' =>
      if N.eqb b1 b2 then Some b1
      else
        b1 ← climb (S fuel) b1 b2;
        b2 ← climb (S fuel) b2 b1;
        intersect_loop fuel' b1 b2
  end.

End Intersect.

(** The indices are below the number of blocks of the order, and each iteration of a loop
    of [intersect] lowers one of the two. *)
Definition intersect (rpoIndex : gmap ref nat) (idoms : gmap ref ref) (b1 b2 : ref) : option ref :=
  intersect_loop rpoIndex idoms (S (2 * size rpoIndex)) b1 b2.

Section Analyze.
Context (F : MIRFunction).
(** The order in which the hash table of immediate dominators is iterated. *)
Context (iteration : gmap ref ref -> list (ref * ref)).

(** [idoms.count(pred)]. *)
Definition count (m : gmap ref ref) (b : ref) : bool := bool_decide (is_Some (m !! b)).

(** One predecessor of the second loop over them. *)
Definition meet_pred (rpoIndex : gmap ref nat) (m : gmap ref ref) (newIDom pred : ref) : option ref :=
  if negb (N.eqb pred newIDom) && count m pred then intersect rpoIndex m pred newIDom
  else Some newIDom.

(** One block of a pass. *)
Definition update_block (entry : ref) (rpoIndex : gmap ref nat) (st : bool * gmap ref ref)
    (block : ref) : option (bool * gmap ref ref) :=
  let '(changed, m) := st in
  if N.eqb block entry then Some st
  else
    match find (count m) (getPredecessors block F) with
    | None => Some st
    | Some first =>
        newIDom ← fold_some (meet_pred rpoIndex m) (getPredecessors block F) first;
        if bool_decide (m !! block = Some newIDom) then Some st
        else Some (true, <[block := newIDom]> m)
    end.

(** One pass over the blocks in reverse post-order. *)
Definition idom_pass (entry : ref) (rpoIndex : gmap ref nat) (order : list ref)
    (m : gmap ref ref) : option (bool * gmap ref ref) :=
  fold_some (update_block entry rpoIndex) order (false, m).

Fixpoint idom_loop (fuel : nat) (entry : ref) (rpoIndex : gmap ref nat) (order : list ref)
    (m : gmap ref ref) : option (gmap ref ref) :=
  match fuel with
  | 0 => None
  | S fuel =>
      '(changed, m) ← idom_pass entry rpoIndex order m;
      if changed : bool then idom_loop fuel entry rpoIndex order m else Some m
  end.

(** The depth of a block: the links to follow up to the entry. *)
Fixpoint depth_loop (fuel : nat) (entry : ref) (m : gmap ref ref) (curr : ref) (d : nat) : option nat :=
  match fuel with
  | 0 => None
  | S fuel =>
      if N.eqb curr entry then Some d
      else
        match m !! curr with
        | None => Some d
        | Some next => if N.eqb next curr then Some d else depth_loop fuel entry m next (S d)
        end
  end.

(** [domTree[idom].push_back(block)] for every block but the entry. *)
Definition build_tree (m : gmap ref ref) : gmap ref (list ref) :=
  fold_left (fun T '(block, idom) =>
    if N.eqb block idom then T else <[idom := default [] (T !! idom) ++ [block]]> T)
    (iteration m) ∅.

(** [computeDFS], with the numbers, the counter and the visited blocks as its state. *)
Record DFSState := {
  numbers : gmap ref (nat * nat);
  counter : nat;
  visited : list ref;
}.

Fixpoint computeDFS (fuel : nat) (T : gmap ref (list ref)) (st : DFSState) (root : ref) :
    option DFSState :=
  match fuel with
  | 0 => None
  | S fuel =>
      if bool_decide (root ∈ visited st) then Some st
      else
        let start := S (counter st) in
        st ← fold_some (computeDFS fuel T) (default [] (T !! root))
               {| numbers := numbers st; counter := start; visited := root :: visited st |};
        Some {| numbers := <[root := (start, counter st)]> (numbers st);
                counter := counter st; visited := visited st |}
  end.

(** [rpoIndex[*it] = idx++] along the order. *)
Definition index_of_order (order : list ref) : gmap ref nat :=
  list_to_map (zip order (seq 0 (length order))).

(** [analyze]; with no block, nothing is computed. *)
Definition analyze (D : MIRDominance) : option MIRDominance :=
  match blocks F with
  | [] => Some D
  | entry :: _ =>
      '(rpoStack, _) ← computeRPO F (S (length (blocks F))) ([], []) entry;
      let order := reverse rpoStack in
      let rpoIndex := index_of_order order in
      let n := length order in
      m ← idom_loop (2 + n * n) entry rpoIndex order {[ entry := entry ]};
      ds ← fold_some (fun ds b => d ← depth_loop (S n) entry m b 0; Some (<[b := d]> ds))
             (blocks F) ∅;
      let T := build_tree m in
      st ← computeDFS (S n) T {| numbers := ∅; counter := 0; visited := [] |} entry;
      Some {| depths := ds; idoms := m; domTree := T; dfsNumbers := numbers st |}
  end.

End Analyze.

Definition dominates (D : MIRDominance) (a b : ref) : bool :=
  if N.eqb a b then true
  else
    match dfsNumbers D !! a, dfsNumbers D !! b with
    | Some (sa, ea), Some (sb, eb) => (sa <=? sb) && (eb <=? ea)
    | _, _ => false
    end.

Definition getIDom (D : MIRDominance) (b : ref) : ref := default nullptr (idoms D !! b).
Definition getChildren (D : MIRDominance) (b : ref) : list ref := default [] (domTree D !! b).

(** The use of [op] in a block is dominated by the block of its definition; what is not an
    instruction is available everywhere. *)
Definition use_ok (F : MIRFunction) (D : MIRDominance) (op useBlock : ref) : bool :=
  match insts F !! op with Some J => dominates D (i_parent J) useBlock | None => true end.

Definition verifySSA (F : MIRFunction) (D : MIRDominance) : bool :=
  forallb (fun useBlock =>
    forallb (fun i =>
      match kind_of i F with
      | Some (PhiInst inc) => forallb (fun '(val, pred) => use_ok F D val pred) inc
      | Some k => forallb (fun op => use_ok F D op useBlock) (getOperands k)
      | None => true
      end) (getInstructions useBlock F)) (blocks F).
