(* ===== verification/DominanceTree.v ===== *)
(** * The reverse post-order and the tree of immediate dominators

    What [computeRPO] returns: every block reached from the start, once, and each of them
    but the start after one of its predecessors in the reverse order.  The table [idoms] is a
    tree over that order: the ancestors of a block, how they change when one link is
    replaced, and what [intersect], the meet over the predecessors and the update of a block
    compute in terms of them. *)

From S2P Require Import Prelude Diag HIRType MIR Dominance.

Implicit Types (F : MIRFunction) (a b c d e p r v x y z : ref) (l new vis : list ref) (m : gmap ref ref).

(** The recorded edges of a function with a body: inside it, and known at both ends. *)
Record graph_ok F : Prop := {
  go_body : blocks F <> [];
  go_closed : forall b c, b ∈ blocks F -> c ∈ getSuccessors b F -> c ∈ blocks F;
  go_preds : forall c p, c ∈ blocks F ->
    (p ∈ getPredecessors c F <-> p ∈ blocks F /\ c ∈ getSuccessors p F);
}.

(** [p] comes after [x]. *)
Definition later l x p : Prop := exists l1 l2 l3, l = l1 ++ x :: l2 ++ p :: l3.

Lemma later_app_l l k x p : later l x p -> later (l ++ k) x p.
Proof.
  intros (l1 & l2 & l3 & ->). exists l1, l2, (l3 ++ k).
  by rewrite <- !app_assoc, <- !app_comm_cons, <- app_assoc.
Qed.

Lemma later_app_r l k x p : later k x p -> later (l ++ k) x p.
Proof. intros (l1 & l2 & l3 & ->). exists (l ++ l1), l2, l3. by rewrite app_assoc. Qed.

Lemma later_last l x p : x ∈ l -> later (l ++ [p]) x p.
Proof.
  intros H. apply list_elem_of_split in H as (l1 & l2 & ->). exists l1, l2, [].
  by rewrite <- app_assoc.
Qed.

(** Paths along the recorded successors. *)
Inductive walk F (P : ref -> Prop) a : ref -> Prop :=
  | walk_refl : walk F P a a
  | walk_step b c : walk F P a b -> c ∈ getSuccessors b F -> P c -> walk F P a c.

Lemma walk_trans F P a b c : walk F P a b -> walk F P b c -> walk F P a c.
Proof. intros H. induction 1 as [| b' c' _ IH E Pc]; [done | by apply walk_step with b']. Qed.

Lemma walk_weaken F (P Q : ref -> Prop) a b : (forall c, P c -> Q c) -> walk F P a b -> walk F Q a b.
Proof. intros H. induction 1; [apply walk_refl | eapply walk_step; eauto]. Qed.

Abbreviation walks F := (walk F (fun _ => True)).

(** The same with the blocks met, the last one first. *)
Inductive path F a : ref -> list ref -> Prop :=
  | path_refl : path F a a [a]
  | path_step b c l : path F a b l -> c ∈ getSuccessors b F -> path F a c (c :: l).

(** What a dominator tree is to answer: [a] is on every path from the entry to [b]. *)
Definition dominator F entry a b : Prop := forall l, path F entry b l -> a ∈ l.

Lemma walk_path F a b x :
  walk F (fun c => c <> x) a b -> a <> x -> exists l, path F a b l /\ x ∉ l.
Proof.
  intros W N. induction W as [| b c _ (l & P & H) E Nc].
  - exists [a]. split; [apply path_refl |]. rewrite list_elem_of_singleton. congruence.
  - exists (c :: l). split; [by apply path_step with b |]. rewrite elem_of_cons. intros [-> | Q]; done.
Qed.

Lemma path_walks F a b l : path F a b l -> walks F a b.
Proof. induction 1 as [| b c l _ IH E]; [apply walk_refl | by apply walk_step with b]. Qed.

(** Blocks not visited yet: they bound the depth of the recursion. *)
Definition unvisited F vis : nat := length (filter (fun b => b ∉ vis) (blocks F)).

Lemma unvisited_mono F vis vis' :
  (forall x, x ∈ vis -> x ∈ vis') -> unvisited F vis' <= unvisited F vis.
Proof.
  intros H. unfold unvisited. induction (blocks F) as [| b l IH]; [done |].
  rewrite !filter_cons. repeat case_decide; simpl; try lia. exfalso. naive_solver.
Qed.

Lemma unvisited_cons F vis v : v ∈ blocks F -> v ∉ vis -> unvisited F (v :: vis) < unvisited F vis.
Proof.
  intros Hv N. unfold unvisited.
  assert (M : forall l, length (filter (fun b => b ∉ v :: vis) l) <= length (filter (fun b => b ∉ vis) l)).
  { intros l. induction l as [| b l IH]; [done |].
    rewrite !filter_cons. repeat case_decide; simpl; try lia.
    exfalso. rewrite elem_of_cons in *. tauto. }
  induction (blocks F) as [| b l IH]; [by apply not_elem_of_nil in Hv |].
  specialize (M l). apply elem_of_cons in Hv as [<- | Hv].
  - rewrite !filter_cons, decide_False, decide_True; [simpl; lia | done |].
    intros Q. apply Q. left.
  - specialize (IH Hv). rewrite !filter_cons. repeat case_decide; simpl; try lia.
    exfalso. rewrite elem_of_cons in *. tauto.
Qed.

(** What a call, on the start [v], or the loop over a list of starts adds. *)
Record dfs_result F (start : ref -> Prop) vis new vis' : Prop := {
  dr_nodup : NoDup new;
  dr_vis : forall x, x ∈ vis' <-> x ∈ vis \/ x ∈ new;
  dr_fresh : forall x, x ∈ new -> x ∉ vis;
  dr_start : forall x, start x -> x ∈ vis';
  dr_blocks : forall x, x ∈ new -> x ∈ blocks F;
  dr_reach : forall x, x ∈ new -> exists s, start s /\ walks F s x;
  dr_pred : forall x, x ∈ new -> start x \/ exists p, x ∈ getSuccessors p F /\ later new x p;
  dr_closed : forall x c, x ∈ new -> c ∈ getSuccessors x F -> c ∈ vis' \/ start c;
}.

Lemma dfs_result_app F s1 s2 vis new1 vis1 new2 vis2 :
  dfs_result F s1 vis new1 vis1 -> dfs_result F s2 vis1 new2 vis2 ->
  dfs_result F (fun x => s1 x \/ s2 x) vis (new1 ++ new2) vis2.
Proof.
  intros [A1 A2 A3 A4 A5 A6 A7 A8] [B1 B2 B3 B4 B5 B6 B7 B8]. split.
  - apply NoDup_app. split_and!; [done | | done]. intros x H1 H2. apply (B3 x H2), A2. by right.
  - intros x. rewrite B2, A2, elem_of_app. tauto.
  - intros x Hx. apply elem_of_app in Hx as [Hx | Hx]; [by apply A3 |].
    intros Q. apply (B3 x Hx), A2. by left.
  - intros x [H | H]; [apply B2; left; by apply A4 | by apply B4].
  - intros x Hx. apply elem_of_app in Hx as [Hx | Hx]; auto.
  - intros x Hx. apply elem_of_app in Hx as [Hx | Hx].
    + destruct (A6 x Hx) as (s & ? & ?). exists s. auto.
    + destruct (B6 x Hx) as (s & ? & ?). exists s. auto.
  - intros x Hx. apply elem_of_app in Hx as [Hx | Hx].
    + destruct (A7 x Hx) as [? | (p & ? & ?)]; [by left; left |]. right. exists p.
      split; [done | by apply later_app_l].
    + destruct (B7 x Hx) as [? | (p & ? & ?)]; [by left; right |]. right. exists p.
      split; [done | by apply later_app_r].
  - intros x c Hx Hc. apply elem_of_app in Hx as [Hx | Hx].
    + destruct (A8 x c Hx Hc) as [? | ?]; [left; apply B2; by left | by right; left].
    + destruct (B8 x c Hx Hc) as [? | ?]; [by left | by right; right].
Qed.

(** The recursion on the successors of a block that the call has just marked. *)
Lemma dfs_result_root F v vis new vis' :
  v ∈ blocks F -> v ∉ vis ->
  dfs_result F (fun x => x ∈ getSuccessors v F) (v :: vis) new vis' ->
  dfs_result F (eq v) vis (new ++ [v]) vis'.
Proof.
  intros Hv N [A1 A2 A3 A4 A5 A6 A7 A8].
  assert (Nv : v ∉ new) by (intros Q; apply (A3 v Q); left). split.
  - apply NoDup_app. split_and!; [done | | apply NoDup_singleton].
    intros x Hx E. apply list_elem_of_singleton in E. by subst.
  - intros x. rewrite A2, elem_of_app, elem_of_cons, list_elem_of_singleton. tauto.
  - intros x Hx. apply elem_of_app in Hx as [Hx | Hx].
    + intros Q. apply (A3 x Hx). by right.
    + apply list_elem_of_singleton in Hx. by subst.
  - intros x <-. apply A2. left. left.
  - intros x Hx. apply elem_of_app in Hx as [Hx | Hx]; [by apply A5 |].
    apply list_elem_of_singleton in Hx. by subst.
  - intros x Hx. exists v. split; [done |]. apply elem_of_app in Hx as [Hx | Hx].
    + destruct (A6 x Hx) as (s & Hs & W). apply walk_trans with s; [| done].
      apply walk_step with v; [apply walk_refl | done | done].
    + apply list_elem_of_singleton in Hx as ->. apply walk_refl.
  - intros x Hx. apply elem_of_app in Hx as [Hx | Hx].
    + right. destruct (A7 x Hx) as [Hs | (p & Hp & L)].
      * exists v. split; [done | by apply later_last].
      * exists p. split; [done | by apply later_app_l].
    + left. by apply list_elem_of_singleton in Hx.
  - intros x c Hx Hc. left. apply elem_of_app in Hx as [Hx | Hx].
    + destruct (A8 x c Hx Hc) as [? | ?]; [done | by apply A4].
    + apply list_elem_of_singleton in Hx as ->. by apply A4.
Qed.

Lemma computeRPO_fold F fuel :
  (forall v rpo vis, v ∈ blocks F -> unvisited F vis < fuel ->
     exists new vis', computeRPO F fuel (rpo, vis) v = Some (rpo ++ new, vis')
       /\ dfs_result F (eq v) vis new vis') ->
  forall ss rpo vis, (forall s, s ∈ ss -> s ∈ blocks F) -> unvisited F vis < fuel ->
  exists new vis', fold_some (computeRPO F fuel) ss (rpo, vis) = Some (rpo ++ new, vis')
    /\ dfs_result F (fun x => x ∈ ss) vis new vis'.
Proof.
  intros Call ss. induction ss as [| s ss IH]; intros rpo vis Hs U; cbn [fold_some].
  - exists [], vis. rewrite app_nil_r. split; [done |]. split; try (intros x Hx;
      by apply not_elem_of_nil in Hx); [constructor | |].
    + intros x. rewrite elem_of_nil. tauto.
    + intros x c Hx. by apply not_elem_of_nil in Hx.
  - destruct (Call s rpo vis) as (n1 & v1 & -> & R1); [apply Hs; left | done |].
    cbn [mbind option_bind].
    destruct (IH (rpo ++ n1) v1) as (n2 & v2 & -> & R2).
    { intros x Hx. apply Hs. by right. }
    { eapply Nat.le_lt_trans; [| exact U]. apply unvisited_mono.
      intros x Hx. apply (dr_vis _ _ _ _ _ R1). by left. }
    exists (n1 ++ n2), v2. rewrite app_assoc. split; [done |].
    destruct (dfs_result_app _ _ _ _ _ _ _ _ R1 R2) as [D1 D2 D3 D4 D5 D6 D7 D8].
    assert (Q : forall x, x ∈ s :: ss <-> s = x \/ x ∈ ss)
      by (intros x; rewrite elem_of_cons; intuition congruence).
    split; [done | done | done | | done | | |].
    + intros x Hx. by apply D4, Q.
    + intros x Hx. destruct (D6 x Hx) as (t & Ht & W). exists t. by rewrite Q.
    + intros x Hx. rewrite Q. by apply D7.
    + intros x c Hx Hc. rewrite Q. by apply (D8 x c).
Qed.

Lemma computeRPO_spec F fuel : graph_ok F -> forall v rpo vis,
  v ∈ blocks F -> unvisited F vis < fuel ->
  exists new vis', computeRPO F fuel (rpo, vis) v = Some (rpo ++ new, vis')
    /\ dfs_result F (eq v) vis new vis'
    /\ (v ∉ vis -> exists l, new = l ++ [v]).
Proof.
  intros G. induction fuel as [| fuel IH]; intros v rpo vis Hv U; [lia |].
  cbn [computeRPO snd fst]. case_bool_decide as D.
  - exists [], vis. rewrite app_nil_r. split_and!; [done | | done].
    split; try (intros x Hx; by apply not_elem_of_nil in Hx); [constructor | | by intros x <- |].
    + intros x. rewrite elem_of_nil. tauto.
    + intros x c Hx. by apply not_elem_of_nil in Hx.
  - pose proof (unvisited_cons F vis v Hv D) as L.
    destruct (computeRPO_fold F fuel) with (ss := getSuccessors v F) (rpo := rpo) (vis := v :: vis)
      as (new & vis' & -> & R).
    + intros w r vs Hw Hu. destruct (IH w r vs Hw Hu) as (n & v' & E & R & _). eauto.
    + intros s Hs. by apply (go_closed _ G v).
    + lia.
    + cbn [mbind option_bind]. exists (new ++ [v]), vis'. rewrite <- app_assoc.
      split_and!; [done | by apply dfs_result_root | by exists new].
Qed.

(** ** Indices *)

Lemma index_of_order_spec l x i :
  NoDup l -> index_of_order l !! x = Some i <-> l !! i = Some x.
Proof.
  intros N. unfold index_of_order.
  assert (L : length l = length (seq 0 (length l))) by (by rewrite length_seq).
  assert (Z : forall y j, (y, j) ∈ zip l (seq 0 (length l)) <-> l !! j = Some y).
  { intros y j. rewrite list_elem_of_lookup. split.
    - intros [k E]. apply lookup_zip_Some in E as [E1 E2].
      apply lookup_seq in E2 as [-> _]. done.
    - intros E. exists j. apply lookup_zip_Some. split; [done |].
      apply lookup_seq. split; [done | by apply lookup_lt_Some in E]. }
  split.
  - intros E. apply elem_of_list_to_map_2 in E. by apply Z.
  - intros E. apply elem_of_list_to_map_1; [| by apply Z].
    rewrite fst_zip by lia. done.
Qed.

Lemma size_index_of_order l : NoDup l -> size (index_of_order l) = length l.
Proof.
  intros N. unfold index_of_order.
  rewrite <- length_map_to_list, map_to_list_to_map.
  - rewrite length_zip, length_seq. lia.
  - by rewrite fst_zip by (by rewrite length_seq).
Qed.

(** The order that [analyze] uses. *)
Record rpo_ok F (entry : ref) (order : list ref) : Prop := {
  ro_nodup : NoDup order;
  ro_entry : order !! 0 = Some entry;
  ro_reach : forall x, x ∈ order <-> walks F entry x;
  ro_blocks : forall x, x ∈ order -> x ∈ blocks F;
  ro_low : forall i x, order !! i = Some x -> i <> 0 ->
    exists p j, x ∈ getSuccessors p F /\ order !! j = Some p /\ j < i;
}.

Lemma NoDup_rev (l : list ref) : NoDup l -> NoDup (reverse l).
Proof. by rewrite reverse_Permutation. Qed.

Lemma later_reverse l x p i :
  NoDup l -> later l x p -> reverse l !! i = Some x -> exists j, reverse l !! j = Some p /\ j < i.
Proof.
  intros N (l1 & l2 & l3 & ->) E.
  assert (R : reverse (l1 ++ x :: l2 ++ p :: l3) = (reverse l3 ++ [p]) ++ reverse l2 ++ x :: reverse l1).
  { rewrite reverse_app, reverse_cons, reverse_app, reverse_cons. by rewrite <- !app_assoc. }
  assert (NR : NoDup (reverse (l1 ++ x :: l2 ++ p :: l3))) by by apply NoDup_rev.
  rewrite R in E, NR |- *. exists (length (reverse l3)).
  rewrite lookup_app_l by (rewrite length_app; simpl; lia).
  split; [by apply list_lookup_middle |].
  destruct (Nat.lt_ge_cases (length (reverse l3)) i) as [L | L]; [done |]. exfalso.
  rewrite lookup_app_l in E by (rewrite length_app; simpl; lia).
  apply NoDup_app in NR as (_ & NR & _). apply (NR x).
  - by apply list_elem_of_lookup_2 in E.
  - apply elem_of_app. right. left.
Qed.

Lemma computeRPO_ok F entry rest :
  graph_ok F -> blocks F = entry :: rest ->
  exists new vis, computeRPO F (S (length (blocks F))) ([], []) entry = Some (new, vis)
    /\ rpo_ok F entry (reverse new).
Proof.
  intros G EB. destruct (computeRPO_spec F (S (length (blocks F))) G entry [] [])
    as (new & vis & E & [D1 D2 D3 D4 D5 D6 D7 D8] & Last).
  - rewrite EB. left.
  - unfold unvisited. pose proof (length_filter (fun b => b ∉ []) (blocks F)). lia.
  - exists new, vis. split; [done |]. destruct (Last (not_elem_of_nil _)) as [l ->]. split.
    + by apply NoDup_rev.
    + by rewrite reverse_app.
    + intros x. rewrite elem_of_reverse. split.
      * intros Hx. destruct (D6 x Hx) as (s & <- & W). done.
      * induction 1 as [| b c _ IH E' _]; [apply elem_of_app; right; left |].
        destruct (D8 b c IH E') as [H | <-].
        { apply D2 in H as [H | H]; [by apply not_elem_of_nil in H | done]. }
        { apply elem_of_app. right. left. }
    + intros x. rewrite elem_of_reverse. apply D5.
    + intros i x Ex Ni. assert (Hx : x ∈ l ++ [entry]).
      { apply elem_of_reverse. by apply list_elem_of_lookup_2 in Ex. }
      destruct (D7 x Hx) as [<- | (p & Hp & L)].
      * exfalso. apply Ni. apply (NoDup_lookup (reverse (l ++ [entry])) i 0 entry);
          [by apply NoDup_rev | done | by rewrite reverse_app].
      * destruct (later_reverse _ _ _ _ D1 L Ex) as (j & Ej & Lj). by exists p, j.
Qed.

(** ** The tree *)

(** [a] is [b], or met when following the links from [b]. *)
Inductive anc m a : ref -> Prop :=
  | anc_refl : anc m a a
  | anc_up b c : m !! b = Some c -> anc m a c -> anc m a b.

Abbreviation set m b := (is_Some (m !! b)).

Lemma anc_trans m a b c : anc m a b -> anc m b c -> anc m a c.
Proof. intros H. induction 1 as [| c c' E _ IH]; [done | by apply anc_up with c']. Qed.

Lemma anc_inv m a b : anc m a b -> a = b \/ exists c, m !! b = Some c /\ anc m a c.
Proof. intros []; [by left | right; eauto]. Qed.

Lemma anc_linear m a b c : anc m a c -> anc m b c -> anc m a b \/ anc m b a.
Proof.
  intros Ha. revert b. induction Ha as [| c c' E Ha IH]; intros b Hb; [by right |].
  apply anc_inv in Hb as [-> | (c'' & E' & Hb)].
  - left. by apply anc_up with c'.
  - simplify_eq. auto.
Qed.

Section Order.
Context (entry : ref) (order : list ref).
Context (ND : NoDup order) (O0 : order !! 0 = Some entry).

(** The index of a block. *)
Definition pos x : nat := default 0 (index_of_order order !! x).

Lemma pos_lookup x : x ∈ order -> index_of_order order !! x = Some (pos x).
Proof.
  intros H. unfold pos. apply list_elem_of_lookup in H as [i E].
  apply index_of_order_spec in E; [| done]. by rewrite E.
Qed.

Lemma pos_spec x i : order !! i = Some x -> pos x = i.
Proof. intros E. unfold pos. apply index_of_order_spec in E; [| done]. by rewrite E. Qed.

Lemma pos_order x : x ∈ order -> order !! pos x = Some x.
Proof. intros H. apply index_of_order_spec; [done |]. by apply pos_lookup. Qed.

Lemma pos_lt x : x ∈ order -> pos x < length order.
Proof. intros H. by apply pos_order, lookup_lt_Some in H. Qed.

Lemma pos_inj x y : x ∈ order -> y ∈ order -> pos x = pos y -> x = y.
Proof. intros Hx Hy E. apply pos_order in Hx, Hy. congruence. Qed.

Lemma pos_entry : pos entry = 0.
Proof. by apply pos_spec. Qed.

Lemma entry_order : entry ∈ order.
Proof. by apply list_elem_of_lookup_2 in O0. Qed.

(** Every link but the entry's goes to a block of a lower index. *)
Record tree m : Prop := {
  t_entry : m !! entry = Some entry;
  t_link : forall b c, m !! b = Some c -> b ∈ order /\ set m c /\ (b = entry \/ pos c < pos b);
}.

Section Tree.
Context (m : gmap ref ref) (T : tree m).

Lemma set_order x : set m x -> x ∈ order.
Proof. intros [c E]. by apply (t_link _ T) in E as [? _]. Qed.

Lemma anc_pos a b : anc m a b -> a = b \/ pos a < pos b.
Proof.
  induction 1 as [| b c E _ IH]; [by left |].
  destruct (t_link _ T _ _ E) as (_ & _ & [-> | L]).
  - rewrite (t_entry _ T) in E. by simplify_eq.
  - right. destruct IH as [-> | IH]; lia.
Qed.

Lemma anc_pos_le a b : anc m a b -> pos a <= pos b.
Proof. intros H. destruct (anc_pos _ _ H) as [-> | ?]; lia. Qed.

Lemma anc_set a b : set m b -> anc m a b -> set m a.
Proof.
  intros S H. revert S. induction H as [| b c E _ IH]; [done |]. intros _.
  apply IH. by apply (t_link _ T) in E as (_ & ? & _).
Qed.

(** Following the links, by induction on the index. *)
Lemma tree_ind (P : ref -> Prop) :
  P entry ->
  (forall b c, b <> entry -> m !! b = Some c -> pos c < pos b -> set m c -> P c -> P b) ->
  forall b, set m b -> P b.
Proof.
  intros P0 PS b. remember (pos b) as n eqn:En. revert b En.
  induction n as [n IH] using lt_wf_ind. intros b -> [c E].
  destruct (decide (b = entry)) as [-> | N]; [done |].
  destruct (t_link _ T _ _ E) as (_ & Sc & [? | L]); [done |].
  apply (PS b c); try done. by apply (IH (pos c)).
Qed.

Lemma entry_anc b : set m b -> anc m entry b.
Proof. revert b. apply tree_ind; [apply anc_refl |]. intros. by apply anc_up with c. Qed.

Lemma anc_entry a : anc m a entry -> a = entry.
Proof. intros H. destruct (anc_pos _ _ H) as [? | L]; [done |]. rewrite pos_entry in L. lia. Qed.

Lemma anc_or a b : set m b -> anc m a b \/ ~ anc m a b.
Proof.
  revert b. apply tree_ind.
  - destruct (decide (a = entry)) as [-> | N]; [left; apply anc_refl |].
    right. by intros H%anc_entry.
  - intros b c Nb E L Sc [H | H]; [left; by apply anc_up with c |].
    destruct (decide (a = b)) as [-> | N]; [left; apply anc_refl |].
    right. intros Q. apply anc_inv in Q as [? | (c' & E' & Q)]; [done |]. by simplify_eq.
Qed.

(** Of two ancestors of a block, the one of the lower index is above the other. *)
Lemma anc_le a b x : anc m a x -> anc m b x -> pos a <= pos b -> anc m a b.
Proof.
  intros Ha Hb L. destruct (anc_linear _ _ _ _ Ha Hb) as [? | H]; [done |].
  destruct (anc_pos _ _ H) as [-> | ?]; [apply anc_refl | lia].
Qed.

(** ** [intersect] is the lowest common ancestor *)

Lemma climb_spec fuel b t :
  set m b -> t ∈ order -> pos b < fuel ->
  exists d, climb (index_of_order order) m fuel b t = Some d
    /\ anc m d b /\ pos d <= pos t /\ forall a, anc m a b -> pos a <= pos t -> anc m a d.
Proof.
  revert b. induction fuel as [| fuel IH]; intros b S Ot L; [lia |]. cbn [climb].
  rewrite (pos_lookup b), (pos_lookup t) by (done || by apply set_order).
  cbn [mbind option_bind]. destruct (Nat.ltb_spec (pos t) (pos b)) as [L1 | L1].
  - destruct S as [c E]. rewrite E. cbn [mbind option_bind].
    destruct (t_link _ T _ _ E) as (_ & Sc & [Be | L2]); [subst b; rewrite pos_entry in L1; lia |].
    destruct (IH c Sc Ot) as (d & -> & D1 & D2 & D3); [lia |].
    exists d. split_and!; [done | by apply anc_up with c | done |].
    intros a Ha La. apply anc_inv in Ha as [-> | (c' & E' & Ha)]; [lia |].
    simplify_eq. by apply D3.
  - exists b. split_and!; [done | apply anc_refl | done | done].
Qed.

Lemma intersect_loop_spec fuel b1 b2 :
  set m b1 -> set m b2 -> pos b1 + pos b2 < fuel ->
  exists d, intersect_loop (index_of_order order) m fuel b1 b2 = Some d
    /\ forall a, anc m a d <-> anc m a b1 /\ anc m a b2.
Proof.
  revert b1 b2. induction fuel as [| fuel IH]; intros b1 b2 S1 S2 L; [lia |].
  cbn [intersect_loop]. destruct (N.eqb_spec b1 b2) as [-> | N]; [exists b2; split; [done | tauto] |].
  destruct (climb_spec (S (S fuel)) b1 b2) as (d1 & -> & A1 & L1 & M1);
    [done | by apply set_order | lia |]. cbn [mbind option_bind].
  assert (Sd1 : set m d1) by by apply (anc_set _ b1).
  destruct (climb_spec (S (S fuel)) b2 d1) as (d2 & -> & A2 & L2 & M2);
    [done | by apply set_order | lia |]. cbn [mbind option_bind].
  assert (Sd2 : set m d2) by by apply (anc_set _ b2).
  destruct (IH d1 d2 Sd1 Sd2) as (d & -> & D).
  { destruct (anc_pos _ _ A1) as [-> | ?]; destruct (anc_pos _ _ A2) as [-> | ?]; try lia.
    exfalso. apply N, pos_inj; [by eapply set_order .. | lia]. }
  exists d. split; [done |]. intros a. rewrite D. split.
  - intros [H1 H2]. split; [by apply anc_trans with d1 | by apply anc_trans with d2].
  - intros [H1 H2]. assert (Q : anc m a d1) by (apply M1; [done | by apply anc_pos_le]).
    split; [done |]. apply M2; [done | by apply anc_pos_le].
Qed.

Lemma intersect_spec b1 b2 :
  set m b1 -> set m b2 ->
  exists d, intersect (index_of_order order) m b1 b2 = Some d
    /\ forall a, anc m a d <-> anc m a b1 /\ anc m a b2.
Proof.
  intros S1 S2. apply intersect_loop_spec; [done | done |].
  rewrite size_index_of_order by done.
  pose proof (pos_lt b1 (set_order _ S1)). pose proof (pos_lt b2 (set_order _ S2)). lia.
Qed.

(** ** The meet over the predecessors *)

Lemma meet_fold ps d0 :
  set m d0 ->
  exists d, fold_some (meet_pred (index_of_order order) m) ps d0 = Some d /\ set m d
    /\ forall a, anc m a d <-> anc m a d0 /\ forall p, p ∈ ps -> set m p -> anc m a p.
Proof.
  revert d0. induction ps as [| p ps IH]; intros d0 S0; cbn [fold_some].
  - exists d0. split_and!; [done | done |]. intros a. split; [| tauto].
    intros H. split; [done |]. intros p Hp. by apply not_elem_of_nil in Hp.
  - assert (Q : exists d1, meet_pred (index_of_order order) m d0 p = Some d1 /\ set m d1
        /\ forall a, anc m a d1 <-> anc m a d0 /\ (set m p -> anc m a p)).
    { unfold meet_pred, count. destruct (N.eqb_spec p d0) as [-> | N]; cbn [negb andb].
      { exists d0. split_and!; [done | done |]. intros a. tauto. }
      case_bool_decide as Sp.
      - destruct (intersect_spec p d0 Sp S0) as (d1 & -> & D). exists d1.
        split_and!; [done | | intros a; rewrite D; tauto].
        apply (anc_set _ p); [done |]. apply D, anc_refl.
      - exists d0. split_and!; [done | done |]. intros a. tauto. }
    destruct Q as (d1 & -> & S1 & D1). cbn [mbind option_bind].
    destruct (IH d1 S1) as (d & -> & Sd & D). exists d. split_and!; [done | done |].
    intros a. rewrite D, D1. split.
    + intros [[A B] C]. split; [done |]. intros q Hq. apply elem_of_cons in Hq as [-> | Hq]; auto.
    + intros [A B]. split_and!; [done | apply B; left | intros q Hq; apply B; by right].
Qed.

End Tree.

(** The lowest common ancestor of the predecessors that have an immediate dominator. *)
Definition is_meet F m x d : Prop :=
  set m d /\ forall a, anc m a d <-> forall p, p ∈ getPredecessors x F -> set m p -> anc m a p.

Lemma update_block_spec F m ch x :
  tree m -> x <> entry -> (exists p, p ∈ getPredecessors x F /\ set m p) ->
  exists d, is_meet F m x d
    /\ update_block F entry (index_of_order order) (ch, m) x
       = Some (if bool_decide (m !! x = Some d) then (ch, m) else (true, <[x := d]> m)).
Proof.
  intros T Nx (p & Hp & Sp). unfold update_block. rewrite (proj2 (N.eqb_neq _ _) Nx).
  destruct (find (count m) (getPredecessors x F)) as [f |] eqn:Ef.
  - apply find_some in Ef as [Hf Cf]. unfold count in Cf. apply bool_decide_eq_true in Cf.
    destruct (meet_fold m T (getPredecessors x F) f Cf) as (d & -> & Sd & D).
    cbn [mbind option_bind]. exists d. split; [split; [done |] | by case_bool_decide].
    intros a. rewrite D. split; [tauto |]. intros H. split; [| done].
    apply H; [by apply list_elem_of_In | done].
  - exfalso. pose proof (find_none _ _ Ef p) as Q. unfold count in Q.
    rewrite bool_decide_eq_true_2 in Q by done. discriminate Q. by apply list_elem_of_In.
Qed.

(** ** Replacing one link *)

Section Insert.
Context (m : gmap ref ref) (T : tree m) (z d : ref).
Context (Nz : z <> entry) (Oz : z ∈ order) (Sd : set m d) (Ld : pos d < pos z).

Abbreviation m' := (<[z := d]> m).

Lemma set_insert x : set m x -> set m' x.
Proof.
  intros S. destruct (decide (z = x)) as [<- | N]; [rewrite lookup_insert_eq; by eexists |].
  by rewrite lookup_insert_ne.
Qed.

Lemma set_insert_inv x : set m' x -> x = z \/ set m x.
Proof.
  destruct (decide (z = x)) as [<- | N]; [by left |]. right. by rewrite lookup_insert_ne in H.
Qed.

Lemma tree_insert : tree m'.
Proof.
  split.
  - rewrite lookup_insert_ne by done. apply (t_entry _ T).
  - intros b c E. destruct (decide (z = b)) as [<- | N].
    + rewrite lookup_insert_eq in E. injection E as <-. split_and!; [done | by apply set_insert | by right].
    + rewrite lookup_insert_ne in E by done.
      destruct (t_link _ T _ _ E) as (? & ? & ?). split_and!; [done | by apply set_insert | done].
Qed.

Lemma anc_low a x : pos x < pos z -> anc m' a x <-> anc m a x.
Proof.
  intros L. split; intros H.
  - revert L. induction H as [| b c E _ IH]; intros L; [apply anc_refl |].
    rewrite lookup_insert_ne in E by (intros ->; lia). apply anc_up with c; [done |]. apply IH.
    assert (Q : anc m c b) by (apply anc_up with c; [done | apply anc_refl]).
    apply (anc_pos_le m T) in Q. lia.
  - revert L. induction H as [| b c E _ IH]; intros L; [apply anc_refl |].
    apply anc_up with c; [by rewrite lookup_insert_ne by (intros ->; lia) |]. apply IH.
    assert (Q : anc m c b) by (apply anc_up with c; [done | apply anc_refl]).
    apply (anc_pos_le m T) in Q. lia.
Qed.

Lemma anc_high a x : pos z <= pos a -> anc m' a x <-> anc m a x.
Proof.
  intros L. split; intros H.
  - induction H as [| b c E H IH]; [apply anc_refl |].
    destruct (decide (z = b)) as [<- | N].
    + rewrite lookup_insert_eq in E. injection E as <-.
      pose proof (anc_pos_le m T _ _ IH). lia.
    + rewrite lookup_insert_ne in E by done. by apply anc_up with c.
  - induction H as [| b c E H IH]; [apply anc_refl |].
    destruct (decide (z = b)) as [<- | N].
    + pose proof (anc_pos_le m T _ _ H). destruct (t_link _ T _ _ E) as (_ & _ & [? | ?]); [done | lia].
    + apply anc_up with c; [by rewrite lookup_insert_ne | done].
Qed.

Lemma anc_through a x :
  anc m z x -> anc m' a x <-> (pos z <= pos a /\ anc m a x) \/ anc m a d.
Proof.
  intros Hz. pose proof (proj2 (anc_high z x (le_n _)) Hz) as Hz'. split.
  - intros H. destruct (Nat.le_gt_cases (pos z) (pos a)) as [L | L].
    + left. split; [done |]. by apply anc_high.
    + right. destruct (anc_linear _ _ _ _ H Hz') as [Q | Q].
      * apply anc_inv in Q as [-> | (c & E & Q)]; [lia |].
        rewrite lookup_insert_eq in E. injection E as <-. by apply anc_low.
      * apply (anc_pos_le m' tree_insert) in Q. lia.
  - intros [[L H] | H]; [by apply anc_high |]. apply anc_trans with z; [| done].
    apply anc_up with d; [by rewrite lookup_insert_eq | by apply anc_low].
Qed.

Lemma anc_apart a x : ~ anc m z x -> anc m' a x <-> anc m a x.
Proof.
  intros N. split; intros H.
  - revert N. induction H as [| b c E H IH]; intros N; [apply anc_refl |].
    assert (Nb : z <> b) by (intros ->; apply N, anc_refl).
    rewrite lookup_insert_ne in E by done. apply anc_up with c; [done |]. apply IH.
    intros Q. apply N. by apply anc_up with c.
  - revert N. induction H as [| b c E H IH]; intros N; [apply anc_refl |].
    assert (Nb : z <> b) by (intros ->; apply N, anc_refl).
    apply anc_up with c; [by rewrite lookup_insert_ne |]. apply IH.
    intros Q. apply N. by apply anc_up with c.
Qed.

(** When the new link is above the old one, ancestors are only lost. *)
Lemma anc_shrink a x :
  (forall e, m !! z = Some e -> anc m d e) -> set m x -> anc m' a x -> anc m a x.
Proof.
  intros M Sx H. destruct (anc_or m T z x Sx) as [Hz | Hz].
  - apply anc_through in H as [[_ H] | H]; [done | | done].
    destruct (anc_set m T z x Sx Hz) as [e E]. apply anc_trans with z; [| done].
    apply anc_up with e; [done |]. apply anc_trans with d; [done | by apply M].
  - by apply anc_apart in H.
Qed.

End Insert.
End Order.

Arguments set_order {entry order m} T.
Arguments anc_pos {entry order m} T.
Arguments anc_pos_le {entry order m} T {a b}.
Arguments anc_set {entry order m} T {a b}.
Arguments anc_or {entry order} ND O0 {m} T.
Arguments anc_le {entry order m} T {a b x}.
Arguments anc_low {entry order m} T {z d}.
Arguments anc_high {entry order m} T {z d}.
Arguments anc_through {entry order m} T {z d}.
Arguments anc_apart {entry order m} {z d}.
Arguments anc_shrink {entry order} ND O0 {m} T {z d}.
Arguments tree_insert {entry order m} T {z d}.
Arguments update_block_spec {entry order} ND O0 {F m}.
