(* ===== verification/DominanceLoop.v ===== *)
(** * The iteration for immediate dominators

    The invariant of the passes over the reverse post-order, that each change moves a link
    towards the entry, so that the loop ends, and that the table it ends with holds the
    ancestors that dominate. *)

From S2P Require Import Prelude Diag HIRType MIR Dominance DominanceTree.

Implicit Types (F : MIRFunction) (a b c d e p r x y z : ref) (m : gmap ref ref).

(** ** Sums over the order *)

Lemma sum_le {A} (f g : A -> nat) (l : list A) :
  (forall u, u ∈ l -> f u <= g u) -> sum_list_with f l <= sum_list_with g l.
Proof.
  intros H. induction l as [| u l IH]; simpl; [done |].
  assert (f u <= g u) by (apply H; left).
  assert (sum_list_with f l <= sum_list_with g l) by (apply IH; intros v Hy; apply H; by right). lia.
Qed.

Lemma sum_lt {A} (f g : A -> nat) (l : list A) w :
  (forall u, u ∈ l -> f u <= g u) -> w ∈ l -> f w < g w ->
  sum_list_with f l < sum_list_with g l.
Proof.
  intros H Hw L. induction l as [| u l IH]; simpl; [by apply not_elem_of_nil in Hw |].
  assert (f u <= g u) by (apply H; left).
  assert (Hl : forall v, v ∈ l -> f v <= g v) by (intros v Hy; apply H; by right).
  apply elem_of_cons in Hw as [<- | Hw].
  - pose proof (sum_le f g l Hl). lia.
  - specialize (IH Hl Hw). lia.
Qed.

Lemma sum_bound {A} (f : A -> nat) (l : list A) n :
  (forall u, u ∈ l -> f u <= n) -> sum_list_with f l <= length l * n.
Proof.
  intros H. induction l as [| u l IH]; simpl; [done |].
  assert (f u <= n) by (apply H; left).
  assert (sum_list_with f l <= length l * n) by (apply IH; intros v Hy; apply H; by right). lia.
Qed.

Section Loop.
Context (F : MIRFunction) (entry : ref) (order : list ref).
Context (G : graph_ok F) (R : rpo_ok F entry order).

Local Definition nd := ro_nodup _ _ _ R.
Local Definition o0 := ro_entry _ _ _ R.
Abbreviation pos := (pos order).
Abbreviation tree := (tree entry order).

(** A reached predecessor, and one that comes earlier in the order. *)
Definition reached r x : Prop := r ∈ order /\ x ∈ getSuccessors r F.
Definition low r x : Prop := reached r x /\ pos r < pos x.

Lemma reached_pred r x : x ∈ order -> reached r x -> r ∈ getPredecessors x F.
Proof.
  intros Ox [Or E]. apply (go_preds _ G); [by apply (ro_blocks _ _ _ R) |].
  split; [by apply (ro_blocks _ _ _ R) | done].
Qed.

Lemma pred_reached r x : x ∈ order -> r ∈ order -> r ∈ getPredecessors x F -> reached r x.
Proof.
  intros Ox Or H. apply (go_preds _ G) in H as [_ H]; [by split |].
  by apply (ro_blocks _ _ _ R).
Qed.

Lemma low_exists x : x ∈ order -> x <> entry -> exists r, low r x.
Proof.
  intros Ox N. pose proof (pos_order order nd x Ox) as Ex.
  destruct (ro_low _ _ _ R _ _ Ex) as (p & j & E & Ej & L).
  - intros Z. rewrite Z, o0 in Ex. by simplify_eq.
  - exists p. split; [split; [by apply list_elem_of_lookup_2 in Ej | done] |].
    by rewrite (pos_spec order nd p j).
Qed.

(** The state of the table before the block of index [i] is processed. *)
Record Inv (i : nat) m : Prop := {
  iv_tree : tree m;
  iv_mode : (forall x, x ∈ order -> set m x) \/ (forall x, x ∈ order -> set m x <-> pos x < S (i - 1));
  iv_done : forall x e r, x <> entry -> m !! x = Some e -> pos x < i -> low r x -> anc m e r;
  iv_todo : forall x e r y, x <> entry -> m !! x = Some e -> low r x ->
    i <= pos y -> anc m y e -> anc m y r;
  iv_above : forall x e r a, x <> entry -> m !! x = Some e -> low r x ->
    anc m a r -> pos a <= pos e -> anc m a e;
  iv_meet : forall x e a, x <> entry -> m !! x = Some e ->
    (forall p, reached p x -> set m p -> anc m a p) -> pos a <= pos e;
  iv_walk : forall x e, x <> entry -> m !! x = Some e -> walk F (fun c => pos e < pos c) e x;
  iv_avoid : forall y a, set m y -> ~ anc m a y -> walk F (fun c => c <> a) entry y;
}.

Lemma processed_set i m x : Inv i m -> x ∈ order -> pos x < i -> set m x.
Proof. intros I Ox L. destruct (iv_mode _ _ I) as [H | H]; [by apply H |]. apply H; [done | lia]. Qed.

Lemma low_set i m r x : Inv i m -> set m x -> low r x -> set m r.
Proof.
  intros I Sx [[Or _] L]. destruct (iv_mode _ _ I) as [H | H]; [by apply H |].
  apply H; [done |]. apply H in Sx; [lia |].
  by apply (set_order (iv_tree _ _ I)).
Qed.

Lemma meet_low i m z d r :
  Inv i m -> order !! i = Some z -> is_meet F m z d -> low r z -> anc m d r.
Proof.
  intros I Ez [_ M] L. pose proof (pos_spec order nd _ _ Ez) as Pz. destruct L as [H L].
  apply M; [apply anc_refl | | ].
  - apply reached_pred; [by apply list_elem_of_lookup_2 in Ez | done].
  - apply (processed_set i); [done | apply H | lia].
Qed.

Lemma meet_pos i m z d :
  Inv i m -> order !! i = Some z -> z <> entry -> is_meet F m z d -> pos d < pos z.
Proof.
  intros I Ez Nz M. destruct (low_exists z) as [r Lr];
    [by apply list_elem_of_lookup_2 in Ez | done |].
  pose proof (meet_low _ _ _ _ _ I Ez M Lr) as A.
  apply (anc_pos_le (iv_tree _ _ I)) in A. destruct Lr as [_ L]. lia.
Qed.

(** The new link goes to an ancestor of the old one. *)
Lemma meet_above i m z d e :
  Inv i m -> order !! i = Some z -> z <> entry -> is_meet F m z d -> m !! z = Some e -> anc m d e.
Proof.
  intros I Ez Nz M E. destruct (low_exists z) as [r Lr];
    [by apply list_elem_of_lookup_2 in Ez | done |].
  apply (iv_above _ _ I z e r d); [done | done | done | by eapply meet_low |].
  apply (iv_meet _ _ I z e d); [done | done |]. intros p Hp Sp. apply M; [apply anc_refl | | done].
  apply reached_pred; [by apply list_elem_of_lookup_2 in Ez | done].
Qed.

(** Walking down the tree, through blocks of a higher index. *)
Lemma anc_walk i m a b :
  Inv i m -> anc m a b -> walk F (fun c => pos a < pos c) a b.
Proof.
  intros I. induction 1 as [| b c E A IH]; [apply walk_refl |].
  destruct (decide (b = entry)) as [-> | Nb].
  - rewrite (t_entry _ _ _ (iv_tree _ _ I)) in E. by injection E as <-.
  - apply walk_trans with c; [done |]. eapply walk_weaken; [| by apply (iv_walk _ _ I)].
    intros x L. simpl in L. apply (anc_pos_le (iv_tree _ _ I)) in A. lia.
Qed.

(** A block whose link is already the meet, and the entry, are skipped. *)
Lemma inv_skip i m z :
  Inv i m -> order !! i = Some z -> (z = entry \/ exists d, m !! z = Some d /\ is_meet F m z d) ->
  Inv (S i) m.
Proof.
  intros I Ez H. pose proof (pos_spec order nd _ _ Ez) as Pz.
  assert (Oz : z ∈ order) by (by apply list_elem_of_lookup_2 in Ez).
  pose proof I as [I1 I2 I3 I4 I5 I6 I7 I8]. split; [done | | | | done | done | done | done].
  - destruct I2 as [I2 | I2]; [by left |]. right. intros x Ox. rewrite I2 by done.
    destruct i as [| i]; [simpl; lia |]. exfalso. destruct H as [-> | (d & E & _)].
    + rewrite (pos_entry entry order nd o0) in Pz. lia.
    + assert (Sz : set m z) by by eexists. apply I2 in Sz; [lia | done].
  - intros x e r Nx E L Lr. destruct (decide (x = z)) as [-> | N].
    + destruct H as [-> | (d & E' & M)]; [done |]. simplify_eq. by apply (meet_low _ _ _ _ _ I Ez M).
    + apply (I3 x); [done | done | | done]. enough (pos x <> pos z) by lia. intros Q.
      apply N, (pos_inj order nd); [| done | done]. by apply (set_order I1).
  - intros x e r y Nx E Lr L. apply (I4 x); [done | done | done | lia].
Qed.

Section Update.
Context (i : nat) (m : gmap ref ref) (z d : ref).
Context (I : Inv i m) (Ez : order !! i = Some z) (Nz : z <> entry) (M : is_meet F m z d).

Local Definition T := iv_tree _ _ I.
Local Definition Pz := pos_spec order nd _ _ Ez.
Local Definition Sd : set m d := proj1 M.
Local Definition Ld : pos d < pos z := meet_pos _ _ _ _ I Ez Nz M.

Lemma updated_order : z ∈ order.
Proof. by apply list_elem_of_lookup_2 in Ez. Qed.

Local Definition Oz := updated_order.
Abbreviation m' := (<[z := d]> m).

Lemma updated_shrink a x : set m x -> anc m' a x -> anc m a x.
Proof.
  apply (anc_shrink nd o0 T Nz Oz Sd Ld). intros e. by apply (meet_above i).
Qed.

Lemma updated_low a x : pos x < pos z -> anc m' a x <-> anc m a x.
Proof. apply (anc_low T Nz Oz Ld). Qed.

Lemma updated_high a x : pos z <= pos a -> anc m' a x <-> anc m a x.
Proof. apply (anc_high T Nz Ld). Qed.

Lemma updated_through a x : anc m z x -> anc m' a x <-> (pos z <= pos a /\ anc m a x) \/ anc m a d.
Proof. apply (anc_through T Nz Oz Sd Ld). Qed.

Lemma updated_apart a x : ~ anc m z x -> anc m' a x <-> anc m a x.
Proof. apply (anc_apart Nz Oz Ld). Qed.

Lemma updated_link x e : x <> z -> m' !! x = Some e -> m !! x = Some e.
Proof. intros N E. by rewrite lookup_insert_ne in E. Qed.

Lemma updated_self e : m' !! z = Some e -> e = d.
Proof. rewrite lookup_insert_eq. by intros [= <-]. Qed.

Lemma updated_set x e : x <> z -> m' !! x = Some e -> set m x /\ set m e.
Proof.
  intros N E. apply (updated_link x e N) in E. split; [by eexists |].
  by apply (t_link _ _ _ T) in E as (_ & ? & _).
Qed.

Lemma updated_mode :
  (forall x, x ∈ order -> set m' x) \/ (forall x, x ∈ order -> set m' x <-> pos x < S (S i - 1)).
Proof.
  destruct (iv_mode _ _ I) as [H | H].
  - left. intros x Ox. by apply set_insert, H.
  - right. intros x Ox. rewrite <- Pz in *. split.
    + intros [-> | S]%set_insert_inv; [lia |]. apply H in S; [lia | done].
    + intros L. destruct (decide (x = z)) as [-> | N]; [rewrite lookup_insert_eq; by eexists |].
      apply set_insert, H; [done |]. enough (pos x <> pos z) by lia.
      intros Q. apply N, (pos_inj order nd); [done | apply Oz | done].
Qed.

(** The order of two indices, by cases on the block that the step processes. *)
Lemma updated_done x e r :
  x <> entry -> m' !! x = Some e -> pos x < S i -> low r x -> anc m' e r.
Proof.
  intros Nx E L Lr. pose proof Pz as P. destruct (decide (x = z)) as [-> | N].
  - apply updated_self in E as ->. apply updated_low; [apply Lr |]. by apply (meet_low i m z).
  - pose proof (updated_set x e N E) as [Sx _]. apply updated_link in E; [| done].
    assert (pos x <> pos z) by (intros Q; apply N, (pos_inj order nd); [by apply (set_order T) | apply Oz | done]).
    apply updated_low; [destruct Lr; lia |]. apply (iv_done _ _ I x); [done | done | lia | done].
Qed.

Lemma updated_todo x e r y :
  x <> entry -> m' !! x = Some e -> low r x -> S i <= pos y -> anc m' y e -> anc m' y r.
Proof.
  intros Nx E Lr L A. pose proof Pz as P. destruct (decide (x = z)) as [-> | N].
  - apply updated_self in E as ->. apply (updated_high y d) in A; [| lia].
    apply (anc_pos_le T) in A. pose proof Ld. lia.
  - apply updated_link in E; [| done]. apply updated_high; [lia |].
    apply (iv_todo _ _ I x e r y); [done | done | done | lia |]. apply updated_high in A; [done | lia].
Qed.

Lemma updated_above x e r a :
  x <> entry -> m' !! x = Some e -> low r x -> anc m' a r -> pos a <= pos e -> anc m' a e.
Proof.
  intros Nx E Lr A L. pose proof Pz as P. destruct (decide (x = z)) as [-> | N].
  - apply updated_self in E as ->. pose proof Ld. pose proof (meet_low _ _ _ _ _ I Ez M Lr) as D.
    apply updated_low; [done |]. apply (updated_low a r) in A; [| apply Lr].
    by apply (anc_le T A D).
  - pose proof (updated_set x e N E) as [Sx Se]. apply updated_link in E; [| done].
    pose proof (updated_shrink a r (low_set _ _ _ _ I Sx Lr) A) as A1.
    pose proof (iv_above _ _ I x e r a Nx E Lr A1 L) as A2.
    destruct (anc_or nd o0 T z e Se) as [Hz | Hz]; [| by apply updated_apart].
    apply updated_through; [done |].
    assert (Hr : anc m z r) by (apply (iv_todo _ _ I x e r z); [done | done | done | lia | done]).
    apply (updated_through a r Hr) in A as [[Q _] | A]; [left | right]; done.
Qed.

Lemma updated_meet x e a :
  x <> entry -> m' !! x = Some e -> (forall p, reached p x -> set m' p -> anc m' a p) ->
  pos a <= pos e.
Proof.
  intros Nx E H. destruct (decide (x = z)) as [-> | N].
  - apply updated_self in E as ->. apply (anc_pos_le T), M. intros p Hp Sp.
    apply updated_shrink; [done |]. apply H; [| by apply set_insert].
    apply pred_reached; [apply Oz | by apply (set_order T) | done].
  - apply updated_link in E; [| done]. apply (iv_meet _ _ I x); [done | done |].
    intros p Hp Sp. apply updated_shrink; [done |]. apply H; [done | by apply set_insert].
Qed.

Lemma updated_walk x e :
  x <> entry -> m' !! x = Some e -> walk F (fun c => pos e < pos c) e x.
Proof.
  intros Nx E. destruct (decide (x = z)) as [-> | N].
  - apply updated_self in E as ->. destruct (low_exists z Oz Nz) as [r Lr].
    apply walk_step with r; [| apply Lr | apply Ld].
    apply (anc_walk i m); [done |]. by apply (meet_low i m z).
  - apply updated_link in E; [| done]. by apply (iv_walk _ _ I).
Qed.

(** Either every predecessor that is in the tree is below [a], or one is not. *)
Lemma preds_or a (ps : list ref) :
  (forall p, p ∈ ps -> set m p -> anc m a p) \/ exists p, p ∈ ps /\ set m p /\ ~ anc m a p.
Proof.
  induction ps as [| p ps [IH | (q & ? & ?)]].
  - left. intros p H. by apply not_elem_of_nil in H.
  - destruct (decide (set m p)) as [Sp | Sp].
    + destruct (anc_or nd o0 T a p Sp) as [H | H].
      * left. intros q Hq. apply elem_of_cons in Hq as [-> | Hq]; auto.
      * right. exists p. split; [left | done].
    + left. intros q Hq Sq. apply elem_of_cons in Hq as [-> | Hq]; [done | auto].
  - right. exists q. split; [by right | done].
Qed.

Lemma updated_avoid_self a : ~ anc m' a z -> walk F (fun c => c <> a) entry z.
Proof.
  intros N. assert (Nd : ~ anc m a d).
  { intros H. apply N. apply anc_up with d; [by rewrite lookup_insert_eq |].
    apply updated_low; [apply Ld | done]. }
  destruct (preds_or a (getPredecessors z F)) as [H | (p & Hp & Sp & H)].
  - exfalso. by apply Nd, M.
  - apply walk_step with p; [by apply (iv_avoid _ _ I) | | intros ->; apply N, anc_refl].
    apply pred_reached; [apply Oz | by apply (set_order T) | done].
Qed.

Lemma updated_avoid y a : set m' y -> ~ anc m' a y -> walk F (fun c => c <> a) entry y.
Proof.
  intros Sy N. destruct (set_insert_inv m z d y Sy) as [-> | Sm]; [by apply updated_avoid_self |].
  destruct (anc_or nd o0 T z y Sm) as [Hz | Hz].
  - rewrite updated_through in N by done.
    destruct (Nat.le_gt_cases (pos z) (pos a)) as [L | L]; [apply (iv_avoid _ _ I); tauto |].
    apply walk_trans with z.
    + apply updated_avoid_self. intros H. rewrite updated_through in H by apply anc_refl.
      destruct H as [[H _] | H]; [lia | tauto].
    + eapply walk_weaken; [| by apply (anc_walk i m)]. intros c Lc ->. simpl in Lc. lia.
  - rewrite updated_apart in N by done. by apply (iv_avoid _ _ I).
Qed.

Lemma inv_update : Inv (S i) m'.
Proof.
  split.
  - apply (tree_insert T Nz Oz Sd Ld).
  - apply updated_mode.
  - apply updated_done.
  - apply updated_todo.
  - apply updated_above.
  - apply updated_meet.
  - apply updated_walk.
  - apply updated_avoid.
Qed.

End Update.

(** ** Termination *)

(** The sum of the indices that the links go to. *)
Definition phi m : nat :=
  sum_list_with (fun x => match m !! x with Some e => pos e | None => length order end) order.

Lemma phi_bound i m : Inv i m -> phi m <= length order * length order.
Proof.
  intros I. apply sum_bound. intros x Ox. destruct (m !! x) as [e |] eqn:E; [| done].
  apply (t_link _ _ _ (iv_tree _ _ I)) in E as (_ & S & _). apply (set_order (iv_tree _ _ I)) in S.
  apply (pos_lt order nd) in S. lia.
Qed.

Lemma phi_update i m z d :
  Inv i m -> order !! i = Some z -> z <> entry -> is_meet F m z d -> m !! z <> Some d ->
  phi (<[z := d]> m) < phi m.
Proof.
  intros I Ez Nz M Ne. pose proof (iv_tree _ _ I) as T.
  assert (L : pos d < match m !! z with Some e => pos e | None => length order end).
  { destruct (m !! z) as [e |] eqn:E.
    - pose proof (meet_above i m z d e I Ez Nz M E) as A.
      apply (anc_pos T) in A as [-> | ?]; done.
    - apply (pos_lt order nd), (set_order T), M. }
  apply (sum_lt _ _ _ z); [| by apply list_elem_of_lookup_2 in Ez | by rewrite lookup_insert_eq].
  intros x _. destruct (decide (z = x)) as [<- | N]; [rewrite lookup_insert_eq; lia |].
  by rewrite lookup_insert_ne.
Qed.

(** ** A pass *)

(** The block [x] is left as it is. *)
Definition stable m x : Prop := x <> entry -> exists d, m !! x = Some d /\ is_meet F m x d.

Lemma pass_from l : forall i ch m,
  (forall j x, l !! j = Some x -> order !! (i + j) = Some x) -> i + length l = length order ->
  Inv i m ->
  exists ch' m', fold_some (update_block F entry (index_of_order order)) l (ch, m) = Some (ch', m')
    /\ Inv (length order) m' /\ phi m' <= phi m /\ (ch' = true -> ch = true \/ phi m' < phi m)
    /\ (ch' = false -> m' = m /\ ch = false /\ forall x, x ∈ l -> stable m x).
Proof.
  induction l as [| z l IH]; intros i ch m Hl Hn I; cbn [fold_some].
  - exists ch, m. replace (length order) with i by (simpl in Hn; lia).
    split_and!; [done | done | done | by left |]. intros ->. split_and!; [done | done |].
    intros x Hx. by apply not_elem_of_nil in Hx.
  - assert (Ez : order !! i = Some z) by (rewrite <- (Hl 0 z); [f_equal; lia | done]).
    assert (Hl' : forall j x, l !! j = Some x -> order !! (S i + j) = Some x).
    { intros j x E. rewrite <- (Hl (S j) x); [f_equal; lia | done]. }
    assert (Hn' : S i + length l = length order) by (simpl in Hn; lia).
    destruct (decide (z = entry)) as [-> | Nz].
    + unfold update_block at 2. rewrite N.eqb_refl. cbn [mbind option_bind].
      destruct (IH (S i) ch m Hl' Hn') as (ch' & m' & -> & A & B & C & D).
      { by apply (inv_skip i m entry); [| | left]. }
      exists ch', m'. split_and!; [done .. |]. intros Q. destruct (D Q) as (-> & -> & S).
      split_and!; [done | done |]. intros x Hx. apply elem_of_cons in Hx as [-> | Hx]; [by intros [] | auto].
    + assert (Oz : z ∈ order) by by apply list_elem_of_lookup_2 in Ez.
      destruct (update_block_spec nd o0 (F := F) (m := m) ch z (iv_tree _ _ I) Nz) as (d & M & ->).
      { destruct (low_exists z Oz Nz) as [r [Hr L]]. exists r. split; [by apply reached_pred |].
        apply (processed_set i); [done | apply Hr |]. by rewrite (pos_spec order nd _ _ Ez) in L. }
      cbn [mbind option_bind]. case_bool_decide as E.
      * destruct (IH (S i) ch m Hl' Hn') as (ch' & m' & -> & A & B & C & D).
        { apply (inv_skip i m z); [done | done | right; by exists d]. }
        exists ch', m'. split_and!; [done .. |]. intros Q. destruct (D Q) as (-> & -> & S).
        split_and!; [done | done |]. intros x Hx. apply elem_of_cons in Hx as [-> | Hx]; [| auto].
        intros _. by exists d.
      * pose proof (phi_update i m z d I Ez Nz M E) as L.
        destruct (IH (S i) true (<[z := d]> m) Hl' Hn') as (ch' & m' & -> & A & B & C & D).
        { by apply inv_update. }
        exists ch', m'. split_and!; [done | done | lia | intros _; right; lia |].
        intros Q. destruct (D Q) as (_ & ? & _). done.
Qed.

Lemma pass_spec m :
  Inv 0 m ->
  exists ch m', idom_pass F entry (index_of_order order) order m = Some (ch, m')
    /\ Inv (length order) m' /\ (ch = true -> phi m' < phi m)
    /\ (ch = false -> m' = m /\ forall x, x ∈ order -> stable m x).
Proof.
  intros I. destruct (pass_from order 0 false m) as (ch & m' & E & A & _ & C & D); try done.
  exists ch, m'. split_and!; [done | done | intros Q; by destruct (C Q) | intros Q].
  by destruct (D Q) as (? & _ & ?).
Qed.

(** The next pass starts from the end of the last one. *)
Lemma inv_again m : Inv (length order) m -> Inv 0 m.
Proof.
  intros I. pose proof I as [I1 I2 I3 I4 I5 I6 I7 I8].
  assert (All : forall x, x ∈ order -> set m x).
  { intros x Ox. apply (processed_set (length order)); [done | done | by apply (pos_lt order nd)]. }
  split; try done; [by left | lia |]. intros x e r y Nx E Lr _ A. apply anc_trans with e; [done |].
  apply (I3 x); [done | done | | done]. apply (pos_lt order nd), (set_order I1). by eexists.
Qed.

Lemma inv_start : Inv 0 {[entry := entry]}.
Proof.
  assert (S : forall x e, ({[entry := entry]} : gmap ref ref) !! x = Some e -> x = entry /\ e = entry).
  { intros x e E. by apply lookup_singleton_Some in E as [<- <-]. }
  assert (S0 : ({[entry := entry]} : gmap ref ref) !! entry = Some entry) by by rewrite lookup_singleton_eq.
  split; try (intros x e * Nx E; by apply S in E as [-> _]).
  - split; [done |]. intros b c [-> ->]%S. split_and!; [| by eexists | by left].
    apply (entry_order entry order o0).
  - right. intros x Ox. split.
    + intros [e [-> _]%S]. rewrite (pos_entry entry order nd o0). lia.
    + intros L. simpl in L. assert (x = entry) as ->; [| by eexists].
      apply (pos_inj order nd); [done | apply (entry_order entry order o0) |].
      rewrite (pos_entry entry order nd o0). lia.
  - intros y a [e [-> _]%S] _. apply walk_refl.
Qed.

Lemma loop_from fuel m :
  Inv 0 m -> phi m < fuel ->
  exists m', idom_loop F fuel entry (index_of_order order) order m = Some m'
    /\ Inv 0 m' /\ forall x, x ∈ order -> stable m' x.
Proof.
  revert m. induction fuel as [| fuel IH]; intros m I L; [lia |]. cbn [idom_loop].
  destruct (pass_spec m I) as (ch & m' & -> & A & B & C). cbn [mbind option_bind].
  destruct ch.
  - apply IH; [by apply inv_again |]. specialize (B eq_refl). lia.
  - destruct (C eq_refl) as [-> S]. exists m. by split_and!; [| apply inv_again |].
Qed.

Lemma loop_spec :
  exists m, idom_loop F (2 + length order * length order) entry (index_of_order order) order
              {[entry := entry]} = Some m
    /\ Inv 0 m /\ forall x, x ∈ order -> stable m x.
Proof.
  apply loop_from; [apply inv_start |]. pose proof (phi_bound 0 _ inv_start). lia.
Qed.

(** ** The table that the loop leaves *)

Section Final.
Context (m : gmap ref ref) (I : Inv 0 m) (St : forall x, x ∈ order -> stable m x).

Lemma final_set x : x ∈ order -> set m x.
Proof.
  intros Ox. destruct (decide (x = entry)) as [-> | N].
  - eexists. apply (t_entry _ _ _ (iv_tree _ _ I)).
  - destruct (St x Ox N) as (d & E & _). by eexists.
Qed.

Lemma anc_dominator a b : b ∈ order -> anc m a b <-> dominator F entry a b.
Proof.
  intros Ob. split.
  - intros A l P. revert A. induction P as [| b c l P IH E]; intros A.
    + apply (anc_entry entry order nd o0 m (iv_tree _ _ I)) in A as ->. left.
    + assert (Ob' : b ∈ order) by (apply (ro_reach _ _ _ R); by eapply path_walks).
      destruct (decide (c = entry)) as [-> | Nc].
      { apply (anc_entry entry order nd o0 m (iv_tree _ _ I)) in A as ->. left. }
      apply anc_inv in A as [-> | (d & Ed & A)]; [left |]. right. apply IH; [done |].
      destruct (St c Ob Nc) as (d' & Ed' & M). simplify_eq. apply M; [done | | by apply final_set].
      apply reached_pred; [done | by split].
  - intros D. destruct (anc_or nd o0 (iv_tree _ _ I) a b (final_set b Ob)) as [A | A]; [done |].
    exfalso. destruct (walk_path F entry b a) as (l & P & N).
    + apply (iv_avoid _ _ I); [by apply final_set | done].
    + intros <-. apply A, (entry_anc entry order m (iv_tree _ _ I)). by apply final_set.
    + by apply N, D.
Qed.

End Final.
End Loop.
