(* ===== verification/DominanceProps.v ===== *)
(** * The dominator tree: properties

    The analysis ends on every function with consistent edges and answers dominance as it
    is defined on paths; what the other tables hold; and what [verifySSA] accepts. *)

From S2P Require Import Prelude Diag HIRType MIR MIRFacts SimplifyCFG SimplifyCFGProps Dominance.
From S2P Require Import DominanceTree DominanceLoop.

(** ** The numbers of the dominator tree

    The children that [build_tree] collects, and the depth-first numbers: the interval of a
    block is inside the interval of another exactly when it is below it in the tree. *)

Implicit Types (a b c d v x y p r : ref) (m : gmap ref ref) (Tr : gmap ref (list ref)) (F : MIRFunction) (D : MIRDominance).

(** ** The children *)

Definition children Tr a : list ref := default [] (Tr !! a).

Lemma build_tree_fold (l : list (ref * ref)) Tr a :
  children (fold_left (fun T '(block, idom) =>
    if N.eqb block idom then T else <[idom := default [] (T !! idom) ++ [block]]> T) l Tr) a
  = children Tr a ++ (filter (fun q => snd q = a /\ fst q <> a) l).*1.
Proof.
  revert Tr. induction l as [| [b i] l IH]; intros Tr; cbn [fold_left]; [by rewrite app_nil_r |].
  rewrite IH, filter_cons. cbn [fst snd].
  destruct (N.eqb_spec b i) as [-> | Nb].
  - rewrite decide_False; [done |]. intros [-> ?]. done.
  - destruct (decide (i = a)) as [-> | Na].
    + rewrite decide_True by done. unfold children at 1. rewrite lookup_insert_eq. cbn [from_option id].
      unfold children. rewrite <- app_assoc. done.
    + rewrite decide_False by tauto. unfold children at 1. by rewrite lookup_insert_ne.
Qed.

Section Children.
Context (iteration : gmap ref ref -> list (ref * ref)).
Context (It : forall m, iteration m ≡ₚ map_to_list m).
Context (m : gmap ref ref).

Lemma build_tree_children a :
  children (build_tree iteration m) a = (filter (fun q => snd q = a /\ fst q <> a) (iteration m)).*1.
Proof. unfold build_tree. by rewrite build_tree_fold. Qed.

Lemma elem_of_children a c :
  c ∈ children (build_tree iteration m) a <-> m !! c = Some a /\ c <> a.
Proof.
  rewrite build_tree_children, list_elem_of_fmap. split.
  - intros ([b i] & -> & H). apply list_elem_of_filter in H as [[E N] H]. cbn [fst snd] in *. subst i.
    rewrite It in H. apply elem_of_map_to_list in H. done.
  - intros [E N]. exists (c, a). split; [done |]. apply list_elem_of_filter. split; [done |].
    rewrite It. by apply elem_of_map_to_list.
Qed.

Lemma NoDup_children a : NoDup (children (build_tree iteration m) a).
Proof.
  rewrite build_tree_children.
  assert (N : NoDup (iteration m).*1) by (rewrite It; apply NoDup_fst_map_to_list).
  induction (iteration m) as [| q l IH]; [constructor |].
  rewrite fmap_cons in N. apply NoDup_cons in N as [N1 N2].
  rewrite filter_cons. case_decide; [| by apply IH].
  rewrite fmap_cons. apply NoDup_cons. split; [| by apply IH].
  intros Q. apply N1. apply list_elem_of_fmap in Q as (q' & -> & Q).
  apply list_elem_of_filter in Q as [_ Q]. by apply list_elem_of_fmap_2.
Qed.

End Children.

(** ** The numbers *)

Section DFS.
Context (entry : ref) (order : list ref).
Context (ND : NoDup order) (O0 : order !! 0 = Some entry).
Context (m : gmap ref ref) (T : tree entry order m).
Context (Tr : gmap ref (list ref)).
Context (Ch : forall a c, c ∈ children Tr a <-> m !! c = Some a /\ c <> a).
Context (ChN : forall a, NoDup (children Tr a)).

Abbreviation pos := (pos order).

(** The blocks at or below [v]. *)
Definition below v x : Prop := set m x /\ anc m v x.

Lemma child_pos a c : m !! c = Some a -> c <> a -> pos a < pos c.
Proof.
  intros E N. destruct (t_link _ _ _ T _ _ E) as (_ & _ & [-> | L]); [| done].
  rewrite (t_entry _ _ _ T) in E. by simplify_eq.
Qed.

Lemma below_cases v x : set m v ->
  below v x <-> x = v \/ exists c, c ∈ children Tr v /\ below c x.
Proof.
  intros Sv. split.
  - intros [Sx A]. revert Sx. induction A as [| b d E A IH]; intros Sx; [by left |].
    destruct (decide (b = v)) as [-> | N]; [by left |]. right.
    destruct IH as [-> | (c & Hc & _ & Ac)].
    + by apply (t_link _ _ _ T) in E as (_ & ? & _).
    + exists b. split; [by apply Ch | split; [done | apply anc_refl]].
    + exists c. split; [done | split; [done | by apply anc_up with d]].
  - intros [-> | (c & Hc & Sx & A)]; [split; [done | apply anc_refl] |]. split; [done |].
    apply Ch in Hc as [E _]. apply anc_trans with c; [| done]. apply anc_up with v; [done | apply anc_refl].
Qed.

Lemma below_root v c x : m !! c = Some v -> c <> v -> below c x -> x <> v.
Proof.
  intros E N [_ A] ->. apply (anc_pos_le T) in A. pose proof (child_pos v c E N). lia.
Qed.

(** Two children have no block below both. *)
Lemma below_apart v c1 c2 x y :
  c1 ∈ children Tr v -> c2 ∈ children Tr v -> c1 <> c2 -> below c1 x -> below c2 y -> ~ anc m x y.
Proof.
  intros [E1 N1]%Ch [E2 N2]%Ch N [_ A1] [_ A2] A.
  assert (Up : forall c c', m !! c = Some v -> c <> v -> m !! c' = Some v -> c <> c' -> ~ anc m c c').
  { intros c c' E Nc E' Ncc Q. apply anc_inv in Q as [-> | (d & Ed & Q)]; [done |]. simplify_eq.
    apply (anc_pos_le T) in Q. pose proof (child_pos v c E Nc). lia. }
  destruct (anc_linear m c1 c2 y) as [Q | Q].
  - by apply anc_trans with x.
  - done.
  - by apply Up in Q.
  - by apply Up in Q.
Qed.

(** A run of the traversal that gives numbers to the blocks in [P]. *)
Record numbered (P : ref -> Prop) (st st' : DFSState) : Prop := {
  nb_counter : counter st <= counter st';
  nb_visited : forall x, x ∈ visited st' <-> x ∈ visited st \/ P x;
  nb_same : forall x, ~ P x -> numbers st' !! x = numbers st !! x;
  nb_range : forall x, P x -> exists s e, numbers st' !! x = Some (s, e)
    /\ counter st < s /\ s <= e /\ e <= counter st';
  nb_nest : forall x y sx ex sy ey, P x -> P y ->
    numbers st' !! x = Some (sx, ex) -> numbers st' !! y = Some (sy, ey) ->
    (sx <= sy /\ ey <= ex) <-> anc m x y;
}.

Lemma numbered_ext (P Q : ref -> Prop) st st' :
  (forall x, P x <-> Q x) -> numbered P st st' -> numbered Q st st'.
Proof.
  intros E [A1 A2 A3 A4 A5]. split; [done | | | |].
  - intros x. by rewrite A2, E.
  - intros x Hx. apply A3. by rewrite E.
  - intros x Hx. apply A4. by rewrite E.
  - intros x y sx ex sy ey Hx Hy. apply A5; by rewrite E.
Qed.

Lemma numbered_app (P Q : ref -> Prop) st st1 st2 :
  numbered P st st1 -> numbered Q st1 st2 ->
  (forall x, P x -> ~ Q x) -> (forall x y, P x -> Q y -> ~ anc m x y /\ ~ anc m y x) ->
  numbered (fun x => P x \/ Q x) st st2.
Proof.
  intros [A1 A2 A3 A4 A5] [B1 B2 B3 B4 B5] D Ap. split.
  - lia.
  - intros x. rewrite B2, A2. tauto.
  - intros x Hx. rewrite B3, A3 by tauto. done.
  - intros x [Hx | Hx].
    + destruct (A4 x Hx) as (s & e & E & L). exists s, e. rewrite B3 by (by apply D).
      split; [done | lia].
    + destruct (B4 x Hx) as (s & e & E & L). exists s, e. split; [done | lia].
  - intros x y sx ex sy ey [Hx | Hx] [Hy | Hy] Ex Ey.
    + rewrite B3 in Ex, Ey by (by apply D). by apply A5.
    + rewrite B3 in Ex by (by apply D).
      destruct (A4 x Hx) as (s & e & E & L), (B4 y Hy) as (s' & e' & E' & L'). simplify_eq.
      destruct (Ap x y Hx Hy). split; [lia | done].
    + rewrite B3 in Ey by (by apply D).
      destruct (A4 y Hy) as (s & e & E & L), (B4 x Hx) as (s' & e' & E' & L'). simplify_eq.
      destruct (Ap y x Hy Hx). split; [lia | done].
    + by apply B5.
Qed.

Lemma numbered_root (P : ref -> Prop) v st st' :
  (forall x, P x -> x <> v /\ anc m v x) -> set m v ->
  numbered P {| numbers := numbers st; counter := S (counter st); visited := v :: visited st |} st' ->
  numbered (fun x => x = v \/ P x) st
    {| numbers := <[v := (S (counter st), counter st')]> (numbers st');
       counter := counter st'; visited := visited st' |}.
Proof.
  intros HP Sv [A1 A2 A3 A4 A5]. cbn [numbers counter visited] in *.
  assert (Up : forall x, P x -> ~ anc m x v).
  { intros x [N A]%HP Q. apply (anc_pos T) in A as [-> | A]; [done |].
    apply (anc_pos_le T) in Q. lia. }
  split; cbn [numbers counter visited].
  - lia.
  - intros x. rewrite A2, elem_of_cons. tauto.
  - intros x Hx. rewrite lookup_insert_ne by (intros <-; apply Hx; by left). apply A3. tauto.
  - intros x [-> | Hx].
    + exists (S (counter st)), (counter st'). rewrite lookup_insert_eq. split; [done | lia].
    + destruct (A4 x Hx) as (s & e & E & L). exists s, e. destruct (HP x Hx) as [N _].
      rewrite lookup_insert_ne by congruence. split; [done | lia].
  - intros x y sx ex sy ey [-> | Hx] [-> | Hy].
    + rewrite lookup_insert_eq. intros [= <- <-] [= <- <-]. split; [intros _; apply anc_refl | lia].
    + destruct (HP y Hy) as [N A]. rewrite lookup_insert_eq, lookup_insert_ne by congruence.
      intros [= <- <-] Ey. destruct (A4 y Hy) as (s & e & E & L). simplify_eq.
      split; [done | lia].
    + destruct (HP x Hx) as [N A]. rewrite lookup_insert_eq, lookup_insert_ne by congruence.
      intros Ex [= <- <-]. destruct (A4 x Hx) as (s & e & E & L). simplify_eq.
      split; [lia | by intros Q%Up].
    + destruct (HP x Hx) as [N _], (HP y Hy) as [N' _]. rewrite !lookup_insert_ne by congruence.
      by apply A5.
Qed.

Lemma computeDFS_children fuel v :
  (forall c st, c ∈ children Tr v -> (forall x, below c x -> x ∉ visited st) ->
     exists st', computeDFS fuel Tr st c = Some st' /\ numbered (below c) st st') ->
  forall cs st, NoDup cs -> (forall c, c ∈ cs -> c ∈ children Tr v) ->
  (forall c x, c ∈ cs -> below c x -> x ∉ visited st) ->
  exists st', fold_some (computeDFS fuel Tr) cs st = Some st'
    /\ numbered (fun x => exists c, c ∈ cs /\ below c x) st st'.
Proof.
  intros Call cs. induction cs as [| c cs IH]; intros st N Hc Hv; cbn [fold_some].
  - exists st. split; [done |].
    split; [done | | done | |]; [| intros x (c & Hx & _) | intros x y ? ? ? ? (c & Hx & _)];
      try (by apply not_elem_of_nil in Hx).
    intros x. split; [by left | intros [? | (c & Hx & _)]; [done | by apply not_elem_of_nil in Hx]].
  - apply NoDup_cons in N as [N1 N2].
    destruct (Call c st) as (st1 & -> & R1); [apply Hc; left | intros x; apply Hv; left |].
    cbn [mbind option_bind].
    assert (Ap : forall x y, below c x -> (exists c', c' ∈ cs /\ below c' y) -> ~ anc m x y /\ ~ anc m y x).
    { intros x y Bx (c' & Hc' & By). assert (c <> c') by (intros ->; done).
      assert (c ∈ children Tr v) by (apply Hc; left).
      assert (c' ∈ children Tr v) by (apply Hc; by right).
      split; [by apply (below_apart v c c' x y) | by apply (below_apart v c' c y x)]. }
    destruct (IH st1 N2) as (st2 & -> & R2).
    + intros c' H. apply Hc. by right.
    + intros c' x H B. rewrite (nb_visited _ _ _ R1). intros [Q | Q].
      * by apply (Hv c' x); [right | |].
      * apply (Ap x x); [done | by exists c' | apply anc_refl].
    + exists st2. split; [done |]. eapply numbered_ext; [| eapply numbered_app; [exact R1 | exact R2 | |]].
      * intros x. setoid_rewrite elem_of_cons. split.
        { intros [B | (c' & H & B)]; [exists c; auto | exists c'; auto]. }
        { intros (c' & [-> | H] & B); [by left | right; by exists c']. }
      * intros x Bx B. apply (Ap x x Bx B), anc_refl.
      * done.
Qed.

Lemma computeDFS_spec fuel : forall v st,
  set m v -> length order <= pos v + fuel -> (forall x, below v x -> x ∉ visited st) ->
  exists st', computeDFS fuel Tr st v = Some st' /\ numbered (below v) st st'.
Proof.
  induction fuel as [| fuel IH]; intros v st Sv L Hv.
  - pose proof (pos_lt order ND v (set_order T v Sv)). lia.
  - cbn [computeDFS]. rewrite bool_decide_eq_false_2 by (apply Hv; split; [done | apply anc_refl]).
    destruct (computeDFS_children fuel v) with (cs := children Tr v)
      (st := {| numbers := numbers st; counter := S (counter st); visited := v :: visited st |})
      as (st' & E & R).
    + intros c st0 Hc Hd. apply Ch in Hc as [Ec Nc]. apply IH; [by eexists | | done].
      pose proof (child_pos v c Ec Nc). lia.
    + apply ChN.
    + done.
    + intros c x Hc B. cbn [visited]. rewrite elem_of_cons. pose proof Hc as [Ec Nc]%Ch.
      intros [-> | Q]; [by apply (below_root v c v) |]. apply (Hv x); [| done].
      apply below_cases; [done |]. right. by exists c.
    + unfold children in E. rewrite E. cbn [mbind option_bind]. eexists. split; [done |].
      eapply numbered_ext; [| apply (numbered_root _ v st st' ) in R; [exact R | | done]].
      * intros x. by rewrite below_cases.
      * intros x (c & Hc & B). pose proof Hc as [Ec Nc]%Ch. split; [by apply (below_root v c) |].
        eapply proj2, below_cases; [done |]. right. by exists c.
Qed.

End DFS.

Lemma consistent_graph F : well_formed F -> consistent F -> blocks F <> [] -> graph_ok F.
Proof.
  intros W C N. split; [done | | apply C].
  intros b c Hb Hc. apply (wf_closed _ W b); [done |]. by apply (co_succ _ C).
Qed.

(** ** Depths *)

Section Depth.
Context (entry : ref) (order : list ref).
Context (ND : NoDup order) (O0 : order !! 0 = Some entry).
Context (m : gmap ref ref) (T : tree entry order m).

Lemma depth_loop_tree b : set m b ->
  exists k, k <= pos order b /\ forall fuel (d : nat), k < fuel -> depth_loop fuel entry m b d = Some (d + k).
Proof.
  revert b. apply (tree_ind entry order m T).
  - exists 0. split; [lia |]. intros [| fuel] d L; [lia |]. cbn [depth_loop].
    rewrite N.eqb_refl. f_equal. lia.
  - intros b c Nb E L Sc (k & K & H). exists (S k). split; [lia |].
    intros [| fuel] d Lf; [lia |]. cbn [depth_loop]. rewrite (proj2 (N.eqb_neq _ _) Nb), E.
    rewrite (proj2 (N.eqb_neq c b)) by (intros ->; lia). rewrite H by lia. f_equal. lia.
Qed.

Lemma depth_loop_some b : exists k, depth_loop (S (length order)) entry m b 0 = Some k.
Proof.
  destruct (m !! b) as [c |] eqn:E.
  - assert (S : set m b) by by eexists. destruct (depth_loop_tree b S) as (k & K & H). exists k.
    rewrite H; [done |]. pose proof (pos_lt order ND b (set_order T b S)). lia.
  - exists 0. cbn [depth_loop]. destruct (N.eqb b entry); [done |]. by rewrite E.
Qed.

Lemma depth_loop_link b c k :
  b <> entry -> m !! b = Some c -> depth_loop (S (length order)) entry m c 0 = Some k ->
  depth_loop (S (length order)) entry m b 0 = Some (S k).
Proof.
  intros Nb E H.
  assert (S : set m b) by by eexists. destruct (t_link _ _ _ T _ _ E) as (_ & Sc & [? | L]); [done |].
  destruct (depth_loop_tree b S) as (k1 & K1 & H1), (depth_loop_tree c Sc) as (k2 & K2 & H2).
  pose proof (pos_lt order ND b (set_order T b S)). rewrite H2 in H by lia. simplify_eq.
  assert (Q : depth_loop (Datatypes.S (Datatypes.S (length order))) entry m b 0 = Some (Datatypes.S k2)).
  { cbn [depth_loop]. rewrite (proj2 (N.eqb_neq _ _) Nb), E.
    rewrite (proj2 (N.eqb_neq c b)) by (intros ->; lia). apply (H2 (Datatypes.S (length order)) 1). lia. }
  rewrite H1 in Q |- * by lia. done.
Qed.

End Depth.

Lemma depth_table (f : ref -> option nat) (l : list ref) :
  (forall b, is_Some (f b)) ->
  forall ds : gmap ref nat, exists ds' : gmap ref nat, fold_some (fun ds b => d ← f b; Some (<[b := d]> ds)) l ds = Some ds'
    /\ (forall b, b ∈ l -> ds' !! b = f b) /\ (forall b, b ∉ l -> ds' !! b = ds !! b).
Proof.
  intros Hf. induction l as [| x l IH]; intros ds; cbn [fold_some].
  - exists ds. split_and!; [done | | done]. intros b Hb. by apply not_elem_of_nil in Hb.
  - destruct (Hf x) as [d Ed]. rewrite Ed. cbn [mbind option_bind].
    destruct (IH (<[x := d]> ds)) as (ds' & -> & A & B). exists ds'. split_and!; [done | |].
    + intros b Hb. destruct (decide (b ∈ l)) as [Hl | Hl]; [by apply A |].
      apply elem_of_cons in Hb as [-> | Hb]; [| done]. rewrite B, lookup_insert_eq by done. done.
    + intros b Hb. apply not_elem_of_cons in Hb as [N Hb]. rewrite B by done.
      by rewrite lookup_insert_ne.
Qed.

(** ** The result of the analysis *)

Section Result.
Context (F : MIRFunction) (iteration : gmap ref ref -> list (ref * ref)).
Context (entry : ref) (rest : list ref).
Context (W : well_formed F) (C : consistent F) (EB : blocks F = entry :: rest).
Context (It : forall m, iteration m ≡ₚ map_to_list m).

Definition reachable b : Prop := exists l, path F entry b l.

(** What the tables of the analysis hold. *)
Record analyzed (order : list ref) (m : gmap ref ref) D : Prop := {
  an_order : rpo_ok F entry order;
  an_inv : Inv F entry order 0 m;
  an_stable : forall x, x ∈ order -> stable F entry m x;
  an_idoms : idoms D = m;
  an_tree : domTree D = build_tree iteration m;
  an_depths : forall b, b ∈ blocks F ->
    depths D !! b = depth_loop (S (length order)) entry m b 0;
  an_numbers : exists st, numbered m (below m entry)
    {| numbers := ∅; counter := 0; visited := [] |} st /\ dfsNumbers D = numbers st;
}.

Lemma graph : graph_ok F.
Proof. apply consistent_graph; [done | done | by rewrite EB]. Qed.

Lemma analyze_spec D0 : exists order m D, analyze F iteration D0 = Some D /\ analyzed order m D.
Proof.
  destruct (computeRPO_ok F entry rest graph EB) as (new & vis & E & R).
  unfold analyze. rewrite EB in E |- *. rewrite E. cbn [mbind option_bind]. set (order := reverse new) in *.
  destruct (loop_spec F entry order graph R) as (m & -> & I & St). cbn [mbind option_bind].
  pose proof (iv_tree _ _ _ _ _ I) as T. pose proof (ro_nodup _ _ _ R) as ND.
  pose proof (ro_entry _ _ _ R) as O0.
  destruct (depth_table (fun b => depth_loop (S (length order)) entry m b 0) (entry :: rest)) with (ds := (∅ : gmap ref nat))
    as (ds & -> & Ds & _).
  { intros b. destruct (depth_loop_some entry order ND m T b) as [k ->]. by eexists. }
  cbn [mbind option_bind].
  destruct (computeDFS_spec entry order ND m T (build_tree iteration m)
              (elem_of_children iteration It m) (NoDup_children iteration It m)
              (S (length order)) entry {| numbers := ∅; counter := 0; visited := [] |})
    as (st & -> & N).
  - eexists. apply (t_entry _ _ _ T).
  - lia.
  - intros x _ Q. by apply not_elem_of_nil in Q.
  - cbn [mbind option_bind]. exists order, m. eexists. split; [done |].
    split; try done; [by rewrite EB | by exists st].
Qed.

Section Tables.
Context (order : list ref) (m : gmap ref ref) (D : MIRDominance) (A : analyzed order m D).

Lemma reachable_order b : reachable b <-> b ∈ order.
Proof.
  rewrite (ro_reach _ _ _ (an_order _ _ _ A)). split.
  - intros [l P]. by apply path_walks in P.
  - induction 1 as [| c d _ [l P] E _]; [by exists [entry]; constructor |].
    exists (d :: l). by apply path_step with c.
Qed.

Lemma reachable_set b : reachable b <-> set m b.
Proof.
  rewrite reachable_order. split.
  - by apply (final_set F entry order m (an_inv _ _ _ A) (an_stable _ _ _ A)).
  - apply (set_order (iv_tree _ _ _ _ _ (an_inv _ _ _ A))).
Qed.

Lemma anc_reachable a b : reachable b -> anc m a b <-> dominator F entry a b.
Proof.
  intros H. apply reachable_order in H.
  by apply (anc_dominator F entry order graph (an_order _ _ _ A) m (an_inv _ _ _ A) (an_stable _ _ _ A)).
Qed.

Lemma entry_reachable : reachable entry.
Proof. exists [entry]. constructor. Qed.

Lemma below_entry x : below m entry x <-> reachable x.
Proof.
  rewrite reachable_set. split; [by intros [? _] |]. intros S. split; [done |].
  by apply (entry_anc entry order m (iv_tree _ _ _ _ _ (an_inv _ _ _ A))).
Qed.

Lemma dominates_anc a b : dominates D a b = true <-> a = b \/ reachable b /\ anc m a b.
Proof.
  unfold dominates. destruct (N.eqb_spec a b) as [-> | N]; [tauto |].
  destruct (an_numbers _ _ _ A) as (st & Nb & ->).
  pose proof (iv_tree _ _ _ _ _ (an_inv _ _ _ A)) as T.
  assert (Off : forall x, ~ reachable x -> numbers st !! x = None).
  { intros x Nx. rewrite (nb_same _ _ _ _ Nb) by (by rewrite below_entry). apply lookup_empty. }
  assert (On : forall x, is_Some (numbers st !! x) -> reachable x).
  { intros x S. destruct (decide (set m x)) as [Q | Q]; [by apply reachable_set |].
    exfalso. rewrite Off in S; [by destruct S |]. by rewrite reachable_set. }
  split.
  - destruct (numbers st !! a) as [[sa ea] |] eqn:Ea; [| done].
    destruct (numbers st !! b) as [[sb eb] |] eqn:Eb; [| done].
    rewrite andb_true_iff, !Nat.leb_le. intros Q. right.
    assert (Ra : reachable a) by (apply On; by eexists).
    assert (Rb : reachable b) by (apply On; by eexists). split; [done |].
    apply (nb_nest _ _ _ _ Nb a b sa ea sb eb); by try apply below_entry.
  - intros [? | [Rb An]]; [done |].
    assert (Ra : reachable a) by (apply reachable_set, (anc_set T (b := b)); [by apply reachable_set | done]).
    destruct (nb_range _ _ _ _ Nb a) as (sa & ea & Ea & _); [by apply below_entry |].
    destruct (nb_range _ _ _ _ Nb b) as (sb & eb & Eb & _); [by apply below_entry |].
    rewrite Ea, Eb, andb_true_iff, !Nat.leb_le.
    apply (nb_nest _ _ _ _ Nb a b sa ea sb eb); by try apply below_entry.
Qed.

Lemma dominates_paths a b :
  dominates D a b = true <-> a = b \/ reachable b /\ dominator F entry a b.
Proof.
  rewrite dominates_anc. split; (intros [? | [R H]]; [by left | right; split; [done |]]);
    by apply anc_reachable.
Qed.

End Tables.
End Result.
