(* ===== verification/DominanceClaims.v ===== *)
(** * The dominator tree: what the analysis promises

    Dominance, immediate dominators, children and depths, and the check of SSA form. *)

From S2P Require Import Prelude Diag HIRType MIR MIRFacts SimplifyCFG SimplifyCFGProps Dominance DominanceTree DominanceLoop DominanceProps.

Implicit Types (F : MIRFunction) (D : MIRDominance) (a b c d p r x y : ref).

(** What the analysis promises about the immediate dominators and the tree. *)
Record tree_spec F (entry : ref) D : Prop := {
  ts_entry : getIDom D entry = entry;
  ts_idom : forall b, b <> entry -> reachable F entry b ->
    getIDom D b <> b /\ dominator F entry (getIDom D b) b
    /\ forall a, a <> b -> dominator F entry a b -> dominator F entry a (getIDom D b);
  ts_off : forall b, ~ reachable F entry b -> getIDom D b = nullptr;
  ts_children : forall a c, c ∈ getChildren D a <->
    c <> entry /\ reachable F entry c /\ getIDom D c = a;
  ts_depth_entry : depths D !! entry = Some 0;
  ts_depth : forall b, b <> entry -> reachable F entry b ->
    exists k, depths D !! getIDom D b = Some k /\ depths D !! b = Some (S k);
  ts_depth_off : forall b, b ∈ blocks F -> ~ reachable F entry b -> depths D !! b = Some 0;
}.

(** The definition of a use: what is no instruction, or an instruction whose block is the
    block of the use or dominates it. *)
Definition available F (entry : ref) op useBlock : Prop :=
  forall J, insts F !! op = Some J ->
    i_parent J = useBlock \/ reachable F entry useBlock /\ dominator F entry (i_parent J) useBlock.

(** The uses that [verifySSA] looks at are available. *)
Definition ssa_form F (entry : ref) : Prop :=
  forall b i k, b ∈ blocks F -> i ∈ getInstructions b F -> kind_of i F = Some k ->
    match k with
    | PhiInst inc => forall v p, (v, p) ∈ inc -> available F entry v p
    | _ => forall op, op ∈ getOperands k -> available F entry op b
    end.

Section Claims.
Context (F : MIRFunction) (iteration : gmap ref ref -> list (ref * ref)).
Context (entry : ref) (rest : list ref).
Context (W : well_formed F) (C : consistent F) (EB : blocks F = entry :: rest).
Context (It : forall m, iteration m ≡ₚ map_to_list m).

Lemma entry_unset_self order m D b c :
  analyzed F iteration entry order m D -> m !! b = Some c -> b <> entry -> c <> b.
Proof.
  intros A E N ->. destruct (t_link _ _ _ (iv_tree _ _ _ _ _ (an_inv _ _ _ _ _ _ A)) _ _ E)
    as (_ & _ & [? | L]); [done | lia].
Qed.

Lemma tree_spec_analyzed order m D : analyzed F iteration entry order m D -> tree_spec F entry D.
Proof.
  intros A. pose proof (an_inv _ _ _ _ _ _ A) as I. pose proof (iv_tree _ _ _ _ _ I) as T.
  pose proof (an_order _ _ _ _ _ _ A) as R.
  pose proof (ro_nodup _ _ _ R) as ND. pose proof (ro_entry _ _ _ R) as O0.
  pose proof (reachable_set F iteration entry order m D A) as RS.
  pose proof (anc_reachable F iteration entry rest W C EB order m D A) as AR.
  assert (Id : forall b c, m !! b = Some c -> getIDom D b = c).
  { intros b c E. unfold getIDom. by rewrite (an_idoms _ _ _ _ _ _ A), E. }
  assert (Off : forall b, ~ reachable F entry b -> m !! b = None).
  { intros b N. destruct (m !! b) eqn:E; [| done]. exfalso. apply N, RS. by eexists. }
  assert (InF : forall b, reachable F entry b -> b ∈ blocks F).
  { intros b H. apply (ro_blocks _ _ _ R), (reachable_order F iteration entry order m D A), H. }
  split.
  - apply Id, (t_entry _ _ _ T).
  - intros b N H. pose proof H as [c E]%RS. rewrite (Id b c E).
    pose proof (entry_unset_self order m D b c A E N) as Nc. split_and!; [done | |].
    + apply AR; [done |]. apply anc_up with c; [done | apply anc_refl].
    + intros a Na Da. apply AR in Da; [| done]. apply AR.
      * apply RS. by apply (t_link _ _ _ T) in E as (_ & ? & _).
      * apply anc_inv in Da as [? | (c' & E' & ?)]; [done |]. by simplify_eq.
  - intros b N. unfold getIDom. by rewrite (an_idoms _ _ _ _ _ _ A), Off.
  - intros a c. unfold getChildren. rewrite (an_tree _ _ _ _ _ _ A).
    change (default [] (build_tree iteration m !! a)) with (children (build_tree iteration m) a).
    rewrite (elem_of_children iteration It). split.
    + intros [E N]. assert (Nc : c <> entry).
      { intros ->. rewrite (t_entry _ _ _ T) in E. by simplify_eq. }
      split_and!; [done | apply RS; by eexists | by apply Id].
    + intros (N & [d E]%RS & <-). rewrite (Id c d E). split; [done |].
      intros Q. by apply (entry_unset_self order m D c d A E N).
  - rewrite (an_depths _ _ _ _ _ _ A) by (apply InF, entry_reachable).
    cbn [depth_loop]. by rewrite N.eqb_refl.
  - intros b N H. pose proof H as [c E]%RS. rewrite (Id b c E).
    destruct (depth_loop_some entry order ND m T c) as [k K]. exists k.
    rewrite !(an_depths _ _ _ _ _ _ A).
    + split; [done |]. by apply (depth_loop_link entry order ND m T b c).
    + by apply InF.
    + apply InF, RS. by apply (t_link _ _ _ T) in E as (_ & ? & _).
  - intros b Hb N. rewrite (an_depths _ _ _ _ _ _ A) by done. cbn [depth_loop].
    destruct (N.eqb b entry); [done |]. by rewrite Off.
Qed.

Lemma use_ok_available order m D op u :
  analyzed F iteration entry order m D -> use_ok F D op u = true <-> available F entry op u.
Proof.
  intros A. unfold use_ok, available. destruct (insts F !! op) as [J |].
  - rewrite (dominates_paths F iteration entry rest W C EB order m D A).
    split; [by intros ? J' [= <-] | auto].
  - split; [by intros _ J' | done].
Qed.

Lemma verifySSA_form order m D :
  analyzed F iteration entry order m D -> verifySSA F D = true <-> ssa_form F entry.
Proof.
  intros A. pose proof (fun op u => use_ok_available order m D op u A) as UA.
  unfold verifySSA, ssa_form. rewrite forallb_forall. split.
  - intros H b i k Hb Hi K. specialize (H b). rewrite <- list_elem_of_In, forallb_forall in H.
    specialize (H Hb i). rewrite <- list_elem_of_In, K in H. specialize (H Hi).
    destruct k; cbv beta iota in H |- *; rewrite forallb_forall in H;
      first [intros v p Q; apply list_elem_of_In in Q; exact (proj1 (UA _ _) (H (v, p) Q))
            | intros o Q; apply list_elem_of_In, H in Q; exact (proj1 (UA _ _) Q)].
  - intros H b Hb. apply list_elem_of_In in Hb. apply forallb_forall. intros i Hi.
    apply list_elem_of_In in Hi. destruct (kind_of i F) as [k |] eqn:K; [| done].
    specialize (H b i k Hb Hi K).
    destruct k; cbv beta iota in H |- *; apply forallb_forall;
      first [intros [v p] Q; apply list_elem_of_In in Q; exact (proj2 (UA v p) (H v p Q))
            | intros o Q; apply list_elem_of_In in Q; exact (proj2 (UA _ _) (H _ Q))].
Qed.

(** C3: dominance is answered as it is defined: on a function with consistent edges the
    analysis ends, and [dominates a b] holds exactly when the two blocks are the same or
    [b] is reached from the entry and [a] is on every path from the entry to [b]. *)
Theorem dominates_correct :
  exists D, analyze F iteration newDominance = Some D
    /\ forall a b, dominates D a b = true <->
         a = b \/ (exists l, path F entry b l) /\ forall l, path F entry b l -> a ∈ l.
Proof.
  destruct (analyze_spec F iteration entry rest W C EB It newDominance) as (order & m & D & E & A).
  exists D. split; [done |]. intros a b.
  exact (dominates_paths F iteration entry rest W C EB order m D A a b).
Qed.

(** C26: the tree is the tree of immediate dominators: the entry is its own, the immediate
    dominator of any other reached block is a dominator of it that all its other dominators
    dominate, blocks that are not reached have none; the children of a block are those it
    immediately dominates, and the depth of a block is one more than that of its immediate
    dominator. *)
Theorem analyze_tree_spec :
  exists D, analyze F iteration newDominance = Some D /\ tree_spec F entry D.
Proof.
  destruct (analyze_spec F iteration entry rest W C EB It newDominance) as (order & m & D & E & A).
  exists D. split; [done |]. by apply (tree_spec_analyzed order m).
Qed.

(** C27: [verifySSA] refines the definition of SSA form on paths, for the operands it looks
    at: it accepts exactly the functions in which the block of the instruction that
    computes an operand is the block of the use, the incoming block for a phi, or is on
    every path from the entry to it. *)
Theorem verifySSA_correct :
  exists D, analyze F iteration newDominance = Some D
    /\ (verifySSA F D = true <-> ssa_form F entry).
Proof.
  destruct (analyze_spec F iteration entry rest W C EB It newDominance) as (order & m & D & E & A).
  exists D. split; [done |]. by apply (verifySSA_form order m).
Qed.

End Claims.

(** ** At concrete functions *)

(** A loop that is entered from both arms of a conditional: the blocks [4] and [5] form
    a cycle without a header. *)
Definition irreducible : MIRFunction :=
  {| insts := list_to_map [(11%N, inst_of (CondBranchInst 90 2 3));
                           (12%N, inst_of (BranchInst 4));
                           (13%N, inst_of (BranchInst 5));
                           (14%N, inst_of (CondBranchInst 90 5 6));
                           (15%N, inst_of (CondBranchInst 90 4 6));
                           (16%N, inst_of (ReturnInst nullptr))];
     bbs := list_to_map [(1%N, block_of [11%N]); (2%N, block_of [12%N]);
                         (3%N, block_of [13%N]); (4%N, block_of [14%N]);
                         (5%N, block_of [15%N]); (6%N, block_of [16%N])];
     blocks := [1%N; 2%N; 3%N; 4%N; 5%N; 6%N]; next_ref := 100%N |}.

Lemma irreducible_analyzed :
  well_formed (heal irreducible) /\ consistent (heal irreducible)
  /\ blocks (heal irreducible) = [1%N; 2%N; 3%N; 4%N; 5%N; 6%N].
Proof.
  split_and!; [apply well_formed_b_spec | apply consistent_b_spec |]; by vm_compute.
Qed.

Lemma dominates_correct_witness :
  exists D, analyze (heal irreducible) map_to_list newDominance = Some D
    /\ (dominates D 1 6, dominates D 4 6) = (true, false)
    /\ (exists l, path (heal irreducible) 1 6 l)
    /\ (forall l, path (heal irreducible) 1 6 l -> 1%N ∈ l).
Proof.
  destruct irreducible_analyzed as (W & C & B).
  destruct (dominates_correct (heal irreducible) map_to_list 1 _ W C B (fun m => reflexivity _))
    as (D & E & H).
  exists D. assert (Q : (D ← analyze (heal irreducible) map_to_list newDominance;
    Some (dominates D 1 6, dominates D 4 6)) = Some (true, false)) by by vm_compute.
  rewrite E in Q. injection Q as Q1 Q2. split; [exact E |]. split; [by rewrite Q1, Q2 |].
  apply H in Q1 as [Q1 | Q1]; [discriminate Q1 | exact Q1].
Defined.

Lemma analyze_tree_spec_witness :
  exists D, analyze (heal irreducible) map_to_list newDominance = Some D
    /\ tree_spec (heal irreducible) 1 D /\ getIDom D 6 = 1%N /\ getIDom D 5 = 1%N
    /\ depths D !! 6%N = Some 1.
Proof.
  destruct irreducible_analyzed as (W & C & B).
  destruct (analyze_tree_spec (heal irreducible) map_to_list 1 _ W C B (fun m => reflexivity _))
    as (D & E & H).
  exists D. assert (Q : (D ← analyze (heal irreducible) map_to_list newDominance;
    Some (getIDom D 6, getIDom D 5, depths D !! 6%N)) = Some (1%N, 1%N, Some 1)) by by vm_compute.
  rewrite E in Q. injection Q as Q1 Q2 Q3.
  exact (conj E (conj H (conj Q1 (conj Q2 Q3)))).
Defined.

Lemma verifySSA_correct_witness :
  exists D, analyze (heal irreducible) map_to_list newDominance = Some D
    /\ ssa_form (heal irreducible) 1.
Proof.
  destruct irreducible_analyzed as (W & C & B).
  destruct (verifySSA_correct (heal irreducible) map_to_list 1 _ W C B (fun m => reflexivity _))
    as (D & E & H).
  exists D. split; [exact E |]. apply H.
  assert (Q : (D ← analyze (heal irreducible) map_to_list newDominance;
    Some (verifySSA (heal irreducible) D)) = Some true) by by vm_compute.
  rewrite E in Q. cbn [mbind option_bind] in Q. exact (inj Some _ _ Q).
Defined.

(** An allocation in one arm of a conditional, addressed at the join. *)
Definition inst_in (b : ref) (k : InstKind) : MIRInst :=
  {| i_kind := k; i_type := nullptr; i_name := ""; i_loc := None; i_borrow := None; i_parent := b |}.

Definition misplaced : MIRFunction :=
  {| insts := list_to_map [(11%N, inst_in 1 (CondBranchInst 90 2 3));
                           (12%N, inst_in 2 (AllocaInst 80 8));
                           (22%N, inst_in 2 (BranchInst 4));
                           (13%N, inst_in 3 (BranchInst 4));
                           (14%N, inst_in 4 (GetElementPtrInst 12 [90%N]));
                           (24%N, inst_in 4 (ReturnInst 14))];
     bbs := list_to_map [(1%N, block_of [11%N]); (2%N, block_of [12%N; 22%N]);
                         (3%N, block_of [13%N]); (4%N, block_of [14%N; 24%N])];
     blocks := [1%N; 2%N; 3%N; 4%N]; next_ref := 100%N |}.

(** The check of SSA form does not look at every operand: it accepts a function in
    which an address computation at a join takes a pointer that only one of the arms
    computes. *)
Theorem verifySSA_misses_operands :
  exists D, analyze (heal misplaced) map_to_list newDominance = Some D
    /\ verifySSA (heal misplaced) D = true
    /\ kind_of 14 (heal misplaced) = Some (GetElementPtrInst 12 [90%N])
    /\ 14%N ∈ getInstructions 4 (heal misplaced)
    /\ ~ available (heal misplaced) 1 12 4.
Proof.
  assert (Q : (D ← analyze (heal misplaced) map_to_list newDominance;
    Some (verifySSA (heal misplaced) D)) = Some true) by by vm_compute.
  destruct (analyze (heal misplaced) map_to_list newDominance) as [D |]; [| discriminate Q].
  exists D. cbn [mbind option_bind] in Q. apply (inj Some) in Q. split_and!; [done | exact Q | by vm_compute | |].
  - change (getInstructions 4 (heal misplaced)) with [14%N; 24%N]. left.
  - intros A. assert (J : insts (heal misplaced) !! 12%N = Some (inst_in 2 (AllocaInst 80 8))) by by vm_compute.
    apply A in J as [Z | [_ Z]]; [discriminate Z |].
    assert (P : path (heal misplaced) 1 4 [4%N; 3%N; 1%N]).
    { apply path_step with 3%N; [apply path_step with 1%N; [constructor |] |].
      - by apply (subset_b_spec [3%N] (getSuccessors 1 (heal misplaced))); [| left].
      - by apply (subset_b_spec [4%N] (getSuccessors 3 (heal misplaced))); [| left]. }
    specialize (Z _ P). by apply (bool_decide_eq_true (2%N ∈ [4%N; 3%N; 1%N])) in Z.
Qed.
