(* ===== verification/MIRUses.v ===== *)
(** * Uses of values

    The operands of an instruction, what [replaceOperand] and [replaceAllUsesInFunction]
    do to them, and [fn_ok], the invariant that passes keep: consistent edges, terminators
    at the end of their blocks, and no operand that refers to a destroyed object. *)

From S2P Require Import Prelude Diag HIRType MIR MIRFacts SimplifyCFG SimplifyCFGProps.

Implicit Types (F G : MIRFunction) (b c i j o n v x : ref) (k : InstKind).

(** The references that [replaceOperand] replaces by any value. *)
Definition value_ops k : list ref :=
  match k with
  | BranchInst t => [t]
  | CondBranchInst c t f => [c; t; f]
  | SwitchInst c _ cs => c :: map fst cs
  | ReturnInst v => [v]
  | LoadInst p _ _ => [p]
  | StoreInst v p _ _ => [v; p]
  | GetElementPtrInst p ix => p :: ix
  | InsertValueInst a v _ => [a; v]
  | ExtractValueInst a _ => [a]
  | ARCInst _ o _ => [o]
  | StoreWeakInst v p => [v; p]
  | LoadWeakInst p => [p]
  | BinaryInst _ l r => [l; r]
  | CastInst _ v _ => [v]
  | CompareInst _ l r => [l; r]
  | FCmpInst _ l r => [l; r]
  | PhiInst inc => map fst inc
  | CallInst c ar _ => c :: ar
  | InvokeInst c ar n u => c :: n :: u :: ar
  | ResumeInst e => [e]
  | ThrowInst e u => [e; u]
  | InlineAsmInst _ _ ar _ => ar
  | MakeClosureInst f cs => f :: cs
  | MakeSharedInst o => [o]
  | SpawnInst c _ => [c]
  | AwaitInst p => [p]
  | AtomicLoadInst p _ => [p]
  | AtomicStoreInst v p _ => [v; p]
  | AtomicRMWInst _ p v _ => [p; v]
  | AtomicCmpXchgInst p e d _ _ => [p; e; d]
  | UnreachableInst | AllocaInst _ _ | LandingPadInst _ | FenceInst _ => []
  end.

(** The references that it replaces by blocks only, or not at all. *)
Definition fixed_ops k : list ref :=
  match k with
  | SwitchInst _ d cs => d :: map snd cs
  | PhiInst inc => map snd inc
  | ARCInst _ _ d => [d]
  | _ => []
  end.

Lemma subst_ref_not o n v : n <> o -> subst_ref o n v <> o.
Proof. intros N. unfold subst_ref. by destruct (N.eqb_spec v o). Qed.

Lemma subst_ref_other o n v : v <> o -> subst_ref o n v = v.
Proof. intros N. unfold subst_ref. by rewrite (proj2 (N.eqb_neq _ _) N). Qed.

Lemma map_subst_idem o n (l : list ref) :
  map (subst_ref o n) (map (subst_ref o n) l) = map (subst_ref o n) l.
Proof. rewrite map_map. apply map_ext. intros v. apply subst_ref_idem. Qed.

Lemma replaceOperand_idem o n k :
  replaceOperand false o n (replaceOperand false o n k) = replaceOperand false o n k.
Proof.
  destruct k; cbn [replaceOperand]; rewrite ?subst_ref_idem, ?map_subst_idem; try done;
    f_equal; rewrite map_map; apply map_ext; intros []; by rewrite ?subst_ref_idem.
Qed.

Lemma targets_ops k t : t ∈ targets k -> t ∈ value_ops k \/ t ∈ fixed_ops k.
Proof.
  destruct k; cbn [targets value_ops fixed_ops]; rewrite ?elem_of_cons, ?elem_of_nil; tauto.
Qed.

(** Every operand of an instruction that [replaceOperand] may replace by a value. *)
Definition map_values (f : ref -> ref) k : InstKind :=
  match k with
  | BranchInst t => BranchInst (f t)
  | CondBranchInst c t e => CondBranchInst (f c) (f t) (f e)
  | SwitchInst c d cs => SwitchInst (f c) d (map (fun '(v, b) => (f v, b)) cs)
  | ReturnInst v => ReturnInst (f v)
  | UnreachableInst => UnreachableInst
  | AllocaInst ty al => AllocaInst ty al
  | LoadInst p al vo => LoadInst (f p) al vo
  | StoreInst v p al vo => StoreInst (f v) (f p) al vo
  | GetElementPtrInst p ix => GetElementPtrInst (f p) (map f ix)
  | InsertValueInst a v ix => InsertValueInst (f a) (f v) ix
  | ExtractValueInst a ix => ExtractValueInst (f a) ix
  | ARCInst op o d => ARCInst op (f o) d
  | StoreWeakInst v p => StoreWeakInst (f v) (f p)
  | LoadWeakInst p => LoadWeakInst (f p)
  | BinaryInst op l r => BinaryInst op (f l) (f r)
  | CastInst op v off => CastInst op (f v) off
  | CompareInst p l r => CompareInst p (f l) (f r)
  | FCmpInst p l r => FCmpInst p (f l) (f r)
  | PhiInst inc => PhiInst (map (fun '(v, b) => (f v, b)) inc)
  | CallInst c ar va => CallInst (f c) (map f ar) va
  | InvokeInst c ar n u => InvokeInst (f c) (map f ar) (f n) (f u)
  | LandingPadInst ct => LandingPadInst ct
  | ResumeInst e => ResumeInst (f e)
  | ThrowInst e u => ThrowInst (f e) (f u)
  | InlineAsmInst a c ar vo => InlineAsmInst a c (map f ar) vo
  | MakeClosureInst g cs => MakeClosureInst (f g) (map f cs)
  | MakeSharedInst o => MakeSharedInst (f o)
  | SpawnInst c tk => SpawnInst (f c) tk
  | AwaitInst p => AwaitInst (f p)
  | AtomicLoadInst p o => AtomicLoadInst (f p) o
  | AtomicStoreInst v p o => AtomicStoreInst (f v) (f p) o
  | AtomicRMWInst op p v o => AtomicRMWInst op (f p) (f v) o
  | AtomicCmpXchgInst p e d o1 o2 => AtomicCmpXchgInst (f p) (f e) (f d) o1 o2
  | FenceInst o => FenceInst o
  end.

Lemma replaceOperand_map o n k : replaceOperand false o n k = map_values (subst_ref o n) k.
Proof. by destruct k. Qed.

Lemma map_values_map f g k : map_values f (map_values g k) = map_values (fun v => f (g v)) k.
Proof.
  destruct k; cbn [map_values]; rewrite ?map_map; try done; f_equal; apply map_ext; by intros [].
Qed.

Lemma map_values_ext f g k : (forall v, f v = g v) -> map_values f k = map_values g k.
Proof.
  intros E. assert (Em : forall l, map f l = map g l) by (intros l; by apply map_ext).
  assert (Ep : forall l : list (ref * ref), map (fun '(v, b) => (f v, b)) l = map (fun '(v, b) => (g v, b)) l).
  { intros l. apply map_ext. intros []. by rewrite E. }
  destruct k; cbn [map_values]; by rewrite ?Em, ?Ep, ?E.
Qed.

Lemma map_values_id k : map_values (fun v => v) k = k.
Proof.
  assert (Ep : forall l : list (ref * ref), map (fun '(v, b) => (v, b)) l = l).
  { intros l. rewrite <- (map_id l) at 2. apply map_ext. by intros []. }
  destruct k; cbn [map_values]; by rewrite ?map_id, ?Ep.
Qed.

Lemma value_ops_map f k : value_ops (map_values f k) = map f (value_ops k).
Proof.
  destruct k; cbn [map_values value_ops map]; try done;
    repeat match goal with |- _ :: _ = _ :: _ => f_equal end;
    rewrite !map_map; apply map_ext; by intros [].
Qed.

Lemma fixed_ops_map f k : fixed_ops (map_values f k) = fixed_ops k.
Proof.
  destruct k; cbn [map_values fixed_ops]; try done;
    repeat match goal with |- _ :: _ = _ :: _ => f_equal end;
    rewrite !map_map; apply map_ext; by intros [].
Qed.

Lemma targets_map f k : (forall t, t ∈ targets k -> f t = t) -> targets (map_values f k) = targets k.
Proof.
  intros H. destruct k; try done; cbn [map_values targets] in *;
    rewrite ?H by (rewrite !elem_of_cons; tauto); try done.
  f_equal. rewrite map_map. apply map_ext. by intros [].
Qed.

(** Replacing by something that is no block. *)
Lemma value_ops_replace o n k :
  value_ops (replaceOperand false o n k) = map (subst_ref o n) (value_ops k).
Proof. by rewrite replaceOperand_map, value_ops_map. Qed.

Lemma fixed_ops_replace o n k : fixed_ops (replaceOperand false o n k) = fixed_ops k.
Proof. by rewrite replaceOperand_map, fixed_ops_map. Qed.

Lemma targets_replace o n k :
  (forall t, t ∈ targets k -> t <> o) -> targets (replaceOperand false o n k) = targets k.
Proof. intros H. rewrite replaceOperand_map. apply targets_map. intros t Ht. by apply subst_ref_other, H. Qed.

(** ** [replaceAllUsesInFunction] *)

(** The instructions that the blocks hold. *)
Definition placed F i : Prop := exists b, b ∈ blocks F /\ i ∈ getInstructions b F.

(** The assignments of a loop over some instructions. *)
Lemma upd_insts_spec (f : MIRInst -> MIRInst) (l : list ref) : (forall J, f (f J) = f J) -> forall F,
  let G := fold_left (fun F i => upd_inst i f F) l F in
  blocks G = blocks F /\ bbs G = bbs F /\ next_ref G = next_ref F
  /\ forall i, insts G !! i = if decide (i ∈ l) then f <$> insts F !! i else insts F !! i.
Proof.
  intros Id. induction l as [| j l IH]; intros F; cbn [fold_left].
  - by split_and!.
  - destruct (IH (upd_inst j f F)) as (-> & -> & -> & H). split_and!; try done.
    intros i. rewrite H, insts_upd_inst. destruct (decide (i = j)) as [-> | N].
    + rewrite (decide_True (P := j ∈ j :: l)) by left. case_decide; [| done].
      destruct (insts F !! j); [cbn; by rewrite Id | done].
    + apply decide_ext. rewrite elem_of_cons. tauto.
Qed.

Lemma insts_replaceAllUses o n F :
  bbs F !! n = None ->
  let replaced J := with_kind (replaceOperand false o n (i_kind J)) J in
  let G := replaceAllUsesInFunction o n F in
  blocks G = blocks F /\ bbs G = bbs F /\ next_ref G = next_ref F
  /\ (forall i, placed F i -> insts G !! i = replaced <$> insts F !! i)
  /\ (forall i, ~ placed F i -> insts G !! i = insts F !! i).
Proof.
  intros Nb replaced. unfold replaceAllUsesInFunction. rewrite bool_decide_eq_false_2 by (rewrite Nb; by intros []).
  fold replaced. assert (Id : forall J, replaced (replaced J) = replaced J).
  { intros J. unfold replaced. cbn [with_kind i_kind]. by rewrite replaceOperand_idem. }
  assert (Out : forall bl F0, bbs F0 = bbs F ->
    let G := fold_left (fun F b => fold_left (fun F i => upd_inst i replaced F) (getInstructions b F) F) bl F0 in
    blocks G = blocks F0 /\ bbs G = bbs F /\ next_ref G = next_ref F0
    /\ (forall i, (exists b, b ∈ bl /\ i ∈ getInstructions b F) -> insts G !! i = replaced <$> insts F0 !! i)
    /\ (forall i, ~ (exists b, b ∈ bl /\ i ∈ getInstructions b F) -> insts G !! i = insts F0 !! i)).
  { induction bl as [| b bl IH]; intros F0 E0 G; subst G; cbn [fold_left].
    - split_and!; try done. intros i (b & Hb & _). by apply not_elem_of_nil in Hb.
    - destruct (upd_insts_spec replaced (getInstructions b F0) Id F0) as (H1 & H2 & H3 & H4).
      assert (Eg : getInstructions b F0 = getInstructions b F) by (unfold getInstructions; by rewrite E0).
      destruct (IH (fold_left (fun F i => upd_inst i replaced F) (getInstructions b F0) F0)) as (I1 & I2 & I3 & I4 & I5);
        [by rewrite H2 |].
      split_and!; [by rewrite I1 | done | by rewrite I3 | |].
      + intros i Hex. destruct (decide (Exists (fun c => i ∈ getInstructions c F) bl)) as [Ex | Ex].
        * rewrite I4, H4 by (by apply Exists_exists in Ex). case_decide; [| done].
          destruct (insts F0 !! i); [cbn; by rewrite Id | done].
        * rewrite I5, H4 by (intros Q; by apply Ex, Exists_exists). rewrite decide_True; [done |].
          destruct Hex as (c & [-> | Hc]%elem_of_cons & Hi); [by rewrite Eg |].
          exfalso. apply Ex, Exists_exists. by exists c.
      + intros i Hex. rewrite I5, H4.
        * rewrite decide_False; [done |]. rewrite Eg. intros Hi. apply Hex. exists b. split; [left | done].
        * intros (c & Hc & Hi). apply Hex. exists c. split; [by right | done]. }
  destruct (Out (blocks F) F eq_refl) as (H1 & H2 & H3 & H4 & H5). by split_and!.
Qed.

#[export] Instance placed_dec F i : Decision (placed F i).
Proof.
  refine (cast_if (decide (Exists (fun b => i ∈ getInstructions b F) (blocks F)))); abstract (unfold placed; by rewrite <- Exists_exists).
Defined.

Lemma kind_of_replaceAllUses o n F i :
  bbs F !! n = None ->
  let G := replaceAllUsesInFunction o n F in
  blocks G = blocks F /\ bbs G = bbs F /\ next_ref G = next_ref F
  /\ (placed F i -> kind_of i G = replaceOperand false o n <$> kind_of i F)
  /\ (~ placed F i -> kind_of i G = kind_of i F)
  /\ (is_Some (insts G !! i) <-> is_Some (insts F !! i)).
Proof.
  intros Nb. destruct (insts_replaceAllUses o n F Nb) as (H1 & H2 & H3 & H4 & H5).
  split_and!; [done | done | done | | |].
  - intros P. unfold kind_of. rewrite H4 by done. by destruct (insts F !! i).
  - intros P. unfold kind_of. by rewrite H5.
  - destruct (decide (placed F i)); [rewrite H4 by done; by rewrite fmap_is_Some | by rewrite H5].
Qed.

(** The instructions of some blocks, each with its block. *)
Definition placements l F : list (ref * ref) :=
  concat (map (fun b => map (fun i => (b, i)) (getInstructions b F)) l).

Lemma elem_of_placements l F b i : (b, i) ∈ placements l F <-> b ∈ l /\ i ∈ getInstructions b F.
Proof.
  unfold placements. rewrite list_elem_of_In, in_concat. split.
  - intros (m & Hm & Hi). apply in_map_iff in Hm as (c & <- & Hc).
    apply in_map_iff in Hi as (j & [= <- <-] & Hj). by rewrite !list_elem_of_In.
  - intros [Hb Hi]. exists (map (fun i => (b, i)) (getInstructions b F)). split.
    + apply in_map_iff. exists b. by rewrite <- list_elem_of_In.
    + apply in_map_iff. exists i. by rewrite <- list_elem_of_In.
Qed.

Lemma NoDup_placements R F :
  NoDup R -> (forall b, b ∈ R -> NoDup (getInstructions b F)) -> NoDup (placements R F).
Proof.
  unfold placements. induction R as [| b R IH]; intros N Ni; cbn [map concat]; [apply NoDup_nil_2 |].
  apply NoDup_cons in N as [Nb N]. apply NoDup_app. split_and!.
  - apply NoDup_fmap_2; [by intros ? ? [=] | apply Ni; left].
  - intros [c i] Hc Hp. apply elem_of_placements in Hp as [Hp _].
    apply list_elem_of_fmap in Hc as (j & [= -> ->] & _). done.
  - apply IH; [done |]. intros c Hc. apply Ni. by right.
Qed.

(** ** The invariant of a function *)

(** A reference that may be followed: null, an object of the function, or a value [ext]
    that lives outside it. *)
Definition alive (ext : ref -> Prop) F v : Prop :=
  v = nullptr \/ is_Some (insts F !! v) \/ has_block v F \/ ext v.

Record fn_ok (ext : ref -> Prop) (next : ref) F : Prop := {
  ok_wf : well_formed F;
  ok_edges : consistent F;
  ok_inst_fresh : forall v, is_Some (insts F !! v) -> (v < next)%N;
  ok_block_fresh : forall v, has_block v F -> (v < next)%N;
  ok_ext_fresh : forall v, ext v -> (v < next)%N;
  ok_disjoint : forall v, is_Some (insts F !! v) -> ~ has_block v F /\ ~ ext v;
  ok_ext_block : forall v, ext v -> ~ has_block v F;
  ok_held : forall b i, b ∈ blocks F -> i ∈ getInstructions b F -> is_Some (insts F !! i);
  ok_nodup : forall b, b ∈ blocks F -> NoDup (getInstructions b F);
  ok_apart : forall b c i, b ∈ blocks F -> c ∈ blocks F ->
    i ∈ getInstructions b F -> i ∈ getInstructions c F -> b = c;
  ok_term : forall b i k, b ∈ blocks F -> i ∈ getInstructions b F -> i <> terminator b F ->
    kind_of i F = Some k -> targets k = [];
  ok_values : forall b i k v, b ∈ blocks F -> i ∈ getInstructions b F -> kind_of i F = Some k ->
    v ∈ value_ops k -> alive ext F v;
  ok_fixed : forall b i k v, b ∈ blocks F -> i ∈ getInstructions b F -> kind_of i F = Some k ->
    v ∈ fixed_ops k -> v = nullptr \/ has_block v F \/ ext v;
  ok_nonterm : forall b i k v k', b ∈ blocks F -> i ∈ getInstructions b F -> kind_of i F = Some k ->
    v ∈ value_ops k -> kind_of v F = Some k' -> targets k' = [];
  ok_branch : forall b i c t f, b ∈ blocks F -> i ∈ getInstructions b F ->
    kind_of i F = Some (CondBranchInst c t f) -> t <> nullptr /\ f <> nullptr;
  ok_labels : forall b i k v, b ∈ blocks F -> i ∈ getInstructions b F -> kind_of i F = Some k ->
    v ∈ value_ops k -> has_block v F -> v ∈ targets k;
}.

(** More values outside, at free addresses. *)
Lemma fn_ok_extend (ext ext' : ref -> Prop) next next' F :
  fn_ok ext next F -> (forall v, ext v -> ext' v) ->
  (forall v, ext' v -> (ext v \/ (next <= v)%N) /\ (v < next')%N) -> (next <= next')%N ->
  fn_ok ext' next' F.
Proof.
  intros [A1 A2 A3 A4 A5 A6 A7 A8 A9 A10 A11 A12 A13 A14 A15 A16] H1 H2 L. split; try done.
  - intros v Hv. specialize (A3 v Hv). lia.
  - intros v Hv. specialize (A4 v Hv). lia.
  - intros v Hv. by apply H2 in Hv as [_ ?].
  - intros v Hv. destruct (A6 v Hv) as [N1 N2]. split; [done |]. intros Q.
    apply H2 in Q as [[? | Q] _]; [done |]. specialize (A3 v Hv). lia.
  - intros v Hv Hb. apply H2 in Hv as [[Hv | Hv] _]; [by apply (A7 v) |]. specialize (A4 v Hb). lia.
  - intros b i k v Hb Hi K Hv. destruct (A12 b i k v Hb Hi K Hv) as [? | [? | [? | ?]]];
      unfold alive; auto.
  - intros b i k v Hb Hi K Hv. destruct (A13 b i k v Hb Hi K Hv) as [? | [? | ?]]; auto.
Qed.

(** The instructions of a block read through an [erase]. *)
Lemma getInstructions_upd b f F c :
  getInstructions c (upd_block b f F) =
    if decide (c = b) then match bbs F !! c with Some B => instructions (f B) | None => [] end
    else getInstructions c F.
Proof.
  unfold getInstructions. rewrite bbs_upd_block. case_decide; [| done]. by destruct (bbs F !! c).
Qed.

Lemma terminator_in b F : getInstructions b F <> [] -> terminator b F ∈ getInstructions b F.
Proof.
  intros N. unfold terminator. destruct (last (getInstructions b F)) as [i |] eqn:E.
  - apply last_Some in E as [l ->]. apply elem_of_app. right. left.
  - by apply last_None in E.
Qed.

(** The targets of a terminator are its targets that are not null. *)
Lemma term_targets_kind b F k :
  kind_of (terminator b F) F = Some k -> term_targets b F = filter (fun t => t <> nullptr) (targets k).
Proof. intros K. unfold term_targets, inst_targets. by rewrite K. Qed.

Lemma fn_ok_null ext next F : fn_ok ext next F -> kind_of nullptr F = None.
Proof. intros O. unfold kind_of. by rewrite (wf_null _ (ok_wf _ _ _ O)). Qed.

(** An instruction of a block is no target of a terminator. *)
Lemma fn_ok_target ext next F b i t :
  fn_ok ext next F -> b ∈ blocks F -> t ∈ term_targets b F -> is_Some (insts F !! i) -> t <> i.
Proof.
  intros O Hb Ht Hi ->. apply (ok_disjoint _ _ _ O) in Hi as [N _]. apply N.
  apply (wf_heap _ (ok_wf _ _ _ O)). by apply (wf_closed _ (ok_wf _ _ _ O) b).
Qed.

(** A block that has no terminator transfers control nowhere, nor does one whose last
    instruction goes. *)
Lemma term_targets_erase ext next F b i :
  fn_ok ext next F -> b ∈ blocks F -> i ∈ getInstructions b F ->
  (forall k, kind_of i F = Some k -> targets k = []) ->
  inst_targets (default nullptr (last (erase_all i (getInstructions b F)))) F = term_targets b F.
Proof.
  intros O Hb Hi Ti.
  destruct (last (getInstructions b F)) as [t |] eqn:E;
    [| apply last_None in E; rewrite E in Hi; by apply not_elem_of_nil in Hi].
  apply last_Some in E as [l E].
  assert (Et : terminator b F = t) by (unfold terminator; by rewrite E, last_snoc).
  unfold term_targets. rewrite Et. rewrite E at 1. unfold erase_all. rewrite filter_app.
  destruct (decide (t = i)) as [-> | N].
  - rewrite (filter_cons_False _ i []) by (intros Q; by apply Q). rewrite app_nil_r.
    unfold inst_targets at 2. destruct (kind_of i F) as [k |] eqn:K.
    + rewrite (Ti k eq_refl), filter_nil.
      destruct (last (filter (fun y => y <> i) l)) as [j |] eqn:Ej.
      * assert (Hj : j ∈ l /\ j <> i).
        { apply last_Some in Ej as [l' Ej]. assert (Q : j ∈ filter (fun y => y <> i) l)
            by (rewrite Ej; apply elem_of_app; right; left).
          apply list_elem_of_filter in Q as [? ?]. done. }
        cbn [from_option id]. unfold inst_targets. destruct (kind_of j F) as [kj |] eqn:Kj; [| done].
        destruct Hj as [Hj Nj].
        rewrite (ok_term _ _ _ O b j kj); [done | done | | by rewrite Et | done].
        rewrite E. apply elem_of_app. by left.
      * cbn [from_option id]. unfold inst_targets. by rewrite (fn_ok_null _ _ _ O).
    + exfalso. destruct (ok_held _ _ _ O b i Hb Hi) as [J EJ]. unfold kind_of in K. by rewrite EJ in K.
  - rewrite (filter_cons_True _ t []) by done. by rewrite filter_nil, last_snoc.
Qed.

(** ** Phis of a block *)

(** A kind that [removeIncoming] may have made of another. *)
Definition fewer b k k0 : Prop :=
  k = k0 \/ exists inc, k0 = PhiInst inc /\ k = PhiInst (removeIncoming b inc).

Lemma fewer_trans b k1 k2 k3 : fewer b k1 k2 -> fewer b k2 k3 -> fewer b k1 k3.
Proof.
  intros [-> | (inc & -> & ->)]; [done |]. intros [<- | (inc' & -> & [= ->])]; right.
  - by exists inc.
  - exists inc'. split; [done |]. f_equal. unfold removeIncoming.
    induction inc' as [| q l IH]; [done |]. rewrite !filter_cons. case_decide as D; [| done].
    rewrite filter_cons, decide_True by done. by f_equal.
Qed.

Lemma fewer_ops b k k0 : fewer b k k0 ->
  (forall v, v ∈ value_ops k -> v ∈ value_ops k0) /\ (forall v, v ∈ fixed_ops k -> v ∈ fixed_ops k0)
  /\ targets k = targets k0.
Proof.
  intros [-> | (inc & -> & ->)]; [done |]. cbn [value_ops fixed_ops targets].
  split_and!; [| | done]; intros v Hv; apply list_elem_of_fmap in Hv as (q & -> & Hq);
    apply list_elem_of_filter in Hq as [_ Hq]; by apply list_elem_of_fmap_2.
Qed.

Lemma upd_phis_kind d b F j :
  let G := upd_phis d (removeIncoming b) F in
  (is_Some (insts G !! j) <-> is_Some (insts F !! j))
  /\ forall k, kind_of j G = Some k -> exists k0, kind_of j F = Some k0 /\ fewer b k k0.
Proof.
  unfold upd_phis. generalize (leading_phis (getInstructions d F) F) as l. intros l. revert F.
  induction l as [| i l IH]; intros F; cbn [fold_left].
  - split; [done |]. intros k K. exists k. split; [done | by left].
  - match goal with |- context [fold_left _ l ?F1] => destruct (IH F1) as [I1 I2] end. split.
    + rewrite I1, insts_upd_inst. case_decide; [by rewrite fmap_is_Some | done].
    + intros k K. apply I2 in K as (k1 & K1 & L1).
      rewrite kind_of_upd_inst in K1. case_decide as D; [subst j | by exists k1].
      apply fmap_Some in K1 as (J & EJ & ->). exists (i_kind J). unfold kind_of. rewrite EJ.
      split; [done |]. eapply fewer_trans; [exact L1 |].
      destruct (i_kind J) eqn:EK; rewrite ?EK; try (by left). right. eexists. by split.
Qed.

(** ** Deciding the invariant on a concrete function *)

Definition placed_b F (P : ref -> ref -> InstKind -> bool) : bool :=
  forallb (fun b => forallb (fun i =>
    match kind_of i F with Some k => P b i k | None => true end) (getInstructions b F)) (blocks F).

Lemma placed_b_spec F P : placed_b F P = true ->
  forall b i k, b ∈ blocks F -> i ∈ getInstructions b F -> kind_of i F = Some k -> P b i k = true.
Proof.
  unfold placed_b. rewrite forallb_forall. intros H b i k Hb Hi K.
  apply list_elem_of_In, H in Hb. rewrite forallb_forall in Hb.
  apply list_elem_of_In, Hb in Hi. by rewrite K in Hi.
Qed.

Definition fn_ok_b (ext : list ref) (next : ref) F : bool :=
  well_formed_b F && consistent_b F
  && forallb (fun v => N.ltb v next && negb (bool_decide (is_Some (bbs F !! v)))
                       && negb (bool_decide (v ∈ ext))) (map fst (map_to_list (insts F)))
  && forallb (fun v => N.ltb v next && negb (bool_decide (v ∈ ext))) (map fst (map_to_list (bbs F)))
  && forallb (fun v => N.ltb v next) ext
  && forallb (fun b => bool_decide (NoDup (getInstructions b F))
       && forallb (fun i => bool_decide (is_Some (insts F !! i))) (getInstructions b F)
       && forallb (fun c => N.eqb b c ||
            forallb (fun i => negb (bool_decide (i ∈ getInstructions c F))) (getInstructions b F))
          (blocks F)) (blocks F)
  && placed_b F (fun b i k => N.eqb i (terminator b F) || bool_decide (targets k = []))
  && placed_b F (fun b i k =>
       forallb (fun v => (N.eqb v nullptr || bool_decide (is_Some (insts F !! v))
                          || bool_decide (is_Some (bbs F !! v)) || bool_decide (v ∈ ext))
                         && match kind_of v F with
                            | Some k' => bool_decide (targets k' = [])
                            | None => true
                            end) (value_ops k))
  && placed_b F (fun b i k =>
       forallb (fun v => N.eqb v nullptr || bool_decide (is_Some (bbs F !! v)) || bool_decide (v ∈ ext))
         (fixed_ops k))
  && placed_b F (fun b i k =>
       match k with
       | CondBranchInst c t f => negb (N.eqb t nullptr) && negb (N.eqb f nullptr)
       | _ => true
       end)
  && placed_b F (fun b i k =>
       forallb (fun v => negb (bool_decide (is_Some (bbs F !! v))) || bool_decide (v ∈ targets k))
         (value_ops k)).

Lemma keys_spec {A} (m : gmap ref A) (P : ref -> bool) :
  forallb P (map fst (map_to_list m)) = true -> forall v, is_Some (m !! v) -> P v = true.
Proof.
  rewrite forallb_forall. intros H v [a E]. apply H. apply list_elem_of_In.
  apply list_elem_of_fmap. exists (v, a). split; [done | by apply elem_of_map_to_list].
Qed.

Lemma forallb_elem {A} (P : A -> bool) (l : list A) :
  forallb P l = true -> forall y, y ∈ l -> P y = true.
Proof. rewrite forallb_forall. intros H y Hy. by apply H, list_elem_of_In. Qed.

Lemma fn_ok_b_spec (ext : ref -> Prop) l next F :
  (forall v, ext v <-> v ∈ l) -> fn_ok_b l next F = true -> fn_ok ext next F.
Proof.
  intros E H. unfold fn_ok_b in H. rewrite !andb_true_iff in H.
  destruct H as [[[[[[[[[[H1 H2] H3] H4] H5] H6] H7] H8] H9] H10] H11].
  pose proof (keys_spec _ _ H3) as K3. pose proof (keys_spec _ _ H4) as K4.
  pose proof (forallb_elem _ _ H5) as K5. pose proof (forallb_elem _ _ H6) as K6.
  pose proof (placed_b_spec _ _ H7) as K7. pose proof (placed_b_spec _ _ H8) as K8.
  pose proof (placed_b_spec _ _ H9) as K9. pose proof (placed_b_spec _ _ H10) as K10.
  pose proof (placed_b_spec _ _ H11) as K11. clear H3 H4 H5 H6 H7 H8 H9 H10 H11. setoid_rewrite andb_true_iff in K3. setoid_rewrite andb_true_iff in K3.
  setoid_rewrite andb_true_iff in K4. setoid_rewrite andb_true_iff in K6. setoid_rewrite andb_true_iff in K6.
  split.
  - by apply well_formed_b_spec.
  - by apply consistent_b_spec.
  - intros v Hv. apply N.ltb_lt, (K3 v Hv).
  - intros v Hv. apply N.ltb_lt, (K4 v Hv).
  - intros v Hv. apply E in Hv. by apply N.ltb_lt, K5.
  - intros v Hv. destruct (K3 v Hv) as [[_ Q1] Q2]. rewrite negb_true_iff, bool_decide_eq_false in Q1, Q2.
    by rewrite E.
  - intros v Hv Hb. destruct (K4 v Hb) as [_ Q]. rewrite negb_true_iff, bool_decide_eq_false in Q.
    by apply Q, E.
  - intros b i Hb Hi. destruct (K6 b Hb) as [[_ Q] _].
    by apply (forallb_elem _ _ Q), bool_decide_eq_true in Hi.
  - intros b Hb. destruct (K6 b Hb) as [[Q _] _]. by apply bool_decide_eq_true in Q.
  - intros b c i Hb Hc Hi Hi'. destruct (K6 b Hb) as [_ Q]. apply (forallb_elem _ _ Q) in Hc.
    apply orb_true_iff in Hc as [Hc | Hc]; [by apply N.eqb_eq in Hc |].
    apply (forallb_elem _ _ Hc) in Hi. rewrite negb_true_iff, bool_decide_eq_false in Hi. done.
  - intros b i k Hb Hi N K. specialize (K7 b i k Hb Hi K). apply orb_true_iff in K7 as [Q | Q].
    + by apply N.eqb_eq in Q.
    + by apply bool_decide_eq_true in Q.
  - intros b i k v Hb Hi K Hv. specialize (K8 b i k Hb Hi K). apply (forallb_elem _ _ K8) in Hv.
    apply andb_true_iff in Hv as [Q _]. rewrite !orb_true_iff, !bool_decide_eq_true, N.eqb_eq in Q.
    unfold alive, has_block. rewrite E. tauto.
  - intros b i k v Hb Hi K Hv. specialize (K9 b i k Hb Hi K). apply (forallb_elem _ _ K9) in Hv.
    rewrite !orb_true_iff, !bool_decide_eq_true, N.eqb_eq in Hv. unfold has_block. rewrite E. tauto.
  - intros b i k v k' Hb Hi K Hv Kv. specialize (K8 b i k Hb Hi K). apply (forallb_elem _ _ K8) in Hv.
    apply andb_true_iff in Hv as [_ Q]. rewrite Kv in Q. by apply bool_decide_eq_true in Q.
  - intros b i c t f Hb Hi K. specialize (K10 b i _ Hb Hi K). cbn in K10.
    rewrite andb_true_iff, !negb_true_iff, !N.eqb_neq in K10. done.
  - intros b i k v Hb Hi K Hv HB. specialize (K11 b i k Hb Hi K). apply (forallb_elem _ _ K11) in Hv.
    rewrite orb_true_iff, negb_true_iff, bool_decide_eq_false, bool_decide_eq_true in Hv.
    by destruct Hv.
Qed.
