(* ===== verification/Rewire.v ===== *)
(** * Another terminator for a block

    A pass that gives a block another terminator, takes its entries out of some phis and
    repairs the recorded edges keeps the invariant of the function. *)

From S2P Require Import Prelude Diag HIRType MIR MIRFacts SimplifyCFG SimplifyCFGProps MIRModule MIRUses.

Implicit Types (F H : MIRFunction) (b c i j v x y : ref) (k : InstKind).

(** The terminator of [b] is [t'] with the subclass [k']; every other instruction is as it
    was, up to entries for [b] in phis. *)
Record rewired F b (t' : ref) k' H : Prop := {
  rw_blocks : blocks H = blocks F;
  rw_has : forall x, has_block x H <-> has_block x F;
  rw_instructions : forall x, getInstructions x H =
    if decide (x = b) then removelast (getInstructions b F) ++ [t'] else getInstructions x F;
  rw_insts : forall j, is_Some (insts H !! j) <-> j = t' \/ j <> terminator b F /\ is_Some (insts F !! j);
  rw_new : kind_of t' H = Some k';
  rw_kinds : forall j k, j <> t' -> kind_of j H = Some k -> exists k0, kind_of j F = Some k0 /\ fewer b k k0;
  rw_succ : forall x y, x ∈ blocks F ->
    y ∈ getSuccessors x H <-> if decide (x = b) then y ∈ targets k' else y ∈ getSuccessors x F;
  rw_pred : forall y x, y ∈ blocks F ->
    x ∈ getPredecessors y H <-> if decide (x = b) then y ∈ targets k' else x ∈ getPredecessors y F;
}.

Section Rewire.
Context (ext : ref -> Prop) (n n' : ref) (F H : MIRFunction) (b t' : ref) (k0 k' : InstKind).
Context (O : fn_ok ext n F) (Hb : b ∈ blocks F).
Context (K0 : kind_of (terminator b F) F = Some k0) (T0 : targets k0 <> []).
Context (New : t' = terminator b F /\ n' = n \/ t' = n /\ n' = N.succ n).
Context (R : rewired F b t' k' H).
Context (Tk : forall t, t ∈ targets k' -> t <> nullptr /\ t ∈ blocks F).
Context (Vk : forall v, v ∈ value_ops k' -> v ∈ targets k' \/ v ∈ value_ops k0 /\ ~ has_block v F).
Context (Fk : forall v, v ∈ fixed_ops k' -> v ∈ fixed_ops k0).

Abbreviation t0 := (terminator b F).

Lemma rw_last : last (getInstructions b F) = Some t0.
Proof.
  unfold terminator. destruct (last (getInstructions b F)) eqn:E; [done |]. exfalso.
  revert K0. unfold terminator. rewrite E. cbn. by rewrite (fn_ok_null _ _ _ O).
Qed.

Lemma rw_in : t0 ∈ getInstructions b F.
Proof. apply terminator_in. intros E. pose proof rw_last as L. by rewrite E in L. Qed.

Lemma rw_term_lt : (t0 < n)%N.
Proof. apply (ok_inst_fresh _ _ _ O), (ok_held _ _ _ O b), rw_in. done. Qed.

Lemma rw_split : exists l, getInstructions b F = l ++ [t0]
  /\ removelast (getInstructions b F) = l /\ NoDup l /\ t0 ∉ l.
Proof.
  pose proof rw_last as L. apply last_Some in L as [l E]. exists l.
  pose proof (ok_nodup _ _ _ O b Hb) as N. rewrite E in N.
  apply NoDup_app in N as (N1 & N2 & _). split_and!; [done | by rewrite E, removelast_last | done |].
  intros Q. apply (N2 _ Q). left.
Qed.

(** The new terminator is the old one or is at a free address. *)
Lemma rw_elsewhere x j : x ∈ blocks F -> j ∈ getInstructions x F -> j <> t0 -> j <> t'.
Proof.
  intros Hx Hj N ->. destruct New as [[E _] | [E _]]; [done |].
  apply (ok_held _ _ _ O x _ Hx), (ok_inst_fresh _ _ _ O) in Hj. lia.
Qed.

Lemma rw_in_inv x j : x ∈ blocks F -> j ∈ getInstructions x H ->
  x = b /\ j = t' \/ j <> t' /\ j <> t0 /\ j ∈ getInstructions x F.
Proof.
  intros Hx Hj. rewrite (rw_instructions _ _ _ _ _ R) in Hj.
  destruct rw_split as (l & E & El & _ & Nl). case_decide as D.
  - subst x. rewrite El in Hj. apply elem_of_app in Hj as [Hj | Hj].
    + assert (Hj' : j ∈ getInstructions b F) by (rewrite E; apply elem_of_app; by left).
      assert (N : j <> t0) by (by intros ->).
      right. split_and!; [by apply (rw_elsewhere b) | done | done].
    + apply list_elem_of_singleton in Hj. by left.
  - assert (N : j <> t0). { intros ->. apply D. apply (ok_apart _ _ _ O x b t0); [done | done | done | apply rw_in]. }
    right. split_and!; [by apply (rw_elsewhere x) | done | done].
Qed.

Lemma rw_new_inst : is_Some (insts H !! t').
Proof. apply (rw_insts _ _ _ _ _ R). by left. Qed.

Lemma rw_null : insts H !! nullptr = None.
Proof.
  destruct (insts H !! nullptr) eqn:E; [| done]. exfalso.
  assert (S : is_Some (insts H !! nullptr)) by by eexists. apply (rw_insts _ _ _ _ _ R) in S as [S | [_ [? S]]].
  - pose proof rw_term_lt. destruct New as [[E' _] | [E' _]].
    + rewrite E' in S. assert (Z : is_Some (insts F !! t0)) by (apply (ok_held _ _ _ O b), rw_in; done).
      rewrite <- S, (wf_null _ (ok_wf _ _ _ O)) in Z. by destruct Z.
    + unfold nullptr in S. lia.
  - by rewrite (wf_null _ (ok_wf _ _ _ O)) in S.
Qed.

Lemma rw_term_targets x : x ∈ blocks F ->
  term_targets x H = if decide (x = b) then targets k' else term_targets x F.
Proof.
  intros Hx. case_decide as D.
  - subst x. unfold term_targets, terminator, inst_targets.
    rewrite (rw_instructions _ _ _ _ _ R), decide_True, last_snoc by done. cbn [from_option id].
    rewrite (rw_new _ _ _ _ _ R). apply filter_full. intros t Ht. by apply Tk.
  - assert (Et : terminator x H = terminator x F).
    { unfold terminator. by rewrite (rw_instructions _ _ _ _ _ R), decide_False. }
    unfold term_targets. rewrite Et. unfold inst_targets.
    destruct (decide (getInstructions x F = [])) as [E | NE].
    { unfold terminator. rewrite E. cbn. unfold kind_of at 1. rewrite rw_null. cbn.
      by rewrite (fn_ok_null _ _ _ O). }
    pose proof (terminator_in _ _ NE) as Hin.
    assert (Nt : terminator x F <> t0).
    { intros E. apply D, (ok_apart _ _ _ O x b t0); [done | done | by rewrite <- E | apply rw_in]. }
    destruct (kind_of (terminator x F) H) as [k |] eqn:E.
    + apply (rw_kinds _ _ _ _ _ R) in E as (k1 & E1 & L); [| by apply (rw_elsewhere x)].
      rewrite E1. by destruct (fewer_ops _ _ _ L) as (_ & _ & ->).
    + exfalso. assert (S : is_Some (insts H !! terminator x F)).
      { apply (rw_insts _ _ _ _ _ R). right. split; [done | by apply (ok_held _ _ _ O x)]. }
      unfold kind_of in E. destruct S as [J EJ]. by rewrite EJ in E.
Qed.

(** A reference that is no terminator stays alive. *)
Lemma rw_alive v : alive ext F v -> v <> t0 -> alive ext H v.
Proof.
  intros [? | [? | [? | ?]]] N; unfold alive; rewrite (rw_has _ _ _ _ _ R), (rw_insts _ _ _ _ _ R); auto.
Qed.

(** No instruction of a block has a terminator as its operand. *)
Lemma rw_not_used x j k v : x ∈ blocks F -> j ∈ getInstructions x F -> kind_of j F = Some k ->
  v ∈ value_ops k -> v <> t0 /\ v <> t'.
Proof.
  intros Hx Hj K Hv. assert (N0 : v <> t0).
  { intros ->. by apply T0, (ok_nonterm _ _ _ O x j k t0). }
  split; [done |]. intros ->. destruct New as [[E _] | [E _]]; [done |].
  destruct (ok_values _ _ _ O x j k t' Hx Hj K Hv) as [Q | [Q | [Q | Q]]].
  - pose proof rw_term_lt. unfold nullptr in Q. lia.
  - apply (ok_inst_fresh _ _ _ O) in Q. lia.
  - apply (ok_block_fresh _ _ _ O) in Q. lia.
  - apply (ok_ext_fresh _ _ _ O) in Q. lia.
Qed.

(** An operand of an instruction of the new function is one of the old function that stays
    alive, or a target of the new terminator. *)
Lemma rw_operand x j k v : x ∈ blocks F -> j ∈ getInstructions x H -> kind_of j H = Some k ->
  v ∈ value_ops k ->
  j = t' /\ k = k' /\ v ∈ targets k'
  \/ (exists j' k1, j' ∈ getInstructions x F /\ kind_of j' F = Some k1 /\ v ∈ value_ops k1
        /\ (has_block v F -> targets k = targets k1 /\ v ∈ targets k))
     /\ v <> t0 /\ v <> t'.
Proof.
  intros Hx Hj K Hv. destruct (rw_in_inv x j Hx Hj) as [[-> ->] | (N1 & N2 & Hj')].
  - rewrite (rw_new _ _ _ _ _ R) in K. injection K as <-. destruct (Vk v Hv) as [Q | [Q Nl]]; [by left |].
    right. split; [exists t0, k0; split_and!; [apply rw_in | done | done | done] |].
    apply (rw_not_used b t0 k0); [done | apply rw_in | done | done].
  - apply (rw_kinds _ _ _ _ _ R) in K as (k1 & K1 & L); [| done].
    destruct (fewer_ops _ _ _ L) as (V & _ & Et). right. split.
    + exists j, k1. split_and!; [done | done | by apply V |]. intros Hl. split; [done |]. rewrite Et.
      apply (ok_labels _ _ _ O x j k1); [done | done | done | by apply V | done].
    + apply (rw_not_used x j k1); [done | done | done | by apply V].
Qed.

Lemma rw_fresh v : is_Some (insts H !! v) -> (v < n')%N /\ ~ has_block v F /\ ~ ext v.
Proof.
  pose proof rw_term_lt as L. intros [-> | [_ Hv]]%(rw_insts _ _ _ _ _ R).
  - destruct New as [[-> ->] | [-> ->]].
    + split; [done |]. apply (ok_disjoint _ _ _ O), (ok_held _ _ _ O b); [done | apply rw_in].
    + split; [lia |]. split; intros Q; [apply (ok_block_fresh _ _ _ O) in Q | apply (ok_ext_fresh _ _ _ O) in Q]; lia.
  - split; [| by apply (ok_disjoint _ _ _ O)]. apply (ok_inst_fresh _ _ _ O) in Hv.
    destruct New as [[_ ->] | [_ ->]]; lia.
Qed.

Lemma rw_wf : well_formed H.
Proof.
  pose proof (ok_wf _ _ _ O) as W. split; rewrite ?(rw_blocks _ _ _ _ _ R).
  - intros x Hx. by apply (rw_has _ _ _ _ _ R), (wf_heap _ W).
  - apply rw_null.
  - intros x y Hx Hy. rewrite rw_term_targets in Hy by done. case_decide.
    + by apply Tk.
    + by apply (wf_closed _ W x).
Qed.

Lemma rw_consistent : consistent H.
Proof.
  pose proof (ok_edges _ _ _ O) as C. split; rewrite ?(rw_blocks _ _ _ _ _ R).
  - intros x y Hx. rewrite (rw_succ _ _ _ _ _ R x y Hx), rw_term_targets by done.
    case_decide; [done |]. by apply (co_succ _ C).
  - intros y x Hy. rewrite (rw_pred _ _ _ _ _ R y x Hy). case_decide as D.
    + subst x. rewrite (rw_succ _ _ _ _ _ R b y Hb), decide_True by done. tauto.
    + rewrite (co_pred _ C y x Hy). split; intros [Hx Q]; (split; [done |]).
      * apply (rw_succ _ _ _ _ _ R); [done |]. by rewrite decide_False.
      * apply (rw_succ _ _ _ _ _ R) in Q; [| done]. by rewrite decide_False in Q.
Qed.

Lemma rw_nodup x : x ∈ blocks F -> NoDup (getInstructions x H).
Proof.
  intros Hx. rewrite (rw_instructions _ _ _ _ _ R). case_decide; [| by apply (ok_nodup _ _ _ O)].
  destruct rw_split as (l & E & -> & N & Nt). apply NoDup_app. split_and!; [done | | apply NoDup_singleton].
  intros j Hj ->%list_elem_of_singleton.
  apply (rw_elsewhere b t'); [done | rewrite E; apply elem_of_app; by left | by intros -> | done].
Qed.

Lemma rewired_ok : fn_ok ext n' H.
Proof.
  pose proof O as [A1 A2 A3 A4 A5 A6 A7 A8 A9 A10 A11 A12 A13 A14 A15 A16].
  assert (Ln : (n <= n')%N) by (destruct New as [[_ ->] | [_ ->]]; lia).
  split; rewrite ?(rw_blocks _ _ _ _ _ R).
  - apply rw_wf.
  - apply rw_consistent.
  - intros v Hv. by apply rw_fresh.
  - intros v Hv%(rw_has _ _ _ _ _ R). specialize (A4 v Hv). lia.
  - intros v Hv. specialize (A5 v Hv). lia.
  - intros v Hv. rewrite (rw_has _ _ _ _ _ R). by apply rw_fresh.
  - intros v Hv. rewrite (rw_has _ _ _ _ _ R). by apply A7.
  - intros x j Hx Hj. apply (rw_insts _ _ _ _ _ R).
    destruct (rw_in_inv x j Hx Hj) as [[_ ->] | (_ & N & Hj')]; [by left |].
    right. split; [done |]. by apply (A8 x).
  - apply rw_nodup.
  - intros x y j Hx Hy Hj Hj'.
    destruct (rw_in_inv x j Hx Hj) as [[Ex E1] | (N1 & _ & Q1)],
      (rw_in_inv y j Hy Hj') as [[Ey E2] | (N2 & _ & Q2)]; [congruence .. |]. by apply (A10 x y j).
  - intros x j k Hx Hj Nt E. destruct (rw_in_inv x j Hx Hj) as [[-> ->] | (N1 & N2 & Hj')].
    + exfalso. apply Nt. unfold terminator. by rewrite (rw_instructions _ _ _ _ _ R), decide_True, last_snoc.
    + apply (rw_kinds _ _ _ _ _ R) in E as (k1 & E1 & L); [| done].
      destruct (fewer_ops _ _ _ L) as (_ & _ & ->). apply (A11 x j k1); [done | done | | done].
      intros Q. apply Nt. unfold terminator at 1. rewrite (rw_instructions _ _ _ _ _ R).
      case_decide as D; [| done]. subst x. done.
  - intros x j k v Hx Hj E Hv.
    destruct (rw_operand x j k v Hx Hj E Hv) as [(_ & _ & Q) | ((j' & k1 & Hj' & K1 & Q & _) & N & _)].
    + right. right. left. apply (rw_has _ _ _ _ _ R), (wf_heap _ A1), Tk, Q.
    + apply rw_alive; [by apply (A12 x j' k1) | done].
  - intros x j k v Hx Hj E Hv. rewrite (rw_has _ _ _ _ _ R).
    destruct (rw_in_inv x j Hx Hj) as [[-> ->] | (N1 & N2 & Hj')].
    + rewrite (rw_new _ _ _ _ _ R) in E. injection E as <-. apply (A13 b t0 k0); [done | apply rw_in | done | by apply Fk].
    + apply (rw_kinds _ _ _ _ _ R) in E as (k1 & E1 & L); [| done].
      destruct (fewer_ops _ _ _ L) as (_ & V & _). by apply (A13 x j k1), V.
  - intros x j k v k2 Hx Hj E Hv Ev.
    destruct (rw_operand x j k v Hx Hj E Hv) as [(_ & _ & Q) | ((j' & k1 & Hj' & K1 & Q & _) & N & N')].
    + exfalso. apply Tk in Q as [_ Q]. apply (wf_heap _ A1) in Q.
      destruct (rw_fresh v) as (_ & Nb & _); [| by apply Nb].
      unfold kind_of in Ev. destruct (insts H !! v); [by eexists | done].
    + apply (rw_kinds _ _ _ _ _ R) in Ev as (k3 & K3 & L); [| done].
      destruct (fewer_ops _ _ _ L) as (_ & _ & ->). by apply (A14 x j' k1 v).
  - intros x j c0 t1 f1 Hx Hj E. destruct (rw_in_inv x j Hx Hj) as [[-> ->] | (N1 & N2 & Hj')].
    + rewrite (rw_new _ _ _ _ _ R) in E. injection E as E.
      split; apply Tk; rewrite E; cbn [targets]; [left | right; left].
    + apply (rw_kinds _ _ _ _ _ R) in E as (k1 & E1 & [<- | (inc & _ & [=])]); [| done].
      by apply (A15 x j c0).
  - intros x j k v Hx Hj E Hv Lv. apply (rw_has _ _ _ _ _ R) in Lv.
    destruct (rw_operand x j k v Hx Hj E Hv) as [(_ & -> & Q) | ((j' & k1 & Hj' & K1 & Q & L) & N & N')]; [done |].
    by apply L.
Qed.

End Rewire.

(** ** Replacing a conditional branch by a branch *)

Section NewBranch.
Context (F : MIRFunction) (n b i t : ref) (J : MIRInst).
Context (KJ : i_kind J = BranchInst t) (Nt : t <> nullptr).
Context (Hb : has_block b F) (Ht : has_block t F) (L : last (getInstructions b F) = Some i) (Ni : i <> n).

Let F1 : MIRFunction := snd (new_inst J (with_next n F)).
Abbreviation G := (addInstruction b n (pop_back b F1)).

Lemma nb_pop : pop_back b F1 = free_inst i (upd_block b
  (fun B => with_instructions (removelast (instructions B)) B) F1).
Proof. unfold pop_back. change (getInstructions b F1) with (getInstructions b F). by rewrite L. Qed.

Lemma nb_eq : G =
  upd_block b (fun B => with_instructions (instructions B ++ [n]) B)
    (addPredecessor t b (addSuccessor b t (upd_inst n (setParent b) (pop_back b F1)))).
Proof.
  unfold addInstruction.
  assert (E : insts (pop_back b F1) !! n = Some J).
  { rewrite nb_pop. unfold free_inst. cbn [insts set_insts].
    rewrite lookup_delete_ne by done. apply lookup_insert_eq. }
  rewrite E, KJ. cbn [targets wire fold_left]. by rewrite (proj2 (N.eqb_neq _ _) Nt).
Qed.

Lemma nb_blocks : blocks G = blocks F.
Proof. rewrite nb_eq, nb_pop. done. Qed.

Lemma nb_next : next_ref G = N.succ n.
Proof. rewrite nb_eq, nb_pop. done. Qed.

Lemma nb_has x : has_block x G <-> has_block x F.
Proof.
  rewrite nb_eq. unfold addPredecessor, addSuccessor. rewrite !has_block_upd, nb_pop.
  apply (has_block_upd b _ F1).
Qed.

Lemma nb_insts j : is_Some (insts G !! j) <-> j = n \/ j <> i /\ is_Some (insts F !! j).
Proof.
  rewrite nb_eq. change (is_Some (insts (upd_inst n (setParent b) (pop_back b F1)) !! j) <->
    j = n \/ j <> i /\ is_Some (insts F !! j)).
  rewrite insts_upd_inst, nb_pop. unfold free_inst. cbn [insts set_insts].
  case_decide as E; [subst j |].
  - rewrite lookup_delete_ne by done. cbn. rewrite lookup_insert_eq. split; [by left | by eexists].
  - destruct (decide (j = i)) as [-> | Nj].
    + rewrite lookup_delete_eq. split; [by intros [] | tauto].
    + rewrite lookup_delete_ne by done. cbn. rewrite lookup_insert_ne by done. tauto.
Qed.

Lemma nb_kind_new : kind_of n G = Some (BranchInst t).
Proof.
  rewrite nb_eq. change (kind_of n (upd_inst n (setParent b) (pop_back b F1)) = Some (BranchInst t)).
  unfold kind_of. rewrite insts_upd_inst, decide_True by done. rewrite nb_pop.
  unfold free_inst. cbn [insts set_insts]. rewrite lookup_delete_ne by done. cbn.
  rewrite lookup_insert_eq. cbn. by rewrite KJ.
Qed.

Lemma nb_kind j : j <> n -> j <> i -> kind_of j G = kind_of j F.
Proof.
  intros N1 N2. rewrite nb_eq.
  change (kind_of j (upd_inst n (setParent b) (pop_back b F1)) = kind_of j F).
  unfold kind_of. rewrite insts_upd_inst, decide_False by done. rewrite nb_pop.
  unfold free_inst. cbn [insts set_insts]. rewrite lookup_delete_ne by done. cbn.
  by rewrite lookup_insert_ne.
Qed.

Lemma nb_instructions x : getInstructions x G =
  if decide (x = b) then removelast (getInstructions b F) ++ [n] else getInstructions x F.
Proof.
  rewrite nb_eq. set (H := addPredecessor t b _).
  assert (E : getInstructions x H = getInstructions x (pop_back b F1)).
  { unfold H. rewrite (sc_instructions _ _ (same_code_addPredecessor t b _)).
    by rewrite (sc_instructions _ _ (same_code_addSuccessor b t _)). }
  assert (Q : getInstructions x (pop_back b F1) =
    if decide (x = b) then removelast (getInstructions b F) else getInstructions x F).
  { rewrite nb_pop. change (getInstructions x (free_inst i ?f)) with (getInstructions x f).
    rewrite getInstructions_upd. case_decide as D; [subst x | done].
    unfold getInstructions. change (bbs F1) with (bbs F). by destruct (bbs F !! b). }
  rewrite getInstructions_upd. case_decide as D; [subst x | by rewrite E, Q].
  rewrite Q in E. unfold getInstructions at 1 in E.
  assert (HB : has_block b H).
  { unfold H, addPredecessor, addSuccessor. rewrite !has_block_upd. change (has_block b (pop_back b F1)).
    rewrite nb_pop. apply (has_block_upd b _ F1). exact Hb. }
  destruct HB as [B EB]. rewrite EB in E |- *. simpl. by rewrite E.
Qed.

Lemma nb_edges x c :
  (c ∈ getSuccessors x G <-> c ∈ getSuccessors x F \/ x = b /\ c = t)
  /\ (c ∈ getPredecessors x G <-> c ∈ getPredecessors x F \/ x = t /\ c = b).
Proof.
  assert (S : getSuccessors x (pop_back b F1) = getSuccessors x F).
  { rewrite nb_pop. change (getSuccessors x (free_inst i ?f)) with (getSuccessors x f).
    by rewrite getSuccessors_upd. }
  assert (P : getPredecessors x (pop_back b F1) = getPredecessors x F).
  { rewrite nb_pop. change (getPredecessors x (free_inst i ?f)) with (getPredecessors x f).
    by rewrite getPredecessors_upd. }
  assert (HB : forall y, has_block y (pop_back b F1) <-> has_block y F).
  { intros y. rewrite nb_pop. apply (has_block_upd b _ F1). }
  rewrite nb_eq, getSuccessors_upd, getPredecessors_upd by done. split.
  - rewrite getSuccessors_addPredecessor, elem_of_addSuccessor.
    change (getSuccessors x (upd_inst n (setParent b) ?f)) with (getSuccessors x f). rewrite S.
    assert (HB' : has_block b (upd_inst n (setParent b) (pop_back b F1))) by by apply HB. tauto.
  - rewrite elem_of_addPredecessor, getPredecessors_addSuccessor.
    change (getPredecessors x (upd_inst n (setParent b) ?f)) with (getPredecessors x f). rewrite P.
    assert (HB' : has_block t (addSuccessor b t (upd_inst n (setParent b) (pop_back b F1)))).
    { apply has_block_upd. by apply HB. } tauto.
Qed.

End NewBranch.
