(* ===== verification/ConstFold.v ===== *)
(** * Constant folding

    [lib/middle/mir/passes/ConstantFoldingPass.cpp]: the scan for globals that are written
    or escape, the replacement of loads of the others by their initializers, the folding of
    instructions whose operands are constants, and of branches on constants.  [None] is an
    undefined behaviour of the C++ (a signed overflow, a null dereference) or a chain of
    casts longer than the fuel. *)

From S2P Require Import Prelude Diag HIRType MIR MIRModule.
From Stdlib Require Import SpecFloat.
#[local] Open Scope Z_scope.

(** ** Arithmetic *)

(** What folding two constant operands gives: nothing, the bits of a constant, or an
    operation that C++ does not define. *)
Inductive Outcome : Type :=
  | NotFolded
  | Folded (bits : Z)
  | Undefined.

(** [static_cast<int64_t>] of a [uint64_t] is [i64]; an [int64_t] result must be in range. *)
Definition in_i64 (z : Z) : bool := (- 2 ^ 63 <=? z) && (z <? 2 ^ 63).
Definition signed_result (z : Z) : Outcome := if in_i64 z then Folded (u64 z) else Undefined.

Definition fold_signed (op : Opcode.t) (lVal rVal : Z) : Outcome :=
  match op with
  | Opcode.Add => signed_result (lVal + rVal)
  | Opcode.Sub => signed_result (lVal - rVal)
  | Opcode.Mul => signed_result (lVal * rVal)
  | Opcode.Div => if rVal =? 0 then NotFolded else signed_result (Z.quot lVal rVal)
  | Opcode.Mod =>
      if rVal =? 0 then NotFolded
      else if in_i64 (Z.quot lVal rVal) then Folded (u64 (Z.rem lVal rVal)) else Undefined
  | _ => NotFolded
  end.

Definition fold_unsigned (op : Opcode.t) (lVal rVal : Z) : Outcome :=
  match op with
  | Opcode.Add => Folded (u64 (lVal + rVal))
  | Opcode.Sub => Folded (u64 (lVal - rVal))
  | Opcode.Mul => Folded (u64 (lVal * rVal))
  | Opcode.Div => if rVal =? 0 then NotFolded else Folded (lVal / rVal)
  | Opcode.Mod => if rVal =? 0 then NotFolded else Folded (lVal mod rVal)
  | _ => NotFolded
  end.

(** The integer math of [BinaryInst], on the payloads of the constants. *)
Definition fold_int (isSigned : bool) (op : Opcode.t) (l r : Z) : Outcome :=
  if isSigned then fold_signed op (i64 l) (i64 r) else fold_unsigned op l r.

(** The switch of [CompareInst], the same for both signs. *)
Definition compare_values (pred : CmpPredicate.t) (lVal rVal : Z) : bool :=
  match pred with
  | CmpPredicate.EQ => lVal =? rVal
  | CmpPredicate.NE => negb (lVal =? rVal)
  | CmpPredicate.LT => lVal <? rVal
  | CmpPredicate.LE => lVal <=? rVal
  | CmpPredicate.GT => rVal <? lVal
  | CmpPredicate.GE => rVal <=? lVal
  | _ => false
  end.

Definition fold_icmp (isSigned : bool) (pred : CmpPredicate.t) (l r : Z) : bool :=
  if isSigned then compare_values pred (i64 l) (i64 r) else compare_values pred l r.

(** The comparisons and operators of [double]. *)
Definition prec : Z := 53.
Definition emax : Z := 1024.

Definition fold_fcmp (pred : FCmpPredicate.t) (lVal rVal : double) : bool :=
  match pred with
  | FCmpPredicate.OEQ | FCmpPredicate.UEQ => SFeqb lVal rVal
  | FCmpPredicate.ONE | FCmpPredicate.UNE => negb (SFeqb lVal rVal)
  | FCmpPredicate.OLT | FCmpPredicate.ULT => SFltb lVal rVal
  | FCmpPredicate.OLE | FCmpPredicate.ULE => SFleb lVal rVal
  | FCmpPredicate.OGT | FCmpPredicate.UGT => SFltb rVal lVal
  | FCmpPredicate.OGE | FCmpPredicate.UGE => SFleb rVal lVal
  end.

Definition fold_float (op : Opcode.t) (lVal rVal : double) : option double :=
  match op with
  | Opcode.Add | Opcode.FAdd => Some (SFadd prec emax lVal rVal)
  | Opcode.Sub | Opcode.FSub => Some (SFsub prec emax lVal rVal)
  | Opcode.Mul | Opcode.FMul => Some (SFmul prec emax lVal rVal)
  | Opcode.Div | Opcode.FDiv => Some (SFdiv prec emax lVal rVal)
  | _ => None
  end.

Section Pass.
Context (fuel : nat) (argType : ref -> TypePtr).

(** ** Following casts *)

(** [while (val) { ... else break; }]. *)
Fixpoint follow (step : ref -> option ref) (fuel : nat) (val : ref) : option ref :=
  match fuel with
  | O => None
  | S fuel =>
      if N.eqb val nullptr then Some val
      else match step val with Some val => follow step fuel val | None => Some val end
  end.

Definition const_cast (M : MIRModule) (val : ref) : option ref :=
  match const_of val M with
  | Some (ConstantBitCast v) | Some (ConstantAnyCast v) | Some (ConstantArrayToSlice v)
  | Some (ConstantSliceToArray v) => Some v
  | _ => None
  end.

Definition cast_step (M : MIRModule) (F : MIRFunction) (val : ref) : option ref :=
  match kind_of val F with
  | Some (CastInst _ v _) => Some v
  | _ => const_cast M val
  end.

Definition base_step (M : MIRModule) (F : MIRFunction) (val : ref) : option ref :=
  match kind_of val F with
  | Some (GetElementPtrInst p _) => Some p
  | _ => cast_step M F val
  end.

Definition unwrapCasts (M : MIRModule) (F : MIRFunction) : ref -> option ref :=
  follow (cast_step M F) fuel.
Definition getBasePointer (M : MIRModule) (F : MIRFunction) : ref -> option ref :=
  follow (base_step M F) fuel.

(** ** Globals *)

(** The values through which an instruction may write or leak a global. *)
Definition leaked (k : InstKind) : list ref :=
  match k with
  | StoreInst v p _ _ => [p; v]
  | CallInst _ args _ | InvokeInst _ args _ _ => args
  | MakeClosureInst _ cs => cs
  | _ => []
  end.

Definition scan_value (M : MIRModule) (F : MIRFunction) (mutated : list ref) (v : ref) :
    option (list ref) :=
  g ← getBasePointer M F v; Some (if is_global g M then add_unique g mutated else mutated).

Definition scan_inst (M : MIRModule) (F : MIRFunction) (mutated : list ref) (i : ref) :
    option (list ref) :=
  match kind_of i F with
  | Some k => fold_some (scan_value M F) (leaked k) mutated
  | None => Some mutated
  end.

Definition scan_function (M : MIRModule) (mutated : list ref) (f : ref) : option (list ref) :=
  let F := body f M in
  fold_some (fun m b => fold_some (scan_inst M F) (getInstructions b F) m) (blocks F) mutated.

(** [erase]: the instruction leaves its block and is destroyed. *)
Definition erase_inst (b i : ref) (F : MIRFunction) : MIRFunction :=
  free_inst i (upd_block b (fun B => with_instructions (erase_all i (instructions B)) B) F).

(** [replaceAllUsesInFunction(func, inst, folded); insts.erase(it);]. *)
Definition replace_erase (b i folded : ref) (F : MIRFunction) : MIRFunction :=
  erase_inst b i (replaceAllUsesInFunction i folded F).

(** The value a load of a global is replaced by. *)
Definition load_value (M : MIRModule) (init : ref) (loadType : TypePtr) : ref * MIRModule :=
  match consts M !! init with
  | Some c =>
      if N.eqb (c_type c) loadType then (init, M)
      else match c_kind c with
           | ConstantNull => getOrInsertConstant ConstantNull loadType M
           | _ => getOrInsertConstant (ConstantBitCast init) loadType M
           end
  | None => (init, M)
  end.

Definition fold_load (g init b : ref) (st : bool * MIRModule * MIRFunction) (i : ref) :
    bool * MIRModule * MIRFunction :=
  let '(changed, M, F) := st in
  match insts F !! i with
  | Some J =>
      match i_kind J with
      | LoadInst p _ vol =>
          if negb vol && N.eqb p g then
            let '(replacement, M) := load_value M init (i_type J) in
            (true, M, replace_erase b i replacement F)
          else st
      | _ => st
      end
  | None => st
  end.

Definition inlinable (M : MIRModule) (init : ref) : bool :=
  match const_of init M with
  | Some (ConstantMap _) | Some (ConstantSlice _) | Some (ConstantArray _)
  | Some (ConstantStruct _) | Some (ConstantString _) => false
  | _ => true
  end.

(** The blocks of a function, each with the instructions it has when its turn comes. *)
Definition each_inst (f : ref -> bool * MIRModule * MIRFunction -> ref -> bool * MIRModule * MIRFunction)
    (st : bool * MIRModule * MIRFunction) : bool * MIRModule * MIRFunction :=
  fold_left (fun st b => fold_left (f b) (getInstructions b (snd st)) st) (blocks (snd st)) st.

Definition inline_global (mutated : list ref) (st : bool * MIRModule) (g : ref) : bool * MIRModule :=
  let '(changed, M) := st in
  match globs M !! g with
  | Some G =>
      if negb (N.eqb (initializer G) nullptr) && negb (isVolatileFlag G)
         && negb (bool_decide (g ∈ mutated)) && inlinable M (initializer G)
      then
        fold_left (fun '(changed, M) f =>
          let '(changed, M, F) := each_inst (fold_load g (initializer G)) (changed, M, body f M) in
          (changed, set_body f F M)) (fst (getFunctions M)) (changed, M)
      else st
  | None => st
  end.

(** ** Instructions *)

(** [isSigned()] of an integer type, or a text with an [i] in it. *)
Definition is_signed_type (M : MIRModule) (t : TypePtr) : option bool :=
  match m_types M !! t with
  | Some (HIRIntType _ s _) => Some s
  | Some _ =>
      text ← toString fuel (m_types M) t;
      Some (match String.index 0 "i" text with Some _ => true | None => false end)
  | None => None
  end.

(** The result of an attempt: the constant, if any, and the module. *)
Abbreviation Attempt := (option (option ref * MIRModule)).

Definition folded_constant (k : ConstKind double) (t : TypePtr) (M : MIRModule) : Attempt :=
  let '(c, M) := getOrInsertConstant k t M in Some (Some c, M).

Definition fold_extract (M : MIRModule) (agg : ref) (index : Z) (t : TypePtr) : Attempt :=
  match consts M !! agg with
  | Some c =>
      match c_kind c with
      | ConstantSlice elems =>
          if index =? 1 then folded_constant (ConstantInt (Z.of_nat (length elems))) t M
          else if index =? 0 then
            match m_types M !! c_type c with
            | Some (SliceType elemTy) =>
                let '(arrayTy, M) := getArrayType elemTy (Z.of_nat (length elems)) M in
                let '(constArray, M) := getOrInsertConstant (ConstantArray elems) arrayTy M in
                folded_constant (ConstantBitCast constArray) t M
            | _ => Some (None, M)
            end
          else Some (None, M)
      | _ => Some (None, M)
      end
  | None => Some (None, M)
  end.

Definition is_null_constant (M : MIRModule) (v : ref) : bool :=
  match const_of v M with Some ConstantNull => true | _ => false end.

(** The sign of a comparison, by the type of its left operand. *)
Definition compare_signed (M : MIRModule) (F : MIRFunction) (lhs : ref) : option bool :=
  let t := getType argType F M lhs in
  if N.eqb t nullptr then Some false else is_signed_type M t.

Definition fold_compare (M : MIRModule) (F : MIRFunction) (pred : CmpPredicate.t) (l r : ref)
    (t : TypePtr) : Attempt :=
  lhs ← unwrapCasts M F l;
  rhs ← unwrapCasts M F r;
  if N.eqb lhs rhs || (is_null_constant M lhs && is_null_constant M rhs) then
    match pred with
    | CmpPredicate.EQ => folded_constant (ConstantBool true) t M
    | CmpPredicate.NE => folded_constant (ConstantBool false) t M
    | _ => Some (None, M)
    end
  else
    match const_of lhs M, const_of rhs M with
    | Some (ConstantInt lv), Some (ConstantInt rv) =>
        isSigned ← compare_signed M F lhs;
        folded_constant (ConstantBool (fold_icmp isSigned pred lv rv)) t M
    | _, _ => Some (None, M)
    end.

Definition fold_fcompare (M : MIRModule) (F : MIRFunction) (pred : FCmpPredicate.t) (l r : ref)
    (t : TypePtr) : Attempt :=
  lhs ← unwrapCasts M F l;
  rhs ← unwrapCasts M F r;
  match const_of lhs M, const_of rhs M with
  | Some (ConstantFloat lv), Some (ConstantFloat rv) =>
      folded_constant (ConstantBool (fold_fcmp pred lv rv)) t M
  | _, _ => Some (None, M)
  end.

Definition fold_binary (M : MIRModule) (F : MIRFunction) (op : Opcode.t) (l r : ref)
    (t : TypePtr) : Attempt :=
  lhs ← unwrapCasts M F l;
  rhs ← unwrapCasts M F r;
  match const_of lhs M, const_of rhs M with
  | Some (ConstantInt lv), Some (ConstantInt rv) =>
      isSigned ← is_signed_type M t;
      match fold_int isSigned op lv rv with
      | Undefined => None
      | NotFolded => Some (None, M)
      | Folded result => folded_constant (ConstantInt result) t M
      end
  | Some (ConstantFloat lv), Some (ConstantFloat rv) =>
      match fold_float op lv rv with
      | Some result => folded_constant (ConstantFloat result) t M
      | None => Some (None, M)
      end
  | _, _ => Some (None, M)
  end.

Definition fold_value (M : MIRModule) (F : MIRFunction) (J : MIRInst) : Attempt :=
  match i_kind J with
  | ExtractValueInst agg index => fold_extract M agg index (i_type J)
  | CompareInst pred l r => fold_compare M F pred l r (i_type J)
  | FCmpInst pred l r => fold_fcompare M F pred l r (i_type J)
  | BinaryInst op l r => fold_binary M F op l r (i_type J)
  | _ => Some (None, M)
  end.

Definition fold_inst (b : ref) (st : bool * MIRModule * MIRFunction) (i : ref) :
    option (bool * MIRModule * MIRFunction) :=
  let '(changed, M, F) := st in
  match insts F !! i with
  | Some J =>
      '(folded, M) ← fold_value M F J;
      Some (match folded with
            | Some c => (true, M, replace_erase b i c F)
            | None => (changed, M, F)
            end)
  | None => Some st
  end.

(** ** Branches *)

Definition fold_branch (b : ref) (st : bool * MIRModule * MIRFunction) :
    bool * MIRModule * MIRFunction :=
  let '(changed, M, F) := st in
  match insts F !! terminator b F with
  | Some J =>
      match i_kind J with
      | CondBranchInst c t f =>
          match const_of c M with
          | Some (ConstantBool v) =>
              let target := if v : bool then t else f in
              let deadTarget := if v : bool then f else t in
              let '(newBr, F) := new_inst
                {| i_kind := BranchInst target; i_type := nullptr; i_name := "";
                   i_loc := i_loc J; i_borrow := None; i_parent := nullptr |} (with_next (m_next M) F) in
              let M := set_next (next_ref F) M in
              let F := addInstruction b newBr (pop_back b F) in
              let F :=
                if N.eqb deadTarget target then F
                else
                  removePredecessor deadTarget b (removeSuccessor b deadTarget
                    (upd_phis deadTarget (removeIncoming b) F)) in
              (true, M, F)
          | _ => st
          end
      | _ => st
      end
  | None => st
  end.

Definition fold_block (st : bool * MIRModule * MIRFunction) (b : ref) :
    option (bool * MIRModule * MIRFunction) :=
  st ← fold_some (fold_inst b) (getInstructions b (snd st)) st;
  Some (fold_branch b st).

Definition fold_function (st : bool * MIRModule) (f : ref) : option (bool * MIRModule) :=
  let '(changed, M) := st in
  '(changed, M, F) ← fold_some fold_block (blocks (body f M)) (changed, M, body f M);
  Some (changed, set_body f F M).

(** [runOnModule]; a declaration has no block, so that the loops pass over it. *)
Definition runOnModule (M : MIRModule) : option (bool * MIRModule) :=
  let '(funcs, M) := getFunctions M in
  mutated ← fold_some (scan_function M) funcs [];
  let st := fold_left (inline_global mutated) (globals M) (false, M) in
  fold_some fold_function funcs st.

End Pass.
