(* ===== verification/ConstFoldProps.v ===== *)
(** * Constant folding: arithmetic

    What the folding of two integer constants computes, when it is undefined, how the
    result relates to the width of the type, and what the comparisons answer. *)

From S2P Require Import Prelude Diag HIRType MIR MIRModule ConstFold.
#[local] Open Scope Z_scope.

(** The number that the payload of a [ConstantInt] stands for. *)
Definition int_value (isSigned : bool) (bits : Z) : Z := if isSigned then i64 bits else bits.

(** The mathematical result of an operator that the pass folds; a quotient rounds
    towards zero. *)
Definition exact (op : Opcode.t) (a b : Z) : option Z :=
  match op with
  | Opcode.Add => Some (a + b)
  | Opcode.Sub => Some (a - b)
  | Opcode.Mul => Some (a * b)
  | Opcode.Div => if b =? 0 then None else Some (Z.quot a b)
  | Opcode.Mod => if b =? 0 then None else Some (Z.rem a b)
  | _ => None
  end.

(** The signed operations that C++ leaves undefined. *)
Definition overflows (op : Opcode.t) (a b z : Z) : Prop :=
  ~ (- 2 ^ 63 <= z < 2 ^ 63) \/ op = Opcode.Mod /\ a = - 2 ^ 63 /\ b = -1.

Lemma in_i64_spec z : in_i64 z = true <-> - 2 ^ 63 <= z < 2 ^ 63.
Proof. unfold in_i64. rewrite andb_true_iff, Z.leb_le, Z.ltb_lt. lia. Qed.

Lemma i64_u64 z : - 2 ^ 63 <= z < 2 ^ 63 -> i64 (u64 z) = z.
Proof.
  intros H. unfold i64, u64. rewrite Zplus_mod_idemp_l. fold (i64 z). by apply i64_small.
Qed.

Lemma signed_result_spec z :
  (- 2 ^ 63 <= z < 2 ^ 63 /\ signed_result z = Folded (u64 z))
  \/ (~ (- 2 ^ 63 <= z < 2 ^ 63) /\ signed_result z = Undefined).
Proof.
  unfold signed_result. destruct (in_i64 z) eqn:E; [left | right].
  - by apply in_i64_spec in E.
  - split; [| done]. rewrite <- in_i64_spec. by rewrite E.
Qed.

Lemma quot_range a b : - 2 ^ 63 <= a < 2 ^ 63 -> b <> 0 ->
  - 2 ^ 63 <= Z.quot a b < 2 ^ 63 \/ a = - 2 ^ 63 /\ b = -1.
Proof.
  intros Ha Hb. destruct (decide (b = -1)) as [-> | N].
  - replace (Z.quot a (-1)) with (- a) by (change (-1) with (- (1)); rewrite Z.quot_opp_r, Z.quot_1_r; lia).
    lia.
  - left. pose proof (Z.quot_abs a b Hb) as Q.
    assert (b = 1 \/ 2 <= Z.abs b) as [-> | L] by lia; [rewrite Z.quot_1_r; lia |].
    assert (Z.quot (Z.abs a) (Z.abs b) <= 2 ^ 62).
    { rewrite Z.quot_div_nonneg by lia. apply Z.div_le_upper_bound; lia. }
    lia.
Qed.

(** C34: folding the integer operators.  The pass folds exactly the operators
    [+ - * / %] and never a division by zero.  Unsigned operands give the exact result
    modulo 2^64.  Signed operands give a constant that stands for the exact result, and
    the folding is undefined exactly when that does not fit 64 bits or the remainder is
    that of the least number by -1.  A folded payload is always a 64-bit number. *)
Theorem fold_int_spec isSigned op l r :
  0 <= l < 2 ^ 64 -> 0 <= r < 2 ^ 64 ->
  let a := int_value isSigned l in
  let b := int_value isSigned r in
  match exact op a b with
  | None => fold_int isSigned op l r = NotFolded
  | Some z =>
      (fold_int isSigned op l r = Undefined /\ isSigned = true /\ overflows op a b z)
      \/ exists bits, fold_int isSigned op l r = Folded bits /\ 0 <= bits < 2 ^ 64
           /\ ~ (isSigned = true /\ overflows op a b z)
           /\ if isSigned then int_value true bits = z else bits = z mod 2 ^ 64
  end.
Proof.
  intros Hl Hr a b. destruct isSigned; subst a b; cbn [int_value].
  - pose proof (i64_range l) as La. pose proof (i64_range r) as Lb.
    set (a := i64 l) in *. set (b := i64 r) in *. unfold fold_int. fold a b.
    assert (Sres : forall z, (op = Opcode.Mod -> ~ (a = - 2 ^ 63 /\ b = -1)) ->
      (signed_result z = Undefined /\ true = true /\ overflows op a b z)
      \/ exists bits, signed_result z = Folded bits /\ 0 <= bits < 2 ^ 64
           /\ ~ (true = true /\ overflows op a b z) /\ i64 bits = z).
    { intros z Nm. destruct (signed_result_spec z) as [[H ->] | [H ->]].
      - right. exists (u64 z). split_and!; [done | apply u64_range | apply u64_range | | by apply i64_u64].
        intros [_ [Q | (Q & Q1 & Q2)]]; [done | by apply Nm].
      - left. split_and!; [done | done | by left]. }
    destruct op; cbn [exact fold_signed]; try done; try (apply Sres; congruence).
    + destruct (Z.eqb_spec b 0); [done |]. apply Sres. congruence.
    + destruct (Z.eqb_spec b 0) as [| Nb]; [done |].
      destruct (quot_range a b La Nb) as [Q | Q].
      * rewrite (proj2 (in_i64_spec _) Q). right. exists (u64 (Z.rem a b)).
        pose proof (Z.rem_bound_abs a b Nb) as RB. pose proof (Z.rem_le a b). pose proof (Z.rem_abs_l a b).
        assert (L : - 2 ^ 63 <= Z.rem a b < 2 ^ 63) by lia.
        split_and!; [done | apply u64_range | apply u64_range | | by apply i64_u64].
        intros [_ [Bad | (_ & Ha & Hb)]]; [done |]. rewrite Ha, Hb in Q.
        change (Z.quot (- 2 ^ 63) (-1)) with (2 ^ 63) in Q. lia.
      * left. destruct Q as [Ha Hb]. split_and!; [| done | right; done].
        rewrite Ha, Hb. reflexivity.
  - unfold fold_int. destruct op; cbn [exact fold_unsigned]; try done;
      try (right; eexists; split_and!; [done | apply u64_range | apply u64_range | by intros [? _] | done]).
    + destruct (Z.eqb_spec r 0) as [| N]; [done |]. right. exists (l / r).
      assert (0 <= l / r <= l).
      { split; [by apply Z.div_pos; lia |]. apply Z.div_le_upper_bound; nia. }
      split_and!; [done | lia | lia | by intros [? _] |].
      rewrite Z.quot_div_nonneg, Z.mod_small by lia. done.
    + destruct (Z.eqb_spec r 0) as [| N]; [done |]. right. exists (l mod r).
      pose proof (Z.mod_pos_bound l r). split_and!; [done | lia | lia | by intros [? _] |].
      rewrite Z.rem_mod_nonneg, (Z.mod_small _ (2 ^ 64)) by lia. done.
Qed.

(** ** Comparisons *)

(** The relations that the switch on the predicate has a case for. *)
Definition holds (pred : CmpPredicate.t) (a b : Z) : Prop :=
  match pred with
  | CmpPredicate.EQ => a = b
  | CmpPredicate.NE => a <> b
  | CmpPredicate.LT => a < b
  | CmpPredicate.LE => a <= b
  | CmpPredicate.GT => a > b
  | CmpPredicate.GE => a >= b
  | _ => False
  end.

(** Folding the comparisons of integers.  [EQ], [NE], [LT], [LE], [GT] and [GE] are
    answered as the relation on the numbers that the payloads stand for, at the sign of the
    operands; the predicates [ULT], [ULE], [UGT] and [UGE] are folded to false whatever the
    operands are, so that even [ULE] does not hold between equal numbers. *)
Theorem fold_icmp_spec isSigned pred l r :
  (fold_icmp isSigned pred l r = true <->
     holds pred (int_value isSigned l) (int_value isSigned r))
  /\ fold_icmp isSigned CmpPredicate.ULE l l = false.
Proof.
  split; [| by destruct isSigned].
  unfold fold_icmp, int_value. destruct isSigned, pred; cbn [compare_values holds];
    rewrite ?negb_true_iff, ?Z.eqb_eq, ?Z.eqb_neq, ?Z.ltb_lt, ?Z.leb_le; try lia; by split.
Qed.

(** ** Widths *)

Lemma fold_int_mod op l r z bits :
  0 <= l < 2 ^ 64 -> 0 <= r < 2 ^ 64 -> exact op l r = Some z -> fold_int false op l r = Folded bits ->
  bits = z mod 2 ^ 64.
Proof.
  intros Hl Hr Ez Eb. unfold fold_int in Eb.
  destruct op; cbn [exact fold_unsigned] in *; try discriminate; try (by simplify_eq).
  - destruct (Z.eqb_spec r 0); [discriminate |]. simplify_eq.
    assert (0 <= l / r <= l) by (split; [apply Z.div_pos; lia | apply Z.div_le_upper_bound; nia]).
    rewrite Z.quot_div_nonneg, Z.mod_small by lia. done.
  - destruct (Z.eqb_spec r 0); [discriminate |]. simplify_eq.
    pose proof (Z.mod_pos_bound l r). rewrite Z.rem_mod_nonneg, (Z.mod_small _ (2 ^ 64)) by lia. done.
Qed.

Lemma exact_range op w l r z :
  0 < w <= 32 -> 0 <= l < 2 ^ w -> 0 <= r < 2 ^ w -> exact op l r = Some z ->
  - 2 ^ w < z < 2 ^ 64.
Proof.
  intros Hw Hl Hr E. assert (Pw : 2 ^ w <= 2 ^ 32) by (apply Z.pow_le_mono_r; lia).
  change (2 ^ 64) with (2 ^ 32 * 2 ^ 32). change (2 ^ 32) with 4294967296 in *.
  destruct op; cbn [exact] in E; try discriminate; simplify_eq; try nia.
  - destruct (Z.eqb_spec r 0); [discriminate |]. simplify_eq. rewrite Z.quot_div_nonneg by lia.
    assert (0 <= l / r <= l) by (split; [apply Z.div_pos; lia | apply Z.div_le_upper_bound; nia]). lia.
  - destruct (Z.eqb_spec r 0); [discriminate |]. simplify_eq. rewrite Z.rem_mod_nonneg by lia.
    pose proof (Z.mod_pos_bound l r). nia.
Qed.

(** The width of the type is not looked at.  For an unsigned type of at most 32 bits
    and operands in its range, the folded payload has the low bits of the operation at that
    width, but it is in the range of the type only when the exact result is: otherwise the
    constant is not a value of its type. *)
Theorem fold_int_width op w l r bits z :
  0 < w <= 32 -> 0 <= l < 2 ^ w -> 0 <= r < 2 ^ w ->
  exact op l r = Some z -> fold_int false op l r = Folded bits ->
  bits mod 2 ^ w = z mod 2 ^ w /\ (bits < 2 ^ w <-> 0 <= z < 2 ^ w).
Proof.
  intros Hw Hl Hr Ez Eb.
  assert (Pw : 2 ^ w <= 2 ^ 32) by (apply Z.pow_le_mono_r; lia).
  assert (P0 : 0 < 2 ^ w) by (apply Z.pow_pos_nonneg; lia).
  pose proof (exact_range op w l r z Hw Hl Hr Ez) as Bz.
  assert (bits = z mod 2 ^ 64) as -> by (apply (fold_int_mod op l r); done || lia). split.
  - replace 64 with (w + (64 - w)) by lia. rewrite Z.pow_add_r, Z.rem_mul_r by lia.
    rewrite Z.mul_comm, Z_mod_plus_full, Zmod_mod. done.
  - assert (0 <= z < 2 ^ 64 /\ z mod 2 ^ 64 = z \/ z < 0 /\ z mod 2 ^ 64 = z + 2 ^ 64) as [[H E] | [H E]].
    { destruct (Z.ltb_spec z 0); [right | left; rewrite Z.mod_small; lia].
      split; [done |]. symmetry. apply (Z.mod_unique _ _ (-1)); lia. }
    + rewrite E. lia.
    + rewrite E. lia.
Qed.

(** ** At concrete numbers *)

(** The least number divided by -1. *)
Lemma fold_int_spec_witness : fold_int true Opcode.Div (2 ^ 63) (2 ^ 64 - 1) = Undefined.
Proof.
  pose proof (fold_int_spec true Opcode.Div (2 ^ 63) (2 ^ 64 - 1) ltac:(lia) ltac:(lia)) as H.
  cbv zeta in H.
  change (exact Opcode.Div (int_value true (2 ^ 63)) (int_value true (2 ^ 64 - 1)))
    with (Some (2 ^ 63)) in H.
  destruct H as [[H _] | (bits & _ & _ & N & _)]; [exact H |].
  exfalso. apply N. split; [reflexivity |]. left. lia.
Defined.

(** 200 + 100 at eight bits. *)
Lemma fold_int_width_witness :
  fold_int false Opcode.Add 200 100 = Folded 300 /\ 300 mod 2 ^ 8 = 44 /\ ~ (300 < 2 ^ 8).
Proof.
  destruct (fold_int_width Opcode.Add 8 200 100 300 300) as [H1 H2];
    [lia | lia | lia | reflexivity | reflexivity |].
  split; [reflexivity |]. split; [exact H1 || reflexivity |]. intros L. apply H2 in L. lia.
Defined.
