(* ===== verification/Transform.v ===== *)
(** * Replacing values

    [transformed]: a function after new instructions came to the start of its entry block,
    values were replaced by others, and instructions that nobody uses any more were removed.
    Such a function keeps its invariant. *)

From S2P Require Import Prelude Diag HIRType MIR MIRFacts SimplifyCFG SimplifyCFGProps MIRModule MIRUses ConstFold.

Implicit Types (F G H : MIRFunction) (b c i j a o n v x : ref) (k : InstKind) (σ : ref -> ref) (news dead : list ref).

(** An instruction with its values replaced. *)
Definition map_inst σ (J : MIRInst) : MIRInst := with_kind (map_values σ (i_kind J)) J.

Lemma map_inst_id J : map_inst (fun v => v) J = J.
Proof. unfold map_inst. rewrite map_values_id. by destruct J. Qed.

(** A new instruction that uses nothing. *)
Definition unary k : Prop := value_ops k = [] /\ fixed_ops k = [] /\ targets k = [].

Record transformed σ news dead F G : Prop := {
  tf_blocks : blocks G = blocks F;
  tf_next : (next_ref F <= next_ref G)%N;
  tf_has : forall b, has_block b G <-> has_block b F;
  tf_edges : forall b, getSuccessors b G = getSuccessors b F /\ getPredecessors b G = getPredecessors b F;
  tf_instructions : forall b, b ∈ blocks F -> getInstructions b G =
    (if decide (b = getEntryBlock F) then news else []) ++ filter (fun i => i ∉ dead) (getInstructions b F);
  tf_kept : forall i, placed F i -> i ∉ dead -> insts G !! i = map_inst σ <$> insts F !! i;
  tf_dead : forall i, placed F i -> i ∈ dead -> insts G !! i = None;
  tf_unplaced : forall i, ~ placed F i -> i ∉ news -> insts G !! i = insts F !! i;
  tf_new : forall a, a ∈ news -> (next_ref F <= a < next_ref G)%N
    /\ exists J, insts G !! a = Some J /\ unary (i_kind J);
  tf_nodup : NoDup news;
}.

Lemma transformed_refl F : transformed (fun v => v) [] [] F F.
Proof.
  assert (Id : forall i, insts F !! i = map_inst (fun v => v) <$> insts F !! i).
  { intros i. destruct (insts F !! i) as [J |]; [cbn; by rewrite map_inst_id | done]. }
  split; try done.
  - intros b _. rewrite filter_full by (intros i _; apply not_elem_of_nil). by case_decide.
  - intros i _ Q. by apply not_elem_of_nil in Q.
  - intros a Q. by apply not_elem_of_nil in Q.
  - apply NoDup_nil_2.
Qed.

Lemma map_values_unary f k : value_ops k = [] -> map_values f k = k.
Proof.
  destruct k; cbn [value_ops map_values]; intros E; try done.
  - by apply map_eq_nil in E as ->.
  - by subst.
Qed.

(** An instruction that uses nothing is not changed by a replacement. *)
Lemma insts_replace_unary o n G a J :
  bbs G !! n = None -> insts G !! a = Some J -> value_ops (i_kind J) = [] ->
  insts (replaceAllUsesInFunction o n G) !! a = Some J.
Proof.
  intros Nb E U. destruct (insts_replaceAllUses o n G Nb) as (_ & _ & _ & R4 & R5).
  destruct (decide (placed G a)) as [P | P]; [rewrite R4 by done | by rewrite R5].
  rewrite E. cbn [fmap option_fmap option_map]. f_equal. rewrite replaceOperand_map, map_values_unary by done. by destruct J.
Qed.

(** ** Steps *)

Lemma placed_old ext n F i : fn_ok ext n F -> placed F i -> (i < n)%N.
Proof. intros O (b & Hb & Hi). by apply (ok_inst_fresh _ _ _ O), (ok_held _ _ _ O b). Qed.

Section Steps.
Context (σ : ref -> ref) (news dead : list ref) (F G : MIRFunction) (T : transformed σ news dead F G).
Context (Np : forall a, a ∈ news -> ~ placed F a).

Lemma tf_entry : getEntryBlock G = getEntryBlock F.
Proof. unfold getEntryBlock. by rewrite (tf_blocks _ _ _ _ _ T). Qed.

Lemma tf_placed i : placed G i <-> (getEntryBlock F ∈ blocks F /\ i ∈ news) \/ (placed F i /\ i ∉ dead).
Proof.
  unfold placed. rewrite (tf_blocks _ _ _ _ _ T). split.
  - intros (b & Hb & Hi). rewrite (tf_instructions _ _ _ _ _ T b Hb), elem_of_app, list_elem_of_filter in Hi.
    destruct Hi as [Hi | [Hi1 Hi2]]; [| right; by split; [exists b |]].
    case_decide as D; [subst b; by left | by apply not_elem_of_nil in Hi].
  - intros [[He Hi] | [(b & Hb & Hi) N]]; [exists (getEntryBlock F) | exists b]; (split; [done |]);
      rewrite (tf_instructions _ _ _ _ _ T) by done; apply elem_of_app.
    + left. by rewrite decide_True.
    + right. by apply list_elem_of_filter.
Qed.

(** One more value that is replaced. *)
Lemma transformed_replace o n :
  ~ has_block n F ->
  transformed (fun v => subst_ref o n (σ v)) news dead F (replaceAllUsesInFunction o n G).
Proof.
  intros Nb. pose proof T as [T1 T2 T3 T4 T5 T6 T7 T8 T9 T10].
  assert (NbG : bbs G !! n = None).
  { destruct (bbs G !! n) eqn:E; [| done]. exfalso. apply Nb, T3. by eexists. }
  destruct (insts_replaceAllUses o n G NbG) as (R1 & R2 & R3 & R4 & R5).
  split.
  - by rewrite R1.
  - by rewrite R3.
  - intros b. unfold has_block. rewrite R2. apply T3.
  - intros b. unfold getSuccessors, getPredecessors. rewrite R2. apply T4.
  - intros b Hb. unfold getInstructions at 1. rewrite R2. by apply T5.
  - intros i P N. rewrite R4 by (apply tf_placed; by right). rewrite T6 by done.
    destruct (insts F !! i) as [J |]; [| done]. cbn [fmap option_fmap option_map]. f_equal.
    unfold map_inst. rewrite replaceOperand_map. cbn [with_kind i_kind]. by rewrite map_values_map.
  - intros i P N. rewrite R5; [by apply T7 |]. intros [[_ Q] | [_ Q]]%tf_placed; [by apply (Np i) | done].
  - intros i P N. rewrite R5; [by apply T8 |]. by intros [[_ Q] | [Q _]]%tf_placed.
  - intros a Ha. rewrite R3. destruct (T9 a Ha) as (La & J & E & U1 & U2 & U3). split; [done |]. exists J.
    split; [by apply insts_replace_unary | by split_and!].
  - done.
Qed.

(** One instruction is removed from its block and destroyed. *)
Lemma transformed_erase_inst b i :
  i ∉ news -> b ∈ blocks F -> i ∈ getInstructions b F ->
  (forall c, c ∈ blocks F -> i ∈ getInstructions c F -> c = b) ->
  transformed σ news (dead ++ [i]) F (erase_inst b i G).
Proof.
  intros Nn Hb Hi Ap. pose proof T as [T1 T2 T3 T4 T5 T6 T7 T8 T9 T10].
  set (H := upd_block b (fun B => with_instructions (erase_all i (instructions B)) B) G).
  assert (EI : forall x, getInstructions x H = if decide (x = b) then erase_all i (getInstructions x G) else getInstructions x G).
  { intros x. unfold H. rewrite getInstructions_upd. case_decide; [| done]. unfold getInstructions. by destruct (bbs G !! x). }
  assert (Pi : placed F i) by by exists b.
  assert (Ei : forall j, j <> i -> insts (erase_inst b i G) !! j = insts G !! j).
  { intros j N. unfold erase_inst, free_inst. cbn [insts set_insts upd_block set_bbs]. by rewrite lookup_delete_ne. }
  split.
  - done.
  - done.
  - intros x. unfold has_block in *. rewrite <- T3. apply (has_block_upd b _ G).
  - intros x. rewrite <- (proj1 (T4 x)), <- (proj2 (T4 x)).
    by split; [apply (getSuccessors_upd b _ G) | apply (getPredecessors_upd b _ G)].
  - intros x Hx. change (getInstructions x (erase_inst b i G)) with (getInstructions x H).
    rewrite EI, T5 by done. destruct (decide (x = b)) as [-> | N].
    + unfold erase_all. rewrite filter_app. f_equal.
      * case_decide; [| done]. apply filter_full. intros a Ha ->. done.
      * rewrite list_filter_filter. apply filter_iff_in. intros j _. rewrite elem_of_app, list_elem_of_singleton. tauto.
    + f_equal. apply filter_iff_in. intros j Hj. rewrite elem_of_app, list_elem_of_singleton.
      assert (j <> i) by (intros ->; by apply N, Ap). tauto.
  - intros j P N. rewrite elem_of_app, list_elem_of_singleton in N. rewrite Ei by tauto. apply T6; tauto.
  - intros j P N. rewrite elem_of_app, list_elem_of_singleton in N. destruct (decide (j = i)) as [-> | Nj].
    + unfold erase_inst, free_inst. cbn [insts set_insts]. by rewrite lookup_delete_eq.
    + rewrite Ei by done. apply T7; tauto.
  - intros j P N. rewrite Ei; [by apply T8 |]. by intros ->.
  - intros a Ha. rewrite Ei by (by intros ->). by apply T9.
  - done.
Qed.

End Steps.

(** One more instruction at the start of the entry block. *)
Lemma transformed_insert ext σ news dead F G J :
  fn_ok ext (next_ref F) F -> transformed σ news dead F G -> unary (i_kind J) ->
  transformed σ (next_ref G :: news) dead F
    (upd_block (getEntryBlock G) (fun B => with_instructions (next_ref G :: instructions B) B) (snd (new_inst J G))).
Proof.
  intros O T U. pose proof T as [T1 T2 T3 T4 T5 T6 T7 T8 T9 T10]. set (G1 := snd (new_inst J G)).
  rewrite (tf_entry _ _ _ _ _ T).
  assert (L : forall i, (i < next_ref G)%N -> insts G1 !! i = insts G !! i).
  { intros i Li. cbn. rewrite lookup_insert_ne; [done |]. lia. }
  split; cbn [blocks upd_block set_bbs next_ref insts]; change (blocks G1) with (blocks G).
  - done.
  - cbn. lia.
  - intros b. rewrite has_block_upd. apply T3.
  - intros b. rewrite getSuccessors_upd, getPredecessors_upd by done. apply T4.
  - intros b Hb. rewrite getInstructions_upd. specialize (T5 b Hb).
    change (bbs G1) with (bbs G). change (getInstructions b G1) with (getInstructions b G).
    case_decide as D; [| by rewrite T5].
    assert (Q : has_block b G) by (by apply T3, (wf_heap _ (ok_wf _ _ _ O))). destruct Q as [B E].
    rewrite E. unfold getInstructions in T5. rewrite E in T5. cbn [with_instructions instructions]. by rewrite T5.
  - intros i P N. rewrite L by (apply (placed_old _ _ _ _ O) in P; lia). by apply T6.
  - intros i P N. rewrite L by (apply (placed_old _ _ _ _ O) in P; lia). by apply T7.
  - intros i P N. apply not_elem_of_cons in N as [N1 N2]. cbn. rewrite lookup_insert_ne by done. by apply T8.
  - intros a [-> | Ha]%elem_of_cons.
    + split; [cbn; lia |]. exists J. cbn. by rewrite lookup_insert_eq.
    + destruct (T9 a Ha) as [La Q]. split; [cbn; lia |]. rewrite L by lia. done.
  - apply NoDup_cons. split; [| done]. intros Q. destruct (T9 _ Q) as [? _]. lia.
Qed.


(** ** The invariant *)

Section Safe.
Context (ext : ref -> Prop) (σ : ref -> ref) (news dead : list ref) (F G : MIRFunction).
Context (n n' : ref) (O : fn_ok ext n F) (T : transformed σ news dead F G).
Context (Le : (n <= n')%N) (Fresh : forall a, a ∈ news -> (n <= a < n')%N).
(** The function has an entry; no terminator is removed, the values that are replaced are
    instructions, what stands for them is new or alive and neither a block nor a terminator,
    and those that are removed are not used otherwise. *)
Context (Entry : getEntryBlock F ∈ blocks F).
Context (Dead : forall i k, placed F i -> i ∈ dead -> kind_of i F = Some k -> targets k = []).
Context (Inst : forall v, σ v <> v -> is_Some (insts F !! v)).
Context (New : forall v, σ v <> v -> σ v ∈ news
  \/ (alive ext F (σ v) /\ (σ v ∉ dead) /\ ~ has_block (σ v) F /\ forall k, kind_of (σ v) F = Some k -> targets k = [])).
Context (Unused : forall i k v, placed F i -> i ∉ dead -> kind_of i F = Some k -> v ∈ value_ops k ->
  v ∈ dead -> σ v <> v).

Lemma tr_in x j : x ∈ blocks F ->
  j ∈ getInstructions x G <-> (x = getEntryBlock F /\ j ∈ news) \/ ((j ∉ dead) /\ j ∈ getInstructions x F).
Proof.
  intros Hx. rewrite (tf_instructions _ _ _ _ _ T x Hx), elem_of_app, list_elem_of_filter.
  case_decide; [tauto |]. rewrite elem_of_nil. tauto.
Qed.

Lemma tr_new a : a ∈ news ->
  (n <= a < n')%N /\ insts F !! a = None /\ exists k, kind_of a G = Some k /\ unary k.
Proof.
  intros Ha. pose proof (Fresh a Ha) as L. destruct (tf_new _ _ _ _ _ T a Ha) as (_ & J & E & U). split; [done |]. split.
  - destruct (insts F !! a) eqn:E0; [| done]. exfalso.
    assert (Q : (a < n)%N) by (apply (ok_inst_fresh _ _ _ O); rewrite E0; by eexists). lia.
  - exists (i_kind J). unfold kind_of. by rewrite E.
Qed.

Lemma tr_kept i : placed F i -> i ∉ dead -> kind_of i G = map_values σ <$> kind_of i F.
Proof.
  intros P N. unfold kind_of. rewrite (tf_kept _ _ _ _ _ T i P N). by destruct (insts F !! i).
Qed.

(** Where an instruction of the new function comes from. *)
Lemma tr_kind i k : kind_of i G = Some k ->
  (i ∈ news /\ unary k) \/ ((i ∉ news) /\ exists k0, kind_of i F = Some k0 /\ (k = map_values σ k0 \/ k = k0)).
Proof.
  intros K. destruct (decide (i ∈ news)) as [Hn | Hn].
  - left. split; [done |]. destruct (tr_new i Hn) as (_ & _ & k' & K' & U). congruence.
  - right. split; [done |]. destruct (decide (placed F i)) as [P | P].
    + destruct (decide (i ∈ dead)) as [D | D].
      * unfold kind_of in K. by rewrite (tf_dead _ _ _ _ _ T i P D) in K.
      * rewrite tr_kept in K by done. apply fmap_Some in K as (k0 & ? & ->). exists k0. auto.
    + exists k. unfold kind_of in *. rewrite (tf_unplaced _ _ _ _ _ T i P Hn) in K. auto.
Qed.

Lemma tr_heap i : is_Some (insts G !! i) -> i ∈ news \/ is_Some (insts F !! i).
Proof.
  intros [J E]. assert (K : kind_of i G = Some (i_kind J)) by (unfold kind_of; by rewrite E).
  apply tr_kind in K as [[? _] | (_ & k0 & K & _)]; [by left | right].
  unfold kind_of in K. destruct (insts F !! i); [by eexists | done].
Qed.

Lemma tr_fresh i : i ∈ news -> ~ has_block i F /\ ~ ext i.
Proof.
  intros Ha. destruct (tr_new i Ha) as ((L & _) & _). split; intros Q.
  - apply (ok_block_fresh _ _ _ O) in Q. lia.
  - apply (ok_ext_fresh _ _ _ O) in Q. lia.
Qed.

Lemma tr_null : insts G !! nullptr = None.
Proof.
  destruct (insts G !! nullptr) as [J |] eqn:E; [| done]. exfalso. destruct (tr_heap nullptr) as [Q | [J' Q]]; [by eexists | |].
  - destruct (tr_new _ Q) as ((L & _) & _).
    pose proof (ok_block_fresh _ _ _ O _ (wf_heap _ (ok_wf _ _ _ O) _ Entry)) as L'. unfold nullptr in L. lia.
  - by rewrite (wf_null _ (ok_wf _ _ _ O)) in Q.
Qed.

(** What is fixed: everything that is not an instruction. *)
Lemma tr_fixed v : ~ is_Some (insts F !! v) -> σ v = v.
Proof. intros N. destruct (decide (σ v = v)) as [| Q]; [done |]. by apply Inst in Q. Qed.

Lemma tr_targets x j k : x ∈ blocks F -> j ∈ getInstructions x F -> kind_of j F = Some k ->
  targets (map_values σ k) = targets k.
Proof.
  intros Hx Hj K. apply targets_map. intros t Ht. apply tr_fixed. intros S.
  destruct (decide (j = terminator x F)) as [-> | Nt].
  - destruct (decide (t = nullptr)) as [-> | Nn].
    + destruct S as [J E]. by rewrite (wf_null _ (ok_wf _ _ _ O)) in E.
    + apply (fn_ok_target ext _ F x t t O Hx); [| done | done].
      rewrite (term_targets_kind _ _ _ K). by apply list_elem_of_filter.
  - rewrite (ok_term _ _ _ O x j k Hx Hj Nt K) in Ht. by apply not_elem_of_nil in Ht.
Qed.

(** An instruction of a block that has no targets has none after. *)
Lemma tr_no_targets i k : kind_of i G = Some k -> (forall k0, kind_of i F = Some k0 -> targets k0 = []) -> targets k = [].
Proof.
  intros K H. apply tr_kind in K as [[_ (_ & _ & E)] | (_ & k0 & K0 & Q)]; [done |].
  pose proof (H k0 K0) as Z. destruct Q as [-> | ->]; [| done]. rewrite targets_map; [done |].
  rewrite Z. intros t Ht. by apply not_elem_of_nil in Ht.
Qed.

Lemma tr_terminator x t : x ∈ blocks F -> last (getInstructions x F) = Some t -> t ∉ dead -> terminator x G = t.
Proof.
  intros Hx E N. unfold terminator. rewrite (tf_instructions _ _ _ _ _ T x Hx).
  apply last_Some in E as [l ->]. rewrite filter_app, (filter_cons_True _ t []), filter_nil by done.
  by rewrite app_assoc, last_snoc.
Qed.

Lemma tr_term_targets x : x ∈ blocks F -> term_targets x G = term_targets x F.
Proof.
  intros Hx. assert (Nil : (forall j k, j ∈ getInstructions x F -> kind_of j F = Some k -> targets k = []) ->
    term_targets x G = []).
  { intros Z. unfold term_targets, inst_targets. destruct (kind_of (terminator x G) G) as [k |] eqn:K; [| done].
    rewrite (tr_no_targets _ _ K), filter_nil; [done |]. intros k0 K0. unfold terminator in K0.
    destruct (last (getInstructions x G)) as [j |] eqn:E.
    - apply last_Some in E as [l E]. assert (Hj : j ∈ getInstructions x G) by (rewrite E; apply elem_of_app; right; left).
      apply tr_in in Hj as [[_ Hj] | [_ Hj]]; [| by apply (Z j) | done].
      destruct (tr_new j Hj) as (_ & E0 & _). cbn in K0. unfold kind_of in K0. by rewrite E0 in K0.
    - cbn in K0. by rewrite (fn_ok_null _ _ _ O) in K0. }
  destruct (last (getInstructions x F)) as [t |] eqn:E.
  - assert (Et : terminator x F = t) by (unfold terminator; by rewrite E).
    assert (Ht : t ∈ getInstructions x F) by (apply last_Some in E as [l ->]; apply elem_of_app; right; left).
    assert (P : placed F t) by by exists x.
    destruct (decide (t ∈ dead)) as [D | D].
    + assert (Z : forall j k, j ∈ getInstructions x F -> kind_of j F = Some k -> targets k = []).
      { intros j k Hj K. destruct (decide (j = t)) as [-> | N]; [by apply (Dead t) |].
        apply (ok_term _ _ _ O x j k); [done | done | by rewrite Et | done]. }
      rewrite (Nil Z). unfold term_targets, inst_targets. rewrite Et.
      destruct (kind_of t F) as [k |] eqn:K; [| done]. by rewrite (Z t k).
    + unfold term_targets. rewrite (tr_terminator x t Hx E D), Et. unfold inst_targets. rewrite (tr_kept t P D).
      destruct (kind_of t F) as [k |] eqn:K; [| done]. cbn [fmap option_fmap option_map]. by rewrite (tr_targets x t k).
  - apply last_None in E. rewrite Nil.
    + unfold term_targets, terminator. rewrite E. unfold inst_targets. cbn. by rewrite (fn_ok_null _ _ _ O).
    + intros j k Hj. rewrite E in Hj. by apply not_elem_of_nil in Hj.
Qed.

(** An instruction of a block, before. *)
Lemma tr_origin x j k : x ∈ blocks F -> j ∈ getInstructions x G -> kind_of j G = Some k ->
  (j ∈ news /\ unary k)
  \/ ((j ∉ dead) /\ j ∈ getInstructions x F /\ exists k0, kind_of j F = Some k0 /\ k = map_values σ k0).
Proof.
  intros Hx Hj K. apply tr_in in Hj as [[-> Hj] | [N Hj]]; [left | right | done].
  - split; [done |]. destruct (tr_new j Hj) as (_ & _ & k' & K' & U). congruence.
  - split_and!; [done | done |]. rewrite tr_kept in K by (done || by exists x).
    apply fmap_Some in K as (k0 & ? & ->). by exists k0.
Qed.

Lemma tr_alive v : alive ext F v -> v ∉ dead -> alive ext G v.
Proof.
  intros [? | [? | [? | ?]]] N; unfold alive; rewrite (tf_has _ _ _ _ _ T); auto.
  right. left. destruct (decide (placed F v)) as [P | P].
  - rewrite (tf_kept _ _ _ _ _ T v P N). by apply fmap_is_Some.
  - rewrite (tf_unplaced _ _ _ _ _ T v P); [done |]. intros Q. destruct (tr_new v Q) as (_ & E & _).
    rewrite E in H. by destruct H.
Qed.

Lemma tr_wf : well_formed G.
Proof.
  split; rewrite ?(tf_blocks _ _ _ _ _ T).
  - intros x Hx. by apply (tf_has _ _ _ _ _ T), (wf_heap _ (ok_wf _ _ _ O)).
  - exact tr_null.
  - intros x y Hx. rewrite tr_term_targets by done. by apply (wf_closed _ (ok_wf _ _ _ O)).
Qed.

Lemma tr_consistent : consistent G.
Proof.
  split; rewrite ?(tf_blocks _ _ _ _ _ T).
  - intros x y Hx. destruct (tf_edges _ _ _ _ _ T x) as [-> _]. rewrite tr_term_targets by done.
    by apply (co_succ _ (ok_edges _ _ _ O)).
  - intros x y Hx. destruct (tf_edges _ _ _ _ _ T x) as [_ ->], (tf_edges _ _ _ _ _ T y) as [-> _].
    by apply (co_pred _ (ok_edges _ _ _ O)).
Qed.

Lemma tr_held x j : x ∈ blocks F -> j ∈ getInstructions x G -> is_Some (insts G !! j).
Proof.
  intros Hx [[_ Hj] | [N Hj]]%tr_in; [| | done].
  - destruct (tr_new j Hj) as (_ & _ & k & K & _). unfold kind_of in K. destruct (insts G !! j); [by eexists | done].
  - rewrite (tf_kept _ _ _ _ _ T) by (done || by exists x). apply fmap_is_Some. by apply (ok_held _ _ _ O x).
Qed.

Lemma tr_not_new x j : x ∈ blocks F -> j ∈ getInstructions x F -> j ∉ news.
Proof.
  intros Hx Hj Hn. destruct (tr_new j Hn) as (_ & E & _). destruct (ok_held _ _ _ O x j Hx Hj). congruence.
Qed.

Lemma tr_nodup x : x ∈ blocks F -> NoDup (getInstructions x G).
Proof.
  intros Hx. rewrite (tf_instructions _ _ _ _ _ T x Hx). apply NoDup_app. split_and!.
  - case_decide; [apply (tf_nodup _ _ _ _ _ T) | apply NoDup_nil_2].
  - intros j Hj [_ Hj']%list_elem_of_filter. case_decide; [by apply (tr_not_new x j) | by apply not_elem_of_nil in Hj].
  - by apply NoDup_filter, (ok_nodup _ _ _ O).
Qed.

(** The values of what is left: alive, no terminators, and labels of branches only. *)
Lemma tr_value x j k v : x ∈ blocks F -> j ∈ getInstructions x G -> kind_of j G = Some k -> v ∈ value_ops k ->
  alive ext G v /\ (forall k', kind_of v G = Some k' -> targets k' = []) /\ (has_block v G -> v ∈ targets k).
Proof.
  intros Hx Hj K Hv. destruct (tr_origin x j k Hx Hj K) as [[_ (E & _)] | (N & Hj' & k0 & K0 & ->)].
  { rewrite E in Hv. by apply not_elem_of_nil in Hv. }
  rewrite value_ops_map in Hv. apply list_elem_of_fmap in Hv as (w & -> & Hw).
  rewrite (tr_targets x j k0), (tf_has _ _ _ _ _ T) by done.
  destruct (decide (σ w = w)) as [E | E].
  - rewrite E. assert (Nd : w ∉ dead) by (intros D; by apply (Unused j k0 w); [exists x | | | | |]). split_and!.
    + apply tr_alive; [by apply (ok_values _ _ _ O x j k0) | done].
    + intros k' K'. apply (tr_no_targets w k' K'). intros k1. by apply (ok_nonterm _ _ _ O x j k0).
    + intros Hb. by apply (ok_labels _ _ _ O x j).
  - destruct (New w E) as [Q | (A & B & C & D)].
    + destruct (tr_new _ Q) as (_ & _ & k1 & K1 & (_ & _ & U)). split_and!.
      * right. left. unfold kind_of in K1. destruct (insts G !! σ w); [by eexists | done].
      * intros k' K'. congruence.
      * intros Hb. exfalso. by apply (proj1 (tr_fresh _ Q)).
    + split_and!; [by apply tr_alive | | done]. intros k' K'. by apply (tr_no_targets (σ w) k' K').
Qed.

(** A function keeps its invariant. *)
Lemma transformed_ok : fn_ok ext n' G.
Proof.
  pose proof (tf_blocks _ _ _ _ _ T) as EB.
  pose proof (tf_has _ _ _ _ _ T) as HB. pose proof O as [A1 A2 A3 A4 A5 A6 A7 A8 A9 A10 A11 A12 A13 A14 A15 A16].
  split; rewrite ?EB.
  - exact tr_wf.
  - exact tr_consistent.
  - intros v [Q | Q]%tr_heap; [by apply (tr_new v Q) | specialize (A3 v Q); lia].
  - intros v Hv. apply HB, A4 in Hv. lia.
  - intros v Hv. specialize (A5 v Hv). lia.
  - intros v [Q | Q]%tr_heap; rewrite HB; [by apply tr_fresh | by apply A6].
  - intros v Hv. rewrite HB. by apply A7.
  - exact tr_held.
  - exact tr_nodup.
  - intros x y j Hx Hy [[-> Hj] | [N Hj]]%tr_in [[-> Hj'] | [N' Hj']]%tr_in; try done.
    + by destruct (tr_not_new y j Hy Hj').
    + by destruct (tr_not_new x j Hx Hj).
    + by apply (A10 x y j).
  - intros x j k Hx Hj Nt K. destruct (tr_origin x j k Hx Hj K) as [[_ (_ & _ & E)] | (N & Hj' & k0 & K0 & ->)]; [done |].
    rewrite (tr_targets x j k0) by done. apply (A11 x j k0); [done | done | | done]. intros Et. apply Nt. rewrite Et.
    symmetry. apply tr_terminator; [done | | by rewrite <- Et].
    unfold terminator. destruct (last (getInstructions x F)) as [t |] eqn:E; [done |].
    apply last_None in E. rewrite E in Hj'. by apply not_elem_of_nil in Hj'.
  - intros x j k v Hx Hj K Hv. by apply (tr_value x j k v).
  - intros x j k v Hx Hj K Hv. rewrite HB.
    destruct (tr_origin x j k Hx Hj K) as [[_ (_ & E & _)] | (N & Hj' & k0 & K0 & ->)].
    + rewrite E in Hv. by apply not_elem_of_nil in Hv.
    + rewrite fixed_ops_map in Hv. by apply (A13 x j k0).
  - intros x j k v k' Hx Hj K Hv Kv. by apply (tr_value x j k v).
  - intros x j c t f Hx Hj K. destruct (tr_origin x j _ Hx Hj K) as [[_ (E & _)] | (N & Hj' & k0 & K0 & E)]; [done |].
    pose proof (tr_targets x j k0 Hx Hj' K0) as Et. rewrite <- E in Et.
    destruct k0; try discriminate E. cbn [targets] in Et. injection Et as -> ->. by apply (A15 x j cond).
  - intros x j k v Hx Hj K Hv Q. by apply (tr_value x j k v).
Qed.

End Safe.
