(* ===== verification/ConstFoldSafe.v ===== *)
(** * Constant folding: safety

    The pass keeps the invariant of every function: its edges stay consistent, its
    terminators stay last, and no operand refers to an instruction that was erased. *)

From S2P Require Import Prelude Diag HIRType MIR MIRFacts SimplifyCFG SimplifyCFGProps MIRModule MIRUses Rewire ConstFold Transform.

Implicit Types (F G : MIRFunction) (M : MIRModule) (b c i j v x : ref) (k : InstKind).

(** ** Replacing an instruction by a value *)

(** A value that may take the place of the instruction [i]. *)
Record replacement (ext : ref -> Prop) F i c : Prop := {
  rp_alive : alive ext F c;
  rp_other : c <> i;
  rp_label : ~ has_block c F;
  rp_nonterm : forall k, kind_of c F = Some k -> targets k = [];
}.

(** A value that lives outside the function may replace any instruction. *)
Lemma replacement_ext ext next F b i c :
  fn_ok ext next F -> b ∈ blocks F -> i ∈ getInstructions b F -> ext c -> replacement ext F i c.
Proof.
  intros O Hb Hi Hc. pose proof (ok_held _ _ _ O b i Hb Hi) as S. split.
  - right. right. by right.
  - intros ->. by apply (ok_disjoint _ _ _ O) in S as [_ ?].
  - by apply (ok_ext_block _ _ _ O).
  - intros k K. exfalso. assert (Sc : is_Some (insts F !! c)).
    { unfold kind_of in K. destruct (insts F !! c); [by eexists | done]. }
    by apply (ok_disjoint _ _ _ O) in Sc as [_ ?].
Qed.

Section ReplaceErase.
Context (ext : ref -> Prop) (next : ref) (F : MIRFunction) (b i c : ref).
Context (O : fn_ok ext next F) (Hb : b ∈ blocks F) (Hi : i ∈ getInstructions b F).
Context (Ti : forall k, kind_of i F = Some k -> targets k = []) (Hc : replacement ext F i c).

Lemma replace_erase_transformed : transformed (subst_ref i c) [] [i] F (replace_erase b i c F).
Proof.
  assert (Np : forall a, a ∈ ([] : list ref) -> ~ placed F a) by (intros a Q; by apply not_elem_of_nil in Q).
  pose proof (transformed_replace _ [] [] F F (transformed_refl F) Np i c (rp_label _ _ _ _ Hc)) as T.
  apply (transformed_erase_inst _ [] [] F _ T b i); [apply not_elem_of_nil | done | done |].
  intros x Hx Hj. by apply (ok_apart _ _ _ O x b i).
Qed.

Lemma re_blocks : blocks (replace_erase b i c F) = blocks F.
Proof. apply (tf_blocks _ _ _ _ _ replace_erase_transformed). Qed.

Lemma re_has x : has_block x (replace_erase b i c F) <-> has_block x F.
Proof. apply (tf_has _ _ _ _ _ replace_erase_transformed). Qed.

Lemma re_in x j : x ∈ blocks F ->
  j ∈ getInstructions x (replace_erase b i c F) <-> j ∈ getInstructions x F /\ j <> i.
Proof.
  intros Hx. rewrite (tf_instructions _ _ _ _ _ replace_erase_transformed x Hx), elem_of_app, list_elem_of_filter.
  rewrite list_elem_of_singleton. case_decide; rewrite elem_of_nil; tauto.
Qed.

Lemma re_kind j : j <> i -> placed F j ->
  kind_of j (replace_erase b i c F) = replaceOperand false i c <$> kind_of j F.
Proof.
  intros N P. unfold kind_of. rewrite (tf_kept _ _ _ _ _ replace_erase_transformed j P) by by rewrite list_elem_of_singleton.
  destruct (insts F !! j); [cbn; by rewrite replaceOperand_map | done].
Qed.

Lemma re_insts j : is_Some (insts (replace_erase b i c F) !! j) -> is_Some (insts F !! j).
Proof.
  pose proof replace_erase_transformed as T. intros S. destruct (decide (placed F j)) as [P | P].
  - destruct (decide (j = i)) as [-> | N]; [by apply (ok_held _ _ _ O b) |].
    by rewrite (tf_kept _ _ _ _ _ T j P), fmap_is_Some in S by by rewrite list_elem_of_singleton.
  - by rewrite (tf_unplaced _ _ _ _ _ T j P) in S by apply not_elem_of_nil.
Qed.

Lemma entry_in_blocks : getEntryBlock F ∈ blocks F.
Proof. unfold getEntryBlock. destruct (blocks F); [by apply not_elem_of_nil in Hb | left]. Qed.

Lemma replace_erase_ok : fn_ok ext next (replace_erase b i c F).
Proof.
  pose proof replace_erase_transformed as T.
  assert (Out : forall v, subst_ref i c v <> v -> v = i) by (intros v Q; by destruct (decide (v = i)); [| rewrite subst_ref_other in Q]).
  apply (transformed_ok ext (subst_ref i c) [] [i] F _ next next O T); [done | | exact entry_in_blocks | | | |].
  - intros a Q. by apply not_elem_of_nil in Q.
  - intros j k _ ->%list_elem_of_singleton. by apply Ti.
  - intros v ->%Out. by apply (ok_held _ _ _ O b).
  - intros v ->%Out. unfold subst_ref. rewrite N.eqb_refl. destruct Hc as [A B C D]. right.
    by rewrite list_elem_of_singleton.
  - intros j k v _ _ _ _ ->%list_elem_of_singleton. unfold subst_ref. rewrite N.eqb_refl. apply (rp_other _ _ _ _ Hc).
Qed.

End ReplaceErase.

(** ** Folding a branch *)

Section FoldBranch.
Context (ext : ref -> Prop) (n : ref) (F : MIRFunction) (b c t f : ref) (v : bool) (J : MIRInst).
Context (O : fn_ok ext n F) (Hb : b ∈ blocks F).
Context (EJ : insts F !! terminator b F = Some J) (KJ : i_kind J = CondBranchInst c t f).

Abbreviation target := (if v then t else f).
Abbreviation deadTarget := (if v then f else t).

Let newBr : MIRInst := {| i_kind := BranchInst target; i_type := nullptr; i_name := "";
                          i_loc := i_loc J; i_borrow := None; i_parent := nullptr |}.
Let G : MIRFunction := addInstruction b n (pop_back b (snd (new_inst newBr (with_next n F)))).
Let H : MIRFunction :=
  if N.eqb deadTarget target then G
  else removePredecessor deadTarget b (removeSuccessor b deadTarget
         (upd_phis deadTarget (removeIncoming b) G)).

Lemma fb_kind : kind_of (terminator b F) F = Some (CondBranchInst c t f).
Proof. unfold kind_of. by rewrite EJ, <- KJ. Qed.

Lemma fb_last : last (getInstructions b F) = Some (terminator b F).
Proof.
  unfold terminator. destruct (last (getInstructions b F)) eqn:E; [done |]. exfalso.
  pose proof (fn_ok_null _ _ _ O) as N. unfold kind_of in N. unfold terminator in EJ.
  rewrite E in EJ. cbn [from_option id] in EJ. by rewrite EJ in N.
Qed.

Lemma fb_in : terminator b F ∈ getInstructions b F.
Proof. apply terminator_in. intros E. pose proof fb_last as L. by rewrite E in L. Qed.

Lemma fb_old : terminator b F <> n.
Proof.
  intros E. pose proof (ok_held _ _ _ O b _ Hb fb_in) as S.
  apply (ok_inst_fresh _ _ _ O) in S. lia.
Qed.

Lemma fb_nonnull : t <> nullptr /\ f <> nullptr.
Proof. by apply (ok_branch _ _ _ O b (terminator b F) c t f Hb fb_in fb_kind). Qed.

Lemma fb_term : term_targets b F = [t; f].
Proof.
  destruct fb_nonnull. rewrite (term_targets_kind _ _ _ fb_kind). cbn [targets].
  by rewrite !filter_cons_True, filter_nil.
Qed.

Lemma fb_block : t ∈ blocks F /\ f ∈ blocks F.
Proof.
  split; apply (wf_closed _ (ok_wf _ _ _ O) b); try done; rewrite fb_term; [left | right; left].
Qed.

Lemma fb_target : target <> nullptr /\ target ∈ blocks F /\ deadTarget ∈ blocks F.
Proof. destruct fb_nonnull, fb_block. by destruct v. Qed.

Lemma fb_has_target : has_block target F.
Proof. apply (wf_heap _ (ok_wf _ _ _ O)), fb_target. Qed.

Lemma fb_has_b : has_block b F.
Proof. by apply (wf_heap _ (ok_wf _ _ _ O)). Qed.

Abbreviation K := (eq_refl : i_kind newBr = BranchInst target).

Lemma fb_same : blocks H = blocks G
  /\ (forall x, has_block x H <-> has_block x G)
  /\ (forall x, getInstructions x H = getInstructions x G)
  /\ (forall j, is_Some (insts H !! j) <-> is_Some (insts G !! j))
  /\ (forall j k, kind_of j H = Some k -> exists k0, kind_of j G = Some k0 /\ fewer b k k0)
  /\ next_ref H = next_ref G.
Proof.
  unfold H. destruct (N.eqb deadTarget target).
  - split_and!; try done. intros j k E. exists k. split; [done | by left].
  - set (P := upd_phis deadTarget (removeIncoming b) G).
    assert (S : same_code G (removePredecessor deadTarget b (removeSuccessor b deadTarget P))).
    { etransitivity; [apply same_code_upd_phis |]. etransitivity; [apply same_code_removeSuccessor |].
      apply same_code_removePredecessor. }
    split_and!; try apply S.
    + intros j. apply (upd_phis_kind deadTarget b G j).
    + intros j k E. by apply (upd_phis_kind deadTarget b G j).
Qed.

Lemma fb_edges x y :
  (y ∈ getSuccessors x H <->
     (y ∈ getSuccessors x F \/ x = b /\ y = target) /\ ~ (x = b /\ y = deadTarget /\ deadTarget <> target))
  /\ (y ∈ getPredecessors x H <->
     (y ∈ getPredecessors x F \/ x = target /\ y = b) /\ ~ (x = deadTarget /\ y = b /\ deadTarget <> target)).
Proof.
  destruct (nb_edges F n b (terminator b F) target newBr K (proj1 fb_target) fb_has_b fb_has_target
    fb_last fb_old x y) as [ES EP]. fold G in ES, EP.
  unfold H. destruct (N.eqb_spec deadTarget target) as [E | N]; [rewrite ES, EP; tauto |].
  destruct (same_edges_upd_phis deadTarget (removeIncoming b) G x) as [S P].
  rewrite getSuccessors_removePredecessor, getSuccessors_removeSuccessor.
  rewrite getPredecessors_removePredecessor, getPredecessors_removeSuccessor.
  rewrite S, P. repeat case_decide; rewrite ?elem_of_erase_all, ?ES, ?EP; tauto.
Qed.

Lemma fb_kinds j k : kind_of j H = Some k ->
  j = n /\ k = BranchInst target
  \/ j <> n /\ j <> terminator b F /\ exists k0, kind_of j F = Some k0 /\ fewer b k k0.
Proof.
  intros E. destruct fb_same as (_ & _ & _ & SI & S & _). pose proof E as E0.
  apply S in E as (k0 & E & L).
  destruct (decide (j = n)) as [-> | Nn].
  - left. split; [done |]. unfold G in E.
    rewrite (nb_kind_new F n b (terminator b F) target newBr K (proj1 fb_target) fb_last fb_old) in E.
    injection E as <-. destruct L as [? | (inc & [=] & _)]. done.
  - destruct (decide (j = terminator b F)) as [-> | Nt].
    + exfalso. assert (Q : is_Some (insts G !! terminator b F)).
      { unfold kind_of in E. destruct (insts G !! terminator b F); [by eexists | done]. }
      unfold G in Q.
      apply (nb_insts F n b (terminator b F) target newBr K (proj1 fb_target) fb_last fb_old) in Q.
      destruct Q as [Q | [Q _]]; [by apply fb_old | done].
    + right. split_and!; [done | done |]. exists k0. split; [| done]. unfold G in E.
      by rewrite (nb_kind F n b (terminator b F) target newBr K (proj1 fb_target) fb_last fb_old j) in E.
Qed.

Lemma fb_blocks : blocks H = blocks F.
Proof.
  rewrite (proj1 fb_same). unfold G.
  by rewrite (nb_blocks F n b (terminator b F) target newBr K (proj1 fb_target) fb_last fb_old).
Qed.

Lemma fb_has x : has_block x H <-> has_block x F.
Proof.
  destruct fb_same as (_ & S & _). rewrite S. unfold G.
  by rewrite (nb_has F n b (terminator b F) target newBr K (proj1 fb_target) fb_last fb_old).
Qed.

Lemma fb_instructions x : getInstructions x H =
  if decide (x = b) then removelast (getInstructions b F) ++ [n] else getInstructions x F.
Proof.
  destruct fb_same as (_ & _ & S & _). rewrite S. unfold G.
  by rewrite (nb_instructions F n b (terminator b F) target newBr K (proj1 fb_target) fb_has_b fb_last fb_old).
Qed.

Lemma fb_insts j : is_Some (insts H !! j) <-> j = n \/ j <> terminator b F /\ is_Some (insts F !! j).
Proof.
  destruct fb_same as (_ & _ & _ & S & _). rewrite S. unfold G.
  by rewrite (nb_insts F n b (terminator b F) target newBr K (proj1 fb_target) fb_last fb_old).
Qed.

Lemma fb_rewired : rewired F b n (BranchInst target) H.
Proof.
  pose proof (ok_edges _ _ _ O) as C.
  assert (Su : forall x y, x ∈ blocks F ->
    y ∈ getSuccessors x H <-> if decide (x = b) then y ∈ [target] else y ∈ getSuccessors x F).
  { intros x y Hx. rewrite (proj1 (fb_edges x y)). case_decide as D; [| tauto].
    subst x. rewrite list_elem_of_singleton, (co_succ _ C b y Hx), fb_term, !elem_of_cons, elem_of_nil.
    destruct v; destruct (decide (t = f)); intuition congruence. }
  split.
  - apply fb_blocks.
  - apply fb_has.
  - apply fb_instructions.
  - apply fb_insts.
  - assert (S : is_Some (kind_of n H)).
    { unfold kind_of. rewrite fmap_is_Some. apply fb_insts. by left. }
    destruct S as [k E]. pose proof E as E0. by apply fb_kinds in E0 as [[_ ->] | [? _]].
  - intros j k N E. by apply fb_kinds in E as [[? _] | (_ & _ & ?)].
  - exact Su.
  - intros y x Hy. rewrite (proj2 (fb_edges y x)). cbn [targets].
    case_decide as D; [subst x; rewrite list_elem_of_singleton | tauto].
    assert (P : b ∈ getPredecessors y F <-> y ∈ getSuccessors b F) by (rewrite (co_pred _ C y b Hy); tauto).
    rewrite P, (co_succ _ C b y Hb), fb_term, !elem_of_cons, elem_of_nil.
    destruct v; destruct (decide (t = f)); intuition congruence.
Qed.

Lemma fold_branch_ok : fn_ok ext (N.succ n) H.
Proof.
  apply (rewired_ok ext n (N.succ n) F H b n (CondBranchInst c t f) (BranchInst target)); try done.
  - apply fb_kind.
  - by right.
  - apply fb_rewired.
  - intros y Hy%list_elem_of_singleton. subst y. split; apply fb_target.
  - intros y Hy. by left.
Qed.

End FoldBranch.
