(* ===== verification/ConstFoldModule.v ===== *)
(** * Constant folding: modules

    The invariant of a module and that a run of the pass keeps it; programs on which the
    pass changes the meaning. *)

From S2P Require Import Prelude Diag HIRType MIR MIRFacts SimplifyCFG SimplifyCFGProps MIRModule MIRUses ConstFold ConstFoldProps ConstFoldSafe.

Implicit Types (F : MIRFunction) (G : MIRGlobal) (M : MIRModule) (b c f g i j v x : ref).

Section Safe.
(** The arguments and functions: values that are no object of a body, constant or global. *)
Context (other : ref -> Prop).

Definition outside M v : Prop := is_Some (consts M !! v) \/ is_Some (globs M !! v) \/ other v.

(** Every function keeps its invariant; the initializers are constants. *)
Record module_ok M : Prop := {
  mo_fns : forall f func, fns M !! f = Some func -> fn_ok (outside M) (m_next M) (fn_body func);
  mo_outside : forall v, outside M v -> (v < m_next M)%N;
  mo_init : forall g G, globs M !! g = Some G -> initializer G <> nullptr ->
    is_Some (consts M !! initializer G);
}.

(** While a function is worked on, its body is in the state and not in the module. *)
Record state_ok f M F : Prop := {
  so_fns : forall f' func, f' <> f -> fns M !! f' = Some func ->
    fn_ok (outside M) (m_next M) (fn_body func);
  so_body : fn_ok (outside M) (m_next M) F;
  so_outside : forall v, outside M v -> (v < m_next M)%N;
  so_init : forall g G, globs M !! g = Some G -> initializer G <> nullptr ->
    is_Some (consts M !! initializer G);
}.

(** [M'] has more constants than [M], at free addresses. *)
Record grows M M' : Prop := {
  gr_fns : fns M' = fns M;
  gr_functions : functions M' = functions M;
  gr_globs : globs M' = globs M;
  gr_next : (m_next M <= m_next M')%N;
  gr_old : forall v, is_Some (consts M !! v) -> is_Some (consts M' !! v);
  gr_same : forall v C, (v < m_next M)%N -> consts M !! v = Some C -> consts M' !! v = Some C;
  gr_new : forall v, is_Some (consts M' !! v) ->
    is_Some (consts M !! v) \/ (m_next M <= v < m_next M')%N;
}.

#[export] Instance grows_preorder : PreOrder grows.
Proof.
  split; [intros M; split; try done; by left |].
  intros M1 M2 M3 [A1 A2 A3 A4 A5 A7 A6] [B1 B2 B3 B4 B5 B7 B6].
  split; [congruence .. | lia | auto | | ].
  { intros v C L E. apply B7; [lia | by apply A7]. }
  intros v Hv. destruct (B6 v Hv) as [Q | Q]; [| right; lia].
  destruct (A6 v Q) as [? | ?]; [by left | right; lia].
Qed.

Lemma grows_constant k t M :
  grows M (snd (getOrInsertConstant k t M)) /\
  is_Some (consts (snd (getOrInsertConstant k t M)) !! fst (getOrInsertConstant k t M)).
Proof.
  unfold getOrInsertConstant. cbn [fst snd]. split.
  - split; try done; cbn.
    + lia.
    + intros v Hv. destruct (decide (v = m_next M)) as [-> | N].
      * rewrite lookup_insert_eq. by eexists.
      * by rewrite lookup_insert_ne.
    + intros v C L E. rewrite lookup_insert_ne; [done | lia].
    + intros v Hv. destruct (decide (v = m_next M)) as [-> | N]; [right; lia |].
      rewrite lookup_insert_ne in Hv by done. by left.
  - cbn. rewrite lookup_insert_eq. by eexists.
Qed.

Lemma grows_type t cache M : grows M (snd (new_type t cache M)).
Proof. split; try done. intros v Hv. by left. Qed.

Lemma grows_set_next n M : (m_next M <= n)%N -> grows M (set_next n M).
Proof. intros L. split; try done. intros v Hv. by left. Qed.

Lemma outside_grows M M' v : grows M M' -> outside M v -> outside M' v.
Proof.
  intros Gr [H | [H | H]]; unfold outside; rewrite (gr_globs _ _ Gr); auto.
  left. by apply (gr_old _ _ Gr).
Qed.

Lemma outside_grows_inv M M' v : grows M M' -> outside M' v ->
  outside M v \/ (m_next M <= v < m_next M')%N.
Proof.
  intros Gr. unfold outside. rewrite (gr_globs _ _ Gr). intros [H | H]; [| tauto].
  destruct (gr_new _ _ Gr v H); tauto.
Qed.

Lemma fn_ok_grows M M' F :
  grows M M' -> (forall v, outside M v -> (v < m_next M)%N) ->
  fn_ok (outside M) (m_next M) F -> fn_ok (outside M') (m_next M') F.
Proof.
  intros Gr B O. apply (fn_ok_extend (outside M) _ (m_next M)); [done | | | apply Gr].
  - intros v. by apply outside_grows.
  - intros v Hv. pose proof (gr_next _ _ Gr) as Le. destruct (outside_grows_inv M M' v Gr Hv) as [H | H].
    + specialize (B v H). split; [by left | lia].
    + split; [right |]; lia.
Qed.

Lemma state_ok_grows f M M' F : grows M M' -> state_ok f M F -> state_ok f M' F.
Proof.
  intros Gr [S1 S2 S3 S4]. split.
  - intros f' func N E. rewrite (gr_fns _ _ Gr) in E.
    apply (fn_ok_grows M); [done | done | by apply (S1 f')].
  - by apply (fn_ok_grows M).
  - intros v Hv. pose proof (gr_next _ _ Gr) as Le.
    destruct (outside_grows_inv M M' v Gr Hv) as [H | H]; [specialize (S3 v H) |]; lia.
  - intros g G E N. rewrite (gr_globs _ _ Gr) in E. by apply (gr_old _ _ Gr), (S4 g).
Qed.

Lemma state_ok_body f M F F' : fn_ok (outside M) (m_next M) F' -> state_ok f M F -> state_ok f M F'.
Proof. intros O [S1 S2 S3 S4]. by split. Qed.

(** ** Instructions *)

(** What a step on the function [f] keeps: its blocks, and the other functions. *)
Record step_ok f (bl : list ref) (st : bool * MIRModule * MIRFunction) : Prop := {
  st_ok : state_ok f (snd (fst st)) (snd st);
  st_blocks : blocks (snd st) = bl;
}.

Lemma step_replace f bl ch M F b i c :
  step_ok f bl (ch, M, F) -> b ∈ bl -> i ∈ getInstructions b F ->
  (forall k, kind_of i F = Some k -> targets k = []) -> replacement (outside M) F i c ->
  step_ok f bl (true, M, replace_erase b i c F)
  /\ forall j, j ∈ getInstructions b (replace_erase b i c F) <-> j ∈ getInstructions b F /\ j <> i.
Proof.
  intros [S B] Hb Hi Ti R. cbn [fst snd] in *. subst bl.
  pose proof (so_body _ _ _ S) as O. split; [split; cbn [fst snd] |].
  - apply (state_ok_body f M F); [| done]. by apply replace_erase_ok.
  - by apply (re_blocks (outside M) (m_next M)).
  - intros j. by apply (re_in (outside M) (m_next M)).
Qed.

(** A constant or a global may replace any instruction. *)
Lemma step_replacement f bl ch M F b i c :
  step_ok f bl (ch, M, F) -> b ∈ bl -> i ∈ getInstructions b F -> outside M c ->
  replacement (outside M) F i c.
Proof.
  intros [S B] Hb Hi Hc. cbn [fst snd] in *. subst bl.
  by apply (replacement_ext _ (m_next M) F b); [apply S | | |].
Qed.

(** The loop over the instructions that a block has at its start. *)
Lemma inst_loop (I : bool * MIRModule * MIRFunction -> Prop) b
    (step : bool * MIRModule * MIRFunction -> ref -> option (bool * MIRModule * MIRFunction)) :
  (forall st i, I st -> i ∈ getInstructions b (snd st) -> forall st', step st i = Some st' ->
     I st' /\ forall j, j ∈ getInstructions b (snd st) -> j <> i -> j ∈ getInstructions b (snd st')) ->
  forall l st st', I st -> NoDup l -> (forall i, i ∈ l -> i ∈ getInstructions b (snd st)) ->
  fold_some step l st = Some st' -> I st'.
Proof.
  intros Step l. induction l as [| i l IH]; intros st st' S N Hl E; cbn [fold_some] in E; [by simplify_eq |].
  destruct (step st i) as [st1 |] eqn:E1; [| done]. cbn [mbind option_bind] in E.
  apply NoDup_cons in N as [N1 N2].
  destruct (Step st i S (Hl i ltac:(left)) st1 E1) as [S1 K1].
  apply (IH st1 st' S1 N2); [| done]. intros j Hj. apply K1; [apply Hl; by right | by intros ->].
Qed.

Lemma fold_some_total {A B} (h : A -> B -> A) (l : list B) (a : A) :
  fold_some (fun a (b : B) => Some (h a b)) l a = Some (fold_left h l a).
Proof. revert a. induction l as [| y l IH]; intros a; [done | apply IH]. Qed.

(** An invariant of a step on the instructions of a function is one of the loop over them. *)
Lemma each_inst_inv (I : bool * MIRModule * MIRFunction -> Prop) f bl
    (h : ref -> bool * MIRModule * MIRFunction -> ref -> bool * MIRModule * MIRFunction) :
  (forall st, I st -> step_ok f bl st) ->
  (forall b st i, I st -> b ∈ bl -> i ∈ getInstructions b (snd st) ->
     I (h b st i)
     /\ forall j, j ∈ getInstructions b (snd st) -> j <> i -> j ∈ getInstructions b (snd (h b st i))) ->
  forall st, I st -> I (each_inst h st).
Proof.
  intros St Step st S. unfold each_inst. rewrite (st_blocks _ _ _ (St st S)).
  enough (Q : forall l st, I st -> (forall b, b ∈ l -> b ∈ bl) ->
    I (fold_left (fun st b => fold_left (h b) (getInstructions b (snd st)) st) l st)) by by apply Q.
  clear st S. intros l. induction l as [| b l IH]; intros st S Sub; [done |]. cbn [fold_left].
  apply IH; [| intros b' Hb'; apply Sub; by right].
  refine (inst_loop I b (fun st i => Some (h b st i)) _ (getInstructions b (snd st)) st _ S _ _ _).
  - intros st0 i S0 Hi st1 [= <-]. apply Step; [done | apply Sub; left | done].
  - destruct (St st S) as [S1 B]. apply (ok_nodup _ _ _ (so_body _ _ _ S1)). rewrite B. apply Sub. left.
  - done.
  - apply fold_some_total.
Qed.

Lemma fn_ok_empty (ext : ref -> Prop) n :
  (forall v, ext v -> (v < n)%N) -> fn_ok ext n {| insts := ∅; bbs := ∅; blocks := []; next_ref := n |}.
Proof.
  intros He.
  assert (NI : forall v, ~ is_Some ((∅ : gmap ref MIRInst) !! v)) by (intros v; rewrite lookup_empty; by intros []).
  assert (NB : forall v, ~ is_Some ((∅ : gmap ref MIRBlock) !! v)) by (intros v; rewrite lookup_empty; by intros []).
  split; unfold has_block; cbn; try done; try (intros b * Hb; by apply not_elem_of_nil in Hb);
    try (intros v Hv; by (apply NI in Hv || apply NB in Hv)).
  - split; cbn; try (intros b * Hb; by apply not_elem_of_nil in Hb). done.
  - split; cbn; intros b * Hb; by apply not_elem_of_nil in Hb.
Qed.

Lemma module_state f M ch : module_ok M -> step_ok f (blocks (body f M)) (ch, M, body f M).
Proof.
  intros [A1 A2 A3]. split; [| done]. cbn [fst snd]. split; try done.
  - intros f' func' _ E'. by apply (A1 f').
  - unfold body. destruct (fns M !! f) as [func |] eqn:E; [by apply (A1 f) | by apply fn_ok_empty].
Qed.

Lemma state_module f M F : state_ok f M F -> module_ok (set_body f F M).
Proof.
  intros [A1 A2 A3 A4]. split; try done. intros f' func E. unfold set_body, set_fns in E. cbn [fns] in E.
  destruct (decide (f' = f)) as [-> | N].
  - rewrite lookup_alter_eq in E. apply fmap_Some in E as (func0 & _ & ->). done.
  - rewrite lookup_alter_ne in E by done. by apply (A1 f').
Qed.

Lemma step_module f bl st : step_ok f bl st -> module_ok (set_body f (snd st) (snd (fst st))).
Proof. intros [S _]. by apply state_module. Qed.

(** ** The pass *)

Context (fuel : nat) (argType : ref -> TypePtr).

Lemma folded_constant_grows k t M r M' :
  folded_constant k t M = Some (r, M') ->
  grows M M' /\ forall c, r = Some c -> is_Some (consts M' !! c).
Proof.
  unfold folded_constant. destruct (grows_constant k t M) as [Gr Hc].
  destruct (getOrInsertConstant k t M) as [c M1]. intros [= <- <-]. split; [done |].
  by intros ? [= <-].
Qed.

Lemma fold_value_grows M F J r M' :
  fold_value fuel argType M F J = Some (r, M') ->
  grows M M' /\ forall c, r = Some c -> is_Some (consts M' !! c) /\ targets (i_kind J) = [].
Proof.
  assert (None_ : forall M, grows M M /\ forall c, @None ref = Some c -> is_Some (consts M !! c)) by done.
  enough (H : fold_value fuel argType M F J = Some (r, M') ->
    grows M M' /\ forall c, r = Some c -> is_Some (consts M' !! c)).
  { intros E. destruct (H E) as [Gr Hc]. split; [done |]. intros c ->. split; [by apply Hc |].
    unfold fold_value in E. destruct (i_kind J); done. }
  unfold fold_value. destruct (i_kind J); try (intros [= <- <-]; apply None_).
  - unfold fold_extract. destruct (consts M !! agg) as [c |]; [| intros [= <- <-]; apply None_].
    destruct (c_kind c); try (intros [= <- <-]; apply None_).
    repeat case_match; try (intros [= <- <-]; apply None_); try apply folded_constant_grows.
    intros E. apply folded_constant_grows in E as [Gr Hc]. split; [| done].
    etransitivity; [| exact Gr].
    pose proof (grows_type (ArrayType element (Z.of_nat (length elements))) (pointerTypeCache M) M) as G1.
    match goal with H : getArrayType _ _ _ = (?t, ?M1), H' : getOrInsertConstant ?k ?t' ?M1 = (_, ?M2) |- _ =>
      pose proof (grows_constant k t' M1) as [G2 _]; rewrite H' in G2;
      unfold getArrayType in H; rewrite H in G1 end.
    by etransitivity.
  - unfold fold_binary. destruct (unwrapCasts fuel M F lhs) as [l |]; [| done]. cbn [mbind option_bind].
    destruct (unwrapCasts fuel M F rhs) as [r' |]; [| done]. cbn [mbind option_bind].
    repeat case_match; try done; try (intros [= <- <-]; apply None_); try apply folded_constant_grows.
    destruct (is_signed_type fuel M (i_type J)); [| done]. cbn [mbind option_bind].
    case_match; [intros [= <- <-]; apply None_ | apply folded_constant_grows | done].
  - unfold fold_compare. destruct (unwrapCasts fuel M F lhs) as [l |]; [| done]. cbn [mbind option_bind].
    destruct (unwrapCasts fuel M F rhs) as [r' |]; [| done]. cbn [mbind option_bind].
    repeat case_match; try done; try (intros [= <- <-]; apply None_); try apply folded_constant_grows.
    destruct (compare_signed fuel argType M F l); [| done]. apply folded_constant_grows.
  - unfold fold_fcompare. destruct (unwrapCasts fuel M F lhs) as [l |]; [| done]. cbn [mbind option_bind].
    destruct (unwrapCasts fuel M F rhs) as [r' |]; [| done]. cbn [mbind option_bind].
    repeat case_match; try done; try (intros [= <- <-]; apply None_); try apply folded_constant_grows.
Qed.

Lemma fold_inst_ok f bl b st i st' :
  step_ok f bl st -> b ∈ bl -> i ∈ getInstructions b (snd st) ->
  fold_inst fuel argType b st i = Some st' ->
  step_ok f bl st' /\ forall j, j ∈ getInstructions b (snd st) -> j <> i -> j ∈ getInstructions b (snd st').
Proof.
  destruct st as [[ch M] F]. cbn [fst snd]. intros S Hb Hi E. unfold fold_inst in E.
  destruct (insts F !! i) as [J |] eqn:EJ; [| by simplify_eq].
  destruct (fold_value fuel argType M F J) as [[r M1] |] eqn:EV; [| done].
  cbn [mbind option_bind] in E. apply fold_value_grows in EV as [Gr Hr].
  assert (S1 : forall ch, step_ok f bl (ch, M1, F)).
  { intros ch'. split; [| apply S]. cbn [fst snd]. apply (state_ok_grows f M); [done | apply S]. }
  destruct r as [c |]; simplify_eq; cbn [snd]; [| done].
  destruct (Hr c eq_refl) as [Hc Tc].
  destruct (step_replace f bl ch M1 F b i c (S1 ch) Hb Hi) as [S2 K2].
  - unfold kind_of. rewrite EJ. intros k [= <-]. done.
  - apply (step_replacement f bl ch M1 F b); [done | done | done | by left].
  - split; [done |]. intros j Hj N. by apply K2.
Qed.

Lemma fold_branch_step f bl b st :
  step_ok f bl st -> b ∈ bl -> step_ok f bl (fold_branch b st).
Proof.
  destruct st as [[ch M] F]. intros [S B] Hb. cbn [fst snd] in *. unfold fold_branch.
  destruct (insts F !! terminator b F) as [J |] eqn:EJ; [| by split].
  destruct (i_kind J) eqn:KJ; try by split.
  destruct (const_of cond M) as [[] |]; try by split.
  cbn [new_inst]. subst bl. pose proof (so_body _ _ _ S) as O.
  pose proof (fold_branch_ok (outside M) (m_next M) F b cond trueBlock falseBlock value J O Hb EJ KJ) as O'.
  assert (Gr : grows M (set_next (N.succ (m_next M)) M)) by (apply grows_set_next; lia).
  split; cbn [fst snd]; [| by apply (fb_blocks (outside M) (m_next M) F b cond trueBlock falseBlock value J O Hb EJ KJ)].
  eapply state_ok_body; [exact O' | by apply (state_ok_grows f M)].
Qed.

Lemma fold_block_ok f bl st b st' :
  step_ok f bl st -> b ∈ bl -> fold_block fuel argType st b = Some st' -> step_ok f bl st'.
Proof.
  intros S Hb E. unfold fold_block in E.
  destruct (fold_some (fold_inst fuel argType b) (getInstructions b (snd st)) st) as [st1 |] eqn:E1; [| done].
  cbn [mbind option_bind] in E. simplify_eq. apply fold_branch_step; [| done].
  apply (inst_loop (step_ok f bl) b (fold_inst fuel argType b)) with (l := getInstructions b (snd st)) (st := st); try done.
  - intros st0 i S0 Hi st1' E0. by apply (fold_inst_ok f bl b st0 i).
  - destruct S as [S B]. apply (ok_nodup _ _ _ (so_body _ _ _ S)). by rewrite B.
Qed.

Lemma block_loop f bl l st st' :
  step_ok f bl st -> (forall b, b ∈ l -> b ∈ bl) ->
  fold_some (fold_block fuel argType) l st = Some st' -> step_ok f bl st'.
Proof.
  revert st. induction l as [| b l IH]; intros st S Hl E; cbn [fold_some] in E; [by simplify_eq |].
  destruct (fold_block fuel argType st b) as [st1 |] eqn:E1; [| done]. cbn [mbind option_bind] in E.
  apply (IH st1); [| intros b' Hb'; apply Hl; by right | done].
  apply (fold_block_ok f bl st b); [done | apply Hl; left | done].
Qed.

(** ** Modules *)

(** The step of the loads, while the global [g] is initialized by [init]. *)
Lemma fold_load_ok f bl g G b st i :
  step_ok f bl st -> globs (snd (fst st)) !! g = Some G -> initializer G <> nullptr -> b ∈ bl ->
  i ∈ getInstructions b (snd st) ->
  let st' := fold_load g (initializer G) b st i in
  (step_ok f bl st' /\ globs (snd (fst st')) !! g = Some G)
  /\ forall j, j ∈ getInstructions b (snd st) -> j <> i -> j ∈ getInstructions b (snd st').
Proof.
  destruct st as [[ch M] F]. cbn [fst snd]. intros S EG NG Hb Hi. unfold fold_load.
  destruct (insts F !! i) as [J |] eqn:EJ; [| done].
  destruct (i_kind J) eqn:KJ; try done. destruct (negb isVolatile && N.eqb ptr g); [| done].
  assert (L : exists c M1, load_value M (initializer G) (i_type J) = (c, M1) /\ grows M M1
    /\ is_Some (consts M1 !! c)).
  { pose proof (so_init _ _ _ (st_ok _ _ _ S) g G EG NG) as HI. cbn [fst snd] in HI.
    unfold load_value. destruct HI as [C EC]. rewrite EC.
    destruct (N.eqb (c_type C) (i_type J)); [exists (initializer G), M; split_and!; [done | done | by eexists] |].
    destruct (c_kind C);
      match goal with |- context [getOrInsertConstant ?k ?t M] =>
        destruct (grows_constant k t M) as [G1 G2]; destruct (getOrInsertConstant k t M) as [c M1];
        exists c, M1; by split_and! end. }
  destruct L as (c & M1 & -> & Gr & Hc). cbn [fst snd].
  assert (S1 : step_ok f bl (ch, M1, F)).
  { split; [| apply S]. cbn [fst snd]. apply (state_ok_grows f M); [done | apply S]. }
  destruct (step_replace f bl ch M1 F b i c S1 Hb Hi) as [S2 K2].
  - unfold kind_of. rewrite EJ. intros k [= <-]. by rewrite KJ.
  - apply (step_replacement f bl ch M1 F b); [done | done | done | by left].
  - split_and!; [done | by rewrite (gr_globs _ _ Gr) |]. intros j Hj N. by apply K2.
Qed.

Lemma each_inst_ok f bl g G st :
  step_ok f bl st -> globs (snd (fst st)) !! g = Some G -> initializer G <> nullptr ->
  let st' := each_inst (fold_load g (initializer G)) st in
  step_ok f bl st' /\ globs (snd (fst st')) !! g = Some G.
Proof.
  intros S EG NG.
  apply (each_inst_inv (fun st => step_ok f bl st /\ globs (snd (fst st)) !! g = Some G) f bl); [by intros ? [] | | done].
  intros b st0 i [S0 E0] Hb Hi. by apply (fold_load_ok f bl g G b st0 i S0 E0 NG).
Qed.

Lemma inline_global_ok mutated st g : module_ok (snd st) -> module_ok (snd (inline_global mutated st g)).
Proof.
  destruct st as [ch M]. cbn [snd]. intros MO. unfold inline_global.
  destruct (globs M !! g) as [G |] eqn:EG; [| done].
  destruct (N.eqb_spec (initializer G) nullptr) as [| NG]; [done |]. cbn [negb andb].
  match goal with |- context [if ?c then _ else _] => destruct c end; [| done].
  set (step := fun '(changed, M) f => _).
  enough (H : forall l ch M, module_ok M -> globs M !! g = Some G -> module_ok (snd (fold_left step l (ch, M))))
    by by apply H.
  clear ch M MO EG. intros l. induction l as [| f l IH]; intros ch M MO EG; [done |]. cbn [fold_left].
  pose proof (each_inst_ok f _ g G _ (module_state f M ch MO) EG NG) as [S1 G1]. unfold step at 2.
  destruct (each_inst (fold_load g (initializer G)) (ch, M, body f M)) as [[ch1 M1] F1]. cbn [fst snd] in *.
  apply IH; [by apply (step_module f _ _ S1) | done].
Qed.

Lemma fold_function_ok st f st' :
  module_ok (snd st) -> fold_function fuel argType st f = Some st' -> module_ok (snd st').
Proof.
  destruct st as [ch M]. cbn [snd]. intros MO E. unfold fold_function in E.
  destruct (fold_some (fold_block fuel argType) (blocks (body f M)) (ch, M, body f M)) as [[[ch1 M1] F1] |] eqn:E1;
    [| done]. cbn [mbind option_bind] in E. simplify_eq. cbn [snd].
  apply (block_loop f (blocks (body f M))) in E1; [| by apply module_state | done].
  by apply (step_module f _ _ E1).
Qed.

Lemma fold_functions_ok l st st' :
  module_ok (snd st) -> fold_some (fold_function fuel argType) l st = Some st' -> module_ok (snd st').
Proof.
  revert st. induction l as [| f l IH]; intros st MO E; cbn [fold_some] in E; [by simplify_eq |].
  destruct (fold_function fuel argType st f) as [st1 |] eqn:E1; [| done]. cbn [mbind option_bind] in E.
  apply (IH st1); [| done]. by apply (fold_function_ok st f).
Qed.

Lemma getFunctions_ok M : module_ok M -> module_ok (snd (getFunctions M)).
Proof. unfold getFunctions. destruct (functionsDirty M); [| done]. intros []. by split. Qed.

Lemma runOnModule_keeps M changed M' :
  module_ok M -> runOnModule fuel argType M = Some (changed, M') -> module_ok M'.
Proof.
  intros MO E. unfold runOnModule in E. pose proof (getFunctions_ok M MO) as MO1.
  destruct (getFunctions M) as [funcs M1]. cbn [snd] in MO1.
  destruct (fold_some (scan_function fuel M1) funcs []) as [mutated |]; [| done].
  cbn [mbind option_bind] in E.
  apply (fold_functions_ok funcs _ (changed, M')) in E; [done |].
  generalize (globals M1) as gs. intros gs.
  enough (H : forall st, module_ok (snd st) -> module_ok (snd (fold_left (inline_global mutated) gs st)))
    by by apply H.
  induction gs as [| g gs IH]; intros st H; [done |]. cbn [fold_left]. by apply IH, inline_global_ok.
Qed.

End Safe.

(** ** At concrete modules *)

(** Types: [1] is [u8], [2] is [i32], [3] is [bool]. *)
Definition some_types : TypeHeap :=
  list_to_map [(1%N, HIRIntType 8 false false); (2%N, HIRIntType 32 true false);
               (3%N, PrimitiveType TypeKind.Bool)].

Definition typed (t : TypePtr) (k : InstKind) : MIRInst :=
  {| i_kind := k; i_type := t; i_name := ""; i_loc := None; i_borrow := None; i_parent := nullptr |}.
Definition const_int (z : Z) (t : TypePtr) : MIRConstant := {| c_kind := ConstantInt z; c_type := t |}.

Definition module_of (F : MIRFunction) (gs : list (ref * MIRGlobal)) (cs : list (ref * MIRConstant)) : MIRModule :=
  set_consts (list_to_map cs)
    (fold_left (fun M '(g, G) => addGlobal g G M) gs
       (addFunction 200 {| fn_name := "f"; fn_body := heal F |} (newModule "m" some_types 10 300))).

(** [if ((300 as u8) == 44) return 1; else return 0;]. *)
Definition narrowed : MIRModule :=
  module_of
    {| insts := list_to_map [(11%N, typed 1 (CastInst Opcode.Trunc 50 0));
                             (12%N, typed 3 (CompareInst CmpPredicate.EQ 11 51));
                             (13%N, typed 0 (CondBranchInst 12 2 3));
                             (14%N, typed 0 (ReturnInst 52)); (15%N, typed 0 (ReturnInst 53))];
       bbs := list_to_map [(1%N, block_of [11%N; 12%N; 13%N]); (2%N, block_of [14%N]);
                           (3%N, block_of [15%N])];
       blocks := [1%N; 2%N; 3%N]; next_ref := 300%N |} []
    [(50%N, const_int 300 2); (51%N, const_int 44 1); (52%N, const_int 1 2); (53%N, const_int 0 2)].

(** [g = 0; atomic_store(&g, 5); return g;]. *)
Definition counted : MIRModule :=
  module_of
    {| insts := list_to_map [(11%N, typed 0 (AtomicStoreInst 51 60 MemoryOrder.SeqCst));
                             (12%N, typed 2 (LoadInst 60 4 false));
                             (13%N, typed 0 (ReturnInst 12))];
       bbs := list_to_map [(1%N, block_of [11%N; 12%N; 13%N])];
       blocks := [1%N]; next_ref := 300%N |}
    [(60%N, newGlobal "g" 2 50 false Linkage.Internal)]
    [(50%N, const_int 0 2); (51%N, const_int 5 2)].

(** The instruction at [i] in the function of a module, and the outcome of a run. *)
Definition ends_with (fuel : nat) (M : MIRModule) (i : ref) : option (bool * option InstKind) :=
  '(changed, M) ← runOnModule fuel (fun _ => nullptr) M; Some (changed, kind_of i (body 200 M)).

(** The pass ignores conversions.  It compares the values under the casts: in the
    program that asks whether 300 narrowed to eight bits is 44 the condition is folded to
    false, and the branch goes to the block for "not equal", although the narrowed number
    is 44. *)
Theorem fold_ignores_conversions :
  let M := narrowed in
  kind_of (terminator 1 (body 200 M)) (body 200 M) = Some (CondBranchInst 12 2 3)
  /\ kind_of 12 (body 200 M) = Some (CompareInst CmpPredicate.EQ 11 51)
  /\ kind_of 11 (body 200 M) = Some (CastInst Opcode.Trunc 50 0)
  /\ (const_of 50 M, const_of 51 M) = (Some (ConstantInt 300), Some (ConstantInt 44))
  /\ (300 mod 2 ^ 8 = 44)%Z
  /\ exists M', runOnModule 10 (fun _ => nullptr) M = Some (true, M')
       /\ kind_of (terminator 1 (body 200 M')) (body 200 M') = Some (BranchInst 3).
Proof.
  cbv zeta. split_and!; try by vm_compute.
  assert (Q : ('(ch, M) ← runOnModule 10 (fun _ => nullptr) narrowed;
    Some (ch, kind_of (terminator 1 (body 200 M)) (body 200 M))) = Some (true, Some (BranchInst 3)))
    by by vm_compute.
  destruct (runOnModule 10 (fun _ => nullptr) narrowed) as [[ch M'] |]; [| discriminate Q].
  cbn [mbind option_bind] in Q. apply (inj Some) in Q. exists M'.
  assert (ch = true) as -> by exact (f_equal fst Q). exact (conj eq_refl (f_equal snd Q)).
Qed.

(** The scan for globals that change does not look at atomic instructions: the load
    after an atomic store to a global is replaced by the initializer of the global. *)
Theorem atomic_store_ignored :
  let M := counted in
  kind_of 11 (body 200 M) = Some (AtomicStoreInst 51 60 MemoryOrder.SeqCst)
  /\ kind_of 12 (body 200 M) = Some (LoadInst 60 4 false)
  /\ kind_of 13 (body 200 M) = Some (ReturnInst 12)
  /\ (const_of 50 M, const_of 51 M) = (Some (ConstantInt 0), Some (ConstantInt 5))
  /\ (initializer <$> globs M !! 60%N) = Some 50%N
  /\ exists M', runOnModule 10 (fun _ => nullptr) M = Some (true, M')
       /\ kind_of 13 (body 200 M') = Some (ReturnInst 50).
Proof.
  cbv zeta. split_and!; try by vm_compute.
  assert (Q : ends_with 10 counted 13 = Some (true, Some (ReturnInst 50))) by by vm_compute.
  unfold ends_with in Q.
  destruct (runOnModule 10 (fun _ => nullptr) counted) as [[ch M'] |]; [| discriminate Q].
  cbn [mbind option_bind] in Q. apply (inj Some) in Q. exists M'.
  assert (ch = true) as -> by exact (f_equal fst Q). exact (conj eq_refl (f_equal snd Q)).
Qed.

Lemma is_Some_list_to_map {A} (l : list (ref * A)) v :
  is_Some ((list_to_map l : gmap ref A) !! v) <-> v ∈ l.*1.
Proof.
  destruct (decide (v ∈ l.*1)) as [H | H].
  - split; [done |]. intros _. destruct ((list_to_map l : gmap ref A) !! v) eqn:E; [by eexists |].
    by apply not_elem_of_list_to_map in E.
  - split; [| done]. intros [a E]. by apply not_elem_of_list_to_map in H; rewrite H in E.
Qed.

Lemma narrowed_ok : module_ok (fun _ => False) narrowed.
Proof.
  assert (Out : forall v, outside (fun _ => False) narrowed v <-> v ∈ [50%N; 51%N; 52%N; 53%N]).
  { intros v. unfold outside. change (globs narrowed) with (∅ : gmap ref MIRGlobal).
    rewrite lookup_empty. unfold narrowed at 1, module_of, set_consts. cbn [consts].
    rewrite is_Some_list_to_map. cbn. split; [intros [? | [[? ?] | ?]]; done | by left]. }
  split.
  - intros f func E. unfold narrowed, module_of, set_consts in E. cbn in E.
    apply lookup_insert_Some in E as [[<- <-] | [_ E]]; [| by rewrite lookup_empty in E].
    apply (fn_ok_b_spec _ [50%N; 51%N; 52%N; 53%N] _ _ Out). by vm_compute.
  - intros v Hv. apply Out in Hv. change (m_next narrowed) with 300%N.
    rewrite !elem_of_cons, elem_of_nil in Hv. lia.
  - intros g G E. change (globs narrowed) with (∅ : gmap ref MIRGlobal) in E.
    by rewrite lookup_empty in E.
Qed.
