(* ===== verification/ConstFoldKept.v ===== *)
(** * Constant folding: what becomes of a function

    [folded_fn]: a function after constant folding.  Which instructions are gone and why, which
    constants stand for them, and what is left of the others; each step of the pass keeps it. *)

From S2P Require Import Prelude Diag HIRType MIR MIRFacts SimplifyCFG SimplifyCFGProps MIRModule MIRUses Rewire ConstFold Transform ConstFoldSafe.

Implicit Types (F G H : MIRFunction) (M : MIRModule) (b c g i j n p v x : ref) (k : InstKind) (σ : ref -> ref)
  (dead cut : list ref).

(** ** Kinds *)

(** A phi without the values for some blocks. *)
Definition cut_incoming cut k : InstKind :=
  match k with
  | PhiInst inc => PhiInst (filter (fun q => snd q ∉ cut) inc)
  | _ => k
  end.

Lemma cut_nil k : cut_incoming [] k = k.
Proof. destruct k; try done. cbn. f_equal. apply filter_full. intros q _. apply not_elem_of_nil. Qed.

Lemma cut_app cut1 cut2 k : cut_incoming cut2 (cut_incoming cut1 k) = cut_incoming (cut1 ++ cut2) k.
Proof.
  destruct k; try done. cbn. f_equal. rewrite list_filter_filter. apply filter_iff_in. intros q _.
  rewrite elem_of_app. tauto.
Qed.

Lemma cut_values f cut k : map_values f (cut_incoming cut k) = cut_incoming cut (map_values f k).
Proof.
  destruct k; try done. cbn. f_equal. induction incoming as [| [v p] l IH]; [done |]. cbn [map].
  rewrite !filter_cons. cbn [snd]. case_decide; cbn [map]; by rewrite IH.
Qed.

Lemma cut_phi cut k : cut_incoming cut k = k \/ exists inc, k = PhiInst inc.
Proof. destruct k; try (by left). right. by eexists. Qed.

(** The phis at the start of a block lose the value for [b]; nothing else changes. *)
Lemma upd_phis_inst d b F j J : insts F !! j = Some J ->
  exists J' cut, insts (upd_phis d (removeIncoming b) F) !! j = Some J' /\ i_type J' = i_type J
    /\ i_kind J' = cut_incoming cut (i_kind J)
    /\ forall p, p ∈ cut -> p = b /\ j ∈ getInstructions d F.
Proof.
  unfold upd_phis. assert (Sub : forall i, i ∈ leading_phis (getInstructions d F) F -> i ∈ getInstructions d F).
  { generalize (getInstructions d F) as l. intros l. induction l as [| i l IH]; [done |]. cbn [leading_phis].
    intros j'. destruct (kind_of i F) as [[] |]; try (intros Q; by apply not_elem_of_nil in Q).
    intros [-> | Q]%elem_of_cons; [left | right; by apply IH]. }
  revert Sub. generalize (leading_phis (getInstructions d F) F) as l. generalize (getInstructions d F) as body.
  intros body l. revert F J. induction l as [| i l IH]; intros F J Sub E; cbn [fold_left].
  { exists J, []. split_and!; [done | done | by rewrite cut_nil |]. intros p Q. by apply not_elem_of_nil in Q. }
  set (f := fun J => match i_kind J with PhiInst inc => with_kind (PhiInst (removeIncoming b inc)) J | _ => J end).
  assert (Sub' : forall i', i' ∈ l -> i' ∈ body) by (intros i' Hi'; apply Sub; by right).
  destruct (decide (j = i)) as [-> | N].
  - destruct (IH (upd_inst i f F) (f J) Sub') as (J' & cut & E' & T & K & C).
    { by rewrite insts_upd_inst, decide_True, E by done. }
    exists J', (b :: cut). split_and!; [done | | |].
    + rewrite T. unfold f. by destruct (i_kind J).
    + rewrite K. change (b :: cut) with ([b] ++ cut). rewrite <- cut_app. f_equal. unfold f.
      destruct (i_kind J) eqn:EK; try by rewrite EK. cbn. f_equal. unfold removeIncoming. apply filter_iff_in.
      intros q _. by rewrite list_elem_of_singleton.
    + intros p [-> | Hp]%elem_of_cons; [| by apply C]. split; [done |]. apply Sub. left.
  - apply IH; [done |]. by rewrite insts_upd_inst, decide_False by done.
Qed.

(** ** The relation *)

Section Kept.
(** The globals whose loads may be replaced. *)
Context (inlined : ref -> Prop).

(** The instructions that may be replaced by a constant. *)
Definition foldable k : Prop :=
  match k with
  | LoadInst p _ vol => vol = false /\ inlined p
  | ExtractValueInst _ _ | CompareInst _ _ _ | FCmpInst _ _ _ | BinaryInst _ _ _ => True
  | _ => False
  end.

(** The conditional branch at the end of the block [b] became the branch [n] to [x]: its
    condition is a constant, or an instruction that became one. *)
Definition branch_folded M σ dead F G b n x : Prop :=
  b ∈ blocks F /\ n ∈ getInstructions b G
  /\ exists c t e (v : bool), kind_of (terminator b F) F = Some (CondBranchInst c t e)
    /\ terminator b F ∈ dead /\ const_of (σ c) M = Some (ConstantBool v)
    /\ x = (if v then t else e) /\ kind_of n G = Some (BranchInst x).

(** [G] is [F] after folding: the instructions [dead] are gone, and [σ] sends those that had a
    value to their constants, which are constants of [M]. *)
Record folded_fn M σ dead F G : Prop := {
  (** The blocks are the same; each has its instructions without those that are gone, and a new
      branch at the end when its conditional branch was folded. *)
  ff_blocks : blocks G = blocks F;
  ff_code : forall b, b ∈ blocks F -> exists new,
    getInstructions b G = filter (fun i => i ∉ dead) (getInstructions b F) ++ new
    /\ (new = [] \/ exists n x, new = [n] /\ branch_folded M σ dead F G b n x);
  (** What is gone: instructions without an effect that became a constant of their type, and
      conditional branches that were folded. *)
  ff_dead : forall i, i ∈ dead -> exists b J, b ∈ blocks F /\ i ∈ getInstructions b F /\ insts F !! i = Some J
    /\ ((foldable (map_values σ (i_kind J)) /\ exists C, consts M !! σ i = Some C /\ c_type C = i_type J)
        \/ (i = terminator b F /\ exists n x, branch_folded M σ dead F G b n x));
  (** What is left is as before, with the constants in the place of what is gone, and without
      the values of phis for the edges that folded branches no longer take. *)
  ff_kept : forall b i J, b ∈ blocks F -> i ∈ getInstructions b F -> i ∉ dead -> insts F !! i = Some J ->
    exists J' cut, insts G !! i = Some J' /\ i_type J' = i_type J
      /\ i_kind J' = cut_incoming cut (map_values σ (i_kind J))
      /\ forall p, p ∈ cut -> exists n x, branch_folded M σ dead F G p n x /\ x <> b;
  ff_values : forall v, σ v <> v -> v ∈ dead /\ is_Some (consts M !! σ v);
}.

Lemma folded_refl M F : (forall b i, b ∈ blocks F -> i ∈ getInstructions b F -> is_Some (insts F !! i)) ->
  folded_fn M (fun v => v) [] F F.
Proof.
  intros Held. split; try done.
  - intros b Hb. exists []. split; [| by left]. rewrite app_nil_r, filter_full; [done |]. intros i _. apply not_elem_of_nil.
  - intros i Q. by apply not_elem_of_nil in Q.
  - intros b i J _ _ _ E. exists J, []. split_and!; [done | done | by rewrite cut_nil, map_values_id |].
    intros p Q. by apply not_elem_of_nil in Q.
Qed.

(** More constants. *)
Lemma folded_grows M M' σ dead F G :
  (forall v C, consts M !! v = Some C -> consts M' !! v = Some C) -> folded_fn M σ dead F G -> folded_fn M' σ dead F G.
Proof.
  intros Gr [K1 K2 K3 K4 K5].
  assert (B : forall b n x, branch_folded M σ dead F G b n x -> branch_folded M' σ dead F G b n x).
  { intros b n x (Hb & Hn & c & t & e & v & E1 & E2 & E3 & E4). split_and!; [done | done |]. exists c, t, e, v.
    split_and!; try done; [| apply E4 ..].
    unfold const_of in *. destruct (consts M !! σ c) as [C |] eqn:EC; [| done]. by rewrite (Gr _ C). }
  split; [done | | | |].
  - intros b Hb. destruct (K2 b Hb) as (new & E & [-> | (n & x & -> & Q)]); [exists []; auto | exists [n]].
    split; [done |]. right. exists n, x. auto.
  - intros i Hi. destruct (K3 i Hi) as (b & J & Hb & Hib & E & [(Fo & C & EC & T) | (-> & n & x & Q)]);
      exists b, J; split_and!; try done; [left | right].
    + split; [done |]. exists C. auto.
    + split; [done |]. exists n, x. auto.
  - intros b i J Hb Hi Nd E. destruct (K4 b i J Hb Hi Nd E) as (J' & cut & E' & T & Ek & C).
    exists J', cut. split_and!; try done. intros p Hp. destruct (C p Hp) as (n & x & Q & Nx). exists n, x. auto.
  - intros v Nv. destruct (K5 v Nv) as [? [C EC]]. split; [done |]. exists C. auto.
Qed.

(** ** A step *)

Section Step.
Context (ext0 ext : ref -> Prop) (n0 next : ref) M σ dead F G.
Context (O0 : fn_ok ext0 n0 F) (O : fn_ok ext next G) (K : folded_fn M σ dead F G).
Context (Hc : forall c, is_Some (consts M !! c) -> ext c) (Hg : forall g, inlined g -> ext g).

Lemma ext_other v i : ext v -> is_Some (insts G !! i) -> v <> i.
Proof. intros E S ->. by apply (ok_disjoint _ _ _ O) in S as [_ ?]. Qed.

Lemma kept_in b i : b ∈ blocks F -> i ∈ getInstructions b G ->
  (i ∈ getInstructions b F /\ i ∉ dead) \/ exists x, branch_folded M σ dead F G b i x.
Proof.
  intros Hb Hi. destruct (ff_code _ _ _ _ _ K b Hb) as (new & E & Q). rewrite E in Hi.
  apply elem_of_app in Hi as [[? ?]%list_elem_of_filter | Hi]; [by left | right].
  destruct Q as [-> | (n & x & -> & Q)]; [by apply not_elem_of_nil in Hi |].
  apply list_elem_of_singleton in Hi as ->. by exists x.
Qed.

Lemma kept_old b i : b ∈ blocks F -> i ∈ getInstructions b F -> i ∉ dead -> i ∈ getInstructions b G.
Proof.
  intros Hb Hi Nd. destruct (ff_code _ _ _ _ _ K b Hb) as (new & -> & _). apply elem_of_app. left.
  by apply list_elem_of_filter.
Qed.

(** Where an instruction comes from that is no branch. *)
Lemma kept_from b i J : b ∈ blocks F -> i ∈ getInstructions b G -> insts G !! i = Some J ->
  (forall x, i_kind J <> BranchInst x) ->
  i ∈ getInstructions b F /\ (i ∉ dead) /\ exists J0 cut, insts F !! i = Some J0 /\ i_type J = i_type J0
    /\ i_kind J = cut_incoming cut (map_values σ (i_kind J0)).
Proof.
  intros Hb Hi E Nb. destruct (kept_in b i Hb Hi) as [[Hi' Nd] | (x & _ & _ & c & t & e & v & _ & _ & _ & _ & Q)].
  - split_and!; [done | done |]. destruct (ok_held _ _ _ O0 b i Hb Hi') as [J0 E0].
    destruct (ff_kept _ _ _ _ _ K b i J0 Hb Hi' Nd E0) as (J' & cut & E' & T & Ek & _). exists J0, cut.
    rewrite E in E'. injection E' as <-. done.
  - exfalso. unfold kind_of in Q. rewrite E in Q. by injection Q as ?%Nb.
Qed.

Lemma folded_target b n x : branch_folded M σ dead F G b n x -> x ∈ blocks F.
Proof.
  intros (Hb & _ & c & t & e & v & E & _ & _ & -> & _). unfold kind_of in E.
  destruct (insts F !! terminator b F) as [J |] eqn:EJ; [| done]. injection E as KJ.
  destruct (fb_block ext0 n0 F b c t e J O0 Hb EJ KJ). by destruct v.
Qed.

Lemma blocks_apart v i : v ∈ blocks F -> is_Some (insts G !! i) -> v <> i.
Proof.
  intros Hv S ->. apply (ok_disjoint _ _ _ O) in S as [N _]. apply N, (wf_heap _ (ok_wf _ _ _ O)).
  by rewrite (ff_blocks _ _ _ _ _ K).
Qed.

(** *** Replacing an instruction by a constant *)

Section Replace.
Context (b i c : ref) (C : MIRConstant) (J : MIRInst) (Hb : b ∈ blocks F) (Hi : i ∈ getInstructions b G).
Context (E : insts G !! i = Some J) (Fo : foldable (i_kind J)) (EC : consts M !! c = Some C) (TC : c_type C = i_type J).

Abbreviation τ := (subst_ref i c).
Abbreviation G' := (replace_erase b i c G).
Abbreviation gone := (dead ++ [i]).

Let HbG : b ∈ blocks G.
Proof. by rewrite (ff_blocks _ _ _ _ _ K). Qed.
Let Rc : replacement ext G i c.
Proof. apply (replacement_ext ext next G b i c O HbG Hi), Hc. by rewrite EC. Qed.
Let T : transformed τ [] [i] G G' := replace_erase_transformed ext next G b i c O HbG Hi Rc.

Lemma not_branch x : i_kind J <> BranchInst x.
Proof. intros Q. by rewrite Q in Fo. Qed.

Lemma elem_gone v : v ∈ gone <-> v ∈ dead \/ v = i.
Proof. by rewrite elem_of_app, list_elem_of_singleton. Qed.

(** What is outside stays, and so do the blocks. *)
Lemma replace_outside v : ext v -> τ v = v.
Proof. intros Ev. apply subst_ref_other. apply ext_other; [done | by rewrite E]. Qed.

Lemma replace_block v : v ∈ blocks F -> τ v = v.
Proof. intros Ev. apply subst_ref_other. apply blocks_apart; [done | by rewrite E]. Qed.

Lemma replace_inst x j Jj : x ∈ blocks F -> j ∈ getInstructions x G -> j <> i -> insts G !! j = Some Jj ->
  j ∈ getInstructions x G' /\ insts G' !! j = Some (map_inst τ Jj).
Proof.
  intros Hx Hj N Ej. split.
  - apply (re_in ext next G b i c O HbG Hi Rc); [by rewrite (ff_blocks _ _ _ _ _ K) | done].
  - rewrite (tf_kept _ _ _ _ _ T j), Ej; [done | | by rewrite list_elem_of_singleton].
    exists x. by rewrite (ff_blocks _ _ _ _ _ K).
Qed.

Lemma replace_branch p n x : branch_folded M σ dead F G p n x ->
  branch_folded M (fun v => τ (σ v)) gone F G' p n x.
Proof.
  intros B. pose proof (folded_target p n x B) as Hx.
  destruct B as (Hp & Hn & c' & t & e & v & B1 & B2 & B3 & B4 & B5). unfold kind_of in B5.
  destruct (insts G !! n) as [Jn |] eqn:En; [| done]. injection B5 as B5.
  assert (Nn : n <> i) by (intros ->; rewrite E in En; injection En as <-; by apply not_branch in B5).
  destruct (replace_inst p n Jn Hp Hn Nn En) as [Hn' En']. split_and!; [done | done |]. exists c', t, e, v.
  split_and!; [done | apply elem_gone; by left | | done |].
  - rewrite replace_outside; [done |]. apply Hc. unfold const_of in B3. by destruct (consts M !! σ c').
  - unfold kind_of. rewrite En'. cbn. rewrite B5. cbn. by rewrite replace_block.
Qed.

Lemma replace_foldable k : foldable (map_values σ k) -> foldable (map_values (fun v => τ (σ v)) k).
Proof. intros Q. destruct k; try done. cbn in Q |- *. rewrite replace_outside; [done |]. by apply Hg, Q. Qed.

Lemma replace_code x : x ∈ blocks F -> exists new,
  getInstructions x G' = filter (fun j => j ∉ gone) (getInstructions x F) ++ new
  /\ (new = [] \/ exists n y, new = [n] /\ branch_folded M (fun v => τ (σ v)) gone F G' x n y).
Proof.
  intros Hx. destruct (ff_code _ _ _ _ _ K x Hx) as (new & Ex & Q). exists new. split.
  - rewrite (tf_instructions _ _ _ _ _ T x) by by rewrite (ff_blocks _ _ _ _ _ K).
    replace (if decide (x = getEntryBlock G) then [] else []) with (@nil ref) by by case_decide.
    cbn [app]. rewrite Ex, filter_app, list_filter_filter. f_equal.
    + apply filter_iff_in. intros j _. rewrite elem_gone, list_elem_of_singleton. tauto.
    + apply filter_full. intros j Hj ->%list_elem_of_singleton. destruct Q as [-> | (n & y & -> & B)].
      { by apply not_elem_of_nil in Hj. }
      apply list_elem_of_singleton in Hj as <-. destruct B as (_ & _ & ? & ? & ? & ? & _ & _ & _ & _ & B).
      unfold kind_of in B. rewrite E in B. injection B as B. by apply not_branch in B.
  - destruct Q as [-> | (n & y & -> & B)]; [by left | right]. exists n, y. split; [done | by apply replace_branch].
Qed.

Lemma replace_dead j : j ∈ gone -> exists x Jj, x ∈ blocks F /\ j ∈ getInstructions x F /\ insts F !! j = Some Jj
  /\ ((foldable (map_values (fun v => τ (σ v)) (i_kind Jj))
         /\ exists Cj, consts M !! τ (σ j) = Some Cj /\ c_type Cj = i_type Jj)
      \/ (j = terminator x F /\ exists n y, branch_folded M (fun v => τ (σ v)) gone F G' x n y)).
Proof.
  intros [Hj | ->]%elem_gone.
  - destruct (ff_dead _ _ _ _ _ K j Hj) as (x & Jj & Hx & Hjx & Ej & [(Fj & Cj & ECj & TCj) | (-> & n & y & B)]);
      exists x, Jj; split_and!; try done; [left | right].
    + split; [by apply replace_foldable |]. exists Cj. rewrite replace_outside; [done | apply Hc; by rewrite ECj].
    + split; [done |]. exists n, y. by apply replace_branch.
  - destruct (kept_from b i J Hb Hi E not_branch) as (Hi' & Nd & J0 & cut0 & E0 & T0 & K0).
    exists b, J0. split_and!; [done | done | done |]. left. split.
    + apply replace_foldable. rewrite K0 in Fo. by destruct (i_kind J0).
    + assert (Ei : σ i = i).
      { destruct (decide (σ i = i)) as [| N]; [done | by apply (ff_values _ _ _ _ _ K) in N as [? _]]. }
      rewrite Ei. unfold subst_ref. rewrite N.eqb_refl. exists C. split; [done | congruence].
Qed.

Lemma folded_replace : folded_fn M (fun v => τ (σ v)) gone F G'.
Proof.
  split.
  - rewrite <- (ff_blocks _ _ _ _ _ K). by apply (re_blocks ext next).
  - exact replace_code.
  - exact replace_dead.
  - intros x j Jj Hx Hj Nj Ej. rewrite elem_gone in Nj.
    destruct (ff_kept _ _ _ _ _ K x j Jj Hx Hj) as (J' & cut & E' & T' & K' & C'); [tauto | done |].
    exists (map_inst τ J'), cut. split_and!.
    + apply (replace_inst x j J' Hx); [apply kept_old; tauto | tauto | done].
    + done.
    + cbn. by rewrite K', cut_values, map_values_map.
    + intros p Hp. destruct (C' p Hp) as (n & y & B & Ny). exists n, y. split; [by apply replace_branch | done].
  - intros v Nv. rewrite elem_gone. destruct (decide (σ v = v)) as [Ev | Ev].
    + rewrite Ev in Nv |- *. destruct (decide (v = i)) as [Evi | Nvi].
      * split; [by right |]. unfold subst_ref. by rewrite Evi, N.eqb_refl, EC.
      * exfalso. apply Nv. by rewrite subst_ref_other.
    + destruct (ff_values _ _ _ _ _ K v Ev) as [Hv S]. split; [by left |]. rewrite replace_outside; [done | by apply Hc].
Qed.

End Replace.

End Step.

(** ** Folding a branch *)

Section Branch.
Context (ext0 ext : ref -> Prop) (n0 n : ref) M σ dead F G.
Context (O0 : fn_ok ext0 n0 F) (O : fn_ok ext n G) (K : folded_fn M σ dead F G).
Context (b c t e : ref) (v : bool) (J : MIRInst) (Hb : b ∈ blocks F).
Context (EJ : insts G !! terminator b G = Some J) (KJ : i_kind J = CondBranchInst c t e).
Context (Cv : const_of c M = Some (ConstantBool v)).

Abbreviation target := (if v then t else e).
Abbreviation deadTarget := (if v then e else t).
Let newBr : MIRInst := {| i_kind := BranchInst target; i_type := nullptr; i_name := "";
                          i_loc := i_loc J; i_borrow := None; i_parent := nullptr |}.
Let G1 : MIRFunction := addInstruction b n (pop_back b (snd (new_inst newBr (with_next n G)))).
Let H : MIRFunction :=
  if N.eqb deadTarget target then G1
  else removePredecessor deadTarget b (removeSuccessor b deadTarget
         (upd_phis deadTarget (removeIncoming b) G1)).

Let HbG : b ∈ blocks G.
Proof. by rewrite (ff_blocks _ _ _ _ _ K). Qed.

Let kind : i_kind newBr = BranchInst target := eq_refl.
Let last_ : last (getInstructions b G) = Some (terminator b G) := fb_last ext n G b J O EJ.
Let old : terminator b G <> n := fb_old ext n G b J O HbG EJ.
Let target_ := fb_target ext n G b c t e v J O HbG EJ KJ.

(** The instructions that are left. *)
Lemma branch_inst j Jj : j <> n -> j <> terminator b G -> insts G !! j = Some Jj ->
  exists J' cut, insts H !! j = Some J' /\ i_type J' = i_type Jj /\ i_kind J' = cut_incoming cut (i_kind Jj)
    /\ forall p, p ∈ cut -> p = b /\ j ∈ getInstructions deadTarget G /\ deadTarget <> target.
Proof.
  intros N1 N2 E. assert (E1 : insts G1 !! j = Some Jj).
  { unfold G1. rewrite (nb_eq G n b (terminator b G) target newBr kind (proj1 target_) last_ old).
    change (insts (upd_inst n (setParent b) (pop_back b (snd (new_inst newBr (with_next n G))))) !! j = Some Jj).
    rewrite insts_upd_inst, decide_False, (nb_pop G n b (terminator b G) newBr last_) by done.
    unfold free_inst. cbn [insts set_insts]. rewrite lookup_delete_ne by done. cbn. by rewrite lookup_insert_ne. }
  unfold H. destruct (N.eqb_spec deadTarget target) as [D | D].
  { exists Jj, []. split_and!; [done | done | by rewrite cut_nil |]. intros p Q. by apply not_elem_of_nil in Q. }
  destruct (upd_phis_inst deadTarget b G1 j Jj E1) as (J' & cut & E' & T & Ek & C). exists J', cut.
  split_and!; [done .. |]. intros p Hp. destruct (C p Hp) as [-> Hj]. split_and!; [done | | done].
  unfold G1 in Hj.
  rewrite (nb_instructions G n b (terminator b G) target newBr kind (proj1 target_)) in Hj;
    [| exact (fb_has_b ext n G b O HbG) | done | done].
  case_decide as Db; [| done]. rewrite Db. apply elem_of_app in Hj as [Hj | ->%list_elem_of_singleton]; [| done].
  destruct (proj1 (last_Some _ _) last_) as [l El]. rewrite El in Hj |- *. rewrite removelast_last in Hj.
  apply elem_of_app. by left.
Qed.

Let T_in : terminator b G ∈ getInstructions b G := fb_in ext n G b J O EJ.

(** The branch that is folded was the conditional branch of the block before. *)
Lemma branch_origin : terminator b G ∈ getInstructions b F /\ (terminator b G ∉ dead)
  /\ terminator b G = terminator b F
  /\ exists c0 J0, insts F !! terminator b F = Some J0 /\ i_kind J0 = CondBranchInst c0 t e /\ c = σ c0.
Proof.
  destruct (kept_from ext0 n0 M σ dead F G O0 K b (terminator b G) J Hb T_in EJ) as (Hi & Nd & J0 & cut & E0 & _ & K0).
  { intros x Q. by rewrite KJ in Q. }
  assert (KJ0 : exists c0 t0 e0, i_kind J0 = CondBranchInst c0 t0 e0).
  { rewrite KJ in K0. destruct (i_kind J0); try discriminate K0. by do 3 eexists. }
  destruct KJ0 as (c0 & t0 & e0 & KJ0). rewrite KJ, KJ0 in K0.
  assert (Et : terminator b G = terminator b F).
  { destruct (decide (terminator b G = terminator b F)) as [| N]; [done |].
    assert (Z : targets (i_kind J0) = []).
    { apply (ok_term _ _ _ O0 b (terminator b G)); [done | done | done |]. unfold kind_of. by rewrite E0. }
    by rewrite KJ0 in Z. }
  split_and!; [done | done | done |]. rewrite Et in E0. exists c0, J0.
  destruct (fb_block ext0 n0 F b c0 t0 e0 J0 O0 Hb E0 KJ0) as [Ht He].
  assert (Fix : forall x, x ∈ blocks F -> σ x = x).
  { intros x Hx. destruct (decide (σ x = x)) as [| N]; [done | exfalso].
    apply (ff_values _ _ _ _ _ K) in N as [D _]. destruct (ff_dead _ _ _ _ _ K x D) as (y & Jy & Hy & Hxy & _).
    pose proof (ok_held _ _ _ O0 y x Hy Hxy) as S. apply (ok_disjoint _ _ _ O0) in S as [S _].
    by apply S, (wf_heap _ (ok_wf _ _ _ O0)). }
  cbn in K0. rewrite (Fix t0 Ht), (Fix e0 He) in K0. injection K0 as -> -> ->. done.
Qed.

Let R : rewired G b n (BranchInst target) H := fb_rewired ext n G b c t e v J O HbG EJ KJ.
Abbreviation gone := (dead ++ [terminator b G]).

Lemma branch_gone j : j ∈ gone <-> j ∈ dead \/ j = terminator b G.
Proof. by rewrite elem_of_app, list_elem_of_singleton. Qed.

(** No other branch of the block has been folded. *)
Lemma branch_only j x : j ∈ getInstructions b G -> kind_of j G <> Some (BranchInst x).
Proof.
  intros Hj Kj. destruct (decide (j = terminator b G)) as [-> | N].
  - unfold kind_of in Kj. rewrite EJ in Kj. cbn in Kj. by rewrite KJ in Kj.
  - by pose proof (ok_term _ _ _ O b j _ HbG Hj N Kj).
Qed.

Lemma branch_in x j : x ∈ blocks F -> j ∈ getInstructions x G -> j <> terminator b G -> j ∈ getInstructions x H.
Proof.
  intros Hx Hj N. rewrite (rw_instructions _ _ _ _ _ R x). case_decide as D; [| done]. rewrite D in Hj.
  apply elem_of_app. left. destruct (proj1 (last_Some _ _) last_) as [l El]. rewrite El in Hj |- *.
  rewrite removelast_last. apply elem_of_app in Hj as [| ->%list_elem_of_singleton]; done.
Qed.

Lemma branch_fresh x j : x ∈ blocks F -> j ∈ getInstructions x G -> j <> n.
Proof.
  intros Hx Hj ->. assert (Q : is_Some (insts G !! n)).
  { apply (ok_held _ _ _ O x); [by rewrite (ff_blocks _ _ _ _ _ K) | done]. }
  apply (ok_inst_fresh _ _ _ O) in Q. lia.
Qed.

Lemma branch_keeps p m x : branch_folded M σ dead F G p m x -> branch_folded M σ gone F H p m x.
Proof.
  intros (Hp & Hm & c' & t' & e' & v' & B1 & B2 & B3 & B4 & B5).
  assert (Nm : m <> terminator b G).
  { intros ->. unfold kind_of in B5. rewrite EJ in B5. cbn in B5. by rewrite KJ in B5. }
  split_and!; [done | by apply branch_in |]. exists c', t', e', v'.
  split_and!; [done | apply branch_gone; by left | done | done |].
  unfold kind_of in B5. destruct (insts G !! m) as [Jm |] eqn:Em; [| done]. injection B5 as B5.
  destruct (branch_inst m Jm (branch_fresh p m Hp Hm) Nm Em) as (J' & cut & E' & _ & K' & _).
  unfold kind_of. rewrite E'. cbn. by rewrite K', B5.
Qed.

Lemma branch_new : branch_folded M σ gone F H b n target.
Proof.
  destruct branch_origin as (_ & _ & Et & c0 & J0 & E0 & K0 & Ec). split_and!; [done | |].
  - rewrite (rw_instructions _ _ _ _ _ R b), decide_True by done. apply elem_of_app. right. left.
  - exists c0, t, e, v.
    split_and!; [| apply branch_gone; right; by rewrite <- Et | by rewrite <- Ec | done | apply (rw_new _ _ _ _ _ R)].
    unfold kind_of. rewrite E0. cbn. by rewrite K0.
Qed.

(** The block has lost its terminator, and no other instruction. *)
Lemma branch_rest : removelast (getInstructions b G) = filter (fun i => i ∉ gone) (getInstructions b F).
Proof.
  destruct (ff_code _ _ _ _ _ K b Hb) as (new & Ex & [-> | (m & y & -> & B)]).
  - rewrite app_nil_r in Ex. destruct (proj1 (last_Some _ _) last_) as [l El].
    rewrite El, removelast_last. rewrite El in Ex.
    pose proof (f_equal (filter (fun i => i <> terminator b G)) Ex) as Q. rewrite filter_app, list_filter_filter in Q.
    rewrite (filter_cons_False _ (terminator b G) []), filter_nil, app_nil_r in Q by (intros Z; by apply Z).
    rewrite filter_full in Q.
    + rewrite Q. apply filter_iff_in. intros j _. rewrite branch_gone. tauto.
    + intros j Hj ->. pose proof (ok_nodup _ _ _ O b HbG) as ND. rewrite El in ND.
      apply NoDup_app in ND as (_ & ND & _). apply (ND _ Hj). left.
  - exfalso. destruct B as (_ & Hm & ? & ? & ? & ? & _ & _ & _ & _ & B). by apply (branch_only m y).
Qed.

Lemma branch_code x : x ∈ blocks F -> exists new,
  getInstructions x H = filter (fun j => j ∉ gone) (getInstructions x F) ++ new
  /\ (new = [] \/ exists m y, new = [m] /\ branch_folded M σ gone F H x m y).
Proof.
  intros Hx. rewrite (rw_instructions _ _ _ _ _ R x). case_decide as D.
  - rewrite D, branch_rest. exists [n]. split; [done |]. right. exists n, target. split; [done | apply branch_new].
  - destruct (ff_code _ _ _ _ _ K x Hx) as (new & Ex & Q). exists new. split.
    + rewrite Ex. f_equal. apply filter_iff_in. intros j Hj. rewrite branch_gone. split; [| tauto].
      intros N [? | ->]; [done |]. by apply D, (ok_apart _ _ _ O0 x b (terminator b G)), branch_origin.
    + destruct Q as [-> | (m & y & -> & B)]; [by left | right]. exists m, y. split; [done | by apply branch_keeps].
Qed.

Lemma folded_branch : folded_fn M σ gone F H.
Proof.
  split.
  - rewrite (rw_blocks _ _ _ _ _ R). apply K.
  - exact branch_code.
  - intros j [Hj | ->]%branch_gone.
    + destruct (ff_dead _ _ _ _ _ K j Hj) as (x & Jj & Hx & Hjx & Ej & [Q | (-> & m & y & B)]);
        exists x, Jj; split_and!; try done; [by left | right]. split; [done |]. exists m, y. by apply branch_keeps.
    + destruct branch_origin as (Hi & _ & Et & c0 & J0 & E0 & _). exists b, J0.
      split_and!; [done | done | by rewrite Et |]. right. split; [done |]. exists n, target. apply branch_new.
  - intros x j Jj Hx Hj Nj Ej. rewrite branch_gone in Nj.
    destruct (ff_kept _ _ _ _ _ K x j Jj Hx Hj) as (J' & cut & E' & T' & K' & C'); [tauto | done |].
    pose proof (kept_old M σ dead F G K x j Hx Hj ltac:(tauto)) as HjG.
    destruct (branch_inst j J' (branch_fresh x j Hx HjG) ltac:(tauto) E') as (J2 & cut2 & E2 & T2 & K2 & C2).
    exists J2, (cut ++ cut2). split_and!; [done | congruence | by rewrite K2, K', cut_app |].
    intros p [Hp | Hp]%elem_of_app.
    + destruct (C' p Hp) as (m & y & B & Ny). exists m, y. split; [by apply branch_keeps | done].
    + destruct (C2 p Hp) as (-> & Hjd & Nt). exists n, target. split; [apply branch_new |]. intros Q.
      assert (Hd : deadTarget ∈ blocks G) by apply target_.
      assert (HxG : x ∈ blocks G) by by rewrite (ff_blocks _ _ _ _ _ K).
      pose proof (ok_apart _ _ _ O x deadTarget j HxG Hd HjG Hjd). congruence.
  - intros w Nw. destruct (ff_values _ _ _ _ _ K w Nw) as [D S]. split; [apply branch_gone; by left | done].
Qed.

End Branch.
End Kept.
