(* ===== verification/ConstFoldClaims.v ===== *)
(** * Constant folding: claims

    A run of the pass ends: with a module of which each function is what folding leaves of it,
    or at an operation that C++ does not define. *)

From S2P Require Import Prelude Diag HIRType MIR MIRFacts SimplifyCFG SimplifyCFGProps MIRModule MIRUses ConstFold ConstFoldProps Transform ConstFoldSafe ConstFoldKept ConstFoldModule.

Implicit Types (F G : MIRFunction) (M : MIRModule) (b c f g i j v w : ref) (d : nat).

(** ** Chains of casts *)

(** From [v] a step can be taken at most [d] times in a row. *)
Fixpoint chain (step : ref -> option ref) (d : nat) (v : ref) : Prop :=
  match step v with
  | None => True
  | Some w => match d with 0 => False | S d => chain step d w end
  end.

Lemma chain_ends step d v : step v = None -> chain step d v.
Proof. intros E. destruct d; cbn; by rewrite E. Qed.

Lemma chain_step step d v w : step v = Some w -> chain step (S d) v <-> chain step d w.
Proof. intros E. cbn. by rewrite E. Qed.

Lemma chain_weaken step d e v : d <= e -> chain step d v -> chain step e v.
Proof.
  revert e v. induction d as [| d IH]; intros e v L; destruct (step v) as [w |] eqn:E.
  - cbn. by rewrite E.
  - intros _. by apply chain_ends.
  - destruct e as [| e]; [lia |]. rewrite !(chain_step _ _ _ _ E). apply IH. lia.
  - intros _. by apply chain_ends.
Qed.

Lemma follow_chain step d fuel v : chain step d v -> d < fuel -> is_Some (follow step fuel v).
Proof.
  revert d v. induction fuel as [| fuel IH]; intros d v C L; [lia |]. cbn [follow].
  destruct (N.eqb v nullptr); [by eexists |]. destruct (step v) as [w |] eqn:E; [| by eexists].
  destruct d as [| d]; cbn in C; rewrite E in C; [done |]. apply (IH d); [done | lia].
Qed.

(** A chain of one kind and then of another. *)
Lemma chain_two (first second : ref -> option ref) a d v :
  (forall u w, second u = Some w -> first w = None) ->
  (forall u, chain second d u) -> chain first a v ->
  chain (fun u => match first u with Some w => Some w | None => second u end) (a + d) v.
Proof.
  intros Sep Two. set (both := fun u => _).
  assert (Tail : forall e u, first u = None -> chain second e u -> chain both e u).
  { induction e as [| e IH]; intros u E C; cbn in C |- *; unfold both at 1; rewrite E;
      destruct (second u) as [w |] eqn:E2; try done. apply IH; [by apply (Sep u) | done]. }
  revert v. induction a as [| a IH]; intros v C; destruct (first v) as [w |] eqn:E.
  - cbn in C. by rewrite E in C.
  - by apply Tail.
  - cbn [Nat.add]. assert (E' : both v = Some w) by (unfold both; by rewrite E).
    apply (chain_step both _ _ _ E'), IH. by apply (chain_step _ _ _ _ E) in C.
  - apply (chain_weaken _ d); [lia | by apply Tail].
Qed.

(** Steps that may now lead to an end. *)
Lemma chain_shorter (step step' : ref -> option ref) d v :
  (forall u w', step' u = Some w' -> exists w, step u = Some w /\ (w' = w \/ step' w' = None)) ->
  chain step d v -> chain step' d v.
Proof.
  intros Sub. revert v. induction d as [| d IH]; intros v C; cbn in C |- *;
    destruct (step' v) as [w' |] eqn:E'; try done;
    destruct (Sub v w' E') as (w & E & Q); rewrite E in C; [done |].
  destruct Q as [-> | Q]; [by apply IH | by apply chain_ends].
Qed.

(** A new value that no step leads to. *)
Lemma chain_new (step step' : ref -> option ref) n :
  (forall u, u <> n -> step' u = step u) -> (forall u, step u <> Some n) ->
  (forall v e, v <> n -> chain step e v -> chain step' e v).
Proof.
  intros Same Out v e. revert v. induction e as [| e IH]; intros v N C; cbn in C |- *; rewrite Same by done;
    destruct (step v) as [u |] eqn:E; try done.
  apply IH; [| done]. intros ->. by apply (Out v).
Qed.

(** The instructions that [getBasePointer] and [unwrapCasts] follow. *)
Definition inst_step (F : MIRFunction) (v : ref) : option ref :=
  match kind_of v F with
  | Some (GetElementPtrInst p _) => Some p
  | Some (CastInst _ w _) => Some w
  | _ => None
  end.

(** ** Texts of types *)

(** The text of the type [t] goes through at most [d] types. *)
Fixpoint deep (d : nat) (H : TypeHeap) (t : TypePtr) : Prop :=
  match d with
  | 0 => False
  | S d => exists T, H !! t = Some T /\ forall q, q ∈ components T -> deep d H q
  end.

Lemma deep_text d fuel H t : deep d H t -> d <= fuel -> is_Some (toString fuel H t).
Proof.
  revert fuel t. induction d as [| d IH]; intros fuel t D L; [done |]. destruct D as (T & E & D).
  destruct fuel as [| fuel]; [lia |]. cbn [toString]. rewrite E. cbn. apply object_text_total.
  intros q Hq. apply IH; [by apply D | lia].
Qed.

Lemma deep_new d H t n T : H !! n = None -> deep d H t -> deep d (<[n := T]> H) t.
Proof.
  intros N. revert t. induction d as [| d IH]; intros t D; [done |]. destruct D as (T' & E & D). exists T'. split.
  - rewrite lookup_insert_ne; [done | congruence].
  - intros q Hq. by apply IH, D.
Qed.

(** ** Loops that go on or stop for good *)

Lemma fold_some_or {A B} (I : A -> Prop) (Stop : Prop) (step : A -> B -> option A) (l : list B) :
  (forall a x, x ∈ l -> I a -> match step a x with Some a' => I a' | None => Stop end) ->
  forall a, I a -> match fold_some step l a with Some a' => I a' | None => Stop end.
Proof.
  induction l as [| x l IH]; intros Step a Ia; [done |]. cbn [fold_some].
  pose proof (Step a x ltac:(left) Ia) as S1. destruct (step a x) as [a1 |]; [| done]. cbn [mbind option_bind].
  apply IH; [| done]. intros a2 y Hy. apply Step. by right.
Qed.

Lemma inst_loop_or (I : bool * MIRModule * MIRFunction -> Prop) (Stop : Prop) b
    (step : bool * MIRModule * MIRFunction -> ref -> option (bool * MIRModule * MIRFunction)) :
  (forall st i, I st -> i ∈ getInstructions b (snd st) ->
     match step st i with
     | Some st' => I st' /\ forall j, j ∈ getInstructions b (snd st) -> j <> i -> j ∈ getInstructions b (snd st')
     | None => Stop
     end) ->
  forall l st, I st -> NoDup l -> (forall i, i ∈ l -> i ∈ getInstructions b (snd st)) ->
  match fold_some step l st with Some st' => I st' | None => Stop end.
Proof.
  intros Step l. induction l as [| i l IH]; intros st S N Hl; [done |]. cbn [fold_some].
  apply NoDup_cons in N as [N1 N2]. pose proof (Step st i S (Hl i ltac:(left))) as S1.
  destruct (step st i) as [st1 |]; [| done]. cbn [mbind option_bind]. destruct S1 as [S1 K1].
  apply IH; [done | done |]. intros j Hj. apply K1; [apply Hl; by right | by intros ->].
Qed.

(** ** The state of a run *)

Section Run.
(** The arguments and functions, the fuel, and a bound on chains of casts and texts of types. *)
Context (other : ref -> Prop) (fuel : nat) (argType : ref -> TypePtr) (d : nat) (M0 : MIRModule).

(** What the pass relies on: casts of constants are of values that are no instructions; chains
    of casts and texts of types end after [d] steps. *)
Record chains_end : Prop := {
  ce_insts : forall f func, fns M0 !! f = Some func -> forall v, chain (inst_step (fn_body func)) d v;
  ce_consts : forall v, chain (const_cast M0) d v;
  ce_operands : forall v w, const_cast M0 v = Some w -> w = nullptr \/ outside other M0 w;
  ce_texts : forall t, is_Some (m_types M0 !! t) -> deep d (m_types M0) t /\ (t < m_next_type M0)%N;
}.

(** The global [g] is the base of a value that some instruction may write or leak. *)
Definition written g : Prop :=
  exists f b i k v, f ∈ fst (getFunctions M0) /\ b ∈ blocks (body f M0) /\ i ∈ getInstructions b (body f M0)
    /\ kind_of i (body f M0) = Some k /\ v ∈ leaked k /\ getBasePointer fuel M0 (body f M0) v = Some g.

(** The globals whose loads are replaced. *)
Definition inlined g : Prop :=
  exists G : MIRGlobal, globs M0 !! g = Some G /\ initializer G <> nullptr /\ isVolatileFlag G = false /\ ~ written g.

(** [M] is [M0] with more constants and types. *)
Record later M : Prop := {
  la_functions : functions M = functions M0;
  la_globs : globs M = globs M0;
  la_consts : forall v C, consts M0 !! v = Some C -> consts M !! v = Some C;
}.

Record heap_ok M : Prop := {
  ho_later : later M;
  ho_bound : forall v, outside other M v -> (v < m_next M)%N;
  ho_pos : (0 < m_next M)%N;
  ho_consts : forall v, chain (const_cast M) (S d) v;
  ho_init : forall g (G : MIRGlobal), globs M !! g = Some G -> initializer G <> nullptr ->
    is_Some (consts M !! initializer G) /\ chain (const_cast M) d (initializer G);
  ho_operands : forall v w, const_cast M v = Some w -> w = nullptr \/ outside other M w;
  ho_texts : forall t, is_Some (m_types M !! t) -> deep d (m_types M) t /\ (t < m_next_type M)%N;
}.

(** What a new constant is a cast of. *)
Definition cast_operand (k : ConstKind double) : option ref :=
  match k with
  | ConstantBitCast v | ConstantAnyCast v | ConstantArrayToSlice v | ConstantSliceToArray v => Some v
  | _ => None
  end.

Lemma const_cast_operand M v : const_cast M v = const_of v M ≫= cast_operand.
Proof. unfold const_cast. by destruct (const_of v M) as [[] |]. Qed.

Lemma heap_ok_constant k t M :
  heap_ok M -> (forall w, cast_operand k = Some w -> outside other M w /\ chain (const_cast M) d w) ->
  heap_ok (snd (getOrInsertConstant k t M)).
Proof.
  intros [[A1 A2 A3] B P C I Op T] Kw. destruct (grows_constant k t M) as [Gr _].
  set (M' := snd (getOrInsertConstant k t M)) in *. set (n := m_next M) in *.
  assert (En : const_cast M' n = cast_operand k).
  { rewrite const_cast_operand. unfold const_of, M', getOrInsertConstant. cbn [snd consts set_next set_consts].
    by rewrite lookup_insert_eq. }
  assert (Eo : forall u, u <> n -> const_cast M' u = const_cast M u).
  { intros u N. rewrite !const_cast_operand. unfold const_of, M', getOrInsertConstant.
    cbn [snd consts set_next set_consts]. by rewrite lookup_insert_ne. }
  assert (Out : forall u, const_cast M u <> Some n).
  { intros u E. apply Op in E as [E | E]; [unfold nullptr in E; lia |]. apply B in E. lia. }
  assert (Old : forall v e, v <> n -> chain (const_cast M) e v -> chain (const_cast M') e v).
  { apply (chain_new _ _ n Eo Out). }
  split.
  - split; [done | done |]. intros v C' E. apply (gr_same _ _ Gr); [| by apply A3]. apply B. left.
    by rewrite (A3 v C').
  - intros v Hv. apply (outside_grows_inv other M M' v Gr) in Hv as [Hv | Hv]; [| lia].
    specialize (B v Hv). pose proof (gr_next _ _ Gr). lia.
  - pose proof (gr_next _ _ Gr). lia.
  - intros v. destruct (decide (v = n)) as [-> | N]; [| by apply Old].
    destruct (cast_operand k) as [w |] eqn:Ek; [| by apply chain_ends].
    destruct (Kw w eq_refl) as [Ow Cw]. apply (chain_step _ _ _ _ En), Old; [| done]. intros ->. apply B in Ow. lia.
  - intros g G E N. change (globs M') with (globs M) in E. destruct (I g G E N) as [S Ci].
    split; [by apply (gr_old _ _ Gr) |]. apply Old; [| done]. intros Q.
    assert (Ow : outside other M n) by (left; by rewrite <- Q). apply B in Ow. lia.
  - intros v w E. destruct (decide (v = n)) as [-> | N].
    + rewrite En in E. right. apply (outside_grows other M); [done |]. by apply Kw.
    + rewrite Eo in E by done. destruct (Op v w E) as [| Ow]; [by left | right]. by apply (outside_grows other M).
  - done.
Qed.

Lemma heap_ok_type elem n M :
  heap_ok M -> (exists s, m_types M !! s = Some (SliceType elem)) -> heap_ok (snd (getArrayType elem n M)).
Proof.
  intros [[] B P C I Op T] (s & Es). split; try done. intros t St.
  assert (Nt : m_types M !! m_next_type M = None).
  { destruct (m_types M !! m_next_type M) eqn:E; [| done]. destruct (T (m_next_type M)) as [_ ?]; [by eexists | lia]. }
  cbn [getArrayType new_type snd m_types m_next_type] in *. destruct (decide (t = m_next_type M)) as [-> | N].
  - split; [| lia]. destruct (T s ltac:(by eexists)) as [D _]. destruct d as [| e]; [done |].
    destruct D as (T' & Q & D). rewrite Es in Q. injection Q as <-. exists (ArrayType elem n).
    split; [by rewrite lookup_insert_eq |]. intros q Hq. apply deep_new; [done |]. by apply D.
  - rewrite lookup_insert_ne in St by done. destruct (T t St) as [D Lt]. split; [by apply deep_new | lia].
Qed.

Lemma heap_ok_next n M : (m_next M <= n)%N -> heap_ok M -> heap_ok (set_next n M).
Proof.
  intros Le [[] B P C I Op T]. split; try done; [| cbn; lia]. intros v Hv. change (outside other M v) in Hv.
  specialize (B v Hv). cbn. lia.
Qed.

Lemma heap_ok_body f F M : heap_ok M -> heap_ok (set_body f F M).
Proof. by intros [[] ? ? ? ? ? ?]. Qed.

(** ** The values of instructions *)

(** Values are followed to their ends. *)
Section Values.
Context (Fu : 2 * d + 2 <= fuel) (M : MIRModule) (F : MIRFunction) (HO : heap_ok M).
Context (O : fn_ok (outside other M) (m_next M) F) (CF : forall v, chain (inst_step F) d v).

Lemma outside_no_step v : v = nullptr \/ outside other M v -> inst_step F v = None.
Proof.
  unfold inst_step, kind_of. intros H. destruct (insts F !! v) as [J |] eqn:E; [exfalso | done].
  destruct H as [-> | H].
  - by rewrite (wf_null _ (ok_wf _ _ _ O)) in E.
  - assert (S : is_Some (insts F !! v)) by (rewrite E; by eexists). by apply (ok_disjoint _ _ _ O) in S as [_ ?].
Qed.

Lemma base_chain v : chain (base_step M F) (d + S d) v.
Proof.
  apply (chain_shorter (fun u => match inst_step F u with Some w => Some w | None => const_cast M u end)).
  - intros u w E. exists w. split; [| by left]. unfold base_step, cast_step, inst_step in *.
    by destruct (kind_of u F) as [[] |].
  - apply chain_two; [| apply HO | done]. intros u w E. apply outside_no_step. by apply (ho_operands M HO u).
Qed.

Lemma base_total v : is_Some (getBasePointer fuel M F v).
Proof. apply (follow_chain _ (d + S d)); [apply base_chain | lia]. Qed.

Lemma unwrap_total v : is_Some (unwrapCasts fuel M F v).
Proof.
  apply (follow_chain _ (d + S d)); [| lia]. apply (chain_shorter (base_step M F)); [| apply base_chain].
  intros u w E. exists w. split; [| by left]. unfold base_step. unfold cast_step in E.
  destruct (kind_of u F) as [k |] eqn:K; [| by unfold cast_step; rewrite K].
  assert (Nc : const_cast M u = None).
  { rewrite const_cast_operand. unfold const_of. destruct (consts M !! u) as [C |] eqn:EC; [exfalso | done].
    assert (S : is_Some (insts F !! u)) by (unfold kind_of in K; destruct (insts F !! u); [by eexists | done]).
    apply (ok_disjoint _ _ _ O) in S as [_ Q]. apply Q. left. by rewrite EC. }
  destruct k; try (by rewrite Nc in E). unfold cast_step. by rewrite K.
Qed.

Lemma signed_total t : is_Some (m_types M !! t) -> is_Some (is_signed_type fuel M t).
Proof.
  intros S. destruct (ho_texts M HO t S) as [D _]. destruct S as [T E]. unfold is_signed_type. rewrite E.
  destruct (deep_text d fuel _ t D ltac:(lia)) as [s Es]. destruct T; try (by eexists); rewrite Es; by eexists.
Qed.

(** The operations that C++ does not define: the text of a type is asked of a pointer to no
    type, or a signed operation overflows. *)
Definition undefined_fold (J : MIRInst) : Prop :=
  match i_kind J with
  | BinaryInst op l r =>
      exists lhs rhs lv rv, unwrapCasts fuel M F l = Some lhs /\ unwrapCasts fuel M F r = Some rhs
        /\ const_of lhs M = Some (ConstantInt lv) /\ const_of rhs M = Some (ConstantInt rv)
        /\ (m_types M !! i_type J = None
            \/ (is_signed_type fuel M (i_type J) = Some true /\ fold_signed op (i64 lv) (i64 rv) = Undefined))
  | CompareInst _ l _ =>
      exists lhs, unwrapCasts fuel M F l = Some lhs
        /\ getType argType F M lhs <> nullptr /\ m_types M !! getType argType F M lhs = None
  | _ => False
  end.

Lemma signed_none t : is_signed_type fuel M t = None -> m_types M !! t = None.
Proof.
  intros E. destruct (m_types M !! t) eqn:S; [exfalso | done].
  destruct (signed_total t) as [b Q]; [by rewrite S; eexists | by rewrite Q in E].
Qed.

Lemma fold_value_total J : fold_value fuel argType M F J = None -> undefined_fold J.
Proof.
  unfold fold_value, undefined_fold. destruct (i_kind J) as []; try done.
  - unfold fold_extract. repeat case_match; done.
  - unfold fold_binary. destruct (unwrap_total lhs) as [l El], (unwrap_total rhs) as [r Er]. rewrite El, Er.
    cbn [mbind option_bind]. destruct (const_of l M) as [[] |] eqn:Cl, (const_of r M) as [[] |] eqn:Cr; try done.
    + intros E. exists l, r. do 2 eexists. split_and!; [done .. |].
      destruct (is_signed_type fuel M (i_type J)) as [s |] eqn:Es; [right | left; by apply signed_none].
      cbn [mbind option_bind] in E. destruct s; cbn [fold_int] in E; unfold fold_int in E.
      * split; [done |]. by destruct (fold_signed _ _ _).
      * unfold fold_unsigned in E. destruct op; try done; by destruct (Z.eqb _ _).
    + destruct (fold_float _ _ _); done.
  - unfold fold_compare. destruct (unwrap_total lhs) as [l El], (unwrap_total rhs) as [r Er]. rewrite El, Er.
    cbn [mbind option_bind]. case_match; [by destruct pred |].
    destruct (const_of l M) as [[] |] eqn:Cl, (const_of r M) as [[] |] eqn:Cr; try done.
    intros E. exists l. split; [done |]. unfold compare_signed in E.
    destruct (N.eqb_spec (getType argType F M l) nullptr) as [| N]; [done |]. split; [done |]. apply signed_none.
    by destruct (is_signed_type fuel M (getType argType F M l)).
  - unfold fold_fcompare. destruct (unwrap_total lhs) as [l El], (unwrap_total rhs) as [r Er]. rewrite El, Er.
    cbn [mbind option_bind]. destruct (const_of l M) as [[] |] eqn:Cl, (const_of r M) as [[] |] eqn:Cr; done.
Qed.

(** A new constant. *)
Lemma made k t M1 :
  consts (snd (getOrInsertConstant k t M1)) !! fst (getOrInsertConstant k t M1) = Some {| c_kind := k; c_type := t |}.
Proof. cbn. by rewrite lookup_insert_eq. Qed.

Lemma folded_constant_ok k t M1 r M' : heap_ok M1 -> cast_operand k = None -> folded_constant k t M1 = Some (r, M') ->
  heap_ok M' /\ forall c, r = Some c -> exists C, consts M' !! c = Some C /\ c_type C = t.
Proof.
  intros H1 N. unfold folded_constant. pose proof (made k t M1) as Q.
  pose proof (heap_ok_constant k t M1 H1) as H2. destruct (getOrInsertConstant k t M1) as [c M2]. cbn [fst snd] in *.
  intros [= <- <-]. split; [apply H2; intros w Ew; by rewrite N in Ew |]. intros ? [= <-]. by eexists.
Qed.

Lemma fold_extract_ok agg index t r M' : fold_extract M agg index t = Some (r, M') ->
  heap_ok M' /\ forall c, r = Some c -> exists C, consts M' !! c = Some C /\ c_type C = t.
Proof.
  assert (None_ : heap_ok M /\ forall c, @None ref = Some c -> exists C, consts M !! c = Some C /\ c_type C = t) by done.
  unfold fold_extract. destruct (consts M !! agg) as [c |] eqn:Ec; [| intros [= <- <-]; apply None_].
  destruct (c_kind c); try (intros [= <- <-]; apply None_).
  destruct (Z.eqb index 1); [by apply folded_constant_ok |].
  destruct (Z.eqb index 0); [| intros [= <- <-]; apply None_].
  destruct (m_types M !! c_type c) as [[] |] eqn:Et; try (intros [= <- <-]; apply None_).
  match goal with |- context [getArrayType ?e ?n M] =>
    pose proof (heap_ok_type e n M HO ltac:(by eexists)) as H1; destruct (getArrayType e n M) as [at_ M1] end.
  cbn [snd] in H1.
  match goal with |- context [getOrInsertConstant ?k ?t' M1] =>
    pose proof (made k t' M1) as Q; pose proof (heap_ok_constant k t' M1 H1 ltac:(done)) as H2;
    destruct (getOrInsertConstant k t' M1) as [a M2] end.
  cbn [fst snd] in *. unfold folded_constant.
  pose proof (made (ConstantBitCast a) t M2) as Q3. pose proof (heap_ok_constant (ConstantBitCast a) t M2 H2) as H3.
  destruct (getOrInsertConstant (ConstantBitCast a) t M2) as [c3 M3]. cbn [fst snd] in *. intros [= <- <-]. split.
  - apply H3. intros w [= <-]. split; [left; by rewrite Q |]. apply chain_ends. rewrite const_cast_operand.
    unfold const_of. by rewrite Q.
  - intros ? [= <-]. by eexists.
Qed.

Lemma fold_value_ok J r M' : fold_value fuel argType M F J = Some (r, M') ->
  heap_ok M' /\ forall c, r = Some c -> foldable inlined (i_kind J)
    /\ exists C, consts M' !! c = Some C /\ c_type C = i_type J.
Proof.
  enough (H : fold_value fuel argType M F J = Some (r, M') ->
    heap_ok M' /\ forall c, r = Some c -> exists C, consts M' !! c = Some C /\ c_type C = i_type J).
  { intros E. destruct (H E) as [H1 H2]. split; [done |]. intros c ->. split; [| by apply H2].
    unfold fold_value in E. by destruct (i_kind J). }
  assert (None_ : heap_ok M /\ forall c, @None ref = Some c -> exists C, consts M !! c = Some C /\ c_type C = i_type J) by done.
  unfold fold_value. destruct (i_kind J); try (intros [= <- <-]; apply None_).
  - apply fold_extract_ok.
  - unfold fold_binary. destruct (unwrapCasts fuel M F lhs) as [l |]; [| done]. cbn [mbind option_bind].
    destruct (unwrapCasts fuel M F rhs) as [r' |]; [| done]. cbn [mbind option_bind].
    repeat case_match; try done; try (intros [= <- <-]; apply None_); try by apply folded_constant_ok.
    destruct (is_signed_type fuel M (i_type J)); [| done]. cbn [mbind option_bind].
    case_match; [intros [= <- <-]; apply None_ | by apply folded_constant_ok | done].
  - unfold fold_compare. destruct (unwrapCasts fuel M F lhs) as [l |]; [| done]. cbn [mbind option_bind].
    destruct (unwrapCasts fuel M F rhs) as [r' |]; [| done]. cbn [mbind option_bind].
    repeat case_match; try done; try (intros [= <- <-]; apply None_); try by apply folded_constant_ok.
    destruct (compare_signed fuel argType M F l); [| done]. by apply folded_constant_ok.
  - unfold fold_fcompare. destruct (unwrapCasts fuel M F lhs) as [l |]; [| done]. cbn [mbind option_bind].
    destruct (unwrapCasts fuel M F rhs) as [r' |]; [| done]. cbn [mbind option_bind].
    repeat case_match; try done; try (intros [= <- <-]; apply None_); try by apply folded_constant_ok.
Qed.

End Values.

(** ** A function in a run *)

(** What became of the function [F0] of [M0]. *)
Record fn_inv M (F0 F : MIRFunction) : Prop := {
  fi_kept : exists σ dead, folded_fn inlined M σ dead F0 F;
  fi_chain : forall v, chain (inst_step F) d v;
}.

Lemma fn_inv_grows M M' F0 F : (forall v C, consts M !! v = Some C -> consts M' !! v = Some C) ->
  fn_inv M F0 F -> fn_inv M' F0 F.
Proof.
  intros Gr [(σ & dead & K) C]. split; [| done]. exists σ, dead. by apply (folded_grows _ M).
Qed.

Definition fns_inv M : Prop :=
  forall f, match fns M0 !! f with
            | Some func0 => exists func, fns M !! f = Some func
                /\ fn_name func = fn_name func0 /\ fn_inv M (fn_body func0) (fn_body func)
            | None => fns M !! f = None
            end.

(** The state of the loops over the function [f], which was [F0]. *)
Record run_ok f F0 (st : bool * MIRModule * MIRFunction) : Prop := {
  ro_step : step_ok other f (blocks F0) st;
  ro_heap : heap_ok (snd (fst st));
  ro_fn : fn_inv (snd (fst st)) F0 (snd st);
  ro_fns : fns_inv (snd (fst st));
  ro_same : fst (fst st) = false -> fns (snd (fst st)) = fns M0 /\ snd st = F0;
}.

Lemma heap_keeps M M' : heap_ok M -> grows M M' -> forall v C, consts M !! v = Some C -> consts M' !! v = Some C.
Proof.
  intros HO Gr v C E. apply (gr_same _ _ Gr); [| done]. apply (ho_bound M HO). left. by rewrite E.
Qed.

Lemma fns_inv_grows M M' : heap_ok M -> grows M M' -> fns_inv M -> fns_inv M'.
Proof.
  intros HO Gr H f. specialize (H f). destruct (fns M0 !! f) as [func0 |]; rewrite (gr_fns _ _ Gr); [| done].
  destruct H as (func & E' & N & I). exists func. split_and!; [done | done |].
  apply (fn_inv_grows M); [| done]. by apply heap_keeps.
Qed.

Section Function.
Context (Fu : 2 * d + 2 <= fuel) (f : ref) (F0 : MIRFunction) (ext0 : ref -> Prop) (n0 : ref) (O0 : fn_ok ext0 n0 F0).

Lemma run_grows ch M M' F : run_ok f F0 (ch, M, F) -> grows M M' -> heap_ok M' -> run_ok f F0 (ch, M', F).
Proof.
  intros [[S B] H I Is Sm] Gr H'. cbn [fst snd] in *. split; cbn [fst snd].
  - split; [| done]. cbn [fst snd]. by apply (state_ok_grows other f M).
  - done.
  - apply (fn_inv_grows M); [| done]. by apply heap_keeps.
  - by apply (fns_inv_grows M).
  - by rewrite (gr_fns _ _ Gr).
Qed.

Lemma inlined_outside M g : heap_ok M -> inlined g -> outside other M g.
Proof.
  intros H (G & E & _). right. left. rewrite (la_globs _ (ho_later M H)), E. by eexists.
Qed.

(** An instruction becomes a constant of its type. *)
Lemma run_replace ch M F b i c C J :
  run_ok f F0 (ch, M, F) -> b ∈ blocks F0 -> i ∈ getInstructions b F -> insts F !! i = Some J ->
  foldable inlined (i_kind J) -> consts M !! c = Some C -> c_type C = i_type J ->
  run_ok f F0 (true, M, replace_erase b i c F)
  /\ forall j, j ∈ getInstructions b F -> j <> i -> j ∈ getInstructions b (replace_erase b i c F).
Proof.
  intros [S H [(σ & dead & K) Ch] Is _] Hb Hi E Fo EC TC. cbn [fst snd] in *.
  pose proof (so_body _ _ _ _ (st_ok _ _ _ _ S)) as O. cbn [fst snd] in O.
  assert (Oc : outside other M c) by (left; by rewrite EC).
  pose proof (step_replacement other f (blocks F0) ch M F b i c S Hb Hi Oc) as Rc.
  assert (Ti : forall k, kind_of i F = Some k -> targets k = []).
  { intros k Q. unfold kind_of in Q. rewrite E in Q. injection Q as <-. by destruct (i_kind J). }
  destruct (step_replace other f (blocks F0) ch M F b i c S Hb Hi Ti Rc) as [S' In].
  split; [| intros j Hj N; by apply In]. split; cbn [fst snd]; try done. split.
  - exists (fun v => subst_ref i c (σ v)), (dead ++ [i]).
    apply (folded_replace inlined ext0 (outside other M) n0 (m_next M) M σ dead F0 F O0 O K) with (C := C) (J := J); try done.
    + intros c' Hc'. by left.
    + intros g Hg. by apply inlined_outside.
  - assert (HbF : b ∈ blocks F) by (pose proof (st_blocks _ _ _ _ S) as Eb; cbn [snd] in Eb; by rewrite Eb).
    pose proof (replace_erase_transformed (outside other M) (m_next M) F b i c O HbF Hi Rc) as T.
    assert (Nc : inst_step (replace_erase b i c F) c = None).
    { unfold inst_step, kind_of. destruct (insts (replace_erase b i c F) !! c) as [Jc |] eqn:Q; [exfalso | done].
      assert (Sc : is_Some (insts F !! c)).
      { apply (re_insts (outside other M) (m_next M) F b i c O HbF Hi Rc). by rewrite Q. }
      by apply (ok_disjoint _ _ _ O) in Sc as [_ ?]. }
    intros v. apply (chain_shorter (inst_step F)); [| apply Ch]. intros u w' Q. unfold inst_step, kind_of in Q.
    destruct (decide (placed F u)) as [P | P].
    + destruct (decide (u = i)) as [-> | N].
      { rewrite (tf_dead _ _ _ _ _ T i P) in Q by (by apply list_elem_of_singleton). done. }
      rewrite (tf_kept _ _ _ _ _ T u P) in Q by (by rewrite list_elem_of_singleton).
      destruct (insts F !! u) as [Ju |] eqn:Eu; [| done]. cbn in Q.
      assert (Eq : exists w, inst_step F u = Some w /\ w' = subst_ref i c w).
      { unfold inst_step, kind_of. rewrite Eu. cbn. destruct (i_kind Ju); try done; cbn in Q; injection Q as <-; by eexists. }
      destruct Eq as (w & Ew & ->). exists w. split; [done |].
      destruct (decide (w = i)) as [-> | Nw]; [right | left; by apply subst_ref_other].
      unfold subst_ref. by rewrite N.eqb_refl.
    + rewrite (tf_unplaced _ _ _ _ _ T u P (not_elem_of_nil _)) in Q. exists w'. split; [done | by left].
Qed.

Lemma run_branch b st : run_ok f F0 st -> b ∈ blocks F0 -> run_ok f F0 (fold_branch b st).
Proof.
  destruct st as [[ch M] F]. intros R Hb. pose proof (fold_branch_step other f (blocks F0) b _ (ro_step _ _ _ R) Hb) as S'.
  destruct R as [S H [(σ & dead & K) Ch] Is Sm]. cbn [fst snd] in *. pose proof (so_body _ _ _ _ (st_ok _ _ _ _ S)) as O.
  cbn [fst snd] in O. unfold fold_branch in *.
  destruct (insts F !! terminator b F) as [J |] eqn:EJ; [| by split; [| | split; [by exists σ, dead |] | |]].
  destruct (i_kind J) eqn:KJ; try by split; [| | split; [by exists σ, dead |] | |].
  destruct (const_of cond M) as [[] |] eqn:Ec; try by split; [| | split; [by exists σ, dead |] | |].
  cbn [new_inst] in *. assert (HbF : b ∈ blocks F) by (pose proof (st_blocks _ _ _ _ S) as Eb; cbn [snd] in Eb; by rewrite Eb).
  assert (Gr : grows M (set_next (N.succ (m_next M)) M)) by (apply grows_set_next; lia).
  split; cbn [fst snd] in *.
  - done.
  - apply heap_ok_next; [| done]. cbn. lia.
  - split.
    + exists σ, (dead ++ [terminator b F]). apply (folded_grows _ M); [done |].
      apply (folded_branch inlined ext0 (outside other M) n0 (m_next M) M σ dead F0 F O0 O K b cond trueBlock falseBlock value J Hb EJ KJ Ec).
    + intros v. apply (chain_shorter (inst_step F)); [| apply Ch]. intros u w Q. exists w. split; [| by left].
      unfold inst_step in Q |- *.
      destruct (kind_of u _) as [k |] eqn:Ku in Q; [| done].
      apply (fb_kinds (outside other M) (m_next M) F b cond trueBlock falseBlock value J O HbF EJ KJ) in Ku
        as [[_ ->] | (_ & _ & k0 & -> & [-> | (inc & -> & ->)])]; done.
  - by apply (fns_inv_grows M).
  - done.
Qed.

(** The pass stops here: the function [f] of the module has been folded to [F], in which an
    instruction asks for an operation that is not defined. *)
Definition stuck : Prop :=
  exists g func σ dead M F b i J, g ∈ fst (getFunctions M0) /\ fns M0 !! g = Some func /\ later M
    /\ folded_fn inlined M σ dead (fn_body func) F /\ b ∈ blocks F /\ i ∈ getInstructions b F
    /\ insts F !! i = Some J /\ undefined_fold M F J.

Context (Hf : blocks F0 = [] \/ f ∈ fst (getFunctions M0) /\ exists func, fns M0 !! f = Some func /\ F0 = fn_body func).

Lemma run_fold_inst b st i : run_ok f F0 st -> b ∈ blocks F0 -> i ∈ getInstructions b (snd st) ->
  match fold_inst fuel argType b st i with
  | Some st' => run_ok f F0 st'
      /\ forall j, j ∈ getInstructions b (snd st) -> j <> i -> j ∈ getInstructions b (snd st')
  | None => stuck
  end.
Proof.
  destruct st as [[ch M] F]. cbn [snd]. intros R Hb Hi. unfold fold_inst.
  destruct (insts F !! i) as [J |] eqn:EJ; [| done].
  pose proof (ro_heap _ _ _ R) as H. pose proof (ro_fn _ _ _ R) as [(σ & dead & K) Ch]. cbn [fst snd] in *.
  pose proof (so_body _ _ _ _ (st_ok _ _ _ _ (ro_step _ _ _ R))) as O. cbn [fst snd] in O.
  destruct (fold_value fuel argType M F J) as [[r M1] |] eqn:EV; cbn [mbind option_bind].
  - destruct (fold_value_ok M F H J r M1 EV) as [H1 Hr]. apply (fold_value_grows fuel argType) in EV as [Gr _].
    pose proof (run_grows ch M M1 F R Gr H1) as R1. destruct r as [c |]; [| done].
    destruct (Hr c eq_refl) as (Fo & C & EC & TC). by apply (run_replace ch M1 F b i c C J).
  - apply (fold_value_total Fu M F H O Ch) in EV. destruct Hf as [Z | (Hg & func & Ef & EF)].
    { rewrite Z in Hb. by apply not_elem_of_nil in Hb. }
    exists f, func, σ, dead, M, F, b, i, J. rewrite <- EF. split_and!; try done; [apply H |].
    by rewrite (ff_blocks _ _ _ _ _ _ K).
Qed.

Lemma run_nodup st b : run_ok f F0 st -> b ∈ blocks F0 -> NoDup (getInstructions b (snd st)).
Proof.
  intros R Hb. destruct (ro_step _ _ _ R) as [S B]. apply (ok_nodup _ _ _ (so_body _ _ _ _ S)). by rewrite B.
Qed.

Lemma run_fold_block st b : run_ok f F0 st -> b ∈ blocks F0 ->
  match fold_block fuel argType st b with Some st' => run_ok f F0 st' | None => stuck end.
Proof.
  intros R Hb. unfold fold_block.
  pose proof (inst_loop_or (run_ok f F0) stuck b (fold_inst fuel argType b)
    (fun st i R Hi => run_fold_inst b st i R Hb Hi) (getInstructions b (snd st)) st R (run_nodup st b R Hb)
    ltac:(done)) as Q.
  destruct (fold_some _ _ _) as [st1 |]; [| done]. cbn [mbind option_bind]. by apply run_branch.
Qed.

(** The loads of one global. *)
Lemma run_fold_load g (G : MIRGlobal) b st i :
  inlined g -> globs M0 !! g = Some G -> initializer G <> nullptr ->
  run_ok f F0 st -> b ∈ blocks F0 -> i ∈ getInstructions b (snd st) ->
  run_ok f F0 (fold_load g (initializer G) b st i)
  /\ forall j, j ∈ getInstructions b (snd st) -> j <> i ->
       j ∈ getInstructions b (snd (fold_load g (initializer G) b st i)).
Proof.
  intros Hg EG NG. destruct st as [[ch M] F]. cbn [snd]. intros R Hb Hi. unfold fold_load.
  destruct (insts F !! i) as [J |] eqn:EJ; [| done]. destruct (i_kind J) eqn:KJ; try done.
  destruct (negb isVolatile && N.eqb ptr g) eqn:Et; [| done].
  apply andb_true_iff in Et as [Ev Ep%N.eqb_eq]. rewrite negb_true_iff in Ev.
  pose proof (ro_heap _ _ _ R) as H. cbn [fst snd] in H.
  assert (EGM : globs M !! g = Some G) by by rewrite (la_globs _ (ho_later M H)).
  destruct (ho_init M H g G EGM NG) as [[C EC] Ci].
  assert (L : exists c M1 C1, load_value M (initializer G) (i_type J) = (c, M1) /\ grows M M1 /\ heap_ok M1
    /\ consts M1 !! c = Some C1 /\ c_type C1 = i_type J).
  { unfold load_value. rewrite EC. destruct (N.eqb_spec (c_type C) (i_type J)) as [T | _].
    { exists (initializer G), M, C. by split_and!. }
    assert (New : forall k, (forall w, cast_operand k = Some w -> outside other M w /\ chain (const_cast M) d w) ->
      exists c M1 C1, getOrInsertConstant k (i_type J) M = (c, M1) /\ grows M M1 /\ heap_ok M1
        /\ consts M1 !! c = Some C1 /\ c_type C1 = i_type J).
    { intros k Hk. pose proof (grows_constant k (i_type J) M) as [Gr _]. pose proof (made k (i_type J) M) as Q.
      pose proof (heap_ok_constant k (i_type J) M H Hk) as H1.
      destruct (getOrInsertConstant k (i_type J) M) as [c M1]. cbn [fst snd] in *. exists c, M1. eexists. by split_and!. }
    assert (Cast : forall w, cast_operand (ConstantBitCast (initializer G)) = Some w ->
      outside other M w /\ chain (const_cast M) d w).
    { intros w [= <-]. split; [left; by rewrite EC | done]. }
    destruct (c_kind C); by apply New. }
  destruct L as (c & M1 & C1 & -> & Gr & H1 & E1 & T1). pose proof (run_grows ch M M1 F R Gr H1) as R1.
  apply (run_replace ch M1 F b i c C1 J); try done. rewrite KJ. split; [done |]. by rewrite Ep.
Qed.

End Function.

(** ** Modules in a run *)

Context (Fu : 2 * d + 2 <= fuel) (MO : module_ok other M0).

Record mod_inv (ch : bool) M : Prop := {
  mi_ok : module_ok other M;
  mi_heap : heap_ok M;
  mi_fns : fns_inv M;
  mi_same : ch = false -> fns M = fns M0;
}.

(** The function [f] before the run. *)
Definition orig f M : MIRFunction := match fns M0 !! f with Some func => fn_body func | None => body f M end.

Lemma orig_ok f M ch : mod_inv ch M -> fn_ok (outside other M) (m_next M) (orig f M) \/ fn_ok (outside other M0) (m_next M0) (orig f M).
Proof.
  intros [A _ _ _]. unfold orig. destruct (fns M0 !! f) as [func |] eqn:E.
  - right. by apply (mo_fns _ _ MO f).
  - left. pose proof (st_ok _ _ _ _ (module_state other f M ch A)) as S. apply (so_body _ _ _ _ S).
Qed.

Lemma run_start f M ch : mod_inv ch M -> run_ok f (orig f M) (ch, M, body f M).
Proof.
  intros I. pose proof I as [A H Fs Sm]. pose proof (module_state other f M ch A) as S. pose proof (Fs f) as Ff.
  assert (Fn : fn_inv M (orig f M) (body f M)).
  { unfold orig. destruct (fns M0 !! f) as [func0 |] eqn:E.
    - destruct Ff as (func & E' & _ & Q). unfold body. by rewrite E'.
    - split.
      + exists (fun v => v), []. apply folded_refl. apply (so_body _ _ _ _ (st_ok _ _ _ _ S)).
      + unfold body. rewrite Ff. intros v. by apply chain_ends. }
  split; cbn [fst snd]; try done.
  - destruct Fn as [(σ & dead & K) _]. rewrite <- (ff_blocks _ _ _ _ _ _ K). exact S.
  - intros Ec. split; [by apply Sm |]. unfold orig, body. rewrite (Sm Ec). by destruct (fns M0 !! f).
Qed.

Lemma run_end f M st : run_ok f (orig f M) st -> mod_inv (fst (fst st)) (set_body f (snd st) (snd (fst st))).
Proof.
  destruct st as [[ch M1] F]. intros [S H Fn Fs Sm]. cbn [fst snd] in *.
  assert (Look : forall g, fns (set_body f F M1) !! g =
    if decide (g = f) then (fun func => {| fn_name := fn_name func; fn_body := F |}) <$> fns M1 !! g else fns M1 !! g).
  { intros g. cbn. case_decide as D; [rewrite D; apply lookup_alter_eq | by apply lookup_alter_ne]. }
  split.
  - by apply (step_module other f _ _ S).
  - by apply heap_ok_body.
  - intros g. specialize (Fs g). rewrite Look. destruct (fns M0 !! g) as [func0 |] eqn:E.
    + destruct Fs as (func & E' & N & Q). rewrite E'. case_decide as D.
      * eexists. split_and!; [done | done |]. cbn [fn_body]. rewrite D in E. unfold orig in Fn. rewrite E in Fn.
        by apply (fn_inv_grows M1).
      * exists func. split_and!; [done | done |]. by apply (fn_inv_grows M1).
    + rewrite Fs. by case_decide.
  - intros Ec. destruct (Sm Ec) as [E1 E2]. apply map_eq. intros g. rewrite Look, E1. case_decide as D; [| done].
    rewrite D. unfold orig in E2. destruct (fns M0 !! f) as [[nm F']|] eqn:E; [| done]. cbn. by rewrite E2.
Qed.

Lemma mod_fold_function ch M f : f ∈ fst (getFunctions M0) -> mod_inv ch M ->
  match fold_function fuel argType (ch, M) f with Some st' => mod_inv (fst st') (snd st') | None => stuck end.
Proof.
  intros Hf I. pose proof (run_start f M ch I) as R. unfold fold_function.
  assert (O : exists ext n, fn_ok ext n (orig f M)) by (destruct (orig_ok f M ch I) as [O | O]; by do 2 eexists).
  destruct O as (ext & n & O). assert (Hb : blocks (body f M) = blocks (orig f M)) by apply (st_blocks _ _ _ _ (ro_step _ _ _ R)).
  assert (Place : blocks (orig f M) = [] \/ f ∈ fst (getFunctions M0) /\ exists func, fns M0 !! f = Some func /\ orig f M = fn_body func).
  { unfold orig in *. pose proof (mi_fns _ _ I f) as Q. destruct (fns M0 !! f) as [func |]; [right; split; [done | by exists func] | left].
    unfold body. by rewrite Q. }
  pose proof (fold_some_or (run_ok f (orig f M)) stuck (fold_block fuel argType) (blocks (body f M))) as L.
  specialize (L (fun st b Hb' R => run_fold_block Fu f (orig f M) ext n O Place st b R ltac:(by rewrite <- Hb)) _ R).
  destruct (fold_some _ _ _) as [[[ch1 M1] F1] |]; [| done]. cbn [mbind option_bind fst snd]. by apply (run_end f M (ch1, M1, F1)).
Qed.

Lemma mod_inline_global mutated ch M g :
  (forall g, written g -> is_global g M0 = true -> g ∈ mutated) -> mod_inv ch M ->
  let st := inline_global mutated (ch, M) g in mod_inv (fst st) (snd st).
Proof.
  intros Mut I. unfold inline_global. destruct (globs M !! g) as [G |] eqn:EG; [| done].
  destruct (N.eqb_spec (initializer G) nullptr) as [| NG]; [done |]. cbn [negb andb].
  destruct (isVolatileFlag G) eqn:EV; [done |]. cbn [negb andb].
  destruct (bool_decide (g ∈ mutated)) eqn:Em; [done |]. cbn [negb andb]. destruct (inlinable M (initializer G)); [| done].
  apply bool_decide_eq_false in Em.
  assert (EG0 : globs M0 !! g = Some G) by by rewrite <- (la_globs _ (ho_later M (mi_heap _ _ I))).
  assert (Hg : inlined g).
  { exists G. split_and!; [done | done | done |]. intros W. apply Em, Mut; [done |]. unfold is_global.
    apply bool_decide_eq_true. by rewrite EG0. }
  set (step := fun '(changed, M) f => _). generalize (fst (getFunctions M)) as l. intros l. clear EG.
  revert ch M I. induction l as [| f l IH]; intros ch M I; [done |]. cbn [fold_left]. unfold step at 2 4.
  pose proof (run_start f M ch I) as R.
  assert (O : exists ext n, fn_ok ext n (orig f M)) by (destruct (orig_ok f M ch I) as [O | O]; by do 2 eexists).
  destruct O as (ext & n & O).
  pose proof (each_inst_inv other (run_ok f (orig f M)) f (blocks (orig f M)) (fold_load g (initializer G)) (ro_step f (orig f M))
    (fun b st i R Hb Hi => run_fold_load f (orig f M) ext n O g G b st i Hg EG0 NG R Hb Hi) _ R) as R1.
  destruct (each_inst _ _) as [[ch1 M1] F1]. cbn [fst snd]. apply IH. by apply (run_end f M (ch1, M1, F1)).
Qed.

(** ** The scan of the globals *)

Lemma fold_some_collect {B} (step : list ref -> B -> option (list ref)) (Q : B -> ref -> Prop) (l : list B) :
  (forall a x, x ∈ l -> exists a', step a x = Some a' /\ forall g, g ∈ a' <-> g ∈ a \/ Q x g) ->
  forall a, exists a', fold_some step l a = Some a' /\ forall g, g ∈ a' <-> g ∈ a \/ exists x, x ∈ l /\ Q x g.
Proof.
  induction l as [| x l IH]; intros Step a; cbn [fold_some].
  - exists a. split; [done |]. intros g. split; [by left |]. intros [? | (x & Hx & _)]; [done | by apply not_elem_of_nil in Hx].
  - destruct (Step a x ltac:(left)) as (a1 & E1 & S1). rewrite E1. cbn [mbind option_bind].
    destruct (IH (fun a y Hy => Step a y ltac:(by right)) a1) as (a' & E' & S'). exists a'. split; [done |].
    intros g. rewrite S', S1. split.
    + intros [[? | ?] | (y & Hy & ?)]; [by left | right; exists x | right; exists y]; (split; [| done]); [left | by right].
    + intros [? | (y & [-> | Hy]%elem_of_cons & ?)]; [by left; left | by left; right | right; by exists y].
Qed.

Context (CE : chains_end) (Np : m_next M0 <> nullptr).

Lemma start_heap : heap_ok M0.
Proof.
  split; try done; try by apply CE.
  - apply MO.
  - unfold nullptr in Np. lia.
  - intros v. apply (chain_weaken _ d); [lia | by apply CE].
  - intros g G E N. split; [by apply (mo_init _ _ MO g G) | by apply CE].
Qed.

Lemma start_functions : (forall M, mod_inv false M0 -> snd (getFunctions M0) = M -> mod_inv false M)
  /\ forall f, body f (snd (getFunctions M0)) = body f M0.
Proof.
  unfold getFunctions. destruct (functionsDirty M0); [| split; [by intros M I <- | done]].
  split; [| done]. intros M [[A1 A2 A3] [[] B P C I Op T] Fs Sm] <-. split.
  - by split.
  - by split.
  - intros f. specialize (Fs f). destruct (fns M0 !! f) as [func0 |] eqn:E0; [| exact E0].
    destruct Fs as (func & E & N & Q). exists func. split_and!; [rewrite <- E; exact E0 | done |].
    by apply (fn_inv_grows M0).
  - done.
Qed.

Lemma start_inv : mod_inv false (snd (getFunctions M0)).
Proof.
  apply (proj1 start_functions); [| done]. split; [done | apply start_heap | | done].
  intros f. destruct (fns M0 !! f) as [func |] eqn:E; [| done]. exists func. split_and!; [done | done |]. split.
  - exists (fun v => v), []. apply folded_refl. by apply (mo_fns _ _ MO f func E).
  - by apply (ce_insts CE f).
Qed.

(** The scan ends, and finds every global that is written. *)
Lemma scan_total : let M1 := snd (getFunctions M0) in
  exists mutated, fold_some (scan_function fuel M1) (fst (getFunctions M0)) [] = Some mutated
    /\ forall g, written g -> is_global g M0 = true -> g ∈ mutated.
Proof.
  intros M1. pose proof start_inv as I1. fold M1 in I1.
  assert (Bd : forall f, body f M1 = body f M0) by apply start_functions.
  assert (Gb : forall f v, getBasePointer fuel M1 (body f M1) v = getBasePointer fuel M0 (body f M0) v).
  { intros f v. rewrite Bd. unfold M1, getFunctions. by destruct (functionsDirty M0). }
  assert (Gl : forall g, is_global g M1 = is_global g M0).
  { intros g. unfold M1, getFunctions. by destruct (functionsDirty M0). }
  set (Q := fun f v g => getBasePointer fuel M0 (body f M0) v = Some g /\ is_global g M0 = true).
  assert (Val : forall f a v, exists a', scan_value fuel M1 (body f M1) a v = Some a' /\ forall g, g ∈ a' <-> g ∈ a \/ Q f v g).
  { intros f a v. unfold scan_value.
    pose proof (run_start f M1 false I1) as R. pose proof (ro_step _ _ _ R) as [S _]. cbn [fst snd] in S.
    destruct (base_total Fu M1 (body f M1) (mi_heap _ _ I1) (so_body _ _ _ _ S) (fi_chain _ _ _ (ro_fn _ _ _ R)) v) as [g0 E].
    rewrite E. cbn [mbind option_bind]. eexists. split; [done |]. intros g. unfold Q. rewrite <- Gb, E, Gl.
    destruct (is_global g0 M0) eqn:Eg; [rewrite elem_of_add_unique |].
    - split; [intros [-> | ?]; auto | intros [? | [[= <-] _]]; auto].
    - split; [by left | intros [? | [[= <-] ?]]; [done | congruence]]. }
  assert (Fn : forall a f, exists a', scan_function fuel M1 a f = Some a' /\ forall g, g ∈ a' <-> g ∈ a \/
    exists b, b ∈ blocks (body f M1) /\ exists i, i ∈ getInstructions b (body f M1)
      /\ exists v, (exists k, kind_of i (body f M1) = Some k /\ v ∈ leaked k) /\ Q f v g).
  { intros a f. unfold scan_function.
    apply (fold_some_collect _ (fun b g => exists i, i ∈ getInstructions b (body f M1)
      /\ exists v, (exists k, kind_of i (body f M1) = Some k /\ v ∈ leaked k) /\ Q f v g)). intros a1 b _.
    apply (fold_some_collect _ (fun i g => exists v, (exists k, kind_of i (body f M1) = Some k /\ v ∈ leaked k) /\ Q f v g)).
    intros a2 i _. unfold scan_inst. destruct (kind_of i (body f M1)) as [k |].
    - destruct (fold_some_collect (scan_value fuel M1 (body f M1)) (Q f) (leaked k) (fun a v _ => Val f a v) a2) as (a' & E & S).
      exists a'. split; [done |]. intros g. rewrite S. split; (intros [? | (v & H)]; [by left | right]); exists v.
      + destruct H. split; [by exists k | done].
      + destruct H as [(k' & [= <-] & ?) ?]. done.
    - exists a2. split; [done |]. intros g. split; [by left |]. intros [? | (v & (k & [=] & _) & _)]. done. }
  destruct (fold_some_collect (scan_function fuel M1) _ (fst (getFunctions M0)) (fun a f _ => Fn a f) []) as (mutated & E & S).
  exists mutated. split; [done |]. intros g (f & b & i & k & v & Hf & Hb & Hi & K & Hv & Eg) G. apply S. right.
  exists f. split; [done |]. exists b. rewrite Bd. split; [done |]. exists i. split; [done |]. exists v.
  split; [by exists k | done].
Qed.

End Run.


(** ** At a concrete module *)

Fixpoint chain_b (step : ref -> option ref) (d : nat) (v : ref) : bool :=
  match step v with
  | None => true
  | Some w => match d with 0 => false | S d => chain_b step d w end
  end.

Lemma chain_b_spec step d v : chain_b step d v = true -> chain step d v.
Proof. revert v. induction d as [| d IH]; intros v; cbn; destruct (step v); try done. apply IH. Qed.

Lemma chain_all {A} (m : gmap ref A) step d :
  (forall v, m !! v = None -> step v = None) ->
  forallb (chain_b step d) (map fst (map_to_list m)) = true -> forall v, chain step d v.
Proof.
  intros N H v. destruct (m !! v) as [a |] eqn:E; [| by apply chain_ends, N].
  apply chain_b_spec. rewrite forallb_forall in H. apply H, list_elem_of_In, list_elem_of_fmap.
  exists (v, a). split; [done | by apply elem_of_map_to_list].
Qed.

Lemma narrowed_chains : chains_end (fun _ => False) 1 narrowed.
Proof.
  split.
  - intros f func E. unfold narrowed, module_of, set_consts in E. cbn in E.
    apply lookup_insert_Some in E as [[<- <-] | [_ E]]; [| by rewrite lookup_empty in E].
    cbn [fn_body]. match goal with |- forall v, chain (inst_step ?F) _ _ => apply (chain_all (insts F)) end.
    + intros v Q. unfold inst_step, kind_of. by rewrite Q.
    + by vm_compute.
  - apply (chain_all (consts narrowed)); [| by vm_compute].
    intros v Q. rewrite const_cast_operand. unfold const_of. by rewrite Q.
  - intros v w E. exfalso. revert E. rewrite const_cast_operand. unfold const_of.
    destruct (consts narrowed !! v) as [C |] eqn:Q; [| done]. unfold narrowed, module_of, set_consts in Q. cbn [consts] in Q.
    apply elem_of_list_to_map_2 in Q. rewrite !elem_of_cons, elem_of_nil in Q.
    by destruct_or?; simplify_eq.
  - intros t [T E]. change (m_types narrowed) with some_types in *. change (m_next_type narrowed) with 10%N.
    unfold some_types in E. pose proof E as E'. apply elem_of_list_to_map_2 in E'. rewrite !elem_of_cons, elem_of_nil in E'.
    split; [exists T; split; [done |] | destruct_or?; simplify_eq; lia].
    intros q Hq. destruct_or?; simplify_eq; by apply not_elem_of_nil in Hq.
Qed.


(** [return 9223372036854775807 + 1;]: the pass stops at the sum. *)
Definition overflowing : MIRModule :=
  module_of
    {| insts := list_to_map [(11%N, typed 2 (BinaryInst Opcode.Add 50 51)); (12%N, typed 0 (ReturnInst 11))];
       bbs := list_to_map [(1%N, block_of [11%N; 12%N])];
       blocks := [1%N]; next_ref := 300%N |} []
    [(50%N, const_int (2 ^ 63 - 1) 2); (51%N, const_int 1 2)].

Example overflow_stops : runOnModule 10 (fun _ => nullptr) overflowing = None.
Proof. by vm_compute. Qed.
