(* ===== verification/DCE.v ===== *)
(** * Dead code elimination

    [DeadCodeEliminationPass::runOnModule] of
    [lib/middle/mir/passes/DeadCodeEliminationPass.cpp]: the blocks that the entry does not
    reach go, with their edges and the values of phis that came over them; phis with one
    value are replaced by it and empty ones by an undefined value; the instructions and
    globals that no instruction with an effect needs are swept.

    The sets of the code are lists without duplicates; nothing depends on the order in which
    the hash tables are iterated, since each phi is pruned once and by itself. *)

From S2P Require Import Prelude Diag HIRType MIR Worklist SimplifyCFG MIRModule ConstFold.

(** ** Step 1: unreachable blocks *)

Definition live_succs (F : MIRFunction) (b : ref) : list ref :=
  filter (fun s => s <> nullptr) (getSuccessors b F).

(** Every recorded successor of a block in the heap, with the entry. *)
Definition block_universe (F : MIRFunction) : list ref :=
  getEntryBlock F :: concat (map (fun b => getSuccessors b F) (map fst (map_to_list (bbs F)))).

Definition reachable_blocks (F : MIRFunction) : option (list ref) :=
  search_from (live_succs F) (S (length (block_universe F))) [getEntryBlock F].

(** [livePreds[b]]. *)
Definition livePreds (F : MIRFunction) (reachable : list ref) (b : ref) : list ref :=
  filter (fun p => b ∈ getSuccessors p F) reachable.

(** The loop over [phi->getIncomingMut()]. *)
Definition prune_incoming (preds : list ref) (inc : list (ref * ref)) : list (ref * ref) :=
  filter (fun p => snd p ∈ preds) inc.

Definition prune_kind (preds : list ref) (k : InstKind) : InstKind :=
  match k with PhiInst inc => PhiInst (prune_incoming preds inc) | _ => k end.

(** Whether the pruning of a phi erases an entry. *)
Definition prunes (preds : list ref) (k : InstKind) : bool :=
  match k with
  | PhiInst inc => existsb (fun p => negb (bool_decide (snd p ∈ preds))) inc
  | _ => false
  end.

Definition prune_inst (preds : list ref) (st : bool * MIRFunction) (i : ref) : bool * MIRFunction :=
  let '(changed, F) := st in
  (changed || match kind_of i F with Some k => prunes preds k | None => false end,
   upd_inst i (fun J => with_kind (prune_kind preds (i_kind J)) J) F).

Definition prune_phis (reachable : list ref) (st : bool * MIRFunction) : bool * MIRFunction :=
  let F0 := snd st in
  fold_left (fun st b =>
    fold_left (prune_inst (livePreds F0 reachable b)) (getInstructions b F0) st) reachable st.

(** A dead block leaves the predecessors of the live ones, and is destroyed. *)
Definition drop_block (reachable : list ref) (st : bool * MIRFunction) (b : ref) :
    bool * MIRFunction :=
  if bool_decide (b ∈ reachable) then st
  else
    let F := snd st in
    (true, erase_block b (fold_left (fun F succ =>
       if bool_decide (succ ∈ reachable) then removePredecessor succ b F else F)
       (getSuccessors b F) F)).

(** The step on one function. *)
Definition eliminate_blocks (st : bool * MIRFunction) : option (bool * MIRFunction) :=
  let '(changed, F) := st in
  if isDeclaration F then Some st
  else
    reachable ← reachable_blocks F;
    Some (fold_left (drop_block reachable) (blocks F) (prune_phis reachable st)).

(** ** Step 1.5: trivial phis *)

(** [getOrInsertConstant<ConstantUndef>]. *)
Definition undef (t : TypePtr) (M : MIRModule) : ref * MIRModule :=
  getOrInsertConstant ConstantUndef t M.

(** The value a phi is replaced by, if it is trivial. *)
Definition resolve_phi (b i : ref) (J : MIRInst) (M : MIRModule) (F : MIRFunction) :
    option (ref * MIRModule) :=
  match i_kind J with
  | PhiInst [(v, _)] =>
      if length (getPredecessors b F) <=? 1 then
        if N.eqb v i then Some (undef (i_type J) M) else Some (v, M)
      else None
  | PhiInst [] => Some (undef (i_type J) M)
  | _ => None
  end.

Definition fold_phi (b : ref) (st : bool * MIRModule * MIRFunction) (i : ref) :
    bool * MIRModule * MIRFunction :=
  let '(changed, M, F) := st in
  match insts F !! i with
  | Some J =>
      match resolve_phi b i J M F with
      | Some (resolvedVal, M) => (true, M, replace_erase b i resolvedVal F)
      | None => st
      end
  | None => st
  end.

(** ** Step 2: mark *)

Definition hasSideEffects (J : MIRInst) : bool :=
  match getOpcode J with
  | Opcode.Store | Opcode.StoreWeak | Opcode.Call | Opcode.Invoke | Opcode.Return
  | Opcode.Unreachable | Opcode.Br | Opcode.CondBr | Opcode.Switch | Opcode.Throw
  | Opcode.Resume | Opcode.InlineAsm | Opcode.Spawn | Opcode.Await | Opcode.AtomicStore
  | Opcode.AtomicRMW | Opcode.AtomicCmpXchg | Opcode.Fence | Opcode.Retain | Opcode.Release
  | Opcode.LandingPad => true
  | Opcode.Load => match i_kind J with LoadInst _ _ isVolatile => isVolatile | _ => false end
  | Opcode.AtomicLoad => true
  | _ => false
  end.

(** [extractOperands]: what a value keeps alive. *)
Definition inst_operands (k : InstKind) : list ref :=
  match k with
  | LoadInst p _ _ => [p]
  | StoreInst v p _ _ | StoreWeakInst v p => [v; p]
  | LoadWeakInst p => [p]
  | GetElementPtrInst p ix => p :: ix
  | CallInst c args _ => c :: args
  | CastInst _ v _ => [v]
  | PhiInst inc => map fst inc
  | BinaryInst _ l r | CompareInst _ l r | FCmpInst _ l r => [l; r]
  | ReturnInst v => [v]
  | CondBranchInst c _ _ => [c]
  | SwitchInst c _ cs => c :: map fst cs
  | InvokeInst c args _ _ => c :: args
  | ResumeInst e => [e]
  | ThrowInst e _ => [e]
  | InlineAsmInst _ _ args _ => args
  | SpawnInst c _ => [c]
  | AwaitInst p => [p]
  | AtomicLoadInst p _ => [p]
  | AtomicStoreInst v p _ => [v; p]
  | AtomicRMWInst _ p v _ => [v; p]
  | AtomicCmpXchgInst p e d _ _ => [p; e; d]
  | ExtractValueInst a _ => [a]
  | InsertValueInst a v _ => [a; v]
  | ARCInst _ o _ => [o]
  | MakeSharedInst o => [o]
  | MakeClosureInst f cs => f :: cs
  | BranchInst _ | UnreachableInst | AllocaInst _ _ | LandingPadInst _ | FenceInst _ => []
  end.

Definition const_operands (c : ConstKind double) : list ref :=
  match c with
  | ConstantArray elems => elems
  | ConstantMap entries => concat (map (fun '(key, v) => [key; v]) entries)
  | ConstantStruct fields => fields
  | ConstantBitCast v | ConstantAnyCast v | ConstantArrayToSlice v | ConstantSliceToArray v => [v]
  | _ => []
  end.

(** The instruction at an address, in whichever function owns it. *)
Definition find_inst (M : MIRModule) (v : ref) : option MIRInst :=
  fold_left (fun r f => match r with Some J => Some J | None => insts (body f M) !! v end)
    (functions M) None.

Definition extractOperands (M : MIRModule) (v : ref) : list ref :=
  filter (fun o => o <> nullptr)
    (match find_inst M v with
     | Some J => inst_operands (i_kind J)
     | None =>
         match globs M !! v with
         | Some g => [initializer g]
         | None => match const_of v M with Some c => const_operands c | None => [] end
         end
     end).

(** The values marked first: the globals that other modules see or that are marked as
    used, and the instructions with effects. *)
Definition global_roots (M : MIRModule) : list ref :=
  filter (fun g => match globs M !! g with
                   | Some G => negb (bool_decide (g_linkage G = Linkage.Internal)) || isUsedFlag G
                   | None => false
                   end = true) (globals M).

Definition isSystemRoot (name : string) : bool :=
  String.eqb name "__moksha_module_init" || String.eqb name "__moksha_module_destroy".

Definition function_roots (M : MIRModule) (f : ref) : list ref :=
  let F := body f M in
  let system := match fns M !! f with Some func => isSystemRoot (fn_name func) | None => false end in
  concat (map (fun b => filter (fun i =>
    system || match insts F !! i with Some J => hasSideEffects J | None => false end = true)
    (getInstructions b F)) (blocks F)).

Definition roots (M : MIRModule) (funcs : list ref) : list ref :=
  global_roots M ++ concat (map (function_roots M) funcs).

(** A bound on the number of values that can be marked: what the roots and the operands of
    every object name. *)
Definition mark_universe (M : MIRModule) (funcs : list ref) : list ref :=
  roots M funcs
  ++ concat (map (fun f => concat (map (fun p => inst_operands (i_kind (snd p)))
                                     (map_to_list (insts (body f M))))) (functions M))
  ++ map (fun p => initializer (snd p)) (map_to_list (globs M))
  ++ concat (map (fun p => const_operands (c_kind (snd p))) (map_to_list (consts M))).

(** [alive] when the worklist is empty. *)
Definition marked (M : MIRModule) (funcs : list ref) : option (list ref) :=
  search_from (extractOperands M) (S (length (mark_universe M funcs))) (roots M funcs).

(** ** Step 2: sweep *)

Definition sweep_inst (alive : list ref) (b : ref) (st : bool * MIRFunction) (i : ref) :
    bool * MIRFunction :=
  if bool_decide (i ∈ alive) then st else (true, erase_inst b i (snd st)).

Definition sweep_function (alive : list ref) (st : bool * MIRFunction) : bool * MIRFunction :=
  fold_left (fun st b => fold_left (sweep_inst alive b) (getInstructions b (snd st)) st)
    (blocks (snd st)) st.

Definition sweep_global (alive : list ref) (st : bool * MIRModule) (g : ref) : bool * MIRModule :=
  if bool_decide (g ∈ alive) then st else (true, erase_global g (snd st)).

(** ** The pass *)

(** A step on the body of each function. *)
Definition on_body (f : bool * MIRFunction -> bool * MIRFunction) (st : bool * MIRModule) (func : ref) :
    bool * MIRModule :=
  let '(changed, M) := st in
  let '(changed, F) := f (changed, body func M) in
  (changed, set_body func F M).

Definition eliminate_step (st : bool * MIRModule) (func : ref) : option (bool * MIRModule) :=
  let '(changed, M) := st in
  '(changed, F) ← eliminate_blocks (changed, body func M);
  Some (changed, set_body func F M).

Definition phi_step (st : bool * MIRModule) (func : ref) : bool * MIRModule :=
  let '(changed, M) := st in
  let '(changed, M, F) := each_inst fold_phi (changed, M, body func M) in
  (changed, set_body func F M).

Definition eliminate (M : MIRModule) : option (bool * MIRModule) :=
  let '(funcs, M) := getFunctions M in
  st ← fold_some eliminate_step funcs (false, M);
  Some (fold_left phi_step funcs st).

Definition mark_and_sweep (st : bool * MIRModule) : option (bool * MIRModule) :=
  let '(changed, M) := st in
  let '(funcs, M) := getFunctions M in
  alive ← marked M funcs;
  let st := fold_left (on_body (sweep_function alive)) funcs (changed, M) in
  Some (fold_left (sweep_global alive) (globals (snd st)) st).

Definition runOnModule (M : MIRModule) : option (bool * MIRModule) :=
  st ← eliminate M; mark_and_sweep st.
