(* ===== verification/DCEProps.v ===== *)
(** * Dead code elimination: functions

    A function that lost blocks and instructions nobody needs keeps its invariant; the
    elimination of the blocks that the entry does not reach is such a loss. *)

From S2P Require Import Prelude Diag HIRType MIR Worklist MIRFacts SimplifyCFG SimplifyCFGProps MIRModule MIRUses ConstFold ConstFoldSafe DCE.

Implicit Types (F G H : MIRFunction) (b c p i j v x : ref) (k : InstKind) (l R : list ref).

(** ** Losing blocks and instructions *)

(** An instruction up to lost entries of a phi. *)
Definition thinner k k0 : Prop :=
  k = k0 \/ exists inc inc0, k = PhiInst inc /\ k0 = PhiInst inc0 /\ (forall q, q ∈ inc -> q ∈ inc0).

Lemma thinner_ops k k0 : thinner k k0 ->
  (forall v, v ∈ value_ops k -> v ∈ value_ops k0) /\ (forall v, v ∈ fixed_ops k -> v ∈ fixed_ops k0)
  /\ targets k = targets k0.
Proof.
  intros [-> | (inc & inc0 & -> & -> & Sub)]; [done |]. cbn [value_ops fixed_ops targets].
  split_and!; [| | done]; intros v Hv; apply list_elem_of_fmap in Hv as (q & -> & Hq);
    apply list_elem_of_fmap_2; by apply Sub.
Qed.

Definition is_arc k : bool := match k with ARCInst _ _ _ => true | _ => false end.

(** A reference that is never replaced by a value is null, a block in a phi or a switch, or
    one of the functions [other], which drop functions are. *)
Definition labels_known (other : ref -> Prop) F : Prop := forall b i k v,
  b ∈ blocks F -> i ∈ getInstructions b F -> kind_of i F = Some k -> v ∈ fixed_ops k ->
  v = nullptr \/ other v \/ (has_block v F /\ is_arc k = false).

Section Restrict.
Context (ext ext' : ref -> Prop) (next : ref) (F H : MIRFunction).
Context (O : fn_ok ext next F).

(** [H] is a part of [F] that nothing refers out of. *)
Record restricts : Prop := {
  rs_blocks : forall b, b ∈ blocks H -> b ∈ blocks F /\ has_block b H;
  rs_has : forall b, has_block b H -> has_block b F;
  rs_insts : forall j, is_Some (insts H !! j) -> is_Some (insts F !! j);
  rs_held : forall b j, b ∈ blocks H -> j ∈ getInstructions b H ->
    j ∈ getInstructions b F /\ is_Some (insts H !! j);
  rs_nodup : forall b, b ∈ blocks H -> NoDup (getInstructions b H);
  rs_kind : forall j k, kind_of j H = Some k -> exists k0, kind_of j F = Some k0 /\ thinner k k0;
  rs_term : forall b, b ∈ blocks H -> term_targets b H = term_targets b F;
  rs_last : forall b, b ∈ blocks H -> terminator b F ∈ getInstructions b H ->
    terminator b H = terminator b F;
  rs_closed : forall b c, b ∈ blocks H -> c ∈ term_targets b F -> c ∈ blocks H;
  rs_succ : forall b c, b ∈ blocks H -> c ∈ getSuccessors b H <-> c ∈ getSuccessors b F;
  rs_pred : forall c p, c ∈ blocks H ->
    p ∈ getPredecessors c H <-> p ∈ getPredecessors c F /\ p ∈ blocks H;
  rs_values : forall b j k v, b ∈ blocks H -> j ∈ getInstructions b H -> kind_of j H = Some k ->
    v ∈ value_ops k -> (is_Some (insts F !! v) -> is_Some (insts H !! v)) /\ (ext v -> ext' v);
  rs_fixed : forall b j k v, b ∈ blocks H -> j ∈ getInstructions b H -> kind_of j H = Some k ->
    v ∈ fixed_ops k -> v = nullptr \/ has_block v H \/ ext' v;
  rs_ext : forall v, ext' v -> ext v;
}.

Lemma fn_ok_restrict : restricts -> fn_ok ext' next H.
Proof.
  intros [R1 R2 R3 R4 R5 R6 R7 R8 R9 R10 R11 R12 R13 R14].
  pose proof O as [A1 A2 A3 A4 A5 A6 A7 A8 A9 A10 A11 A12 A13 A14 A15 A16].
  assert (In : forall b j k, b ∈ blocks H -> j ∈ getInstructions b H -> kind_of j H = Some k ->
    b ∈ blocks F /\ j ∈ getInstructions b F /\ exists k0, kind_of j F = Some k0 /\ thinner k k0).
  { intros b j k Hb Hj K. destruct (R1 b Hb), (R4 b j Hb Hj). split_and!; [done | done | by apply R6]. }
  split.
  - split.
    + intros b Hb. by apply R1.
    + destruct (insts H !! nullptr) eqn:E; [| done]. exfalso.
      destruct (R3 nullptr) as [J EJ]; [by eexists |]. by rewrite (wf_null _ A1) in EJ.
    + intros b c Hb. rewrite R7 by done. by apply R9.
  - split.
    + intros b c Hb. rewrite R10, R7 by done. apply (co_succ _ A2). by apply R1.
    + intros c p Hc. rewrite R11, (co_pred _ A2 c p) by (done || by apply R1).
      split; [intros [[? ?] ?] | intros [? ?]]; [split; [done | by apply R10] |].
      split; [split; [by apply R1 | by apply R10] | done].
  - intros v Hv. by apply A3, R3.
  - intros v Hv. by apply A4, R2.
  - intros v Hv. by apply A5, R14.
  - intros v Hv. destruct (A6 v (R3 v Hv)) as [N1 N2]. split; [intros Q; by apply N1, R2 | intros Q; by apply N2, R14].
  - intros v Hv Q. by apply (A7 v (R14 v Hv)), R2.
  - intros b i Hb Hi. by apply (R4 b).
  - done.
  - intros b c i Hb Hc Hi Hi'. apply (A10 b c i); [by apply R1 | by apply R1 | by apply R4 | by apply R4].
  - intros b i k Hb Hi N K. destruct (In b i k Hb Hi K) as (Hb' & Hi' & k0 & K0 & T).
    destruct (thinner_ops _ _ T) as (_ & _ & ->). apply (A11 b i k0); [done | done | | done].
    intros ->. by rewrite R8 in N.
  - intros b i k v Hb Hi K Hv. destruct (In b i k Hb Hi K) as (Hb' & Hi' & k0 & K0 & T).
    destruct (thinner_ops _ _ T) as (V & _ & Et). destruct (R12 b i k v Hb Hi K Hv) as [Q1 Q2].
    destruct (decide (v = nullptr)) as [-> | Nn]; [by left |].
    destruct (A12 b i k0 v Hb' Hi' K0 (V v Hv)) as [Q | [Q | [Q | Q]]]; [by left | by right; left; apply Q1 | | by right; right; right; apply Q2].
    right. right. left. pose proof (A16 b i k0 v Hb' Hi' K0 (V v Hv) Q) as Ht.
    apply R1, (R9 b); [done |]. destruct (decide (i = terminator b F)) as [-> | N].
    + rewrite (term_targets_kind _ _ _ K0). by apply list_elem_of_filter.
    + rewrite (A11 b i k0 Hb' Hi' N K0) in Ht. by apply not_elem_of_nil in Ht.
  - intros b i k v Hb Hi K Hv. by apply (R13 b i k).
  - intros b i k v k' Hb Hi K Hv Kv. destruct (In b i k Hb Hi K) as (Hb' & Hi' & k0 & K0 & T).
    destruct (thinner_ops _ _ T) as (V & _ & _). destruct (R6 v k' Kv) as (kv & Kv0 & Tv).
    destruct (thinner_ops _ _ Tv) as (_ & _ & ->). by apply (A14 b i k0 v); [| | | apply V |].
  - intros b i c t f Hb Hi K. destruct (In b i _ Hb Hi K) as (Hb' & Hi' & k0 & K0 & T).
    destruct T as [<- | (? & ? & [=] & _)]. by apply (A15 b i c).
  - intros b i k v Hb Hi K Hv Q. destruct (In b i k Hb Hi K) as (Hb' & Hi' & k0 & K0 & T).
    destruct (thinner_ops _ _ T) as (V & _ & ->). by apply (A16 b i k0); [| | | apply V | apply R2].
Qed.

End Restrict.

Lemma thinner_arc k k0 : thinner k k0 -> is_arc k = is_arc k0.
Proof. by intros [-> | (inc & inc0 & -> & -> & _)]. Qed.

Lemma restricts_labels ext ext' other next F H :
  fn_ok ext next F -> restricts ext ext' F H -> labels_known other F -> labels_known other H.
Proof.
  intros O [R1 R2 R3 R4 R5 R6 R7 R8 R9 R10 R11 R12 R13 R14] L b i k v Hb Hi K Hv.
  destruct (R6 i k K) as (k0 & K0 & T). destruct (thinner_ops _ _ T) as (_ & V & _).
  rewrite (thinner_arc _ _ T). destruct (L b i k0 v) as [? | [? | [Hv' E]]]; auto.
  - by apply R1.
  - by apply R4.
  - destruct (R13 b i k v Hb Hi K Hv) as [? | [? | Q]]; auto.
    exfalso. by apply (ok_ext_block _ _ _ O v (R14 v Q)).
Qed.

(** ** Effects *)

Definition kind_effect k : bool :=
  hasSideEffects {| i_kind := k; i_type := nullptr; i_name := ""; i_loc := None; i_borrow := None; i_parent := nullptr |}.

Lemma hasSideEffects_kind J : hasSideEffects J = kind_effect (i_kind J).
Proof. by destruct J. Qed.

Lemma kind_effect_replace o n k : kind_effect (replaceOperand false o n k) = kind_effect k.
Proof. by destruct k. Qed.

Lemma kind_effect_thinner k k0 : thinner k k0 -> kind_effect k = kind_effect k0.
Proof. by intros [-> | (inc & inc0 & -> & -> & _)]. Qed.

Lemma kind_effect_targets k : targets k <> [] -> kind_effect k = true.
Proof. by destruct k. Qed.

(** The instructions of [F] with effects in the blocks of [F'] are in [F'] as well. *)
Definition effects_kept F F' : Prop := forall b i k,
  b ∈ blocks F' -> i ∈ getInstructions b F -> kind_of i F = Some k -> kind_effect k = true ->
  i ∈ getInstructions b F' /\ exists k', kind_of i F' = Some k' /\ kind_effect k' = true.

Lemma effects_kept_trans F1 F2 F3 :
  (forall b, b ∈ blocks F3 -> b ∈ blocks F2) -> effects_kept F1 F2 -> effects_kept F2 F3 -> effects_kept F1 F3.
Proof.
  intros B E12 E23 b i k Hb Hi K S. destruct (E12 b i k (B b Hb) Hi K S) as (Hi' & k' & K' & S').
  by apply (E23 b i k').
Qed.

(** ** Erasing blocks *)

Lemma free_insts_lookup l : forall F j,
  insts (fold_left (fun F i => free_inst i F) l F) !! j = if decide (j ∈ l) then None else insts F !! j.
Proof.
  induction l as [| i l IH]; intros F j; cbn [fold_left]; [by case_decide as D; [apply not_elem_of_nil in D |] |].
  rewrite IH. unfold free_inst. cbn [insts set_insts]. destruct (decide (j = i)) as [-> | N].
  - rewrite lookup_delete_eq, (decide_True _ _ (list_elem_of_here i l)). by case_decide.
  - rewrite lookup_delete_ne by done. case_decide as D; case_decide as D'; try done.
    + destruct D'. by right.
    + apply elem_of_cons in D' as [? | ?]; done.
Qed.

Lemma erase_block_spec b F :
  let G := erase_block b F in
  blocks G = erase_all b (blocks F)
  /\ (forall x, bbs G !! x = if decide (x = b) then None else bbs F !! x)
  /\ (forall j, insts G !! j = if decide (j ∈ getInstructions b F) then None else insts F !! j).
Proof.
  unfold erase_block. destruct (free_insts_bbs (getInstructions b F) F) as [B1 B2].
  pose proof (free_insts_lookup (getInstructions b F) F) as B3.
  set (F1 := fold_left _ _ F) in *. clearbody F1. cbn [blocks bbs insts set_blocks set_bbs].
  split_and!; [by rewrite B2 | | done]. intros x. rewrite B1. case_decide as D.
  - subst x. apply lookup_delete_eq.
  - by apply lookup_delete_ne.
Qed.

(** A dead block leaves the predecessors of the live blocks among its successors. *)
Definition leave R b l F : MIRFunction :=
  fold_left (fun F succ => if bool_decide (succ ∈ R) then removePredecessor succ b F else F) l F.

Lemma leave_spec R b l : forall F,
  let G := leave R b l F in
  blocks G = blocks F /\ insts G = insts F
  /\ forall x, (has_block x G <-> has_block x F) /\ getInstructions x G = getInstructions x F
     /\ getSuccessors x G = getSuccessors x F
     /\ forall p, p ∈ getPredecessors x G <-> p ∈ getPredecessors x F /\ ~ (p = b /\ x ∈ l /\ x ∈ R).
Proof.
  induction l as [| s l IH]; intros F; unfold leave; cbn [fold_left].
  - split_and!; [done | done |]. intros x. split_and!; [done | done | done |].
    intros p. rewrite elem_of_nil. tauto.
  - case_bool_decide as D.
    + destruct (IH (removePredecessor s b F)) as (I1 & I2 & I3).
      unfold leave in I1, I2, I3. split_and!; [by rewrite I1 | by rewrite I2 |].
      intros x. destruct (I3 x) as (H1 & H2 & H3 & H4).
      split_and!; [rewrite H1; apply has_block_upd | rewrite H2 | rewrite H3 | intros p; rewrite H4].
      * by apply (sc_instructions _ _ (same_code_removePredecessor s b F)).
      * apply getSuccessors_removePredecessor.
      * rewrite getPredecessors_removePredecessor, elem_of_cons. case_decide as E.
        -- subst x. rewrite elem_of_erase_all. destruct (decide (p = b)); tauto.
        -- tauto.
    + destruct (IH F) as (I1 & I2 & I3). unfold leave in I1, I2, I3. split_and!; [done | done |].
      intros x. destruct (I3 x) as (H1 & H2 & H3 & H4). split_and!; [done | done | done |].
      intros p. rewrite H4, elem_of_cons. destruct (decide (x = s)) as [-> |]; tauto.
Qed.

(** The function after the dead blocks among [l] went. *)
Record dropped R l F H : Prop := {
  dp_blocks : blocks H = filter (fun x => x ∈ R \/ x ∉ l) (blocks F);
  dp_kept : forall x, x ∈ R \/ x ∉ l ->
    (has_block x H <-> has_block x F) /\ getInstructions x H = getInstructions x F
    /\ getSuccessors x H = getSuccessors x F
    /\ (forall p, p ∈ getPredecessors x H <->
         p ∈ getPredecessors x F /\ ~ (x ∈ R /\ p ∈ l /\ (p ∉ R) /\ x ∈ getSuccessors p F));
  dp_gone : forall x, x ∉ R -> x ∈ l -> bbs H !! x = None;
  dp_dead : forall j b, b ∈ l -> b ∉ R -> j ∈ getInstructions b F -> insts H !! j = None;
  dp_live : forall j, (forall b, b ∈ l -> b ∉ R -> j ∉ getInstructions b F) -> insts H !! j = insts F !! j;
}.

Lemma drop_one R b F : b ∉ R ->
  let G := erase_block b (leave R b (getSuccessors b F) F) in
  blocks G = erase_all b (blocks F)
  /\ bbs G !! b = None
  /\ (forall j, insts G !! j = if decide (j ∈ getInstructions b F) then None else insts F !! j)
  /\ forall x, x <> b -> (has_block x G <-> has_block x F) /\ getInstructions x G = getInstructions x F
     /\ getSuccessors x G = getSuccessors x F
     /\ forall p, p ∈ getPredecessors x G <->
          p ∈ getPredecessors x F /\ ~ (p = b /\ x ∈ R /\ x ∈ getSuccessors b F).
Proof.
  intros D. destruct (leave_spec R b (getSuccessors b F) F) as (L1 & L2 & L3).
  set (F1 := leave R b (getSuccessors b F) F) in *. clearbody F1.
  destruct (erase_block_spec b F1) as (E1 & E2 & E3). set (G := erase_block b F1) in *. clearbody G.
  destruct (L3 b) as (_ & Lb & _). split_and!.
  - by rewrite E1, L1.
  - by rewrite E2, decide_True.
  - intros j. by rewrite E3, Lb, L2.
  - intros x N. assert (Ex : bbs G !! x = bbs F1 !! x) by (by rewrite E2, decide_False).
    destruct (L3 x) as (H1 & H2 & H3 & H4).
    unfold has_block, getInstructions, getSuccessors, getPredecessors in *. rewrite Ex.
    split_and!; [done | done | done |]. intros p. rewrite H4. tauto.
Qed.

Lemma getSuccessors_gone b F : bbs F !! b = None -> getSuccessors b F = [].
Proof. unfold getSuccessors. by intros ->. Qed.
Lemma getInstructions_gone b F : bbs F !! b = None -> getInstructions b F = [].
Proof. unfold getInstructions. by intros ->. Qed.

Lemma drop_blocks_spec R l : forall ch F,
  dropped R l F (snd (fold_left (drop_block R) l (ch, F))).
Proof.
  induction l as [| b l IH]; intros ch F; cbn [fold_left].
  { split; cbn [snd].
    - symmetry. apply filter_full. intros x _. right. apply not_elem_of_nil.
    - intros x _. split_and!; [done | done | done |]. intros p. rewrite elem_of_nil. tauto.
    - intros x _ Hx. by apply not_elem_of_nil in Hx.
    - intros j b Hb. by apply not_elem_of_nil in Hb.
    - done. }
  unfold drop_block at 2. cbn [snd]. case_bool_decide as D.
  - destruct (IH ch F) as [I1 I2 I3 I4 I5]. split.
    + rewrite I1. apply list_filter_iff. intros x. rewrite elem_of_cons.
      destruct (decide (x = b)) as [-> |]; tauto.
    + intros x Hx. destruct (I2 x) as (H1 & H2 & H3 & H4).
      { rewrite elem_of_cons in Hx. tauto. }
      split_and!; [done | done | done |]. intros p. rewrite H4, elem_of_cons.
      destruct (decide (p = b)) as [-> |]; tauto.
    + intros x Nx Hx. apply I3; [done |]. apply elem_of_cons in Hx as [-> | ?]; done.
    + intros j c Hc Nc. apply I4; [| done]. apply elem_of_cons in Hc as [-> | ?]; done.
    + intros j Hj. apply I5. intros c Hc. apply Hj. by right.
  - destruct (drop_one R b F D) as (D1 & D2 & D3 & D4). fold (leave R b (getSuccessors b F) F).
    set (G := erase_block b (leave R b (getSuccessors b F) F)) in *. clearbody G.
    destruct (IH true G) as [I1 I2 I3 I4 I5]. set (H := snd (fold_left (drop_block R) l (true, G))) in *.
    clearbody H.
    assert (Gone : forall x, x = b -> bbs G !! x = None -> bbs H !! x = None).
    { intros x -> E. destruct (decide (b ∈ l)) as [Hl | Hl]; [by apply I3 |].
      destruct (I2 b (or_intror Hl)) as (HB & _). unfold has_block in HB. rewrite E in HB.
      destruct (bbs H !! b) as [B |]; [| done]. destruct (proj1 HB) as [? ?]; [by eexists | done]. }
    split.
    + rewrite I1, D1. unfold erase_all. rewrite list_filter_filter.
      apply list_filter_iff. intros x. rewrite elem_of_cons. destruct (decide (x = b)) as [-> |]; tauto.
    + intros x Hx. assert (Nx : x <> b) by (intros ->; rewrite elem_of_cons in Hx; tauto).
      destruct (D4 x Nx) as (H1 & H2 & H3 & H4).
      destruct (I2 x) as (G1 & G2 & G3 & G4); [rewrite elem_of_cons in Hx; tauto |].
      rewrite G1, G2, G3. split_and!; [done | done | done |]. intros p. rewrite G4, H4, elem_of_cons.
      destruct (decide (p = b)) as [-> | Np].
      * rewrite (getSuccessors_gone b G D2). rewrite elem_of_nil. tauto.
      * destruct (D4 p Np) as (_ & _ & -> & _). tauto.
    + intros x Nx Hx. destruct (decide (x = b)) as [-> | N]; [by apply Gone |].
      apply I3; [done |]. apply elem_of_cons in Hx as [? | ?]; done.
    + intros j c Hc Nc Hj. destruct (decide (c = b)) as [-> | N].
      * assert (Ej : insts G !! j = None) by (by rewrite D3, decide_True).
        destruct (decide (Exists (fun c => (c ∉ R) /\ j ∈ getInstructions c G) l)) as [Ex | Ex].
        -- apply Exists_exists in Ex as (c & Hc' & Nc' & Hj'). by apply (I4 j c).
        -- rewrite I5; [done |]. intros c Hc' Nc' Hj'. apply Ex, Exists_exists. by exists c.
      * apply (I4 j c); [by apply elem_of_cons in Hc as [? | ?] | done |].
        by destruct (D4 c N) as (_ & -> & _).
    + intros j Hj. rewrite I5, D3.
      * rewrite decide_False; [done |]. apply Hj; [left | done].
      * intros c Hc Nc. destruct (decide (c = b)) as [-> | N].
        -- rewrite (getInstructions_gone b G D2). apply not_elem_of_nil.
        -- destruct (D4 c N) as (_ & -> & _). apply Hj; [by right | done].
Qed.

(** ** Pruning phis *)

(** Updates of the instructions of a list of places, each at most once. *)
Lemma upd_places (f : ref -> MIRInst -> MIRInst) (ps : list (ref * ref)) : forall F,
  NoDup ps -> (forall b c i, (b, i) ∈ ps -> (c, i) ∈ ps -> b = c) ->
  let G := fold_left (fun F (q : ref * ref) => upd_inst (snd q) (f (fst q)) F) ps F in
  blocks G = blocks F /\ bbs G = bbs F
  /\ (forall b i, (b, i) ∈ ps -> insts G !! i = f b <$> insts F !! i)
  /\ (forall i, (forall b, (b, i) ∉ ps) -> insts G !! i = insts F !! i).
Proof.
  induction ps as [| [b0 i0] ps IH]; intros F N Un; cbn [fold_left fst snd].
  { split_and!; [done | done | | done]. intros b i Hp. by apply not_elem_of_nil in Hp. }
  apply NoDup_cons in N as [N0 N].
  destruct (IH (upd_inst i0 (f b0) F) N) as (I1 & I2 & I3 & I4).
  { intros b c i Hb Hc. apply (Un b c i); by right. }
  assert (Fresh : forall b, (b, i0) ∉ ps).
  { intros b Hb. rewrite (Un b b0 i0) in Hb; [done | by right | left]. }
  split_and!; [by rewrite I1 | by rewrite I2 | |].
  - intros b i Hp. apply elem_of_cons in Hp as [[= -> ->] | Hp].
    + rewrite I4 by done. by rewrite insts_upd_inst, decide_True.
    + rewrite (I3 b i Hp), insts_upd_inst, decide_False; [done |]. intros ->. by apply (Fresh b).
  - intros i Hi. rewrite I4; [| intros b Hb; apply (Hi b); by right].
    rewrite insts_upd_inst, decide_False; [done |]. intros ->. apply (Hi b0). left.
Qed.

Definition pruned F R b (J : MIRInst) : MIRInst :=
  with_kind (prune_kind (livePreds F R b) (i_kind J)) J.

Lemma prune_phis_places R ch F :
  snd (prune_phis R (ch, F)) =
    fold_left (fun G (q : ref * ref) => upd_inst (snd q) (pruned F R (fst q)) G) (placements R F) F.
Proof.
  unfold prune_phis, placements. cbn [snd].
  enough (H : forall l st, snd (fold_left (fun st b =>
      fold_left (prune_inst (livePreds F R b)) (getInstructions b F) st) l st) =
    fold_left (fun G (q : ref * ref) => upd_inst (snd q) (pruned F R (fst q)) G)
      (concat (map (fun b => map (fun i => (b, i)) (getInstructions b F)) l)) (snd st)) by apply (H R (ch, F)).
  induction l as [| b l IH]; intros st; cbn [fold_left map concat]; [done |].
  rewrite IH, fold_left_app. f_equal. generalize (getInstructions b F) as l0. intros l0. revert st.
  induction l0 as [| i l0 IHi]; intros st; cbn [fold_left map]; [done |]. rewrite IHi.
  by destruct st as [c G].
Qed.

(** ** The elimination of unreachable blocks *)

(** Reached from the entry along recorded edges. *)
Definition live_block F b : Prop := reached (live_succs F) [getEntryBlock F] b.

(** A use that counts: not a value that a phi would receive over a dead edge. *)
Definition used_in F b k v : Prop :=
  match k with
  | PhiInst inc => exists p, (v, p) ∈ inc /\ live_block F p /\ b ∈ getSuccessors p F
  | _ => v ∈ value_ops k
  end.

(** What reachable blocks use, reachable blocks define. *)
Definition uses_live F : Prop := forall b i k v,
  live_block F b -> i ∈ getInstructions b F -> kind_of i F = Some k -> used_in F b k v ->
  is_Some (insts F !! v) -> exists d, live_block F d /\ v ∈ getInstructions d F.

Lemma reachable_blocks_spec F :
  exists R, reachable_blocks F = Some R /\ NoDup R /\ forall x, x ∈ R <-> live_block F x.
Proof.
  apply (search_from_spec (live_succs F) [getEntryBlock F] (block_universe F)); [| lia].
  intros x [v Hv | u v _ Hv]; unfold block_universe.
  - apply list_elem_of_singleton in Hv as ->. left.
  - right. unfold live_succs in Hv. apply list_elem_of_filter in Hv as [_ Hv].
    apply list_elem_of_In, in_concat. exists (getSuccessors u F). split; [| by apply list_elem_of_In].
    apply (in_map (fun b => getSuccessors b F)). unfold getSuccessors in Hv.
    destruct (bbs F !! u) as [B |] eqn:EB; [| by apply not_elem_of_nil in Hv].
    apply (in_map fst (map_to_list (bbs F)) (u, B)). apply list_elem_of_In. by apply elem_of_map_to_list.
Qed.

Section Eliminate.
Context (ext other : ref -> Prop) (next : ref) (F : MIRFunction) (R : list ref).
Context (O : fn_ok ext next F) (NB : blocks F <> []).
Context (U : uses_live F) (Dr : labels_known other F) (Ho : forall v, other v -> ext v).
Context (ch0 ch1 : bool).
Context (NR : NoDup R) (HR : forall x, x ∈ R <-> live_block F x).

Lemma live_in_blocks b : live_block F b -> b ∈ blocks F.
Proof.
  induction 1 as [v Hv | u v _ IH Hv].
  - apply list_elem_of_singleton in Hv as ->. unfold getEntryBlock.
    destruct (blocks F) as [| e l]; [done | left].
  - unfold live_succs in Hv. apply list_elem_of_filter in Hv as [_ Hv].
    apply (wf_closed _ (ok_wf _ _ _ O) u); [done |]. by apply (co_succ _ (ok_edges _ _ _ O)).
Qed.

Lemma live_step b c : b ∈ R -> c ∈ term_targets b F -> c ∈ R.
Proof.
  intros Hb Hc. apply HR. apply HR in Hb as Lb. apply reached_next with b; [done |].
  unfold live_succs. apply list_elem_of_filter. split.
  - unfold term_targets, inst_targets in Hc. destruct (kind_of _ F); [| by apply not_elem_of_nil in Hc].
    by apply list_elem_of_filter in Hc as [? _].
  - apply (co_succ _ (ok_edges _ _ _ O)); [by apply live_in_blocks | done].
Qed.

Let P : MIRFunction := snd (prune_phis R (ch0, F)).
Let H : MIRFunction := snd (fold_left (drop_block R) (blocks F) (ch1, P)).

Lemma el_prune : blocks P = blocks F /\ bbs P = bbs F
  /\ (forall b i, b ∈ R -> i ∈ getInstructions b F -> insts P !! i = pruned F R b <$> insts F !! i)
  /\ (forall i, (forall b, b ∈ R -> i ∉ getInstructions b F) -> insts P !! i = insts F !! i).
Proof.
  unfold P. rewrite prune_phis_places.
  destruct (upd_places (pruned F R) (placements R F) F) as (P1 & P2 & P3 & P4).
  - apply NoDup_placements; [done |]. intros b Hb. by apply (ok_nodup _ _ _ O), live_in_blocks, HR.
  - intros b c i [Hb Hi]%elem_of_placements [Hc Hi']%elem_of_placements.
    apply (ok_apart _ _ _ O b c i); [by apply live_in_blocks, HR | by apply live_in_blocks, HR | done | done].
  - split_and!; [done | done | |].
    + intros b i Hb Hi. apply P3, elem_of_placements. done.
    + intros i Hi. apply P4. intros b [Hb Hb']%elem_of_placements. by apply (Hi b).
Qed.

Lemma el_dropped : dropped R (blocks F) P H.
Proof. unfold H. apply drop_blocks_spec. Qed.

Lemma el_getters x : getInstructions x P = getInstructions x F /\ getSuccessors x P = getSuccessors x F
  /\ getPredecessors x P = getPredecessors x F /\ (has_block x P <-> has_block x F).
Proof.
  destruct el_prune as (_ & P2 & _). unfold getInstructions, getSuccessors, getPredecessors, has_block.
  by rewrite P2.
Qed.

Lemma el_blocks : blocks H = filter (fun b => b ∈ R) (blocks F).
Proof.
  rewrite (dp_blocks _ _ _ _ el_dropped). destruct el_prune as (-> & _).
  apply filter_iff_in. intros x Hx. tauto.
Qed.

(** What is left of an instruction. *)
Lemma el_alive j : (forall b, b ∈ blocks F -> b ∉ R -> j ∉ getInstructions b F) -> insts H !! j = insts P !! j.
Proof.
  intros Hj. apply (dp_live _ _ _ _ el_dropped). intros b Hb Nb. destruct (el_getters b) as (-> & _).
  by apply Hj.
Qed.

Lemma el_kind b i : b ∈ R -> i ∈ getInstructions b F ->
  kind_of i H = prune_kind (livePreds F R b) <$> kind_of i F.
Proof.
  intros Hb Hi. unfold kind_of. rewrite el_alive.
  - destruct el_prune as (_ & _ & P3 & _). rewrite (P3 b i Hb Hi). by destruct (insts F !! i).
  - intros c Hc Nc Hi'. apply Nc. rewrite (ok_apart _ _ _ O c b i); [done | done | | done | done].
    by apply live_in_blocks, HR.
Qed.

Lemma el_insts j : is_Some (insts H !! j) -> is_Some (insts F !! j)
  /\ forall b, b ∈ blocks F -> b ∉ R -> j ∉ getInstructions b F.
Proof.
  intros S. assert (Nd : forall b, b ∈ blocks F -> b ∉ R -> j ∉ getInstructions b F).
  { intros b Hb Nb Hj. destruct S as [J EJ]. rewrite (dp_dead _ _ _ _ el_dropped j b) in EJ; [done | done | done |].
    by destruct (el_getters b) as (-> & _). }
  split; [| done]. rewrite el_alive in S by done. destruct el_prune as (_ & _ & P3 & P4).
  destruct (decide (Exists (fun b => j ∈ getInstructions b F) R)) as [Ex | Ex].
  - apply Exists_exists in Ex as (b & Hb & Hj). rewrite (P3 b j Hb Hj) in S. by apply fmap_is_Some in S.
  - rewrite P4 in S; [done |]. intros b Hb Hj. apply Ex, Exists_exists. by exists b.
Qed.

Lemma prune_thinner preds k : thinner (prune_kind preds k) k.
Proof.
  destruct k; try (by left). right. eexists _, _. split_and!; [done | done |].
  intros q Hq. by apply list_elem_of_filter in Hq as [_ ?].
Qed.

Lemma el_kind_any j k : kind_of j H = Some k -> exists k0, kind_of j F = Some k0 /\ thinner k k0.
Proof.
  intros K. destruct (decide (Exists (fun b => j ∈ getInstructions b F) R)) as [Ex | Ex].
  - apply Exists_exists in Ex as (b & Hb & Hj). rewrite (el_kind b j Hb Hj) in K.
    apply fmap_Some in K as (k0 & K0 & ->). exists k0. split; [done | apply prune_thinner].
  - assert (S : is_Some (insts H !! j)).
    { unfold kind_of in K. destruct (insts H !! j); [by eexists | done]. }
    apply el_insts in S as [_ Nd]. destruct el_prune as (_ & _ & _ & P4).
    exists k. split; [| by left]. unfold kind_of in *. rewrite el_alive, P4 in K; [done | | done].
    intros b Hb Hj. apply Ex, Exists_exists. by exists b.
Qed.

Lemma el_block b : b ∈ R -> (has_block b H <-> has_block b F) /\ getInstructions b H = getInstructions b F
  /\ getSuccessors b H = getSuccessors b F.
Proof.
  intros Hb. destruct (dp_kept _ _ _ _ el_dropped b (or_introl Hb)) as (H1 & H2 & H3 & _).
  destruct (el_getters b) as (G1 & G2 & _ & G4). by rewrite H1, H2, H3, G1, G2, G4.
Qed.

Lemma el_held b j : b ∈ R -> j ∈ getInstructions b F -> is_Some (insts H !! j).
Proof.
  intros Hb Hj. pose proof (el_kind b j Hb Hj) as K. unfold kind_of in K.
  assert (S : is_Some (insts F !! j)) by (apply (ok_held _ _ _ O b); [by apply live_in_blocks, HR | done]).
  destruct S as [J EJ]. rewrite EJ in K. destruct (insts H !! j); [by eexists | done].
Qed.

Lemma el_in_blocks b : b ∈ blocks H -> b ∈ R /\ b ∈ blocks F.
Proof. rewrite el_blocks. by intros [? ?]%list_elem_of_filter. Qed.

Lemma el_targets b : b ∈ R -> terminator b H = terminator b F /\ term_targets b H = term_targets b F.
Proof.
  intros Hb. destruct (el_block b Hb) as (_ & Ei & _).
  assert (Et : terminator b H = terminator b F) by (unfold terminator; by rewrite Ei).
  split; [done |]. unfold term_targets, inst_targets. rewrite Et.
  destruct (getInstructions b F) as [| j l] eqn:EI.
  - assert (Z : terminator b F = nullptr) by (unfold terminator; by rewrite EI). rewrite Z, (fn_ok_null _ _ _ O).
    destruct (kind_of nullptr H) as [k |] eqn:K; [| done]. apply el_kind_any in K as (k0 & K0 & _).
    by rewrite (fn_ok_null _ _ _ O) in K0.
  - rewrite (el_kind b) by (done || (apply terminator_in; by rewrite EI)).
    destruct (kind_of (terminator b F) F) as [k |]; [| done]. cbn [fmap option_fmap option_map].
    by destruct (thinner_ops _ _ (prune_thinner (livePreds F R b) k)) as (_ & _ & ->).
Qed.

Lemma el_values b j k v : b ∈ R -> j ∈ getInstructions b F -> kind_of j H = Some k ->
  v ∈ value_ops k -> is_Some (insts F !! v) -> is_Some (insts H !! v).
Proof.
  intros Hb Hj K Hv S. rewrite (el_kind b j Hb Hj) in K. apply fmap_Some in K as (k0 & K0 & ->).
  destruct (U b j k0 v (proj1 (HR b) Hb) Hj K0) as (d & Hd & Hvd); [| done | by apply (el_held d); [apply HR |]].
  destruct k0; cbn [used_in prune_kind] in *; try done. cbn [value_ops] in Hv.
  apply list_elem_of_fmap in Hv as ([w p] & -> & Hq). apply list_elem_of_filter in Hq as [Hp Hq].
  cbn [snd] in Hp. unfold livePreds in Hp. apply list_elem_of_filter in Hp as [Hp Hp'].
  exists p. split_and!; [done | by apply HR | done].
Qed.

Lemma el_fixed b j k v : b ∈ R -> j ∈ getInstructions b F -> kind_of j H = Some k ->
  v ∈ fixed_ops k -> v = nullptr \/ has_block v H \/ ext v.
Proof.
  intros Hb Hj K Hv. rewrite (el_kind b j Hb Hj) in K. apply fmap_Some in K as (k0 & K0 & ->).
  assert (Hb' : b ∈ blocks F) by (by apply live_in_blocks, HR).
  assert (Live : forall c, c ∈ R -> has_block c H).
  { intros c Hc. apply el_block; [done |]. by apply (wf_heap _ (ok_wf _ _ _ O)), live_in_blocks, HR. }
  destruct k0; cbn [prune_kind fixed_ops] in Hv; try (by apply not_elem_of_nil in Hv).
  - destruct (decide (v = nullptr)) as [-> | Nv]; [by left |]. right. left. apply Live.
    destruct (decide (j = terminator b F)) as [-> | Nt].
    + apply (live_step b); [done |]. rewrite (term_targets_kind _ _ _ K0). by apply list_elem_of_filter.
    + pose proof (ok_term _ _ _ O b j _ Hb' Hj Nt K0) as Z. done.
  - destruct (Dr b j _ v Hb' Hj K0 Hv) as [? | [? | [_ [=]]]]; auto.
  - apply list_elem_of_fmap in Hv as (q & -> & Hq). apply list_elem_of_filter in Hq as [Hp _].
    unfold livePreds in Hp. apply list_elem_of_filter in Hp as [_ Hp]. auto.
Qed.

Lemma el_restricts : restricts ext ext F H.
Proof.
  split.
  - intros b [Hb Hb']%el_in_blocks. split; [done |]. apply el_block; [done |]. by apply (wf_heap _ (ok_wf _ _ _ O)).
  - intros b Hb. destruct (decide (b ∈ R \/ b ∉ blocks F)) as [D | D].
    + destruct (dp_kept _ _ _ _ el_dropped b D) as (H1 & _). destruct (el_getters b) as (_ & _ & _ & G4).
      by apply G4, H1.
    + destruct Hb as [B EB]. rewrite (dp_gone _ _ _ _ el_dropped b) in EB; [done | tauto |].
      destruct (decide (b ∈ blocks F)); tauto.
  - intros j S. by apply el_insts.
  - intros b j [Hb _]%el_in_blocks Hj. destruct (el_block b Hb) as (_ & Ei & _). rewrite Ei in Hj.
    split; [done | by apply (el_held b)].
  - intros b [Hb Hb']%el_in_blocks. destruct (el_block b Hb) as (_ & -> & _). by apply (ok_nodup _ _ _ O).
  - apply el_kind_any.
  - intros b [Hb _]%el_in_blocks. by apply el_targets.
  - intros b [Hb _]%el_in_blocks _. by apply el_targets.
  - intros b c [Hb Hb']%el_in_blocks Hc. rewrite el_blocks. apply list_elem_of_filter.
    split; [by apply (live_step b) | by apply (wf_closed _ (ok_wf _ _ _ O) b)].
  - intros b c [Hb _]%el_in_blocks. by destruct (el_block b Hb) as (_ & _ & ->).
  - intros c p [Hc Hc']%el_in_blocks.
    destruct (dp_kept _ _ _ _ el_dropped c (or_introl Hc)) as (_ & _ & _ & ->).
    destruct (el_getters c) as (_ & _ & -> & _). destruct (el_getters p) as (_ & -> & _).
    rewrite el_blocks, list_elem_of_filter, (co_pred _ (ok_edges _ _ _ O) c p Hc').
    destruct (decide (p ∈ R)); tauto.
  - intros b j k v [Hb _]%el_in_blocks Hj K Hv. destruct (el_block b Hb) as (_ & Ei & _). rewrite Ei in Hj.
    split; [| done]. by apply (el_values b j k).
  - intros b j k v [Hb _]%el_in_blocks Hj K Hv. destruct (el_block b Hb) as (_ & Ei & _). rewrite Ei in Hj.
    by apply (el_fixed b j k).
  - done.
Qed.

Lemma el_effects : effects_kept F H.
Proof.
  intros b i k [Hb _]%el_in_blocks Hi K S. destruct (el_block b Hb) as (_ & -> & _). split; [done |].
  exists (prune_kind (livePreds F R b) k). rewrite (el_kind b i Hb Hi), K. split; [done |].
  by rewrite (kind_effect_thinner _ _ (prune_thinner (livePreds F R b) k)).
Qed.

End Eliminate.

(** The elimination on one function: it ends, and what is left is in order. *)
Lemma eliminate_blocks_ok ext other next F ch :
  fn_ok ext next F -> (forall v, other v -> ext v) -> uses_live F -> labels_known other F ->
  exists ch' H, eliminate_blocks (ch, F) = Some (ch', H)
    /\ fn_ok ext next H /\ labels_known other H
    /\ (forall j, is_Some (insts H !! j) -> is_Some (insts F !! j))
    /\ (forall b, b ∈ blocks H <-> b ∈ blocks F /\ live_block F b)
    /\ effects_kept F H.
Proof.
  intros O Ho U Dr. unfold eliminate_blocks, isDeclaration. case_bool_decide as D.
  { exists ch, F. split_and!; try done.
    - intros b. rewrite D. split; [intros Hb; by apply not_elem_of_nil in Hb | tauto].
    - intros b i k Hb. rewrite D in Hb. by apply not_elem_of_nil in Hb. }
  destruct (reachable_blocks_spec F) as (R & -> & NR & HR). cbn [mbind option_bind].
  destruct (prune_phis R (ch, F)) as [ch1 P] eqn:EP. assert (EP2 : P = snd (prune_phis R (ch, F))) by by rewrite EP.
  pose proof (el_restricts ext other next F R O D U Dr Ho ch ch1 NR HR) as Re.
  pose proof (el_blocks ext next F R O D ch ch1 NR HR) as Bl.
  pose proof (el_effects ext next F R O D ch ch1 NR HR) as Ef. rewrite <- EP2 in Re, Bl, Ef.
  destruct (fold_left (drop_block R) (blocks F) (ch1, P)) as [ch2 H]. cbn [snd] in Re, Bl, Ef.
  exists ch2, H. split_and!; [done | by apply (fn_ok_restrict ext ext next F H O) | | apply Re | | done].
  - by apply (restricts_labels ext ext other next F H).
  - intros b. rewrite Bl, list_elem_of_filter, HR. tauto.
Qed.
