(* ===== verification/DCESweep.v ===== *)
(** * Dead code elimination: mark and sweep

    What the search for needed values marks, and what the sweep of a function leaves. *)

From S2P Require Import Prelude Diag HIRType MIR Worklist MIRFacts SimplifyCFG SimplifyCFGProps MIRModule MIRUses ConstFold ConstFoldSafe DCE DCEProps.

Implicit Types (F G H : MIRFunction) (M : MIRModule) (b c p i j v x f g : ref) (k : InstKind) (l : list ref).

(** ** The sweep of a function *)

Section Sweep.
Context (alive : list ref).

Lemma sweep_block_spec b l : forall st,
  let F := snd st in
  let G := snd (fold_left (sweep_inst alive b) l st) in
  blocks G = blocks F
  /\ (forall x, (has_block x G <-> has_block x F) /\ getSuccessors x G = getSuccessors x F
        /\ getPredecessors x G = getPredecessors x F
        /\ getInstructions x G =
             if decide (x = b) then filter (fun j => j ∈ alive \/ j ∉ l) (getInstructions b F)
             else getInstructions x F)
  /\ forall j, insts G !! j = if decide (j ∈ l /\ j ∉ alive) then None else insts F !! j.
Proof.
  induction l as [| i l IH]; intros st; cbn [fold_left].
  - split_and!; [done | |].
    + intros x. split_and!; [done | done | done |]. case_decide as D; [subst x | done].
      symmetry. apply filter_full. intros j _. right. apply not_elem_of_nil.
    + intros j. rewrite decide_False; [done |]. intros [Hj _]. by apply not_elem_of_nil in Hj.
  - unfold sweep_inst at 2 4 6 8 10 12. case_bool_decide as A.
    + destruct (IH st) as (I1 & I2 & I3). split_and!; [done | |].
      * intros x. destruct (I2 x) as (H1 & H2 & H3 & H4). split_and!; [done | done | done |].
        rewrite H4. case_decide; [| done]. apply filter_iff_in. intros j _. rewrite elem_of_cons.
        destruct (decide (j = i)) as [-> |]; tauto.
      * intros j. rewrite I3. apply decide_ext. rewrite elem_of_cons.
        destruct (decide (j = i)) as [-> |]; tauto.
    + destruct (IH (true, erase_inst b i (snd st))) as (I1 & I2 & I3). cbn [snd] in I1, I2, I3.
      split_and!; [done | |].
      * intros x. destruct (I2 x) as (H1 & H2 & H3 & H4). rewrite H1, H2, H3, H4.
        unfold erase_inst. split_and!.
        -- apply (has_block_upd b _ (snd st)).
        -- change (getSuccessors x (free_inst i ?f)) with (getSuccessors x f). by rewrite getSuccessors_upd.
        -- change (getPredecessors x (free_inst i ?f)) with (getPredecessors x f). by rewrite getPredecessors_upd.
        -- assert (E : forall y, getInstructions y (free_inst i (upd_block b (fun B =>
             with_instructions (erase_all i (instructions B)) B) (snd st))) =
               if decide (y = b) then erase_all i (getInstructions b (snd st)) else getInstructions y (snd st)).
           { intros y. change (getInstructions y (free_inst i ?f)) with (getInstructions y f).
             rewrite getInstructions_upd. destruct (decide (y = b)) as [-> | D]; [| done].
             unfold getInstructions. by destruct (bbs (snd st) !! b). }
           rewrite !E, (decide_True _ _ (eq_refl b)). case_decide; [| done].
           unfold erase_all. rewrite list_filter_filter. apply filter_iff_in. intros j _.
           rewrite elem_of_cons. destruct (decide (j = i)) as [-> |]; tauto.
      * intros j. rewrite I3. unfold erase_inst, free_inst. cbn [insts set_insts upd_block set_bbs].
        destruct (decide (j = i)) as [-> | N].
        -- rewrite lookup_delete_eq, (decide_True _ (insts (snd st) !! i)); [by case_decide |]. split; [left | done].
        -- rewrite lookup_delete_ne by done. apply decide_ext. rewrite elem_of_cons. tauto.
Qed.

(** The function without the instructions of the blocks [bl] that are not alive. *)
Record swept_blocks (bl : list ref) F G : Prop := {
  sb_blocks : blocks G = blocks F;
  sb_block : forall x, (has_block x G <-> has_block x F) /\ getSuccessors x G = getSuccessors x F
    /\ getPredecessors x G = getPredecessors x F;
  sb_instructions : forall x, getInstructions x G =
    if decide (x ∈ bl) then filter (fun j => j ∈ alive) (getInstructions x F) else getInstructions x F;
  sb_dead : forall j b, b ∈ bl -> j ∈ getInstructions b F -> j ∉ alive -> insts G !! j = None;
  sb_live : forall j, (forall b, b ∈ bl -> j ∈ getInstructions b F -> j ∈ alive) -> insts G !! j = insts F !! j;
}.

Lemma sweep_blocks_spec bl : forall st,
  swept_blocks bl (snd st) (snd (fold_left (fun st b =>
    fold_left (sweep_inst alive b) (getInstructions b (snd st)) st) bl st)).
Proof.
  induction bl as [| b bl IH]; intros st; cbn [fold_left].
  - split; try done. intros j b Hb. by apply not_elem_of_nil in Hb.
  - set (F := snd st).
    destruct (sweep_block_spec b (getInstructions b F) st) as (S1 & S2 & S3). fold F in S1, S2, S3.
    set (st1 := fold_left (sweep_inst alive b) (getInstructions b F) st) in *.
    destruct (IH st1) as [I1 I2 I3 I4 I5]. set (G := snd (fold_left _ bl st1)) in *. clearbody G.
    assert (E1 : forall x, getInstructions x (snd st1) =
      if decide (x = b) then filter (fun j => j ∈ alive) (getInstructions x F) else getInstructions x F).
    { intros x. destruct (S2 x) as (_ & _ & _ & ->). case_decide as D; [subst x | done].
      apply filter_iff_in. intros j Hj. tauto. }
    split.
    + by rewrite I1.
    + intros x. destruct (I2 x) as (H1 & H2 & H3), (S2 x) as (H4 & H5 & H6 & _). by rewrite H1, H2, H3, H4, H5, H6.
    + intros x. rewrite I3, E1. destruct (decide (x = b)) as [-> | N].
      * rewrite (decide_True (P := b ∈ b :: bl)) by left. case_decide; [| done].
        rewrite list_filter_filter. apply filter_iff_in. intros j _. tauto.
      * apply decide_ext. rewrite elem_of_cons. tauto.
    + intros j c Hc Hj Na. destruct (decide (j ∈ getInstructions b F)) as [Hb | Hb].
      * assert (Z : insts (snd st1) !! j = None) by (by rewrite S3, decide_True).
        destruct (decide (Exists (fun d => j ∈ getInstructions d (snd st1) /\ ~ (j ∈ alive)) bl)) as [Ex | Ex].
        -- apply Exists_exists in Ex as (d & Hd & Hjd & _). by apply (I4 j d).
        -- rewrite I5; [done |]. intros d Hd Hjd. exfalso. apply Ex, Exists_exists. by exists d.
      * assert (Nc : c <> b) by (by intros ->).
        apply (I4 j c); [by apply elem_of_cons in Hc as [? | ?] | | done]. by rewrite E1, decide_False.
    + intros j Hj. rewrite I5, S3.
      * rewrite decide_False; [done |]. intros [Hb Na]. apply Na, (Hj b); [left | done].
      * intros d Hd Hjd. destruct (decide (d = b)) as [-> | N].
        -- apply (Hj b); [left |]. rewrite E1, decide_True in Hjd by done. by apply list_elem_of_filter in Hjd as [_ ?].
        -- apply (Hj d); [by right |]. by rewrite E1, decide_False in Hjd.
Qed.

Lemma sweep_function_spec st :
  swept_blocks (blocks (snd st)) (snd st) (snd (sweep_function alive st)).
Proof. apply sweep_blocks_spec. Qed.

End Sweep.

Lemma last_filter (P : ref -> Prop) `{forall j, Decision (P j)} l i :
  last l = Some i -> P i -> last (filter P l) = Some i.
Proof.
  intros E Pi. apply last_Some in E as [l' ->]. rewrite filter_app, (filter_cons_True _ i []) by done.
  by rewrite filter_nil, last_snoc.
Qed.

Section SweepOk.
Context (ext ext' : ref -> Prop) (next : ref) (F G : MIRFunction) (alive : list ref).
Context (O : fn_ok ext next F) (S : swept_blocks alive (blocks F) F G).
Context (Hx : forall v, ext' v -> ext v).
Context (At : forall b k, b ∈ blocks F -> kind_of (terminator b F) F = Some k -> targets k <> [] ->
  terminator b F ∈ alive).
Context (Au : forall b i k v, b ∈ blocks F -> i ∈ getInstructions b F -> i ∈ alive ->
  kind_of i F = Some k -> v ∈ value_ops k -> (is_Some (insts F !! v) -> v ∈ alive) /\ (ext v -> ext' v)).
Context (Lf : forall b i k v, b ∈ blocks F -> i ∈ getInstructions b F -> i ∈ alive ->
  kind_of i F = Some k -> v ∈ fixed_ops k -> ext v -> ext' v).

Lemma so_instructions b : b ∈ blocks F -> getInstructions b G = filter (fun j => j ∈ alive) (getInstructions b F).
Proof. intros Hb. by rewrite (sb_instructions _ _ _ _ S), decide_True. Qed.

Lemma so_in b j : b ∈ blocks F -> j ∈ getInstructions b G <-> j ∈ alive /\ j ∈ getInstructions b F.
Proof. intros Hb. rewrite (so_instructions b Hb), list_elem_of_filter. done. Qed.

Lemma so_live j : (forall b, b ∈ blocks F -> j ∈ getInstructions b F -> j ∈ alive) <-> insts G !! j = insts F !! j.
Proof.
  split; [apply (sb_live _ _ _ _ S) |]. intros E b Hb Hj.
  destruct (decide (j ∈ alive)) as [| N]; [done |]. exfalso.
  rewrite (sb_dead _ _ _ _ S j b Hb Hj N) in E. destruct (ok_held _ _ _ O b j Hb Hj) as [J EJ]. congruence.
Qed.

Lemma so_same j : is_Some (insts G !! j) -> insts G !! j = insts F !! j.
Proof.
  intros Q. apply (sb_live _ _ _ _ S). intros b Hb Hj.
  destruct (decide (j ∈ alive)) as [| N]; [done |]. exfalso.
  rewrite (sb_dead _ _ _ _ S j b Hb Hj N) in Q. by destruct Q.
Qed.

Lemma so_kind j k : kind_of j G = Some k -> kind_of j F = Some k.
Proof.
  unfold kind_of. intros K. rewrite <- so_same; [done |]. destruct (insts G !! j); [by eexists | done].
Qed.

Lemma so_alive j : j ∈ alive -> kind_of j G = kind_of j F.
Proof. intros Hj. unfold kind_of. by rewrite (sb_live _ _ _ _ S j). Qed.

Lemma so_null : kind_of nullptr G = None.
Proof.
  destruct (kind_of nullptr G) as [k |] eqn:K; [| done]. apply so_kind in K.
  by rewrite (fn_ok_null _ _ _ O) in K.
Qed.

Lemma so_targets b : b ∈ blocks F ->
  term_targets b G = term_targets b F
  /\ (terminator b F ∈ getInstructions b G -> terminator b G = terminator b F).
Proof.
  intros Hb. assert (Keep : terminator b F ∈ alive -> getInstructions b F <> [] -> terminator b G = terminator b F).
  { intros A N. unfold terminator at 1. rewrite (so_instructions b Hb).
    rewrite (last_filter _ _ (terminator b F)); [done | | done].
    unfold terminator. destruct (last (getInstructions b F)) eqn:E; [done |]. by apply last_None in E. }
  split.
  - destruct (decide (getInstructions b F = [])) as [E | N].
    { unfold term_targets, terminator. rewrite (so_instructions b Hb), E, filter_nil. unfold inst_targets. cbn [last from_option id].
      by rewrite so_null, (fn_ok_null _ _ _ O). }
    destruct (decide (terminator b F ∈ alive)) as [A | A].
    { unfold term_targets, inst_targets. by rewrite (Keep A N), (so_alive _ A). }
    assert (Zero : forall j k, j ∈ getInstructions b F -> kind_of j F = Some k -> targets k = []).
    { intros j k Hj K. destruct (decide (j = terminator b F)) as [-> | Nj].
      - destruct (decide (targets k = [])) as [| Nk]; [done |]. by destruct A; apply (At b k).
      - by apply (ok_term _ _ _ O b j k). }
    assert (Nil : forall i H, (forall k, kind_of i H = Some k -> targets k = []) -> inst_targets i H = []).
    { intros i H Hk. unfold inst_targets. destruct (kind_of i H) as [k |]; [| done]. by rewrite Hk. }
    unfold term_targets. rewrite !Nil; [done | |].
    + intros k. by apply Zero, terminator_in.
    + intros k K. destruct (decide (getInstructions b G = [])) as [EG | NG].
      * unfold terminator in K. rewrite EG in K. cbn [last from_option id] in K. by rewrite so_null in K.
      * apply (Zero (terminator b G)); [| by apply so_kind].
        apply terminator_in in NG. apply so_in in NG; [by apply NG | done].
  - intros Hi. apply so_in in Hi as [A Hi]; [| done]. apply Keep; [done |].
    intros E. rewrite E in Hi. by apply not_elem_of_nil in Hi.
Qed.

Lemma so_restricts : restricts ext ext' F G.
Proof.
  pose proof (sb_block _ _ _ _ S) as Bl. split; rewrite ?(sb_blocks _ _ _ _ S).
  - intros b Hb. split; [done |]. apply Bl. by apply (wf_heap _ (ok_wf _ _ _ O)).
  - intros b Hb. by apply Bl.
  - intros j Q. by rewrite <- so_same.
  - intros b j Hb Hj. apply so_in in Hj as [A Hj]; [| done]. split; [done |].
    rewrite (sb_live _ _ _ _ S) by done. by apply (ok_held _ _ _ O b).
  - intros b Hb. rewrite (so_instructions b Hb). by apply NoDup_filter, (ok_nodup _ _ _ O).
  - intros j k K. exists k. split; [by apply so_kind | by left].
  - intros b Hb. by apply so_targets.
  - intros b Hb. by apply so_targets.
  - intros b c Hb Hc. by apply (wf_closed _ (ok_wf _ _ _ O) b).
  - intros b c Hb. by destruct (Bl b) as (_ & -> & _).
  - intros c p Hc. destruct (Bl c) as (_ & _ & ->).
    rewrite (co_pred _ (ok_edges _ _ _ O) c p Hc). tauto.
  - intros b j k v Hb Hj K Hv. apply so_in in Hj as [A Hj]; [| done]. apply so_kind in K.
    destruct (Au b j k v Hb Hj A K Hv) as [A1 A2]. split; [| done].
    intros Q. rewrite (sb_live _ _ _ _ S); [done |]. intros. by apply A1.
  - intros b j k v Hb Hj K Hv. apply so_in in Hj as [A Hj]; [| done]. apply so_kind in K.
    destruct (ok_fixed _ _ _ O b j k v Hb Hj K Hv) as [? | [? | ?]]; [by left | right; left; by apply Bl |].
    right. right. by apply (Lf b j k v).
  - done.
Qed.

End SweepOk.

(** ** What the search marks *)

Lemma find_inst_fold M v (fs : list ref) : forall r,
  (r <> None -> fold_left (fun r f => match r with Some J => Some J | None => insts (body f M) !! v end) fs r = r)
  /\ (forall J, fold_left (fun r f => match r with Some J => Some J | None => insts (body f M) !! v end) fs None = Some J ->
      exists f, f ∈ fs /\ insts (body f M) !! v = Some J)
  /\ (forall f, f ∈ fs -> is_Some (insts (body f M) !! v) ->
      is_Some (fold_left (fun r f => match r with Some J => Some J | None => insts (body f M) !! v end) fs None)).
Proof.
  induction fs as [| f fs IH]; intros r; cbn [fold_left].
  - split_and!; [done | done |]. intros f Hf. by apply not_elem_of_nil in Hf.
  - split_and!.
    + intros N. destruct r as [J |]; [| done]. by apply (IH (Some J)).
    + intros J E. destruct (insts (body f M) !! v) as [J0 |] eqn:E0.
      * rewrite (proj1 (IH (Some J0))) in E by done. exists f. split; [left | by rewrite E0].
      * destruct (proj1 (proj2 (IH None)) J E) as (g & Hg & Eg). exists g. split; [by right | done].
    + intros g Hg S. destruct (insts (body f M) !! v) as [J0 |] eqn:E0.
      * by rewrite (proj1 (IH (Some J0))).
      * apply elem_of_cons in Hg as [-> | Hg]; [by rewrite E0 in S; destruct S |].
        by apply (proj2 (proj2 (IH None)) g).
Qed.

(** No two functions own an instruction at the same address. *)
Definition insts_apart M : Prop := forall f g v,
  f <> g -> is_Some (insts (body f M) !! v) -> insts (body g M) !! v = None.

Lemma find_inst_some M v J : find_inst M v = Some J ->
  exists f, f ∈ functions M /\ insts (body f M) !! v = Some J.
Proof. apply (find_inst_fold M v (functions M) None). Qed.

Lemma find_inst_in M f v J : insts_apart M -> f ∈ functions M -> insts (body f M) !! v = Some J ->
  find_inst M v = Some J.
Proof.
  intros A Hf E. destruct (proj2 (proj2 (find_inst_fold M v (functions M) None)) f Hf) as [J' E']; [by eexists |].
  fold (find_inst M v) in E'. rewrite E'. apply find_inst_some in E' as (g & _ & Eg).
  destruct (decide (f = g)) as [<- | N]; [congruence |]. rewrite (A f g v) in Eg; [done | done | by eexists].
Qed.

Lemma extractOperands_inst M f v J o : insts_apart M -> f ∈ functions M -> insts (body f M) !! v = Some J ->
  o ∈ extractOperands M v <-> o <> nullptr /\ o ∈ inst_operands (i_kind J).
Proof.
  intros A Hf E. unfold extractOperands. rewrite (find_inst_in M f v J) by done.
  by rewrite list_elem_of_filter.
Qed.

Lemma elem_of_concat_map {A} (h : A -> list ref) (l : list A) (a : A) v :
  a ∈ l -> v ∈ h a -> v ∈ concat (map h l).
Proof.
  intros Ha Hv. apply list_elem_of_In, in_concat. exists (h a). split; [| by apply list_elem_of_In].
  apply in_map. by apply list_elem_of_In.
Qed.

Lemma mark_universe_closed M funcs v :
  reached (extractOperands M) (roots M funcs) v -> v ∈ mark_universe M funcs.
Proof.
  unfold mark_universe. intros [u Hu | u w _ Hw]; rewrite !elem_of_app; [by left |].
  unfold extractOperands in Hw. apply list_elem_of_filter in Hw as [_ Hw].
  destruct (find_inst M u) as [J |] eqn:EF.
  - apply find_inst_some in EF as (f & Hf & EJ). right. left.
    apply (elem_of_concat_map _ _ f); [done |].
    apply (elem_of_concat_map _ _ (u, J)); [by apply elem_of_map_to_list | done].
  - right. right. destruct (globs M !! u) as [g |] eqn:EG.
    + left. apply list_elem_of_singleton in Hw as ->. apply list_elem_of_fmap.
      exists (u, g). split; [done | by apply elem_of_map_to_list].
    + right. unfold const_of in Hw. destruct (consts M !! u) as [c |] eqn:EC; [| by apply not_elem_of_nil in Hw].
      apply (elem_of_concat_map _ _ (u, c)); [by apply elem_of_map_to_list | done].
Qed.

(** The mark phase ends, on exactly the values that the roots need. *)
Lemma marked_spec M funcs :
  exists A, marked M funcs = Some A /\ forall v, v ∈ A <-> reached (extractOperands M) (roots M funcs) v.
Proof.
  destruct (search_from_spec (extractOperands M) (roots M funcs) (mark_universe M funcs)) with
    (fuel := S (length (mark_universe M funcs))) as (A & EA & _ & HA).
  - intros x. apply mark_universe_closed.
  - lia.
  - by exists A.
Qed.

(** ** Operands *)

(** Every operand that is a value is marked with its user; the others are targets. *)
Lemma value_ops_operands k v : v ∈ value_ops k -> v ∈ inst_operands k \/ v ∈ targets k.
Proof.
  destruct k; cbn [value_ops inst_operands targets]; rewrite ?elem_of_cons, ?elem_of_nil; tauto.
Qed.
