(* ===== verification/DCEModule.v ===== *)
(** * Dead code elimination: modules

    A run of the pass ends, keeps the invariant of the module, leaves exactly the blocks that
    were reachable and loses no instruction with an effect in them; the mark phase keeps
    exactly what the roots need. *)

From S2P Require Import Prelude Diag HIRType MIR Worklist MIRFacts SimplifyCFG SimplifyCFGProps MIRModule MIRUses ConstFold ConstFoldSafe ConstFoldModule DCE DCEProps DCESweep.

Implicit Types (F H : MIRFunction) (G : MIRGlobal) (M : MIRModule) (b c f g i j v x : ref) (k : InstKind).

Section Module_.
Context (other : ref -> Prop).

(** The containers of a module are complete, and no two functions share an instruction. *)
Record containers_ok M : Prop := {
  cn_cache : functionsDirty M = false -> functionCache M = functions M;
  cn_nodup : NoDup (functions M);
  cn_listed : forall f, is_Some (fns M !! f) <-> f ∈ functions M;
  cn_apart : insts_apart M;
  cn_null : globs M !! nullptr = None;
}.

Record dce_inv M : Prop := {
  di_module : module_ok other M;
  di_containers : containers_ok M;
  di_labels : forall f func, fns M !! f = Some func -> labels_known other (fn_body func);
}.

Lemma body_fn f M : dce_inv M -> fn_ok (outside other M) (m_next M) (body f M) /\ labels_known other (body f M).
Proof.
  intros [MO _ L]. split.
  - destruct (module_state other f M false MO) as [S _]. apply S.
  - unfold body. destruct (fns M !! f) as [func |] eqn:E; [by apply (L f) |].
    intros b i k v Hb. by apply not_elem_of_nil in Hb.
Qed.

Lemma body_set_body f g F M :
  is_Some (fns M !! f) -> body g (set_body f F M) = if decide (g = f) then F else body g M.
Proof.
  intros [func E]. unfold body, set_body, set_fns. cbn [fns m_next]. case_decide as D; [subst g |].
  - by rewrite lookup_alter_eq, E.
  - by rewrite lookup_alter_ne.
Qed.

(** Putting a smaller body back. *)
Lemma dce_inv_set_body f M0 M F :
  f ∈ functions M0 -> dce_inv M0 -> grows M0 M -> state_ok other f M F -> labels_known other F ->
  (forall j, is_Some (insts F !! j) -> is_Some (insts (body f M0) !! j)) ->
  functionsDirty M = functionsDirty M0 -> functionCache M = functionCache M0 ->
  dce_inv (set_body f F M).
Proof.
  intros Hf [MO [C1 C2 C3 C4 C5] L] Gr S LF Sub D1 D2. apply C3 in Hf.
  assert (Hf' : is_Some (fns M !! f)) by (by rewrite (gr_fns _ _ Gr)).
  assert (Sub' : forall g v, is_Some (insts (body g (set_body f F M)) !! v) -> is_Some (insts (body g M0) !! v)).
  { intros g v. rewrite body_set_body by done. case_decide as E; [subst g; apply Sub |].
    unfold body. rewrite (gr_fns _ _ Gr). by destruct (fns M0 !! g). }
  split.
  - by apply state_module.
  - split; cbn.
    + rewrite D1, D2, (gr_functions _ _ Gr). done.
    + by rewrite (gr_functions _ _ Gr).
    + intros g. rewrite (gr_functions _ _ Gr), <- C3, (gr_fns _ _ Gr).
      destruct (decide (g = f)) as [-> | N]; [by rewrite lookup_alter_eq, fmap_is_Some | by rewrite lookup_alter_ne].
    + intros g h v N S1. apply Sub' in S1. apply (C4 g h v N) in S1.
      destruct (insts (body h (set_body f F M)) !! v) eqn:E; [| done].
      destruct (Sub' h v) as [J EJ]; [by eexists |]. by rewrite S1 in EJ.
    + by rewrite (gr_globs _ _ Gr).
  - intros g func E. cbn in E. destruct (decide (g = f)) as [-> | N].
    + rewrite lookup_alter_eq in E. by apply fmap_Some in E as (func0 & _ & ->).
    + rewrite lookup_alter_ne in E by done. rewrite (gr_fns _ _ Gr) in E. by apply (L g).
Qed.

(** ** Step 1 *)

Lemma eliminate_step_ok M ch f :
  f ∈ functions M -> dce_inv M -> uses_live (body f M) ->
  exists ch' H, eliminate_step (ch, M) f = Some (ch', set_body f H M)
    /\ dce_inv (set_body f H M)
    /\ (forall b, b ∈ blocks H <-> b ∈ blocks (body f M) /\ live_block (body f M) b)
    /\ effects_kept (body f M) H.
Proof.
  intros Hf I U. destruct (body_fn f M I) as [O L].
  destruct (eliminate_blocks_ok (outside other M) other (m_next M) (body f M) ch) as
    (ch' & H & E & OH & LH & Sub & Bl & Ef); [done | by right; right | exact U | exact L |].
  exists ch', H. unfold eliminate_step. rewrite E. cbn [mbind option_bind].
  split; [done |]. split; [| split; [exact Bl | exact Ef]].
  apply (dce_inv_set_body f M M); [done | done | done | | exact LH | exact Sub | done | done].
  apply (state_ok_body other f M (body f M)); [done |].
  destruct (module_state other f M false (di_module _ I)) as [S _]. exact S.
Qed.

Lemma eliminate_loop l : forall M ch,
  NoDup l -> (forall f, f ∈ l -> f ∈ functions M) -> dce_inv M ->
  (forall f, f ∈ l -> uses_live (body f M)) ->
  exists ch' M', fold_some eliminate_step l (ch, M) = Some (ch', M') /\ dce_inv M'
    /\ functions M' = functions M
    /\ (forall f, f ∉ l -> body f M' = body f M)
    /\ (forall f, f ∈ l ->
         (forall b, b ∈ blocks (body f M') <-> b ∈ blocks (body f M) /\ live_block (body f M) b)
         /\ effects_kept (body f M) (body f M')).
Proof.
  induction l as [| f l IH]; intros M ch N Hl I U; cbn [fold_some].
  { exists ch, M. split_and!; try done. intros f Hf. by apply not_elem_of_nil in Hf. }
  apply NoDup_cons in N as [N1 N2].
  assert (Hf : f ∈ functions M) by (apply Hl; left).
  destruct (eliminate_step_ok M ch f Hf I) as (ch1 & H & -> & I1 & B1 & E1); [apply U; left |].
  cbn [mbind option_bind].
  assert (Bd : forall g, body g (set_body f H M) = if decide (g = f) then H else body g M).
  { intros g. apply body_set_body. by apply (cn_listed _ (di_containers _ I)). }
  destruct (IH (set_body f H M) ch1 N2) as (ch2 & M2 & -> & I2 & F2 & K2 & R2).
  - intros g Hg. apply Hl. by right.
  - done.
  - intros g Hg. rewrite Bd, decide_False by (by intros ->). apply U. by right.
  - exists ch2, M2. split_and!; [done | done | by rewrite F2 | |].
    + intros g Hg. apply not_elem_of_cons in Hg as [Ng Hg]. rewrite (K2 g Hg), Bd. by rewrite decide_False.
    + intros g Hg. apply elem_of_cons in Hg as [-> | Hg].
      * rewrite (K2 f N1), Bd, decide_True by done. done.
      * assert (Ng : g <> f) by (by intros ->). destruct (R2 g Hg) as [Q1 Q2].
        rewrite Bd, decide_False in Q1, Q2 by done. done.
Qed.

(** ** Step 1.5 *)

Record phi_inv f M0 F0 (st : bool * MIRModule * MIRFunction) : Prop := {
  pi_step : step_ok other f (blocks F0) st;
  pi_grows : grows M0 (snd (fst st));
  pi_flags : functionsDirty (snd (fst st)) = functionsDirty M0
    /\ functionCache (snd (fst st)) = functionCache M0;
  pi_labels : labels_known other (snd st);
  pi_sub : forall j, is_Some (insts (snd st) !! j) -> is_Some (insts F0 !! j);
  pi_effects : effects_kept F0 (snd st);
}.

Lemma labels_replace M F b i c :
  replacement (outside other M) F i c -> fn_ok (outside other M) (m_next M) F ->
  b ∈ blocks F -> i ∈ getInstructions b F ->
  labels_known other F -> labels_known other (replace_erase b i c F).
Proof.
  intros R O Hb Hi L x j k v. rewrite (re_blocks _ _ _ _ _ _ O Hb Hi R), (re_has _ _ _ _ _ _ O Hb Hi R). intros Hx Hj K Hv.
  apply (re_in _ _ _ _ _ _ O Hb Hi R x j Hx) in Hj as [Hj' Nj].
  rewrite (re_kind _ _ _ _ _ _ O Hb Hi R j Nj) in K by by exists x. apply fmap_Some in K as (k0 & K0 & ->).
  rewrite fixed_ops_replace in Hv. destruct (L x j k0 v Hx Hj' K0 Hv) as [? | [? | [? E]]]; auto.
  right. right. split; [done |]. by destruct k0.
Qed.

Lemma effects_replace M F b i c k0 :
  replacement (outside other M) F i c -> fn_ok (outside other M) (m_next M) F ->
  b ∈ blocks F -> i ∈ getInstructions b F -> kind_of i F = Some k0 -> kind_effect k0 = false ->
  effects_kept F (replace_erase b i c F).
Proof.
  intros R O Hb Hi K0 E0 x j k. rewrite (re_blocks _ _ _ _ _ _ O Hb Hi R). intros Hx Hj K S.
  assert (N : j <> i) by (intros ->; congruence). split.
  - by apply (re_in _ _ _ _ _ _ O Hb Hi R).
  - exists (replaceOperand false i c k). rewrite (re_kind _ _ _ _ _ _ O Hb Hi R j N) by (by exists x). rewrite K.
    split; [done |]. by rewrite kind_effect_replace.
Qed.

(** A trivial phi is replaced by a value that may take its place. *)
Lemma resolve_phi_ok f bl ch M F b i J c M' :
  step_ok other f bl (ch, M, F) -> b ∈ bl -> i ∈ getInstructions b F -> insts F !! i = Some J ->
  resolve_phi b i J M F = Some (c, M') ->
  (exists inc, i_kind J = PhiInst inc) /\ grows M M' /\ replacement (outside other M') F i c
  /\ functionsDirty M' = functionsDirty M /\ functionCache M' = functionCache M.
Proof.
  intros S Hb Hi EJ E. pose proof S as [So Bl]. cbn [fst snd] in So, Bl. subst bl.
  pose proof (so_body _ _ _ _ So) as O.
  assert (Undef : forall t, undef t M = (c, M') ->
    grows M M' /\ replacement (outside other M') F i c
    /\ functionsDirty M' = functionsDirty M /\ functionCache M' = functionCache M).
  { intros t Eu. unfold undef in Eu. pose proof (grows_constant ConstantUndef t M) as [Gr Hc].
    rewrite Eu in Gr, Hc. cbn [fst snd] in Gr, Hc. split_and!; [done | | |].
    - pose proof (state_ok_grows other f M M' F Gr So) as So'.
      apply (replacement_ext _ (m_next M') F b); [apply So' | done | done | by left].
    - by injection Eu as _ <-.
    - by injection Eu as _ <-. }
  unfold resolve_phi in E. destruct (i_kind J) as [] eqn:KJ; try done.
  split; [by eexists |].
  assert (K : kind_of i F = Some (PhiInst incoming)) by (unfold kind_of; by rewrite EJ, <- KJ).
  destruct incoming as [| [v p] [| q inc]]; [| | done].
  - apply (inj Some) in E. by apply (Undef (i_type J)).
  - destruct (length (getPredecessors b F) <=? 1); [| done].
    destruct (N.eqb_spec v i) as [-> | N]; [apply (inj Some) in E; by apply (Undef (i_type J)) |].
    injection E as <- <-. split_and!; [done | | done | done].
    assert (Hv : v ∈ value_ops (PhiInst [(v, p)])) by left. split.
    + by apply (ok_values _ _ _ O b i _ v Hb Hi K).
    + done.
    + intros HB. by apply (ok_labels _ _ _ O b i _ v Hb Hi K Hv) in HB; apply not_elem_of_nil in HB.
    + intros k Kv. by apply (ok_nonterm _ _ _ O b i _ v k Hb Hi K Hv).
Qed.

Lemma fold_phi_ok f M0 F0 b st i :
  phi_inv f M0 F0 st -> b ∈ blocks F0 -> i ∈ getInstructions b (snd st) ->
  phi_inv f M0 F0 (fold_phi b st i)
  /\ forall j, j ∈ getInstructions b (snd st) -> j <> i -> j ∈ getInstructions b (snd (fold_phi b st i)).
Proof.
  destruct st as [[ch M] F]. intros P Hb Hi. unfold fold_phi.
  destruct (insts F !! i) as [J |] eqn:EJ; [| done].
  destruct (resolve_phi b i J M F) as [[c M'] |] eqn:E; [| done].
  destruct P as [S Gr [D1 D2] L Sub Ef]. cbn [fst snd] in *.
  destruct (resolve_phi_ok f _ ch M F b i J c M' S Hb Hi EJ E) as ([inc KJ] & Gr' & R & D1' & D2').
  assert (K : kind_of i F = Some (PhiInst inc)) by (unfold kind_of; by rewrite EJ, <- KJ).
  assert (S' : step_ok other f (blocks F0) (ch, M', F)).
  { split; [| apply S]. cbn [fst snd]. apply (state_ok_grows other f M); [done | apply S]. }
  destruct (step_replace other f _ ch M' F b i c S' Hb Hi) as [S2 K2]; [by rewrite K; intros k [= <-] | done |].
  pose proof S' as [So Bl]. cbn [fst snd] in So, Bl. pose proof (so_body _ _ _ _ So) as O.
  assert (Hb' : b ∈ blocks F) by by rewrite Bl.
  split; [| intros j Hj N; by apply K2]. split; cbn [fst snd].
  - done.
  - by etransitivity.
  - by rewrite D1', D2'.
  - by apply (labels_replace M').
  - intros j Hj. apply (re_insts _ _ _ _ _ _ O Hb' Hi R) in Hj. by apply Sub.
  - apply (effects_kept_trans F0 F); [| done | by apply (effects_replace M' F b i c _ R O Hb' Hi K)].
    intros x. by rewrite (re_blocks _ _ _ _ _ _ O Hb' Hi R).
Qed.

Lemma phi_step_ok M ch f :
  f ∈ functions M -> dce_inv M ->
  exists ch' M', phi_step (ch, M) f = (ch', M') /\ dce_inv M' /\ functions M' = functions M
    /\ (forall g, g ∈ functions M -> g <> f -> body g M' = body g M)
    /\ blocks (body f M') = blocks (body f M) /\ effects_kept (body f M) (body f M').
Proof.
  intros Hf I. destruct (body_fn f M I) as [O L].
  assert (P : phi_inv f M (body f M) (each_inst fold_phi (ch, M, body f M))).
  { apply (each_inst_inv other (phi_inv f M (body f M)) f (blocks (body f M))).
    - by intros st [].
    - intros b st i P Hb Hi. by apply fold_phi_ok.
    - split; cbn [fst snd]; try done; [by apply module_state, I |].
      intros b i k Hb Hi K E. split; [done | by exists k]. }
  unfold phi_step. destruct (each_inst fold_phi (ch, M, body f M)) as [[ch1 M1] F1].
  destruct P as [[S B] Gr [D1 D2] LF Sub Ef]. cbn [fst snd] in *.
  assert (Hf' : is_Some (fns M1 !! f)).
  { rewrite (gr_fns _ _ Gr). by apply (cn_listed _ (di_containers _ I)). }
  exists ch1, (set_body f F1 M1). split_and!; [done | | | | |].
  - by apply (dce_inv_set_body f M M1).
  - by rewrite <- (gr_functions _ _ Gr).
  - intros g Hg N. rewrite body_set_body, decide_False by done.
    apply (cn_listed _ (di_containers _ I)) in Hg as [func E].
    unfold body. by rewrite (gr_fns _ _ Gr), E.
  - rewrite body_set_body, decide_True; done.
  - by rewrite body_set_body, decide_True.
Qed.

Lemma phi_loop l : forall M ch,
  NoDup l -> (forall f, f ∈ l -> f ∈ functions M) -> dce_inv M ->
  exists ch' M', fold_left phi_step l (ch, M) = (ch', M') /\ dce_inv M' /\ functions M' = functions M
    /\ forall f, f ∈ functions M ->
         blocks (body f M') = blocks (body f M) /\ effects_kept (body f M) (body f M').
Proof.
  induction l as [| f l IH]; intros M ch N Hl I; cbn [fold_left].
  { exists ch, M. split_and!; try done. intros f Hf. split; [done |].
    intros b i k Hb Hi K E. split; [done | by exists k]. }
  apply NoDup_cons in N as [N1 N2].
  assert (Hf : f ∈ functions M) by (apply Hl; left).
  destruct (phi_step_ok M ch f Hf I) as (ch1 & M1 & -> & I1 & F1 & K1 & B1 & E1).
  destruct (IH M1 ch1 N2) as (ch2 & M2 & -> & I2 & F2 & R2); [| done |].
  { intros g Hg. rewrite F1. apply Hl. by right. }
  exists ch2, M2. split_and!; [done | done | by rewrite F2 |]. intros g Hg.
  destruct (R2 g) as [Q1 Q2]; [by rewrite F1 |].
  destruct (decide (g = f)) as [-> | Ng].
  - split; [by rewrite Q1 |]. apply (effects_kept_trans _ (body f M1)); [by rewrite Q1 | done | done].
  - by rewrite (K1 g Hg Ng) in Q1, Q2.
Qed.

(** ** Step 2 *)

Section MarkAndSweep.
Context (M : MIRModule) (alive : list ref).
Context (I : dce_inv M).
Context (Al : forall v, v ∈ alive <-> reached (extractOperands M) (roots M (functions M)) v).

Lemma alive_operand f v J o :
  f ∈ functions M -> insts (body f M) !! v = Some J -> v ∈ alive -> o <> nullptr ->
  o ∈ inst_operands (i_kind J) -> o ∈ alive.
Proof.
  intros Hf E Hv No Ho. apply Al. apply Al in Hv. apply (reached_next _ _ v); [done |].
  by apply (extractOperands_inst M f v J o (cn_apart _ (di_containers _ I)) Hf E).
Qed.

Lemma alive_effect f b i k :
  f ∈ functions M -> b ∈ blocks (body f M) -> i ∈ getInstructions b (body f M) ->
  kind_of i (body f M) = Some k -> kind_effect k = true -> i ∈ alive.
Proof.
  intros Hf Hb Hi K E. apply Al, reached_root. unfold roots. apply elem_of_app. right.
  apply (elem_of_concat_map _ _ f); [done |]. unfold function_roots.
  apply (elem_of_concat_map _ _ b); [done |]. apply list_elem_of_filter. split; [| done].
  unfold kind_of in K. apply fmap_Some in K as (J & EJ & ->). rewrite EJ, hasSideEffects_kind, E.
  apply orb_true_r.
Qed.

(** What stays outside the functions once the other globals went. *)
Definition remains v : Prop :=
  is_Some (consts M !! v) \/ (is_Some (globs M !! v) /\ (v ∈ globals M -> v ∈ alive)) \/ other v.

Lemma sweep_restricts f F H :
  f ∈ functions M -> F = body f M -> swept_blocks alive (blocks F) F H ->
  restricts (outside other M) remains F H.
Proof.
  intros Hf -> S. destruct (body_fn f M I) as [O L].
  assert (Null : insts (body f M) !! nullptr = None) by apply (wf_null _ (ok_wf _ _ _ O)).
  assert (Op : forall b i k v, b ∈ blocks (body f M) -> i ∈ getInstructions b (body f M) ->
    i ∈ alive -> kind_of i (body f M) = Some k -> v ∈ value_ops k ->
    v <> nullptr -> v ∈ alive \/ has_block v (body f M)).
  { intros b i k v Hb Hi Ai K Hv Nv. destruct (value_ops_operands k v Hv) as [Ho | Ht].
    - left. pose proof K as K'. unfold kind_of in K'. apply fmap_Some in K' as (J & EJ & ->).
      by apply (alive_operand f i J v).
    - right. destruct (decide (i = terminator b (body f M))) as [-> | N].
      + apply (wf_heap _ (ok_wf _ _ _ O)), (wf_closed _ (ok_wf _ _ _ O) b); [done |].
        rewrite (term_targets_kind _ _ _ K). by apply list_elem_of_filter.
      + pose proof (ok_term _ _ _ O b i k Hb Hi N K) as Z. rewrite Z in Ht. by apply not_elem_of_nil in Ht. }
  apply (so_restricts (outside other M) remains (m_next M) (body f M) H alive); [done | done | | | |].
  - intros v [? | [[? _] | ?]]; unfold outside; auto.
  - intros b k Hb K Nt. apply (alive_effect f b _ k); [done | done | | done | by apply kind_effect_targets].
    apply terminator_in. intros E. unfold terminator in K. rewrite E in K. cbn [last from_option id] in K.
    unfold kind_of in K. by rewrite Null in K.
  - intros b i k v Hb Hi Ai K Hv. split.
    + intros Sv. destruct (Op b i k v Hb Hi Ai K Hv) as [? | HB]; [| done |].
      * intros ->. rewrite Null in Sv. by destruct Sv.
      * by apply (ok_disjoint _ _ _ O) in Sv as [? _].
    + intros Ex. destruct (decide (v = nullptr)) as [-> | Nv].
      * destruct Ex as [? | [Q | ?]]; [by left | | by right; right].
        rewrite (cn_null _ (di_containers _ I)) in Q. by destruct Q.
      * destruct (Op b i k v Hb Hi Ai K Hv Nv) as [? | HB].
        -- destruct Ex as [? | [? | ?]]; unfold remains; auto.
        -- by apply (ok_ext_block _ _ _ O v Ex) in HB.
  - intros b i k v Hb Hi Ai K Hv Ex. destruct (L b i k v Hb Hi K Hv) as [-> | [? | [HB _]]].
    + destruct Ex as [? | [Q | ?]]; [by left | | by right; right].
      rewrite (cn_null _ (di_containers _ I)) in Q. by destruct Q.
    + by right; right.
    + by apply (ok_ext_block _ _ _ O v Ex) in HB.
Qed.

Lemma sweep_effects f F H :
  f ∈ functions M -> F = body f M -> swept_blocks alive (blocks F) F H -> effects_kept F H.
Proof.
  intros Hf -> S b i k Hb Hi K E. rewrite (sb_blocks _ _ _ _ S) in Hb.
  assert (A : i ∈ alive) by by apply (alive_effect f b i k). split.
  - rewrite (sb_instructions _ _ _ _ S), decide_True by done. by apply list_elem_of_filter.
  - exists k. unfold kind_of in *. by rewrite (sb_live _ _ _ _ S i).
Qed.

End MarkAndSweep.

(** Only the bodies of functions differ. *)
Record same_outside M M' : Prop := {
  sm_next : m_next M' = m_next M;
  sm_consts : consts M' = consts M;
  sm_globs : globs M' = globs M;
  sm_globals : globals M' = globals M;
  sm_functions : functions M' = functions M;
  sm_dirty : functionsDirty M' = functionsDirty M;
  sm_cache : functionCache M' = functionCache M;
}.

Lemma sweep_functions_spec alive l : forall M ch,
  NoDup l -> (forall f, f ∈ l -> is_Some (fns M !! f)) ->
  let M' := snd (fold_left (on_body (sweep_function alive)) l (ch, M)) in
  same_outside M M' /\ (forall f, is_Some (fns M' !! f) <-> is_Some (fns M !! f))
  /\ (forall f, f ∉ l -> body f M' = body f M)
  /\ forall f, f ∈ l -> swept_blocks alive (blocks (body f M)) (body f M) (body f M').
Proof.
  induction l as [| f l IH]; intros M ch N Hl; cbn [fold_left].
  { split_and!; try done. intros f Hf. by apply not_elem_of_nil in Hf. }
  apply NoDup_cons in N as [N1 N2]. assert (Hf : is_Some (fns M !! f)) by (apply Hl; left).
  unfold on_body at 2 4 6 8. pose proof (sweep_function_spec alive (ch, body f M)) as Sf.
  destruct (sweep_function alive (ch, body f M)) as [ch1 F1]. cbn [snd] in Sf.
  assert (Bd : forall g, body g (set_body f F1 M) = if decide (g = f) then F1 else body g M).
  { intros g. by apply body_set_body. }
  assert (Fs : forall g, is_Some (fns (set_body f F1 M) !! g) <-> is_Some (fns M !! g)).
  { intros g. unfold set_body, set_fns. cbn [fns]. destruct (decide (g = f)) as [-> | N].
    - by rewrite lookup_alter_eq, fmap_is_Some.
    - by rewrite lookup_alter_ne. }
  destruct (IH (set_body f F1 M) ch1 N2) as ([S1 S2 S3 S4 S5 S6 S7] & I2 & I3 & I4).
  { intros g Hg. apply Fs, Hl. by right. }
  split_and!; [by split | | |].
  - intros g. rewrite I2. apply Fs.
  - intros g Hg. apply not_elem_of_cons in Hg as [Ng Hg]. by rewrite (I3 g Hg), Bd, decide_False.
  - intros g Hg. apply elem_of_cons in Hg as [-> | Hg].
    + by rewrite (I3 f N1), Bd, decide_True.
    + assert (Ng : g <> f) by (by intros ->). specialize (I4 g Hg). by rewrite Bd, decide_False in I4.
Qed.

Lemma sweep_globals_spec alive l : forall M ch,
  let M' := snd (fold_left (sweep_global alive) l (ch, M)) in
  m_next M' = m_next M /\ consts M' = consts M /\ fns M' = fns M /\ functions M' = functions M
  /\ functionsDirty M' = functionsDirty M /\ functionCache M' = functionCache M
  /\ globals M' = filter (fun g => g ∈ alive \/ g ∉ l) (globals M)
  /\ forall g, globs M' !! g = if decide (g ∈ l /\ ~ (g ∈ alive)) then None else globs M !! g.
Proof.
  induction l as [| h l IH]; intros M ch; cbn [fold_left].
  { split_and!; try done. symmetry. apply filter_full. intros g _. right. apply not_elem_of_nil. }
  unfold sweep_global at 2 4 6 8 10 12 14 16. cbn [snd]. case_bool_decide as A.
  - destruct (IH M ch) as (H1 & H2 & H3 & H4 & H5 & H6 & H7 & H8). split_and!; try done.
    + rewrite H7. apply filter_iff_in. intros g _. rewrite elem_of_cons. destruct (decide (g = h)) as [-> |]; tauto.
    + intros g. rewrite H8. apply decide_ext. rewrite elem_of_cons. destruct (decide (g = h)) as [-> |]; tauto.
  - destruct (IH (erase_global h M) true) as (H1 & H2 & H3 & H4 & H5 & H6 & H7 & H8). split_and!; try done.
    + rewrite H7. cbn. rewrite list_filter_filter. apply filter_iff_in. intros g _. rewrite elem_of_cons.
      destruct (decide (g = h)) as [-> |]; tauto.
    + intros g. rewrite H8. cbn. destruct (decide (g = h)) as [-> | N].
      * rewrite lookup_delete_eq, (decide_True (P := h ∈ h :: l /\ _)) by (split; [left | done]). by case_decide.
      * rewrite lookup_delete_ne by done. apply decide_ext. rewrite elem_of_cons. tauto.
Qed.

Lemma fn_ok_iff (ext ext' : ref -> Prop) next F :
  (forall v, ext v <-> ext' v) -> fn_ok ext next F -> fn_ok ext' next F.
Proof.
  intros E O. apply (fn_ok_extend ext ext' next next); [done | | | lia].
  - intros v. by apply E.
  - intros v Hv. apply E in Hv. split; [by left | by apply (ok_ext_fresh _ _ _ O)].
Qed.

(** The state after the mark and sweep: what is marked stays, with its code. *)
Record swept_module alive M M' : Prop := {
  sv_inv : dce_inv M';
  sv_functions : functions M' = functions M;
  sv_body : forall f, f ∈ functions M -> swept_blocks alive (blocks (body f M)) (body f M) (body f M');
  sv_effects : forall f, f ∈ functions M -> effects_kept (body f M) (body f M');
  sv_globals : globals M' = filter (fun g => g ∈ alive) (globals M);
  sv_globs : forall g, globs M' !! g = if decide (g ∈ globals M /\ ~ (g ∈ alive)) then None else globs M !! g;
}.

Lemma mark_and_sweep_clean M ch :
  dce_inv M -> functionsDirty M = false ->
  exists (alive : list ref) ch' M', mark_and_sweep (ch, M) = Some (ch', M')
    /\ (forall v, v ∈ alive <-> reached (extractOperands M) (roots M (functions M)) v)
    /\ swept_module alive M M'.
Proof.
  intros I D. pose proof I as [MO [C1 C2 C3 C4 C5] L]. unfold mark_and_sweep, getFunctions.
  rewrite D, (C1 D). destruct (marked_spec M (functions M)) as (alive & -> & Al). cbn [mbind option_bind].
  destruct (sweep_functions_spec alive (functions M) M ch) as (S & Fs & _ & Sw); [done | by intros f; apply C3 |].
  destruct (fold_left (on_body (sweep_function alive)) (functions M) (ch, M)) as [ch2 M2].
  cbn [snd] in S, Fs, Sw |- *. destruct S as [S1 S2 S3 S4 S5 S6 S7].
  destruct (sweep_globals_spec alive (globals M2) M2 ch2) as (H1 & H2 & H3 & H4 & H5 & H6 & H7 & H8).
  destruct (fold_left (sweep_global alive) (globals M2) (ch2, M2)) as [ch3 M3].
  cbn [snd] in H1, H2, H3, H4, H5, H6, H7, H8. rewrite S4 in H7, H8. rewrite S3 in H8.
  exists alive, ch3, M3. split_and!; [done | done |].
  assert (Out : forall v, remains M alive v <-> outside other M3 v).
  { intros v. unfold remains, outside. rewrite H2, S2, H8.
    destruct (decide (v ∈ alive)) as [A | A]; case_decide as E; try tauto.
    split; [intros [? | [[_ Q] | ?]]; tauto | intros [? | [[? [=]] | ?]]; tauto]. }
  assert (Bd : forall f, f ∈ functions M -> body f M3 = body f M2).
  { intros f Hf. apply C3, Fs in Hf as [func E]. unfold body. by rewrite H3, E. }
  assert (Re : forall f, f ∈ functions M -> restricts (outside other M) (remains M alive) (body f M) (body f M3)).
  { intros f Hf. rewrite Bd by done. by apply (sweep_restricts M alive I Al f); [| | apply Sw]. }
  assert (In3 : forall f func, fns M3 !! f = Some func -> f ∈ functions M /\ body f M3 = fn_body func).
  { intros f func E. split; [| by unfold body; rewrite E]. apply C3, Fs. rewrite <- H3, E. by eexists. }
  split.
  - split.
    + split.
      * intros f func E. destruct (In3 f func E) as [Hf <-]. rewrite H1, S1.
        apply (fn_ok_iff (remains M alive)); [done |].
        apply (fn_ok_restrict (outside other M) (remains M alive) (m_next M) (body f M)); [by apply body_fn | by apply Re].
      * intros v Hv. rewrite H1, S1. apply (mo_outside _ _ MO). apply Out in Hv.
        destruct Hv as [? | [[? _] | ?]]; unfold outside; auto.
      * intros g G E N. rewrite H8 in E. case_decide; [done |]. rewrite H2, S2. by apply (mo_init _ _ MO g G).
    + split.
      * rewrite H5, S6, D. rewrite H6, S7, H4, S5. intros _. by apply C1.
      * by rewrite H4, S5.
      * intros f. by rewrite H3, Fs, H4, S5.
      * intros f g v N Sv. destruct (fns M3 !! f) as [func |] eqn:Ef;
          [| unfold body in Sv; rewrite Ef in Sv; by destruct Sv].
        destruct (In3 f func Ef) as [Hf _]. apply (rs_insts _ _ _ _ (Re f Hf)) in Sv.
        pose proof (C4 f g v N Sv) as Z. destruct (fns M3 !! g) as [gunc |] eqn:Eg; [| unfold body; by rewrite Eg].
        destruct (In3 g gunc Eg) as [Hg _]. destruct (insts (body g M3) !! v) eqn:Ev; [| done].
        destruct (rs_insts _ _ _ _ (Re g Hg) v) as [J EJ]; [by eexists | congruence].
      * rewrite H8, C5. by case_decide.
    + intros f func E. destruct (In3 f func E) as [Hf <-].
      apply (restricts_labels (outside other M) (remains M alive) other (m_next M) (body f M)); [by apply body_fn | by apply Re | by apply body_fn].
  - by rewrite H4, S5.
  - intros f Hf. rewrite Bd by done. by apply Sw.
  - intros f Hf. rewrite Bd by done. by apply (sweep_effects M alive Al f); [| | apply Sw].
  - rewrite H7. apply filter_iff_in. intros g Hg. tauto.
  - done.
Qed.

Lemma getFunctions_inv M : dce_inv M ->
  dce_inv (snd (getFunctions M)) /\ functionsDirty (snd (getFunctions M)) = false
  /\ fst (getFunctions M) = functions M /\ functions (snd (getFunctions M)) = functions M
  /\ (forall f, body f (snd (getFunctions M)) = body f M)
  /\ globals (snd (getFunctions M)) = globals M.
Proof.
  intros I. pose proof I as [[M1 M2 M3] [C1 C2 C3 C4 C5] L].
  unfold getFunctions. destruct (functionsDirty M) eqn:D.
  - split; [split; [by split | by split | done] | by split_and!].
  - cbn [fst snd]. split; [done |]. specialize (C1 eq_refl). by split_and!.
Qed.

(** C13: dead code elimination ends and is safe.  On a module in order, whose reachable
    blocks use only instructions of reachable blocks, the pass returns a module in order:
    the blocks that are left in a function are exactly those that the entry reached, their
    edges are consistent and no operand refers to an instruction or global that is gone; and
    every instruction with an effect in those blocks is still there. *)
Theorem dce_safe M :
  dce_inv M -> (forall f, f ∈ functions M -> uses_live (body f M)) ->
  exists changed M', runOnModule M = Some (changed, M') /\ dce_inv M'
    /\ functions M' = functions M
    /\ forall f, f ∈ functions M ->
         (forall b, b ∈ blocks (body f M') <-> b ∈ blocks (body f M) /\ live_block (body f M) b)
         /\ effects_kept (body f M) (body f M').
Proof.
  intros I U. destruct (getFunctions_inv M I) as (I0 & D0 & E0 & F0 & B0 & _).
  unfold runOnModule, eliminate. destruct (getFunctions M) as [funcs M0]. cbn [fst snd] in *. subst funcs.
  destruct (eliminate_loop (functions M) M0 false) as (ch1 & M1 & -> & I1 & F1 & _ & R1).
  { by apply (cn_nodup _ (di_containers _ I)). }
  { by rewrite F0. }
  { done. }
  { intros f Hf. rewrite B0. by apply U. }
  cbn [mbind option_bind].
  destruct (phi_loop (functions M) M1 ch1) as (ch2 & M2 & -> & I2 & F2 & R2).
  { by apply (cn_nodup _ (di_containers _ I)). }
  { by rewrite F1, F0. }
  { done. }
  destruct (getFunctions_inv M2 I2) as (I3 & D3 & E3 & F3 & B3 & _).
  assert (D2 : mark_and_sweep (ch2, M2) = mark_and_sweep (ch2, snd (getFunctions M2))).
  { unfold mark_and_sweep. destruct (getFunctions M2) as [fs M3] eqn:EM. cbn [fst snd] in *.
    unfold getFunctions at 1. rewrite D3.
    by rewrite (cn_cache _ (di_containers _ I3) D3), E3, F3. }
  rewrite D2. set (M3 := snd (getFunctions M2)) in *. clearbody M3.
  destruct (mark_and_sweep_clean M3 ch2 I3 D3) as (alive & ch4 & M4 & -> & _ & [I4 F4 Sw Ef _ _]).
  exists ch4, M4. split_and!; [done | done | congruence |]. intros f Hf.
  assert (Hf2 : f ∈ functions M1) by (by rewrite F1, F0).
  assert (Hf3 : f ∈ functions M3) by (by rewrite F3, F2).
  destruct (R1 f Hf) as [Q1 Q2], (R2 f Hf2) as [Q3 Q4]. rewrite B0 in Q1, Q2.
  pose proof (sb_blocks _ _ _ _ (Sw f Hf3)) as Q5. rewrite B3 in Q5. pose proof (Ef f Hf3) as Q6. rewrite B3 in Q6.
  split; [intros b; by rewrite Q5, Q3 |].
  apply (effects_kept_trans _ (body f M2)); [by intros b; rewrite Q5 | | done].
  apply (effects_kept_trans _ (body f M1)); [by intros b; rewrite Q3 | done | done].
Qed.

(** C35: the mark phase ends on exactly what is needed, and the sweep keeps exactly that.
    An instruction of a block stays, as it is and in its place, if and only if the operands
    of instructions with effects and of exported globals lead to it, and so does a global;
    blocks and edges are not touched. *)
Theorem mark_and_sweep_exact M changed :
  dce_inv M -> functionsDirty M = false ->
  exists (alive : list ref) changed' M', mark_and_sweep (changed, M) = Some (changed', M')
    /\ (forall v, v ∈ alive <-> reached (extractOperands M) (roots M (functions M)) v)
    /\ globals M' = filter (fun g => g ∈ alive) (globals M)
    /\ forall f b, f ∈ functions M -> b ∈ blocks (body f M) ->
         blocks (body f M') = blocks (body f M)
         /\ getInstructions b (body f M') = filter (fun i => i ∈ alive) (getInstructions b (body f M))
         /\ getSuccessors b (body f M') = getSuccessors b (body f M)
         /\ getPredecessors b (body f M') = getPredecessors b (body f M)
         /\ forall i, i ∈ getInstructions b (body f M') -> insts (body f M') !! i = insts (body f M) !! i.
Proof.
  intros I D. destruct (mark_and_sweep_clean M changed I D) as (alive & ch & M' & E & Al & [_ _ Sw _ Gl _]).
  exists alive, ch, M'. split_and!; [done | done | done |]. intros f b Hf Hb.
  destruct (Sw f Hf) as [S1 S2 S3 S4 S5]. destruct (S2 b) as (_ & Es & Ep).
  rewrite S3, decide_True by done. split_and!; [done | done | done | done |].
  intros i Hi. apply list_elem_of_filter in Hi as [A Hi]. apply S5. done.
Qed.

End Module_.

(** ** Deciding the hypotheses on a concrete module *)

Definition labels_known_b (other : list ref) F : bool :=
  placed_b F (fun b i k => forallb (fun v =>
    N.eqb v nullptr || bool_decide (v ∈ other)
    || (bool_decide (is_Some (bbs F !! v)) && negb (is_arc k))) (fixed_ops k)).

Lemma labels_known_b_spec (other : ref -> Prop) (l : list ref) F :
  (forall v, other v <-> v ∈ l) -> labels_known_b l F = true -> labels_known other F.
Proof.
  intros E H b i k v Hb Hi K Hv. pose proof (placed_b_spec _ _ H b i k Hb Hi K) as Q.
  apply (forallb_elem _ _ Q) in Hv.
  rewrite !orb_true_iff, andb_true_iff, negb_true_iff, !bool_decide_eq_true, N.eqb_eq in Hv.
  unfold has_block. rewrite E. tauto.
Qed.

Definition uses_live_b F (R : list ref) : bool :=
  placed_b F (fun b i k => negb (bool_decide (b ∈ R)) || forallb (fun v =>
    negb (bool_decide (is_Some (insts F !! v)))
    || existsb (fun d => bool_decide (v ∈ getInstructions d F)) R)
    (value_ops (prune_kind (livePreds F R b) k))).

Lemma uses_live_b_spec next (ext : ref -> Prop) F R :
  fn_ok ext next F -> blocks F <> [] -> reachable_blocks F = Some R -> uses_live_b F R = true -> uses_live F.
Proof.
  intros O NB ER H b i k v Lb Hi K Hv S.
  destruct (reachable_blocks_spec F) as (R' & ER' & NR & HR). rewrite ER in ER'. apply (inj Some) in ER'. subst R'.
  assert (Hb : b ∈ blocks F) by by apply (live_in_blocks ext next F O NB).
  pose proof (placed_b_spec _ _ H b i k Hb Hi K) as Q. apply HR in Lb.
  rewrite orb_true_iff, negb_true_iff, bool_decide_eq_false in Q. destruct Q as [Q | Q]; [done |].
  assert (Hv' : v ∈ value_ops (prune_kind (livePreds F R b) k)).
  { destruct k; try exact Hv. destruct Hv as (p & Hp & Lp & Sp). cbn [prune_kind value_ops].
    apply list_elem_of_fmap. exists (v, p). split; [done |]. apply list_elem_of_filter. split; [| done].
    cbn [snd]. unfold livePreds. apply list_elem_of_filter. split; [done | by apply HR]. }
  apply (forallb_elem _ _ Q) in Hv'.
  rewrite orb_true_iff, negb_true_iff, bool_decide_eq_false in Hv'. destruct Hv' as [? | Hv']; [done |].
  apply existsb_exists in Hv' as (d & Hd & Hv'). exists d. split; [by apply HR, list_elem_of_In |].
  by apply bool_decide_eq_true in Hv'.
Qed.

(** A function with a block that nothing reaches, a phi that it feeds, and a sum that nobody
    uses; a private global that nobody uses and one that is exported. *)
Definition wasteful : MIRModule :=
  module_of
    {| insts := list_to_map [(11%N, typed 0 (BranchInst 2));
                             (12%N, typed 2 (PhiInst [(50%N, 1%N); (15%N, 3%N)]));
                             (13%N, typed 2 (BinaryInst Opcode.Add 12 51));
                             (14%N, typed 0 (ReturnInst 12));
                             (15%N, typed 2 (BinaryInst Opcode.Add 50 51));
                             (16%N, typed 0 (BranchInst 2))];
       bbs := list_to_map [(1%N, block_of [11%N]); (2%N, block_of [12%N; 13%N; 14%N]);
                           (3%N, block_of [15%N; 16%N])];
       blocks := [1%N; 2%N; 3%N]; next_ref := 300%N |}
    [(60%N, newGlobal "a" 2 50 false Linkage.Internal); (61%N, newGlobal "b" 2 51 false Linkage.External)]
    [(50%N, const_int 7 2); (51%N, const_int 8 2)].

Lemma module_of_fns F gs cs f : is_Some (fns (module_of F gs cs) !! f) <-> f = 200%N.
Proof.
  unfold module_of. cbn [fns set_consts].
  assert (E : forall gs M, fns (fold_left (fun M '(g, G) => addGlobal g G M) gs M) = fns M).
  { induction gs0 as [| [g G] gs0 IH]; intros M; [done |]. cbn [fold_left]. by rewrite IH. }
  rewrite E. cbn. destruct (decide (f = 200%N)) as [-> | N].
  - rewrite lookup_insert_eq. split; [done | by eexists].
  - rewrite lookup_insert_ne, lookup_empty by done. split; [by intros [] | done].
Qed.

Lemma wasteful_ok : dce_inv (fun _ => False) wasteful.
Proof.
  assert (Out : forall v, outside (fun _ => False) wasteful v <-> v ∈ [50%N; 51%N; 60%N; 61%N]).
  { intros v. unfold outside.
    change (globs wasteful) with (list_to_map [(61%N, newGlobal "b" 2 51 false Linkage.External);
      (60%N, newGlobal "a" 2 50 false Linkage.Internal)] : gmap ref MIRGlobal).
    unfold wasteful at 1, module_of, set_consts. cbn [consts].
    rewrite !is_Some_list_to_map. cbn [fmap list_fmap fst]. rewrite !elem_of_cons, elem_of_nil. tauto. }
  assert (Fn : forall f func, fns wasteful !! f = Some func -> f = 200%N /\ func = {| fn_name := "f"; fn_body := body 200 wasteful |}).
  { intros f func E. assert (S : is_Some (fns wasteful !! f)) by (rewrite E; by eexists).
    unfold wasteful in S. apply module_of_fns in S as ->. split; [done |]. apply (inj Some). rewrite <- E. by vm_compute. }
  split.
  - split.
    + intros f func E. apply Fn in E as [-> ->]. apply (fn_ok_b_spec _ [50%N; 51%N; 60%N; 61%N] _ _ Out). by vm_compute.
    + intros v Hv. apply Out in Hv. change (m_next wasteful) with 300%N. rewrite !elem_of_cons, elem_of_nil in Hv. lia.
    + intros g G E _.
      change (globs wasteful) with (list_to_map [(61%N, newGlobal "b" 2 51 false Linkage.External);
        (60%N, newGlobal "a" 2 50 false Linkage.Internal)] : gmap ref MIRGlobal) in E.
      apply elem_of_list_to_map_2 in E. rewrite !elem_of_cons, elem_of_nil in E.
      destruct E as [[= -> ->] | [[= -> ->] | []]]; by eexists.
  - split.
    + done.
    + change (functions wasteful) with [200%N]. apply NoDup_singleton.
    + intros f. change (functions wasteful) with [200%N]. rewrite list_elem_of_singleton. unfold wasteful. apply module_of_fns.
    + intros f g v N S. unfold body in *. destruct (fns wasteful !! f) as [func |] eqn:Ef; [| by destruct S].
      apply Fn in Ef as [-> _]. destruct (fns wasteful !! g) as [gunc |] eqn:Eg; [| done].
      by apply Fn in Eg as [-> _].
    + done.
  - intros f func E. apply Fn in E as [-> ->]. apply (labels_known_b_spec _ []); [| by vm_compute].
    intros v. rewrite elem_of_nil. done.
Qed.

Lemma wasteful_uses f : f ∈ functions wasteful -> uses_live (body f wasteful).
Proof.
  change (functions wasteful) with [200%N]. intros ->%list_elem_of_singleton.
  apply (uses_live_b_spec (m_next wasteful) (outside (fun _ => False) wasteful) _ [2%N; 1%N]).
  - by apply (body_fn (fun _ => False) 200 wasteful wasteful_ok).
  - done.
  - by vm_compute.
  - by vm_compute.
Qed.

Lemma dce_safe_witness :
  exists changed M', runOnModule wasteful = Some (changed, M') /\ dce_inv (fun _ => False) M'
    /\ (forall b, b ∈ blocks (body 200 M') <->
          b ∈ blocks (body 200 wasteful) /\ live_block (body 200 wasteful) b).
Proof.
  destruct (dce_safe (fun _ => False) wasteful wasteful_ok wasteful_uses) as (ch & M' & E & I & _ & R).
  exists ch, M'. split; [exact E |]. split; [exact I |]. destruct (R 200%N) as [R1 _]; [left | exact R1].
Defined.

(** What the pass makes of it: the branch and the return are left, on the constant. *)
Example wasteful_result :
  ('(changed, M) ← runOnModule wasteful;
   Some (changed, (blocks (body 200 M), map (fun b => getInstructions b (body 200 M)) [1%N; 2%N]),
         kind_of 14 (body 200 M), globals M, getPredecessors 2 (body 200 M)))
  = Some (true, ([1%N; 2%N], [[11%N]; [14%N]]), Some (ReturnInst 50), [61%N], [1%N]).
Proof. by vm_compute. Qed.

Lemma mark_and_sweep_exact_witness :
  exists (alive : list ref) changed M', mark_and_sweep (false, snd (getFunctions wasteful)) = Some (changed, M')
    /\ (forall v, v ∈ alive <-> reached (extractOperands (snd (getFunctions wasteful)))
          (roots (snd (getFunctions wasteful)) (functions (snd (getFunctions wasteful)))) v)
    /\ globals M' = filter (fun g => g ∈ alive) (globals (snd (getFunctions wasteful))).
Proof.
  destruct (getFunctions_inv (fun _ => False) wasteful wasteful_ok) as (I & D & _).
  destruct (mark_and_sweep_exact (fun _ => False) (snd (getFunctions wasteful)) false I D)
    as (alive & ch & M' & E & A & Gl & _).
  exists alive, ch, M'. split; [exact E |]. split; [exact A | exact Gl].
Defined.
