(* ===== verification/Mem2Reg.v ===== *)
(** * Promotion of memory to registers

    [Mem2RegPass] of [lib/middle/mir/passes/Mem2RegPass.cpp]: the dominance frontiers, the
    allocations that may be promoted, the placement of phis on the iterated frontier of the
    blocks that store, the renaming along the dominator tree and the removal of the loads,
    stores and allocations.

    The pass iterates hash tables: [hash_set] is the order in which a set of blocks is
    iterated and [hash_phis] that of the phis of a block; [iteration] is the order of the
    table of immediate dominators, as in [Dominance].  [None] is a null dereference of the
    C++, or an exhausted fuel: [fuel] bounds the chains of loads and of types. *)

From S2P Require Import Prelude Diag HIRType MIR SimplifyCFG Dominance MIRModule ConstFold.

(** ** Dominance frontiers *)

(** [truePreds[b]]: a predecessor for each time that [b] is among its successors. *)
Definition truePreds (F : MIRFunction) (b : ref) : list ref :=
  concat (map (fun p => map (fun _ => p) (filter (fun s => s = b) (getSuccessors p F))) (blocks F)).

(** [DF[runner].insert(b)]. *)
Definition insert_frontier (runner b : ref) (DF : gmap ref (list ref)) : gmap ref (list ref) :=
  <[runner := add_unique b (default [] (DF !! runner))]> DF.

(** [while (runner && runner != dom.getIDom(b))]. *)
Fixpoint run_up (fuel : nat) (D : MIRDominance) (b runner : ref) (DF : gmap ref (list ref)) :
    option (gmap ref (list ref)) :=
  match fuel with
  | 0 => None
  | S fuel =>
      if N.eqb runner nullptr || N.eqb runner (getIDom D b) then Some DF
      else run_up fuel D b (getIDom D runner) (insert_frontier runner b DF)
  end.

(** The links from a block to the entry are at most as many as there are blocks with an
    immediate dominator. *)
Definition frontier_block (F : MIRFunction) (D : MIRDominance) (DF : gmap ref (list ref)) (b : ref) :
    option (gmap ref (list ref)) :=
  if 2 <=? length (truePreds F b) then
    fold_some (fun DF pred => run_up (2 + size (idoms D)) D b pred DF) (truePreds F b) DF
  else Some DF.

Definition computeDominanceFrontiers (F : MIRFunction) (D : MIRDominance) :
    option (gmap ref (list ref)) :=
  fold_some (frontier_block F D) (blocks F) ∅.

(** ** Phase 1: promotable allocations *)

Definition isPromotable (tys : TypeHeap) (ty : TypePtr) : bool :=
  match tys !! ty with
  | Some t =>
      match HIRType.getKind t with
      | TypeKind.Int | TypeKind.Float | TypeKind.Bool | TypeKind.Pointer => true
      | _ => false
      end
  | None => false
  end.

(** The values that an instruction lets escape, but for the captures of a closure. *)
Definition escaping (k : InstKind) : list ref :=
  match k with
  | LoadInst p _ vol => if vol then [p] else []
  | StoreInst v p _ vol => v :: (if vol then [p] else [])
  | GetElementPtrInst p ix => p :: ix
  | CallInst c args _ => c :: args
  | CastInst _ v _ => [v]
  | PhiInst inc => map fst inc
  | BinaryInst _ l r | CompareInst _ l r | FCmpInst _ l r => [l; r]
  | ReturnInst v => [v]
  | CondBranchInst c _ _ => [c]
  | SwitchInst c _ cs => c :: map fst cs
  | InvokeInst c args _ _ => c :: args
  | ResumeInst e => [e]
  | ThrowInst e _ => [e]
  | InlineAsmInst _ _ args _ => args
  | SpawnInst c _ => [c]
  | AwaitInst p => [p]
  | ExtractValueInst a _ => [a]
  | InsertValueInst a v _ => [a; v]
  | ARCInst _ o _ => [o]
  | _ => []
  end.

Definition is_alloca (F : MIRFunction) (v : ref) : bool :=
  match kind_of v F with Some (AllocaInst _ _) => true | _ => false end.

(** [markEscaped]. *)
Definition markEscaped (F : MIRFunction) (escaped : list ref) (v : ref) : list ref :=
  if is_alloca F v then add_unique v escaped else escaped.

(** [while load: tracedCap = load->getPointer()]. *)
Definition load_step (F : MIRFunction) (v : ref) : option ref :=
  match kind_of v F with Some (LoadInst p _ _) => Some p | _ => None end.

(** [blockPhis]: for each block, the phi of each allocation. *)
Abbreviation BlockPhis := (gmap ref (gmap ref ref)).

Section Pass.
Context (fuel : nat).
Context (iteration : gmap ref ref -> list (ref * ref)).
Context (hash_set : list ref -> list ref).
Context (hash_phis : gmap ref ref -> list (ref * ref)).

Definition escape_inst (F : MIRFunction) (escaped : list ref) (i : ref) : option (list ref) :=
  match kind_of i F with
  | Some (MakeClosureInst _ caps) =>
      fold_some (fun escaped cap =>
        tracedCap ← follow (load_step F) fuel cap; Some (markEscaped F escaped tracedCap)) caps escaped
  | Some k => Some (fold_left (markEscaped F) (escaping k) escaped)
  | None => Some escaped
  end.

Definition escapedAllocas (F : MIRFunction) : option (list ref) :=
  fold_some (fun escaped b => fold_some (escape_inst F) (getInstructions b F) escaped) (blocks F) [].

(** The allocations to promote, in order, and for each the blocks that store to it, with a
    block for every store. *)
Record Promotion := {
  promotableAllocas : list ref;
  defBlocks : gmap ref (list ref);
}.

(** Whether an allocation of this type is passed over. *)
Definition excluded (tys : TypeHeap) (ty : TypePtr) : option bool :=
  if negb (isPromotable tys ty) then Some true
  else
    text ← toString fuel tys ty;
    Some (match tys !! ty with
          | Some t => enum_eqb (HIRType.getKind t) TypeKind.Weak
          | None => false
          end || match String.index 0 "weak "%string text with Some _ => true | None => false end).

Definition record_inst (tys : TypeHeap) (F : MIRFunction) (escaped : list ref) (b : ref) (P : Promotion)
    (i : ref) : option Promotion :=
  match kind_of i F with
  | Some (AllocaInst ty _) =>
      out ← excluded tys ty;
      Some (if (out : bool) || bool_decide (i ∈ escaped) then P
            else {| promotableAllocas := promotableAllocas P ++ [i]; defBlocks := defBlocks P |})
  | Some (StoreInst _ p _ _) =>
      Some (if is_alloca F p && bool_decide (p ∈ promotableAllocas P)
            then {| promotableAllocas := promotableAllocas P;
                    defBlocks := <[p := default [] (defBlocks P !! p) ++ [b]]> (defBlocks P) |}
            else P)
  | _ => Some P
  end.

Definition findPromotable (tys : TypeHeap) (F : MIRFunction) : option Promotion :=
  escaped ← escapedAllocas F;
  fold_some (fun P b => fold_some (record_inst tys F escaped b) (getInstructions b F) P) (blocks F)
    {| promotableAllocas := []; defBlocks := ∅ |}.

(** ** Phase 3: placement of phis *)

(** A phi for [alloca] at the start of [y]. *)
Definition insert_phi (tys : TypeHeap) (alloca y : ref) (st : BlockPhis * MIRFunction) :
    BlockPhis * MIRFunction :=
  let '(phis, F) := st in
  match insts F !! alloca with
  | None => st
  | Some A =>
      let valueType := match tys !! i_type A with
                       | Some (PointerType pointee _ _) => pointee
                       | _ => nullptr
                       end in
      let '(phi, F) := new_inst
        {| i_kind := PhiInst []; i_type := valueType; i_name := (i_name A ++ ".phi")%string;
           i_loc := i_loc A; i_borrow := None; i_parent := y |} F in
      (<[y := <[alloca := phi]> (default ∅ (phis !! y))]> phis,
       upd_block y (fun B => with_instructions (phi :: instructions B) B) F)
  end.

(** What the placement for one allocation has done so far. *)
Record Placement := {
  worklist : list ref;
  inWorklist : list ref;
  hasPhi : list ref;
  placed_in : BlockPhis * MIRFunction;
}.

(** One block [y] of the frontier of [x]; the worklist is a stack with its top first. *)
Definition place_at (tys : TypeHeap) (alloca : ref) (P : Placement) (y : ref) : Placement :=
  if bool_decide (y ∈ hasPhi P) then P
  else
    {| worklist := if bool_decide (y ∈ inWorklist P) then worklist P else y :: worklist P;
       inWorklist := add_unique y (inWorklist P);
       hasPhi := y :: hasPhi P;
       placed_in := insert_phi tys alloca y (placed_in P) |}.

Fixpoint place_loop (n : nat) (tys : TypeHeap) (DF : gmap ref (list ref)) (alloca : ref) (P : Placement) :
    option Placement :=
  match n with
  | 0 => None
  | S n =>
      match worklist P with
      | [] => Some P
      | x :: rest =>
          let P := {| worklist := rest; inWorklist := inWorklist P; hasPhi := hasPhi P;
                      placed_in := placed_in P |} in
          place_loop n tys DF alloca
            (fold_left (place_at tys alloca) (hash_set (default [] (DF !! x))) P)
      end
  end.

(** Every round takes a block from the worklist; besides the blocks it starts with, only
    blocks of frontiers are pushed, each once. *)
Definition place_fuel (DF : gmap ref (list ref)) (defs : list ref) : nat :=
  S (length defs + length (concat (map snd (map_to_list DF)))).

Definition place_phis (tys : TypeHeap) (DF : gmap ref (list ref)) (defs : gmap ref (list ref))
    (st : BlockPhis * MIRFunction) (alloca : ref) : option (BlockPhis * MIRFunction) :=
  let w := default [] (defs !! alloca) in
  P ← place_loop (place_fuel DF w) tys DF alloca
        {| worklist := reverse w; inWorklist := remove_dups w; hasPhi := []; placed_in := st |};
  Some (placed_in P).

(** ** Phase 4: renaming *)

(** The variables of the recursive function; a stack of values has its top first. *)
Record Renaming := {
  r_module : MIRModule;
  r_function : MIRFunction;
  valueStacks : gmap ref (list ref);
  toDelete : list ref;
}.

Definition stack_of (alloca : ref) (R : Renaming) : list ref := default [] (valueStacks R !! alloca).

(** [valueStacks[alloca].push_back(v); pushedCounts[alloca]++]. *)
Definition push_value (alloca v : ref) (st : gmap ref nat * Renaming) : gmap ref nat * Renaming :=
  let '(pushedCounts, R) := st in
  (<[alloca := S (default 0 (pushedCounts !! alloca))]> pushedCounts,
   {| r_module := r_module R; r_function := r_function R;
      valueStacks := <[alloca := v :: stack_of alloca R]> (valueStacks R); toDelete := toDelete R |}).

Definition push_delete (i : ref) (R : Renaming) : Renaming :=
  {| r_module := r_module R; r_function := r_function R; valueStacks := valueStacks R;
     toDelete := toDelete R ++ [i] |}.

(** Whether a pointer is a promoted allocation. *)
Definition promoted (F : MIRFunction) (promotableSet : list ref) (p : ref) : bool :=
  is_alloca F p && bool_decide (p ∈ promotableSet).

(** A new [ConstantUndef]. *)
Definition fresh_undef (t : TypePtr) (R : Renaming) : ref * Renaming :=
  let '(c, M) := getOrInsertConstant ConstantUndef t (r_module R) in
  (c, {| r_module := M; r_function := r_function R; valueStacks := valueStacks R;
         toDelete := toDelete R |}).

Definition rename_inst (promotableSet : list ref) (st : gmap ref nat * Renaming) (i : ref) :
    gmap ref nat * Renaming :=
  let '(pushedCounts, R) := st in
  let F := r_function R in
  match insts F !! i with
  | Some J =>
      match i_kind J with
      | LoadInst p _ _ =>
          if promoted F promotableSet p then
            let top := default nullptr (head (stack_of p R)) in
            let '(activeVal, R) := if N.eqb top nullptr then fresh_undef (i_type J) R else (top, R) in
            (pushedCounts,
             push_delete i
               {| r_module := r_module R; r_function := replaceAllUsesInFunction i activeVal F;
                  valueStacks := valueStacks R; toDelete := toDelete R |})
          else st
      | StoreInst v p _ _ =>
          if promoted F promotableSet p then
            let '(pushedCounts, R) := push_value p v st in (pushedCounts, push_delete i R)
          else st
      | AllocaInst _ _ =>
          if bool_decide (i ∈ promotableSet) then (pushedCounts, push_delete i R) else st
      | _ => st
      end
  | None => st
  end.

(** The value of [alloca] at the end of [b] for its phi in a successor. *)
Definition fill_phi (b : ref) (R : Renaming) (p : ref * ref) : Renaming :=
  let '(alloca, phi) := p in
  let '(v, R) :=
    match stack_of alloca R with
    | v :: _ => (v, R)
    | [] =>
        match insts (r_function R) !! phi with
        | Some J => fresh_undef (i_type J) R
        | None => (nullptr, R)
        end
    end in
  {| r_module := r_module R;
     r_function := upd_inst phi (fun J => match i_kind J with
                                          | PhiInst inc => with_kind (PhiInst (addIncoming v b inc)) J
                                          | _ => J
                                          end) (r_function R);
     valueStacks := valueStacks R; toDelete := toDelete R |}.

Definition fill_succ (phis : BlockPhis) (b : ref) (R : Renaming) (succ : ref) : Renaming :=
  fold_left (fill_phi b) (hash_phis (default ∅ (phis !! succ))) R.

(** The definitions of the block are popped; each count is for a stack of its own. *)
Definition pop_values (pushedCounts : gmap ref nat) (R : Renaming) : Renaming :=
  {| r_module := r_module R; r_function := r_function R;
     valueStacks := fold_left (fun S '(alloca, count) =>
       <[alloca := drop count (default [] (S !! alloca))]> S) (map_to_list pushedCounts) (valueStacks R);
     toDelete := toDelete R |}.

(** The steps on a block before its children: a, b and c. *)
Definition rename_block (promotableSet : list ref) (phis : BlockPhis) (b : ref) (R : Renaming) :
    gmap ref nat * Renaming :=
  let st := fold_left (fun st '(alloca, phi) => push_value alloca phi st)
              (hash_phis (default ∅ (phis !! b))) (∅, R) in
  let st := fold_left (rename_inst promotableSet) (getInstructions b (r_function R)) st in
  (fst st, fold_left (fill_succ phis b) (getSuccessors b (r_function (snd st))) (snd st)).

Fixpoint renameDFS (n : nat) (D : MIRDominance) (promotableSet : list ref) (phis : BlockPhis)
    (R : Renaming) (b : ref) : option Renaming :=
  match n with
  | 0 => None
  | S n =>
      let '(pushedCounts, R) := rename_block promotableSet phis b R in
      R ← fold_some (renameDFS n D promotableSet phis) (getChildren D b) R;
      Some (pop_values pushedCounts R)
  end.

(** ** Phase 5: cleanup *)

Definition dead_access (F : MIRFunction) (promotableSet : list ref) (i : ref) : bool :=
  match kind_of i F with
  | Some (LoadInst p _ _) | Some (StoreInst _ p _ _) => promoted F promotableSet p
  | _ => false
  end.

(** The loads and stores of promoted allocations that are left. *)
Definition dead_accesses (F : MIRFunction) (promotableSet : list ref) : list ref :=
  concat (map (fun b => filter (fun i => dead_access F promotableSet i = true) (getInstructions b F))
           (blocks F)).

(** The erasure of the dead instructions of one block, which destroys them. *)
Definition erase_dead (deadSet : list ref) (F : MIRFunction) (b : ref) : MIRFunction :=
  let dead := filter (fun i => i ∈ deadSet) (getInstructions b F) in
  fold_left (fun F i => free_inst i F) dead
    (upd_block b (fun B => with_instructions (filter (fun i => i ∉ deadSet) (instructions B)) B) F).

Definition cleanup (promotableSet toDelete : list ref) (F : MIRFunction) : MIRFunction :=
  fold_left (erase_dead (toDelete ++ dead_accesses F promotableSet)) (blocks F) F.

(** ** The pass *)

(** The edges are recomputed from the terminators. *)
Definition heal_cfg (F : MIRFunction) : MIRFunction :=
  fold_left (fun F b => if bool_decide (getInstructions b F = []) then F else heal_edges b F)
    (blocks F) (clear_edges F).

Definition promote (P : Promotion) (M : MIRModule) (F : MIRFunction) : option (MIRModule * MIRFunction) :=
  D ← analyze F iteration newDominance;
  DF ← computeDominanceFrontiers F D;
  '(phis, F) ← fold_some (place_phis (m_types M) DF (defBlocks P)) (promotableAllocas P) (∅, F);
  let M := set_next (next_ref F) M in
  R ← renameDFS (S (size (idoms D))) D (promotableAllocas P) phis
        {| r_module := M; r_function := F; valueStacks := ∅; toDelete := [] |} (getEntryBlock F);
  Some (r_module R, cleanup (promotableAllocas P) (toDelete R) (r_function R)).

Definition runOnFunction (st : bool * MIRModule) (f : ref) : option (bool * MIRModule) :=
  let '(changed, M) := st in
  if isDeclaration (body f M) then Some st
  else
    let F := heal_cfg (body f M) in
    P ← findPromotable (m_types M) F;
    match promotableAllocas P with
    | [] => Some (changed, set_body f F M)
    | _ =>
        '(M, F) ← promote P M (with_next (m_next M) F);
        Some (true, set_body f F M)
    end.

Definition runOnModule (M : MIRModule) : option (bool * MIRModule) :=
  let '(funcs, M) := getFunctions M in
  fold_some runOnFunction funcs (false, M).

End Pass.
