(* ===== verification/Mem2RegFrontier.v ===== *)
(** * Promotion of memory to registers: dominance frontiers and phis

    The frontiers that the pass computes are the dominance frontiers, and the phis it places
    for an allocation are those of the iterated frontier of the blocks that store to it. *)

From S2P Require Import Prelude Diag HIRType MIR Worklist MIRFacts SimplifyCFG SimplifyCFGProps Dominance DominanceTree DominanceLoop DominanceProps DominanceClaims MIRModule Mem2Reg.

Implicit Types (F : MIRFunction) (D : MIRDominance) (b d p r x y : ref) (DF : gmap ref (list ref)).

(** The frontier recorded for a block. *)
Abbreviation frontier DF x := (default [] (DF !! x)).

Lemma elem_of_insert_frontier r b DF x y :
  y ∈ frontier (insert_frontier r b DF) x <-> y ∈ frontier DF x \/ x = r /\ y = b.
Proof.
  unfold insert_frontier. destruct (decide (x = r)) as [-> | N].
  - rewrite lookup_insert_eq. cbn [from_option id]. rewrite elem_of_add_unique. tauto.
  - rewrite lookup_insert_ne by done. tauto.
Qed.

(** A predecessor of a block of the function is in the list for it. *)
Lemma elem_of_truePreds F b p : p ∈ truePreds F b <-> p ∈ blocks F /\ b ∈ getSuccessors p F.
Proof.
  unfold truePreds. rewrite list_elem_of_In, in_concat. split.
  - intros (l & Hl & Hp). apply in_map_iff in Hl as (q & <- & Hq).
    apply in_map_iff in Hp as (s & <- & Hs). apply list_elem_of_In in Hs, Hq.
    apply list_elem_of_filter in Hs as [-> Hs]. done.
  - intros [Hp Hb]. eexists. split.
    + apply in_map_iff. exists p. split; [done |]. by apply list_elem_of_In.
    + apply in_map_iff. exists b. split; [done |]. apply list_elem_of_In, list_elem_of_filter. done.
Qed.

(** The dominance frontier of [x]: the blocks of which [x] dominates a predecessor and
    which it does not dominate strictly. *)
Definition in_frontier F (entry : ref) x b : Prop :=
  (exists p, reachable F entry p /\ b ∈ getSuccessors p F /\ dominator F entry x p)
  /\ ~ (x <> b /\ dominator F entry x b).

Section Frontiers.
Context (F : MIRFunction) (iteration : gmap ref ref -> list (ref * ref)).
Context (entry : ref) (rest : list ref).
Context (W : well_formed F) (C : consistent F) (EB : blocks F = entry :: rest) (NE : entry <> nullptr).
Context (It : forall m, iteration m ≡ₚ map_to_list m).

Section Tables.
Context (order : list ref) (m : gmap ref ref) (D : MIRDominance) (A : analyzed F iteration entry order m D).

Let T : tree entry order m := iv_tree _ _ _ _ _ (an_inv _ _ _ _ _ _ A).
Let ND : NoDup order := ro_nodup _ _ _ (an_order _ _ _ _ _ _ A).
Let O0 : order !! 0 = Some entry := ro_entry _ _ _ (an_order _ _ _ _ _ _ A).
Let RS := reachable_set F iteration entry order m D A.
Let AR := anc_reachable F iteration entry rest W C EB order m D A.

Lemma getIDom_set b c : m !! b = Some c -> getIDom D b = c.
Proof. intros E. unfold getIDom. by rewrite (an_idoms _ _ _ _ _ _ A), E. Qed.

Lemma getIDom_unset b : ~ reachable F entry b -> getIDom D b = nullptr.
Proof.
  intros N. unfold getIDom. rewrite (an_idoms _ _ _ _ _ _ A).
  destruct (m !! b) eqn:E; [| done]. exfalso. apply N, RS. by eexists.
Qed.

Lemma reachable_block b : reachable F entry b -> b ∈ blocks F.
Proof.
  intros H. apply (ro_blocks _ _ _ (an_order _ _ _ _ _ _ A)).
  by apply (reachable_order F iteration entry order m D A).
Qed.

Lemma reachable_succ p b : reachable F entry p -> b ∈ getSuccessors p F -> reachable F entry b.
Proof. intros [l P] E. exists (b :: l). by apply path_step with p. Qed.

Lemma reachable_not_null b : reachable F entry b -> b <> nullptr.
Proof.
  intros [l P]. destruct P as [| p b l P E]; [done |].
  assert (Hp : p ∈ blocks F) by (apply reachable_block; by exists l).
  apply (co_succ _ C) in E; [| done]. unfold term_targets, inst_targets in E.
  destruct (kind_of (terminator p F) F); [| by apply not_elem_of_nil in E].
  by apply list_elem_of_filter in E as [? _].
Qed.

(** The walk from a predecessor [r] up to the immediate dominator [d]. *)
Lemma run_up_spec b d : getIDom D b = d -> set m d -> forall fuel r DF,
  set m r -> anc m d r -> pos order r < fuel ->
  exists DF', run_up fuel D b r DF = Some DF' /\
    forall x y, y ∈ frontier DF' x <-> y ∈ frontier DF x \/ y = b /\ anc m x r /\ ~ anc m x d.
Proof.
  intros Ed Sd. induction fuel as [| fuel IH]; intros r DF Sr Ar L; [lia |]. cbn [run_up].
  rewrite Ed. rewrite (proj2 (N.eqb_neq r nullptr)) by (apply reachable_not_null, RS; done).
  cbn [orb]. destruct (N.eqb_spec r d) as [-> | Nd].
  - exists DF. split; [done |]. intros x y. tauto.
  - destruct Sr as [c E]. destruct (t_link _ _ _ T _ _ E) as (Or & Sc & [-> | Lc]).
    { apply (anc_entry entry order ND O0 m T) in Ar. by subst. }
    rewrite (getIDom_set r c E).
    assert (Ac : anc m d c).
    { apply anc_inv in Ar as [-> | (c' & E' & ?)]; [done |]. by simplify_eq. }
    destruct (IH c (insert_frontier r b DF) Sc Ac) as (DF' & -> & H); [lia |].
    exists DF'. split; [done |]. intros x y. rewrite H, elem_of_insert_frontier.
    assert (N : ~ anc m r d).
    { intros Q. pose proof (anc_pos_le T Q). pose proof (anc_pos_le T Ac). lia. }
    split.
    + intros [[? | [-> ->]] | (-> & ? & ?)]; [by left | right | right].
      * split; [done |]. split; [apply anc_refl | done].
      * split; [done |]. split; [by apply anc_up with c | done].
    + intros [? | (-> & Q & ?)]; [by left; left |].
      apply anc_inv in Q as [-> | (c' & E' & ?)]; [left; by right |]. simplify_eq. right. done.
Qed.

(** From a block that is not reachable only that block gets an entry. *)
Lemma run_up_off b fuel r DF :
  ~ reachable F entry r ->
  exists DF', run_up (2 + fuel) D b r DF = Some DF' /\
    forall x, reachable F entry x -> frontier DF' x = frontier DF x.
Proof.
  intros N. cbn [run_up Nat.add]. destruct (_ || _); [by exists DF |].
  rewrite (getIDom_unset r N). exists (insert_frontier r b DF). split; [done |].
  intros x Hx. unfold insert_frontier. rewrite lookup_insert_ne; [done |]. by intros ->.
Qed.

Lemma length_order_size : length order <= size (idoms D).
Proof.
  rewrite (an_idoms _ _ _ _ _ _ A), <- length_map_to_list, <- (length_map fst).
  apply List.NoDup_incl_length; [apply NoDup_ListNoDup, ND |].
  intros x Hx. apply list_elem_of_In in Hx. apply list_elem_of_In.
  apply (reachable_order F iteration entry order m D A), RS in Hx as [c E].
  apply (list_elem_of_fmap_2' fst _ (x, c)); [by apply elem_of_map_to_list | done].
Qed.

(** What the walk from a predecessor [p] adds: [b] for the blocks between. *)
Definition between b p x : Prop :=
  reachable F entry p /\ anc m x p /\ ~ anc m x (getIDom D b).

Lemma idom_set b : reachable F entry b -> set m (getIDom D b) /\ anc m (getIDom D b) b.
Proof.
  intros [c E]%RS. rewrite (getIDom_set b c E). split.
  - by apply (t_link _ _ _ T) in E as (_ & ? & _).
  - apply anc_up with c; [done | apply anc_refl].
Qed.

Lemma idom_anc_pred b p :
  b <> entry -> reachable F entry p -> b ∈ getSuccessors p F -> anc m (getIDom D b) p.
Proof.
  intros N Rp E. pose proof (reachable_succ p b Rp E) as Rb.
  destruct (idom_set b Rb) as [_ Hb]. apply AR; [done |]. apply AR in Hb; [| done].
  intros l P. specialize (Hb (b :: l)). apply elem_of_cons in Hb as [Q | ?]; [| done | by apply path_step with p].
  exfalso. pose proof Rb as [c Ec]%RS. rewrite (getIDom_set b c Ec) in Q. subst c.
  by apply (entry_unset_self F iteration entry order m D b b A Ec N).
Qed.

Lemma run_up_pred b p DF : p ∈ truePreds F b ->
  exists DF', run_up (2 + size (idoms D)) D b p DF = Some DF' /\
    forall x, reachable F entry x -> forall y, y ∈ frontier DF' x <->
      y ∈ frontier DF x \/ y = b /\ between b p x.
Proof.
  intros [Hp Hs]%elem_of_truePreds. unfold between. destruct (decide (set m p)) as [Sp | Np].
  - pose proof Sp as Rp%RS. pose proof (reachable_succ p b Rp Hs) as Rb.
    destruct (idom_set b Rb) as [Sd _].
    assert (Ad : anc m (getIDom D b) p).
    { destruct (decide (b = entry)) as [-> | N]; [| by apply idom_anc_pred].
      rewrite (getIDom_set entry entry (t_entry _ _ _ T)). by apply (entry_anc entry order m T). }
    destruct (run_up_spec b _ eq_refl Sd (2 + size (idoms D)) p DF Sp Ad) as (DF' & E & H).
    { pose proof (pos_lt order ND p (set_order T p Sp)).
      pose proof length_order_size. lia. }
    exists DF'. split; [done |]. intros x Rx y. rewrite H. tauto.
  - rewrite <- RS in Np. destruct (run_up_off b (size (idoms D)) p DF Np) as (DF' & E & H).
    exists DF'. split; [done |]. intros x Rx y. rewrite H by done. tauto.
Qed.

(** Loops that only add to the frontiers: what each round adds comes together. *)
Lemma frontier_fold {B} (f : gmap ref (list ref) -> B -> option (gmap ref (list ref)))
    (adds : B -> ref -> ref -> Prop) (l : list B) :
  (forall DF z, z ∈ l -> exists DF', f DF z = Some DF' /\
    forall x, reachable F entry x -> forall y, y ∈ frontier DF' x <-> y ∈ frontier DF x \/ adds z x y) ->
  forall DF, exists DF', fold_some f l DF = Some DF' /\
    forall x, reachable F entry x -> forall y, y ∈ frontier DF' x <->
      y ∈ frontier DF x \/ exists z, z ∈ l /\ adds z x y.
Proof.
  induction l as [| z l IH]; intros Hf DF; cbn [fold_some].
  - exists DF. split; [done |]. intros x _ y. split; [by left |].
    intros [? | (z & Hz & _)]; [done | by apply not_elem_of_nil in Hz].
  - destruct (Hf DF z) as (DF1 & -> & H1); [left |]. cbn [mbind option_bind].
    destruct (IH (fun DF z' Hz => Hf DF z' (list_elem_of_further _ _ _ Hz)) DF1) as (DF2 & -> & H2).
    exists DF2. split; [done |]. intros x Rx y. rewrite H2, H1 by done. split.
    + intros [[? | ?] | (z' & ? & ?)]; [by left | right; exists z | right; exists z'];
        (split; [| done]); [left | by right].
    + intros [? | (z' & [-> | ?]%elem_of_cons & ?)]; [by left; left | by left; right | right; by exists z'].
Qed.

(** A block with a single predecessor is in no frontier. *)
Lemma between_two b p x : b <> entry -> p ∈ truePreds F b -> between b p x -> 2 <= length (truePreds F b).
Proof.
  intros N Hp (Rp & Hx & Nx). destruct (truePreds F b) as [| q [| q' l]] eqn:El; [| | simpl; lia].
  { by apply not_elem_of_nil in Hp. }
  exfalso. apply list_elem_of_singleton in Hp as ->.
  assert (Only : forall r, reachable F entry r -> b ∈ getSuccessors r F -> r = q).
  { intros r Rr Hr. apply list_elem_of_singleton. rewrite <- El. apply elem_of_truePreds.
    split; [by apply reachable_block | done]. }
  assert (Hq : q ∈ truePreds F b) by (rewrite El; left). apply elem_of_truePreds in Hq as [_ Hq].
  pose proof (reachable_succ q b Rp Hq) as Rb. destruct (decide (q = b)) as [-> | Nq].
  - assert (Q : forall c l, path F entry c l -> c <> b).
    { induction 1 as [| c d l P IH E]; [by intros -> |]. intros ->. apply IH, Only; [by exists l | done]. }
    destruct Rb as [l P]. by apply (Q b l).
  - assert (Aq : anc m q b).
    { apply AR; [done |]. intros l P. destruct P as [| r c l P E]; [done |].
      right. rewrite (Only r) in P; [| by exists l | done]. destruct P; left. }
    pose proof Rb as [c Ec]%RS. apply Nx. rewrite (getIDom_set b c Ec).
    apply (anc_trans _ _ q); [done |]. apply anc_inv in Aq as [? | (c' & E' & ?)]; [done |]. by simplify_eq.
Qed.

Lemma computeDominanceFrontiers_analyzed :
  exists DF, computeDominanceFrontiers F D = Some DF /\
    forall x b, reachable F entry x -> b <> entry ->
      (b ∈ frontier DF x <-> exists p, p ∈ truePreds F b /\ between b p x).
Proof.
  destruct (frontier_fold (frontier_block F D)
              (fun b x y => y = b /\ 2 <= length (truePreds F b) /\ exists p, p ∈ truePreds F b /\ between b p x)
              (blocks F)) with (DF := (∅ : gmap ref (list ref))) as (DF & E & H).
  - intros DF b _. unfold frontier_block. destruct (Nat.leb_spec 2 (length (truePreds F b))) as [L | L].
    + destruct (frontier_fold (fun DF pred => run_up (2 + size (idoms D)) D b pred DF)
                  (fun p x y => y = b /\ between b p x) (truePreds F b)) with (DF := DF) as (DF' & -> & H).
      { intros DF0 p Hp. by apply run_up_pred. }
      exists DF'. split; [done |]. intros x Rx y. rewrite H by done. split.
      * intros [? | (p & ? & -> & ?)]; [by left | right; eauto].
      * intros [? | (-> & _ & p & ? & ?)]; [by left | right; eauto].
    + exists DF. split; [done |]. intros x _ y. split; [by left | intros [? | (_ & ? & _)]; [done | lia]].
  - exists DF. split; [done |]. intros x b Rx N. rewrite H by done. rewrite lookup_empty. cbn [from_option id].
    split.
    + intros [Q | (c & _ & -> & _ & Hp)]; [by apply not_elem_of_nil in Q | done].
    + intros (p & Hp & B). right. exists b. split_and!; [| done | by apply (between_two b p x) | by exists p].
      pose proof Hp as [_ Hs]%elem_of_truePreds. apply reachable_block, (reachable_succ p); [apply B | done].
Qed.

Lemma between_frontier x b : b <> entry -> reachable F entry x ->
  (exists p, p ∈ truePreds F b /\ between b p x) <-> in_frontier F entry x b.
Proof.
  intros N Rx. unfold in_frontier, between. split.
  - intros (p & [_ Hs]%elem_of_truePreds & Rp & Hx & Nx). pose proof (reachable_succ p b Rp Hs) as Rb. split.
    + exists p. split_and!; [done | done | by apply AR].
    + intros [Nb Q%AR]; [| done]. apply Nx. pose proof Rb as [c Ec]%RS. rewrite (getIDom_set b c Ec).
      apply anc_inv in Q as [? | (c' & E' & ?)]; [done |]. by simplify_eq.
  - intros [(p & Rp & Hs & Q%AR) S]; [| done]. exists p. split.
    { apply elem_of_truePreds. split; [by apply reachable_block | done]. }
    split_and!; [done | done |]. intros Q'. pose proof (reachable_succ p b Rp Hs) as Rb.
    destruct (idom_set b Rb) as [_ Ab]. apply S. split.
    + intros ->. pose proof Rb as [c Ec]%RS. rewrite (getIDom_set b c Ec) in Q'.
      destruct (t_link _ _ _ T _ _ Ec) as (_ & _ & [? | L]); [done |].
      pose proof (anc_pos_le T Q'). lia.
    + apply AR; [done |]. by apply (anc_trans _ _ (getIDom D b)).
Qed.

End Tables.

(** C23: the frontiers are the dominance frontiers, but for the entry: on a function with
    consistent edges the computation ends, and for a reachable block [x] and a block [b] that is
    not the entry it records [b] for [x] exactly when [x] dominates a predecessor of [b] and does
    not strictly dominate [b].  Nothing is said of the entry as a member of a frontier: it has
    no immediate dominator at which the walk up from its predecessors would stop. *)
Theorem computeDominanceFrontiers_correct :
  exists D DF, analyze F iteration newDominance = Some D /\ computeDominanceFrontiers F D = Some DF
    /\ forall x b, reachable F entry x -> b <> entry -> b ∈ frontier DF x <-> in_frontier F entry x b.
Proof.
  destruct (analyze_spec F iteration entry rest W C EB It newDominance) as (order & m & D & E & A).
  destruct (computeDominanceFrontiers_analyzed order m D A) as (DF & E' & H).
  exists D, DF. split_and!; [done | done |]. intros x b Rx N. rewrite H by done.
  by apply (between_frontier order m D A).
Qed.

End Frontiers.
