(* ===== verification/Mem2RegPhis.v ===== *)
(** * Promotion of memory to registers: placement of phis

    The phis placed for an allocation are those of the iterated frontier of the blocks that
    store to it; each is a new instruction at the start of its block, and the rest of the
    function is left as it is; and reaching definitions are those of these phis. *)

From S2P Require Import Prelude Diag HIRType MIR MIRModule MIRFacts SimplifyCFG SimplifyCFGProps.
From S2P Require Import Dominance DominanceTree DominanceLoop DominanceProps.
From S2P Require Import DominanceClaims Worklist Mem2Reg Mem2RegFrontier.

Implicit Types (F : MIRFunction) (a b i p x y phi d r : ref) (DF : gmap ref (list ref)) (phis : BlockPhis) (D : MIRDominance) (o : option ref).

(** [y] is in the iterated frontier of the blocks [defs]. *)
Definition iterated_frontier DF (defs : list ref) y : Prop :=
  exists x, reached (fun x => frontier DF x) defs x /\ y ∈ frontier DF x.

(** The phi of [a] in [y]. *)
Definition phi_of phis y a : option ref := default ∅ (phis !! y) !! a.

(** The type of the values of an allocation. *)
Definition value_type (tys : TypeHeap) (A : MIRInst) : TypePtr :=
  match tys !! i_type A with Some (PointerType pointee _ _) => pointee | _ => nullptr end.

(** The phi that is placed in [y] for the allocation [A]. *)
Definition new_phi (tys : TypeHeap) (A : MIRInst) y : MIRInst :=
  {| i_kind := PhiInst []; i_type := value_type tys A; i_name := (i_name A ++ ".phi")%string;
     i_loc := i_loc A; i_borrow := None; i_parent := y |}.

(** What has been placed in [F0]: new phis at the start of their blocks, nothing else. *)
Record placed_phis (tys : TypeHeap) F0 phis F : Prop := {
  pp_phi : forall y a phi, phi_of phis y a = Some phi ->
    exists A, insts F0 !! a = Some A /\ insts F !! phi = Some (new_phi tys A y) /\ (next_ref F0 <= phi < next_ref F)%N;
  pp_inj : forall y y' a a' phi,
    phi_of phis y a = Some phi -> phi_of phis y' a' = Some phi -> y' = y /\ a' = a;
  pp_old : forall i, (i < next_ref F0)%N -> insts F !! i = insts F0 !! i;
  pp_next : (next_ref F0 <= next_ref F)%N;
  pp_blocks : blocks F = blocks F0;
  pp_edges : forall b, getSuccessors b F = getSuccessors b F0 /\ getPredecessors b F = getPredecessors b F0;
  pp_has : forall b, has_block b F <-> has_block b F0;
  pp_insts : forall y, has_block y F0 -> exists new,
    getInstructions y F = new ++ getInstructions y F0 /\ NoDup new
    /\ forall phi, phi ∈ new <-> exists a, phi_of phis y a = Some phi;
}.

Lemma phi_of_insert phis y a phi y' a' :
  phi_of (<[y := <[a := phi]> (default ∅ (phis !! y))]> phis) y' a'
  = if decide (y' = y /\ a' = a) then Some phi else phi_of phis y' a'.
Proof.
  unfold phi_of. destruct (decide (y' = y)) as [-> | N].
  - rewrite lookup_insert_eq. cbn [from_option id]. destruct (decide (a' = a)) as [-> | N].
    + by rewrite lookup_insert_eq, decide_True.
    + rewrite lookup_insert_ne, decide_False by (done || tauto). done.
  - rewrite lookup_insert_ne, decide_False by (done || tauto). done.
Qed.

Lemma placed_phis_refl tys F : placed_phis tys F ∅ F.
Proof.
  assert (E : forall y a, phi_of ∅ y a = None).
  { intros y a. unfold phi_of. rewrite lookup_empty. apply lookup_empty. }
  split; try done; try (intros; rewrite E in *; done).
  intros y _. exists []. split; [done |]. split; [constructor |]. intros phi. split; [by intros ?%not_elem_of_nil |].
  intros [a Q]. by rewrite E in Q.
Qed.

Section Placement.
Context (tys : TypeHeap) (DF : gmap ref (list ref)) (hash_set : list ref -> list ref).
Context (Hs : forall l, hash_set l ≡ₚ l).
Context (F0 : MIRFunction) (a : ref) (A : MIRInst).
Context (EA : insts F0 !! a = Some A) (Fresh : forall i, is_Some (insts F0 !! i) -> (i < next_ref F0)%N).

Lemma insert_phi_placed y phis F :
  placed_phis tys F0 phis F -> phi_of phis y a = None ->
  exists phi, placed_phis tys F0 (fst (insert_phi tys a y (phis, F))) (snd (insert_phi tys a y (phis, F)))
    /\ forall y' a', phi_of (fst (insert_phi tys a y (phis, F))) y' a'
         = if decide (y' = y /\ a' = a) then Some phi else phi_of phis y' a'.
Proof.
  intros P No. assert (Ea : insts F !! a = Some A).
  { rewrite (pp_old _ _ _ _ P); [done |]. apply Fresh. by eexists. }
  unfold insert_phi. rewrite Ea. unfold new_inst. cbn [fst snd].
  exists (next_ref F). split; [| intros; apply phi_of_insert].
  assert (Nx : forall y' a' phi, phi_of phis y' a' = Some phi -> phi <> next_ref F).
  { intros y' a' phi Q. apply (pp_phi _ _ _ _ P) in Q as (? & _ & _ & ?). lia. }
  pose proof (pp_next _ _ _ _ P) as LN.
  split; cbn [insts bbs blocks next_ref upd_block set_bbs].
  - intros y' a' phi. rewrite phi_of_insert. case_decide as Q.
    + intros [= <-]. destruct Q as [-> ->]. exists A. split; [done |].
      rewrite lookup_insert_eq. split; [done | lia].
    + intros E. pose proof (Nx _ _ _ E). apply (pp_phi _ _ _ _ P) in E as (A' & ? & ? & ?).
      exists A'. rewrite lookup_insert_ne by done. split; [done |]. split; [done | lia].
  - intros y1 y2 a1 a2 phi. rewrite !phi_of_insert.
    case_decide as Q1; case_decide as Q2.
    + intros _ _. destruct Q1, Q2. by subst.
    + intros [= <-] E. by apply Nx in E.
    + intros E [= <-]. by apply Nx in E.
    + apply (pp_inj _ _ _ _ P).
  - intros i L. rewrite lookup_insert_ne by lia. by apply (pp_old _ _ _ _ P).
  - lia.
  - apply (pp_blocks _ _ _ _ P).
  - intros b. rewrite <- (proj1 (pp_edges _ _ _ _ P b)), <- (proj2 (pp_edges _ _ _ _ P b)).
    split; [by rewrite getSuccessors_upd | by rewrite getPredecessors_upd].
  - intros b. rewrite <- (pp_has _ _ _ _ P). etransitivity; [apply has_block_upd | done].
  - intros y' Hy. destruct (pp_insts _ _ _ _ P y' Hy) as (new & En & ND & Hn).
    assert (EF : getInstructions y' (upd_block y (fun B => with_instructions (next_ref F :: instructions B) B)
               {| insts := <[next_ref F := new_phi tys A y]> (insts F); bbs := bbs F; blocks := blocks F;
                  next_ref := N.succ (next_ref F) |})
             = if decide (y' = y) then next_ref F :: getInstructions y' F else getInstructions y' F).
    { unfold getInstructions. rewrite bbs_upd_block. cbn [bbs].
      apply (pp_has _ _ _ _ P) in Hy as [B ->]. by case_decide. }
    unfold new_phi, value_type in EF. cbn [upd_block set_bbs insts bbs blocks next_ref] in EF. rewrite EF, En.
    case_decide as D.
    + subst y'. exists (next_ref F :: new). split; [done |]. split.
      * constructor; [| done]. intros [a' Q]%Hn. by apply Nx in Q.
      * intros phi. rewrite elem_of_cons, Hn. split.
        -- intros [-> | [a' E]]; [exists a; by rewrite phi_of_insert, decide_True |].
           exists a'. rewrite phi_of_insert, decide_False; [done |]. intros [_ ->]. congruence.
        -- intros [a' E]. rewrite phi_of_insert in E. case_decide; [left; congruence | right; by exists a'].
    + exists new. split; [done |]. split; [done |]. intros phi. rewrite Hn.
      split; intros [a' E]; exists a'; rewrite phi_of_insert, decide_False in * by tauto; done.
Qed.

(** What the placement for [a] has done: with [defs] the blocks it started from. *)
Record placing (defs : list ref) phis0 (P : Placement) : Prop := {
  pl_defs : forall x, x ∈ defs -> x ∈ inWorklist P;
  pl_work : forall x, x ∈ worklist P -> x ∈ inWorklist P;
  pl_reached : forall x, x ∈ inWorklist P -> reached (fun x => frontier DF x) defs x;
  pl_phi : forall y, y ∈ hasPhi P -> y ∈ inWorklist P /\ iterated_frontier DF defs y;
  pl_nodup : NoDup (hasPhi P);
  pl_placed : placed_phis tys F0 (fst (placed_in P)) (snd (placed_in P));
  pl_other : forall y a', a' <> a -> phi_of (fst (placed_in P)) y a' = phi_of phis0 y a';
  pl_own : forall y, is_Some (phi_of (fst (placed_in P)) y a) <-> y ∈ hasPhi P;
}.

(** One block of a frontier. *)
Lemma place_at_placing defs phis0 P x y :
  placing defs phis0 P -> reached (fun x => frontier DF x) defs x -> y ∈ frontier DF x ->
  placing defs phis0 (place_at tys a P y)
  /\ y ∈ hasPhi (place_at tys a P y)
  /\ (forall z, z ∈ hasPhi P -> z ∈ hasPhi (place_at tys a P y))
  /\ (forall z, z ∈ inWorklist (place_at tys a P y) -> z ∉ worklist (place_at tys a P y) ->
        z ∈ inWorklist P /\ z ∉ worklist P)
  /\ (forall z, z ∈ worklist P -> z ∈ worklist (place_at tys a P y))
  /\ length (worklist (place_at tys a P y)) + length (hasPhi P)
     <= length (worklist P) + length (hasPhi (place_at tys a P y)).
Proof.
  intros I Rx Hy. unfold place_at. case_bool_decide as D; [by split_and! |].
  assert (No : phi_of (fst (placed_in P)) y a = None).
  { destruct (phi_of (fst (placed_in P)) y a) eqn:E; [| done]. exfalso. apply D, (pl_own _ _ _ I). by eexists. }
  destruct (placed_in P) as [phis F] eqn:EP.
  assert (PP : placed_phis tys F0 phis F) by (pose proof (pl_placed _ _ _ I) as Q; by rewrite EP in Q).
  destruct (insert_phi_placed y phis F PP No) as (phi & PP' & E).
  assert (Ry : reached (fun x => frontier DF x) defs y) by by apply reached_next with x.
  cbn [worklist inWorklist hasPhi placed_in]. split_and!.
  - split; cbn [worklist inWorklist hasPhi placed_in].
    + intros z Hz. apply elem_of_add_unique. right. by apply (pl_defs _ _ _ I).
    + intros z Hz. apply elem_of_add_unique. case_bool_decide; [right; by apply (pl_work _ _ _ I) |].
      apply elem_of_cons in Hz as [-> | Hz]; [by left | right; by apply (pl_work _ _ _ I)].
    + intros z [-> | Hz]%elem_of_add_unique; [done | by apply (pl_reached _ _ _ I)].
    + intros z [-> | Hz]%elem_of_cons; [split; [apply elem_of_add_unique; by left | by exists x] |].
      apply (pl_phi _ _ _ I) in Hz as [? ?]. split; [apply elem_of_add_unique; by right | done].
    + constructor; [done | apply (pl_nodup _ _ _ I)].
    + done.
    + intros z a' N. rewrite E, decide_False by tauto.
      pose proof (pl_other _ _ _ I z a' N) as Q. by rewrite EP in Q.
    + intros z. rewrite E, elem_of_cons. pose proof (pl_own _ _ _ I z) as Q. rewrite EP in Q. cbn [fst] in Q.
      case_decide as Dz; [destruct Dz as [-> _]; split; [by left | by eexists] |].
      rewrite Q. split; [by right |]. intros [-> | ?]; [exfalso; by apply Dz | done].
  - left.
  - intros z Hz. by right.
  - intros z [-> | Hz]%elem_of_add_unique Nz; case_bool_decide as Q; [done | exfalso; apply Nz; left | done |].
    split; [done |]. intros ?. apply Nz. by right.
  - intros z Hz. case_bool_decide; [done | by right].
  - case_bool_decide; simpl; lia.
Qed.

(** All the blocks of a frontier. *)
Lemma place_frontier defs phis0 x l : forall P,
  placing defs phis0 P -> reached (fun x => frontier DF x) defs x -> (forall y, y ∈ l -> y ∈ frontier DF x) ->
  let P' := fold_left (place_at tys a) l P in
  placing defs phis0 P' /\ (forall y, y ∈ l -> y ∈ hasPhi P')
  /\ (forall z, z ∈ hasPhi P -> z ∈ hasPhi P')
  /\ (forall z, z ∈ inWorklist P' -> z ∉ worklist P' -> z ∈ inWorklist P /\ z ∉ worklist P)
  /\ length (worklist P') + length (hasPhi P) <= length (worklist P) + length (hasPhi P').
Proof.
  induction l as [| y l IH]; intros P I Rx Hl; cbn [fold_left].
  - split_and!; try done. intros y Hy. by apply not_elem_of_nil in Hy.
  - destruct (place_at_placing defs phis0 P x y I Rx) as (I1 & H1 & H2 & H3 & _ & H5); [apply Hl; left |].
    destruct (IH _ I1 Rx) as (J1 & J2 & J3 & J4 & J5); [intros z Hz; apply Hl; by right |].
    split_and!; [done | | | | lia].
    + intros z [-> | Hz]%elem_of_cons; auto.
    + auto.
    + intros z Hz Nz. destruct (J4 z Hz Nz). by apply H3.
Qed.

(** The blocks of all frontiers. *)
Definition frontier_universe : list ref := concat (map snd (map_to_list DF)).

Lemma iterated_universe defs y : iterated_frontier DF defs y -> y ∈ frontier_universe.
Proof.
  intros (x & _ & Hy). unfold frontier_universe. rewrite list_elem_of_In, in_concat.
  destruct (DF !! x) as [l |] eqn:E; [| by apply not_elem_of_nil in Hy].
  exists l. split; [| by apply list_elem_of_In]. apply in_map_iff. exists (x, l). split; [done |].
  by apply list_elem_of_In, elem_of_map_to_list.
Qed.

(** Every block that was taken from the worklist has its frontier done. *)
Definition settled (P : Placement) : Prop :=
  forall x y, x ∈ inWorklist P -> x ∉ worklist P -> y ∈ frontier DF x -> y ∈ hasPhi P.

Lemma place_loop_spec defs phis0 n : forall P,
  placing defs phis0 P -> settled P ->
  length (worklist P) + (length frontier_universe - length (hasPhi P)) < n ->
  exists P', place_loop hash_set n tys DF a P = Some P' /\ placing defs phis0 P' /\ settled P'
    /\ worklist P' = [].
Proof.
  induction n as [| n IH]; intros P I S L; [lia |]. cbn [place_loop].
  destruct (worklist P) as [| x rest] eqn:Ew; [by exists P |].
  set (P1 := {| worklist := rest; inWorklist := inWorklist P; hasPhi := hasPhi P; placed_in := placed_in P |}).
  assert (Hx : x ∈ inWorklist P) by (apply (pl_work _ _ _ I); rewrite Ew; left).
  assert (I1 : placing defs phis0 P1).
  { destruct I as [I1 I2 I3 I4 I5 I6 I7 I8]. split; try done. cbn. intros z Hz. apply I2. rewrite Ew. by right. }
  destruct (place_frontier defs phis0 x (hash_set (frontier DF x)) P1 I1) as (J1 & J2 & J3 & J4 & J5).
  { by apply (pl_reached _ _ _ I). }
  { intros y. by rewrite (Hs (frontier DF x)). }
  apply IH; [done | |].
  - intros z y Hz Nz Hy. destruct (J4 z Hz Nz) as [Hz1 Nz1]. cbn in Hz1, Nz1.
    destruct (decide (z = x)) as [-> | N]; [apply J2; by rewrite (Hs (frontier DF x)) |].
    apply J3, (S z); [done | | done]. rewrite Ew, elem_of_cons. tauto.
  - assert (Len : forall Q, placing defs phis0 Q -> length (hasPhi Q) <= length frontier_universe).
    { intros Q IQ. apply List.NoDup_incl_length; [apply NoDup_ListNoDup, (pl_nodup _ _ _ IQ) |].
      intros z Hz. apply list_elem_of_In in Hz. apply list_elem_of_In.
      apply (pl_phi _ _ _ IQ) in Hz as [_ Hz]. by apply iterated_universe in Hz. }
    pose proof (Len _ J1). pose proof (Len _ I). rewrite ?Ew in L. cbn in J5, L. lia.
Qed.

(** The placement for one allocation ends, with phis in exactly the iterated frontier. *)
Lemma place_phis_one (defs : gmap ref (list ref)) phis F :
  placed_phis tys F0 phis F -> (forall y, phi_of phis y a = None) ->
  exists phis' F', place_phis hash_set tys DF defs (phis, F) a = Some (phis', F')
    /\ placed_phis tys F0 phis' F'
    /\ (forall y a', a' <> a -> phi_of phis' y a' = phi_of phis y a')
    /\ forall y, is_Some (phi_of phis' y a) <-> iterated_frontier DF (default [] (defs !! a)) y.
Proof.
  intros P No. unfold place_phis. set (w := default [] (defs !! a)).
  destruct (place_loop_spec w phis (place_fuel DF w)
    {| worklist := reverse w; inWorklist := remove_dups w; hasPhi := []; placed_in := (phis, F) |})
    as (P' & -> & I & S & Ew).
  - split; cbn [worklist inWorklist hasPhi placed_in fst snd].
    + intros x. by rewrite elem_of_remove_dups.
    + intros x. by rewrite elem_of_reverse, elem_of_remove_dups.
    + intros x Hx. apply reached_root. by apply elem_of_remove_dups.
    + intros y Hy. by apply not_elem_of_nil in Hy.
    + constructor.
    + done.
    + done.
    + intros y. rewrite No. split; [by intros [] | by intros ?%not_elem_of_nil].
  - intros x y Hx Nx. cbn in Hx, Nx. rewrite elem_of_remove_dups in Hx. by rewrite elem_of_reverse in Nx.
  - cbn. unfold place_fuel, frontier_universe. rewrite length_reverse. lia.
  - cbn [mbind option_bind]. destruct (placed_in P') as [phis' F'] eqn:EP. exists phis', F'. split; [done |].
    pose proof (pl_placed _ _ _ I) as Q1. pose proof (pl_other _ _ _ I) as Q2. pose proof (pl_own _ _ _ I) as Q3.
    rewrite EP in Q1, Q2, Q3. split_and!; [done | done |]. intros y. cbn in Q3. rewrite Q3.
    split; [by intros [_ ?]%(pl_phi _ _ _ I) |]. intros (x & Rx & Hy).
    assert (Hx : x ∈ inWorklist P').
    { clear Hy. induction Rx as [v Hv | u v _ IHu Hv]; [by apply (pl_defs _ _ _ I) |].
      apply (pl_phi _ _ _ I), (S u); [done | rewrite Ew; apply not_elem_of_nil | done]. }
    apply (S x); [done | rewrite Ew; apply not_elem_of_nil | done].
Qed.

End Placement.

Section All.
Context (tys : TypeHeap) (DF defs : gmap ref (list ref)) (hash_set : list ref -> list ref).
Context (Hs : forall l, hash_set l ≡ₚ l).
Context (F0 : MIRFunction) (Fresh : forall i, is_Some (insts F0 !! i) -> (i < next_ref F0)%N).

Lemma place_phis_loop l : forall phis F,
  NoDup l -> (forall a, a ∈ l -> is_Some (insts F0 !! a)) ->
  placed_phis tys F0 phis F -> (forall a y, a ∈ l -> phi_of phis y a = None) ->
  exists phis' F', fold_some (place_phis hash_set tys DF defs) l (phis, F) = Some (phis', F')
    /\ placed_phis tys F0 phis' F'
    /\ (forall y a, a ∉ l -> phi_of phis' y a = phi_of phis y a)
    /\ forall a y, a ∈ l -> is_Some (phi_of phis' y a) <-> iterated_frontier DF (default [] (defs !! a)) y.
Proof.
  induction l as [| a l IH]; intros phis F ND In P No; cbn [fold_some].
  - exists phis, F. split_and!; try done. intros a y Ha. by apply not_elem_of_nil in Ha.
  - apply NoDup_cons in ND as [Na ND]. destruct (In a) as [A EA]; [left |].
    destruct (place_phis_one tys DF hash_set Hs F0 a A EA Fresh defs phis F P) as (phis1 & F1 & -> & P1 & O1 & H1).
    { intros y. apply No. left. }
    cbn [mbind option_bind]. destruct (IH phis1 F1 ND) as (phis2 & F2 & -> & P2 & O2 & H2).
    + intros b Hb. apply In. by right.
    + done.
    + intros b y Hb. rewrite O1 by (by intros ->). apply No. by right.
    + exists phis2, F2. split_and!; [done | done | |].
      * intros y b [Nb Nl]%not_elem_of_cons. by rewrite O2, O1.
      * intros b y [-> | Hb]%elem_of_cons; [by rewrite O2 | by apply H2].
Qed.

Lemma place_phis_all l :
  NoDup l -> (forall a, a ∈ l -> is_Some (insts F0 !! a)) ->
  exists phis F', fold_some (place_phis hash_set tys DF defs) l (∅, F0) = Some (phis, F')
    /\ placed_phis tys F0 phis F'
    /\ forall a y, is_Some (phi_of phis y a) <->
         a ∈ l /\ iterated_frontier DF (default [] (defs !! a)) y.
Proof.
  intros ND In.
  assert (E : forall y a, phi_of ∅ y a = None).
  { intros y a. unfold phi_of. rewrite lookup_empty. apply lookup_empty. }
  destruct (place_phis_loop l ∅ F0 ND In) as (phis & F' & -> & P & O & H); [apply placed_phis_refl | done |].
  exists phis, F'. split_and!; [done | done |]. intros a y. destruct (decide (a ∈ l)) as [Ha | Ha].
  - rewrite H by done. tauto.
  - rewrite O, E by done. split; [by intros [] | by intros [? _]].
Qed.

(** C24: the placement of phis ends for all allocations; an allocation has a phi in a block
    exactly when the block is in the iterated frontier of the blocks that store to it, each
    phi is a new one at the start of its block, with no value yet, and nothing else of the
    function changes. *)
Theorem place_phis_correct l :
  NoDup l -> (forall a, a ∈ l -> is_Some (insts F0 !! a)) ->
  exists phis F', fold_some (place_phis hash_set tys DF defs) l (∅, F0) = Some (phis, F')
    /\ placed_phis tys F0 phis F'
    /\ forall a y, is_Some (phi_of phis y a) <->
         a ∈ l /\ iterated_frontier DF (default [] (defs !! a)) y.
Proof. apply place_phis_all. Qed.

End All.

(** ** Reaching definitions

    The value of an allocation at the start and at the end of each block, when a phi is a
    definition: along the tree of immediate dominators, as the renaming reads it from its
    stacks, and along the edges of the graph, as memory would have it.  With phis in the
    iterated dominance frontiers of the stores the two agree. *)

(** The value of [a] after the instructions [l], when it was [o] before them. *)
Definition after_store F a o i : option ref :=
  match kind_of i F with
  | Some (StoreInst v p _ _) => if N.eqb p a then Some v else o
  | _ => o
  end.

Definition after_insts F a (l : list ref) o : option ref := fold_left (after_store F a) l o.

(** Reaching definitions: [inv b a] is the value of [a] at the start of [b] and [outv b a]
    the value at its end, [None] when nothing has been stored.  A block with a phi for [a]
    starts with it; every other starts with the value at the end of each predecessor. *)
Record reaching F (entry : ref) phis (inv outv : ref -> ref -> option ref) a : Prop := {
  re_out : forall b, reachable F entry b -> outv b a = after_insts F a (getInstructions b F) (inv b a);
  re_phi : forall b phi, reachable F entry b -> phi_of phis b a = Some phi -> inv b a = Some phi;
  re_entry : phi_of phis entry a = None -> inv entry a = None;
  re_edge : forall b p, b <> entry -> phi_of phis b a = None ->
    reachable F entry p -> b ∈ getSuccessors p F -> inv b a = outv p a;
}.

(** The value at the start of [b] as the renaming finds it: the phi, or the value at the end
    of the immediate dominator. *)
Fixpoint in_at F D (entry : ref) phis (n : nat) b a : option ref :=
  match phi_of phis b a with
  | Some phi => Some phi
  | None =>
      match n with
      | 0 => None
      | S n =>
          if N.eqb b entry then None
          else after_insts F a (getInstructions (getIDom D b) F) (in_at F D entry phis n (getIDom D b) a)
      end
  end.

(** A block without a store leaves the value. *)
Lemma after_insts_id F a l : forall o,
  (forall i v p al vo, i ∈ l -> kind_of i F = Some (StoreInst v p al vo) -> p <> a) -> after_insts F a l o = o.
Proof.
  induction l as [| i l IH]; intros o H; [done |]. cbn [after_insts fold_left].
  fold (after_insts F a l (after_store F a o i)). rewrite IH.
  - unfold after_store. destruct (kind_of i F) as [k |] eqn:K; [| done].
    destruct k; try done. rewrite (proj2 (N.eqb_neq _ _)); [done |]. apply (H i) in K; [done | left].
  - intros j v p al vo Hj. apply H. by right.
Qed.

Section Flow.
Context (F : MIRFunction) (iteration : gmap ref ref -> list (ref * ref)).
Context (entry : ref) (rest : list ref).
Context (W : well_formed F) (C : consistent F) (EB : blocks F = entry :: rest) (NE : entry <> nullptr).
Context (order : list ref) (m : gmap ref ref) (D : MIRDominance) (A : analyzed F iteration entry order m D).
Context (phis : BlockPhis).

Let T : tree entry order m := iv_tree _ _ _ _ _ (an_inv _ _ _ _ _ _ A).
Let ND : NoDup order := ro_nodup _ _ _ (an_order _ _ _ _ _ _ A).
Let O0 : order !! 0 = Some entry := ro_entry _ _ _ (an_order _ _ _ _ _ _ A).
Let RS := reachable_set F iteration entry order m D A.

Definition in_value b a : option ref := in_at F D entry phis (pos order b) b a.
Definition out_value b a : option ref := after_insts F a (getInstructions b F) (in_value b a).

Lemma in_at_enough a b : set m b -> forall n n',
  pos order b <= n -> pos order b <= n' -> in_at F D entry phis n b a = in_at F D entry phis n' b a.
Proof.
  revert b. apply (tree_ind entry order m T (fun b => forall n n',
    pos order b <= n -> pos order b <= n' -> in_at F D entry phis n b a = in_at F D entry phis n' b a)).
  - intros n n' _ _. destruct n, n'; cbn [in_at]; destruct (phi_of phis entry a); try done;
      by rewrite N.eqb_refl.
  - intros b c Nb E L Sc IH n n' Ln Ln'.
    destruct n as [| n]; [lia |]. destruct n' as [| n']; [lia |]. cbn [in_at].
    destruct (phi_of phis b a); [done |]. rewrite (proj2 (N.eqb_neq _ _) Nb).
    rewrite (getIDom_set F iteration entry order m D A b c E). by rewrite (IH n n') by lia.
Qed.

Lemma in_value_phi b a phi : phi_of phis b a = Some phi -> in_value b a = Some phi.
Proof. intros E. unfold in_value. by destruct (pos order b); cbn [in_at]; rewrite E. Qed.

Lemma in_value_entry a : phi_of phis entry a = None -> in_value entry a = None.
Proof.
  intros E. unfold in_value. rewrite (pos_entry entry order ND O0). cbn [in_at]. by rewrite E.
Qed.

Lemma in_value_idom b a : b <> entry -> reachable F entry b -> phi_of phis b a = None ->
  in_value b a = out_value (getIDom D b) a.
Proof.
  intros N [c E]%RS No. destruct (t_link _ _ _ T _ _ E) as (_ & Sc & [? | L]); [done |].
  unfold out_value, in_value. rewrite (getIDom_set F iteration entry order m D A b c E).
  destruct (pos order b) as [| n] eqn:En; [lia |]. cbn [in_at]. rewrite No.
  rewrite (proj2 (N.eqb_neq _ _) N), (getIDom_set F iteration entry order m D A b c E).
  by rewrite (in_at_enough a c Sc n (pos order c)) by lia.
Qed.

(** ** The edges *)

Section Edges.
Context (a : ref) (DF : gmap ref (list ref)) (defs : list ref).
Context (HDF : forall x b, reachable F entry x -> b <> entry -> b ∈ frontier DF x <-> in_frontier F entry x b).
Context (HP : forall y, is_Some (phi_of phis y a) <-> iterated_frontier DF defs y).
Context (HD : forall b i v al vo, b ∈ blocks F -> i ∈ getInstructions b F ->
  kind_of i F = Some (StoreInst v a al vo) -> b ∈ defs).

(** A block whose frontier has a block without a phi does not define the value. *)
Lemma frontier_quiet x b : reachable F entry x -> b <> entry -> x <> entry ->
  phi_of phis b a = None -> in_frontier F entry x b -> out_value x a = out_value (getIDom D x) a.
Proof.
  intros Rx Nb Nx No Fr. assert (NR : ~ reached (fun x => frontier DF x) defs x).
  { intros Q. assert (S : is_Some (phi_of phis b a)) by (apply HP; exists x; split; [done | by apply HDF]).
    rewrite No in S. by destruct S. }
  unfold out_value at 1. rewrite after_insts_id.
  - apply in_value_idom; [done | done |]. destruct (phi_of phis x a) eqn:E; [| done].
    exfalso. apply NR. assert (S : is_Some (phi_of phis x a)) by (rewrite E; by eexists).
    apply HP in S as (z & Rz & Hz). by apply reached_next with z.
  - intros i v p al vo Hi K ->. apply NR, reached_root, (HD x i v al vo); [| done | done].
    by apply (reachable_block F iteration entry order m D A).
Qed.

Lemma edge_value b p : b <> entry -> phi_of phis b a = None -> reachable F entry p ->
  b ∈ getSuccessors p F -> in_value b a = out_value p a.
Proof.
  intros Nb No Rp E. pose proof (reachable_succ F entry p b Rp E) as Rb.
  rewrite (in_value_idom b a Nb Rb No).
  assert (Ad : anc m (getIDom D b) p) by by apply (idom_anc_pred F iteration entry rest W C EB order m D A).
  assert (Q : forall x, anc m x p -> anc m (getIDom D b) x -> out_value p a = out_value x a -> out_value p a = out_value (getIDom D b) a).
  { intros x Hx. assert (Sx : set m x) by (apply (anc_set T (b := p)); [by apply RS | done]).
    revert Hx. pattern x. revert x Sx. apply (tree_ind entry order m T).
    - intros _ Q%(anc_entry entry order ND O0 m T) ->. by rewrite Q.
    - intros x c Nx Ec L Sc IH Hx Hd Ex. destruct (decide (x = getIDom D b)) as [-> | N]; [done |].
      assert (Hc : anc m (getIDom D b) c).
      { apply anc_inv in Hd as [? | (c' & E' & ?)]; [by subst |]. by simplify_eq. }
      apply IH; [| done |].
      + apply (anc_trans _ _ x); [| done]. apply anc_up with c; [done | apply anc_refl].
      + rewrite Ex, (frontier_quiet x b).
        * by rewrite (getIDom_set F iteration entry order m D A x c Ec).
        * apply RS. by eexists.
        * done.
        * done.
        * done.
        * apply (between_frontier F iteration entry rest W C EB NE order m D A); [done | apply RS; by eexists |].
          exists p. split.
          { apply elem_of_truePreds. split; [by apply (reachable_block F iteration entry order m D A) | done]. }
          split_and!; [done | done |]. intros Q. pose proof (anc_pos_le T Q). pose proof (anc_pos_le T Hc). lia. }
  symmetry. by apply (Q p); [apply anc_refl | |].
Qed.

Lemma values_reaching : reaching F entry phis in_value out_value a.
Proof.
  split.
  - done.
  - intros b phi _. apply in_value_phi.
  - apply in_value_entry.
  - apply edge_value.
Qed.

End Edges.
End Flow.
