(* ===== verification/Mem2RegSubst.v ===== *)
(** * Promotion of memory to registers: substitutions and cleanup

    The replacements of loads that the renaming makes, as one map from loads to values:
    their effect on an instruction, and how a further [replaceAllUsesInFunction] extends
    the map; and what the cleanup destroys. *)

From S2P Require Import Prelude Diag HIRType MIR MIRModule MIRFacts SimplifyCFG Dominance MIRUses Mem2Reg.

Implicit Types (F H : MIRFunction) (a b i o n v c j : ref) (k : InstKind) (σ : gmap ref ref) (l deadSet : list ref).

(** The value that stands for [v]. *)
Definition sub σ v : ref := default v (σ !! v).

Lemma sub_empty v : sub ∅ v = v.
Proof. unfold sub. by rewrite lookup_empty. Qed.

Lemma sub_other σ v : σ !! v = None -> sub σ v = v.
Proof. intros E. unfold sub. by rewrite E. Qed.

Lemma sub_some σ v w : σ !! v = Some w -> sub σ v = w.
Proof. intros E. unfold sub. by rewrite E. Qed.

(** Replacing one more value, which none of the others stands for. *)
Lemma subst_sub σ o n v :
  σ !! o = None -> (forall u w, σ !! u = Some w -> w <> o) -> subst_ref o n (sub σ v) = sub (<[o := n]> σ) v.
Proof.
  intros No H. unfold sub at 2. destruct (decide (v = o)) as [-> | N].
  - rewrite lookup_insert_eq, (sub_other σ o No). cbn. unfold subst_ref. by rewrite N.eqb_refl.
  - rewrite lookup_insert_ne by done. fold (sub σ v). apply subst_ref_other. unfold sub.
    destruct (σ !! v) as [w |] eqn:E; [by apply (H v) | done].
Qed.

(** The effect of [replaceAllUsesInFunction] on a function that [σ] has been applied to. *)
Lemma kind_of_replace_sub σ o n F i k :
  bbs F !! n = None -> σ !! o = None -> (forall u w, σ !! u = Some w -> w <> o) -> placed F i ->
  kind_of i F = Some (map_values (sub σ) k) ->
  kind_of i (replaceAllUsesInFunction o n F) = Some (map_values (sub (<[o := n]> σ)) k).
Proof.
  intros Nb No H Pl K. destruct (kind_of_replaceAllUses o n F i Nb) as (_ & _ & _ & E & _).
  rewrite E, K by done. cbn [fmap option_fmap option_map]. f_equal.
  rewrite replaceOperand_map, map_values_map. apply map_values_ext. intros v. by apply subst_sub.
Qed.

(** A phi whose values are all others keeps them. *)
Lemma kind_of_replace_phi o n F i inc :
  bbs F !! n = None -> kind_of i F = Some (PhiInst inc) -> (forall v b, (v, b) ∈ inc -> v <> o) ->
  kind_of i (replaceAllUsesInFunction o n F) = Some (PhiInst inc).
Proof.
  intros Nb K H. destruct (kind_of_replaceAllUses o n F i Nb) as (_ & _ & _ & E1 & E2 & _).
  assert (Id : map (fun '(v, b) => (subst_ref o n v, b)) inc = inc).
  { clear K. induction inc as [| [v b] l IH]; [done |]. cbn [map]. rewrite IH.
    - rewrite subst_ref_other; [done |]. apply (H v b). left.
    - intros w c Hw. apply (H w c). by right. }
  destruct (decide (Exists (fun b => i ∈ getInstructions b F) (blocks F))) as [D | D].
  - rewrite E1, K; [| by apply Exists_exists in D]. cbn. by rewrite Id.
  - rewrite E2, K; [done |]. intros Q. by apply D, Exists_exists.
Qed.

(** ** Cleanup

    The promoted loads and stores, and the promoted allocations of the blocks that the
    renaming visited, are destroyed; the rest stays. *)

Lemma free_list_spec l : forall F,
  let H := fold_left (fun F i => free_inst i F) l F in
  bbs H = bbs F /\ blocks H = blocks F /\ next_ref H = next_ref F
  /\ forall j, insts H !! j = if decide (j ∈ l) then None else insts F !! j.
Proof.
  induction l as [| i l IH]; intros F; cbn [fold_left].
  - split_and!; [done | done | done |]. intros j. by rewrite decide_False by apply not_elem_of_nil.
  - destruct (IH (free_inst i F)) as (E1 & E2 & E0 & E3). split_and!; [by rewrite E1 | by rewrite E2 | by rewrite E0 |].
    intros j. rewrite E3. cbn. destruct (decide (j ∈ l)) as [Q | Q].
    + rewrite decide_True; [done | by right].
    + destruct (decide (j = i)) as [-> | N].
      * rewrite lookup_delete_eq, decide_True; [done | left].
      * rewrite lookup_delete_ne by done. rewrite decide_False; [done |]. by rewrite elem_of_cons; intros [? | ?].
Qed.

#[local] Instance in_some_block j l F : Decision (exists b, b ∈ l /\ j ∈ getInstructions b F).
Proof.
  refine (cast_if (decide (Exists (fun b => j ∈ getInstructions b F) l))); abstract (by rewrite <- Exists_exists).
Defined.

(** What the erasure leaves of a function when it goes through the blocks [l]. *)
Record erased deadSet l F H : Prop := {
  er_blocks : blocks H = blocks F;
  er_insts : forall j, insts H !! j =
    if decide (j ∈ deadSet /\ exists b, b ∈ l /\ j ∈ getInstructions b F) then None else insts F !! j;
  er_block : forall b, getInstructions b H =
    if decide (b ∈ l) then filter (fun i => i ∉ deadSet) (getInstructions b F) else getInstructions b F;
  er_edges : forall b, getSuccessors b H = getSuccessors b F /\ getPredecessors b H = getPredecessors b F;
  er_has : forall b, has_block b H <-> has_block b F;
  er_next : next_ref H = next_ref F;
}.

Lemma erase_dead_spec deadSet l : forall F,
  erased deadSet l F (fold_left (erase_dead deadSet) l F).
Proof.
  induction l as [| b l IH]; intros F; cbn [fold_left].
  - split; [done | | | done | done | done].
    + intros j. rewrite decide_False; [done |]. intros (_ & b & Q & _). by apply not_elem_of_nil in Q.
    + intros b. by rewrite decide_False by apply not_elem_of_nil.
  - set (F1 := erase_dead deadSet F b).
    destruct (free_list_spec (filter (fun i => i ∈ deadSet) (getInstructions b F))
      (upd_block b (fun B => with_instructions (filter (fun i => i ∉ deadSet) (instructions B)) B) F)) as (E1 & E2 & E0 & E3).
    fold (erase_dead deadSet F b) in E0, E1, E2, E3. fold F1 in E0, E1, E2, E3.
    assert (Ei : forall c, getInstructions c F1 =
      if decide (c = b) then filter (fun i => i ∉ deadSet) (getInstructions c F) else getInstructions c F).
    { intros c. unfold getInstructions. rewrite E1, bbs_upd_block.
      destruct (decide (c = b)); [| done]. by destruct (bbs F !! c). }
    assert (Es : forall c, getSuccessors c F1 = getSuccessors c F /\ getPredecessors c F1 = getPredecessors c F).
    { intros c. unfold getSuccessors, getPredecessors. rewrite E1, !bbs_upd_block.
      destruct (decide (c = b)); [| done]. by destruct (bbs F !! c). }
    destruct (IH F1) as [B1 B2 B3 B4 B5 B6]. split.
    + by rewrite B1, E2.
    + intros j. rewrite B2, E3. cbn [insts upd_block set_bbs].
      rewrite (decide_ext (j ∈ filter (fun i => i ∈ deadSet) (getInstructions b F)) (j ∈ deadSet /\ j ∈ getInstructions b F))
        by by rewrite list_elem_of_filter.
      assert (Q : (j ∈ deadSet /\ exists c, c ∈ b :: l /\ j ∈ getInstructions c F) <->
                  (j ∈ deadSet /\ exists c, c ∈ l /\ j ∈ getInstructions c F1) \/ (j ∈ deadSet /\ j ∈ getInstructions b F)).
      { split.
        - intros (Hd & c & Hc & Hj). destruct (decide (c = b)) as [-> | Nc]; [by right | left]. split; [done |].
          exists c. apply elem_of_cons in Hc as [? | Hc]; [done |]. split; [done |]. by rewrite Ei, decide_False.
        - intros [(Hd & c & Hc & Hj) | [Hd Hj]]; (split; [done |]); [exists c | exists b]; (split; [by constructor |]); [| done].
          rewrite Ei in Hj. case_decide as D; [subst c | done]. by apply list_elem_of_filter in Hj as [_ ?]. }
      destruct (decide (j ∈ deadSet /\ exists c, c ∈ b :: l /\ j ∈ getInstructions c F)) as [D | D]; rewrite Q in D.
      * destruct (decide (j ∈ deadSet /\ exists c, c ∈ l /\ j ∈ getInstructions c F1)); [done |].
        rewrite decide_True; [done | tauto].
      * by rewrite !decide_False by tauto.
    + intros c. rewrite B3, !Ei. destruct (decide (c = b)) as [-> | Nc].
      * rewrite (decide_True (P := b ∈ b :: l)) by left. case_decide; [| done].
        rewrite list_filter_filter. apply filter_iff_in. tauto.
      * rewrite (decide_ext (c ∈ b :: l) (c ∈ l)); [done |]. rewrite elem_of_cons. tauto.
    + intros c. destruct (B4 c) as [-> ->]. apply Es.
    + intros c. rewrite B5. unfold has_block. rewrite E1. apply has_block_upd.
    + by rewrite B6, E0.
Qed.
