(* ===== verification/Mem2RegRename.v ===== *)
(** * Promotion of memory to registers: renaming

    The traversal of the dominator tree: every promoted load of a reachable block is replaced
    by the value that reaches it, and every phi gets from each reachable predecessor the value
    at its end. *)

From S2P Require Import Prelude Diag HIRType MIR MIRModule MIRFacts SimplifyCFG SimplifyCFGProps Dominance.
From S2P Require Import DominanceTree DominanceLoop DominanceProps DominanceClaims MIRUses.
From S2P Require Import Mem2Reg Mem2RegFrontier Mem2RegPhis Mem2RegSubst.

Implicit Types (F H : MIRFunction) (D : MIRDominance) (M : MIRModule) (R : Renaming) (a b c d i n p v x y phi L : ref) (phis : BlockPhis) (o : option ref) (k : InstKind) (σ : gmap ref ref) (counts : gmap ref nat).

(** Modules that keep the constants they have. *)
Record keeps_consts M M' : Prop := {
  kc_next : (m_next M <= m_next M')%N;
  kc_consts : forall v, (v < m_next M)%N -> consts M' !! v = consts M !! v;
}.

#[export] Instance keeps_consts_preorder : PreOrder keeps_consts.
Proof.
  split; [done |]. intros M1 M2 M3 [A1 A2] [B1 B2]. split; [lia |].
  intros v L. rewrite B2 by lia. by apply A2.
Qed.

Definition is_undef M v : Prop :=
  (v < m_next M)%N /\ exists t, consts M !! v = Some {| c_kind := ConstantUndef; c_type := t |}.

Lemma elem_of_middle (x : ref) l1 l2 : x ∈ l1 ++ x :: l2.
Proof. apply elem_of_app. right. left. Qed.

(** The position of an element of a list without duplicates. *)
Lemma split_unique (x : ref) : forall (l1 l2 r1 r2 : list ref),
  l1 ++ x :: r1 = l2 ++ x :: r2 -> NoDup (l1 ++ x :: r1) -> l1 = l2.
Proof.
  induction l1 as [| y l1 IH]; intros [| z l2] r1 r2 E N; cbn in *; [done | | |].
  - injection E as <- E. apply NoDup_cons in N as [N _]. exfalso. apply N. rewrite E. apply elem_of_middle.
  - injection E as -> E. apply NoDup_cons in N as [N _]. exfalso. apply N, elem_of_middle.
  - injection E as -> E. apply NoDup_cons in N as [_ N]. f_equal. by apply (IH l2 r1 r2).
Qed.

Section Rename.
Context (F : MIRFunction) (entry : ref) (order : list ref) (D : MIRDominance).
Context (tys : TypeHeap) (phis : BlockPhis) (G : MIRFunction) (PP : placed_phis tys F phis G).
Context (PS : list ref).

Abbreviation inv b a := (in_value F entry order D phis b a).
Abbreviation outv b a := (out_value F entry order D phis b a).

(** A load of a promoted allocation. *)
Definition pload L : Prop := exists p al vo, kind_of L F = Some (LoadInst p al vo) /\ p ∈ PS.

(** A value that is no such load, no promoted allocation, not null and no block. *)
Definition plain v : Prop := ~ pload v /\ (v ∉ PS) /\ v <> nullptr /\ bbs F !! v = None.

(** What the renaming relies on: the shape of the function, phis for promoted allocations
    only, and values that are computed before they are stored. *)
Record renamable : Prop := {
  rb_succs : forall b, reachable F entry b -> NoDup (getSuccessors b F);
  rb_held : forall b i, b ∈ blocks F -> i ∈ getInstructions b F -> is_Some (insts F !! i);
  rb_nodup : forall b, b ∈ blocks F -> NoDup (getInstructions b F);
  rb_apart : forall b c i, b ∈ blocks F -> c ∈ blocks F ->
    i ∈ getInstructions b F -> i ∈ getInstructions c F -> b = c;
  rb_fresh : forall i, is_Some (insts F !! i) -> (i < next_ref F)%N;
  rb_bfresh : forall b, has_block b F -> (b < next_ref F)%N;
  rb_reach : forall b, reachable F entry b -> b ∈ blocks F;
  rb_blocks : forall b, b ∈ blocks F -> has_block b F;
  rb_alloca : forall a, a ∈ PS -> is_alloca F a = true /\ placed F a;
  rb_phis : forall y a, is_Some (phi_of phis y a) -> a ∈ PS;
  rb_stored : forall b pre i post v p al vo, reachable F entry b ->
    getInstructions b F = pre ++ i :: post -> kind_of i F = Some (StoreInst v p al vo) -> p ∈ PS ->
    (v ∉ PS) /\ v <> nullptr /\ bbs F !! v = None
    /\ (pload v -> v ∈ pre \/ exists c, c <> b /\ dominator F entry c b /\ v ∈ getInstructions c F);
}.

Context (RB : renamable).

Lemma alloca_kind a : a ∈ PS -> exists ty al, kind_of a F = Some (AllocaInst ty al).
Proof.
  intros [E _]%(rb_alloca RB). unfold is_alloca in E.
  destruct (kind_of a F) as [k |]; [| done]. destruct k; try done. by eexists _, _.
Qed.

Lemma pload_apart L : pload L -> L ∉ PS.
Proof. intros (p & al & vo & K & _) (ty & al' & K')%alloca_kind. by simplify_eq. Qed.

Lemma pload_heap L : pload L -> is_Some (insts F !! L).
Proof. intros (p & al & vo & K & _). unfold kind_of in K. by apply fmap_Some in K as (J & -> & _). Qed.

(** An address that is not in use yet. *)
Lemma plain_fresh v : (next_ref F <= v)%N -> v <> nullptr -> plain v.
Proof.
  intros Lv Nv. split_and!; [| | done |].
  - intros S%pload_heap%(rb_fresh RB). lia.
  - intros (ty & al & K)%alloca_kind. unfold kind_of in K. apply fmap_Some in K as (J & E & _).
    assert (S : is_Some (insts F !! v)) by (by eexists). apply (rb_fresh RB) in S. lia.
  - destruct (bbs F !! v) eqn:E; [| done]. assert (S : has_block v F) by (by eexists).
    apply (rb_bfresh RB) in S. lia.
Qed.

Lemma plain_new v b : reachable F entry b -> (next_ref F <= v)%N -> plain v.
Proof.
  intros Rb Lv. apply plain_fresh; [done |]. intros ->.
  apply (rb_reach RB), (rb_blocks RB), (rb_bfresh RB) in Rb. unfold nullptr in Lv. lia.
Qed.

(** The substitution grows; what stands for a value it knows, or needs not know, stays. *)
Definition extends σ σ' : Prop := σ ⊆ σ' /\ forall L, is_Some (σ' !! L) -> pload L.

Lemma sub_extends σ σ' v : extends σ σ' -> plain (sub σ v) -> sub σ' v = sub σ v.
Proof.
  intros [Sub Dom] (N & _). unfold sub. destruct (σ !! v) as [w |] eqn:E.
  - by rewrite (lookup_weaken _ _ _ _ E Sub).
  - destruct (σ' !! v) as [w |] eqn:E'; [| done]. exfalso. apply N. unfold sub. rewrite E. cbn.
    apply Dom. by eexists.
Qed.

(** The value that takes the place of a reaching definition. *)
Definition fills σ M v o : Prop :=
  plain v /\ match o with Some u => v = sub σ u | None => is_undef M v end.

Lemma fills_mono σ σ' M M' v o :
  extends σ σ' -> keeps_consts M M' -> fills σ M v o -> fills σ' M' v o.
Proof.
  intros X [K1 K2] [P Q]. split; [done |]. destruct o as [u |].
  - subst v. by rewrite (sub_extends σ σ').
  - destruct Q as (Lv & t & E). split; [lia |]. exists t. by rewrite K2.
Qed.

(** The state of the traversal: the blocks [V] are done, with every phi of a pair in [dn]
    filled from the block [cb] as well, and the instructions [seen] have been visited. *)
Record renamed (V : list ref) cb (dn : list (ref * ref)) (seen : list ref) σ M H : Prop := {
  rn_blocks : blocks H = blocks G;
  rn_bbs : bbs H = bbs G;
  rn_insts : forall i, is_Some (insts H !! i) <-> is_Some (insts G !! i);
  rn_next : (next_ref G <= m_next M)%N;
  rn_kind : forall i, placed F i -> kind_of i H = map_values (sub σ) <$> kind_of i F;
  rn_phi : forall y a phi, phi_of phis y a = Some phi -> exists inc,
    kind_of phi H = Some (PhiInst inc)
    /\ map snd inc = filter (fun p => y ∈ getSuccessors p F) V
         ++ (if bool_decide ((y, a) ∈ dn) then [cb] else [])
    /\ forall v p, (v, p) ∈ inc -> fills σ M v (outv p a);
  rn_dom : forall L, is_Some (σ !! L) <-> pload L /\ L ∈ seen;
  rn_val : forall L v, σ !! L = Some v -> plain v;
  rn_load : forall b pre L post p al vo, reachable F entry b ->
    getInstructions b F = pre ++ L :: post -> L ∈ seen -> kind_of L F = Some (LoadInst p al vo) ->
    p ∈ PS -> exists v, σ !! L = Some v /\ fills σ M v (after_insts F p pre (inv b p));
}.

Lemma phi_not_old y a phi : phi_of phis y a = Some phi -> (next_ref F <= phi)%N /\ kind_of phi F = None.
Proof.
  intros (A' & _ & _ & L & _)%(pp_phi _ _ _ _ PP). split; [done |].
  unfold kind_of. destruct (insts F !! phi) eqn:E; [| done].
  assert (S : is_Some (insts F !! phi)) by (by eexists). apply (rb_fresh RB) in S. lia.
Qed.

Lemma placed_G i : placed F i -> placed G i.
Proof.
  intros (b & Hb & Hi). exists b. rewrite (pp_blocks _ _ _ _ PP). split; [done |].
  destruct (pp_insts _ _ _ _ PP b) as (new & -> & _); [by apply (rb_blocks RB) |].
  apply elem_of_app. by right.
Qed.

Lemma renamed_extends V cb dn seen σ M H V' cb' dn' seen' σ' M' H' :
  renamed V cb dn seen σ M H -> renamed V' cb' dn' seen' σ' M' H' ->
  (forall L v, σ !! L = Some v -> σ' !! L = Some v) -> extends σ σ'.
Proof.
  intros _ I Q. split.
  - intros L. destruct (σ !! L) as [v |] eqn:E; cbn; [by rewrite (Q L v E) | by destruct (σ' !! L)].
  - intros L S. by apply (rn_dom _ _ _ _ _ _ _ I) in S as [? _].
Qed.

(** Visiting an instruction that is no promoted load changes nothing. *)
Lemma renamed_skip V cb dn seen σ M H i :
  renamed V cb dn seen σ M H -> ~ pload i -> renamed V cb dn (seen ++ [i]) σ M H.
Proof.
  intros [A1 A2 A3 A4 A5 A6 A7 A8 A9] N. split; try done.
  - intros L. rewrite A7, elem_of_app, list_elem_of_singleton. split; [tauto |].
    intros [P [? | ->]]; [done | done].
  - intros b pre L post p al vo Rb E Hs K Hp. apply (A9 b pre L post p al vo); try done.
    apply elem_of_app in Hs as [? | ->%list_elem_of_singleton]; [done |]. exfalso. apply N. by eexists _, _, _.
Qed.

(** Replacing a promoted load. *)
Lemma renamed_load V cb dn seen σ M H b pre L post p al vo v :
  renamed V cb dn seen σ M H -> reachable F entry b -> getInstructions b F = pre ++ L :: post ->
  L ∉ seen -> kind_of L F = Some (LoadInst p al vo) -> p ∈ PS ->
  fills σ M v (after_insts F p pre (inv b p)) ->
  extends σ (<[L := v]> σ)
  /\ renamed V cb dn (seen ++ [L]) (<[L := v]> σ) M (replaceAllUsesInFunction L v H).
Proof.
  intros I Rb E Nl K Hp Fv. pose proof I as [A1 A2 A3 A4 A5 A6 A7 A8 A9].
  assert (PL : pload L) by by eexists _, _, _.
  assert (No : σ !! L = None).
  { destruct (σ !! L) eqn:Q; [| done]. exfalso. assert (S : is_Some (σ !! L)) by (by eexists).
    by apply A7 in S as [_ ?]. }
  assert (X : extends σ (<[L := v]> σ)).
  { split; [by apply insert_subseteq |]. intros L' [w Q].
    apply lookup_insert_Some in Q as [[<- _] | [_ Q]]; [done |]. apply A7. by eexists. }
  split; [done |]. pose proof Fv as [(Pv1 & Pv2 & Pv3 & Pv4) _].
  assert (Nb : bbs H !! v = None).
  { rewrite A2. destruct (bbs G !! v) eqn:Q; [| done]. exfalso.
    assert (S : has_block v G) by (by eexists). apply (pp_has _ _ _ _ PP) in S as [B S]. congruence. }
  assert (NL : forall u w, σ !! u = Some w -> w <> L).
  { intros u w Q ->. by apply A8 in Q as [Q _]. }
  destruct (kind_of_replaceAllUses L v H L Nb) as (B1 & B2 & _).
  split.
  - by rewrite B1.
  - by rewrite B2.
  - intros i. rewrite <- A3. destruct (kind_of_replaceAllUses L v H i Nb) as (_ & _ & _ & _ & _ & Q). exact Q.
  - done.
  - intros i Pi. pose proof (A5 i Pi) as Q. destruct (kind_of i F) as [k |] eqn:Ki; cbn in Q |- *.
    + apply kind_of_replace_sub; [done | done | done | | done].
      destruct (placed_G i Pi) as (c & Hc & Hi). exists c. rewrite A1. split; [done |].
      unfold getInstructions in *. by rewrite A2.
    + unfold kind_of in Q |- *. destruct (insts (replaceAllUsesInFunction L v H) !! i) eqn:Q'; [| done].
      destruct (kind_of_replaceAllUses L v H i Nb) as (_ & _ & _ & _ & _ & S).
      assert (S' : is_Some (insts H !! i)) by (apply S; by eexists). destruct S' as [J EJ]. by rewrite EJ in Q.
  - intros y a phi Ph. destruct (A6 y a phi Ph) as (inc & Q1 & Q2 & Q3). exists inc. split_and!; [| done |].
    + apply kind_of_replace_phi; [done | done |]. intros w q Hw ->. by apply Q3 in Hw as [[Q _] _].
    + intros w q Hw. by apply (fills_mono σ _ M M _ _ X), Q3.
  - intros L'. rewrite elem_of_app, list_elem_of_singleton. destruct (decide (L' = L)) as [-> | N].
    + rewrite lookup_insert_eq. split; [intros _; by split; [| right] | by eexists].
    + rewrite lookup_insert_ne, A7 by done. tauto.
  - intros L' w Q. apply lookup_insert_Some in Q as [[<- <-] | [_ Q]]; [apply Fv | by apply (A8 L')].
  - intros b' pre' L' post' p' al' vo' Rb' E' Hs K' Hp'. destruct (decide (L' = L)) as [-> | N].
    + assert (b' = b) as ->.
      { apply (rb_apart RB _ _ L); [by apply (rb_reach RB) | by apply (rb_reach RB) | rewrite E' | rewrite E]; apply elem_of_middle. }
      assert (pre = pre') as <-.
      { apply (split_unique L pre pre' post post'); [by rewrite <- E, <- E' |]. rewrite <- E. by apply (rb_nodup RB), (rb_reach RB). }
      simplify_eq. exists v. rewrite lookup_insert_eq. split; [done |]. by apply (fills_mono σ _ M M _ _ X).
    + assert (Hs' : L' ∈ seen) by (apply elem_of_app in Hs as [? | ->%list_elem_of_singleton]; done).
      destruct (A9 b' pre' L' post' p' al' vo' Rb' E' Hs' K' Hp') as (w & Q1 & Q2). exists w.
      rewrite lookup_insert_ne by done. split; [done |]. by apply (fills_mono σ _ M M _ _ X).
Qed.

End Rename.

(** ** The traversal

    One instruction, one block and the whole dominator tree of [renameDFS], in terms of the
    state of [Mem2RegRename]. *)

Lemma stack_of_push a v counts R a' :
  stack_of a' (snd (push_value a v (counts, R))) = if decide (a' = a) then v :: stack_of a R else stack_of a' R.
Proof.
  unfold stack_of. cbn [push_value snd valueStacks]. case_decide as E.
  - subst a'. by rewrite lookup_insert_eq.
  - by rewrite lookup_insert_ne.
Qed.

(** The definitions that a block has pushed on the stacks [old]. *)
Definition pushed counts R (old : ref -> list ref) : Prop :=
  forall a, drop (default 0 (counts !! a)) (stack_of a R) = old a.

Lemma pushed_value a v counts R old :
  pushed counts R old -> pushed (fst (push_value a v (counts, R))) (snd (push_value a v (counts, R))) old.
Proof.
  intros P a'. rewrite stack_of_push. cbn [push_value fst]. case_decide as E.
  - subst a'. rewrite lookup_insert_eq. cbn [from_option id drop]. apply P.
  - rewrite lookup_insert_ne by done. apply P.
Qed.

Lemma stack_of_pop counts R a :
  stack_of a (pop_values counts R) = drop (default 0 (counts !! a)) (stack_of a R).
Proof.
  unfold pop_values, stack_of. cbn [valueStacks].
  assert (Q : forall l (S : gmap ref (list ref)), NoDup l.*1 ->
    default [] (fold_left (fun S '(alloca, count) =>
       <[alloca := drop count (default [] (S !! alloca))]> S) l S !! a)
    = drop (default 0 ((list_to_map l : gmap ref nat) !! a)) (default [] (S !! a))).
  { induction l as [| [c n] l IH]; intros S N; cbn [fold_left].
    - cbn [list_to_map foldr]. by rewrite lookup_empty.
    - rewrite fmap_cons in N. apply NoDup_cons in N as [N1 N2]. rewrite IH, list_to_map_cons by done.
      destruct (decide (a = c)) as [-> | Nc].
      + rewrite !lookup_insert_eq. apply not_elem_of_list_to_map_1 in N1. cbn [fst] in N1. by rewrite N1.
      + by rewrite !lookup_insert_ne. }
  rewrite Q by apply NoDup_fst_map_to_list. by rewrite list_to_map_to_list.
Qed.

Section Traverse.
Context (F : MIRFunction) (entry : ref) (order : list ref) (D : MIRDominance).
Context (tys : TypeHeap) (phis : BlockPhis) (G : MIRFunction) (PP : placed_phis tys F phis G).
Context (PS : list ref) (RB : renamable F entry phis PS).

Abbreviation inv b a := (in_value F entry order D phis b a).
Abbreviation outv b a := (out_value F entry order D phis b a).
Abbreviation renamed := (renamed F entry order D phis G PS).
Abbreviation fills := (fills F PS).
Abbreviation plain := (plain F PS).
Abbreviation pload := (pload F PS).
Abbreviation extends := (extends F PS).

(** The stack of an allocation has the definition that reaches. *)
Definition top σ R a o : Prop :=
  match o with
  | Some u => head (stack_of a R) = Some (sub σ u) /\ plain (sub σ u)
  | None => stack_of a R = []
  end.

Definition tops σ R (o : ref -> option ref) : Prop := forall a, a ∈ PS -> top σ R a (o a).

Lemma top_ext σ σ' R R' a o :
  extends σ σ' -> stack_of a R' = stack_of a R -> top σ R a o -> top σ' R' a o.
Proof.
  intros X E. unfold top. rewrite E. destruct o as [u |]; [| done].
  intros [H P]. by rewrite (sub_extends F PS σ σ').
Qed.

(** ** A new undefined value *)

Lemma fresh_undef_spec t R c R' :
  fresh_undef t R = (c, R') ->
  c = m_next (r_module R) /\ r_function R' = r_function R /\ (forall a, stack_of a R' = stack_of a R)
  /\ toDelete R' = toDelete R /\ keeps_consts (r_module R) (r_module R') /\ is_undef (r_module R') c.
Proof.
  unfold fresh_undef, getOrInsertConstant. intros [= <- <-]. split_and!; [done | done | done | done | |].
  - split; cbn; [lia |]. intros v L. by rewrite lookup_insert_ne by lia.
  - split; cbn; [lia |]. exists t. by rewrite lookup_insert_eq.
Qed.

Lemma renamed_keeps V cb dn seen σ M M' H :
  renamed V cb dn seen σ M H -> keeps_consts M M' -> renamed V cb dn seen σ M' H.
Proof.
  intros I K. pose proof I as [A1 A2 A3 A4 A5 A6 A7 A8 A9].
  assert (X : extends σ σ) by (split; [done | intros L S; by apply A7 in S as [? _]]).
  split; try done.
  - pose proof (kc_next _ _ K). lia.
  - intros y a phi Ph. destruct (A6 y a phi Ph) as (inc & ? & ? & Q). exists inc. split_and!; [done | done |].
    intros v p Hv. by apply (fills_mono F PS σ σ M), Q.
  - intros b pre L post p al vo Rb E Hs Kl Hp. destruct (A9 b pre L post p al vo Rb E Hs Kl Hp) as (v & ? & ?).
    exists v. split; [done |]. by apply (fills_mono F PS σ σ M).
Qed.

(** What fills the place of a definition: the top of the stack, or a new undefined value. *)
Lemma fills_top V cb dn seen σ R a u b :
  renamed V cb dn seen σ (r_module R) (r_function R) -> reachable F entry b ->
  top σ R a (Some u) -> fills σ (r_module R) (sub σ u) (Some u).
Proof. intros _ _ [_ P]. split; [exact P | done]. Qed.

Lemma fills_undef V cb dn seen σ t R c R' b :
  renamed V cb dn seen σ (r_module R) (r_function R) -> reachable F entry b ->
  fresh_undef t R = (c, R') -> fills σ (r_module R') c None.
Proof.
  intros I Rb E. destruct (fresh_undef_spec t R c R' E) as (-> & _ & _ & _ & _ & U). split; [| done].
  apply (plain_new F entry phis PS RB _ b); [done |].
  pose proof (rn_next _ _ _ _ _ _ _ _ _ _ _ _ _ _ I). pose proof (pp_next _ _ _ _ PP). lia.
Qed.

(** ** One instruction *)

Lemma promoted_sub V cb dn seen σ M H p :
  renamed V cb dn seen σ M H -> promoted H PS (sub σ p) = bool_decide (p ∈ PS) /\ (p ∈ PS -> sub σ p = p).
Proof.
  intros I. assert (Q : p ∈ PS -> sub σ p = p).
  { intros Hp. apply sub_other. destruct (σ !! p) eqn:E; [| done]. exfalso.
    assert (S : is_Some (σ !! p)) by (by eexists).
    apply (rn_dom _ _ _ _ _ _ _ _ _ _ _ _ _ _ I) in S as [S _]. by apply (pload_apart F entry phis PS RB) in S. }
  split; [| done]. unfold promoted. destruct (decide (p ∈ PS)) as [Hp | Hp].
  - rewrite (Q Hp), bool_decide_eq_true_2, andb_true_r by done.
    destruct (rb_alloca _ _ _ _ RB p Hp) as [_ Pl]. destruct (alloca_kind F entry phis PS RB p Hp) as (ty & al & K).
    unfold is_alloca. by rewrite (rn_kind _ _ _ _ _ _ _ _ _ _ _ _ _ _ I p Pl), K.
  - rewrite (bool_decide_eq_false_2 (p ∈ PS)) by done. rewrite bool_decide_eq_false_2, andb_false_r; [done |].
    unfold sub. destruct (σ !! p) as [w |] eqn:E; [| done].
    apply (rn_val _ _ _ _ _ _ _ _ _ _ _ _ _ _ I) in E as (_ & ? & _). done.
Qed.

Lemma after_insts_snoc a l i o :
  after_insts F a (l ++ [i]) o = after_store F a (after_insts F a l o) i.
Proof. unfold after_insts. by rewrite fold_left_app. Qed.

(** The instructions that the renaming marks for deletion. *)
Definition dead_inst i : bool :=
  match kind_of i F with
  | Some (LoadInst p _ _) | Some (StoreInst _ p _ _) => bool_decide (p ∈ PS)
  | Some (AllocaInst _ _) => bool_decide (i ∈ PS)
  | _ => false
  end.

(** What one visit does: the values of the allocations become those after the instruction. *)
Record visited_inst V cb dn seen σ R R' counts' i (old : ref -> list ref) (o : ref -> option ref) σ' : Prop := {
  vi_extends : extends σ σ';
  vi_renamed : renamed V cb dn seen σ' (r_module R') (r_function R');
  vi_tops : tops σ' R' o;
  vi_pushed : pushed counts' R' old;
  vi_delete : toDelete R' = toDelete R ++ (if dead_inst i then [i] else []);
  vi_keeps : keeps_consts (r_module R) (r_module R');
}.

Section Inst.
Context (b : ref) (pre post : list ref) (i : ref) (J0 : MIRInst) (V : list ref) (cb : ref) (dn : list (ref * ref)) (S : list ref).
Context (σ : gmap ref ref) (R : Renaming) (counts : gmap ref nat) (old : ref -> list ref).
Context (Rb : reachable F entry b) (E : getInstructions b F = pre ++ i :: post) (EJ0 : insts F !! i = Some J0).
Context (S1 : forall j, j ∈ S <-> exists c, c ∈ V /\ j ∈ getInstructions c F).
Context (VB : forall c, c ∈ V -> c ∈ blocks F) (Nb : b ∉ V).
Context (Anc : forall c, c <> b -> dominator F entry c b -> c ∈ V).
Context (I : renamed V cb dn (S ++ pre) σ (r_module R) (r_function R)).
Context (Tp : tops σ R (fun a => after_insts F a pre (inv b a))) (Pu : pushed counts R old).

Abbreviation seen' := ((S ++ pre) ++ [i]).
Abbreviation after := (fun a => after_insts F a (pre ++ [i]) (inv b a)).

Lemma inst_kind : kind_of i F = Some (i_kind J0).
Proof. unfold kind_of. by rewrite EJ0. Qed.

Lemma inst_extends : extends σ σ.
Proof.
  split; [done |]. intros L Q. by apply (rn_dom _ _ _ _ _ _ _ _ _ _ _ _ _ _ I) in Q as [? _].
Qed.

(** An instruction that neither loads from nor stores to a promoted allocation. *)
Lemma inst_skip R' : ~ pload i ->
  (forall a, a ∈ PS -> after_store F a (after_insts F a pre (inv b a)) i = after_insts F a pre (inv b a)) ->
  r_module R' = r_module R -> r_function R' = r_function R -> (forall a, stack_of a R' = stack_of a R) ->
  toDelete R' = toDelete R ++ (if dead_inst i then [i] else []) ->
  visited_inst V cb dn seen' σ R R' counts i old after σ.
Proof.
  intros NL NS E1 E2 E3 E4. split; [apply inst_extends | | | | done | by rewrite E1].
  - rewrite E1, E2. by apply renamed_skip.
  - intros a Ha. rewrite after_insts_snoc, NS by done. apply (top_ext σ σ R); [apply inst_extends | apply E3 | by apply Tp].
  - intros a. rewrite E3. apply Pu.
Qed.

Lemma inst_new : i ∉ S ++ pre.
Proof.
  pose proof (rb_reach _ _ _ _ RB b Rb) as Hb.
  assert (Hi : i ∈ getInstructions b F) by (rewrite E; apply elem_of_middle).
  rewrite elem_of_app. intros [Q | Q].
  - apply S1 in Q as (c & Hc & Hic). apply Nb. by rewrite (rb_apart _ _ _ _ RB b c i Hb (VB c Hc) Hi Hic).
  - pose proof (rb_nodup _ _ _ _ RB b Hb) as N. rewrite E in N. apply NoDup_app in N as (_ & N & _).
    apply (N i Q). left.
Qed.

(** A promoted load, replaced by [v] after a step to [R1] that may add a constant. *)
Lemma inst_load p al vo v R1 : kind_of i F = Some (LoadInst p al vo) -> p ∈ PS ->
  r_function R1 = r_function R -> (forall a, stack_of a R1 = stack_of a R) -> toDelete R1 = toDelete R ->
  keeps_consts (r_module R) (r_module R1) -> fills σ (r_module R1) v (after_insts F p pre (inv b p)) ->
  exists σ', visited_inst V cb dn seen' σ R
    (push_delete i {| r_module := r_module R1; r_function := replaceAllUsesInFunction i v (r_function R);
                      valueStacks := valueStacks R1; toDelete := toDelete R1 |}) counts i old after σ'.
Proof.
  intros K0 Hp E1 E2 E3 E4 Fv.
  destruct (renamed_load F entry order D tys phis G PP PS RB V cb dn (S ++ pre) σ (r_module R1) (r_function R)
              b pre i post p al vo v) as [X' I']; try done; [by apply (renamed_keeps _ _ _ _ _ (r_module R)) | apply inst_new |].
  exists (<[i := v]> σ). split; [done | exact I' | | | | done].
  - intros a Ha. rewrite after_insts_snoc. unfold after_store. rewrite K0.
    apply (top_ext σ _ R); [done | by apply E2 | by apply Tp].
  - intros a. etransitivity; [| apply Pu]. f_equal. apply E2.
  - cbn. unfold dead_inst. by rewrite K0, bool_decide_eq_true_2, E3.
Qed.

(** A store to a promoted allocation. *)
Lemma inst_store v p al vo : kind_of i F = Some (StoreInst v p al vo) -> p ∈ PS ->
  let st := push_value p (sub σ v) (counts, R) in
  visited_inst V cb dn seen' σ R (push_delete i (snd st)) (fst st) i old after σ.
Proof.
  intros K0 Hp st. destruct (rb_stored _ _ _ _ RB b pre i post v p al vo Rb E K0 Hp) as (V1 & V2 & V3 & V4).
  assert (Pv : plain (sub σ v)).
  { destruct (σ !! v) as [w |] eqn:Ev.
    - rewrite (sub_some _ _ _ Ev). by apply (rn_val _ _ _ _ _ _ _ _ _ _ _ _ _ _ I v).
    - rewrite (sub_other _ _ Ev). split; [| done]. intros PL.
      assert (Sv : is_Some (σ !! v)); [| rewrite Ev in Sv; by destruct Sv].
      apply (rn_dom _ _ _ _ _ _ _ _ _ _ _ _ _ _ I). split; [done |]. apply elem_of_app.
      destruct (V4 PL) as [? | (c & Nc & Dc & Hv)]; [by right | left]. apply S1. exists c. split; [by apply Anc | done]. }
  split; [apply inst_extends | | | | | done].
  - cbn. apply renamed_skip; [done |]. intros (? & ? & ? & Q & _). congruence.
  - intros a Ha. rewrite after_insts_snoc. unfold after_store. rewrite K0.
    pose proof (stack_of_push p (sub σ v) counts R a) as Q.
    destruct (N.eqb_spec p a) as [-> | Np].
    + rewrite decide_True in Q by done. unfold top. split; [| done]. unfold stack_of in *. cbn in *. by rewrite Q.
    + rewrite decide_False in Q by done. apply (top_ext σ σ R); [apply inst_extends | exact Q | by apply Tp].
  - apply (pushed_value p (sub σ v) counts R old Pu).
  - cbn. unfold dead_inst. by rewrite K0, bool_decide_eq_true_2.
Qed.

(** The instruction as the renaming finds it. *)
Lemma inst_now : exists J, insts (r_function R) !! i = Some J /\ i_kind J = map_values (sub σ) (i_kind J0).
Proof.
  assert (Pl : placed F i).
  { exists b. split; [by apply (rb_reach _ _ _ _ RB) | rewrite E; apply elem_of_middle]. }
  pose proof (rn_kind _ _ _ _ _ _ _ _ _ _ _ _ _ _ I i Pl) as K. rewrite inst_kind in K.
  unfold kind_of in K. cbn in K. apply fmap_Some in K as (J & EJ & EK). by exists J.
Qed.

Lemma rename_inst_ok :
  exists σ', let st := rename_inst PS (counts, R) i in
    visited_inst V cb dn (S ++ pre ++ [i]) σ R (snd st) (fst st) i old after σ'.
Proof.
  rewrite !app_assoc. pose proof inst_kind as K0. destruct inst_now as (J & EJ & EK).
  unfold rename_inst. rewrite EJ, EK. destruct (i_kind J0) eqn:Ki; cbn [map_values];
    try (exists σ; apply inst_skip; [intros (? & ? & ? & Q & _); rewrite K0 in Q; discriminate Q
      | intros a _; unfold after_store; by rewrite K0 | done | done | done | unfold dead_inst; by rewrite K0, app_nil_r]).
  - exists σ. case_bool_decide as Hi; (apply inst_skip; [intros (? & ? & ? & Q & _); rewrite K0 in Q; discriminate Q
      | intros a _; unfold after_store; by rewrite K0 | done | done | done | unfold dead_inst; rewrite K0]).
    + by rewrite bool_decide_eq_true_2.
    + by rewrite bool_decide_eq_false_2, app_nil_r.
  - destruct (promoted_sub _ _ _ _ _ _ _ ptr I) as [-> Sp]. case_bool_decide as Hp.
    + rewrite (Sp Hp). specialize (Tp ptr Hp) as Tpp. unfold top in Tpp.
      destruct (after_insts F ptr pre (inv b ptr)) as [u |] eqn:Eo.
      * destruct Tpp as [Hh Pu']. rewrite Hh. cbn [from_option id].
        rewrite (proj2 (N.eqb_neq _ _)) by (by apply Pu'). cbn [fst snd].
        eapply (inst_load ptr _ _ (sub σ u) R); [done | done | done | done | done | done |]. by rewrite Eo.
      * rewrite Tpp. cbn [head from_option id]. rewrite N.eqb_refl.
        destruct (fresh_undef (i_type J) R) as [c R1] eqn:EU. cbn [fst snd].
        destruct (fresh_undef_spec _ _ _ _ EU) as (_ & E1 & E2 & E3 & E4 & _).
        eapply (inst_load ptr _ _ c R1); [done | done | done | done | done | done |]. rewrite Eo.
        by apply (fills_undef V cb dn (S ++ pre) σ (i_type J) R c R1 b).
    + exists σ. apply inst_skip; [| | done | done | done |].
      * intros (p' & ? & ? & Q & Hp'). rewrite K0 in Q. by injection Q as -> _ _.
      * intros a _. unfold after_store. by rewrite K0.
      * unfold dead_inst. by rewrite K0, bool_decide_eq_false_2, app_nil_r.
  - destruct (promoted_sub _ _ _ _ _ _ _ ptr I) as [-> Sp]. case_bool_decide as Hp.
    + rewrite (Sp Hp). exists σ. by apply (inst_store val ptr alignment isVolatile).
    + exists σ. apply inst_skip; [| | done | done | done |].
      * intros (? & ? & ? & Q & _). congruence.
      * intros a Ha. unfold after_store. rewrite K0. rewrite (proj2 (N.eqb_neq _ _)); [done |]. by intros ->.
      * unfold dead_inst. by rewrite K0, bool_decide_eq_false_2, app_nil_r.
Qed.

End Inst.

End Traverse.
