(* ===== verification/Mem2RegDFS.v ===== *)
(** * Promotion of memory to registers: the whole traversal

    [renameDFS] from the entry visits every reachable block once and ends. *)

From S2P Require Import Prelude Diag HIRType MIR MIRModule MIRFacts SimplifyCFG SimplifyCFGProps.
From S2P Require Import Dominance DominanceTree DominanceLoop DominanceProps.
From S2P Require Import DominanceClaims Worklist MIRUses Mem2Reg Mem2RegFrontier Mem2RegPhis Mem2RegSubst.
From S2P Require Import Mem2RegRename.

(** ** One block of the traversal

    The phis of a block are pushed, its instructions visited, and the phis of its successors
    filled. *)

Implicit Types (F H : MIRFunction) (D : MIRDominance) (M : MIRModule) (R : Renaming) (a b c d i p v x y phi L : ref) (phis : BlockPhis) (o : option ref) (k : InstKind) (σ : gmap ref ref) (counts : gmap ref nat).

(** ** The phis of a block are pushed *)

Lemma push_phis_spec (l : list (ref * ref)) : forall counts R, NoDup l.*1 ->
  let st := fold_left (fun st '(alloca, phi) => push_value alloca phi st) l (counts, R) in
  r_module (snd st) = r_module R /\ r_function (snd st) = r_function R /\ toDelete (snd st) = toDelete R
  /\ (forall a phi, (a, phi) ∈ l -> stack_of a (snd st) = phi :: stack_of a R)
  /\ (forall a, a ∉ l.*1 -> stack_of a (snd st) = stack_of a R)
  /\ forall old, pushed counts R old -> pushed (fst st) (snd st) old.
Proof.
  induction l as [| [a phi] l IH]; intros counts R N; cbn [fold_left].
  - split_and!; try done. intros a phi Q. by apply not_elem_of_nil in Q.
  - rewrite fmap_cons in N. apply NoDup_cons in N as [N1 N2].
    rewrite (surjective_pairing (push_value a phi (counts, R))).
    destruct (IH (fst (push_value a phi (counts, R))) (snd (push_value a phi (counts, R))) N2) as (E1 & E2 & E0 & E3 & E4 & E5).
    split_and!; [by rewrite E1 | by rewrite E2 | by rewrite E0 | | |].
    + intros a' phi' [[= -> ->] | Q]%elem_of_cons.
      * rewrite E4 by done. by rewrite stack_of_push, decide_True.
      * rewrite (E3 _ _ Q), stack_of_push, decide_False; [done |]. intros ->. apply N1.
        apply list_elem_of_fmap. by exists (a, phi').
    + intros a' [Na Nl]%not_elem_of_cons. rewrite E4, stack_of_push, decide_False by done. done.
    + intros old P. by apply E5, pushed_value.
Qed.

Section Block.
Context (F : MIRFunction) (entry : ref) (order : list ref) (D : MIRDominance).
Context (tys : TypeHeap) (phis : BlockPhis) (G : MIRFunction) (PP : placed_phis tys F phis G).
Context (PS : list ref) (RB : renamable F entry phis PS).
Context (hash_phis : gmap ref ref -> list (ref * ref)) (Hp : forall t, hash_phis t ≡ₚ map_to_list t).

Abbreviation inv b a := (in_value F entry order D phis b a).
Abbreviation outv b a := (out_value F entry order D phis b a).
Abbreviation renamed := (renamed F entry order D phis G PS).
Abbreviation fills := (fills F PS).
Abbreviation plain := (plain F PS).
Abbreviation pload := (pload F PS).
Abbreviation extends := (extends F PS).
Abbreviation top := (top F PS).
Abbreviation tops := (tops F PS).

Lemma extends_trans σ1 σ2 σ3 : extends σ1 σ2 -> extends σ2 σ3 -> extends σ1 σ3.
Proof. intros [A1 A2] [B1 B2]. split; [by transitivity σ2 | done]. Qed.

Lemma extends_refl V cb dn seen σ M H : renamed V cb dn seen σ M H -> extends σ σ.
Proof.
  intros I. split; [done |]. intros L Q. by apply (rn_dom _ _ _ _ _ _ _ _ _ _ _ _ _ _ I) in Q as [? _].
Qed.

Lemma elem_of_hash_phis y a phi : (a, phi) ∈ hash_phis (default ∅ (phis !! y)) <-> phi_of phis y a = Some phi.
Proof. rewrite Hp, elem_of_map_to_list. done. Qed.

Lemma NoDup_hash_phis t : NoDup (hash_phis t).*1.
Proof. rewrite Hp. apply NoDup_fst_map_to_list. Qed.

(** A block in the state where its phis are pushed. *)
Lemma tops_phis V cb dn seen σ R b (base : ref -> option ref) :
  renamed V cb dn seen σ (r_module R) (r_function R) -> reachable F entry b ->
  tops σ R base ->
  (forall a, inv b a = match phi_of phis b a with Some phi => Some phi | None => base a end) ->
  let st := fold_left (fun st '(alloca, phi) => push_value alloca phi st)
              (hash_phis (default ∅ (phis !! b))) (∅, R) in
  r_module (snd st) = r_module R /\ r_function (snd st) = r_function R /\ toDelete (snd st) = toDelete R
  /\ tops σ (snd st) (fun a => inv b a)
  /\ pushed (fst st) (snd st) (fun a => stack_of a R).
Proof.
  intros I Rb Tp Ei.
  destruct (push_phis_spec (hash_phis (default ∅ (phis !! b))) ∅ R (NoDup_hash_phis _)) as (E1 & E2 & E0 & E3 & E4 & E5).
  split_and!; [done | done | done | |].
  - intros a Ha. rewrite Ei. destruct (phi_of phis b a) as [phi |] eqn:Ph.
    + pose proof (phi_not_old F entry tys phis G PP PS RB _ _ _ Ph) as [Lp _].
      assert (Pp : plain phi) by (by apply (plain_new F entry phis PS RB _ b)).
      assert (Es : sub σ phi = phi).
      { apply sub_other. destruct (σ !! phi) eqn:Q; [| done]. exfalso.
        assert (S : is_Some (σ !! phi)) by (by eexists). apply (rn_dom _ _ _ _ _ _ _ _ _ _ _ _ _ _ I) in S as [S _].
        by destruct Pp. }
      unfold DominanceProps.reachable in *. cbn [Mem2RegRename.top]. rewrite Es. split; [| done].
      apply elem_of_hash_phis in Ph. by rewrite (E3 _ _ Ph).
    + apply (top_ext F PS σ σ R); [by apply (extends_refl _ _ _ _ _ _ _ I) | | by apply Tp]. apply E4.
      intros Q. apply list_elem_of_fmap in Q as ([a' phi] & Ea & Q). cbn in Ea. subst a'.
      apply elem_of_hash_phis in Q. congruence.
  - apply E5. intros a. by rewrite lookup_empty.
Qed.

(** ** Its instructions are visited *)

Lemma rename_new_phis b V cb dn seen σ R counts (l : list ref) :
  renamed V cb dn seen σ (r_module R) (r_function R) ->
  (forall phi, phi ∈ l -> exists a, phi_of phis b a = Some phi) ->
  fold_left (rename_inst PS) l (counts, R) = (counts, R).
Proof.
  intros I. induction l as [| phi l IH]; intros Hl; [done |]. cbn [fold_left].
  assert (E : rename_inst PS (counts, R) phi = (counts, R)).
  { destruct (Hl phi) as [a Ph]; [left |].
    destruct (rn_phi _ _ _ _ _ _ _ _ _ _ _ _ _ _ I b a phi Ph) as (inc & K & _).
    unfold rename_inst. unfold kind_of in K. apply fmap_Some in K as (J & -> & EJ). by rewrite <- EJ. }
  rewrite E. apply IH. intros phi' Q. apply Hl. by right.
Qed.

(** The blocks that are done and what has been seen of them. *)
Record done_blocks (V S : list ref) : Prop := {
  db_seen : forall j, j ∈ S <-> exists c, c ∈ V /\ j ∈ getInstructions c F;
  db_blocks : forall c, c ∈ V -> reachable F entry c;
  db_nodup : NoDup V;
}.

Lemma rename_insts_ok b V cb dn S old : forall post pre σ R counts,
  reachable F entry b -> getInstructions b F = pre ++ post -> done_blocks V S -> b ∉ V ->
  (forall c, c <> b -> dominator F entry c b -> c ∈ V) ->
  renamed V cb dn (S ++ pre) σ (r_module R) (r_function R) ->
  tops σ R (fun a => after_insts F a pre (inv b a)) -> pushed counts R old ->
  exists σ', let st := fold_left (rename_inst PS) post (counts, R) in
    extends σ σ' /\ renamed V cb dn (S ++ getInstructions b F) σ' (r_module (snd st)) (r_function (snd st))
    /\ tops σ' (snd st) (fun a => outv b a) /\ pushed (fst st) (snd st) old
    /\ toDelete (snd st) = toDelete R ++ filter (fun i => dead_inst F PS i = true) post
    /\ keeps_consts (r_module R) (r_module (snd st)).
Proof.
  induction post as [| i post IH]; intros pre σ R counts Rb E Db Nb Anc I Tp Pu; cbn [fold_left].
  - rewrite app_nil_r in E. exists σ. rewrite E. split_and!; [by apply (extends_refl _ _ _ _ _ _ _ I) | done | | done | by rewrite filter_nil, app_nil_r | done].
    intros a Ha. unfold out_value. rewrite E. by apply Tp.
  - assert (Hi : is_Some (insts F !! i)).
    { apply (rb_held _ _ _ _ RB b); [by apply (rb_reach _ _ _ _ RB) | rewrite E; apply elem_of_middle]. }
    destruct Hi as [J0 EJ0].
    destruct (rename_inst_ok F entry order D tys phis G PP PS RB b pre post i J0 V cb dn S σ R counts old)
      as (σ1 & [X1 I1 T1 P1 D1 K1]); try done.
    { intros j. apply (db_seen _ _ Db). }
    { intros c Hc. by apply (rb_reach _ _ _ _ RB), (db_blocks _ _ Db). }
    set (st1 := rename_inst PS (counts, R) i) in *. rewrite (surjective_pairing st1).
    destruct (IH (pre ++ [i]) σ1 (snd st1) (fst st1)) as (σ2 & X2 & I2 & T2 & P2 & D2 & K2); try done.
    { by rewrite <- app_assoc. }
    exists σ2. split_and!; [by apply (extends_trans _ σ1) | done | done | done | | by transitivity (r_module (snd st1))].
    rewrite D2, D1, <- app_assoc, filter_cons. f_equal. by destruct (dead_inst F PS i).
Qed.

(** ** The phis of its successors are filled *)

Lemma fill_phi_ok V b dn seen σ R y a phi :
  renamed V b dn seen σ (r_module R) (r_function R) -> reachable F entry b ->
  tops σ R (fun a => outv b a) -> phi_of phis y a = Some phi -> (y, a) ∉ dn ->
  let R' := fill_phi b R (a, phi) in
  renamed V b ((y, a) :: dn) seen σ (r_module R') (r_function R')
  /\ (forall a', stack_of a' R' = stack_of a' R) /\ toDelete R' = toDelete R /\ keeps_consts (r_module R) (r_module R').
Proof.
  intros I Rb Tp Ph Nd. destruct (rn_phi _ _ _ _ _ _ _ _ _ _ _ _ _ _ I y a phi Ph) as (inc & K & Ei & Ef).
  assert (Ha : a ∈ PS) by (apply (rb_phis _ _ _ _ RB y); by eexists).
  pose proof (extends_refl _ _ _ _ _ _ _ I) as X. pose proof (phi_not_old F entry tys phis G PP PS RB _ _ _ Ph) as [_ Ko].
  (* the step with the value [v], in a state [R1] that differs in its constants *)
  assert (Step : forall v R1, r_function R1 = r_function R -> (forall a', stack_of a' R1 = stack_of a' R) ->
    toDelete R1 = toDelete R -> keeps_consts (r_module R) (r_module R1) -> fills σ (r_module R1) v (outv b a) ->
    let R' := {| r_module := r_module R1;
       r_function := upd_inst phi (fun J => match i_kind J with
                                            | PhiInst inc => with_kind (PhiInst (addIncoming v b inc)) J
                                            | _ => J
                                            end) (r_function R1);
       valueStacks := valueStacks R1; toDelete := toDelete R1 |} in
    renamed V b ((y, a) :: dn) seen σ (r_module R') (r_function R')
    /\ (forall a', stack_of a' R' = stack_of a' R) /\ toDelete R' = toDelete R /\ keeps_consts (r_module R) (r_module R')).
  { intros v R1 E1 E2 E0 E3 Fv. cbn [r_module r_function]. split_and!; [| exact E2 | exact E0 | exact E3].
    rewrite E1. set (g := fun J => match i_kind J with PhiInst inc => with_kind (PhiInst (addIncoming v b inc)) J | _ => J end).
    pose proof (renamed_keeps F entry order D phis G PS _ _ _ _ _ _ (r_module R1) _ I E3) as [A1 A2 A3 A4 A5 A6 A7 A8 A9].
    assert (KU : forall j, kind_of j (upd_inst phi g (r_function R)) =
      if decide (j = phi) then Some (PhiInst (addIncoming v b inc)) else kind_of j (r_function R)).
    { intros j. rewrite kind_of_upd_inst. destruct (decide (j = phi)) as [D1 | D1]; [| done].
      unfold kind_of in K. apply fmap_Some in K as (J & EJ & EK). subst j. rewrite EJ. cbn. unfold g. by rewrite <- EK. }
    split; try done.
    - intros i. rewrite insts_upd_inst, <- A3. destruct (decide (i = phi)); [by rewrite fmap_is_Some | done].
    - intros i Pl. rewrite KU, (decide_False (P := i = phi)); [by apply A5 |]. intros ->.
      destruct Pl as (c & Hc & Hi). destruct (rb_held _ _ _ _ RB c phi Hc Hi) as [J EJ].
      unfold kind_of in Ko. by rewrite EJ in Ko.
    - intros y' a' phi' Ph'. rewrite KU. destruct (A6 y' a' phi' Ph') as (inc' & K' & Ei' & Ef').
      destruct (decide (phi' = phi)) as [D1 | D1].
      + subst phi'. destruct (pp_inj _ _ _ _ PP _ _ _ _ _ Ph Ph') as [-> ->].
        exists (addIncoming v b inc). assert (inc' = inc) as -> by congruence. split_and!; [done | |].
        * unfold addIncoming. rewrite map_app, Ei. rewrite (bool_decide_eq_false_2 ((y, a) ∈ dn)), app_nil_r by done.
          rewrite bool_decide_eq_true_2 by left. done.
        * intros w q [Q | Q]%elem_of_app; [by apply Ef' |]. apply list_elem_of_singleton in Q as [= -> ->]. done.
      + exists inc'. split_and!; [done | | done]. rewrite Ei'. f_equal.
        rewrite (bool_decide_ext ((y', a') ∈ (y, a) :: dn) ((y', a') ∈ dn)); [done |].
        rewrite elem_of_cons. split; [| by right]. intros [[= -> ->] | ?]; [| done]. exfalso. apply D1. congruence. }
  unfold fill_phi. specialize (Tp a Ha). unfold Mem2RegRename.top in Tp. destruct (outv b a) as [u |] eqn:Eo.
  - destruct Tp as [Hh Pu]. destruct (stack_of a R) as [| w l] eqn:Es; [done |]. cbn in Hh. injection Hh as ->.
    by apply (Step (sub σ u) R).
  - rewrite Tp. unfold kind_of in K. apply fmap_Some in K as (J & -> & EK).
    destruct (fresh_undef (i_type J) R) as [c R1] eqn:EU.
    destruct (fresh_undef_spec _ _ _ _ EU) as (_ & E1 & E2 & E0 & E3 & _). apply (Step c R1); try done.
    by apply (fills_undef F entry order D tys phis G PP PS RB V b dn seen σ (i_type J) R c R1 b).
Qed.

Lemma fill_loop V b seen σ y : forall (l : list (ref * ref)) dn R,
  NoDup l.*1 -> (forall a phi, (a, phi) ∈ l -> phi_of phis y a = Some phi /\ (y, a) ∉ dn) ->
  renamed V b dn seen σ (r_module R) (r_function R) -> reachable F entry b ->
  tops σ R (fun a => outv b a) ->
  exists dn', let R' := fold_left (fill_phi b) l R in
    renamed V b dn' seen σ (r_module R') (r_function R')
    /\ (forall z a, (z, a) ∈ dn' <-> (z, a) ∈ dn \/ z = y /\ a ∈ l.*1)
    /\ (forall a', stack_of a' R' = stack_of a' R) /\ toDelete R' = toDelete R /\ keeps_consts (r_module R) (r_module R').
Proof.
  induction l as [| [a phi] l IH]; intros dn R N Hl I Rb Tp; cbn [fold_left].
  - exists dn. split_and!; [done | | done | done | done]. intros z a. split; [by left |].
    intros [? | [_ Q]]; [done | by apply not_elem_of_nil in Q].
  - rewrite fmap_cons in N. apply NoDup_cons in N as [N1 N2]. destruct (Hl a phi) as [Ph Nd]; [left |].
    destruct (fill_phi_ok V b dn seen σ R y a phi I Rb Tp Ph Nd) as (I1 & E1 & D1 & K1).
    destruct (IH ((y, a) :: dn) (fill_phi b R (a, phi)) N2) as (dn' & I2 & Hd & E2 & D2 & K2).
    + intros a' phi' Q. destruct (Hl a' phi') as [Ph' Nd']; [by right |]. split; [done |].
      intros [[= ->] | ?]%elem_of_cons; [| done]. apply N1. apply list_elem_of_fmap. by exists (a, phi').
    + exact I1.
    + exact Rb.
    + intros a' Ha'. apply (top_ext F PS σ σ R); [by apply (extends_refl _ _ _ _ _ _ _ I) | apply E1 | by apply Tp].
    + exists dn'. split_and!; [done | | | by rewrite D2 | by transitivity (r_module (fill_phi b R (a, phi)))].
      * intros z a'. rewrite Hd, fmap_cons, !elem_of_cons. cbn [fst]. split.
        -- intros [[[= -> ->] | ?] | [-> ?]]; auto.
        -- intros [? | [-> [-> | ?]]]; auto.
      * intros a'. by rewrite E2.
Qed.

Lemma fill_succs_ok V b seen σ : forall (l : list ref) dn R,
  NoDup l -> (forall y a, y ∈ l -> (y, a) ∉ dn) ->
  renamed V b dn seen σ (r_module R) (r_function R) -> reachable F entry b ->
  tops σ R (fun a => outv b a) ->
  exists dn', let R' := fold_left (fill_succ hash_phis phis b) l R in
    renamed V b dn' seen σ (r_module R') (r_function R')
    /\ (forall z a, (z, a) ∈ dn' <-> (z, a) ∈ dn \/ z ∈ l /\ is_Some (phi_of phis z a))
    /\ (forall a', stack_of a' R' = stack_of a' R) /\ toDelete R' = toDelete R /\ keeps_consts (r_module R) (r_module R').
Proof.
  induction l as [| y l IH]; intros dn R N Hl I Rb Tp; cbn [fold_left].
  - exists dn. split_and!; [done | | done | done | done]. intros z a. split; [by left |].
    intros [? | [Q _]]; [done | by apply not_elem_of_nil in Q].
  - apply NoDup_cons in N as [N1 N2].
    destruct (fill_loop V b seen σ y (hash_phis (default ∅ (phis !! y))) dn R (NoDup_hash_phis _)) as (dn1 & I1 & H1 & E1 & D1 & K1); [| done | done | done |].
    { intros a phi Q%elem_of_hash_phis. split; [done |]. apply Hl. left. }
    fold (fill_succ hash_phis phis b R y) in I1, E1, D1, K1.
    destruct (IH dn1 (fill_succ hash_phis phis b R y) N2) as (dn2 & I2 & H2 & E2 & D2 & K2).
    + intros z a Hz. rewrite H1. intros [Q | [-> _]]; [| done]. by apply (Hl z a); [right |].
    + exact I1.
    + exact Rb.
    + intros a' Ha'. apply (top_ext F PS σ σ R); [by apply (extends_refl _ _ _ _ _ _ _ I) | apply E1 | by apply Tp].
    + assert (Q : forall z a, a ∈ (hash_phis (default ∅ (phis !! z))).*1 <-> is_Some (phi_of phis z a)).
      { intros z a. rewrite list_elem_of_fmap. split.
        - intros ([a' phi] & -> & Q%elem_of_hash_phis). by eexists.
        - intros [phi Q%elem_of_hash_phis]. by exists (a, phi). }
      exists dn2. split_and!; [done | | | by rewrite D2 | by transitivity (r_module (fill_succ hash_phis phis b R y))].
      * intros z a. rewrite H2, H1, elem_of_cons. split.
        -- intros [[? | [-> ?%Q]] | [? ?]]; auto.
        -- intros [? | [[-> | ?] ?]]; [by left; left | left; right; split; [done | by apply Q] | by right].
      * intros a'. by rewrite E2.
Qed.

(** Once the phis of all successors are filled the block is done. *)
Lemma renamed_done V b dn seen σ M H cb' :
  renamed V b dn seen σ M H ->
  (forall z a, (z, a) ∈ dn <-> z ∈ getSuccessors b F /\ is_Some (phi_of phis z a)) ->
  renamed (V ++ [b]) cb' [] seen σ M H.
Proof.
  intros [A1 A2 A3 A4 A5 A6 A7 A8 A9] Hd. split; try done.
  intros y a phi Ph. destruct (A6 y a phi Ph) as (inc & K & E & Q). exists inc. split_and!; [done | | done].
  rewrite E, filter_app. rewrite (bool_decide_eq_false_2 ((y, a) ∈ [])) by apply not_elem_of_nil.
  rewrite app_nil_r. f_equal. rewrite filter_cons, filter_nil.
  case_bool_decide as D1; apply Hd in D1 || rewrite Hd in D1.
  - by rewrite decide_True by apply D1.
  - rewrite decide_False; [done |]. intros S. apply D1. split; [done | by eexists].
Qed.

(** ** The block *)

Lemma rename_block_ok b V S σ R (base : ref -> option ref) :
  reachable F entry b -> done_blocks V S -> b ∉ V ->
  (forall c, c <> b -> dominator F entry c b -> c ∈ V) ->
  renamed V b [] S σ (r_module R) (r_function R) -> tops σ R base ->
  (forall a, inv b a = match phi_of phis b a with Some phi => Some phi | None => base a end) ->
  exists σ', let st := rename_block hash_phis PS phis b R in
    extends σ σ' /\ renamed (V ++ [b]) b [] (S ++ getInstructions b F) σ' (r_module (snd st)) (r_function (snd st))
    /\ tops σ' (snd st) (fun a => outv b a) /\ pushed (fst st) (snd st) (fun a => stack_of a R)
    /\ toDelete (snd st) = toDelete R ++ filter (fun i => dead_inst F PS i = true) (getInstructions b F)
    /\ keeps_consts (r_module R) (r_module (snd st)) /\ done_blocks (V ++ [b]) (S ++ getInstructions b F).
Proof.
  intros Rb Db Nb Anc I Tp Ei. unfold rename_block.
  destruct (tops_phis V b [] S σ R b base I Rb Tp Ei) as (E1 & E2 & E0 & T1 & P1).
  destruct (fold_left (fun st '(alloca, phi) => push_value alloca phi st) (hash_phis (default ∅ (phis !! b))) (∅, R))
    as [counts1 R1] eqn:Est1. cbn [fst snd] in E1, E2, E0, T1, P1 |- *. rewrite <- E1, <- E2 in I.
  assert (EI : exists new, getInstructions b (r_function R1) = new ++ getInstructions b F
    /\ forall phi, phi ∈ new <-> exists a, phi_of phis b a = Some phi).
  { destruct (pp_insts _ _ _ _ PP b) as (new & En & _ & Hn); [by apply (rb_blocks _ _ _ _ RB), (rb_reach _ _ _ _ RB) |].
    exists new. split; [| done]. rewrite <- En. unfold getInstructions.
    by rewrite (rn_bbs _ _ _ _ _ _ _ _ _ _ _ _ _ _ I). }
  destruct EI as (new & En & Hn). rewrite <- E2, En, fold_left_app.
  rewrite (rename_new_phis b V b [] S σ R1 counts1 new I) by (intros phi; apply Hn).
  destruct (rename_insts_ok b V b [] S (fun a => stack_of a R) (getInstructions b F) [] σ R1 counts1)
    as (σ2 & X2 & I2 & T2 & P2 & D2 & K2); try done.
  { by rewrite app_nil_r. }
  destruct (fold_left (rename_inst PS) (getInstructions b F) (counts1, R1)) as [counts2 R2].
  cbn [fst snd] in *.
  assert (Es : getSuccessors b (r_function R2) = getSuccessors b F).
  { rewrite <- (proj1 (pp_edges _ _ _ _ PP b)). unfold getSuccessors. by rewrite (rn_bbs _ _ _ _ _ _ _ _ _ _ _ _ _ _ I2). }
  rewrite Es.
  destruct (fill_succs_ok V b (S ++ getInstructions b F) σ2 (getSuccessors b F) [] R2) as (dn & I3 & H3 & E3 & D3 & K3);
    [by apply (rb_succs _ _ _ _ RB) | intros; apply not_elem_of_nil | done | done | done |].
  exists σ2. split_and!; [done | | | | | |].
  - apply (renamed_done V b dn); [done |]. intros z a. rewrite H3, elem_of_nil. tauto.
  - intros a Ha. apply (top_ext F PS σ2 σ2 R2); [by apply (extends_refl _ _ _ _ _ _ _ I2) | apply E3 | by apply T2].
  - intros a. rewrite E3. apply P2.
  - by rewrite D3, D2, E0.
  - rewrite <- E1. by transitivity (r_module R2).
  - destruct Db as [B1 B2 B3]. split.
    + intros j. rewrite elem_of_app, B1. split.
      * intros [(c & Hc & Hj) | Hj]; [exists c | exists b]; (split; [| done]); apply elem_of_app;
          [by left | right; by apply list_elem_of_singleton].
      * intros (c & [Hc | ->%list_elem_of_singleton]%elem_of_app & Hj); [left; by exists c | by right].
    + intros c [? | ->%list_elem_of_singleton]%elem_of_app; auto.
    + apply NoDup_app. split_and!; [done | | apply NoDup_singleton]. intros c Hc ->%list_elem_of_singleton. done.
Qed.

End Block.

Section DFS.
Context (F : MIRFunction) (iteration : gmap ref ref -> list (ref * ref)).
Context (entry : ref) (rest : list ref).
Context (W : well_formed F) (C : consistent F) (EB : blocks F = entry :: rest) (NE : entry <> nullptr).
Context (It : forall m, iteration m ≡ₚ map_to_list m).
Context (order : list ref) (m : gmap ref ref) (D : MIRDominance) (A : analyzed F iteration entry order m D).
Context (tys : TypeHeap) (phis : BlockPhis) (G : MIRFunction) (PP : placed_phis tys F phis G).
Context (PS : list ref) (RB : renamable F entry phis PS).
Context (hash_phis : gmap ref ref -> list (ref * ref)) (Hp : forall t, hash_phis t ≡ₚ map_to_list t).

Let T : tree entry order m := iv_tree _ _ _ _ _ (an_inv _ _ _ _ _ _ A).
Let ND : NoDup order := ro_nodup _ _ _ (an_order _ _ _ _ _ _ A).
Let O0 : order !! 0 = Some entry := ro_entry _ _ _ (an_order _ _ _ _ _ _ A).
Let RS := reachable_set F iteration entry order m D A.
Let AR := anc_reachable F iteration entry rest W C EB order m D A.

Abbreviation inv b a := (in_value F entry order D phis b a).
Abbreviation outv b a := (out_value F entry order D phis b a).
Abbreviation renamed := (renamed F entry order D phis G PS).
Abbreviation extends := (extends F PS).
Abbreviation tops := (tops F PS).
Abbreviation Tr := (build_tree iteration m).

Lemma Ch a c : c ∈ children Tr a <-> m !! c = Some a /\ c <> a.
Proof. apply (elem_of_children iteration It m). Qed.

Lemma getChildren_tree b : getChildren D b = children Tr b.
Proof. unfold getChildren. by rewrite (an_tree _ _ _ _ _ _ A). Qed.

(** What the value is at the start of a block without a phi. *)
Definition base b a : option ref := if N.eqb b entry then None else outv (getIDom D b) a.

Lemma in_value_base b a : reachable F entry b ->
  inv b a = match phi_of phis b a with Some phi => Some phi | None => base b a end.
Proof.
  intros Rb. destruct (phi_of phis b a) as [phi |] eqn:E; [by apply in_value_phi |]. unfold base.
  destruct (N.eqb_spec b entry) as [-> | N].
  - by apply (in_value_entry F iteration entry order m D A).
  - by apply (in_value_idom F iteration entry NE order m D A).
Qed.

(** The instructions of a block that are marked for deletion. *)
Definition dead_of b : list ref := filter (fun i => dead_inst F PS i = true) (getInstructions b F).

(** A run of the traversal from [R] to [R'] that visits the blocks in [P]. *)
Definition traversed (P : ref -> Prop) (V : list ref) σ R R' : Prop :=
  exists vis S' σ' cb, extends σ σ' /\ renamed (V ++ vis) cb [] S' σ' (r_module R') (r_function R')
    /\ done_blocks F entry (V ++ vis) S' /\ (forall x, x ∈ vis <-> P x)
    /\ (forall a, stack_of a R' = stack_of a R) /\ keeps_consts (r_module R) (r_module R')
    /\ toDelete R' = toDelete R ++ concat (map dead_of vis).

(** When the traversal may visit [b]. *)
Record ready V S σ R b : Prop := {
  rd_cb : exists cb, renamed V cb [] S σ (r_module R) (r_function R);
  rd_done : done_blocks F entry V S;
  rd_new : forall x, below m b x -> x ∉ V;
  rd_above : forall c, c <> b -> dominator F entry c b -> c ∈ V;
  rd_tops : tops σ R (base b);
}.

Lemma renamed_cb V cb cb' S σ M H : renamed V cb [] S σ M H -> renamed V cb' [] S σ M H.
Proof.
  by intros [A1 A2 A3 A4 A5 A6 A7 A8 A9].
Qed.

Lemma dfs_children n b :
  (forall V S σ R c, c ∈ children Tr b -> ready V S σ R c ->
     exists R', renameDFS hash_phis n D PS phis R c = Some R' /\ traversed (below m c) V σ R R') ->
  forall cs V S σ R cb, NoDup cs -> (forall c, c ∈ cs -> c ∈ children Tr b) ->
    renamed V cb [] S σ (r_module R) (r_function R) -> done_blocks F entry V S ->
    (forall c x, c ∈ cs -> below m c x -> x ∉ V) ->
    (forall c, dominator F entry c b -> c ∈ V) -> tops σ R (fun a => outv b a) ->
    exists R', fold_some (renameDFS hash_phis n D PS phis) cs R = Some R'
      /\ traversed (fun x => exists c, c ∈ cs /\ below m c x) V σ R R'.
Proof.
  intros Call cs. induction cs as [| c cs IH]; intros V S σ R cb N Hc I Db Nw Up Tp; cbn [fold_some].
  - exists R. split; [done |]. exists [], S, σ, cb. rewrite app_nil_r. split_and!; try done; [| | by rewrite app_nil_r].
    + by apply (extends_refl F entry order D phis G PS _ _ _ _ _ _ _ I).
    + intros x. split; [by intros ?%not_elem_of_nil | intros (c & Q & _); by apply not_elem_of_nil in Q].
  - apply NoDup_cons in N as [N1 N2]. assert (Hcb : c ∈ children Tr b) by (apply Hc; left).
    pose proof Hcb as [Ec Nc]%Ch. assert (Sc : set m c) by by eexists. assert (Rc : reachable F entry c) by by apply RS.
    assert (Nen : c <> entry).
    { intros ->. rewrite (t_entry _ _ _ T) in Ec. by simplify_eq. }
    destruct (Call V S σ R c Hcb) as (R1 & -> & vis & S1 & σ1 & cb1 & X1 & I1 & D1 & V1 & E1 & K1 & Q1).
    { split; [by exists cb | done | intros x; apply Nw; left | |].
      - intros d Nd Dd%AR; [| done]. apply Up. apply anc_inv in Dd as [? | (c' & E' & Q)]; [done |]. simplify_eq.
        apply AR; [| done]. apply RS. by apply (t_link _ _ _ T) in Ec as (_ & ? & _).
      - intros a Ha. unfold base. rewrite (proj2 (N.eqb_neq _ _) Nen).
        rewrite (getIDom_set F iteration entry order m D A c b Ec). by apply Tp. }
    cbn [mbind option_bind].
    assert (Ap : forall x, below m c x -> ~ exists c', c' ∈ cs /\ below m c' x).
    { intros x Bx (c' & Hc' & By). apply (below_apart entry order m T Tr Ch b c c' x x); try done.
      - apply Hc. by right.
      - by intros ->.
      - apply anc_refl. }
    destruct (IH (V ++ vis) S1 σ1 R1 cb1 N2) as (R2 & -> & vis2 & S2 & σ2 & cb2 & X2 & I2 & D2 & V2 & E2 & K2 & Q2).
    + intros c' Q. apply Hc. by right.
    + exact I1.
    + exact D1.
    + intros c' x Q B [Q' | Q']%elem_of_app; [by apply (Nw c' x); [right | |] |].
      apply V1 in Q'. apply (Ap x Q'). by exists c'.
    + intros d Q. apply elem_of_app. left. by apply Up.
    + intros a Ha. apply (top_ext F PS σ σ1 R); [done | apply E1 | by apply Tp].
    + exists R2. split; [done |]. exists (vis ++ vis2), S2, σ2, cb2. rewrite app_assoc. split_and!; try done.
      * by apply (extends_trans F PS _ σ1).
      * intros x. rewrite elem_of_app, V1, V2. setoid_rewrite elem_of_cons. split.
        { intros [B | (c' & Q & B)]; [exists c; auto | exists c'; auto]. }
        { intros (c' & [-> | Q] & B); [by left | right; by exists c']. }
      * intros a. by rewrite E2.
      * by transitivity (r_module R1).
      * by rewrite Q2, Q1, map_app, concat_app, app_assoc.
Qed.

Lemma renameDFS_traversed n : forall b V S σ R,
  set m b -> length order <= pos order b + n -> ready V S σ R b ->
  exists R', renameDFS hash_phis n D PS phis R b = Some R' /\ traversed (below m b) V σ R R'.
Proof.
  induction n as [| n IH]; intros b V S σ R Sb L Rd.
  - pose proof (pos_lt order ND b (set_order T b Sb)). lia.
  - destruct Rd as [[cb I] Db Nw Up Tp]. cbn [renameDFS]. pose proof Sb as Rb%RS.
    assert (Nb : b ∉ V) by (apply Nw; split; [done | apply anc_refl]).
    destruct (rename_block_ok F entry order D tys phis G PP PS RB hash_phis Hp b V S σ R (base b))
      as (σ1 & X1 & I1 & T1 & P1 & Q1 & K1 & D1); try done.
    { by apply (renamed_cb V cb). }
    { intros a. by apply in_value_base. }
    destruct (rename_block hash_phis PS phis b R) as [counts R1]. cbn [fst snd] in *.
    destruct (dfs_children n b) with (cs := children Tr b) (V := V ++ [b]) (S := S ++ getInstructions b F)
      (σ := σ1) (R := R1) (cb := b) as (R2 & E & vis & S2 & σ2 & cb2 & X2 & I2 & D2 & V2 & E2 & K2 & Q2); try done.
    + intros V' S' σ' R' c Hc Rd. pose proof Hc as [Ec Nc]%Ch. apply (IH c V' S' σ'); [by eexists | | done].
      pose proof (child_pos entry order m T b c Ec Nc). lia.
    + apply (NoDup_children iteration It m).
    + intros c x Hc B [Q | ->%list_elem_of_singleton]%elem_of_app.
      * apply (Nw x); [| done]. apply (below_cases entry order m T Tr Ch b x Sb). right. by exists c.
      * pose proof Hc as [Ec Nc]%Ch. by apply (below_root entry order m T b c b).
    + intros c Dc. apply elem_of_app. destruct (decide (c = b)) as [-> | N]; [right; left | left; by apply Up].
    + rewrite getChildren_tree, E. cbn [mbind option_bind]. eexists. split; [done |].
      exists (b :: vis), S2, σ2, cb2. rewrite (app_assoc V [b] vis : V ++ b :: vis = _). cbn [r_module r_function pop_values].
      split_and!; try done.
      * by apply (extends_trans F PS _ σ1).
      * intros x. rewrite elem_of_cons, V2, (below_cases entry order m T Tr Ch b x Sb). done.
      * intros a. rewrite stack_of_pop, E2. apply P1.
      * by transitivity (r_module R1).
      * cbn [toDelete pop_values]. rewrite Q2, Q1, <- app_assoc. done.
Qed.

(** The function with its phis, before any renaming. *)
Lemma renamed_start M cb : (next_ref G <= m_next M)%N -> renamed [] cb [] [] ∅ M G.
Proof.
  intros L. split; try done.
  - intros i (b & Hb & Hi). destruct (rb_held _ _ _ _ RB b i Hb Hi) as [J E].
    unfold kind_of. rewrite (pp_old _ _ _ _ PP) by (apply (rb_fresh _ _ _ _ RB); by eexists).
    rewrite E. cbn. f_equal. rewrite (map_values_ext _ (fun v => v)) by apply sub_empty. by rewrite map_values_id.
  - intros y a phi Ph. apply (pp_phi _ _ _ _ PP) in Ph as (A' & _ & E & _). exists [].
    unfold kind_of. rewrite E. split_and!; [done | done |]. intros v p Q. by apply not_elem_of_nil in Q.
  - intros L'. rewrite lookup_empty, elem_of_nil. split; [by intros [] | tauto].
  - intros b pre L' post p al vo _ _ Q. by apply not_elem_of_nil in Q.
Qed.

End DFS.
