(* ===== verification/Mem2RegFind.v ===== *)
(** * Promotion of memory to registers: the allocations

    What the first phase finds: allocations that nothing it looks at lets escape, and the
    blocks that store to them. *)

From S2P Require Import Prelude Diag HIRType MIR MIRFacts SimplifyCFG MIRUses Dominance MIRModule ConstFold Mem2Reg.

Implicit Types (F : MIRFunction) (P : Promotion) (a b c i p v x : ref) (k : InstKind) (pre post : list (ref * ref)).

(** The values that the scan marks at an instruction, before it follows loads. *)
Definition marks k : list ref :=
  match k with MakeClosureInst _ caps => caps | _ => escaping k end.

(** The uses that the scan has no case for. *)
Definition missed k v : Prop :=
  match k with
  | StoreWeakInst _ _ | LoadWeakInst _ | MakeSharedInst _ | AtomicLoadInst _ _ | AtomicStoreInst _ _ _
  | AtomicRMWInst _ _ _ _ | AtomicCmpXchgInst _ _ _ _ _ => True
  | MakeClosureInst f _ => v = f
  | _ => False
  end.

(** The uses of an allocation that promotion can do without. *)
Definition plain_access k v : Prop :=
  match k with
  | LoadInst p _ vol => p = v /\ vol = false
  | StoreInst w p _ vol => p = v /\ w <> v /\ vol = false
  | _ => False
  end.

(** Every use is marked, missed, the label of a branch, or such an access. *)
Lemma use_cases k v : v ∈ value_ops k -> v ∉ marks k -> v ∈ targets k \/ missed k v \/ plain_access k v.
Proof.
  destruct k; cbn [value_ops marks escaping targets missed plain_access]; intros H N; auto;
    try (by apply not_elem_of_nil in H); try tauto;
    try (rewrite ?elem_of_cons, ?elem_of_nil in *; tauto).
  - right. right. apply list_elem_of_singleton in H as ->. destruct isVolatile; [exfalso; apply N; left | done].
  - right. right. apply not_elem_of_cons in N as [N1 N2]. apply elem_of_cons in H as [-> | H]; [done |].
    apply list_elem_of_singleton in H as ->. split; [done |]. split; [done |].
    destruct isVolatile; [exfalso; apply N2; left | done].
Qed.

Section Find.
Context (fuel : nat) (tys : TypeHeap) (F : MIRFunction).
Context (Loads : forall v, is_Some (follow (load_step F) fuel v)).
Context (Types : forall i ty al, kind_of i F = Some (AllocaInst ty al) -> is_Some (excluded fuel tys ty)).

Lemma is_alloca_kind v : is_alloca F v = true <-> exists ty al, kind_of v F = Some (AllocaInst ty al).
Proof.
  unfold is_alloca. split.
  - destruct (kind_of v F) as [k |]; [| done]. destruct k; try done. by eexists _, _.
  - by intros (ty & al & ->).
Qed.

(** What a set of marks holds after the instructions [pre]. *)
Definition marked_up_to pre (E : list ref) : Prop :=
  forall b i k v, (b, i) ∈ pre -> kind_of i F = Some k -> v ∈ marks k -> is_alloca F v = true -> v ∈ E.

Lemma elem_of_markEscaped E v w :
  w ∈ markEscaped F E v <-> w ∈ E \/ is_alloca F v = true /\ w = v.
Proof.
  unfold markEscaped. destruct (is_alloca F v); [rewrite elem_of_add_unique |]; split; intros; destruct_or?; destruct_and?; auto; done.
Qed.

Lemma mark_list l : forall E w,
  w ∈ fold_left (markEscaped F) l E <-> w ∈ E \/ w ∈ l /\ is_alloca F w = true.
Proof.
  induction l as [| v l IH]; intros E w; cbn [fold_left]; [rewrite elem_of_nil; tauto |].
  rewrite IH, elem_of_markEscaped, elem_of_cons. split.
  - intros [[? | [? ->]] | [? ?]]; auto.
  - intros [? | [[-> | ?] ?]]; auto.
Qed.

(** An allocation is found at once. *)
Lemma follow_alloca v : is_alloca F v = true -> follow (load_step F) fuel v = Some v.
Proof.
  intros (ty & al & K)%is_alloca_kind. destruct (Loads v) as [w E]. destruct fuel as [| n]; [done |].
  cbn [follow]. unfold load_step at 1. rewrite K. by destruct (N.eqb v nullptr).
Qed.

Lemma mark_captures l : forall E, exists E',
  fold_some (fun escaped cap =>
    tracedCap ← follow (load_step F) fuel cap; Some (markEscaped F escaped tracedCap)) l E = Some E'
  /\ (forall w, w ∈ E -> w ∈ E') /\ (forall w, w ∈ l -> is_alloca F w = true -> w ∈ E').
Proof.
  induction l as [| v l IH]; intros E; cbn [fold_some].
  - exists E. split_and!; [done | done |]. intros w Hw. by apply not_elem_of_nil in Hw.
  - destruct (Loads v) as [t Et]. rewrite Et. cbn [mbind option_bind].
    destruct (IH (markEscaped F E t)) as (E' & -> & H1 & H2). exists E'. split_and!; [done | |].
    + intros w Hw. apply H1, elem_of_markEscaped. by left.
    + intros w [-> | Hw]%elem_of_cons Aw; [| by apply H2].
      apply H1, elem_of_markEscaped. right. rewrite (follow_alloca v Aw) in Et. by injection Et as <-.
Qed.

Lemma escape_inst_ok pre b i post E :
  placements (blocks F) F = pre ++ (b, i) :: post -> marked_up_to pre E ->
  exists E', escape_inst fuel F E i = Some E' /\ marked_up_to (pre ++ [(b, i)]) E'.
Proof.
  intros _ M.
  assert (Q : exists E', escape_inst fuel F E i = Some E' /\ (forall w, w ∈ E -> w ∈ E')
    /\ forall k w, kind_of i F = Some k -> w ∈ marks k -> is_alloca F w = true -> w ∈ E').
  { unfold escape_inst. destruct (kind_of i F) as [k |]; [| by exists E].
    assert (G : marks k = escaping k -> exists E', Some (fold_left (markEscaped F) (escaping k) E) = Some E'
      /\ (forall w, w ∈ E -> w ∈ E') /\ forall k0 w, Some k = Some k0 -> w ∈ marks k0 -> is_alloca F w = true -> w ∈ E').
    { intros Em. eexists. split; [done |]. split.
      - intros w Hw. apply mark_list. by left.
      - intros k0 w [= <-] Hw Aw. rewrite Em in Hw. apply mark_list. by right. }
    destruct k; try (by apply G). destruct (mark_captures captures E) as (E' & -> & H1 & H2). exists E'.
    split; [done |]. split; [done |]. intros k0 w [= <-]. apply H2. }
  destruct Q as (E' & Ee & H1 & H2). exists E'. split; [done |]. intros c j k w Hj K Hw Aw.
  apply elem_of_app in Hj as [Hj | Hj]; [by apply H1, (M c j k w) |].
  apply list_elem_of_singleton in Hj as [= -> ->]. by apply (H2 k w).
Qed.

Lemma escapedAllocas_ok : exists E, escapedAllocas fuel F = Some E /\ marked_up_to (placements (blocks F) F) E.
Proof.
  unfold escapedAllocas.
  rewrite (fold_some_nested (fun _ E i => escape_inst fuel F E i) (fun b => getInstructions b F)).
  apply (fold_some_ind _ marked_up_to); [intros b i k v Hq; by apply not_elem_of_nil in Hq |].
  intros pre [b i] post E Eq M. by apply (escape_inst_ok pre b i post).
Qed.

(** What has been recorded after the instructions [pre]. *)
Record recorded (E : list ref) pre P : Prop := {
  rc_alloca : forall a, a ∈ promotableAllocas P -> (a ∉ E) /\ is_alloca F a = true /\ exists b, (b, a) ∈ pre;
  rc_nodup : NoDup (map snd pre) -> NoDup (promotableAllocas P);
  rc_defs : forall l1 b i v a al vo l2, pre = l1 ++ (b, i) :: l2 -> kind_of i F = Some (StoreInst v a al vo) ->
    a ∈ promotableAllocas P -> (exists c, (c, a) ∈ l1) -> NoDup (map snd pre) -> b ∈ default [] (defBlocks P !! a);
}.

Lemma split_snoc {A} (l1 l2 pre : list A) (x y : A) :
  pre ++ [x] = l1 ++ y :: l2 -> (l2 = [] /\ l1 = pre /\ y = x) \/ exists l2', l2 = l2' ++ [x] /\ pre = l1 ++ y :: l2'.
Proof.
  destruct l2 as [| z l2' _] using rev_ind.
  - intros E. left. apply app_inj_tail in E as [-> ->]. done.
  - intros E. right. exists l2'. rewrite app_comm_cons, app_assoc in E. apply app_inj_tail in E as [-> ->]. done.
Qed.

Lemma record_inst_ok E pre b i post P :
  placements (blocks F) F = pre ++ (b, i) :: post -> recorded E pre P ->
  exists P', record_inst fuel tys F E b P i = Some P' /\ recorded E (pre ++ [(b, i)]) P'.
Proof.
  intros _ R. pose proof R as [R1 R2 R3]. unfold record_inst.
  (* nothing is recorded *)
  assert (Same : (forall v a al vo, kind_of i F = Some (StoreInst v a al vo) -> a ∉ promotableAllocas P) ->
    recorded E (pre ++ [(b, i)]) P).
  { intros Ns. split.
    - intros a Ha. destruct (R1 a Ha) as (? & ? & c & ?). split_and!; [done | done |]. exists c. apply elem_of_app. by left.
    - rewrite map_app. intros N. apply NoDup_app in N as [N _]. by apply R2.
    - intros l1 c j v a al vo l2 Eq K Ha Hc N. apply split_snoc in Eq as [(_ & _ & [= -> ->]) | (l2' & _ & Eq)].
      + by apply Ns in K.
      + apply (R3 l1 c j v a al vo l2'); try done. rewrite map_app in N. by apply NoDup_app in N as [N _]. }
  destruct (kind_of i F) as [k |] eqn:K; [| exists P; split; [done | by apply Same]].
  destruct k; try (exists P; split; [done | by apply Same]).
  - destruct (Types i _ _ K) as [out ->]. cbn [mbind option_bind]. eexists. split; [done |].
    destruct (out || bool_decide (i ∈ E)) eqn:Eo; [by apply Same |]. apply orb_false_iff in Eo as [_ Ne].
    apply bool_decide_eq_false in Ne. split; cbn [promotableAllocas defBlocks].
    + intros a [Ha | ->%list_elem_of_singleton]%elem_of_app.
      * destruct (R1 a Ha) as (? & ? & c & ?). split_and!; [done | done |]. exists c. apply elem_of_app. by left.
      * split_and!; [done | apply is_alloca_kind; by eexists _, _ |]. exists b. apply elem_of_app. right. left.
    + rewrite map_app. intros N. apply NoDup_app in N as (N1 & N2 & _). apply NoDup_app. split_and!; [by apply R2 | | apply NoDup_singleton].
      intros a Ha ->%list_elem_of_singleton. destruct (R1 i Ha) as (_ & _ & c & Hc). apply (N2 i); [| left].
      by apply (list_elem_of_fmap_2' snd _ (c, i)).
    + intros l1 c j v a al vo l2 Eq Kj Ha Hc N. apply split_snoc in Eq as [(_ & _ & [= -> ->]) | (l2' & -> & Eq)]; [congruence |].
      rewrite map_app in N. apply NoDup_app in N as (N1 & N2 & _).
      apply elem_of_app in Ha as [Ha | ->%list_elem_of_singleton]; [by apply (R3 l1 c j v a al vo l2') |].
      exfalso. destruct Hc as [d Hd]. apply (N2 i); [| left]. rewrite Eq, map_app. apply elem_of_app. left.
      by apply (list_elem_of_fmap_2' snd _ (d, i)).
  - eexists. split; [done |].
    destruct (is_alloca F ptr && bool_decide (ptr ∈ promotableAllocas P)) eqn:Ea.
    + apply andb_true_iff in Ea as [_ Hin%bool_decide_eq_true]. split; cbn [promotableAllocas defBlocks].
      * intros a Ha. destruct (R1 a Ha) as (? & ? & c & ?). split_and!; [done | done |]. exists c. apply elem_of_app. by left.
      * rewrite map_app. intros N. apply NoDup_app in N as [N _]. by apply R2.
      * intros l1 c j v a al vo l2 Eq Kj Ha Hc N.
        assert (Mono : forall x, x ∈ default [] (defBlocks P !! a) ->
          x ∈ default [] (<[ptr := default [] (defBlocks P !! ptr) ++ [b]]> (defBlocks P) !! a)).
        { intros x Hx. destruct (decide (a = ptr)) as [-> | Na]; [| by rewrite lookup_insert_ne].
          rewrite lookup_insert_eq. apply elem_of_app. by left. }
        apply split_snoc in Eq as [(_ & _ & [= -> ->]) | (l2' & _ & Eq)].
        -- rewrite K in Kj. injection Kj as -> -> -> ->. rewrite lookup_insert_eq. apply elem_of_app. right. left.
        -- apply Mono, (R3 l1 c j v a al vo l2'); try done. rewrite map_app in N. by apply NoDup_app in N as [N _].
    + apply Same. intros v a al vo Q Ha. injection Q as -> -> -> ->.
      destruct (R1 a Ha) as (_ & Aa & _). rewrite Aa, bool_decide_eq_true_2 in Ea by done. done.
Qed.

(** The first phase ends with allocations of the function that are not marked anywhere, and
    with every block that stores to one of them after it. *)
Lemma findPromotable_ok : exists P E, findPromotable fuel tys F = Some P
  /\ marked_up_to (placements (blocks F) F) E /\ recorded E (placements (blocks F) F) P.
Proof.
  destruct escapedAllocas_ok as (E & EE & ME). unfold findPromotable. rewrite EE. cbn [mbind option_bind].
  rewrite (fold_some_nested (fun b P i => record_inst fuel tys F E b P i) (fun b => getInstructions b F)).
  destruct (fold_some_ind (fun P '(b, i) => record_inst fuel tys F E b P i) (recorded E)
    (placements (blocks F) F) {| promotableAllocas := []; defBlocks := ∅ |}) as (P & EP & RP).
  - split.
    + intros a Ha. by apply not_elem_of_nil in Ha.
    + intros _. constructor.
    + intros l1 b i v a al vo l2 Eq. by destruct l1.
  - intros pre [b i] post P0 Eq R0. by apply (record_inst_ok E pre b i post).
  - by exists P, E.
Qed.

(** C25: the first phase is sound for the uses it has a case for: it ends, and an allocation
    that it finds promotable is an allocation of the function of which no instruction makes
    any use but as the pointer of a non-volatile load or store, unless the instruction is of
    one of the classes that the scan for escapes leaves out. *)
Theorem findPromotable_sound : exists P, findPromotable fuel tys F = Some P
  /\ forall a, a ∈ promotableAllocas P ->
       placed F a /\ is_alloca F a = true
       /\ forall i k, placed F i -> kind_of i F = Some k -> a ∈ value_ops k ->
            a ∈ targets k \/ missed k a \/ plain_access k a.
Proof.
  destruct findPromotable_ok as (P & E & EP & ME & RP). exists P. split; [done |]. intros a Ha.
  destruct (rc_alloca _ _ _ RP a Ha) as (Ne & Aa & b & Hb). apply elem_of_placements in Hb as [Hb Hi].
  split_and!; [by exists b | done |]. intros i k (c & Hc & Hic) K Hv. apply use_cases; [done |]. intros Hm.
  apply Ne, (ME c i k a); try done. by apply elem_of_placements.
Qed.

End Find.
