(* ===== verification/Mem2RegClaims.v ===== *)
(** * Promotion of memory to registers: what the pass promises

    A run of the pass on a function ends; the phis and the renaming compute the reaching
    definitions of the promoted allocations. *)

From S2P Require Import Prelude Diag HIRType MIR MIRFacts SimplifyCFG SimplifyCFGProps MIRUses Dominance DominanceTree DominanceLoop DominanceProps DominanceClaims Worklist MIRModule ConstFold Mem2Reg Mem2RegFrontier Mem2RegPhis Mem2RegSubst Mem2RegRename Mem2RegDFS Mem2RegFind.

Implicit Types (F H : MIRFunction) (D : MIRDominance) (M : MIRModule) (P : Promotion) (R : Renaming) (a b c i p v x y phi L : ref) (phis : BlockPhis) (o : option ref) (k : InstKind) (σ : gmap ref ref).

(** A well-formed function with consistent edges, in which every block and instruction is at
    one place. *)
Record fn_sound F (entry : ref) : Prop := {
  fs_wf : well_formed F;
  fs_co : consistent F;
  fs_entry : exists rest, blocks F = entry :: rest;
  fs_nonnull : entry <> nullptr;
  fs_blocks : NoDup (blocks F);
  fs_succs : forall b, b ∈ blocks F -> NoDup (getSuccessors b F);
  fs_held : forall b i, b ∈ blocks F -> i ∈ getInstructions b F -> is_Some (insts F !! i);
  fs_nodup : forall b, b ∈ blocks F -> NoDup (getInstructions b F);
  fs_apart : forall b c i, b ∈ blocks F -> c ∈ blocks F ->
    i ∈ getInstructions b F -> i ∈ getInstructions c F -> b = c;
  fs_fresh : forall i, is_Some (insts F !! i) -> (i < next_ref F)%N;
  fs_bfresh : forall b, has_block b F -> (b < next_ref F)%N;
}.

(** What the promotion of the allocations that were found relies on: their stores have been
    recorded, and values are computed before they are stored. *)
Record promotable F (entry : ref) P : Prop := {
  pm_fn : fn_sound F entry;
  pm_unique : NoDup (promotableAllocas P);
  pm_alloca : forall a, a ∈ promotableAllocas P -> is_alloca F a = true /\ placed F a;
  pm_defs : forall a b i v al vo, a ∈ promotableAllocas P -> b ∈ blocks F -> i ∈ getInstructions b F ->
    kind_of i F = Some (StoreInst v a al vo) -> b ∈ default [] (defBlocks P !! a);
  pm_stored : forall b pre i post v p al vo, reachable F entry b ->
    getInstructions b F = pre ++ i :: post -> kind_of i F = Some (StoreInst v p al vo) ->
    p ∈ promotableAllocas P ->
    (v ∉ promotableAllocas P) /\ v <> nullptr /\ bbs F !! v = None
    /\ (pload F (promotableAllocas P) v ->
          v ∈ pre \/ exists c, c <> b /\ dominator F entry c b /\ v ∈ getInstructions c F);
}.

(** The instructions that the pass deletes: the loads and stores of promoted allocations,
    and the allocations of reachable blocks. *)
Definition deleted F (entry : ref) PS i : Prop :=
  dead_inst F PS i = true
  /\ ((exists b, reachable F entry b /\ i ∈ getInstructions b F) \/ is_alloca F i = false).

(** What the pass makes of a function: [σ] maps each promoted load of a reachable block to
    its value, and [inv] and [outv] are the reaching definitions of the allocations. *)
Record promotion F (entry : ref) PS phis σ (inv outv : ref -> ref -> option ref) M H : Prop := {
  pr_reaching : forall a, a ∈ PS -> reaching F entry phis inv outv a;
  pr_load : forall b pre L post p al vo, reachable F entry b ->
    getInstructions b F = pre ++ L :: post -> kind_of L F = Some (LoadInst p al vo) -> p ∈ PS ->
    exists v, σ !! L = Some v /\ fills F PS σ M v (after_insts F p pre (inv b p));
  pr_only : forall L v, σ !! L = Some v -> pload F PS L /\ plain F PS v;
  pr_phi : forall y a phi, phi_of phis y a = Some phi -> exists inc,
    kind_of phi H = Some (PhiInst inc) /\ NoDup (map snd inc)
    /\ (forall p, p ∈ map snd inc <-> reachable F entry p /\ y ∈ getSuccessors p F)
    /\ forall v p, (v, p) ∈ inc -> fills F PS σ M v (outv p a);
  pr_kind : forall b i, b ∈ blocks F -> i ∈ getInstructions b F -> ~ deleted F entry PS i ->
    kind_of i H = map_values (sub σ) <$> kind_of i F;
  pr_insts : forall b, b ∈ blocks F -> exists new rest, getInstructions b H = new ++ rest
    /\ (forall phi, phi ∈ new <-> exists a, phi_of phis b a = Some phi)
    /\ (forall i, i ∈ rest <-> i ∈ getInstructions b F /\ ~ deleted F entry PS i)
    /\ rest `sublist_of` getInstructions b F;
  pr_gone : forall b i, b ∈ blocks F -> i ∈ getInstructions b F -> deleted F entry PS i -> insts H !! i = None;
  pr_blocks : blocks H = blocks F;
  pr_edges : forall b, getSuccessors b H = getSuccessors b F /\ getPredecessors b H = getPredecessors b F;
}.

Section Promote.
Context (iteration : gmap ref ref -> list (ref * ref)).
Context (hash_set : list ref -> list ref).
Context (hash_phis : gmap ref ref -> list (ref * ref)).
Context (It : forall m, iteration m ≡ₚ map_to_list m).
Context (Hs : forall l, hash_set l ≡ₚ l).
Context (Hp : forall t, hash_phis t ≡ₚ map_to_list t).

Lemma promotable_renamable F entry P phis :
  promotable F entry P -> (forall b, reachable F entry b -> b ∈ blocks F) ->
  (forall y a, is_Some (phi_of phis y a) -> a ∈ promotableAllocas P) ->
  renamable F entry phis (promotableAllocas P).
Proof.
  intros Q RB Hph. destruct Q as [[] ? ? ? ?]. split; try done; auto. by apply wf_heap.
Qed.

Lemma promotable_heap F entry P a : promotable F entry P -> a ∈ promotableAllocas P -> is_Some (insts F !! a).
Proof.
  intros Q Ha. apply (pm_alloca _ _ _ Q) in Ha as [_ (b & Hb & Hi)]. by apply (fs_held _ _ (pm_fn _ _ _ Q) b).
Qed.

Section Run.
Context (F : MIRFunction) (entry : ref) (rest : list ref) (P : Promotion) (Q : promotable F entry P).
Context (EB : blocks F = entry :: rest).
Context (order : list ref) (m : gmap ref ref) (D : MIRDominance) (A : analyzed F iteration entry order m D).
Context (tys : TypeHeap) (phis : BlockPhis) (G : MIRFunction) (PP : placed_phis tys F phis G).
Context (PhA : forall y a, is_Some (phi_of phis y a) -> a ∈ promotableAllocas P).
Abbreviation PS := (promotableAllocas P).

Lemma run_reach b : reachable F entry b -> b ∈ blocks F.
Proof. apply (reachable_block F iteration entry order m D A). Qed.

Let RB : renamable F entry phis PS := promotable_renamable F entry P phis Q run_reach PhA.

(** The traversal from the entry. *)
Lemma renameDFS_run M : (next_ref G <= m_next M)%N ->
  exists R' V seen σ cb,
    renameDFS hash_phis (S (size (idoms D))) D PS phis
      {| r_module := M; r_function := G; valueStacks := ∅; toDelete := [] |} entry = Some R'
    /\ renamed F entry order D phis G PS V cb [] seen σ (r_module R') (r_function R')
    /\ done_blocks F entry V seen /\ (forall x, x ∈ V <-> reachable F entry x)
    /\ toDelete R' = concat (map (dead_of F PS) V).
Proof.
  intros L. pose proof (fs_wf _ _ (pm_fn _ _ _ Q)) as W. pose proof (fs_co _ _ (pm_fn _ _ _ Q)) as C. pose proof (fs_nonnull _ _ (pm_fn _ _ _ Q)) as NE.
  pose proof (length_order_size F iteration entry order m D A) as Len.
  destruct (renameDFS_traversed F iteration entry rest W C EB NE It order m D A tys phis G PP PS RB hash_phis Hp
    (S (size (idoms D))) entry [] [] ∅ {| r_module := M; r_function := G; valueStacks := ∅; toDelete := [] |})
    as (R' & E & vis & S' & σ & cb & X & I & Db & V & _ & _ & De).
  - eexists. apply (t_entry _ _ _ (iv_tree _ _ _ _ _ (an_inv _ _ _ _ _ _ A))).
  - lia.
  - split.
    + exists entry. by apply (renamed_start F entry order D tys phis G PP PS RB).
    + split; [| intros c Hc; by apply not_elem_of_nil in Hc | constructor].
      intros j. split; [by intros ?%not_elem_of_nil | intros (c & Hc & _); by apply not_elem_of_nil in Hc].
    + intros x _. apply not_elem_of_nil.
    + intros c N Hd. specialize (Hd [entry] (path_refl _ _)). by apply list_elem_of_singleton in Hd.
    + intros a Ha. unfold base. rewrite N.eqb_refl. unfold top, stack_of. cbn. by rewrite lookup_empty.
  - exists R', vis, S', σ, cb. split_and!; [done | done | done | | done].
    intros x. rewrite V. apply (below_entry F iteration entry order m D A).
Qed.

Lemma dead_inst_cases i : dead_inst F PS i = true ->
  (exists ty al, kind_of i F = Some (AllocaInst ty al)) \/ is_alloca F i = false.
Proof.
  unfold dead_inst, is_alloca. destruct (kind_of i F) as [k |]; [| by right].
  destruct k; auto. left. by eexists _, _.
Qed.

(** The dead set of the cleanup is the set of the deleted instructions. *)
Lemma dead_set_deleted V S σ cb M H dl i :
  renamed F entry order D phis G PS V cb [] S σ M H -> (forall x, x ∈ V <-> reachable F entry x) ->
  dl = concat (map (dead_of F PS) V) -> placed F i ->
  i ∈ dl ++ dead_accesses H PS <-> deleted F entry PS i.
Proof.
  intros I HV -> (b & Hb & Hi). rewrite elem_of_app.
  assert (Q1 : i ∈ concat (map (dead_of F PS) V) <->
    dead_inst F PS i = true /\ exists c, reachable F entry c /\ i ∈ getInstructions c F).
  { rewrite list_elem_of_In, in_concat. split.
    - intros (l & Hl & Q2). apply in_map_iff in Hl as (c & <- & Hc). apply list_elem_of_In in Hc, Q2.
      apply list_elem_of_filter in Q2 as [? ?]. split; [done |]. exists c. by rewrite <- HV.
    - intros (Hd & c & Rc & Hc). exists (dead_of F PS c). split.
      + apply in_map_iff. exists c. split; [done |]. by apply list_elem_of_In, HV.
      + apply list_elem_of_In, list_elem_of_filter. done. }
  assert (Q2 : i ∈ dead_accesses H PS <-> dead_inst F PS i = true /\ is_alloca F i = false).
  { assert (Da : dead_access H PS i = dead_inst F PS i && negb (is_alloca F i)).
    { assert (Pl : placed F i) by by exists b.
      unfold dead_access, dead_inst, is_alloca. rewrite (rn_kind _ _ _ _ _ _ _ _ _ _ _ _ _ _ I i Pl).
      destruct (kind_of i F) as [k |]; [| done]. cbn [fmap option_fmap option_map].
      destruct k; cbn [map_values]; rewrite ?andb_true_r, ?andb_false_r; try done;
        by destruct (promoted_sub F entry order D phis G PS RB _ _ _ _ _ _ _ ptr I) as [-> _]. }
    unfold dead_accesses. rewrite list_elem_of_In, in_concat. split.
    - intros (l & Hl & Q2). apply in_map_iff in Hl as (c & <- & Hc). apply list_elem_of_In in Q2.
      apply list_elem_of_filter in Q2 as [Q2 _]. rewrite Da in Q2. apply andb_true_iff in Q2 as [? ?%negb_true_iff]. done.
    - intros [E1 E2]. exists (filter (fun i => dead_access H PS i = true) (getInstructions b H)). split.
      + apply in_map_iff. exists b. split; [done |]. apply list_elem_of_In.
        by rewrite (rn_blocks _ _ _ _ _ _ _ _ _ _ _ _ _ _ I), (pp_blocks _ _ _ _ PP).
      + apply list_elem_of_In, list_elem_of_filter. rewrite Da, E1, E2. split; [done |].
        unfold getInstructions. rewrite (rn_bbs _ _ _ _ _ _ _ _ _ _ _ _ _ _ I).
        destruct (pp_insts _ _ _ _ PP b) as (new & En & _); [by apply (wf_heap _ (fs_wf _ _ (pm_fn _ _ _ Q))) |].
        unfold getInstructions in En. rewrite En. apply elem_of_app. by right. }
  unfold deleted. rewrite Q1, Q2. tauto.
Qed.

(** The phis are not in it. *)
Lemma phi_not_dead V seen σ cb M H dl y a phi :
  renamed F entry order D phis G PS V cb [] seen σ M H ->
  dl = concat (map (dead_of F PS) V) -> phi_of phis y a = Some phi -> phi ∉ dl ++ dead_accesses H PS.
Proof.
  intros I -> Ph. destruct (phi_not_old F entry tys phis G PP PS RB y a phi Ph) as [_ K].
  destruct (rn_phi _ _ _ _ _ _ _ _ _ _ _ _ _ _ I y a phi Ph) as (inc & KH & _).
  rewrite elem_of_app, !list_elem_of_In, in_concat. intros [(l & Hl & Hi) | Hi].
  - apply in_map_iff in Hl as (c & <- & _). apply list_elem_of_In, list_elem_of_filter in Hi as [Hi _].
    unfold dead_inst in Hi. by rewrite K in Hi.
  - unfold dead_accesses in Hi. apply in_concat in Hi as (l & Hl & Hi). apply in_map_iff in Hl as (c & <- & _).
    apply list_elem_of_In, list_elem_of_filter in Hi as [Hi _]. unfold dead_access in Hi. by rewrite KH in Hi.
Qed.

(** The cleanup after the renaming, put together. *)
Lemma promotion_run V seen σ cb M H dl :
  renamed F entry order D phis G PS V cb [] seen σ M H -> done_blocks F entry V seen ->
  (forall x, x ∈ V <-> reachable F entry x) -> dl = concat (map (dead_of F PS) V) ->
  (forall a, a ∈ PS -> reaching F entry phis (in_value F entry order D phis) (out_value F entry order D phis) a) ->
  promotion F entry PS phis σ (in_value F entry order D phis) (out_value F entry order D phis) M (cleanup PS dl H).
Proof.
  intros I Db HV Edl Re. pose proof I as [A1 A2 A3 A4 A5 A6 A7 A8 A9].
  unfold cleanup. set (dead := dl ++ dead_accesses H PS). set (H' := fold_left (erase_dead dead) (blocks H) H).
  assert (EBH : blocks H = blocks F) by (rewrite A1; apply (pp_blocks _ _ _ _ PP)).
  destruct (erase_dead_spec dead (blocks H) H) as [B1 B2 B3 B4].
  fold H' in B1, B2, B3, B4.
  assert (Dd : forall b i, b ∈ blocks F -> i ∈ getInstructions b F -> i ∈ dead <-> deleted F entry PS i).
  { intros b i Hb Hi. apply (dead_set_deleted V seen σ cb M H dl i I HV Edl). by exists b. }
  assert (Nd : forall y a phi, phi_of phis y a = Some phi -> phi ∉ dead).
  { intros y a phi Ph. by apply (phi_not_dead V seen σ cb M H dl y a). }
  assert (Keep : forall i, i ∉ dead -> kind_of i (cleanup PS dl H) = kind_of i H).
  { intros i Ni. unfold kind_of. rewrite B2, decide_False; [done |]. by intros [? _]. }
  assert (Ins : forall b, b ∈ blocks F -> exists new, getInstructions b H = new ++ getInstructions b F
    /\ forall phi, phi ∈ new <-> exists a, phi_of phis b a = Some phi).
  { intros b Hb. destruct (pp_insts _ _ _ _ PP b) as (new & En & _ & Hn); [by apply (wf_heap _ (fs_wf _ _ (pm_fn _ _ _ Q))) |].
    exists new. split; [| done]. unfold getInstructions in *. by rewrite A2. }
  split.
  - done.
  - intros b pre L post p al vo Rb E K Hpp. apply (A9 b pre L post p al vo); try done.
    apply (db_seen _ _ _ _ Db). exists b. rewrite HV. split; [done |]. rewrite E. apply elem_of_middle.
  - intros L v E. split; [| by apply (A8 L)]. apply A7. by eexists.
  - intros y a phi Ph. destruct (A6 y a phi Ph) as (inc & K & Es & Ef). exists inc.
    rewrite (bool_decide_eq_false_2 ((y, a) ∈ [])), app_nil_r in Es by apply not_elem_of_nil.
    split_and!; [rewrite Keep; [done | by apply (Nd y a)] | | | done].
    + rewrite Es. apply NoDup_filter, (db_nodup _ _ _ _ Db).
    + intros p. rewrite Es, list_elem_of_filter, HV. tauto.
  - intros b i Hb Hi Nde. rewrite Keep by by rewrite (Dd b). apply A5. by exists b.
  - intros b Hb. destruct (Ins b Hb) as (new & En & Hn). exists new, (filter (fun i => i ∉ dead) (getInstructions b F)).
    split_and!; [| done | | apply sublist_filter].
    + rewrite B3, decide_True, En, filter_app by (by rewrite EBH). f_equal.
      apply filter_full. intros phi [a Ph]%Hn. by apply (Nd b a).
    + intros i. rewrite list_elem_of_filter. split; intros [X1 X2]; [rewrite <- (Dd b) | rewrite (Dd b)]; done.
  - intros b i Hb Hi De. rewrite B2, decide_True; [done |]. split; [by apply (Dd b) |]. exists b. rewrite EBH.
    split; [done |]. destruct (Ins b Hb) as (new & -> & _). apply elem_of_app. by right.
  - by rewrite B1.
  - intros b. destruct (B4 b) as [-> ->]. unfold getSuccessors, getPredecessors. rewrite A2.
    apply (pp_edges _ _ _ _ PP).
Qed.

End Run.

(** The promotion of the allocations that were found. *)
Lemma promote_run F entry P M :
  promotable F entry P ->
  exists M' H phis σ inv outv, promote iteration hash_set hash_phis P M F = Some (M', H)
    /\ promotion F entry (promotableAllocas P) phis σ inv outv M' H.
Proof.
  intros Q. destruct (fs_entry _ _ (pm_fn _ _ _ Q)) as [rest EB]. pose proof (fs_wf _ _ (pm_fn _ _ _ Q)) as W.
  pose proof (fs_co _ _ (pm_fn _ _ _ Q)) as C. pose proof (fs_nonnull _ _ (pm_fn _ _ _ Q)) as NE. unfold promote.
  destruct (analyze_spec F iteration entry rest W C EB It newDominance) as (order & m & D & E & A).
  rewrite E. cbn [mbind option_bind].
  destruct (computeDominanceFrontiers_analyzed F iteration entry rest W C EB NE order m D A) as (DF & E1 & HDF).
  rewrite E1. cbn [mbind option_bind].
  destruct (place_phis_all (m_types M) DF (defBlocks P) hash_set Hs F (fs_fresh _ _ (pm_fn _ _ _ Q)) (promotableAllocas P)
              (pm_unique _ _ _ Q)) as (phis & G & E2 & PP & Hph); [intros a Ha; by apply (promotable_heap F entry P) |].
  rewrite E2. cbn [mbind option_bind].
  assert (PhA : forall y a, is_Some (phi_of phis y a) -> a ∈ promotableAllocas P) by (intros y a S; by apply Hph in S as [? _]).
  destruct (renameDFS_run F entry rest P Q EB order m D A (m_types M) phis G PP PhA (set_next (next_ref G) M))
    as (R' & V & seen & σ & cb & E3 & I & Db & HV & De); [done |].
  assert (Een : getEntryBlock G = entry) by (unfold getEntryBlock; by rewrite (pp_blocks _ _ _ _ PP), EB).
  rewrite Een, E3. cbn [mbind option_bind].
  eexists _, _, phis, σ, (in_value F entry order D phis), (out_value F entry order D phis). split; [done |].
  apply (promotion_run F entry P Q order m D A (m_types M) phis G PP PhA V seen σ cb); try done.
  intros a Ha. apply (values_reaching F iteration entry rest W C EB NE order m D A phis a DF (default [] (defBlocks P !! a))).
  - intros x b Rx Nb. rewrite HDF by done.
    by apply (between_frontier F iteration entry rest W C EB NE order m D A).
  - intros y. rewrite Hph. tauto.
  - intros b i v al vo Hb Hi K. by apply (pm_defs _ _ _ Q a b i v al vo).
Qed.

(** ** The pass *)

Definition is_load F v : Prop := exists p al vo, kind_of v F = Some (LoadInst p al vo).

(** The function that the pass starts from: allocations are listed before the stores to them
    and used by no instruction that the scan leaves out; what is stored is no null pointer
    and no block; a load is computed before it is used. *)
Record ready (fuel : nat) (tys : TypeHeap) F (entry : ref) : Prop := {
  rd_fn : fn_sound F entry;
  rd_loads : forall v, is_Some (follow (load_step F) fuel v);
  rd_types : forall i ty al, kind_of i F = Some (AllocaInst ty al) -> is_Some (excluded fuel tys ty);
  rd_first : forall l1 b i l2 v a al vo, placements (blocks F) F = l1 ++ (b, i) :: l2 ->
    kind_of i F = Some (StoreInst v a al vo) -> is_alloca F a = true -> exists c, (c, a) ∈ l1;
  rd_uses : forall i k a, placed F i -> kind_of i F = Some k -> is_alloca F a = true ->
    a ∈ value_ops k -> ~ missed k a /\ a ∉ targets k;
  rd_values : forall b i v a al vo, b ∈ blocks F -> i ∈ getInstructions b F ->
    kind_of i F = Some (StoreInst v a al vo) -> v <> nullptr /\ bbs F !! v = None;
  rd_order : forall b pre i post k v, reachable F entry b -> getInstructions b F = pre ++ i :: post ->
    kind_of i F = Some k -> v ∈ value_ops k -> is_load F v ->
    match k with
    | PhiInst _ => exists c, reachable F entry c /\ v ∈ getInstructions c F
    | _ => v ∈ pre \/ exists c, c <> b /\ dominator F entry c b /\ v ∈ getInstructions c F
    end;
}.

Lemma path_prefix F entry b l c : path F entry b l -> c ∈ l -> reachable F entry c.
Proof.
  induction 1 as [| d e l P IH E]; intros Hc.
  - apply list_elem_of_singleton in Hc as ->. exists [entry]. constructor.
  - apply elem_of_cons in Hc as [-> | Hc]; [| by apply IH]. exists (e :: l). by apply path_step with d.
Qed.

Lemma pload_load F PS v : pload F PS v -> is_load F v.
Proof. intros (p & al & vo & K & _). by eexists _, _, _. Qed.

Lemma NoDup_placed F entry : fn_sound F entry -> NoDup (map snd (placements (blocks F) F)).
Proof.
  intros Q. assert (N : NoDup (placements (blocks F) F)) by (apply NoDup_placements; apply Q).
  apply NoDup_fmap_2_strong; [| done]. intros [b i] [c j] H1 H2 E. cbn in E. subst j.
  apply elem_of_placements in H1 as [? ?], H2 as [? ?]. f_equal. by apply (fs_apart _ _ Q b c i).
Qed.

(** What the first phase finds may be promoted. *)
Lemma found_promotable fuel tys F entry : ready fuel tys F entry ->
  exists P, findPromotable fuel tys F = Some P /\ promotable F entry P
    /\ forall i k a, placed F i -> kind_of i F = Some k -> a ∈ promotableAllocas P -> a ∈ value_ops k ->
         plain_access k a.
Proof.
  intros Q. pose proof (rd_fn _ _ _ _ Q) as S.
  destruct (findPromotable_ok fuel tys F (rd_loads _ _ _ _ Q) (rd_types _ _ _ _ Q)) as (P & E & EP & ME & RP).
  exists P. split; [done |].
  assert (Use : forall i k a, placed F i -> kind_of i F = Some k -> a ∈ promotableAllocas P -> a ∉ marks k).
  { intros i k a (c & Hc & Hi) K Ha Hm. destruct (rc_alloca _ _ _ _ RP a Ha) as (Ne & Aa & _).
    apply Ne, (ME c i k a); try done. by apply elem_of_placements. }
  split.
  - split; [done | by apply (rc_nodup _ _ _ _ RP), (NoDup_placed F entry) | | |].
    + intros a Ha. destruct (rc_alloca _ _ _ _ RP a Ha) as (_ & Aa & c & Hc). apply elem_of_placements in Hc.
      split; [done | by exists c].
    + intros a b i v al vo Ha Hb Hi K. destruct (rc_alloca _ _ _ _ RP a Ha) as (_ & Aa & _).
      assert (Hq : (b, i) ∈ placements (blocks F) F) by by apply elem_of_placements.
      apply list_elem_of_split in Hq as (l1 & l2 & El).
      apply (rc_defs _ _ _ _ RP l1 b i v a al vo l2); try done; [| by apply (NoDup_placed F entry)].
      by apply (rd_first _ _ _ _ Q l1 b i l2 v a al vo).
    + intros b pre i post v p al vo Rb El K Hq.
      assert (Hi : i ∈ getInstructions b F) by (rewrite El; apply elem_of_middle).
      destruct Rb as [l Pl]. assert (Hb : b ∈ blocks F).
      { destruct (fs_entry _ _ S) as [rest EB].
        destruct (analyze_spec F iteration entry rest (fs_wf _ _ S) (fs_co _ _ S) EB It newDominance) as (order & m & D & _ & A).
        apply (reachable_block F iteration entry order m D A). by exists l. }
      destruct (rd_values _ _ _ _ Q b i v p al vo Hb Hi K) as [? ?]. split_and!; [| done | done |].
      * intros Hv. apply (Use i _ v) in K; [| by exists b | done]. apply K. left.
      * intros PL%pload_load. apply (rd_order _ _ _ _ Q b pre i post _ v) in K; [done | by exists l | done | left | done].
  - intros i k a Pi K Ha Hv. destruct (rc_alloca _ _ _ _ RP a Ha) as (_ & Aa & _).
    destruct (rd_uses _ _ _ _ Q i k a Pi K Aa Hv). destruct (use_cases k a Hv) as [? | [? | ?]]; try done.
    by apply (Use i k a).
Qed.

(** Nothing in a reachable block refers to what the pass deleted. *)
Lemma promotion_uses fuel tys F entry P phis σ inv outv M H :
  ready fuel tys F entry -> promotion F entry (promotableAllocas P) phis σ inv outv M H ->
  (forall i k a, placed F i -> kind_of i F = Some k -> a ∈ promotableAllocas P -> a ∈ value_ops k -> plain_access k a) ->
  forall b i k v, reachable F entry b -> b ∈ blocks F -> i ∈ getInstructions b H -> kind_of i H = Some k ->
    v ∈ value_ops k -> ~ pload F (promotableAllocas P) v /\ v ∉ promotableAllocas P.
Proof.
  intros Q Pr Use b i k v Rb Hb Hi K Hv.
  assert (Pl : forall w, plain F (promotableAllocas P) w -> ~ pload F (promotableAllocas P) w /\ w ∉ promotableAllocas P)
    by (intros w (? & ? & _); done).
  destruct (pr_insts _ _ _ _ _ _ _ _ _ Pr b Hb) as (new & rest & E & Hn & Hr & _).
  rewrite E in Hi. apply elem_of_app in Hi as [Hi | Hi].
  - apply Hn in Hi as [a Ph]. destruct (pr_phi _ _ _ _ _ _ _ _ _ Pr b a i Ph) as (inc & K' & _ & _ & Hf).
    rewrite K' in K. injection K as <-. cbn in Hv. apply list_elem_of_fmap in Hv as ([w p] & -> & Hw).
    apply Pl. by apply (Hf w p).
  - apply Hr in Hi as [Hi Nd]. rewrite (pr_kind _ _ _ _ _ _ _ _ _ Pr b i Hb Hi Nd) in K.
    apply fmap_Some in K as (k0 & K0 & ->). rewrite value_ops_map in Hv.
    apply list_elem_of_fmap in Hv as (u & -> & Hu). unfold sub.
    destruct (σ !! u) as [w |] eqn:Eu; [by apply Pl, (pr_only _ _ _ _ _ _ _ _ _ Pr u) |]. cbn. split.
    + intros PL. assert (Hc : exists c, reachable F entry c /\ u ∈ getInstructions c F).
      { destruct (list_elem_of_split _ _ Hi) as (pre & post & El).
        pose proof (rd_order _ _ _ _ Q b pre i post k0 u Rb El K0 Hu (pload_load _ _ _ PL)) as O.
        assert (Gen : u ∈ pre \/ (exists c, c <> b /\ dominator F entry c b /\ u ∈ getInstructions c F) ->
          exists c, reachable F entry c /\ u ∈ getInstructions c F).
        { intros [Hq | (c & _ & Dc & Hc)].
          - exists b. split; [done |]. rewrite El. apply elem_of_app. by left.
          - destruct Rb as [l Pb]. exists c. split; [by apply (path_prefix F entry b l c Pb), Dc | done]. }
        destruct k0; first [exact O | by apply Gen]. }
      destruct Hc as (c & Rc & Hc). destruct (list_elem_of_split _ _ Hc) as (pre & post & El).
      destruct PL as (p & al & vo & Ku & Hq).
      destruct (pr_load _ _ _ _ _ _ _ _ _ Pr c pre u post p al vo Rc El Ku Hq) as (w & Ew & _). congruence.
    + intros Ha. assert (Pi : placed F i) by by exists b. pose proof (Use i k0 u Pi K0 Ha Hu) as PA. apply Nd.
      unfold deleted, dead_inst, is_alloca. rewrite K0. destruct k0; try done.
      * destruct PA as [-> _]. split; [by apply bool_decide_eq_true | by right].
      * destruct PA as (-> & _). split; [by apply bool_decide_eq_true | by right].
Qed.

(** C4: on a function that is [ready] the promotion of memory to registers constructs SSA form.
    Such a function has consistent edges, each allocation listed before the stores to it, no use
    of an allocation that the scan has no case for (weak references, shared objects, atomic
    accesses, the function of a closure), stored values that are neither null nor blocks, loads
    computed before they are used, and chains of loads and type texts within the fuel.  The
    phases end.  The phis and, between them, the stores of each promoted allocation are reaching
    definitions along every edge of the graph but those into the entry, where no phi is placed
    for them; each promoted load of a reachable block is replaced by the
    definition that reaches it, or by an undefined value where none does; each phi has one
    value for every reachable predecessor, the one at its end; the promoted loads, stores and
    allocations are gone and every other instruction is as it was, with the loads it used
    replaced.  Nothing that is left in a reachable block refers to a promoted load or
    allocation. *)
Theorem mem2reg_correct fuel F entry M :
  ready fuel (m_types M) F entry ->
  exists P M' H phis σ inv outv,
    findPromotable fuel (m_types M) F = Some P
    /\ promote iteration hash_set hash_phis P M F = Some (M', H)
    /\ promotion F entry (promotableAllocas P) phis σ inv outv M' H
    /\ forall b i k v, reachable F entry b -> i ∈ getInstructions b H -> kind_of i H = Some k ->
         v ∈ value_ops k -> ~ pload F (promotableAllocas P) v /\ v ∉ promotableAllocas P.
Proof.
  intros Q. destruct (found_promotable fuel (m_types M) F entry Q) as (P & EP & PM & Use).
  destruct (promote_run F entry P M PM) as (M' & H & phis & σ & inv & outv & EH & Pr).
  exists P, M', H, phis, σ, inv, outv. split; [done |]. split; [done |]. split; [done |].
  intros b i k v Rb. apply (promotion_uses fuel (m_types M) F entry P phis σ inv outv M' H Q Pr Use); [done |].
  destruct Rb as [l Pb]. destruct (fs_entry _ _ (pm_fn _ _ _ PM)) as [rest EB].
  destruct (analyze_spec F iteration entry rest (fs_wf _ _ (pm_fn _ _ _ PM)) (fs_co _ _ (pm_fn _ _ _ PM)) EB It newDominance)
    as (order & m & D & _ & A).
  apply (reachable_block F iteration entry order m D A). by exists l.
Qed.

End Promote.
