(* ===== verification/Mem2RegExamples.v ===== *)
(** * Promotion of memory to registers: at concrete functions

    A check of the conditions of [mem2reg_correct], the promotion of a loop counter, and
    three functions that the pass breaks. *)

From S2P Require Import Prelude Diag HIRType MIR MIRFacts SimplifyCFG SimplifyCFGProps MIRUses Dominance DominanceTree DominanceLoop DominanceProps DominanceClaims Worklist MIRModule ConstFold ConstFoldModule Mem2Reg Mem2RegFrontier Mem2RegPhis Mem2RegSubst Mem2RegRename Mem2RegDFS Mem2RegFind Mem2RegClaims.

Implicit Types (F H : MIRFunction) (M : MIRModule) (a b c i p v x : ref) (k : InstKind).

(** ** The conditions, decided *)

(** A property of every instruction in the heap. *)
Definition all_kinds F (f : ref -> InstKind -> bool) : bool :=
  forallb (fun q => f (fst q) (i_kind (snd q))) (map_to_list (insts F)).

Lemma all_kinds_spec F f i k : all_kinds F f = true -> kind_of i F = Some k -> f i k = true.
Proof.
  unfold all_kinds. rewrite forallb_forall. intros H K. unfold kind_of in K.
  apply fmap_Some in K as (J & E & ->). apply (H (i, J)). by apply list_elem_of_In, elem_of_map_to_list.
Qed.

Definition is_load_b F v : bool := match kind_of v F with Some (LoadInst _ _ _) => true | _ => false end.

Lemma is_load_b_spec F v : is_load F v <-> is_load_b F v = true.
Proof.
  unfold is_load, is_load_b. split; [by intros (p & al & vo & ->) |].
  destruct (kind_of v F) as [k |]; [| done]. destruct k; try done. by eexists _, _, _.
Qed.

(** No load takes its pointer from a load. *)
Definition loads_b F : bool :=
  all_kinds F (fun _ k => match k with LoadInst p _ _ => negb (is_load_b F p) | _ => true end).

Definition types_b (fuel : nat) (tys : TypeHeap) F : bool :=
  all_kinds F (fun _ k => match k with AllocaInst ty _ => bool_decide (is_Some (excluded fuel tys ty)) | _ => true end).

(** Allocations are listed before the stores to them. *)
Fixpoint first_b F (seen : list ref) (l : list (ref * ref)) : bool :=
  match l with
  | [] => true
  | (_, i) :: l =>
      match kind_of i F with
      | Some (StoreInst _ a _ _) => negb (is_alloca F a) || bool_decide (a ∈ seen)
      | _ => true
      end && first_b F (i :: seen) l
  end.

(** The uses of allocations, and the values that are stored. *)
Definition uses_b F : bool :=
  all_kinds F (fun _ k =>
    forallb (fun v => negb (is_alloca F v)
      || negb match k with
              | StoreWeakInst _ _ | LoadWeakInst _ | MakeSharedInst _ | AtomicLoadInst _ _ | AtomicStoreInst _ _ _
              | AtomicRMWInst _ _ _ _ | AtomicCmpXchgInst _ _ _ _ _ => true
              | MakeClosureInst f _ => N.eqb v f
              | _ => false
              end && negb (bool_decide (v ∈ targets k))) (value_ops k)
    && match k with
       | StoreInst v _ _ _ => negb (N.eqb v nullptr) && negb (bool_decide (is_Some (bbs F !! v)))
       | _ => true
       end).

(** Loads are used after them in their block, and by no phi. *)
Fixpoint order_b F (seen : list ref) (l : list ref) : bool :=
  match l with
  | [] => true
  | i :: l =>
      match kind_of i F with
      | Some (PhiInst inc) => forallb (fun v => negb (is_load_b F v)) (map fst inc)
      | Some k => forallb (fun v => negb (is_load_b F v) || bool_decide (v ∈ seen)) (value_ops k)
      | None => true
      end && order_b F (i :: seen) l
  end.

Definition ready_b (fuel : nat) (tys : TypeHeap) (ext : list ref) F (entry : ref) : bool :=
  fn_ok_b ext (next_ref F) F && bool_decide (head (blocks F) = Some entry) && negb (N.eqb entry nullptr)
  && bool_decide (NoDup (blocks F)) && forallb (fun b => bool_decide (NoDup (getSuccessors b F))) (blocks F)
  && loads_b F && types_b fuel tys F && first_b F [] (placements (blocks F) F) && uses_b F
  && forallb (fun b => order_b F [] (getInstructions b F)) (blocks F).

Lemma loads_b_spec fuel F v : loads_b F = true -> is_Some (follow (load_step F) (S (S fuel)) v).
Proof.
  intros H. cbn [follow]. destruct (N.eqb v nullptr); [by eexists |].
  unfold load_step at 1. destruct (kind_of v F) as [k |] eqn:K; [| by eexists].
  destruct k; try (by eexists). apply (all_kinds_spec _ _ _ _ H) in K.
  apply negb_true_iff in K. unfold is_load_b in K. destruct (N.eqb ptr nullptr); [by eexists |].
  unfold load_step. destruct (kind_of ptr F) as [k |]; [| by eexists]. destruct k; first [done | by eexists].
Qed.

Lemma first_b_spec F l : forall seen, first_b F seen l = true ->
  forall l1 b i l2 v a al vo, l = l1 ++ (b, i) :: l2 -> kind_of i F = Some (StoreInst v a al vo) ->
    is_alloca F a = true -> a ∈ seen \/ exists c, (c, a) ∈ l1.
Proof.
  induction l as [| [b0 i0] l IH]; intros seen H l1 b i l2 v a al vo E K Aa; [by destruct l1 |].
  cbn [first_b] in H. apply andb_true_iff in H as [H1 H2]. destruct l1 as [| q l1]; cbn [app] in E.
  - injection E as -> -> ->. rewrite K, Aa in H1. left. by apply bool_decide_eq_true in H1.
  - injection E as <- ->. destruct (IH _ H2 l1 b i l2 v a al vo eq_refl K Aa) as [[-> | ?]%elem_of_cons | [c Hc]].
    + right. exists b0. left.
    + by left.
    + right. exists c. by right.
Qed.

Lemma order_b_spec F l : forall seen, order_b F seen l = true ->
  forall pre i post k v, l = pre ++ i :: post -> kind_of i F = Some k -> v ∈ value_ops k -> is_load F v ->
    (forall inc, k <> PhiInst inc) /\ (v ∈ seen \/ v ∈ pre).
Proof.
  induction l as [| i0 l IH]; intros seen H pre i post k v E K Hv Lv; [by destruct pre |].
  cbn [order_b] in H. apply andb_true_iff in H as [H1 H2]. destruct pre as [| q pre]; cbn [app] in E.
  - injection E as -> ->. rewrite K in H1. apply is_load_b_spec in Lv.
    destruct k; cbv beta iota in H1; try (split; [done | left]; apply (forallb_elem _ _ H1) in Hv;
      rewrite Lv in Hv; by apply bool_decide_eq_true in Hv).
    exfalso. cbn [value_ops] in Hv. apply (forallb_elem _ _ H1) in Hv. by rewrite Lv in Hv.
  - injection E as <- ->. destruct (IH _ H2 pre i post k v eq_refl K Hv Lv) as [? [[-> | ?]%elem_of_cons | ?]];
      (split; [done |]); [right; left | by left | right; by right].
Qed.

Lemma ready_b_spec fuel tys ext F entry :
  ready_b (S (S fuel)) tys ext F entry = true -> ready (S (S fuel)) tys F entry.
Proof.
  unfold ready_b. rewrite !andb_true_iff. intros [[[[[[[[[H1 H2] H3] H4] H5] H6] H7] H8] H9] H10].
  apply (fn_ok_b_spec (fun v => v ∈ ext)) in H1; [| done]. apply bool_decide_eq_true in H2, H4.
  pose proof (forallb_elem _ _ H5) as K5. pose proof (forallb_elem _ _ H10) as K10.
  assert (FS : fn_sound F entry).
  { destruct H1. split; try done.
    - destruct (blocks F) as [| e rest]; [done |]. injection H2 as ->. by exists rest.
    - by apply negb_true_iff, N.eqb_neq in H3.
    - intros b Hb. by apply K5, bool_decide_eq_true in Hb. }
  split; [done | | | | | |].
  - intros v. by apply loads_b_spec.
  - intros i ty al K. apply (all_kinds_spec _ _ _ _ H7) in K. by apply bool_decide_eq_true in K.
  - intros l1 b i l2 v a al vo E K Aa.
    destruct (first_b_spec F _ [] H8 l1 b i l2 v a al vo E K Aa) as [Q | Q]; [by apply not_elem_of_nil in Q | done].
  - intros i k a _ K Aa Ha. apply (all_kinds_spec _ _ _ _ H9) in K. apply andb_true_iff in K as [K _].
    apply (forallb_elem _ _ K) in Ha. rewrite Aa in Ha. apply andb_true_iff in Ha as [Ha1 Ha2].
    apply negb_true_iff, bool_decide_eq_false in Ha2. split; [| done]. intros Mi.
    destruct k; try done. cbn [missed] in Mi. subst. by rewrite N.eqb_refl in Ha1.
  - intros b i v a al vo _ _ K. apply (all_kinds_spec _ _ _ _ H9) in K. rewrite !andb_true_iff in K.
    destruct K as (_ & K1 & K2). apply negb_true_iff, N.eqb_neq in K1. apply negb_true_iff, bool_decide_eq_false in K2.
    split; [done |]. destruct (bbs F !! v); [| done]. exfalso. apply K2. by eexists.
  - intros b pre i post k v Rb E K Hv Lv. assert (Hb : b ∈ blocks F).
    { destruct Rb as [l Pb]. clear E. induction Pb as [| p c l Pb IH Hc].
      - destruct (blocks F); [done |]. injection H2 as ->. left.
      - apply (wf_closed _ (ok_wf _ _ _ H1) p); [done |]. by apply (co_succ _ (ok_edges _ _ _ H1)). }
    destruct (order_b_spec F _ [] (K10 b Hb) pre i post k v E K Hv Lv) as [Np [Q | Q]]; [by apply not_elem_of_nil in Q |].
    destruct k; try (by left). by destruct (Np incoming).
Qed.

(** ** A loop counter *)

Abbreviation same := (fun l : list ref => l).
Abbreviation run := (runOnModule 3 map_to_list same map_to_list).

(** [i = 0; while (i < 9) i = i + 1; return i;]. *)
Definition counting : MIRModule :=
  module_of
    {| insts := list_to_map [(10%N, typed 4 (AllocaInst 2 4)); (11%N, typed 0 (StoreInst 50 10 4 false));
                             (12%N, typed 0 (BranchInst 2)); (13%N, typed 2 (LoadInst 10 4 false));
                             (14%N, typed 3 (CompareInst CmpPredicate.LT 13 51));
                             (15%N, typed 0 (CondBranchInst 14 3 4)); (16%N, typed 2 (LoadInst 10 4 false));
                             (17%N, typed 2 (BinaryInst Opcode.Add 16 52)); (18%N, typed 0 (StoreInst 17 10 4 false));
                             (19%N, typed 0 (BranchInst 2)); (20%N, typed 2 (LoadInst 10 4 false));
                             (21%N, typed 0 (ReturnInst 20))];
       bbs := list_to_map [(1%N, block_of [10; 11; 12]%N); (2%N, block_of [13; 14; 15]%N);
                           (3%N, block_of [16; 17; 18; 19]%N); (4%N, block_of [20; 21]%N)];
       blocks := [1; 2; 3; 4]%N; next_ref := 300%N |} []
    [(50%N, const_int 0 2); (51%N, const_int 9 2); (52%N, const_int 1 2)].

(** The instructions of some blocks of the function of a module. *)
Definition listing M (bs : list ref) : list (list (ref * option InstKind)) :=
  map (fun b => map (fun i => (i, kind_of i (body 200 M))) (getInstructions b (body 200 M))) bs.

Example counting_result :
  ('(changed, M) ← run counting; Some (changed, listing M [1; 2; 3; 4]%N))
  = Some (true,
      [[(12%N, Some (BranchInst 2))];
       [(300%N, Some (PhiInst [(50%N, 1%N); (17%N, 3%N)]));
        (14%N, Some (CompareInst CmpPredicate.LT 300 51)); (15%N, Some (CondBranchInst 14 3 4))];
       [(17%N, Some (BinaryInst Opcode.Add 300 52)); (19%N, Some (BranchInst 2))];
       [(21%N, Some (ReturnInst 300))]]).
Proof. by vm_compute. Qed.

Lemma counting_ready : ready 3 (m_types counting) (body 200 counting) 1.
Proof. apply (ready_b_spec 1 _ [50%N; 51%N; 52%N]). by vm_compute. Qed.

Lemma mem2reg_correct_witness :
  exists P M' H phis σ inv outv,
    findPromotable 3 (m_types counting) (body 200 counting) = Some P
    /\ promote map_to_list same map_to_list P counting (body 200 counting) = Some (M', H)
    /\ promotion (body 200 counting) 1 (promotableAllocas P) phis σ inv outv M' H.
Proof.
  destruct (mem2reg_correct map_to_list same map_to_list (fun m => reflexivity _) (fun l => reflexivity _)
              (fun m => reflexivity _) 3 (body 200 counting) 1 counting counting_ready)
    as (P & M' & H & phis & σ & inv & outv & E1 & E2 & Pr & _).
  exists P, M', H, phis, σ, inv, outv. split; [exact E1 |]. split; [exact E2 | exact Pr].
Defined.

Lemma findPromotable_sound_witness :
  exists P, findPromotable 3 (m_types counting) (body 200 counting) = Some P
    /\ forall a, a ∈ promotableAllocas P -> placed (body 200 counting) a /\ is_alloca (body 200 counting) a = true.
Proof.
  destruct (findPromotable_sound 3 (m_types counting) (body 200 counting)) as (P & E & H).
  - apply counting_ready.
  - apply counting_ready.
  - exists P. split; [exact E |]. intros a Ha. destruct (H a Ha) as (H1 & H2 & _). split; [exact H1 | exact H2].
Defined.

Lemma counting_path : path (body 200 counting) 1 3 [3; 2; 1]%N.
Proof.
  apply path_step with 2%N; [apply path_step with 1%N; [constructor |] |].
  - by apply (subset_b_spec [2%N] (getSuccessors 1 (body 200 counting))); [| left].
  - by apply (subset_b_spec [3%N] (getSuccessors 2 (body 200 counting))); [| left].
Qed.

Lemma computeDominanceFrontiers_correct_witness :
  exists D DF, analyze (body 200 counting) map_to_list newDominance = Some D
    /\ computeDominanceFrontiers (body 200 counting) D = Some DF
    /\ in_frontier (body 200 counting) 1 3 2.
Proof.
  pose proof (rd_fn _ _ _ _ counting_ready) as S.
  destruct (computeDominanceFrontiers_correct (body 200 counting) map_to_list 1 [2; 3; 4]%N (fs_wf _ _ S) (fs_co _ _ S)
              eq_refl (fs_nonnull _ _ S) (fun m => reflexivity _)) as (D & DF & E1 & E2 & H).
  exists D, DF. split; [exact E1 |]. split; [exact E2 |].
  apply H; [exists [3; 2; 1]%N; exact counting_path | discriminate |].
  assert (Q : (D ← analyze (body 200 counting) map_to_list newDominance;
    DF ← computeDominanceFrontiers (body 200 counting) D; Some (DF !! 3%N)) = Some (Some [2%N])) by by vm_compute.
  rewrite E1 in Q. cbn [mbind option_bind] in Q. rewrite E2 in Q. cbn [mbind option_bind] in Q.
  apply (inj Some) in Q. rewrite Q. left.
Defined.

Lemma place_phis_correct_witness :
  exists phis H, fold_some (place_phis same (m_types counting) (list_to_map [(2%N, [2%N]); (3%N, [2%N])])
      (list_to_map [(10%N, [1%N; 3%N])])) [10%N] (∅, body 200 counting) = Some (phis, H)
    /\ placed_phis (m_types counting) (body 200 counting) phis H.
Proof.
  destruct (place_phis_correct (m_types counting) (list_to_map [(2%N, [2%N]); (3%N, [2%N])])
              (list_to_map [(10%N, [1%N; 3%N])]) same (fun l => reflexivity _) (body 200 counting)
              (fs_fresh _ _ (rd_fn _ _ _ _ counting_ready)) [10%N]) as (phis & H & E & PP & _).
  - apply NoDup_singleton.
  - intros a ->%list_elem_of_singleton. by eexists.
  - exists phis, H. split; [exact E | exact PP].
Defined.

(** ** Functions that the pass breaks *)

(** [atomic_store(&a, 7); return a;] on a local variable [a]. *)
Definition atomic_local : MIRModule :=
  module_of
    {| insts := list_to_map [(10%N, typed 4 (AllocaInst 2 4)); (11%N, typed 0 (AtomicStoreInst 50 10 MemoryOrder.SeqCst));
                             (12%N, typed 2 (LoadInst 10 4 false)); (13%N, typed 0 (ReturnInst 12))];
       bbs := list_to_map [(1%N, block_of [10; 11; 12; 13]%N)];
       blocks := [1%N]; next_ref := 300%N |} [] [(50%N, const_int 7 2)].

(** The scan for escapes has no case for atomic operations: the local variable of an
    atomic store is promoted, so that the store is left with a pointer to a destroyed
    allocation, and the variable is read as undefined. *)
Theorem atomic_pointer_promoted :
  exists M, run atomic_local = Some (true, M)
    /\ listing M [1%N] = [[(11%N, Some (AtomicStoreInst 50 10 MemoryOrder.SeqCst)); (13%N, Some (ReturnInst 300))]]
    /\ insts (body 200 M) !! 10%N = None /\ const_of 300 M = Some ConstantUndef.
Proof.
  assert (Q : ('(c, M) ← run atomic_local;
      Some (c, listing M [1%N], bool_decide (insts (body 200 M) !! 10%N = None), const_of 300 M))
    = Some (true, [[(11%N, Some (AtomicStoreInst 50 10 MemoryOrder.SeqCst)); (13%N, Some (ReturnInst 300))]],
            true, Some ConstantUndef)) by by vm_compute.
  destruct (run atomic_local) as [[c M] |]; [| discriminate Q]. cbn [mbind option_bind] in Q.
  apply (inj Some) in Q. rewrite !pair_equal_spec in Q. destruct Q as [[[-> E1] E2] E3]. exists M. split_and!; [done | exact E1 | | exact E3].
  by apply bool_decide_eq_true in E2.
Qed.

(** A load in a block that nothing reaches, and a use of it there. *)
Definition unreached_load : MIRModule :=
  module_of
    {| insts := list_to_map [(10%N, typed 4 (AllocaInst 2 4)); (11%N, typed 0 (StoreInst 50 10 4 false));
                             (12%N, typed 0 (ReturnInst 50)); (20%N, typed 2 (LoadInst 10 4 false));
                             (21%N, typed 2 (BinaryInst Opcode.Add 20 50)); (22%N, typed 0 (ReturnInst 21))];
       bbs := list_to_map [(1%N, block_of [10; 11; 12]%N); (2%N, block_of [20; 21; 22]%N)];
       blocks := [1; 2]%N; next_ref := 300%N |} [] [(50%N, const_int 7 2)].

(** The cleanup deletes the load without replacing it: the addition keeps a pointer to it. *)
Theorem unreached_load_deleted :
  exists M, run unreached_load = Some (true, M)
    /\ listing M [2%N] = [[(21%N, Some (BinaryInst Opcode.Add 20 50)); (22%N, Some (ReturnInst 21))]]
    /\ insts (body 200 M) !! 20%N = None.
Proof.
  assert (Q : ('(c, M) ← run unreached_load; Some (c, listing M [2%N], bool_decide (insts (body 200 M) !! 20%N = None)))
    = Some (true, [[(21%N, Some (BinaryInst Opcode.Add 20 50)); (22%N, Some (ReturnInst 21))]], true)) by by vm_compute.
  destruct (run unreached_load) as [[c M] |]; [| discriminate Q]. cbn [mbind option_bind] in Q.
  apply (inj Some) in Q. rewrite !pair_equal_spec in Q. destruct Q as [[-> E1] E2]. exists M. split_and!; [done | exact E1 |].
  by apply bool_decide_eq_true in E2.
Qed.

(** [a = 7; if (c) a = 8; return a;] with the block of the second store listed before that
    of the allocation. *)
Definition store_listed_first : MIRModule :=
  module_of
    {| insts := list_to_map [(9%N, typed 0 (BranchInst 2)); (10%N, typed 4 (AllocaInst 2 4));
                             (11%N, typed 0 (StoreInst 50 10 4 false)); (12%N, typed 0 (CondBranchInst 90 3 4));
                             (13%N, typed 0 (StoreInst 51 10 4 false)); (14%N, typed 0 (BranchInst 4));
                             (15%N, typed 2 (LoadInst 10 4 false)); (16%N, typed 0 (ReturnInst 15))];
       bbs := list_to_map [(1%N, block_of [9%N]); (2%N, block_of [10; 11; 12]%N); (3%N, block_of [13; 14]%N);
                           (4%N, block_of [15; 16]%N)];
       blocks := [1; 3; 2; 4]%N; next_ref := 300%N |} [] [(50%N, const_int 7 2); (51%N, const_int 8 2)].

(** A store in a block that is listed before the block of its allocation is not recorded:
    no phi is placed for it, and the function returns the value that the store overwrites. *)
Theorem early_store_lost :
  exists M, run store_listed_first = Some (true, M)
    /\ listing M [2; 3; 4]%N
       = [[(12%N, Some (CondBranchInst 90 3 4))]; [(14%N, Some (BranchInst 4))]; [(16%N, Some (ReturnInst 50))]].
Proof.
  assert (Q : ('(c, M) ← run store_listed_first; Some (c, listing M [2; 3; 4]%N))
    = Some (true, [[(12%N, Some (CondBranchInst 90 3 4))]; [(14%N, Some (BranchInst 4))]; [(16%N, Some (ReturnInst 50))]]))
    by by vm_compute.
  destruct (run store_listed_first) as [[c M] |]; [| discriminate Q]. cbn [mbind option_bind] in Q.
  apply (inj Some) in Q. rewrite !pair_equal_spec in Q. destruct Q as [-> E1]. by exists M.
Qed.
