(* ===== verification/Semantics.v ===== *)
(** * Execution of functions

    An abstract semantics of the body of a function, against which the passes that change
    control flow are proved.  Branches, returns, phis and comparisons have their meaning;
    every other instruction is interpreted by a [Machine], which sees the instruction
    without the names of its operands, their values and its own state, and which is free to
    choose the target of a switch, an invoke or a throw.  A run goes from block to block; the
    fuel is the number of blocks that it may enter. *)

From S2P Require Import Prelude Diag HIRType MIR MIRFacts SimplifyCFG MIRUses.

Implicit Types (F G : MIRFunction) (b c i p v x : ref) (k : InstKind) (l : list ref).

(** What an instruction does: it has a value, it transfers control to one of its targets, or
    the run ends in it. *)
Inductive Effect (V S : Type) : Type :=
  | Value (v : V) (s : S)
  | Leave (target : nat) (v : V) (s : S)
  | Stop (s : S).
Arguments Value {V S}. Arguments Leave {V S}. Arguments Stop {V S}.

(** The values and states of a machine, with what is known of comparisons. *)
Class Machine (V S : Type) := {
  m_null : V;
  m_truth : V -> bool;
  m_compare : CmpPredicate.t -> V -> V -> V;
  m_exec : InstKind -> list V -> S -> Effect V S;
  m_compare_same : forall a, m_truth (m_compare CmpPredicate.NE a a) = false;
}.

(** The end of a run: a return, the end in another instruction, or no meaning. *)
Inductive Outcome (V S : Type) : Type :=
  | Returned (v : option V) (s : S)
  | Stopped (s : S)
  | Stuck.
Arguments Returned {V S}. Arguments Stopped {V S}. Arguments Stuck {V S}.

Inductive Next (V S : Type) : Type :=
  | Goto (b : ref) (env : ref -> V) (s : S)
  | Done (o : Outcome V S).
Arguments Goto {V S}. Arguments Done {V S}.

(** An instruction without its operands. *)
Definition skeleton k : InstKind := map_values (fun _ => nullptr) k.

(** The entry of a phi for a predecessor. *)
Definition entry_for p (inc : list (ref * ref)) : option ref :=
  fst <$> find (fun e => N.eqb (snd e) p) inc.

Section Run.
Context {V St : Type} `{Machine V St}.

Implicit Types (ρ : ref -> V) (s : St).

Definition bind i (a : V) ρ : ref -> V := fun j => if N.eqb j i then a else ρ j.

(** The phis of a block read their entries for the block that control comes from, all before
    the first of them is assigned. *)
Definition phi_value F p ρ i : option (ref * V) :=
  match kind_of i F with
  | Some (PhiInst inc) => v ← entry_for p inc; Some (i, ρ v)
  | _ => None
  end.

Definition bind_all (vs : list (ref * V)) ρ : ref -> V :=
  fold_left (fun ρ '(i, a) => bind i a ρ) vs ρ.

Definition enter F p b ρ : option (ref -> V) :=
  vs ← mapM (phi_value F p ρ) (leading_phis (getInstructions b F) F);
  Some (bind_all vs ρ).

Fixpoint run_insts F l ρ s : Next V St :=
  match l with
  | [] => Done Stuck
  | i :: l =>
      match kind_of i F with
      | Some (BranchInst t) => Goto t ρ s
      | Some (CondBranchInst c t f) => Goto (if m_truth (ρ c) then t else f) ρ s
      | Some (ReturnInst v) => Done (Returned (if N.eqb v nullptr then None else Some (ρ v)) s)
      | Some (CompareInst pred a c) => run_insts F l (bind i (m_compare pred (ρ a) (ρ c)) ρ) s
      | Some (PhiInst _) | None => Done Stuck
      | Some k =>
          match m_exec (skeleton k) (map ρ (value_ops k)) s with
          | Value a s => run_insts F l (bind i a ρ) s
          | Leave n a s =>
              match targets k !! n with
              | Some t => Goto t (bind i a ρ) s
              | None => Done Stuck
              end
          | Stop s => Done (Stopped s)
          end
      end
  end.

Definition run_block F p b ρ s : Next V St :=
  match enter F p b ρ with
  | Some ρ => run_insts F (drop (length (leading_phis (getInstructions b F) F)) (getInstructions b F)) ρ s
  | None => Done Stuck
  end.

(** Control comes to [b] from [p]. *)
Fixpoint run (fuel : nat) F p b ρ s : option (Outcome V St) :=
  match fuel with
  | 0 => None
  | S fuel =>
      match run_block F p b ρ s with
      | Goto c ρ s => run fuel F b c ρ s
      | Done o => Some o
      end
  end.

(** The run from the entry ends with an outcome. *)
Definition ends F ρ s (o : Outcome V St) : Prop :=
  exists fuel, run fuel F nullptr (getEntryBlock F) ρ s = Some o.

Lemma run_more fuel fuel' F p b ρ s o :
  run fuel F p b ρ s = Some o -> fuel <= fuel' -> run fuel' F p b ρ s = Some o.
Proof.
  revert fuel' p b ρ s. induction fuel as [| fuel IH]; intros fuel' p b ρ s E L; [done |].
  destruct fuel' as [| fuel']; [lia |]. cbn [run] in *. destruct (run_block F p b ρ s); [| done].
  apply IH; [done | lia].
Qed.

(** A run has at most one outcome. *)
Lemma ends_unique F ρ s o o' : ends F ρ s o -> ends F ρ s o' -> o = o'.
Proof.
  intros [n E] [n' E']. apply (run_more n (n + n')) in E; [| lia]. apply (run_more n' (n + n')) in E'; [| lia].
  congruence.
Qed.

(** ** Environments that agree outside some instructions *)

Definition agree (D : list ref) ρ ρ' : Prop := forall v, v ∉ D -> ρ v = ρ' v.

Lemma agree_bind D i a ρ ρ' : agree D ρ ρ' -> agree D (bind i a ρ) (bind i a ρ').
Proof. intros A v Hv. unfold bind. case_match; [done | by apply A]. Qed.

Lemma agree_bind_in D i a ρ ρ' : agree D ρ ρ' -> i ∈ D -> agree D (bind i a ρ) ρ'.
Proof. intros A Hi v Hv. unfold bind. destruct (N.eqb_spec v i) as [-> | N]; [done | by apply A]. Qed.

(** After an assignment the two sides agree there. *)
Lemma agree_assign D i a ρ ρ' : agree (i :: D) ρ ρ' -> agree D (bind i a ρ) (bind i a ρ').
Proof.
  intros A v Hv. unfold bind. destruct (N.eqb_spec v i) as [-> | N]; [done |].
  apply A. by apply not_elem_of_cons.
Qed.

Lemma agree_map D ρ ρ' (l : list ref) : agree D ρ ρ' -> (forall v, v ∈ l -> v ∉ D) -> map ρ l = map ρ' l.
Proof.
  intros A Hl. apply map_ext_in. intros v Hv%list_elem_of_In. by apply A, Hl.
Qed.

(** Two ways to go on that nothing but values of [D] tells apart. *)
Definition next_agree (D : list ref) (n n' : Next V St) : Prop :=
  match n, n' with
  | Goto b ρ s, Goto b' ρ' s' => b = b' /\ s = s' /\ agree D ρ ρ'
  | Done o, Done o' => o = o'
  | _, _ => False
  end.

(** Instructions that do not use the values of [D] do the same on both sides, and then the
    rest is run. *)
Lemma run_insts_agree D (Q : Next V St -> Next V St -> Prop) F G l r r' ρ ρ' s :
  (forall n n', next_agree D n n' -> Q n n') ->
  (forall i, i ∈ l -> kind_of i G = kind_of i F) ->
  (forall i k v, i ∈ l -> kind_of i F = Some k -> v ∈ value_ops k -> v ∉ D) ->
  (forall ρ1 ρ1' s, agree D ρ1 ρ1' -> (forall v, v ∉ l -> ρ1 v = ρ v /\ ρ1' v = ρ' v) ->
     Q (run_insts F r ρ1 s) (run_insts G r' ρ1' s)) ->
  agree D ρ ρ' -> Q (run_insts F (l ++ r) ρ s) (run_insts G (l ++ r') ρ' s).
Proof.
  intros HQ. revert ρ ρ' s. induction l as [| i l IH]; intros ρ ρ' s K U R A; [by apply R |].
  cbn [app run_insts]. rewrite (K i) by left. destruct (kind_of i F) as [k |] eqn:E; [| by apply HQ].
  assert (Uk : forall v, v ∈ value_ops k -> v ∉ D) by (intros v; apply (U i k); [left | done]).
  pose proof (agree_map D ρ ρ' (value_ops k) A Uk) as Em.
  assert (B : forall a s, Q (run_insts F (l ++ r) (bind i a ρ) s) (run_insts G (l ++ r') (bind i a ρ') s)).
  { intros a s0. apply IH.
    - intros j Hj. apply K. by right.
    - intros j kj v Hj. apply U. by right.
    - intros ρ1 ρ1' s1 A1 Fr. apply R; [done |]. intros v [N Hv]%not_elem_of_cons. destruct (Fr v Hv) as [-> ->].
      unfold bind. by rewrite (proj2 (N.eqb_neq _ _) N).
    - by apply agree_bind. }
  destruct k; try (rewrite <- Em;
    match goal with |- context [m_exec ?k ?l ?s] => destruct (m_exec k l s) as [a s1 | n a s1 | s1] end;
    [apply B | case_match; apply HQ; [split_and!; [done | done | by apply agree_bind] | done] | by apply HQ]).
  - by apply HQ.
  - apply HQ. rewrite (A cond) by (apply Uk; left). done.
  - apply HQ. cbn. case_match; [done |]. rewrite (A val); [done |]. apply Uk. left.
  - rewrite (A lhs), (A rhs) by (apply Uk; cbn [value_ops]; rewrite !elem_of_cons; tauto). apply B.
  - by apply HQ.
Qed.

(** Instructions assign to themselves only. *)
Lemma run_insts_frame F l ρ s c ρ1 s1 :
  run_insts F l ρ s = Goto c ρ1 s1 -> forall v, v ∉ l -> ρ1 v = ρ v.
Proof.
  revert ρ s. induction l as [| i l IH]; intros ρ s E v Hv; [done |]. apply not_elem_of_cons in Hv as [N Hv].
  assert (B : forall a, bind i a ρ v = ρ v) by (intros a; unfold bind; by rewrite (proj2 (N.eqb_neq _ _) N)).
  cbn [run_insts] in E. destruct (kind_of i F) as [k |]; [| done].
  destruct k; try (match type of E with context [m_exec ?k ?l ?s] => destruct (m_exec k l s) as [a s2 | n a s2 | s2] end;
    [by rewrite (IH _ _ E v Hv), B | case_match; [injection E as _ <- _; apply B | done] | done]); try done.
  - by injection E as _ <- _.
  - by injection E as _ <- _.
  - by rewrite (IH _ _ E v Hv), B.
Qed.

(** Control goes to a target of an instruction. *)
Lemma run_insts_target F l ρ s c ρ1 s1 :
  run_insts F l ρ s = Goto c ρ1 s1 -> exists i k, i ∈ l /\ kind_of i F = Some k /\ c ∈ targets k.
Proof.
  revert ρ s. induction l as [| i l IH]; intros ρ s E; [done |].
  assert (B : (exists j k, j ∈ l /\ kind_of j F = Some k /\ c ∈ targets k) ->
    exists j k, j ∈ i :: l /\ kind_of j F = Some k /\ c ∈ targets k).
  { intros (j & k & Hj & Hk). exists j, k. split; [by right | done]. }
  cbn [run_insts] in E. destruct (kind_of i F) as [k |] eqn:K; [| done].
  assert (A : c ∈ targets k -> exists j k, j ∈ i :: l /\ kind_of j F = Some k /\ c ∈ targets k).
  { intros Hc. exists i, k. split; [left | done]. }
  destruct k; try (match type of E with context [m_exec ?k ?l ?s] => destruct (m_exec k l s) as [a s2 | n a s2 | s2] end;
    [by apply B, (IH _ _ E) | case_match; [injection E as <- _ _; apply A; by eapply list_elem_of_lookup_2 | done] | done]);
    try done.
  - injection E as <- _ _. apply A. left.
  - injection E as <- _ _. apply A. case_match; [left | right; left].
  - by apply B, (IH _ _ E).
Qed.

(** ** Phis *)

Lemma bind_all_other vs ρ v : v ∉ map fst vs -> bind_all vs ρ v = ρ v.
Proof.
  unfold bind_all. revert ρ. induction vs as [| [i a] vs IH]; intros ρ Hv; [done |]. cbn [fold_left].
  cbn [map fst] in Hv. apply not_elem_of_cons in Hv as [N Hv]. rewrite IH by done. unfold bind.
  by rewrite (proj2 (N.eqb_neq _ _) N).
Qed.

Lemma bind_all_value vs ρ i a : NoDup (map fst vs) -> (i, a) ∈ vs -> bind_all vs ρ i = a.
Proof.
  unfold bind_all. revert ρ. induction vs as [| [j c] vs IH]; intros ρ N Hi; [by apply not_elem_of_nil in Hi |].
  cbn [map fst] in N. apply NoDup_cons in N as [N1 N2]. cbn [fold_left]. apply elem_of_cons in Hi as [Hi | Hi].
  - injection Hi as -> ->. fold (bind_all vs (bind j c ρ)). rewrite bind_all_other by done.
    unfold bind. by rewrite N.eqb_refl.
  - by apply IH.
Qed.

Lemma bind_all_agree D vs ρ ρ' : agree (map fst vs ++ D) ρ ρ' -> agree D (bind_all vs ρ) (bind_all vs ρ').
Proof.
  unfold bind_all. revert ρ ρ'. induction vs as [| [i a] vs IH]; intros ρ ρ' A; [done |]. cbn [fold_left].
  apply IH, agree_assign, A.
Qed.

(** The names of the values that are read are those of the phis. *)
Lemma phi_values_names F p ρ l vs : mapM (phi_value F p ρ) l = Some vs -> map fst vs = l.
Proof.
  revert vs. induction l as [| i l IH]; intros vs E; cbn in E; [by injection E as <- |].
  destruct (phi_value F p ρ i) as [[j a] |] eqn:Ev; [| done]. cbn in E.
  destruct (mapM (phi_value F p ρ) l) as [vs' |]; [| done]. cbn in E. injection E as <-. cbn. f_equal; [| by apply IH].
  unfold phi_value in Ev. destruct (kind_of i F) as [[] |]; try done.
  destruct (entry_for p incoming); [| done]. cbn in Ev. by injection Ev as -> _.
Qed.

Lemma phi_values_elem F p ρ l vs i a :
  mapM (phi_value F p ρ) l = Some vs -> i ∈ l -> phi_value F p ρ i = Some (i, a) -> (i, a) ∈ vs.
Proof.
  revert vs. induction l as [| j l IH]; intros vs E Hi P; [by apply not_elem_of_nil in Hi |]. cbn in E.
  destruct (phi_value F p ρ j) as [e |] eqn:Ev; [| done]. cbn in E.
  destruct (mapM (phi_value F p ρ) l) as [vs' |]; [| done]. cbn in E. injection E as <-.
  apply elem_of_cons in Hi as [-> | Hi]; [| right; by apply IH]. rewrite P in Ev. injection Ev as <-. left.
Qed.

Lemma phi_values_ext F G p p' ρ ρ' l :
  (forall i, i ∈ l -> phi_value F p ρ i = phi_value G p' ρ' i) ->
  mapM (phi_value F p ρ) l = mapM (phi_value G p' ρ') l.
Proof.
  induction l as [| i l IH]; intros E; [done |]. cbn. rewrite (E i) by left. rewrite IH; [done |].
  intros j Hj. apply E. by right.
Qed.

Lemma phi_values_total F p ρ l :
  (forall i, i ∈ l -> is_Some (phi_value F p ρ i)) -> is_Some (mapM (phi_value F p ρ) l).
Proof.
  induction l as [| i l IH]; intros E; [by eexists |]. cbn. destruct (E i ltac:(left)) as [e ->]. cbn.
  destruct IH as [vs ->]; [intros j Hj; apply E; by right |]. by eexists.
Qed.

(** ** Blocks *)

Lemma leading_phis_length l F : length (leading_phis l F) <= length l.
Proof.
  induction l as [| i l IH]; [done |]. cbn [leading_phis]. destruct (kind_of i F) as [[] |]; cbn; lia.
Qed.

Lemma leading_phis_elem l F i : i ∈ leading_phis l F -> i ∈ l.
Proof.
  induction l as [| j l IH]; [done |]. cbn [leading_phis].
  destruct (kind_of j F) as [[] |]; try (by intros ?%not_elem_of_nil).
  intros [-> | Hi]%elem_of_cons; [left | right; by apply IH].
Qed.

Lemma elem_of_drop_in n l i : i ∈ drop n l -> i ∈ l.
Proof. intros Hi. rewrite <- (take_drop n l). apply elem_of_app. by right. Qed.

Lemma enter_frame F p b ρ ρ1 v : enter F p b ρ = Some ρ1 -> v ∉ getInstructions b F -> ρ1 v = ρ v.
Proof.
  unfold enter. destruct (mapM (phi_value F p ρ) (leading_phis (getInstructions b F) F)) as [vs |] eqn:E; [| done].
  cbn. intros [= <-] Hv. apply bind_all_other. rewrite (phi_values_names _ _ _ _ _ E).
  intros Q. by apply Hv, (leading_phis_elem _ F).
Qed.

Lemma run_block_frame F p b ρ s c ρ1 s1 :
  run_block F p b ρ s = Goto c ρ1 s1 -> forall v, v ∉ getInstructions b F -> ρ1 v = ρ v.
Proof.
  unfold run_block. destruct (enter F p b ρ) as [ρ0 |] eqn:E0; [| done]. intros E v Hv.
  rewrite (run_insts_frame _ _ _ _ _ _ _ E); [by apply (enter_frame _ _ _ _ _ _ E0) |].
  intros Q%elem_of_drop_in. done.
Qed.

(** Control leaves a block for a target of its terminator. *)
Lemma run_block_target (ext : ref -> Prop) n F p b ρ s c ρ1 s1 :
  fn_ok ext n F -> b ∈ blocks F -> run_block F p b ρ s = Goto c ρ1 s1 ->
  c = nullptr \/ c ∈ term_targets b F.
Proof.
  intros O Hb. unfold run_block. destruct (enter F p b ρ) as [ρ0 |]; [| done]. intros E.
  destruct (run_insts_target _ _ _ _ _ _ _ E) as (i & k & Hi & K & Hc). apply elem_of_drop_in in Hi.
  destruct (decide (i = terminator b F)) as [-> | N].
  - destruct (decide (c = nullptr)) as [-> | Nc]; [by left | right].
    rewrite (term_targets_kind _ _ _ K). by apply list_elem_of_filter.
  - rewrite (ok_term _ _ _ O b i k Hb Hi N K) in Hc. by apply not_elem_of_nil in Hc.
Qed.

(** ** Recorded edges do not matter *)

Lemma run_insts_body F G l ρ s : same_body F G -> run_insts G l ρ s = run_insts F l ρ s.
Proof.
  intros S. revert ρ s. induction l as [| i l IH]; intros ρ s; [done |]. cbn [run_insts].
  rewrite (same_body_kind _ _ i S). destruct (kind_of i F) as [k |]; [| done].
  destruct k; try done; try (by rewrite IH);
    (match goal with |- context [m_exec ?k ?l ?s] => destruct (m_exec k l s) end; [by rewrite IH | done | done]).
Qed.

Lemma run_block_body F G p b ρ s : same_body F G -> run_block G p b ρ s = run_block F p b ρ s.
Proof.
  intros S. unfold run_block, enter. rewrite (sb_instructions _ _ S), (same_body_leading _ _ _ S).
  rewrite (phi_values_ext G F p p ρ ρ) by (intros i _; unfold phi_value; by rewrite (same_body_kind _ _ i S)).
  destruct (mapM (phi_value F p ρ) (leading_phis (getInstructions b F) F)); [| done]. cbn. by apply run_insts_body.
Qed.

Lemma ends_body F G ρ s o : same_body F G -> ends G ρ s o <-> ends F ρ s o.
Proof.
  intros S. unfold ends. assert (Ee : getEntryBlock G = getEntryBlock F) by (unfold getEntryBlock; by rewrite (sb_blocks _ _ S)).
  rewrite Ee. assert (E : forall fuel p b ρ s, run fuel G p b ρ s = run fuel F p b ρ s).
  { induction fuel as [| fuel IH]; intros p b ρ1 s1; [done |]. cbn [run]. rewrite (run_block_body F G) by done.
    destruct (run_block F p b ρ1 s1); [apply IH | done]. }
  split; intros [m Em]; exists m; [by rewrite E in Em | by rewrite E].
Qed.

End Run.
