(* ===== verification/JumpThreading.v ===== *)
(** * Jump threading

    [JumpThreadingPass] of [lib/middle/mir/passes/JumpThreadingPass.cpp]: a block that tests
    whether a phi of its own is not null is skipped by a predecessor for which the phi is
    null.  [None] is a read past the end of the incoming vector of the phi, which is
    undefined: the loop over that vector names the predecessor by a reference to its element,
    and goes on using the reference while it removes elements. *)

From S2P Require Import Prelude Diag HIRType MIR MIRModule.

Implicit Types (F : MIRFunction) (M : MIRModule) (b i pred phi v : ref).

(** [isa<ConstantNull>]. *)
Definition null_const M v : bool :=
  match const_of v M with Some ConstantNull => true | _ => false end.

(** The phi that the terminator of [b] compares with null, and the block where control goes
    when it is null. *)
Definition null_test M F b : option (ref * ref) :=
  match kind_of (terminator b F) F with
  | Some (CondBranchInst cond _ bailoutBlock) =>
      match kind_of cond F with
      | Some (CompareInst CmpPredicate.NE lhs rhs) =>
          match insts F !! lhs with
          | Some J =>
              match i_kind J with
              | PhiInst _ =>
                  if null_const M rhs && N.eqb (i_parent J) b then Some (lhs, bailoutBlock) else None
              | _ => None
              end
          | None => None
          end
      | _ => None
      end
  | _ => None
  end.

(** [targetHasPhis]. *)
Definition starts_with_phi F b : bool :=
  match getInstructions b F with
  | i :: _ => match kind_of i F with Some (PhiInst _) => true | _ => false end
  | [] => false
  end.

(** The incoming entries at which the loop does not continue. *)
Definition threads M F (bailoutBlock : ref) (entry : ref * ref) : bool :=
  let '(val, predBlock) := entry in
  null_const M val && negb (starts_with_phi F bailoutBlock)
  && match kind_of (terminator predBlock F) F with
     | Some (BranchInst _) | Some (CondBranchInst _ _ _) => true
     | _ => false
     end.

(** The variable [predBlock] of the loop: a reference to the block of the entry [n] of [phi], as
    that entry is at the moment. *)
Definition predBlock phi (n : nat) F : option ref :=
  match kind_of phi F with
  | Some (PhiInst incoming) => snd <$> incoming !! n
  | _ => None
  end.

(** [p->removeIncoming(predBlock)] on the leading phis of [b]. *)
Definition remove_from phi (n : nat) F i : option MIRFunction :=
  pred ← predBlock phi n F;
  Some (upd_inst i (fun J => match i_kind J with
                             | PhiInst inc => with_kind (PhiInst (removeIncoming pred inc)) J
                             | _ => J
                             end) F).

Definition remove_entries b phi (n : nat) F : option MIRFunction :=
  fold_some (remove_from phi n) (leading_phis (getInstructions b F) F) F.

(** The predecessor ends in a branch. *)
Definition thread_branch b phi (n : nat) pred (bailoutBlock : ref) (loc : SourceLocation) F :
    option MIRFunction :=
  let '(newBr, F) := new_inst
    {| i_kind := BranchInst bailoutBlock; i_type := nullptr; i_name := ""; i_loc := loc;
       i_borrow := None; i_parent := nullptr |} F in
  let F := pop_back pred F in
  let F := addInstruction pred newBr F in
  let F := removeSuccessor pred b F in
  let F := removePredecessor b pred F in
  let hasBailoutPred := bool_decide (pred ∈ getPredecessors bailoutBlock F) in
  let F := if hasBailoutPred then F
           else addPredecessor bailoutBlock pred (addSuccessor pred bailoutBlock F) in
  remove_entries b phi n F.

(** The predecessor ends in a conditional branch. *)
Definition redirect_cond b (bailoutBlock t f : ref) : ref * ref :=
  if N.eqb t b then (bailoutBlock, f) else if N.eqb f b then (t, bailoutBlock) else (t, f).

Definition thread_cond b phi (n : nat) pred (bailoutBlock cond t f : ref) F : option MIRFunction :=
  let '(t, f) := redirect_cond b bailoutBlock t f in
  let F := upd_inst (terminator pred F) (with_kind (CondBranchInst cond t f)) F in
  let F := upd_block pred (with_successors []) F in
  let F := addSuccessor pred t F in
  let F := if N.eqb t f then F else addSuccessor pred f F in
  let F := removePredecessor b pred F in
  '(F, pred) ← if N.eqb t b || N.eqb f b then Some (addPredecessor b pred F, pred)
               else F ← remove_entries b phi n F; pred ← predBlock phi n F; Some (F, pred);
  let hasBailoutPred := bool_decide (pred ∈ getPredecessors bailoutBlock F) in
  Some (if hasBailoutPred then F else addPredecessor bailoutBlock pred F).

(** The first entry that can be threaded is; then the loop over the entries ends. *)
Definition thread b phi (bailoutBlock : ref) (n : nat) pred F : option MIRFunction :=
  match insts F !! terminator pred F with
  | Some J =>
      match i_kind J with
      | BranchInst _ => thread_branch b phi n pred bailoutBlock (i_loc J) F
      | CondBranchInst cond t f => thread_cond b phi n pred bailoutBlock cond t f F
      | _ => Some F
      end
  | None => Some F
  end.

Definition thread_block M (st : bool * MIRFunction) b : option (bool * MIRFunction) :=
  let '(changed, F) := st in
  match null_test M F b with
  | Some (phi, bailoutBlock) =>
      match kind_of phi F with
      | Some (PhiInst incoming) =>
          match list_find (fun entry => threads M F bailoutBlock entry = true) incoming with
          | Some (n, (_, pred)) =>
              F ← thread b phi bailoutBlock n pred F;
              Some (true, F)
          | None => Some st
          end
      | _ => Some st
      end
  | None => Some st
  end.

Definition thread_function M F : option (bool * MIRFunction) :=
  fold_some (thread_block M) (blocks F) (false, F).

Definition runOnFunction (st : bool * MIRModule) (f : ref) : option (bool * MIRModule) :=
  let '(changed, M) := st in
  if isDeclaration (body f M) then Some st
  else
    '(c, F) ← thread_function M (with_next (m_next M) (body f M));
    Some (changed || c, set_body f F (set_next (next_ref F) M)).

Definition runOnModule M : option (bool * MIRModule) :=
  let '(funcs, M) := getFunctions M in
  fold_some runOnFunction funcs (false, M).
