(* ===== verification/JumpThreadingProps.v ===== *)
(** * Jump threading: one step

    What a threaded edge changes, when the phi that is tested is the last phi of its block:
    the terminator of the predecessor, the recorded edges and the entries of the phis. *)

From S2P Require Import Prelude Diag HIRType MIR MIRFacts SimplifyCFG SimplifyCFGProps BypassProps MIRModule MIRUses Rewire JumpThreading.

Implicit Types (F G H : MIRFunction) (M : MIRModule) (b c i j p phi v x y : ref) (k : InstKind).

(** The phis of a block have one entry for each predecessor. *)
Definition phis_match F : Prop := forall b i inc,
  b ∈ blocks F -> i ∈ leading_phis (getInstructions b F) F -> kind_of i F = Some (PhiInst inc) ->
  NoDup (map snd inc) /\ forall p, p ∈ map snd inc <-> p ∈ getPredecessors b F.

(** A block that consists of phis, the comparison of the last one with null, and the branch. *)
Record null_block M F b phi (bail : ref) (l : list ref) (icmp t rhs : ref) : Prop := {
  nt_insts_are : getInstructions b F = l ++ [icmp; terminator b F];
  nt_phis : leading_phis (getInstructions b F) F = l;
  nt_phi : last l = Some phi;
  nt_icmp : kind_of icmp F = Some (CompareInst CmpPredicate.NE phi rhs);
  nt_rhs : null_const M rhs = true;
  nt_branch : kind_of (terminator b F) F = Some (CondBranchInst icmp t bail);
}.

(** ** Phis *)

Definition parent_of i F : option ref := i_parent <$> insts F !! i.

Lemma parent_upd_inst i f F j :
  (forall J, i_parent (f J) = i_parent J) -> parent_of j (upd_inst i f F) = parent_of j F.
Proof.
  intros Hf. unfold parent_of. rewrite insts_upd_inst. case_decide; [| done].
  destruct (insts F !! j); cbn; [by rewrite Hf | done].
Qed.

Lemma parent_upd_phis b f F j : parent_of j (upd_phis b f F) = parent_of j F.
Proof.
  unfold upd_phis. generalize (leading_phis (getInstructions b F) F) as l. intros l. revert F.
  induction l as [| i l IH]; intros F; cbn [fold_left]; [done |]. rewrite IH.
  apply parent_upd_inst. intros J. by destruct (i_kind J).
Qed.

Lemma leading_phis_sub l F i : i ∈ leading_phis l F -> i ∈ l /\ is_phi F i = true.
Proof.
  induction l as [| j l IH]; cbn [leading_phis]; [by intros ?%not_elem_of_nil |].
  destruct (kind_of j F) as [[] |] eqn:K; try (by intros ?%not_elem_of_nil).
  intros [-> | Hi]%elem_of_cons; [split; [left | unfold is_phi; by rewrite K] |].
  destruct (IH Hi). split; [by right | done].
Qed.

(** [p->removeIncoming] on one instruction. *)
Abbreviation without p := (fun J => match i_kind J with
                                    | PhiInst inc => with_kind (PhiInst (removeIncoming p inc)) J
                                    | _ => J
                                    end).

Lemma remove_from_entry phi n F i inc v p :
  kind_of phi F = Some (PhiInst inc) -> inc !! n = Some (v, p) ->
  remove_from phi n F i = Some (upd_inst i (without p) F).
Proof. intros K E. unfold remove_from, predBlock. by rewrite K, E. Qed.

(** When the tested phi is the last phi, the reference is to the element until the end. *)
Lemma remove_entries_last b phi n F l inc v p :
  leading_phis (getInstructions b F) F = l -> last l = Some phi -> NoDup l ->
  kind_of phi F = Some (PhiInst inc) -> inc !! n = Some (v, p) ->
  remove_entries b phi n F = Some (upd_phis b (removeIncoming p) F).
Proof.
  unfold remove_entries, upd_phis. intros -> L N K E.
  apply last_Some in L as [l' ->]. apply NoDup_app in N as (_ & N & _).
  assert (Nphi : phi ∉ l') by (intros Q; apply (N phi Q); left). clear N.
  rewrite fold_left_app, fold_some_app.
  assert (Q : forall F, kind_of phi F = Some (PhiInst inc) ->
    exists F', fold_some (remove_from phi n) l' F = Some F' /\ kind_of phi F' = Some (PhiInst inc)
    /\ F' = fold_left (fun F i => upd_inst i (without p) F) l' F).
  { clear K F. induction l' as [| i l' IH]; intros F K; cbn [fold_some fold_left]; [by exists F |].
    rewrite (remove_from_entry phi n F i inc v p K E). cbn [mbind option_bind].
    apply not_elem_of_cons in Nphi as [N1 N2]. apply (IH N2).
    rewrite kind_of_upd_inst. by case_decide. }
  destruct (Q F K) as (F' & -> & K' & <-). cbn [mbind option_bind fold_some fold_left].
  by rewrite (remove_from_entry phi n F' phi inc v p K' E).
Qed.

(** The effect of the removal on the subclass of an instruction. *)
Definition without_entry p k : InstKind :=
  match k with PhiInst inc => PhiInst (removeIncoming p inc) | _ => k end.

Lemma kind_of_removed b p F j :
  NoDup (getInstructions b F) ->
  kind_of j (upd_phis b (removeIncoming p) F) =
    if decide (j ∈ leading_phis (getInstructions b F) F) then without_entry p <$> kind_of j F else kind_of j F.
Proof.
  intros N. rewrite kind_of_upd_phis by done. case_decide; by destruct (kind_of j F) as [[] |].
Qed.

(** ** The edge that is threaded *)

(** Control that went to [b] may go to [bail]. *)
Inductive redirects b (bail : ref) : InstKind -> InstKind -> Prop :=
  | redirects_branch : redirects b bail (BranchInst b) (BranchInst bail)
  | redirects_true c f : redirects b bail (CondBranchInst c b f) (CondBranchInst c bail f)
  | redirects_false c t : t <> b -> redirects b bail (CondBranchInst c t b) (CondBranchInst c t bail).

Record threaded F b (bail : ref) (l : list ref) p (t' : ref) (k0 k' : InstKind) H : Prop := {
  th_old : kind_of (terminator p F) F = Some k0;
  th_redirects : redirects b bail k0 k';
  th_new : t' = terminator p F /\ next_ref H = next_ref F 
    \/ t' = next_ref F /\ next_ref H = N.succ (next_ref F) /\ k' = BranchInst bail;
  th_rewired : rewired F p t' k' H;
  th_kinds : forall j, j <> terminator p F -> j <> t' ->
    kind_of j H = if decide (j ∈ l /\ (b ∉ targets k')) then without_entry p <$> kind_of j F else kind_of j F;
  th_parent : forall j, j <> terminator p F -> j <> t' -> parent_of j H = parent_of j F;
}.

Section Thread.
Context (ext : ref -> Prop) (M : MIRModule) (F : MIRFunction) (b phi bail : ref) (l : list ref) (icmp t rhs : ref).
Context (O : fn_ok ext (next_ref F) F) (PM : phis_match F) (Hb : b ∈ blocks F).
Context (NB : null_block M F b phi bail l icmp t rhs).
Context (n : nat) (inc : list (ref * ref)) (v p : ref) (Kphi : kind_of phi F = Some (PhiInst inc)).
Context (En : inc !! n = Some (v, p)) (Nb : starts_with_phi F bail = false).

Lemma site_phi_in : phi ∈ l.
Proof. pose proof (nt_phi _ _ _ _ _ _ _ _ _ NB) as L. apply last_Some in L as [l' ->]. apply elem_of_app. right. left. Qed.

Lemma site_nodup : NoDup l.
Proof.
  pose proof (ok_nodup _ _ _ O b Hb) as N. rewrite (nt_insts_are _ _ _ _ _ _ _ _ _ NB) in N.
  by apply NoDup_app in N as (N & _).
Qed.

Lemma site_starts : starts_with_phi F b = true.
Proof.
  pose proof site_phi_in as Hin. rewrite <- (nt_phis _ _ _ _ _ _ _ _ _ NB) in Hin.
  unfold starts_with_phi. destruct (getInstructions b F) as [| i r]; cbn [leading_phis] in Hin;
    [by apply not_elem_of_nil in Hin |]. destruct (kind_of i F) as [[] |]; try done; by apply not_elem_of_nil in Hin.
Qed.

Lemma site_bail : bail <> b.
Proof. intros E. pose proof site_starts as S. rewrite <- E in S. congruence. Qed.

Lemma site_pred : p ∈ blocks F /\ b ∈ term_targets p F.
Proof.
  assert (Hp : p ∈ getPredecessors b F).
  { apply (PM b phi inc); [done | rewrite (nt_phis _ _ _ _ _ _ _ _ _ NB); apply site_phi_in | done |].
    apply list_elem_of_fmap. exists (v, p). split; [done |]. by apply list_elem_of_lookup_2 in En. }
  apply (co_pred _ (ok_edges _ _ _ O)) in Hp as [Hp Hs]; [| done]. split; [done |].
  by apply (co_succ _ (ok_edges _ _ _ O)).
Qed.

Lemma site_in : terminator b F ∈ getInstructions b F.
Proof. rewrite (nt_insts_are _ _ _ _ _ _ _ _ _ NB). apply elem_of_app. right. right. left. Qed.

Lemma site_bail_block : bail <> nullptr /\ bail ∈ blocks F.
Proof.
  pose proof (nt_branch _ _ _ _ _ _ _ _ _ NB) as K.
  destruct (ok_branch _ _ _ O b (terminator b F) icmp t bail Hb site_in K) as [_ N]. split; [done |].
  apply (wf_closed _ (ok_wf _ _ _ O) b); [done |]. rewrite (term_targets_kind _ _ _ K). cbn [targets].
  apply list_elem_of_filter. split; [done |]. right. left.
Qed.

Lemma site_block : b <> nullptr.
Proof.
  destruct site_pred as [_ Ht]. unfold term_targets, inst_targets in Ht.
  destruct (kind_of (terminator p F) F); [by apply list_elem_of_filter in Ht as [? _] | by apply not_elem_of_nil in Ht].
Qed.

(** ** The predecessor ends in a branch *)

Section Branch.
Context (J : MIRInst) (EJ : insts F !! terminator p F = Some J) (tb : ref) (KJ : i_kind J = BranchInst tb).

Lemma br_kind : kind_of (terminator p F) F = Some (BranchInst b).
Proof.
  assert (K : kind_of (terminator p F) F = Some (BranchInst tb)) by (unfold kind_of; by rewrite EJ, <- KJ).
  destruct site_pred as [_ Ht]. rewrite (term_targets_kind _ _ _ K) in Ht.
  apply list_elem_of_filter in Ht as [_ Ht]. apply list_elem_of_singleton in Ht as <-. done.
Qed.

Lemma br_other : p <> b.
Proof. intros E. pose proof br_kind as K. rewrite E, (nt_branch _ _ _ _ _ _ _ _ _ NB) in K. done. Qed.

Lemma br_targets : term_targets p F = [b].
Proof.
  rewrite (term_targets_kind _ _ _ br_kind). cbn [targets].
  by rewrite filter_cons_True, filter_nil by apply site_block.
Qed.

Let newBr : MIRInst := {| i_kind := BranchInst bail; i_type := nullptr; i_name := "";
                          i_loc := i_loc J; i_borrow := None; i_parent := nullptr |}.
Let G : MIRFunction := addInstruction p (next_ref F) (pop_back p (snd (new_inst newBr (with_next (next_ref F) F)))).
Let G2 : MIRFunction := removePredecessor b p (removeSuccessor p b G).
Let H : MIRFunction := upd_phis b (removeIncoming p) G2.

Abbreviation K := (eq_refl : i_kind newBr = BranchInst bail).

Lemma br_last : last (getInstructions p F) = Some (terminator p F).
Proof. by apply (rw_last ext (next_ref F) F p (BranchInst b) O), br_kind. Qed.

Lemma br_old : terminator p F <> next_ref F.
Proof.
  pose proof (rw_term_lt ext (next_ref F) F p (BranchInst b) O (proj1 site_pred) br_kind). lia.
Qed.

Lemma br_has_p : has_block p F.
Proof. apply (wf_heap _ (ok_wf _ _ _ O)), site_pred. Qed.

Lemma br_has_bail : has_block bail F.
Proof. apply (wf_heap _ (ok_wf _ _ _ O)), site_bail_block. Qed.

Lemma br_same : same_code G G2.
Proof. etransitivity; [apply same_code_removeSuccessor | apply same_code_removePredecessor]. Qed.

Lemma br_instructions x : getInstructions x G2 =
  if decide (x = p) then removelast (getInstructions p F) ++ [next_ref F] else getInstructions x F.
Proof.
  rewrite (sc_instructions _ _ br_same).
  exact (nb_instructions F _ p _ bail newBr K (proj1 site_bail_block) br_has_p br_last br_old x).
Qed.

Lemma br_new_kind : kind_of (next_ref F) G2 = Some (BranchInst bail).
Proof. exact (nb_kind_new F _ p _ bail newBr K (proj1 site_bail_block) br_last br_old). Qed.

Lemma br_insts j : is_Some (insts G2 !! j) <-> j = next_ref F \/ j <> terminator p F /\ is_Some (insts F !! j).
Proof. exact (nb_insts F _ p _ bail newBr K (proj1 site_bail_block) br_last br_old j). Qed.

Lemma br_kind_of j : j <> next_ref F -> j <> terminator p F -> kind_of j G2 = kind_of j F.
Proof. exact (nb_kind F _ p _ bail newBr K (proj1 site_bail_block) br_last br_old j). Qed.

Lemma br_is_phi j : is_phi G2 j = is_phi F j.
Proof.
  unfold is_phi. destruct (decide (j = next_ref F)) as [-> | N].
  - rewrite br_new_kind. destruct (kind_of (next_ref F) F) as [k |] eqn:E; [| done]. exfalso.
    assert (Q : is_Some (insts F !! next_ref F)) by (unfold kind_of in E; destruct (insts F !! next_ref F); [by eexists | done]).
    apply (ok_inst_fresh _ _ _ O) in Q. lia.
  - destruct (decide (j = terminator p F)) as [-> | N']; [| by rewrite br_kind_of].
    rewrite br_kind. destruct (kind_of (terminator p F) G2) as [k |] eqn:E; [| done]. exfalso.
    assert (Q : is_Some (insts G2 !! terminator p F)).
    { unfold kind_of in E. destruct (insts G2 !! terminator p F); [by eexists | done]. }
    apply br_insts in Q as [Q | [Q _]]; [by apply br_old | done].
Qed.

Lemma br_phis : leading_phis (getInstructions b G2) G2 = l.
Proof.
  rewrite br_instructions, decide_False by (intros E; by apply br_other).
  rewrite (leading_phis_ext _ F G2) by apply br_is_phi. apply (nt_phis _ _ _ _ _ _ _ _ _ NB).
Qed.

Lemma br_edges x y :
  (y ∈ getSuccessors x H <-> if decide (x = p) then y = bail else y ∈ getSuccessors x F)
  /\ (x ∈ blocks F -> y ∈ getPredecessors x H <-> if decide (y = p) then x = bail else y ∈ getPredecessors x F).
Proof.
  destruct (nb_edges F _ p _ bail newBr K (proj1 site_bail_block) br_has_p br_has_bail br_last br_old x y) as [ES EP].
  fold G in ES, EP. pose proof site_bail as Nbail. destruct site_pred as [Hp _].
  pose proof (ok_edges _ _ _ O) as C. unfold H. destruct (same_edges_upd_phis b (removeIncoming p) G2 x) as [-> ->].
  unfold G2. rewrite getSuccessors_removePredecessor, getSuccessors_removeSuccessor,
    getPredecessors_removePredecessor, getPredecessors_removeSuccessor. split.
  - destruct (decide (x = p)) as [-> | N]; rewrite ?elem_of_erase_all, ES; [| tauto].
    rewrite (co_succ _ C p y Hp), br_targets, list_elem_of_singleton. intuition congruence.
  - intros Hx. pose proof (co_pred _ C x p Hx) as Q. rewrite (co_succ _ C p x Hp), br_targets in Q.
    rewrite list_elem_of_singleton in Q.
    destruct (decide (y = p)) as [-> | N]; case_decide; rewrite ?elem_of_erase_all, EP; intuition congruence.
Qed.

Lemma thread_branch_eq : thread_branch b phi n p bail (i_loc J) F = Some H.
Proof.
  transitivity (thread_branch b phi n p bail (i_loc J) (with_next (next_ref F) F)); [by destruct F |].
  unfold thread_branch. cbn [new_inst next_ref with_next]. fold newBr. fold G. fold G2.
  rewrite bool_decide_eq_true_2.
  - apply (remove_entries_last b phi n G2 l inc v p); [apply br_phis | apply (nt_phi _ _ _ _ _ _ _ _ _ NB) | apply site_nodup | | done].
    rewrite br_kind_of; [done | |]; intros E.
    + assert (Q : is_Some (insts F !! phi)) by (unfold kind_of in Kphi; destruct (insts F !! phi); [by eexists | done]).
      rewrite E in Q. apply (ok_inst_fresh _ _ _ O) in Q. lia.
    + pose proof Kphi as K1. rewrite E, br_kind in K1. done.
  - destruct (br_edges bail p) as [_ Q]. unfold H in Q.
    rewrite (proj2 (same_edges_upd_phis b (removeIncoming p) G2 bail)), decide_True in Q by done.
    by apply (Q (proj2 site_bail_block)).
Qed.

Lemma thread_branch_body F' : same_body F F' -> next_ref F' = next_ref F ->
  exists G', thread_branch b phi n p bail (i_loc J) F' = Some G' /\ same_body H G' /\ next_ref G' = next_ref H.
Proof.
  intros S Nx. unfold thread_branch. cbn [new_inst]. rewrite Nx. fold newBr.
  match goal with |- context [addInstruction p (next_ref F) (pop_back p ?X)] => set (X0 := X) end.
  assert (S1 : same_body G (addInstruction p (next_ref F) (pop_back p X0))).
  { apply same_body_addInstruction, same_body_pop_back. destruct S as [A1 A2 A3 A4]. split; [| done | done | done].
    cbn. by rewrite A1. }
  set (G1 := addInstruction p (next_ref F) (pop_back p X0)) in *.
  assert (N1 : next_ref G1 = next_ref G).
  { assert (Q : forall X, next_ref (addInstruction p (next_ref F) (pop_back p X)) = next_ref X).
    { intros X. unfold addInstruction, pop_back. destruct (last (getInstructions p X)); case_match; try done;
        cbn; by rewrite (sc_next _ _ (same_code_wire _ _ _)). }
    unfold G1, G. by rewrite !Q. }
  set (G3 := removePredecessor b p (removeSuccessor p b G1)).
  assert (E4 : exists G4, (if bool_decide (p ∈ getPredecessors bail G3) then G3
      else addPredecessor bail p (addSuccessor p bail G3)) = G4 /\ same_body G2 G4 /\ next_ref G4 = next_ref G2).
  { assert (S3 : same_body G2 G3).
    { assert (Q : forall X, same_body X (removePredecessor b p (removeSuccessor p b X)))
        by (intros X; transitivity (removeSuccessor p b X); by apply same_body_edges).
      rewrite <- (Q G : same_body G G2), <- (Q G1 : same_body G1 G3). exact S1. }
    eexists. split; [done |].
    assert (N3 : next_ref G3 = next_ref G2) by exact N1.
    case_bool_decide; (split; [| done]); [done |].
    transitivity G3; [done |]. transitivity (addSuccessor p bail G3); by apply same_body_edges. }
  destruct E4 as (G4 & -> & S4 & N4).
  exists (upd_phis b (removeIncoming p) G4). split_and!.
  - apply (remove_entries_last b phi n G4 l inc v p); [| apply (nt_phi _ _ _ _ _ _ _ _ _ NB) | apply site_nodup | | done].
    + rewrite (sb_instructions _ _ S4), (same_body_leading _ _ _ S4). apply br_phis.
    + rewrite (same_body_kind _ _ _ S4), br_kind_of; [done | |]; intros E.
      * assert (Q : is_Some (insts F !! phi)) by (unfold kind_of in Kphi; destruct (insts F !! phi); [by eexists | done]).
        rewrite E in Q. apply (ok_inst_fresh _ _ _ O) in Q. lia.
      * pose proof Kphi as K1. rewrite E, br_kind in K1. done.
  - by apply same_body_upd_phis.
  - rewrite (sc_next _ _ (same_code_upd_phis b (removeIncoming p) G4)).
    unfold H. by rewrite (sc_next _ _ (same_code_upd_phis b (removeIncoming p) G2)).
Qed.

Lemma br_threaded : threaded F b bail l p (next_ref F) (BranchInst b) (BranchInst bail) H.
Proof.
  assert (KK : forall j, j <> next_ref F -> j <> terminator p F ->
    kind_of j H = if decide (j ∈ l) then without_entry p <$> kind_of j F else kind_of j F).
  { intros j N1 N2. unfold H. rewrite kind_of_removed, br_phis, br_kind_of; [done | done | done |].
    rewrite br_instructions, decide_False by (intros E; by apply br_other). by apply (ok_nodup _ _ _ O). }
  split; [apply br_kind | constructor | right; split_and! | | |].
  - done.
  - unfold H. rewrite (sc_next _ _ (same_code_upd_phis b (removeIncoming p) G2)), (sc_next _ _ br_same).
    exact (nb_next F _ p _ bail newBr K (proj1 site_bail_block) br_last br_old).
  - done.
  - pose proof (same_code_upd_phis b (removeIncoming p) G2) as SU. split.
    + unfold H. rewrite (sc_blocks _ _ SU), (sc_blocks _ _ br_same).
      exact (nb_blocks F _ p _ bail newBr K (proj1 site_bail_block) br_last br_old).
    + intros x. unfold H. rewrite (sc_has _ _ SU), (sc_has _ _ br_same).
      exact (nb_has F _ p _ bail newBr K (proj1 site_bail_block) br_last br_old x).
    + intros x. unfold H. rewrite (sc_instructions _ _ SU). apply br_instructions.
    + intros j. unfold H. rewrite (proj1 (upd_phis_kind b p G2 j)). apply br_insts.
    + unfold H. rewrite kind_of_removed; [rewrite br_new_kind; by case_decide |].
      rewrite br_instructions, decide_False by (intros E; by apply br_other). by apply (ok_nodup _ _ _ O).
    + intros j k N E. destruct (decide (j = terminator p F)) as [-> | N'].
      * apply (proj2 (upd_phis_kind b p G2 _)) in E as (k1 & E & _).
        assert (Q : is_Some (insts G2 !! terminator p F)).
        { unfold kind_of in E. destruct (insts G2 !! terminator p F); [by eexists | done]. }
        apply br_insts in Q as [Q | [Q _]]; [by apply br_old in Q | done].
      * apply (proj2 (upd_phis_kind b p G2 j)) in E as (k1 & E & L). rewrite br_kind_of in E by done. by exists k1.
    + intros x y Hx. rewrite (proj1 (br_edges x y)). cbn [targets]. case_decide; [| done].
      by rewrite list_elem_of_singleton.
    + intros y x Hy. rewrite (proj2 (br_edges y x) Hy). cbn [targets]. case_decide; [| done].
      by rewrite list_elem_of_singleton.
  - intros j N1 N2. rewrite KK by done. apply decide_ext. cbn [targets]. rewrite list_elem_of_singleton. pose proof site_bail. intuition congruence.
  - intros j N1 N2. unfold H. rewrite parent_upd_phis.
    change (parent_of j G = parent_of j F). unfold G.
    rewrite (nb_eq F _ p _ bail newBr K (proj1 site_bail_block) br_last br_old). clear KK.
    change (parent_of j (upd_inst (next_ref F) (setParent p) (pop_back p (snd (new_inst newBr (with_next (next_ref F) F)))))
      = parent_of j F).
    unfold parent_of. rewrite insts_upd_inst, decide_False by done.
    rewrite (nb_pop F _ p (terminator p F) newBr br_last). unfold free_inst. cbn [insts set_insts].
    rewrite lookup_delete_ne by done. cbn. by rewrite lookup_insert_ne.
Qed.

End Branch.

(** ** The predecessor ends in a conditional branch *)

Section Cond.
Context (J : MIRInst) (EJ : insts F !! terminator p F = Some J) (c tb fb : ref).
Context (KJ : i_kind J = CondBranchInst c tb fb).

Lemma cb_kind : kind_of (terminator p F) F = Some (CondBranchInst c tb fb).
Proof. unfold kind_of. by rewrite EJ, <- KJ. Qed.

Let t' : ref := fst (redirect_cond b bail tb fb).
Let f' : ref := snd (redirect_cond b bail tb fb).
Abbreviation k' := (CondBranchInst c t' f').

Lemma cb_in : terminator p F ∈ getInstructions p F.
Proof. by apply (rw_in ext (next_ref F) F p (CondBranchInst c tb fb) O), cb_kind. Qed.

Lemma cb_nonnull : tb <> nullptr /\ fb <> nullptr.
Proof. apply (ok_branch _ _ _ O p (terminator p F) c tb fb); [apply site_pred | apply cb_in | apply cb_kind]. Qed.

Lemma cb_targets : term_targets p F = [tb; fb].
Proof.
  destruct cb_nonnull. rewrite (term_targets_kind _ _ _ cb_kind). cbn [targets].
  by rewrite !filter_cons_True, filter_nil.
Qed.

Lemma cb_cases : tb = b /\ t' = bail /\ f' = fb \/ tb <> b /\ fb = b /\ t' = tb /\ f' = bail.
Proof.
  pose proof (proj2 site_pred) as Ht. rewrite cb_targets, !elem_of_cons, elem_of_nil in Ht.
  unfold t', f', redirect_cond. destruct (N.eqb_spec tb b) as [-> | N]; [by left |].
  destruct Ht as [? | [<- | []]]; [congruence |]. rewrite N.eqb_refl. by right.
Qed.

Lemma cb_redirects : redirects b bail (CondBranchInst c tb fb) k'.
Proof. destruct cb_cases as [(-> & -> & ->) | (? & -> & -> & ->)]; by constructor. Qed.

Lemma cb_new_targets : (t' ∈ blocks F /\ t' <> nullptr) /\ (f' ∈ blocks F /\ f' <> nullptr).
Proof.
  destruct cb_nonnull as [N1 N2]. pose proof (wf_closed _ (ok_wf _ _ _ O) p) as W. rewrite cb_targets in W.
  assert (tb ∈ blocks F) by (apply W; [apply site_pred | left]).
  assert (fb ∈ blocks F) by (apply W; [apply site_pred | right; left]).
  destruct site_bail_block. unfold t', f', redirect_cond. by destruct (N.eqb tb b), (N.eqb fb b).
Qed.

Let F1 : MIRFunction := upd_inst (terminator p F) (with_kind k') F.
Let F3 : MIRFunction := addSuccessor p t' (upd_block p (with_successors []) F1).
Let F5 : MIRFunction := removePredecessor b p (if N.eqb t' f' then F3 else addSuccessor p f' F3).
Let F6 : MIRFunction :=
  if N.eqb t' b || N.eqb f' b then addPredecessor b p F5 else upd_phis b (removeIncoming p) F5.
Let H : MIRFunction :=
  if bool_decide (p ∈ getPredecessors bail F6) then F6 else addPredecessor bail p F6.

Lemma cb_still : N.eqb t' b || N.eqb f' b = bool_decide (b ∈ targets k').
Proof.
  cbn [targets]. apply eq_bool_prop_intro. rewrite orb_True, bool_decide_spec, !elem_of_cons, elem_of_nil.
  rewrite !Is_true_true, !N.eqb_eq. intuition.
Qed.

Lemma cb_same : same_code F1 F5.
Proof.
  transitivity F3; [transitivity (upd_block p (with_successors []) F1); [by apply same_code_upd_block | apply same_code_addSuccessor] |].
  etransitivity; [| apply same_code_removePredecessor]. destruct (N.eqb t' f'); [done | apply same_code_addSuccessor].
Qed.

Lemma cb_insts : insts F5 = insts F1.
Proof. unfold F5. by destruct (N.eqb t' f'). Qed.

Lemma cb_kind_of j : kind_of j F5 = if decide (j = terminator p F) then Some k' else kind_of j F.
Proof.
  unfold kind_of. rewrite cb_insts. unfold F1. rewrite insts_upd_inst. case_decide as D; [| done].
  subst j. by rewrite EJ.
Qed.

Lemma cb_instructions x : getInstructions x F5 = getInstructions x F.
Proof. apply (sc_instructions _ _ cb_same). Qed.

Lemma cb_phis : leading_phis (getInstructions b F5) F5 = l.
Proof.
  rewrite cb_instructions, <- (nt_phis _ _ _ _ _ _ _ _ _ NB). apply leading_phis_ext. intros j.
  unfold is_phi. rewrite cb_kind_of. case_decide as D; [subst j; by rewrite cb_kind | done].
Qed.

Lemma cb_same6 : same_code F5 F6.
Proof. unfold F6. destruct (N.eqb t' b || N.eqb f' b); [apply same_code_addPredecessor | apply same_code_upd_phis]. Qed.

Lemma cb_same7 : same_code F6 H.
Proof. unfold H. case_bool_decide; [done | apply same_code_addPredecessor]. Qed.

(** What the code does is this, up to the recorded edges. *)
Lemma thread_cond_body F' : same_body F F' -> next_ref F' = next_ref F ->
  match thread_cond b phi n p bail c tb fb F' with
  | Some G => same_body H G /\ next_ref G = next_ref F
  | None => True
  end.
Proof.
  intros S Nx. unfold thread_cond. rewrite (surjective_pairing (redirect_cond b bail tb fb)). fold t' f'.
  rewrite (same_body_terminator _ _ _ S).
  set (F1' := upd_inst (terminator p F) (with_kind k') F').
  set (F3' := addSuccessor p t' (upd_block p (with_successors []) F1')).
  set (F5' := removePredecessor b p (if N.eqb t' f' then F3' else addSuccessor p f' F3')).
  assert (E3 : forall X, same_body X (removePredecessor b p (if N.eqb t' f' then addSuccessor p t' (upd_block p (with_successors []) X)
    else addSuccessor p f' (addSuccessor p t' (upd_block p (with_successors []) X))))).
  { intros X. etransitivity; [| by apply same_body_edges].
    assert (Q : same_body X (addSuccessor p t' (upd_block p (with_successors []) X))).
    { etransitivity; [| by apply same_body_edges]. by apply same_body_edges. }
    destruct (N.eqb t' f'); [done |]. etransitivity; [exact Q |]. by apply same_body_edges. }
  assert (S5 : same_body F5 F5').
  { rewrite <- (E3 F1 : same_body F1 F5), <- (E3 F1' : same_body F1' F5'). by apply same_body_upd_inst. }
  assert (N5 : next_ref F5' = next_ref F) by (unfold F5'; by destruct (N.eqb t' f')).
  clearbody F5'. clear E3 F1' F3'.
  assert (S7 : same_body F6 H) by (unfold H; case_bool_decide; [done | by apply same_body_edges]).
  assert (Fin : forall X q, same_body F6 X -> next_ref X = next_ref F ->
    same_body H (if bool_decide (q ∈ getPredecessors bail X) then X else addPredecessor bail q X)
    /\ next_ref (if bool_decide (q ∈ getPredecessors bail X) then X else addPredecessor bail q X) = next_ref F).
  { intros X q SX NX. rewrite <- S7. case_bool_decide; split; try done. rewrite SX. by apply same_body_edges. }
  unfold F6 in Fin. destruct (N.eqb t' b || N.eqb f' b); cbn [mbind option_bind].
  - apply Fin; [| done]. transitivity F5; [symmetry; by apply same_body_edges |]. rewrite S5. by apply same_body_edges.
  - rewrite (remove_entries_last b phi n F5' l inc v p);
      [| | apply (nt_phi _ _ _ _ _ _ _ _ _ NB) | apply site_nodup | | done].
    + cbn [mbind option_bind]. destruct (predBlock phi n (upd_phis b (removeIncoming p) F5')); [| done].
      cbn [mbind option_bind]. apply Fin; [by apply same_body_upd_phis |].
      by rewrite (sc_next _ _ (same_code_upd_phis b (removeIncoming p) F5')).
    + rewrite (sb_instructions _ _ S5), (same_body_leading _ _ _ S5). apply cb_phis.
    + rewrite (same_body_kind _ _ _ S5), cb_kind_of, decide_False; [done |].
      intros E. pose proof Kphi as K1. by rewrite E, cb_kind in K1.
Qed.

Lemma cb_kinds j : kind_of j H =
  if decide (j = terminator p F) then Some k'
  else if decide (j ∈ l /\ (b ∉ targets k')) then without_entry p <$> kind_of j F else kind_of j F.
Proof.
  assert (E : kind_of j H = kind_of j F6) by (unfold H; by case_bool_decide). rewrite E. unfold F6.
  rewrite cb_still. case_bool_decide as D.
  - change (kind_of j (addPredecessor b p F5)) with (kind_of j F5). rewrite cb_kind_of.
    case_decide; [done |]. rewrite decide_False by tauto. done.
  - rewrite kind_of_removed, cb_phis, cb_kind_of by (rewrite cb_instructions; by apply (ok_nodup _ _ _ O)).
    destruct (decide (j = terminator p F)) as [-> |]; [by case_decide |]. apply decide_ext. tauto.
Qed.

Lemma cb_parent j : parent_of j H = parent_of j F.
Proof.
  assert (E : parent_of j H = parent_of j F6) by (unfold H; by case_bool_decide). rewrite E.
  assert (E6 : parent_of j F6 = parent_of j F5).
  { unfold F6. destruct (N.eqb t' b || N.eqb f' b); [done | apply parent_upd_phis]. }
  rewrite E6. unfold parent_of at 1. rewrite cb_insts. by apply parent_upd_inst.
Qed.

Lemma cb_has x : has_block x H <-> has_block x F.
Proof. by rewrite (sc_has _ _ cb_same7), (sc_has _ _ cb_same6), (sc_has _ _ cb_same). Qed.

Lemma cb_succ x y : y ∈ getSuccessors x H <-> if decide (x = p) then y ∈ targets k' else y ∈ getSuccessors x F.
Proof.
  assert (E : getSuccessors x H = getSuccessors x F5).
  { transitivity (getSuccessors x F6); [unfold H; case_bool_decide; [done | apply getSuccessors_addPredecessor] |].
    unfold F6. destruct (N.eqb t' b || N.eqb f' b); [apply getSuccessors_addPredecessor |].
    apply (same_edges_upd_phis b (removeIncoming p) F5 x). }
  assert (E0 : getSuccessors x (upd_block p (with_successors []) F1) = if decide (x = p) then [] else getSuccessors x F).
  { unfold getSuccessors. rewrite bbs_upd_block. case_decide; [| done]. by destruct (bbs F1 !! x). }
  assert (Hp : has_block p F1) by apply (wf_heap _ (ok_wf _ _ _ O)), site_pred.
  rewrite E. unfold F5. rewrite getSuccessors_removePredecessor. unfold F3. cbn [targets].
  destruct (N.eqb_spec t' f') as [<- | Nt]; rewrite ?elem_of_addSuccessor, E0; unfold addSuccessor;
    rewrite ?has_block_upd; (case_decide; rewrite ?elem_of_cons, ?elem_of_nil; [| tauto]); tauto.
Qed.

Lemma cb_pred y x : y ∈ blocks F ->
  x ∈ getPredecessors y H <-> if decide (x = p) then y ∈ targets k' else x ∈ getPredecessors y F.
Proof.
  intros Hy. pose proof (co_pred _ (ok_edges _ _ _ O) y p Hy) as Q.
  rewrite (co_succ _ (ok_edges _ _ _ O) p y (proj1 site_pred)), cb_targets, !elem_of_cons, elem_of_nil in Q.
  assert (E5 : getPredecessors y F5 = if decide (y = b) then erase_all p (getPredecessors y F) else getPredecessors y F).
  { unfold F5. rewrite getPredecessors_removePredecessor.
    assert (E4 : getPredecessors y (if N.eqb t' f' then F3 else addSuccessor p f' F3) = getPredecessors y F).
    { transitivity (getPredecessors y F3); [by destruct (N.eqb t' f'); rewrite ?getPredecessors_addSuccessor |].
      unfold F3. rewrite getPredecessors_addSuccessor, getPredecessors_upd by done. done. }
    by rewrite E4. }
  assert (E6 : x ∈ getPredecessors y F6 <-> x ∈ getPredecessors y F5 \/ y = b /\ x = p /\ b ∈ targets k').
  { unfold F6. rewrite cb_still. case_bool_decide as D.
    - rewrite elem_of_addPredecessor.
      assert (has_block b F5) by (apply (sc_has _ _ cb_same); change (has_block b F); by apply (wf_heap _ (ok_wf _ _ _ O))).
      tauto.
    - rewrite (proj2 (same_edges_upd_phis b (removeIncoming p) F5 y)). tauto. }
  assert (E7 : x ∈ getPredecessors y H <-> x ∈ getPredecessors y F6 \/ y = bail /\ x = p).
  { unfold H. case_bool_decide as D; [split; [by left | intros [? | [-> ->]]; done] |].
    rewrite elem_of_addPredecessor. assert (has_block bail F6).
    { apply (sc_has _ _ cb_same6), (sc_has _ _ cb_same). change (has_block bail F).
      apply (wf_heap _ (ok_wf _ _ _ O)), site_bail_block. } tauto. }
  rewrite E7, E6, E5. pose proof cb_cases as Rd. pose proof site_bail as Nbb. cbn [targets].
  destruct (decide (x = p)) as [-> | N].
  - rewrite !elem_of_cons, !elem_of_nil. destruct site_pred as [Hp _].
    case_decide; rewrite ?elem_of_erase_all, Q; intuition congruence.
  - case_decide; rewrite ?elem_of_erase_all; tauto.
Qed.

Lemma cb_threaded : threaded F b bail l p (terminator p F) (CondBranchInst c tb fb) k' H.
Proof.
  split; [apply cb_kind | apply cb_redirects | left; split; [done |] | | |].
  - by rewrite (sc_next _ _ cb_same7), (sc_next _ _ cb_same6), (sc_next _ _ cb_same).
  - split.
    + by rewrite (sc_blocks _ _ cb_same7), (sc_blocks _ _ cb_same6), (sc_blocks _ _ cb_same).
    + apply cb_has.
    + intros x. rewrite (sc_instructions _ _ cb_same7), (sc_instructions _ _ cb_same6), cb_instructions.
      case_decide as D; [subst x | done].
      destruct (rw_split ext (next_ref F) F p _ O (proj1 site_pred) cb_kind) as (l0 & E & El & _). by rewrite El.
    + intros j. unfold is_Some at 1.
      assert (E : is_Some (insts H !! j) <-> is_Some (kind_of j H)) by (unfold kind_of; by rewrite fmap_is_Some).
      assert (E' : is_Some (insts F !! j) <-> is_Some (kind_of j F)) by (unfold kind_of; by rewrite fmap_is_Some).
      change (is_Some (insts H !! j) <-> j = terminator p F \/ j <> terminator p F /\ is_Some (insts F !! j)).
      rewrite E, E', cb_kinds. case_decide as D; [split; [by left | by eexists] |].
      case_decide; rewrite ?fmap_is_Some; tauto.
    + by rewrite cb_kinds, decide_True.
    + intros j k N. rewrite cb_kinds, decide_False by done. case_decide; [| intros E; exists k; split; [done | by left]].
      intros (k1 & K1 & ->)%fmap_Some. exists k1. split; [done |]. destruct k1; try by left. right. by eexists.
    + intros x y _. apply cb_succ.
    + apply cb_pred.
  - intros j N _. by rewrite cb_kinds, decide_False.
  - intros j _ _. apply cb_parent.
Qed.

End Cond.

(** The edge from a predecessor is threaded: exactly when the predecessor ends in a branch, and
    up to recorded edges otherwise, where the code may also read past the end of the vector. *)
Lemma thread_spec : threads M F bail (v, p) = true ->
  exists t' k0 k' H, threaded F b bail l p t' k0 k' H
    /\ (k0 = BranchInst b -> thread b phi bail n p F = Some H)
    /\ forall F', same_body F F' -> next_ref F' = next_ref F ->
         match thread b phi bail n p F' with
         | Some G => same_body H G /\ next_ref G = next_ref H
         | None => True
         end.
Proof.
  cbn [threads]. intros [_ T]%andb_true_iff. unfold thread.
  destruct (kind_of (terminator p F) F) as [k |] eqn:K; [| done]. unfold kind_of in K.
  destruct (insts F !! terminator p F) as [J |] eqn:EJ; [| done]. cbn in K. injection K as K.
  destruct k; try done.
  - eexists _, _, _, _. split; [apply (br_threaded J EJ target K) |]. rewrite K.
    split; [intros _; apply (thread_branch_eq J EJ target K) |].
    intros F' S Nx. rewrite (same_body_terminator _ _ _ S), (sb_insts _ _ S), EJ, K.
    destruct (thread_branch_body J EJ target K F' S Nx) as (G' & -> & Q). done.
  - eexists _, _, _, _. split; [apply (cb_threaded J EJ cond trueBlock falseBlock K) |]. split; [done |].
    intros F' S Nx. rewrite (same_body_terminator _ _ _ S), (sb_insts _ _ S), EJ, K.
    pose proof (thread_cond_body J EJ cond trueBlock falseBlock K F' S Nx) as Q.
    destruct (thread_cond b phi n p bail cond trueBlock falseBlock F'); [| done]. destruct Q as [Q ->].
    split; [done |]. destruct (th_new _ _ _ _ _ _ _ _ _ (cb_threaded J EJ cond trueBlock falseBlock K)) as [[_ ->] | (_ & _ & [=])].
    done.
Qed.

End Thread.
