(* ===== verification/JumpThreadingSafe.v ===== *)
(** * Jump threading: the invariant of the pass

    Functions on which every threaded edge may be threaded, and that threading an edge leaves
    such a function: the pass can go on with it. *)

From S2P Require Import Prelude Diag HIRType MIR MIRFacts SimplifyCFG SimplifyCFGProps BypassProps MIRModule MIRUses Rewire JumpThreading JumpThreadingProps.

Implicit Types (F G H : MIRFunction) (M : MIRModule) (b c d i j p phi v x y : ref) (k : InstKind) (l : list ref).

(** The values of [b] are used by its comparison and its branch only. *)
Definition private F b : Prop := forall d i k v,
  d ∈ blocks F -> i ∈ getInstructions d F -> kind_of i F = Some k -> v ∈ value_ops k ->
  v ∈ getInstructions b F -> d = b /\ i ∉ leading_phis (getInstructions b F) F.

(** Every block that tests one of its phis consists of phis, of which the tested one is the
    last, the comparison and the branch, and its values are its own. *)
Record threadable (ext : ref -> Prop) M F : Prop := {
  ta_fn : fn_ok ext (next_ref F) F;
  ta_null : ~ has_block nullptr F;
  ta_phis : phis_match F;
  ta_conds : forall b i c t f, b ∈ blocks F -> i ∈ getInstructions b F ->
    kind_of i F = Some (CondBranchInst c t f) -> ~ has_block c F;
  ta_shape : forall b phi bail, b ∈ blocks F -> null_test M F b = Some (phi, bail) ->
    exists l icmp t rhs, null_block M F b phi bail l icmp t rhs;
  ta_private : forall b phi bail, b ∈ blocks F -> null_test M F b = Some (phi, bail) -> private F b;
}.

(** The predecessors for which a tested phi is null do not end in a conditional branch. *)
Definition branches_only M F : Prop := forall b phi bail inc v p c t f,
  b ∈ blocks F -> null_test M F b = Some (phi, bail) -> kind_of phi F = Some (PhiInst inc) ->
  (v, p) ∈ inc -> null_const M v = true -> kind_of (terminator p F) F <> Some (CondBranchInst c t f).

Lemma leading_phis_snoc F (l : list ref) i :
  is_phi F i = false -> leading_phis (l ++ [i]) F = leading_phis l F.
Proof.
  intros N. induction l as [| j l IH]; cbn [app leading_phis].
  - unfold is_phi in N. by destruct (kind_of i F) as [[] |].
  - destruct (kind_of j F) as [[] |]; try done. by rewrite IH.
Qed.

Section Preserved.
Context (ext : ref -> Prop) (M : MIRModule) (F : MIRFunction) (T : threadable ext M F).
Context (b phi bail : ref) (l : list ref) (icmp tt rhs : ref) (Hb : b ∈ blocks F).
Context (NB : null_block M F b phi bail l icmp tt rhs).
Context (Nb : starts_with_phi F bail = false) (p : ref) (Hp : p ∈ blocks F).
Context (t' : ref) (k0 k' : InstKind) (H : MIRFunction) (Th : threaded F b bail l p t' k0 k' H).

Abbreviation t0 := (terminator p F).
Abbreviation O := (ta_fn _ _ _ T).
Abbreviation R := (th_rewired _ _ _ _ _ _ _ _ _ Th).
Abbreviation K0 := (th_old _ _ _ _ _ _ _ _ _ Th).

Lemma ps_bail : bail ∈ blocks F /\ bail <> nullptr /\ b <> nullptr.
Proof.
  pose proof (nt_branch _ _ _ _ _ _ _ _ _ NB) as K.
  assert (Hi : terminator b F ∈ getInstructions b F).
  { rewrite (nt_insts_are _ _ _ _ _ _ _ _ _ NB). apply elem_of_app. right. right. left. }
  destruct (ok_branch _ _ _ O b (terminator b F) icmp tt bail Hb Hi K) as [_ N].
  split_and!; [| done | intros E; apply (ta_null _ _ _ T); rewrite <- E; by apply (wf_heap _ (ok_wf _ _ _ O))].
  apply (wf_closed _ (ok_wf _ _ _ O) b); [done |]. rewrite (term_targets_kind _ _ _ K).
  apply list_elem_of_filter. split; [done |]. right. left.
Qed.

Lemma ps_redirects : k0 = BranchInst b /\ k' = BranchInst bail
  \/ (exists c f, k0 = CondBranchInst c b f /\ k' = CondBranchInst c bail f)
  \/ (exists c t, t <> b /\ k0 = CondBranchInst c t b /\ k' = CondBranchInst c t bail).
Proof.
  pose proof (th_redirects _ _ _ _ _ _ _ _ _ Th) as Q. clear -Q. destruct Q; [by left | right; left | right; right]; eauto.
Qed.

Ltac redirected :=
  let c1 := fresh "c1" in let f1 := fresh "f1" in let t1 := fresh "t1" in
  let E0 := fresh "Ek0" in let E1 := fresh "Ek'" in
  destruct ps_redirects as [[E0 E1] | [(c1 & f1 & E0 & E1) | (c1 & t1 & ? & E0 & E1)]]; rewrite ?E0, ?E1.

Lemma ps_new : t' = t0 /\ next_ref H = next_ref F
  \/ t' = next_ref F /\ next_ref H = N.succ (next_ref F) /\ k' = BranchInst bail.
Proof. apply Th. Qed.

Lemma ps_place : t' = t0 /\ next_ref H = next_ref F \/ t' = next_ref F /\ next_ref H = N.succ (next_ref F).
Proof. destruct ps_new as [? | (? & ? & _)]; auto. Qed.

Lemma ps_elsewhere c j : c ∈ blocks F -> j ∈ getInstructions c F -> j <> t0 -> j <> t'.
Proof. apply (rw_elsewhere ext (next_ref F) (next_ref H) F p t' O ps_place). Qed.

Lemma ps_old_targets : targets k0 <> [].
Proof. by redirected. Qed.

Lemma ps_no_phi : (forall inc, k0 <> PhiInst inc) /\ forall inc, k' <> PhiInst inc.
Proof. by redirected. Qed.

Lemma ps_in : t0 ∈ getInstructions p F.
Proof. apply (rw_in ext (next_ref F) F p k0 O), K0. Qed.

(** The targets of the old terminator that are not [b] stay, and [bail] is one. *)
Lemma ps_targets : b ∈ targets k0 /\ bail ∈ targets k'
  /\ forall t, (t ∈ targets k' -> t = bail \/ t ∈ targets k0) /\ (t ∈ targets k0 -> t <> b -> t ∈ targets k').
Proof.
  redirected; cbn [targets]; rewrite !elem_of_cons, !elem_of_nil;
    (split_and!; [tauto | tauto |]); intros x; rewrite !elem_of_cons, elem_of_nil; tauto.
Qed.

Lemma ps_term_targets t : t ∈ targets k0 <-> t ∈ term_targets p F.
Proof.
  rewrite (term_targets_kind _ _ _ K0), list_elem_of_filter. split; [| tauto]. intros Ht. split; [| done].
  pose proof ps_bail as (_ & _ & Nn). pose proof K0 as K. revert Ht K. redirected; cbn [targets].
  - by intros ->%list_elem_of_singleton.
  - intros Ht K. destruct (ok_branch _ _ _ O p t0 c1 b f1 Hp ps_in K).
    rewrite !elem_of_cons, elem_of_nil in Ht. by destruct Ht as [-> | [-> | []]].
  - intros Ht K. destruct (ok_branch _ _ _ O p t0 c1 t1 b Hp ps_in K).
    rewrite !elem_of_cons, elem_of_nil in Ht. by destruct Ht as [-> | [-> | []]].
Qed.

Lemma ps_fn : fn_ok ext (next_ref H) H.
Proof.
  apply (rewired_ok ext (next_ref F) (next_ref H) F H p t' k0 k'); [apply O | done | apply K0 | apply ps_old_targets | apply ps_place | apply R | | |].
  - intros t Ht. destruct ps_targets as (_ & _ & Q). apply Q in Ht as [-> | Ht]; [split; apply ps_bail |].
    apply ps_term_targets in Ht. split; [| by apply (wf_closed _ (ok_wf _ _ _ O) p)].
    rewrite (term_targets_kind _ _ _ K0) in Ht. by apply list_elem_of_filter in Ht as [? _].
  - pose proof K0 as K.
    assert (Nc : forall c t f, k0 = CondBranchInst c t f -> ~ has_block c F).
    { intros c t f E. rewrite E in K. by apply (ta_conds _ _ _ T p t0 c t f Hp ps_in). }
    revert Nc. redirected; cbn [value_ops targets]; intros Nc v; rewrite !elem_of_cons, elem_of_nil; [tauto | |].
    + specialize (Nc c1 b f1 eq_refl). intros [-> | ?]; [right; tauto | tauto].
    + specialize (Nc c1 t1 b eq_refl). intros [-> | ?]; [right; tauto | tauto].
  - by redirected.
Qed.

(** ** Instructions *)

Lemma ps_fresh : t' <> t0 -> is_phi F t' = false /\ kind_of t0 H = None.
Proof.
  intros N. destruct ps_new as [[? _] | [Et _]]; [done |]. split.
  - unfold is_phi, kind_of. destruct (insts F !! t') as [J |] eqn:E; [| done]. exfalso.
    assert (Q : is_Some (insts F !! t')) by by eexists. apply (ok_inst_fresh _ _ _ O) in Q. lia.
  - unfold kind_of. destruct (insts H !! t0) as [J |] eqn:E; [| done]. exfalso.
    assert (Q : is_Some (insts H !! t0)) by by eexists.
    apply (rw_insts _ _ _ _ _ R) in Q as [Q | [Q _]]; congruence.
Qed.

Lemma ps_is_phi j : is_phi H j = is_phi F j.
Proof.
  assert (P0 : is_phi F t0 = false).
  { unfold is_phi. rewrite K0. by redirected. }
  assert (P1 : is_phi H t' = false).
  { unfold is_phi. rewrite (rw_new _ _ _ _ _ R). by redirected. }
  destruct (decide (j = t')) as [-> | N1].
  - destruct (decide (t' = t0)) as [E | N]; [congruence |]. by rewrite P1, (proj1 (ps_fresh N)).
  - destruct (decide (j = t0)) as [-> | N2].
    + rewrite P0. unfold is_phi. by rewrite (proj2 (ps_fresh (not_eq_sym N1))).
    + unfold is_phi. rewrite (th_kinds _ _ _ _ _ _ _ _ _ Th j N2 N1). case_decide; [| done].
      by destruct (kind_of j F) as [[] |].
Qed.

Lemma ps_leading c : c ∈ blocks F ->
  leading_phis (getInstructions c H) H = leading_phis (getInstructions c F) F.
Proof.
  intros Hc. rewrite (leading_phis_ext _ F H) by apply ps_is_phi.
  rewrite (rw_instructions _ _ _ _ _ R). case_decide as D; [subst c | done].
  destruct (rw_split ext (next_ref F) F p k0 O Hp K0) as (l0 & E & El & _). rewrite El, E.
  rewrite !leading_phis_snoc; [done | |].
  - unfold is_phi. rewrite K0. by redirected.
  - rewrite <- ps_is_phi. unfold is_phi. rewrite (rw_new _ _ _ _ _ R). by redirected.
Qed.

(** An instruction that is neither a phi nor the terminator is as it was. *)
Lemma ps_kind j k : j <> t' -> is_phi H j = false -> kind_of j H = Some k -> kind_of j F = Some k.
Proof.
  intros N P K. destruct (decide (j = t0)) as [-> | N0].
  - by rewrite (proj2 (ps_fresh (not_eq_sym N))) in K.
  - rewrite (th_kinds _ _ _ _ _ _ _ _ _ Th j N0 N) in K. case_decide as D; [| done].
    rewrite ps_is_phi in P. unfold is_phi in P. by destruct (kind_of j F) as [[] |].
Qed.

Lemma ps_phi_ne j : is_phi H j = true -> j <> t' /\ j <> t0.
Proof.
  intros P. split; intros ->.
  - unfold is_phi in P. rewrite (rw_new _ _ _ _ _ R) in P. revert P. by redirected.
  - rewrite ps_is_phi in P. unfold is_phi in P. rewrite K0 in P. revert P. by redirected.
Qed.

Lemma ps_phis : phis_match H.
Proof.
  intros c i inc Hc Hi K. rewrite (rw_blocks _ _ _ _ _ R) in Hc. rewrite ps_leading in Hi by done.
  destruct (leading_phis_sub _ _ _ Hi) as [Hin P]. rewrite <- ps_is_phi in P.
  destruct (ps_phi_ne _ P) as [N1 N2]. rewrite (th_kinds _ _ _ _ _ _ _ _ _ Th i N2 N1) in K.
  assert (Il : i ∈ l <-> c = b).
  { rewrite <- (nt_phis _ _ _ _ _ _ _ _ _ NB). split; [| by intros <-]. intros Q.
    apply leading_phis_sub in Q as [Q _]. by apply (ok_apart _ _ _ O c b i). }
  assert (Pr : forall q, q ∈ getPredecessors c H <-> if decide (q = p) then c ∈ targets k' else q ∈ getPredecessors c F).
  { intros q. by apply (rw_pred _ _ _ _ _ R). }
  assert (Pp : p ∈ getPredecessors c F <-> c ∈ targets k0).
  { rewrite ps_term_targets, <- (co_succ _ (ok_edges _ _ _ O) p c Hp), (co_pred _ (ok_edges _ _ _ O) c p Hc). tauto. }
  destruct ps_targets as (B0 & B1 & Q). destruct (Q c) as [Q1 Q2].
  case_decide as D.
  - destruct D as [D1 D2]. apply Il in D1 as ->. apply fmap_Some in K as (k1 & K & E).
    destruct k1; try discriminate E. injection E as ->.
    destruct (ta_phis _ _ _ T b i incoming Hc Hi K) as [Nd En]. split.
    + unfold removeIncoming. clear -Nd. induction incoming as [| e r IH]; [done |]. rewrite filter_cons.
      cbn in Nd. apply NoDup_cons in Nd as [N1 N2]. case_decide; [| by apply IH]. cbn. apply NoDup_cons.
      split; [| by apply IH]. intros Q. apply N1. apply list_elem_of_fmap in Q as (e' & E & Q).
      apply list_elem_of_filter in Q as [_ Q]. rewrite E. by apply list_elem_of_fmap_2.
    + intros q. rewrite Pr.
      assert (E : q ∈ map snd (removeIncoming p incoming) <-> q <> p /\ q ∈ map snd incoming).
      { unfold removeIncoming. rewrite !list_elem_of_fmap. split.
        - intros (e & -> & He). apply list_elem_of_filter in He as [? ?]. split; [done | by exists e].
        - intros (Nq & e & -> & He). exists e. split; [done |]. by apply list_elem_of_filter. }
      rewrite E, En. case_decide as D; [subst q | ]; tauto.
  - destruct (ta_phis _ _ _ T c i inc Hc Hi K) as [Nd En]. split; [done |]. intros q. rewrite En, Pr.
    case_decide as Dq; [subst q | done]. rewrite Pp. destruct (decide (c = b)) as [-> | Nc].
    + destruct (decide (b ∈ targets k')); tauto.
    + split; [intros Z; by apply Q2 |]. intros Z. destruct (Q1 Z) as [-> | ?]; [| done]. exfalso.
      unfold starts_with_phi in Nb. destruct (getInstructions bail F) as [| j r]; cbn [leading_phis] in Hi;
        [by apply not_elem_of_nil in Hi |]. destruct (kind_of j F) as [[] |]; try done; by apply not_elem_of_nil in Hi.
Qed.

(** ** Blocks that test a phi *)

Lemma ps_terminator c : c ∈ blocks F ->
  terminator c H = if decide (c = p) then t' else terminator c F.
Proof.
  intros Hc. unfold terminator. rewrite (rw_instructions _ _ _ _ _ R). case_decide; [| done].
  by rewrite last_snoc.
Qed.

(** The condition of a conditional branch of [H] was its condition in [F]. *)
Lemma ps_cond c cond t f : c ∈ blocks F ->
  kind_of (terminator c H) H = Some (CondBranchInst cond t f) ->
  exists t1 f1, kind_of (terminator c F) F = Some (CondBranchInst cond t1 f1)
    /\ terminator c H = terminator c F.
Proof.
  intros Hc K. rewrite ps_terminator in K |- * by done. case_decide as D.
  - subst c. rewrite (rw_new _ _ _ _ _ R) in K. injection K as K. rewrite K0.
    destruct ps_new as [[Et _] | (_ & _ & E)]; [| congruence].
    revert K. redirected; intros K; [done | injection K as <- _ _ ..]; eauto.
  - assert (N : terminator c F <> t').
    { intros E. unfold kind_of in K. destruct (decide (getInstructions c F = [])) as [E0 | NE].
      - unfold terminator in K. rewrite E0 in K. cbn in K. by rewrite (wf_null _ (ok_wf _ _ _ ps_fn)) in K.
      - apply terminator_in in NE. destruct (decide (terminator c F = t0)) as [Q | Q].
        + apply D, (ok_apart _ _ _ O c p t0); [done | done | by rewrite <- Q | apply ps_in].
        + by apply (ps_elsewhere c) in Q. }
    apply ps_kind in K; [eauto | done |]. unfold is_phi. by rewrite K.
Qed.

Lemma ps_instructions c : c ∈ blocks F -> terminator c H = terminator c F ->
  getInstructions c H = getInstructions c F.
Proof.
  intros Hc E. rewrite ps_terminator in E by done. rewrite (rw_instructions _ _ _ _ _ R).
  case_decide as D; [| done]. subst c.
  destruct (rw_split ext (next_ref F) F p k0 O Hp K0) as (l0 & E0 & El & _). by rewrite El, E0, E.
Qed.

(** A block of [H] that tests a phi tested it in [F]. *)
Lemma ps_test c q bl' : c ∈ blocks F -> null_test M H c = Some (q, bl') ->
  exists cond t t1 f1 rhs, null_test M F c = Some (q, f1) /\ terminator c H = terminator c F
    /\ kind_of (terminator c H) H = Some (CondBranchInst cond t bl')
    /\ kind_of (terminator c F) F = Some (CondBranchInst cond t1 f1)
    /\ kind_of cond H = Some (CompareInst CmpPredicate.NE q rhs).
Proof.
  intros Hc E. unfold null_test in E.
  destruct (kind_of (terminator c H) H) as [[] |] eqn:K; try done.
  destruct (ps_cond c cond trueBlock falseBlock Hc K) as (t1 & f1 & K1 & Et).
  destruct (kind_of cond H) as [[] |] eqn:Kc; try done. destruct pred; try done.
  destruct (insts H !! lhs) as [J |] eqn:EJ; [| done].
  destruct (i_kind J) eqn:KJ; try done. destruct (null_const M rhs0 && N.eqb (i_parent J) c) eqn:Q; [| done].
  injection E as -> ->. exists cond, trueBlock, t1, f1, rhs0. split_and!; try done.
  unfold null_test. rewrite K1. assert (Nc : cond <> t').
  { intros E. rewrite E, (rw_new _ _ _ _ _ R) in Kc. revert Kc. by redirected. }
  rewrite (ps_kind cond _ Nc) by (done || by unfold is_phi; rewrite Kc).
  assert (P : is_phi H q = true) by (unfold is_phi, kind_of; by rewrite EJ; cbn; rewrite KJ).
  destruct (ps_phi_ne q P) as [N1 N2]. rewrite ps_is_phi in P.
  pose proof (th_parent _ _ _ _ _ _ _ _ _ Th q N2 N1) as Pa. unfold parent_of in Pa. rewrite EJ in Pa.
  unfold is_phi, kind_of in P. destruct (insts F !! q) as [J0 |]; [| done]. cbn in P, Pa. injection Pa as Pa.
  destruct (i_kind J0); try done. by rewrite <- Pa, Q.
Qed.

Lemma ps_shape c q bl' : c ∈ blocks F -> null_test M H c = Some (q, bl') ->
  exists l icmp t rhs, null_block M H c q bl' l icmp t rhs.
Proof.
  intros Hc E. destruct (ps_test c q bl' Hc E) as (cond & t & t1 & f1 & r & EF & Et & KH & KF & Kc).
  destruct (ta_shape _ _ _ T c q f1 Hc EF) as (l' & ic & t2 & r2 & [B1 B2 B3 B4 B5 B6]).
  rewrite KF in B6. injection B6 as <- <-.
  assert (Nc : cond <> t').
  { intros E'. rewrite E', (rw_new _ _ _ _ _ R) in Kc. revert Kc. by redirected. }
  rewrite (ps_kind cond _ Nc) in B4 by (done || by unfold is_phi; rewrite Kc). injection B4 as ->.
  exists l', cond, t, r2. split; try done.
  - by rewrite (ps_instructions c Hc Et), Et.
  - by rewrite ps_leading.
Qed.

Lemma ps_private c q bl' : c ∈ blocks F -> null_test M H c = Some (q, bl') -> private H c.
Proof.
  intros Hc E d i k v Hd Hi K Hv Hv'. destruct (ps_test c q bl' Hc E) as (cond & t & t1 & f1 & r & EF & Et & _).
  rewrite (rw_blocks _ _ _ _ _ R) in Hd. rewrite (ps_instructions c Hc Et) in Hv'. rewrite ps_leading by done.
  pose proof (ta_private _ _ _ T c q f1 Hc EF) as Pv.
  destruct (rw_in_inv ext (next_ref F) (next_ref H) F H p t' k0 k' O Hp K0 ps_place R d i Hd Hi)
    as [[-> ->] | (N1 & N2 & Hi')].
  - rewrite (rw_new _ _ _ _ _ R) in K. injection K as <-.
    assert (Nb' : forall x, has_block x F -> x <> v).
    { intros x Hx ->. apply (ok_held _ _ _ O c v Hc) in Hv'. by apply (ok_disjoint _ _ _ O) in Hv' as [? _]. }
    destruct (Pv p t0 k0 v Hp ps_in K0) as [<- _]; [| done |].
    + revert Hv. pose proof (wf_heap _ (ok_wf _ _ _ O) bail (proj1 ps_bail)) as HB. redirected; cbn [value_ops];
        rewrite !elem_of_cons; intros Hv; pose proof (Nb' bail HB); intuition congruence.
    + split; [done |]. intros Q. apply leading_phis_sub in Q as [_ Q]. rewrite <- ps_is_phi in Q.
      by apply ps_phi_ne in Q as [? _].
  - apply (rw_kinds _ _ _ _ _ R) in K as (k1 & K1 & L); [| done]. destruct (fewer_ops _ _ _ L) as (V & _ & _).
    by apply (Pv d i k1 v Hd Hi' K1 (V v Hv)).
Qed.

Lemma ps_conds c i cond t f : c ∈ blocks F -> i ∈ getInstructions c H ->
  kind_of i H = Some (CondBranchInst cond t f) -> ~ has_block cond F.
Proof.
  intros Hc Hi K.
  destruct (rw_in_inv ext (next_ref F) (next_ref H) F H p t' k0 k' O Hp K0 ps_place R c i Hc Hi)
    as [[-> ->] | (N1 & N2 & Hi')].
  - rewrite (rw_new _ _ _ _ _ R) in K. injection K as K. pose proof K0 as K1. revert K K1. redirected; [done | |];
      intros [= <- _ _] K1; by apply (ta_conds _ _ _ T p t0 _ _ _ Hp ps_in K1).
  - apply (rw_kinds _ _ _ _ _ R) in K as (k1 & K1 & L); [| done].
    destruct L as [<- | (inc & -> & [=])]. by apply (ta_conds _ _ _ T c i _ _ _ Hc Hi' K1).
Qed.

(** Threading an edge leaves a function on which the pass can go on. *)
Lemma threaded_ok : threadable ext M H.
Proof.
  split; rewrite ?(rw_blocks _ _ _ _ _ R).
  - apply ps_fn.
  - rewrite (rw_has _ _ _ _ _ R). apply (ta_null _ _ _ T).
  - apply ps_phis.
  - intros c i cond t f Hc Hi K. rewrite (rw_has _ _ _ _ _ R). by apply (ps_conds c i cond t f).
  - intros c q bl Hc. by apply ps_shape.
  - intros c q bl Hc. by apply ps_private.
Qed.

Lemma threaded_branches : branches_only M F -> branches_only M H.
Proof.
  intros B c q bl inc v x cond t f Hc E K Hin Hv Kt. pose proof Hc as Hc'. rewrite (rw_blocks _ _ _ _ _ R) in Hc.
  destruct (ps_test c q bl Hc E) as (_ & _ & _ & f1 & _ & EF & _).
  destruct (ps_shape c q bl Hc E) as (l' & ic & t2 & r2 & NB').
  assert (Hq : q ∈ leading_phis (getInstructions c H) H).
  { rewrite (nt_phis _ _ _ _ _ _ _ _ _ NB'). pose proof (nt_phi _ _ _ _ _ _ _ _ _ NB') as L.
    apply last_Some in L as [l0 ->]. apply elem_of_app. right. left. }
  destruct (ps_phis c q inc Hc' Hq K) as [_ En].
  assert (Hx : x ∈ blocks F).
  { pose proof (proj1 (En x)) as Q. rewrite <- (rw_blocks _ _ _ _ _ R).
    apply (co_pred _ (ok_edges _ _ _ ps_fn) c x Hc'), Q. by apply (list_elem_of_fmap_2 snd) in Hin. }
  destruct (ps_cond x cond t f Hx Kt) as (t1 & f2 & KF & _).
  assert (Nq : q <> t').
  { apply leading_phis_sub in Hq as [_ Hq]. by apply ps_phi_ne in Hq as [? _]. }
  apply (rw_kinds _ _ _ _ _ R) in K as (k1 & K1 & L); [| done].
  assert (Hin' : exists inc1, k1 = PhiInst inc1 /\ (v, x) ∈ inc1).
  { destruct L as [<- | (inc1 & -> & [= ->])]; [by exists inc |]. exists inc1. split; [done |].
    by apply list_elem_of_filter in Hin as [_ Hin]. }
  destruct Hin' as (inc1 & -> & Hin'). by apply (B c q f1 inc1 v x cond t1 f2 Hc EF K1 Hin' Hv).
Qed.

End Preserved.
