(* ===== verification/JumpThreadingSim.v ===== *)
(** * Jump threading: executions

    A run of the function and a run of the function with a threaded edge go through the same
    blocks, except that the second leaves out the block that is skipped; they agree on every
    value but those of that block. *)

From S2P Require Import Prelude Diag HIRType MIR MIRFacts SimplifyCFG SimplifyCFGProps BypassProps MIRModule MIRUses Rewire Semantics JumpThreading JumpThreadingProps JumpThreadingSafe.

Implicit Types (F G H : MIRFunction) (M : MIRModule) (a b c d i j p phi v x y : ref) (k : InstKind) (l : list ref).

Lemma entry_for_elem p inc v : NoDup (map snd inc) -> (v, p) ∈ inc -> entry_for p inc = Some v.
Proof.
  unfold entry_for. induction inc as [| [w q] inc IH]; intros N Hi; [by apply not_elem_of_nil in Hi |].
  cbn in N. apply NoDup_cons in N as [N1 N2]. cbn. destruct (N.eqb_spec q p) as [-> | Nq].
  - apply elem_of_cons in Hi as [[= ->] | Hi]; [done |]. exfalso. apply N1. by apply (list_elem_of_fmap_2 snd) in Hi.
  - apply elem_of_cons in Hi as [[= _ <-] | Hi]; [done |]. by apply IH.
Qed.

Lemma entry_for_in p inc v : entry_for p inc = Some v -> v ∈ map fst inc /\ p ∈ map snd inc.
Proof.
  unfold entry_for. induction inc as [| [w q] inc IH]; [done |]. cbn. destruct (N.eqb_spec q p) as [-> | N].
  - intros [= ->]. split; left.
  - intros E. destruct (IH E). split; by right.
Qed.

Lemma entry_for_removed p q inc : q <> p -> entry_for q (removeIncoming p inc) = entry_for q inc.
Proof.
  intros N. unfold entry_for, removeIncoming. induction inc as [| [w r] inc IH]; [done |]. rewrite filter_cons.
  case_decide as D; cbn [find snd] in *.
  - by destruct (N.eqb r q).
  - rewrite IH. destruct (N.eqb_spec r q) as [-> | ?]; [| done]. exfalso. apply N. tauto.
Qed.

Lemma entry_block F : getEntryBlock F = nullptr \/ getEntryBlock F ∈ blocks F.
Proof. unfold getEntryBlock. destruct (blocks F) as [| e r]; [by left | right; left]. Qed.

Section Sim.
Context {V St : Type} `{Machine V St}.
Context (ext : ref -> Prop) (M : MIRModule) (F : MIRFunction) (T : threadable ext M F).
Context (Consts : forall v, null_const M v = true -> ext v).
Context (b phi bail : ref) (l : list ref) (icmp tt rhs : ref) (Hb : b ∈ blocks F).
Context (NT : null_test M F b = Some (phi, bail)).
Context (NB : null_block M F b phi bail l icmp tt rhs).
Context (Nb : starts_with_phi F bail = false) (p : ref) (Hp : p ∈ blocks F).
Context (inc : list (ref * ref)) (v0 : ref) (Kphi : kind_of phi F = Some (PhiInst inc)).
Context (Hv0 : (v0, p) ∈ inc) (Null0 : null_const M v0 = true).
Context (t' : ref) (k0 k' : InstKind) (G : MIRFunction) (Th : threaded F b bail l p t' k0 k' G).

Implicit Types (ρ : ref -> V) (s : St).

Abbreviation t0 := (terminator p F).
Abbreviation O := (ta_fn _ _ _ T).
Abbreviation R := (th_rewired _ _ _ _ _ _ _ _ _ Th).
Abbreviation D := (l ++ [icmp; terminator b F]).

(** Null constants have the null value. *)
Definition nulls ρ : Prop := forall v, null_const M v = true -> ρ v = m_null.

(** Where the two runs stand: control comes to [c], from [a] and [a']. *)
Record sim a a' c ρ ρ' : Prop := {
  sim_null : nulls ρ;
  sim_null' : nulls ρ';
  sim_agree : agree D ρ ρ';
  sim_block : c = nullptr \/ c ∈ blocks F;
  sim_from : a = a' \/ leading_phis (getInstructions c F) F = [];
  sim_edge : a' ∈ blocks F -> c <> nullptr -> c ∈ term_targets a' G;
}.

Let G_is_phi := ps_is_phi ext M F T b bail l Nb p t' k0 k' G Th.
Let G_phi_ne := ps_phi_ne ext M F T b bail l Nb p t' k0 k' G Th.
Let G_leading := ps_leading ext M F T b bail l Nb p Hp t' k0 k' G Th.
Let G_terminator := ps_terminator F b bail l p t' k0 k' G Th.
Let G_elsewhere := ps_elsewhere ext M F T b bail l p t' k0 k' G Th.
Let G_redirects := ps_redirects F b bail l p t' k0 k' G Th.
Let G_fn := ps_fn ext M F T b phi bail l icmp tt rhs Hb NB p Hp t' k0 k' G Th.
Let F_bail := ps_bail ext M F T b phi bail l icmp tt rhs Hb NB.

Lemma D_insts : getInstructions b F = D.
Proof. apply (nt_insts_are _ _ _ _ _ _ _ _ _ NB). Qed.

Lemma D_block d i : d ∈ blocks F -> i ∈ getInstructions d F -> i ∈ D -> d = b.
Proof. intros Hd Hi Q. rewrite <- D_insts in Q. by apply (ok_apart _ _ _ O d b i). Qed.

(** What is used outside [b] is none of its values. *)
Lemma D_unused d i k v : d ∈ blocks F -> d <> b -> i ∈ getInstructions d F -> kind_of i F = Some k ->
  v ∈ value_ops k -> v ∉ D.
Proof.
  intros Hd N Hi K Hv Q. rewrite <- D_insts in Q.
  by apply (ta_private _ _ _ T b phi bail Hb NT d i k v) in Q as [? _].
Qed.

Lemma const_not_inst v d i : null_const M v = true -> d ∈ blocks F -> i ∈ getInstructions d F -> v <> i.
Proof.
  intros Hv Hd Hi ->. apply (ok_held _ _ _ O d i Hd) in Hi. apply (ok_disjoint _ _ _ O) in Hi as [_ Hi].
  by apply Hi, Consts.
Qed.

(** Assignments to instructions of a block keep the null constants. *)
Lemma nulls_frame d ρ ρ1 : d ∈ blocks F -> (forall v, v ∉ getInstructions d F -> ρ1 v = ρ v) -> nulls ρ -> nulls ρ1.
Proof.
  intros Hd Fr N v Hv. rewrite Fr; [by apply N |]. intros Q. by apply (const_not_inst v d v).
Qed.

Lemma leading_in c i : i ∈ leading_phis (getInstructions c F) F -> i ∈ getInstructions c F.
Proof. intros Q. by apply leading_phis_sub in Q as [? _]. Qed.

(** ** Phis *)

Lemma sim_phi_value a a' c ρ ρ' i :
  sim a a' c ρ ρ' -> c ∈ blocks F -> i ∈ leading_phis (getInstructions c F) F ->
  phi_value F a ρ i = phi_value G a' ρ' i.
Proof.
  intros S Hc Hi. pose proof (leading_in c i Hi) as Hin.
  destruct (sim_from _ _ _ _ _ S) as [-> | E]; [| rewrite E in Hi; by apply not_elem_of_nil in Hi].
  destruct (leading_phis_sub _ _ _ Hi) as [_ P].
  rewrite <- G_is_phi in P. destruct (G_phi_ne i P) as [N1 N2].
  unfold phi_value. rewrite (th_kinds _ _ _ _ _ _ _ _ _ Th i N2 N1).
  destruct (kind_of i F) as [[] |] eqn:K; try by case_decide.
  assert (U : forall w, w ∈ map fst incoming -> ρ w = ρ' w).
  { intros w Hw. apply (sim_agree _ _ _ _ _ S). rewrite <- D_insts. intros Q.
    destruct (ta_private _ _ _ T b phi bail Hb NT c i (PhiInst incoming) w Hc Hin K Hw Q) as [-> Z]. done. }
  assert (E : entry_for a' (if decide (i ∈ l /\ (b ∉ targets k')) then removeIncoming p incoming else incoming)
    = entry_for a' incoming).
  { case_decide as Dl; [| done]. destruct Dl as [Dl Dk]. apply entry_for_removed. intros ->. apply Dk.
    assert (c = b) as ->.
    { apply (D_block c i Hc Hin). apply elem_of_app. by left. }
    assert (Nn : b <> nullptr) by (intros Z; apply (ta_null _ _ _ T); rewrite <- Z; by apply (wf_heap _ (ok_wf _ _ _ O))).
    pose proof (sim_edge _ _ _ _ _ S Hp Nn) as Q.
    rewrite (term_targets_kind p G k') in Q; [by apply list_elem_of_filter in Q as [_ Q] |].
    rewrite G_terminator, decide_True by done. apply R. }
  transitivity (w ← entry_for a' (if decide (i ∈ l /\ (b ∉ targets k')) then removeIncoming p incoming else incoming); Some (i, ρ' w)).
  - rewrite E. destruct (entry_for a' incoming) as [w |] eqn:Ew; [| done]. cbn. rewrite U; [done |].
    by apply entry_for_in in Ew as [? _].
  - by case_decide.
Qed.

(** Both sides enter the block; at [b] the phis agree then. *)
Lemma sim_enter a a' c ρ ρ' :
  sim a a' c ρ ρ' -> c ∈ blocks F ->
  (enter F a c ρ = None /\ enter G a' c ρ' = None)
  \/ exists ρ1 ρ1', enter F a c ρ = Some ρ1 /\ enter G a' c ρ' = Some ρ1'
     /\ nulls ρ1 /\ nulls ρ1' /\ agree (if decide (c = b) then [icmp; terminator b F] else D) ρ1 ρ1'
     /\ forall v, v ∉ getInstructions c F -> ρ1 v = ρ v.
Proof.
  intros S Hc. unfold enter. rewrite (G_leading c Hc).
  rewrite (phi_values_ext F G a a' ρ ρ') by (intros i Hi; by apply (sim_phi_value a a' c)).
  destruct (mapM (phi_value G a' ρ') (leading_phis (getInstructions c F) F)) as [vs |] eqn:E; [| by left].
  right. exists (bind_all vs ρ), (bind_all vs ρ'). pose proof (phi_values_names _ _ _ _ _ E) as En.
  assert (Fr : forall ρ v, v ∉ getInstructions c F -> bind_all vs ρ v = ρ v).
  { intros ρ0 v Hv. apply bind_all_other. rewrite En. intros Q. by apply Hv, leading_in. }
  split_and!; [done | done | | | | intros v; apply Fr].
  - apply (nulls_frame c ρ); [done | intros v; apply Fr | apply S].
  - apply (nulls_frame c ρ'); [done | intros v; apply Fr | apply S].
  - case_decide as Dc.
    + subst c. apply bind_all_agree. rewrite En, (nt_phis _ _ _ _ _ _ _ _ _ NB). apply S.
    + apply bind_all_agree. intros v [_ Hv]%not_elem_of_app. by apply S.
Qed.

(** ** The block that is skipped *)

Lemma bail_other : bail <> b.
Proof.
  intros E. pose proof Nb as Nb'. unfold starts_with_phi in Nb'. rewrite E in Nb'. pose proof (nt_phi _ _ _ _ _ _ _ _ _ NB) as L.
  rewrite <- (nt_phis _ _ _ _ _ _ _ _ _ NB) in L. destruct (getInstructions b F) as [| i r]; cbn [leading_phis] in L; [done |].
  by destruct (kind_of i F) as [[] |].
Qed.

Lemma bail_no_phis : leading_phis (getInstructions bail F) F = [].
Proof.
  pose proof Nb as Nb'. unfold starts_with_phi in Nb'. destruct (getInstructions bail F) as [| i r]; [done |]. cbn [leading_phis].
  by destruct (kind_of i F) as [[] |].
Qed.

Lemma D_nodup : NoDup D.
Proof. rewrite <- D_insts. by apply (ok_nodup _ _ _ O). Qed.

Lemma phi_in : phi ∈ l.
Proof.
  pose proof (nt_phi _ _ _ _ _ _ _ _ _ NB) as L. apply last_Some in L as [l' ->]. apply elem_of_app. right. left.
Qed.

Lemma drop_D : drop (length (leading_phis (getInstructions b F) F)) (getInstructions b F) = [icmp; terminator b F].
Proof. rewrite (nt_phis _ _ _ _ _ _ _ _ _ NB), D_insts. apply drop_app_length. Qed.

Lemma p_pred : p ∈ getPredecessors b F.
Proof.
  apply (co_pred _ (ok_edges _ _ _ O)); [done |]. split; [done |]. apply (co_succ _ (ok_edges _ _ _ O)); [done |].
  apply (ps_term_targets ext M F T b phi bail l icmp tt rhs Hb NB p Hp t' k0 k' G Th).
  by apply (ps_targets F b bail l p t' k0 k' G Th).
Qed.

(** Coming from [p] the phi is null, and control goes on to [bail]. *)
Lemma skip ρ ρ' s : nulls ρ -> agree D ρ ρ' ->
  exists ρ2, run_block F p b ρ s = Goto bail ρ2 s /\ agree D ρ2 ρ' /\ nulls ρ2.
Proof.
  intros N A. assert (Vs : exists vs, mapM (phi_value F p ρ) l = Some vs).
  { apply phi_values_total. intros i Hi. assert (Hi' : i ∈ leading_phis (getInstructions b F) F)
      by by rewrite (nt_phis _ _ _ _ _ _ _ _ _ NB).
    destruct (leading_phis_sub _ _ _ Hi') as [_ P]. unfold is_phi in P. unfold phi_value.
    destruct (kind_of i F) as [[] |] eqn:K; try done.
    destruct (ta_phis _ _ _ T b i incoming Hb Hi' K) as [Nd En].
    pose proof (proj2 (En p) p_pred) as Q. apply list_elem_of_fmap in Q as ([w q] & Eq & Q).
    cbn in Eq. rewrite <- Eq in Q. rewrite (entry_for_elem _ _ _ Nd Q). by eexists. }
  destruct Vs as [vs Vs]. pose proof (phi_values_names _ _ _ _ _ Vs) as En.
  assert (Vphi : bind_all vs ρ phi = m_null).
  { apply bind_all_value.
    - rewrite En. pose proof D_nodup as Nd. by apply NoDup_app in Nd as [Nd _].
    - apply (phi_values_elem _ _ _ _ _ _ _ Vs); [apply phi_in |]. unfold phi_value. rewrite Kphi.
      assert (Hi' : phi ∈ leading_phis (getInstructions b F) F) by (rewrite (nt_phis _ _ _ _ _ _ _ _ _ NB); apply phi_in).
      destruct (ta_phis _ _ _ T b phi inc Hb Hi' Kphi) as [Nd _].
      rewrite (entry_for_elem _ _ _ Nd Hv0). cbn. by rewrite (N v0 Null0). }
  assert (Vrhs : bind_all vs ρ rhs = m_null).
  { rewrite bind_all_other; [by apply N, (nt_rhs _ _ _ _ _ _ _ _ _ NB) |]. rewrite En. intros Q.
    apply (const_not_inst rhs b rhs (nt_rhs _ _ _ _ _ _ _ _ _ NB) Hb); [| done].
    rewrite D_insts. apply elem_of_app. by left. }
  set (ρ2 := bind icmp (m_compare CmpPredicate.NE m_null m_null) (bind_all vs ρ)).
  assert (E : run_block F p b ρ s = Goto bail ρ2 s).
  { unfold run_block, enter. rewrite drop_D, (nt_phis _ _ _ _ _ _ _ _ _ NB), Vs. cbn [mbind option_bind run_insts].
    rewrite (nt_icmp _ _ _ _ _ _ _ _ _ NB), (nt_branch _ _ _ _ _ _ _ _ _ NB), Vphi, Vrhs. unfold ρ2, bind at 1.
    by rewrite N.eqb_refl, m_compare_same. }
  exists ρ2. split; [done |]. split.
  - apply agree_bind_in; [| apply elem_of_app; right; left].
    intros v Hv. rewrite bind_all_other; [by apply A |]. rewrite En. intros Q. apply Hv, elem_of_app. by left.
  - apply (nulls_frame b ρ); [done | | done]. by apply (run_block_frame _ _ _ _ _ _ _ _ E).
Qed.

(** ** The other blocks *)

(** What the two sides do from a block: the second may go to [bail] instead of [b]. *)
Definition after c (n n' : Next V St) : Prop :=
  match n, n' with
  | Goto d ρ s, Goto d' ρ' s' => s = s' /\ agree D ρ ρ' /\ (d = d' \/ c = p /\ d = b /\ d' = bail)
  | Done o, Done o' => o = o'
  | _, _ => False
  end.

Lemma after_agree c n n' : next_agree D n n' -> after c n n'.
Proof. destruct n, n'; cbn; [| done | done | done]. intros (-> & -> & A). by split_and!; [| | left]. Qed.

(** An instruction that is neither a phi of [b] nor a terminator is the same. *)
Lemma same_kind c i : c ∈ blocks F -> i ∈ getInstructions c F -> i <> t0 -> i ∉ l -> kind_of i G = kind_of i F.
Proof.
  intros Hc Hi N Nl. rewrite (th_kinds _ _ _ _ _ _ _ _ _ Th i N (G_elsewhere c i Hc Hi N)).
  by rewrite decide_False by tauto.
Qed.

Lemma t0_in : t0 ∈ getInstructions p F.
Proof. apply (ps_in ext M F T b bail l p t' k0 k' G Th). Qed.

Lemma t0_block c : c ∈ blocks F -> t0 ∈ getInstructions c F -> c = p.
Proof. intros Hc Q. by apply (ok_apart _ _ _ O c p t0); [| | | apply t0_in]. Qed.

Lemma not_l c i : c ∈ blocks F -> c <> b -> i ∈ getInstructions c F -> i ∉ l.
Proof. intros Hc N Hi Q. apply N, (D_block c i Hc Hi). apply elem_of_app. by left. Qed.

Lemma body_other c ρ ρ' s : c ∈ blocks F -> c <> b -> c <> p -> agree D ρ ρ' ->
  let n := length (leading_phis (getInstructions c F) F) in
  after c (run_insts F (drop n (getInstructions c F)) ρ s) (run_insts G (drop n (getInstructions c F)) ρ' s).
Proof.
  intros Hc Nc Np A n. rewrite <- (app_nil_r (drop n (getInstructions c F))).
  apply (run_insts_agree D); [apply after_agree | | | done | done].
  - intros i Hi%elem_of_drop_in. apply (same_kind c); [done | done | | by apply (not_l c)].
    intros ->. by apply Np, t0_block.
  - intros i k v Hi%elem_of_drop_in. by apply (D_unused c i).
Qed.

(** The new terminator after the old one's place. *)
Lemma body_terminator ρ ρ' s :
  (forall c t f, k0 = CondBranchInst c t f -> ρ c = ρ' c) -> agree D ρ ρ' ->
  after p (run_insts F [t0] ρ s) (run_insts G [t'] ρ' s).
Proof.
  intros C A. cbn [run_insts]. rewrite (th_old _ _ _ _ _ _ _ _ _ Th), (rw_new _ _ _ _ _ R).
  destruct G_redirects as [[E0 E1] | [(c & f & E0 & E1) | (c & t & N & E0 & E1)]]; rewrite E1; rewrite E0 in C |- *.
  - split_and!; [done | done | by right].
  - rewrite (C c b f eq_refl). destruct (m_truth (ρ' c)); (split_and!; [done | done |]); [by right | by left].
  - rewrite (C c t b eq_refl). destruct (m_truth (ρ' c)); (split_and!; [done | done |]); [by left | by right].
Qed.

Lemma body_pred ρ ρ' s : p <> b -> agree D ρ ρ' ->
  let n := length (leading_phis (getInstructions p F) F) in
  after p (run_insts F (drop n (getInstructions p F)) ρ s) (run_insts G (drop n (getInstructions p G)) ρ' s).
Proof.
  intros Np A n.
  destruct (rw_split ext (next_ref F) F p k0 O Hp (th_old _ _ _ _ _ _ _ _ _ Th)) as (l0 & E & El & _ & Nt).
  assert (L : n <= length l0).
  { unfold n. rewrite E, leading_phis_snoc; [apply leading_phis_length |]. unfold is_phi.
    rewrite (th_old _ _ _ _ _ _ _ _ _ Th).
    by destruct G_redirects as [[-> _] | [(c & f & -> & _) | (c & t & _ & -> & _)]]. }
  rewrite (rw_instructions _ _ _ _ _ R), decide_True, El by done. rewrite E, !drop_app_le by done.
  assert (In0 : forall i, i ∈ drop n l0 -> i ∈ getInstructions p F /\ i <> t0).
  { intros i Hi%elem_of_drop_in. split; [rewrite E; apply elem_of_app; by left | by intros ->]. }
  apply (run_insts_agree D); [apply after_agree | | | | done].
  - intros i [Hi N]%In0. apply (same_kind p); [done | done | done | by apply (not_l p)].
  - intros i k v [Hi _]%In0. by apply (D_unused p i).
  - intros ρ1 ρ1' s1 A1 Fr. apply body_terminator; [| done]. intros c t f Ek. apply A1.
    apply (D_unused p t0 k0); [done | done | apply t0_in | apply Th |]. rewrite Ek. left.
Qed.

(** The two instructions of [b] after its phis. *)
Lemma body_block ρ ρ' s : agree [icmp; terminator b F] ρ ρ' ->
  after b (run_insts F [icmp; terminator b F] ρ s)
    (run_insts G (drop (length l) (getInstructions b G)) ρ' s).
Proof.
  intros A. pose proof D_nodup as Nd. apply NoDup_app in Nd as (Nl & Nd & Nt). apply NoDup_cons in Nt as [Nt _].
  assert (Ni : icmp <> terminator b F) by (intros E; apply Nt; rewrite E; left).
  assert (Hi : icmp ∈ getInstructions b F) by (rewrite D_insts; apply elem_of_app; right; left).
  assert (Nil : icmp ∉ l) by (intros Q; apply (Nd icmp Q); left).
  assert (Ni0 : icmp <> t0).
  { intros E. assert (b = p) as Eb by (apply t0_block; [done | by rewrite <- E]). rewrite <- Eb in E. done. }
  assert (Hrhs : rhs ∉ getInstructions b F).
  { intros Q. by apply (const_not_inst rhs b rhs (nt_rhs _ _ _ _ _ _ _ _ _ NB) Hb). }
  assert (Nr : rhs ∉ [icmp; terminator b F]) by (intros Q; apply Hrhs; rewrite D_insts; apply elem_of_app; by right).
  assert (Np : phi ∉ [icmp; terminator b F]) by (apply Nd, phi_in).
  set (v := m_compare CmpPredicate.NE (ρ phi) (ρ rhs)).
  assert (A1 : agree D (bind icmp v ρ) (bind icmp v ρ')).
  { apply agree_bind. intros x Hx. apply A. intros Q. apply Hx, elem_of_app. by right. }
  assert (Kb : exists t2, (t2 = tt \/ b = p /\ tt = b /\ t2 = bail)
    /\ kind_of (terminator b G) G = Some (CondBranchInst icmp t2 bail)
    /\ getInstructions b G = l ++ [icmp; terminator b G]).
  { destruct (decide (b = p)) as [Eb | Nb'].
    - pose proof (th_old _ _ _ _ _ _ _ _ _ Th) as K0. rewrite <- Eb, (nt_branch _ _ _ _ _ _ _ _ _ NB) in K0.
      assert (Et : terminator b G = t') by (rewrite G_terminator, decide_True by done; done).
      assert (Ei : getInstructions b G = l ++ [icmp; t']).
      { rewrite (rw_instructions _ _ _ _ _ R), decide_True by done. rewrite <- Eb, D_insts.
        rewrite (app_assoc l [icmp] [terminator b F] : l ++ [icmp; terminator b F] = _).
        by rewrite removelast_last, <- app_assoc. }
      rewrite Et, (rw_new _ _ _ _ _ R).
      destruct G_redirects as [[E0 E1] | [(c & f & E0 & E1) | (c & t & N & E0 & E1)]]; rewrite E0 in K0;
        [done | injection K0 as <- Et1 <- | injection K0 as <- _ Z; by apply bail_other in Z].
      exists bail. rewrite E1. by split_and!; [right | |].
    - exists tt. split; [by left |]. rewrite G_terminator, decide_False by done.
      rewrite (rw_instructions _ _ _ _ _ R), decide_False, D_insts by done. split; [| done].
      rewrite (same_kind b); [apply (nt_branch _ _ _ _ _ _ _ _ _ NB) | done | rewrite D_insts; apply elem_of_app; right; right; left | |].
      + intros E. apply Nb', t0_block; [done |]. rewrite <- E, D_insts. apply elem_of_app. right. right. left.
      + intros Q. apply (Nd _ Q). right. left. }
  destruct Kb as (t2 & Ht2 & Kt & EI). rewrite EI, drop_app_length. cbn [run_insts].
  rewrite (same_kind b icmp Hb Hi Ni0 Nil), (nt_icmp _ _ _ _ _ _ _ _ _ NB), (nt_branch _ _ _ _ _ _ _ _ _ NB), Kt.
  rewrite <- (A phi Np), <- (A rhs Nr). fold v. split_and!; [done | done |].
  unfold bind. rewrite N.eqb_refl. destruct (m_truth v); [| by left].
  destruct Ht2 as [-> | (-> & -> & ->)]; [by left | by right].
Qed.

(** Both sides run a block. *)
Lemma sim_body a a' c ρ ρ' s : sim a a' c ρ ρ' -> c ∈ blocks F ->
  after c (run_block F a c ρ s) (run_block G a' c ρ' s).
Proof.
  intros S Hc. unfold run_block.
  destruct (sim_enter a a' c ρ ρ' S Hc) as [[-> ->] | (ρ1 & ρ1' & -> & -> & _ & _ & A & _)]; [done |].
  rewrite (G_leading c Hc). destruct (decide (c = b)) as [-> | Nc].
  - rewrite drop_D, (nt_phis _ _ _ _ _ _ _ _ _ NB). by apply body_block.
  - destruct (decide (c = p)) as [-> | Np]; [by apply body_pred |].
    assert (E : getInstructions c G = getInstructions c F) by (rewrite (rw_instructions _ _ _ _ _ R); by rewrite decide_False).
    rewrite E. by apply body_other.
Qed.

(** ** Runs *)

Lemma const_not_new v c : null_const M v = true -> c ∈ blocks G -> v ∉ getInstructions c G.
Proof.
  intros Hv Hc Q. apply (ok_held _ _ _ G_fn c v Hc) in Q. apply (ok_disjoint _ _ _ G_fn) in Q as [_ Q].
  by apply Q, Consts.
Qed.

(** One block on each side, or on the first also the skipped one. *)
Lemma sim_step a a' c ρ ρ' s : sim a a' c ρ ρ' -> c ∈ blocks F ->
  match run_block F a c ρ s, run_block G a' c ρ' s with
  | Done o, Done o' => o = o'
  | Goto d ρ1 s1, Goto d' ρ1' s1' => s1 = s1' /\
      (d = d' /\ sim c c d ρ1 ρ1'
       \/ exists ρ2, run_block F c d ρ1 s1 = Goto d' ρ2 s1 /\ sim d c d' ρ2 ρ1')
  | _, _ => False
  end.
Proof.
  intros S Hc. pose proof (sim_body a a' c ρ ρ' s S Hc) as B.
  destruct (run_block F a c ρ s) as [d ρ1 s1 | o] eqn:E1, (run_block G a' c ρ' s) as [d' ρ1' s1' | o'] eqn:E2;
    [| by destruct B | by destruct B | exact B].
  destruct B as (<- & A & J). split; [done |].
  assert (Hc' : c ∈ blocks G) by (by rewrite (rw_blocks _ _ _ _ _ R)).
  assert (N1 : nulls ρ1).
  { apply (nulls_frame c ρ); [done | | apply S]. by apply (run_block_frame _ _ _ _ _ _ _ _ E1). }
  assert (N1' : nulls ρ1').
  { intros v Hv. rewrite (run_block_frame _ _ _ _ _ _ _ _ E2 v) by (by apply const_not_new). by apply S. }
  pose proof (run_block_target _ _ _ _ _ _ _ _ _ _ G_fn Hc' E2) as Td.
  assert (Bd : d' = nullptr \/ d' ∈ blocks F).
  { destruct Td as [? | Td]; [by left | right]. rewrite <- (rw_blocks _ _ _ _ _ R).
    by apply (wf_closed _ (ok_wf _ _ _ G_fn) c). }
  destruct J as [<- | (-> & -> & ->)].
  - left. split; [done |]. split; [done | done | done | done | by left |]. intros _ Nd. by destruct Td.
  - right. destruct (skip ρ1 ρ1' s1 N1 A) as (ρ2 & E & A2 & N2). exists ρ2. split; [done |].
    split; [done | done | done | done | right; apply bail_no_phis |]. intros _ Nd. by destruct Td.
Qed.

Lemma no_block X a ρ s : (forall x, has_block x X <-> has_block x F) -> run_block X a nullptr ρ s = Done Stuck.
Proof.
  intros HX. unfold run_block, enter, getInstructions. destruct (bbs X !! nullptr) as [B |] eqn:E; [| done].
  exfalso. apply (ta_null _ _ _ T), HX. by eexists.
Qed.

Lemma run_sim n : forall a a' c ρ ρ' s o,
  sim a a' c ρ ρ' -> run n F a c ρ s = Some o -> exists m, run m G a' c ρ' s = Some o.
Proof.
  induction n as [n IH] using lt_wf_ind. intros a a' c ρ ρ' s o S E. destruct n as [| n]; [done |].
  cbn [run] in E. destruct (sim_block _ _ _ _ _ S) as [-> | Hc].
  { exists 1. cbn [run]. rewrite no_block in E by done. by rewrite (no_block G) by apply R. }
  pose proof (sim_step a a' c ρ ρ' s S Hc) as St_.
  destruct (run_block F a c ρ s) as [d ρ1 s1 | o1] eqn:E1, (run_block G a' c ρ' s) as [d' ρ1' s1' | o1'] eqn:E2; try done.
  - destruct St_ as (<- & [[<- S1] | (ρ2 & E3 & S1)]).
    + destruct (IH n ltac:(lia) _ _ _ _ _ _ _ S1 E) as [m Em]. exists (Datatypes.S m). cbn [run]. by rewrite E2.
    + destruct n as [| n]; [done |]. cbn [run] in E. rewrite E3 in E.
      destruct (IH n ltac:(lia) _ _ _ _ _ _ _ S1 E) as [m Em]. exists (Datatypes.S m). cbn [run]. by rewrite E2.
  - injection E as <-. rewrite St_. exists 1. cbn [run]. by rewrite E2.
Qed.

Lemma run_sim_back n : forall a a' c ρ ρ' s o,
  sim a a' c ρ ρ' -> run n G a' c ρ' s = Some o -> exists m, run m F a c ρ s = Some o.
Proof.
  induction n as [| n IH]; intros a a' c ρ ρ' s o S E; [done |]. cbn [run] in E.
  destruct (sim_block _ _ _ _ _ S) as [-> | Hc].
  { exists 1. cbn [run]. rewrite (no_block G) in E by apply R. by rewrite no_block. }
  pose proof (sim_step a a' c ρ ρ' s S Hc) as St_.
  destruct (run_block F a c ρ s) as [d ρ1 s1 | o1] eqn:E1, (run_block G a' c ρ' s) as [d' ρ1' s1' | o1'] eqn:E2; try done.
  - destruct St_ as (<- & [[<- S1] | (ρ2 & E3 & S1)]).
    + destruct (IH _ _ _ _ _ _ _ S1 E) as [m Em]. exists (Datatypes.S m). cbn [run]. by rewrite E1.
    + destruct (IH _ _ _ _ _ _ _ S1 E) as [m Em]. exists (Datatypes.S (Datatypes.S m)). cbn [run]. by rewrite E1, E3.
  - injection E as <-. rewrite <- St_. exists 1. cbn [run]. by rewrite E1.
Qed.

(** The function and the function with the threaded edge have the same outcomes. *)
Lemma threaded_ends ρ s o : nulls ρ -> ends F ρ s o <-> ends G ρ s o.
Proof.
  intros N. unfold ends. assert (Ee : getEntryBlock G = getEntryBlock F).
  { unfold getEntryBlock. by rewrite (rw_blocks _ _ _ _ _ R). }
  rewrite Ee. assert (S : sim nullptr nullptr (getEntryBlock F) ρ ρ).
  { split; [done | done | done | | by left |].
    - apply entry_block.
    - intros Hn. exfalso. by apply (ta_null _ _ _ T), (wf_heap _ (ok_wf _ _ _ O)). }
  split; intros [n E]; [by apply (run_sim n _ _ _ _ _ _ _ S) in E | by apply (run_sim_back n _ _ _ _ _ _ _ S) in E].
Qed.

End Sim.

(** ** The pass on a function *)

Section Pass.
Context (ext : ref -> Prop) (M : MIRModule) (Consts : forall v, null_const M v = true -> ext v).

(** Two functions that have the same outcomes on every machine, wherever null constants are
    null. *)
Definition same_outcomes F G : Prop :=
  forall (V St : Type) (Mach : Machine V St) (ρ : ref -> V) (s : St) o,
    nulls M ρ -> ends F ρ s o <-> ends G ρ s o.

#[export] Instance same_outcomes_equivalence : Equivalence same_outcomes.
Proof.
  split.
  - done.
  - intros F G E V St Mach ρ s o N. symmetry. by apply E.
  - intros F G K E1 E2 V St Mach ρ s o N. rewrite (E1 V St Mach ρ s o N). by apply E2.
Qed.

(** What the steps of the pass see does not depend on the recorded edges. *)
Lemma null_test_body F G b : same_body F G -> null_test M G b = null_test M F b.
Proof.
  intros S. unfold null_test. rewrite (same_body_terminator _ _ _ S), (same_body_kind _ _ _ S).
  destruct (kind_of (terminator b F) F) as [[] |]; try done. by rewrite (same_body_kind _ _ _ S), (sb_insts _ _ S).
Qed.

Lemma threads_body F G bail e : same_body F G -> threads M G bail e = threads M F bail e.
Proof.
  intros S. destruct e as [v p]. cbn [threads]. rewrite (same_body_terminator _ _ _ S), (same_body_kind _ _ _ S).
  unfold starts_with_phi. rewrite (sb_instructions _ _ S). destruct (getInstructions bail F) as [| i r]; [done |].
  by rewrite (same_body_kind _ _ _ S).
Qed.

(** The result of a step up to edges: a function that may be threaded on, with the outcomes of
    the one before. *)
Record stepped F G : Prop := {
  sp_ok : threadable ext M G;
  sp_blocks : blocks G = blocks F;
  sp_next : (next_ref F <= next_ref G)%N;
  sp_outcomes : same_outcomes F G;
}.

Lemma stepped_refl F : threadable ext M F -> stepped F F.
Proof. by split. Qed.

Lemma stepped_trans F G K : stepped F G -> stepped G K -> stepped F K.
Proof. intros [A1 A2 A3 A4] [B1 B2 B3 B4]. split; [done | congruence | lia | by etransitivity]. Qed.

(** The entry that the loop finds, and the function that threading its edge gives. *)
Lemma found_entry F b phi bail inc n v p :
  threadable ext M F -> b ∈ blocks F -> null_test M F b = Some (phi, bail) ->
  kind_of phi F = Some (PhiInst inc) -> inc !! n = Some (v, p) -> threads M F bail (v, p) = true ->
  exists H, stepped F H
    /\ (branches_only M F -> thread b phi bail n p F = Some H /\ branches_only M H)
    /\ forall X, same_body F X -> next_ref X = next_ref F ->
         match thread b phi bail n p X with
         | Some Y => same_body H Y /\ next_ref Y = next_ref H
         | None => True
         end.
Proof.
  intros T Hb NT K En Thr. destruct (ta_shape _ _ _ T b phi bail Hb NT) as (l & icmp & t & rhs & NB).
  pose proof (ta_fn _ _ _ T) as O. pose proof (ta_phis _ _ _ T) as PM.
  pose proof Thr as Thr0. cbn [threads] in Thr0. apply andb_true_iff in Thr0 as [Thr0 _].
  apply andb_true_iff in Thr0 as [Nv Nb]. apply negb_true_iff in Nb.
  pose proof (list_elem_of_lookup_2 _ _ _ En) as Hin.
  destruct (site_pred ext M F b phi bail l icmp t rhs O PM Hb NB n inc v p K En) as [Hp _].
  destruct (thread_spec ext M F b phi bail l icmp t rhs O PM Hb NB n inc v p K En Nb Thr)
    as (t' & k0 & k' & H & Th & Ex & Bd).
  exists H. split; [split |]; [| | | | split; [| done]].
  - by apply (threaded_ok ext M F T b phi bail l icmp t rhs Hb NB Nb p Hp t' k0 k').
  - apply (th_rewired _ _ _ _ _ _ _ _ _ Th).
  - destruct (th_new _ _ _ _ _ _ _ _ _ Th) as [[_ ->] | (_ & -> & _)]; lia.
  - intros V St Mach ρ s o N. apply (threaded_ends ext M F T Consts b phi bail l icmp t rhs Hb NT NB Nb p Hp inc v K
      Hin Nv t' k0 k' H Th ρ s o N).
  - intros B. split; [| by apply (threaded_branches ext M F T b phi bail l icmp t rhs Hb NB Nb p Hp t' k0 k' H Th)].
    apply Ex. pose proof (th_old _ _ _ _ _ _ _ _ _ Th) as K0.
    destruct (th_redirects _ _ _ _ _ _ _ _ _ Th) as [| c f | c t1]; [done | |];
      by apply (B b phi bail inc v p _ _ _ Hb NT K Hin Nv) in K0.
Qed.

Lemma thread_block_body F X b ch : threadable ext M F -> b ∈ blocks F -> same_body F X -> next_ref X = next_ref F ->
  match thread_block M (ch, X) b with
  | Some (_, Y) => exists G, stepped F G /\ same_body G Y /\ next_ref Y = next_ref G
  | None => True
  end.
Proof.
  intros T Hb S Nx. assert (Id : exists G, stepped F G /\ same_body G X /\ next_ref X = next_ref G)
    by (exists F; split; [by apply stepped_refl | done]).
  unfold thread_block. rewrite (null_test_body F X b S).
  destruct (null_test M F b) as [[phi bail] |] eqn:NT; [| done]. rewrite (same_body_kind _ _ _ S).
  destruct (kind_of phi F) as [[] |] eqn:K; try done.
  destruct (list_find _ incoming) as [[n [v p]] |] eqn:E; [| done].
  apply list_find_Some in E as (En & Thr & _). rewrite (threads_body F X bail _ S) in Thr.
  destruct (found_entry F b phi bail incoming n v p T Hb NT K En Thr) as (H & Sp & _ & Bd).
  specialize (Bd X S Nx). destruct (thread b phi bail n p X) as [Y |]; [| done]. cbn [mbind option_bind].
  exists H. by split.
Qed.

Lemma thread_block_ok F b ch : threadable ext M F -> branches_only M F -> b ∈ blocks F ->
  exists ch' G, thread_block M (ch, F) b = Some (ch', G) /\ stepped F G /\ branches_only M G.
Proof.
  intros T B Hb. assert (Id : exists ch' G, Some (ch, F) = Some (ch', G) /\ stepped F G /\ branches_only M G)
    by (exists ch, F; split_and!; [done | by apply stepped_refl | done]).
  unfold thread_block. destruct (null_test M F b) as [[phi bail] |] eqn:NT; [| done].
  destruct (kind_of phi F) as [[] |] eqn:K; try done.
  destruct (list_find _ incoming) as [[n [v p]] |] eqn:E; [| done].
  apply list_find_Some in E as (En & Thr & _).
  destruct (found_entry F b phi bail incoming n v p T Hb NT K En Thr) as (H & Sp & Ex & _).
  destruct (Ex B) as [-> B']. by exists true, H.
Qed.

Lemma thread_function_body F X : threadable ext M F -> same_body F X -> next_ref X = next_ref F ->
  match thread_function M X with
  | Some (_, Y) => exists G, stepped F G /\ same_body G Y /\ next_ref Y = next_ref G
  | None => True
  end.
Proof.
  intros T S Nx. unfold thread_function.
  assert (Q : forall l ch X, (forall b, b ∈ l -> b ∈ blocks F) ->
    (exists G, stepped F G /\ same_body G X /\ next_ref X = next_ref G) ->
    match fold_some (thread_block M) l (ch, X) with
    | Some (_, Y) => exists G, stepped F G /\ same_body G Y /\ next_ref Y = next_ref G
    | None => True
    end).
  { induction l as [| b l IH]; intros ch X0 Hl (G & Sp & S0 & N0); cbn [fold_some]; [by exists G |].
    pose proof (thread_block_body G X0 b ch (sp_ok _ _ Sp)) as Q.
    rewrite (sp_blocks _ _ Sp) in Q. specialize (Q (Hl b ltac:(left)) S0 N0).
    destruct (thread_block M (ch, X0) b) as [[ch' Y] |]; [| done]. cbn [mbind option_bind].
    destruct Q as (G' & Sp' & S' & N'). apply IH; [intros c Hc; apply Hl; by right |].
    exists G'. split; [by apply (stepped_trans F G) | done]. }
  apply Q; [by rewrite (sb_blocks _ _ S) |]. exists F. split; [by apply stepped_refl | done].
Qed.

Lemma thread_function_ok F : threadable ext M F -> branches_only M F ->
  exists ch G, thread_function M F = Some (ch, G) /\ stepped F G /\ branches_only M G.
Proof.
  intros T B. unfold thread_function.
  destruct (fold_some_ind (thread_block M) (fun _ st => stepped F (snd st) /\ branches_only M (snd st))
    (blocks F) (false, F)) as ([ch G] & E & I); [split; [by apply stepped_refl | done] | |].
  - intros pre b post [ch G] El [Sp BG]. cbn [snd] in *.
    destruct (thread_block_ok G b ch (sp_ok _ _ Sp) BG) as (ch' & G' & -> & Sp' & B').
    { rewrite (sp_blocks _ _ Sp), El. apply elem_of_app. right. left. }
    exists (ch', G'). cbn [snd]. split_and!; [done | by apply (stepped_trans F G) | done].
  - by exists ch, G.
Qed.

End Pass.
