(* ===== verification/JumpThreadingClaims.v ===== *)
(** * Jump threading: what the pass promises

    On modules whose tests have the shape that the pass expects, a run of the pass ends, keeps
    that shape and leaves every function with the outcomes it had; functions of another shape
    on which it goes wrong. *)

From S2P Require Import Prelude Diag HIRType MIR MIRFacts SimplifyCFG SimplifyCFGProps BypassProps MIRModule MIRUses ConstFoldModule DCEModule Semantics JumpThreading JumpThreadingProps JumpThreadingSafe JumpThreadingSim.

Implicit Types (F G : MIRFunction) (M : MIRModule) (b c f g i j p v x : ref) (k : InstKind).

(** ** The counter of the module *)

Lemma leading_phis_next n F (l : list ref) : leading_phis l (with_next n F) = leading_phis l F.
Proof. by apply leading_phis_ext. Qed.

Lemma same_body_next n F : same_body F (with_next n F).
Proof. by split. Qed.

Section Module_.
Context (other : ref -> Prop).

(** Every function may be threaded, up to its recorded edges; when [exact] the edges are right
    and the predecessors that are threaded end in branches. *)
Record jump_module (exact : bool) M : Prop := {
  jm_fns : forall f func, fns M !! f = Some func ->
    exists F, threadable (outside other M) M F /\ next_ref F = m_next M /\ same_body F (fn_body func)
      /\ (exact = true -> F = with_next (m_next M) (fn_body func) /\ branches_only M F);
  jm_cache : functionsDirty M = false -> functionCache M = functions M;
}.

Lemma null_test_consts M M' F b : consts M' = consts M -> null_test M' F b = null_test M F b.
Proof. intros E. unfold null_test, null_const, const_of. by rewrite E. Qed.

Lemma threadable_next M M' n F :
  consts M' = consts M -> globs M' = globs M -> (next_ref F <= n)%N ->
  threadable (outside other M) M F -> threadable (outside other M') M' (with_next n F).
Proof.
  intros E1 E2 L [A1 A2 A3 A4 A5 A6].
  assert (Out : forall v, outside other M' v <-> outside other M v) by (intros v; unfold outside; by rewrite E1, E2).
  split.
  - assert (Q : fn_ok (outside other M') n F).
    { apply (fn_ok_extend (outside other M) _ (next_ref F)); [done | intros v; apply Out | | done].
      intros v Hv. apply Out in Hv. split; [by left |]. pose proof (ok_ext_fresh _ _ _ A1 v Hv). lia. }
    destruct Q as [[? ? ?] [? ?] ? ? ? ? ? ? ? ? ? ? ? ? ? ?]. split; try done; by split.
  - done.
  - intros b i inc Hb Hi. rewrite leading_phis_next in Hi. by apply A3.
  - done.
  - intros b phi bail Hb E. rewrite (null_test_consts M) in E by done.
    destruct (A5 b phi bail Hb E) as (l & icmp & t & rhs & [B1 B2 B3 B4 B5 B6]). exists l, icmp, t, rhs.
    split; try done; [by rewrite leading_phis_next |]. unfold null_const, const_of in *. by rewrite E1.
  - intros b phi bail Hb E. rewrite (null_test_consts M) in E by done. intros d i k v Hd Hi K Hv Q.
    rewrite leading_phis_next. by apply (A6 b phi bail Hb E d i k v).
Qed.

Lemma null_outside M v : null_const M v = true -> outside other M v.
Proof. unfold null_const, const_of. left. destruct (consts M !! v); [by eexists | done]. Qed.

Lemma branches_only_consts M M' n F : consts M' = consts M -> branches_only M F -> branches_only M' (with_next n F).
Proof.
  intros E B b phi bail inc v p c t f Hb Nt K Hin Hv. rewrite (null_test_consts M) in Nt by done.
  unfold null_const, const_of in Hv. rewrite E in Hv. by apply (B b phi bail inc v p c t f).
Qed.

Lemma with_next_id F : with_next (next_ref F) F = F.
Proof. by destruct F. Qed.

(** What a run changes: the bodies of functions and the counter. *)
Record jumped (exact : bool) M M' : Prop := {
  ju_ok : jump_module exact M';
  ju_functions : functions M' = functions M;
  ju_consts : consts M' = consts M;
  ju_globs : globs M' = globs M;
  ju_outcomes : forall f, same_outcomes M (body f M) (body f M');
}.

Lemma jumped_refl exact M : jump_module exact M -> jumped exact M M.
Proof. by split. Qed.

Lemma nulls_consts M M' {V St : Type} `{Machine V St} (ρ : ref -> V) :
  consts M' = consts M -> nulls M ρ -> nulls M' ρ.
Proof. intros E N v. unfold null_const, const_of. rewrite E. apply N. Qed.

Lemma jumped_trans exact M1 M2 M3 : jumped exact M1 M2 -> jumped exact M2 M3 -> jumped exact M1 M3.
Proof.
  intros [A1 A2 A3 A4 A5] [B1 B2 B3 B4 B5]. split; [done | congruence | congruence | congruence |].
  intros f V St Mach ρ s o N. rewrite (A5 f V St Mach ρ s o N). apply B5. by apply (nulls_consts M1).
Qed.

Lemma jumped_body exact M f func F G Y :
  jump_module exact M -> fns M !! f = Some func -> next_ref F = m_next M -> same_body F (fn_body func) ->
  stepped (outside other M) M F G -> same_body G Y -> next_ref Y = next_ref G ->
  (exact = true -> G = Y /\ branches_only M G) ->
  jumped exact M (set_body f Y (set_next (next_ref Y) M)).
Proof.
  intros JM Ef NF SF [G1 G2 G3 G4] SY NY Ex. set (M1 := set_next (next_ref Y) M).
  assert (EB : body f M = fn_body func) by (unfold body; by rewrite Ef).
  split; [| done | done | done |].
  - split; [| by apply JM]. intros g gunc E. unfold set_body, set_fns in E. cbn [fns] in E.
    destruct (decide (g = f)) as [-> | N].
    + rewrite lookup_alter_eq in E. apply fmap_Some in E as (func0 & _ & ->). cbn [fn_body].
      exists G. change (m_next (set_body f Y M1)) with (next_ref Y). split_and!; [| done | done |].
      * rewrite <- (with_next_id G). by apply (threadable_next M).
      * intros Q. destruct (Ex Q) as [-> B]. rewrite with_next_id. split; [done |].
        rewrite <- (with_next_id Y). by apply (branches_only_consts M).
    + rewrite lookup_alter_ne in E by done. destruct (jm_fns _ _ JM g gunc E) as (K & T & NK & SK & ExK).
      exists (with_next (next_ref Y) K). split_and!; [| done | | ].
      * apply (threadable_next M); [done | done | | done]. rewrite NK. lia.
      * rewrite <- SK. symmetry. apply same_body_next.
      * intros Q. destruct (ExK Q) as [-> B]. split; [done |]. by apply (branches_only_consts M).
  - intros g V St Mach ρ s o N. rewrite body_set_body by (by eexists).
    case_decide as Dg; [subst g |].
    + by rewrite EB, (ends_body _ _ ρ s o SF), (ends_body _ _ ρ s o SY), (G4 V St Mach ρ s o N).
    + unfold body, M1. cbn [fns set_next m_next]. destruct (fns M !! g); [done |].
      apply (ends_body {| insts := ∅; bbs := ∅; blocks := []; next_ref := next_ref Y |}). by split.
Qed.

Lemma run_function_ok exact M f ch : jump_module exact M ->
  match runOnFunction (ch, M) f with
  | Some (_, M') => jumped exact M M'
  | None => exact = false
  end.
Proof.
  intros JM. unfold runOnFunction. destruct (isDeclaration (body f M)) eqn:Dc; [by apply jumped_refl |].
  destruct (fns M !! f) as [func |] eqn:Ef; [| unfold body in Dc; by rewrite Ef in Dc].
  assert (EB : body f M = fn_body func) by (unfold body; by rewrite Ef). rewrite EB.
  destruct (jm_fns _ _ JM f func Ef) as (F & T & NF & SF & Ex).
  assert (SX : same_body F (with_next (m_next M) (fn_body func))) by (rewrite SF; apply same_body_next).
  destruct exact.
  - destruct (Ex eq_refl) as [EF B]. rewrite <- EF.
    destruct (thread_function_ok (outside other M) M (null_outside M) F T B) as (c & G & -> & Sp & B').
    cbn [mbind option_bind]. by apply (jumped_body true M f func F G G).
  - pose proof (thread_function_body (outside other M) M (null_outside M) F _ T SX (eq_sym NF)) as Q.
    destruct (thread_function M (with_next (m_next M) (fn_body func))) as [[c Y] |]; [| done].
    cbn [mbind option_bind]. destruct Q as (G & Sp & SY & NY). by apply (jumped_body false M f func F G Y).
Qed.

Lemma run_functions_ok exact l : forall M ch, jump_module exact M ->
  match fold_some runOnFunction l (ch, M) with
  | Some (_, M') => jumped exact M M'
  | None => exact = false
  end.
Proof.
  induction l as [| f l IH]; intros M ch JM; cbn [fold_some]; [by apply jumped_refl |].
  pose proof (run_function_ok exact M f ch JM) as Q.
  destruct (runOnFunction (ch, M) f) as [[ch1 M1] |]; [| done]. cbn [mbind option_bind].
  pose proof (IH M1 ch1 (ju_ok _ _ _ Q)) as Q1.
  destruct (fold_some runOnFunction l (ch1, M1)) as [[ch2 M2] |]; [| done]. by apply (jumped_trans exact M M1).
Qed.

Lemma run_jumped exact M : jump_module exact M ->
  match runOnModule M with
  | Some (_, M') => jumped exact M M'
  | None => exact = false
  end.
Proof.
  intros JM. unfold runOnModule.
  assert (J0 : exists M0, getFunctions M = (functions M, M0) /\ jumped exact M M0).
  { unfold getFunctions. destruct (functionsDirty M) eqn:Dr; eexists.
    - split; [done |]. split; [split; [| done] | done | done | done | done].
      intros f func E. destruct (jm_fns _ _ JM f func E) as (F & T & NF & SF & Ex).
      exists F. split_and!; [| done | done |].
      + rewrite <- (with_next_id F). by apply (threadable_next M).
      + intros Q. destruct (Ex Q) as [EF B]. split; [exact EF |].
        rewrite <- (with_next_id F). by apply (branches_only_consts M).
    - split; [by rewrite (jm_cache _ _ JM Dr) | by apply jumped_refl]. }
  destruct J0 as (M0 & -> & J0).
  pose proof (run_functions_ok exact (functions M) M0 false (ju_ok _ _ _ J0)) as Q.
  destruct (fold_some runOnFunction (functions M) (false, M0)) as [[ch M'] |]; [| done].
  by apply (jumped_trans exact M M0).
Qed.

(** C5: jump threading keeps the outcomes of programs.  When the blocks that test one of their
    phis consist of phis, the comparison and the branch, and nothing else uses their values,
    then, whatever edges are recorded, a run of the pass either reads past the end of a vector
    or leaves every function with exactly the outcomes it had: on every machine, from every
    environment in which null constants are null.  When moreover the recorded edges are right
    and the predecessors for which a tested phi is null end in branches, it does end, and the
    edges are right again. *)
Theorem jump_threading_correct exact M :
  jump_module exact M ->
  match runOnModule M with
  | Some (_, M') => jump_module exact M' /\ functions M' = functions M
      /\ forall f, same_outcomes M (body f M) (body f M')
  | None => exact = false
  end.
Proof.
  intros JM. pose proof (run_jumped exact M JM) as J. destruct (runOnModule M) as [[ch M'] |]; [| done].
  by destruct J.
Qed.

End Module_.

(** ** Deciding the hypotheses on a concrete module *)

Definition phis_match_b F : bool :=
  forallb (fun b => forallb (fun i =>
    match kind_of i F with
    | Some (PhiInst inc) =>
        bool_decide (NoDup (map snd inc)) && subset_b (map snd inc) (getPredecessors b F)
        && subset_b (getPredecessors b F) (map snd inc)
    | _ => true
    end) (leading_phis (getInstructions b F) F)) (blocks F).

Lemma phis_match_b_spec F : phis_match_b F = true -> phis_match F.
Proof.
  intros Q b i inc Hb Hi K. apply (forallb_elem _ _ Q) in Hb. apply (forallb_elem _ _ Hb) in Hi.
  rewrite K, !andb_true_iff, bool_decide_eq_true in Hi. destruct Hi as [[N S1] S2].
  split; [done |]. intros p. split; by apply subset_b_spec.
Qed.

Definition shape_b M F b : bool :=
  match null_test M F b with
  | None => true
  | Some (phi, bail) =>
      let l := leading_phis (getInstructions b F) F in
      match drop (length l) (getInstructions b F) with
      | [icmp; t] =>
          bool_decide (getInstructions b F = l ++ [icmp; terminator b F]) && bool_decide (last l = Some phi)
          && match kind_of icmp F, kind_of (terminator b F) F with
             | Some (CompareInst CmpPredicate.NE lhs rhs), Some (CondBranchInst cond _ f) =>
                 N.eqb lhs phi && null_const M rhs && N.eqb cond icmp && N.eqb f bail
             | _, _ => false
             end
          && placed_b F (fun d i k => forallb (fun v =>
               negb (bool_decide (v ∈ getInstructions b F)) || (N.eqb d b && negb (bool_decide (i ∈ l)))) (value_ops k))
      | _ => false
      end
  end.

Lemma shape_b_spec M F b phi bail : shape_b M F b = true -> null_test M F b = Some (phi, bail) ->
  (exists l icmp t rhs, null_block M F b phi bail l icmp t rhs) /\ private F b.
Proof.
  unfold shape_b. intros Q E. rewrite E in Q. set (l := leading_phis (getInstructions b F) F) in *.
  destruct (drop (length l) (getInstructions b F)) as [| icmp [| t []]]; try done.
  rewrite !andb_true_iff, !bool_decide_eq_true in Q. destruct Q as [[[Q1 Q2] Q3] Q4]. split.
  - destruct (kind_of icmp F) as [[] |] eqn:K1; try done. destruct pred; try done.
    destruct (kind_of (terminator b F) F) as [[] |] eqn:K2; try done.
    rewrite !andb_true_iff, !N.eqb_eq in Q3. destruct Q3 as [[[-> Q5] ->] ->].
    by exists l, icmp, trueBlock, rhs.
  - intros d i k v Hd Hi K Hv Hb. pose proof (placed_b_spec _ _ Q4 d i k Hd Hi K) as Q.
    apply (forallb_elem _ _ Q) in Hv.
    rewrite orb_true_iff, andb_true_iff, !negb_true_iff, !bool_decide_eq_false, N.eqb_eq in Hv.
    destruct Hv as [? | [-> ?]]; done.
Qed.

Definition threadable_b (ext : list ref) M F : bool :=
  fn_ok_b ext (next_ref F) F && negb (bool_decide (is_Some (bbs F !! nullptr))) && phis_match_b F
  && placed_b F (fun _ _ k => match k with
                              | CondBranchInst c _ _ => negb (bool_decide (is_Some (bbs F !! c)))
                              | _ => true
                              end)
  && forallb (shape_b M F) (blocks F).

Lemma threadable_b_spec (ext : ref -> Prop) (l : list ref) M F :
  (forall v, ext v <-> v ∈ l) -> threadable_b l M F = true -> threadable ext M F.
Proof.
  intros E Q. unfold threadable_b in Q. rewrite !andb_true_iff, negb_true_iff, bool_decide_eq_false in Q.
  destruct Q as [[[[Q1 Q2] Q3] Q4] Q5]. split.
  - by apply (fn_ok_b_spec ext l).
  - done.
  - by apply phis_match_b_spec.
  - intros b i c t f Hb Hi K. pose proof (placed_b_spec _ _ Q4 b i _ Hb Hi K) as Q. cbn in Q.
    by rewrite negb_true_iff, bool_decide_eq_false in Q.
  - intros b phi bail Hb Nt. apply (shape_b_spec M F b phi bail); [by apply (forallb_elem _ _ Q5) | done].
  - intros b phi bail Hb Nt. apply (shape_b_spec M F b phi bail); [by apply (forallb_elem _ _ Q5) | done].
Qed.

Definition branches_only_b M F : bool :=
  forallb (fun b =>
    match null_test M F b with
    | Some (phi, _) =>
        match kind_of phi F with
        | Some (PhiInst inc) =>
            forallb (fun '(v, p) => negb (null_const M v)
              || match kind_of (terminator p F) F with Some (CondBranchInst _ _ _) => false | _ => true end) inc
        | _ => true
        end
    | None => true
    end) (blocks F).

Lemma branches_only_b_spec M F : branches_only_b M F = true -> branches_only M F.
Proof.
  intros Q b phi bail inc v p c t f Hb E K Hin Hv Kt. apply (forallb_elem _ _ Q) in Hb. rewrite E, K in Hb.
  apply (forallb_elem _ _ Hb) in Hin. by rewrite Hv, Kt in Hin.
Qed.

(** ** At concrete modules *)

(** [p = c ? null : q; if (p != null) return 1; else return 0;], with the instructions
    [extra] at the end of the phis of the block that tests. *)
Definition choice (phis extra : list (ref * InstKind)) (result : ref) : MIRFunction :=
  {| insts := list_to_map ([(11%N, typed 0 (CondBranchInst 90 2 3)); (12%N, typed 0 (BranchInst 4));
                            (13%N, typed 0 (BranchInst 4))]
       ++ map (fun '(i, k) => (i, setParent 4 (typed 5 k))) (phis ++ extra)
       ++ [(18%N, typed 3 (CompareInst CmpPredicate.NE 14 50)); (19%N, typed 0 (CondBranchInst 18 5 6));
           (20%N, typed 0 (ReturnInst 51)); (21%N, typed 0 (ReturnInst result))]);
     bbs := list_to_map [(1%N, block_of [11%N]); (2%N, block_of [12%N]); (3%N, block_of [13%N]);
                         (4%N, block_of (map fst (phis ++ extra) ++ [18%N; 19%N]));
                         (5%N, block_of [20%N]); (6%N, block_of [21%N])];
     blocks := [1%N; 2%N; 3%N; 4%N; 5%N; 6%N]; next_ref := 300%N |}.

Definition choice_module (phis extra : list (ref * InstKind)) (result : ref) : MIRModule :=
  module_of (choice phis extra result) []
    [(50%N, {| c_kind := ConstantNull; c_type := 5%N |}); (51%N, const_int 1 2); (52%N, const_int 0 2)].

Definition one_phi : list (ref * InstKind) := [(14%N, PhiInst [(50%N, 2%N); (91%N, 3%N)])].

(** The condition and [q] are arguments. *)
Definition arguments v : Prop := v = 90%N \/ v = 91%N.

Lemma choice_ok : jump_module arguments true (choice_module one_phi [] 52).
Proof.
  set (M := choice_module one_phi [] 52).
  assert (Out : forall v, outside arguments M v <-> v ∈ [50%N; 51%N; 52%N; 90%N; 91%N]).
  { intros v. unfold outside, arguments. change (globs M) with (∅ : gmap ref MIRGlobal).
    rewrite lookup_empty. unfold M at 1, choice_module, module_of, set_consts. cbn [consts].
    rewrite is_Some_list_to_map. cbn [fmap list_fmap fst]. rewrite !elem_of_cons, elem_of_nil.
    split; [intros [? | [[? ?] | ?]]; tauto || done | tauto]. }
  split; [| done]. intros f func E.
  assert (Fn : func = {| fn_name := "f"; fn_body := body 200 M |}).
  { assert (S : is_Some (fns M !! f)) by (rewrite E; by eexists).
    apply module_of_fns in S as ->. apply (inj Some). rewrite <- E. by vm_compute. }
  rewrite Fn. exists (with_next (m_next M) (body 200 M)). split_and!.
  - apply (threadable_b_spec _ _ _ _ Out). by vm_compute.
  - done.
  - symmetry. apply same_body_next.
  - intros _. split; [done |]. apply branches_only_b_spec. by vm_compute.
Qed.

(** The branch of the block for null goes past the test. *)
Lemma jump_threading_correct_witness :
  exists M', runOnModule (choice_module one_phi [] 52) = Some (true, M')
    /\ term_targets 2 (body 200 (choice_module one_phi [] 52)) = [4%N]
    /\ term_targets 2 (body 200 M') = [6%N]
    /\ same_outcomes (choice_module one_phi [] 52) (body 200 (choice_module one_phi [] 52)) (body 200 M').
Proof.
  pose proof (jump_threading_correct arguments true (choice_module one_phi [] 52) choice_ok) as T.
  assert (Q : ('(ch, M) ← runOnModule (choice_module one_phi [] 52);
    Some (ch, term_targets 2 (body 200 M))) = Some (true, [6%N])) by by vm_compute.
  destruct (runOnModule (choice_module one_phi [] 52)) as [[ch M'] |]; [| discriminate T].
  destruct T as (_ & _ & S). cbn [mbind option_bind] in Q. apply (inj Some) in Q.
  pose proof (f_equal fst Q) as Q1. pose proof (f_equal snd Q) as Q2. cbn [fst snd] in Q1, Q2.
  subst ch. exists M'. split; [reflexivity |]. split; [by vm_compute |]. split; [exact Q2 | apply S].
Defined.

(** ** Functions of another shape *)

(** With a second phi the pass removes the wrong entries.  The loop names the predecessor
    by a reference to the element of the incoming vector of the tested phi; once that phi has
    lost its entry the reference names the block of the next element, whose entry the second
    phi loses instead, or nothing at all when there is no next element. *)
Theorem second_phi_wrong_entry b phi psi n F v p inc inc' :
  leading_phis (getInstructions b F) F = [phi; psi] -> phi <> psi ->
  kind_of phi F = Some (PhiInst inc) -> kind_of psi F = Some (PhiInst inc') -> inc !! n = Some (v, p) ->
  match removeIncoming p inc !! n with
  | Some (_, q) => exists G, remove_entries b phi n F = Some G
      /\ kind_of phi G = Some (PhiInst (removeIncoming p inc))
      /\ kind_of psi G = Some (PhiInst (removeIncoming q inc'))
  | None => remove_entries b phi n F = None
  end.
Proof.
  intros L N K K' E. unfold remove_entries. rewrite L. cbn [fold_some].
  rewrite (remove_from_entry phi n F phi inc v p K E). cbn [mbind option_bind].
  set (F1 := upd_inst phi (without p) F).
  assert (K1 : forall i, kind_of i F1 = if decide (i = phi) then without_entry p <$> kind_of i F else kind_of i F).
  { intros i. unfold F1. rewrite kind_of_upd_inst. case_decide; [| done]. subst i. unfold kind_of.
    destruct (insts F !! phi) as [J |]; [| done]. cbn. by destruct (i_kind J) eqn:Q; rewrite ?Q. }
  assert (Kphi : kind_of phi F1 = Some (PhiInst (removeIncoming p inc))) by (by rewrite K1, decide_True, K).
  destruct (removeIncoming p inc !! n) as [[w q] |] eqn:E1.
  - rewrite (remove_from_entry phi n F1 psi _ w q Kphi E1). cbn [mbind option_bind].
    eexists. split; [done |]. rewrite !kind_of_upd_inst, decide_False, decide_True by done. split; [done |].
    assert (Kpsi : kind_of psi F1 = Some (PhiInst inc')) by (by rewrite K1, decide_False).
    unfold kind_of in Kpsi. destruct (insts F1 !! psi) as [J |]; [| done]. cbn in Kpsi |- *. injection Kpsi as Kpsi.
    by rewrite Kpsi.
  - unfold remove_from, predBlock. by rewrite Kphi, E1.
Qed.

Definition two_phis : list (ref * InstKind) :=
  [(14%N, PhiInst [(50%N, 2%N); (91%N, 3%N)]); (15%N, PhiInst [(51%N, 2%N); (52%N, 3%N)])].

Definition two_phis_body : MIRFunction := body 200 (choice_module two_phis [] 52).

(** The phi that follows keeps its entry for the block that is no predecessor any more. *)
Lemma second_phi_wrong_entry_witness :
  exists G, remove_entries 4 14 0 two_phis_body = Some G
    /\ kind_of 15 G = Some (PhiInst [(51%N, 2%N)]).
Proof.
  pose proof (second_phi_wrong_entry 4 14 15 0 two_phis_body 50 2 [(50%N, 2%N); (91%N, 3%N)]
    [(51%N, 2%N); (52%N, 3%N)]) as Q.
  destruct Q as (G & E & _ & K); [by vm_compute | done | by vm_compute | by vm_compute | done |].
  exists G. split; [exact E | exact K].
Defined.

(** The whole pass leaves the phi so, and a phi whose tested entry is its last one makes it
    read past the end of the vector. *)
Example second_phi_after_pass :
  ('(ch, M) ← runOnModule (choice_module two_phis [] 52);
   Some (ch, kind_of 15 (body 200 M), getPredecessors 4 (body 200 M)))
  = Some (true, Some (PhiInst [(51%N, 2%N)]), [3%N]).
Proof. by vm_compute. Qed.

Example last_entry_undefined :
  runOnModule (choice_module [(14%N, PhiInst [(91%N, 3%N); (50%N, 2%N)]);
                              (15%N, PhiInst [(52%N, 3%N); (51%N, 2%N)])] [] 52) = None.
Proof. by vm_compute. Qed.

Lemma ne_same (a : N) : negb (N.eqb (if N.eqb a a then 0%N else 1%N) 0) = false.
Proof. by rewrite N.eqb_refl. Qed.

(** C39: threading a conditional branch records the wrong edge.  After the phi has lost the entry
    of the predecessor, the code asks by the same reference whether the target has that
    predecessor: it names the block of the next entry, which becomes a predecessor of the
    target, while the one that now branches there does not; or there is no next entry, and the
    read is undefined. *)
Theorem cond_threading_wrong_edge b phi l n p bail c t f F v inc :
  leading_phis (getInstructions b F) F = l -> last l = Some phi -> NoDup (getInstructions b F) ->
  kind_of phi F = Some (PhiInst inc) -> inc !! n = Some (v, p) ->
  kind_of (terminator p F) F = Some (CondBranchInst c t f) -> t <> f -> (t = b \/ f = b) ->
  bail <> b -> has_block bail F ->
  match thread_cond b phi n p bail c t f F with
  | Some G => exists w q, removeIncoming p inc !! n = Some (w, q) /\ q <> p /\ q ∈ getPredecessors bail G
      /\ (p ∈ getPredecessors bail G <-> p ∈ getPredecessors bail F)
  | None => removeIncoming p inc !! n = None
  end.
Proof.
  intros L La N K E Kt Ntf Tb Nb Hbail. unfold thread_cond.
  assert (Rd : exists t' f', redirect_cond b bail t f = (t', f') /\ t' <> b /\ f' <> b).
  { unfold redirect_cond. destruct (N.eqb_spec t b) as [-> | Nt]; [by exists bail, f |].
    destruct Tb as [? | ->]; [done |]. rewrite N.eqb_refl. by exists t, bail. }
  destruct Rd as (t' & f' & -> & Nt' & Nf').
  rewrite (proj2 (N.eqb_neq _ _) Nt'), (proj2 (N.eqb_neq _ _) Nf'). cbn [orb].
  set (F1 := upd_inst (terminator p F) (with_kind (CondBranchInst c t' f')) F).
  set (F3 := addSuccessor p t' (upd_block p (with_successors []) F1)).
  set (F5 := removePredecessor b p (if N.eqb t' f' then F3 else addSuccessor p f' F3)).
  assert (S : same_body F1 F5).
  { transitivity F3; [transitivity (upd_block p (with_successors []) F1); by apply same_body_edges |].
    transitivity (if N.eqb t' f' then F3 else addSuccessor p f' F3); [| by apply same_body_edges].
    destruct (N.eqb t' f'); [done | by apply same_body_edges]. }
  assert (K1 : forall i, kind_of i F1 = if decide (i = terminator p F) then Some (CondBranchInst c t' f') else kind_of i F).
  { intros i. unfold F1. rewrite kind_of_upd_inst. case_decide; [| done]. subst i. unfold kind_of in Kt.
    by destruct (insts F !! terminator p F). }
  assert (Nphi : phi <> terminator p F) by (intros Q; by rewrite Q, Kt in K).
  assert (K5 : kind_of phi F5 = Some (PhiInst inc)) by (by rewrite (same_body_kind _ _ _ S), K1, decide_False).
  assert (L5 : leading_phis (getInstructions b F5) F5 = l).
  { rewrite (sb_instructions _ _ S), (same_body_leading _ _ _ S). rewrite <- L. apply leading_phis_ext.
    intros i. unfold is_phi. rewrite K1. case_decide as D; [by rewrite D, Kt | done]. }
  assert (Np : phi ∈ l) by (apply last_Some in La as [l' ->]; apply elem_of_app; right; left).
  assert (Nl : NoDup l).
  { rewrite <- L. clear -N. induction (getInstructions b F) as [| j r IH]; [apply NoDup_nil_2 |].
    apply NoDup_cons in N as [N1 N2]. cbn [leading_phis].
    destruct (kind_of j F) as [[] |]; try apply NoDup_nil_2. apply NoDup_cons. split; [| by apply IH].
    intros Q. by apply N1, (leading_phis_sub r F j). }
  rewrite (remove_entries_last b phi n F5 l inc v p L5 La Nl K5 E). cbn [mbind option_bind].
  set (F6 := upd_phis b (removeIncoming p) F5).
  assert (K6 : kind_of phi F6 = Some (PhiInst (removeIncoming p inc))).
  { unfold F6. rewrite kind_of_removed by by rewrite (sb_instructions _ _ S).
    by rewrite L5, decide_True, K5. }
  unfold predBlock. rewrite K6. destruct (removeIncoming p inc !! n) as [[w q] |] eqn:E6; [| done].
  cbn [fmap option_fmap option_map mbind option_bind snd]. exists w, q.
  assert (P6 : forall x, x ∈ getPredecessors bail F6 <-> x ∈ getPredecessors bail F).
  { intros x. unfold F6. rewrite (proj2 (same_edges_upd_phis b (removeIncoming p) F5 bail)). unfold F5.
    rewrite getPredecessors_removePredecessor, decide_False by done.
    assert (P3 : getPredecessors bail F3 = getPredecessors bail F).
    { unfold F3. by rewrite getPredecessors_addSuccessor, getPredecessors_upd. }
    destruct (N.eqb t' f'); rewrite ?getPredecessors_addSuccessor; by rewrite P3. }
  assert (Nq : q <> p).
  { apply list_elem_of_lookup_2, list_elem_of_filter in E6 as [Q _]. exact Q. }
  assert (H6 : has_block bail F6).
  { unfold F6. apply (sc_has _ _ (same_code_upd_phis b (removeIncoming p) F5)). by apply (sb_has _ _ S). }
  case_bool_decide as D.
  - by split_and!.
  - rewrite !elem_of_addPredecessor, !P6. split_and!; [done | done | by right | intuition congruence].
Qed.

(** The predecessor for null goes on to the test by a conditional branch. *)
Definition direct (phi : list (ref * ref)) : MIRModule :=
  module_of
    {| insts := list_to_map [(11%N, typed 0 (CondBranchInst 90 4 3)); (13%N, typed 0 (BranchInst 4));
                             (14%N, setParent 4 (typed 5 (PhiInst phi)));
                             (18%N, typed 3 (CompareInst CmpPredicate.NE 14 50));
                             (19%N, typed 0 (CondBranchInst 18 5 6));
                             (20%N, typed 0 (ReturnInst 51)); (21%N, typed 0 (ReturnInst 52))];
       bbs := list_to_map [(1%N, block_of [11%N]); (3%N, block_of [13%N]);
                           (4%N, block_of [14%N; 18%N; 19%N]); (5%N, block_of [20%N]); (6%N, block_of [21%N])];
       blocks := [1%N; 3%N; 4%N; 5%N; 6%N]; next_ref := 300%N |} []
    [(50%N, {| c_kind := ConstantNull; c_type := 5%N |}); (51%N, const_int 1 2); (52%N, const_int 0 2)].

Lemma cond_threading_wrong_edge_witness :
  exists G, thread_cond 4 14 0 1 6 90 4 3 (body 200 (direct [(50%N, 1%N); (91%N, 3%N)])) = Some G
    /\ 3%N ∈ getPredecessors 6 G /\ (1%N ∉ getPredecessors 6 G).
Proof.
  pose proof (cond_threading_wrong_edge 4 14 [14%N] 0 1 6 90 4 3 (body 200 (direct [(50%N, 1%N); (91%N, 3%N)]))
    50 [(50%N, 1%N); (91%N, 3%N)]) as Q.
  destruct (thread_cond 4 14 0 1 6 90 4 3 (body 200 (direct [(50%N, 1%N); (91%N, 3%N)]))) as [G |] eqn:E.
  - exists G. split; [reflexivity |]. destruct Q as (w & q & Q1 & _ & Q2 & Q3).
    + by vm_compute.
    + done.
    + apply (bool_decide_eq_true (NoDup _)). by vm_compute.
    + by vm_compute.
    + done.
    + by vm_compute.
    + done.
    + by left.
    + done.
    + by eexists.
    + vm_compute in Q1. injection Q1 as <- <-. split; [exact Q2 |]. intros Q4. apply Q3 in Q4.
      assert (P : getPredecessors 6 (body 200 (direct [(50%N, 1%N); (91%N, 3%N)])) = [4%N]) by by vm_compute.
      rewrite P, list_elem_of_singleton in Q4. discriminate Q4.
  - exfalso. assert (Z : (match thread_cond 4 14 0 1 6 90 4 3 (body 200 (direct [(50%N, 1%N); (91%N, 3%N)])) with
      Some _ => true | None => false end) = true) by by vm_compute.
    rewrite E in Z. discriminate Z.
Defined.

Example direct_last_undefined : runOnModule (direct [(91%N, 3%N); (50%N, 1%N)]) = None.
Proof. by vm_compute. Qed.

(** A machine of numbers: null is 0, and its state counts the stores. *)
#[export] Instance counter : Machine N nat :=
  {| m_null := 0%N;
     m_truth v := negb (N.eqb v 0);
     m_compare pred x y :=
       match pred with
       | CmpPredicate.NE => if N.eqb x y then 0%N else 1%N
       | _ => 0%N
       end;
     m_exec k _ s := match k with StoreInst _ _ _ _ => Value 0%N (S s) | _ => Value 0%N s end;
     m_compare_same := ne_same |}.

(** The condition is true and [p] is 7 before the run. *)
Definition start (v : ref) : N := if N.eqb v 90 then 1 else if N.eqb v 14 then 7 else 0.

Definition after_pass M : MIRFunction :=
  match runOnModule M with Some (_, M') => body 200 M' | None => body 200 M end.

Lemma ends_run fuel F (ρ : ref -> N) (s : nat) o : run fuel F nullptr (getEntryBlock F) ρ s = Some o -> ends F ρ s o.
Proof. by exists fuel. Qed.

(** The shape is needed.  The pass does not ask what else the skipped block does: with a
    store between the phi and the comparison the store is lost on the path that is threaded,
    and a return of the phi behind the test returns what the phi held before. *)
Theorem threading_changes_outcomes :
  let stores := choice_module one_phi [(16%N, StoreInst 51 91 0 false)] 52 in
  let returns := choice_module one_phi [] 14 in
  ends (body 200 stores) start 0 (Returned (Some 0%N) 1)
  /\ ends (after_pass stores) start 0 (Returned (Some 0%N) 0)
  /\ ends (body 200 returns) start 0 (Returned (Some 0%N) 0)
  /\ ends (after_pass returns) start 0 (Returned (Some 7%N) 0).
Proof. intros stores returns. split_and!; apply (ends_run 10); by vm_compute. Qed.
