(* ===== verification/DefUse.v ===== *)
(** * Def-use maps

    The table from values to the instructions that use them that [SROAPass.cpp] and
    [EscapeAnalysisPass.cpp] build, each from the operands that it records. *)

From S2P Require Import Prelude MIR MIRFacts MIRUses.

Implicit Types (F : MIRFunction) (b i u v : ref) (k : InstKind).

(** [std::unordered_map<MIRValue *, std::vector<MIRInst *>>]; a missing value has no users. *)
Abbreviation DefUse := (gmap ref (list ref)).

Definition users v (U : DefUse) : list ref := default [] (U !! v).

(** [uses[v].push_back(inst)]. *)
Definition record_use (inst : ref) (U : DefUse) v : DefUse := <[v := users v U ++ [inst]]> U.

Section DefUse.
Context (recorded : InstKind -> list ref).

Definition record_uses F (U : DefUse) (inst : ref) : DefUse :=
  match kind_of inst F with
  | Some k => fold_left (record_use inst) (recorded k) U
  | None => U
  end.

(** The loop over the instructions of all blocks. *)
Definition build_def_use F : DefUse :=
  fold_left (fun U b => fold_left (record_uses F) (getInstructions b F) U) (blocks F) ∅.

Lemma elem_of_record_use inst U v w u :
  u ∈ users w (record_use inst U v) <-> u ∈ users w U \/ (w = v /\ u = inst).
Proof.
  unfold record_use. unfold users at 1. destruct (decide (w = v)) as [-> | N].
  - rewrite lookup_insert_eq. cbn [default from_option id]. rewrite elem_of_app, list_elem_of_singleton. tauto.
  - rewrite lookup_insert_ne by done. fold (users w U). tauto.
Qed.

Lemma elem_of_record_uses F inst U w u :
  u ∈ users w (record_uses F U inst) <->
  u ∈ users w U \/ (u = inst /\ exists k, kind_of inst F = Some k /\ w ∈ recorded k).
Proof.
  unfold record_uses. destruct (kind_of inst F) as [k |] eqn:K.
  - assert (E : forall l U, u ∈ users w (fold_left (record_use inst) l U) <-> u ∈ users w U \/ (u = inst /\ w ∈ l)).
    { induction l as [| v l IH]; intros U0; cbn [fold_left]; [rewrite elem_of_nil; tauto |].
      rewrite IH, elem_of_record_use, elem_of_cons. tauto. }
    rewrite E. split; intros [? | Q]; auto; right.
    + destruct Q as [-> Q]. split; [done | by exists k].
    + destruct Q as (-> & k' & [= <-] & Q). done.
  - split; [by left | intros [? | (_ & k & ? & _)]; done].
Qed.

(** The users of a value in the table are the instructions of the blocks that have it as a
    recorded operand. *)
Lemma elem_of_users F v u :
  u ∈ users v (build_def_use F) <->
  exists b k, b ∈ blocks F /\ u ∈ getInstructions b F /\ kind_of u F = Some k /\ v ∈ recorded k.
Proof.
  unfold build_def_use.
  assert (In : forall l U, u ∈ users v (fold_left (record_uses F) l U) <->
    u ∈ users v U \/ (u ∈ l /\ exists k, kind_of u F = Some k /\ v ∈ recorded k)).
  { induction l as [| i l IH]; intros U; cbn [fold_left]; [rewrite elem_of_nil; tauto |].
    rewrite IH, elem_of_record_uses, elem_of_cons. split.
    - intros [[? | [-> ?]] | [? ?]]; auto.
    - intros [? | [[-> | ?] ?]]; auto. }
  assert (Out : forall bl U, u ∈ users v (fold_left (fun U b => fold_left (record_uses F) (getInstructions b F) U) bl U) <->
    u ∈ users v U \/ exists b k, b ∈ bl /\ u ∈ getInstructions b F /\ kind_of u F = Some k /\ v ∈ recorded k).
  { induction bl as [| b bl IH]; intros U; cbn [fold_left].
    - split; [by left |]. intros [? | (b & k & Hb & _)]; [done | by apply not_elem_of_nil in Hb].
    - rewrite IH, In. split.
      + intros [[? | (Hi & k & K & Hv)] | (c & k & Hc & Q)]; [by left | |]; right.
        * exists b, k. split_and!; [left | done ..].
        * exists c, k. split; [by right | done].
      + intros [? | (c & k & [-> | Hc]%elem_of_cons & Hi & K & Hv)]; [tauto | |].
        * left. right. split; [done | by exists k].
        * right. by exists c, k. }
  rewrite Out. unfold users at 1. rewrite lookup_empty. split; [| by right].
  intros [H | ?]; [by apply not_elem_of_nil in H | done].
Qed.

End DefUse.
