(* ===== verification/SROA.v ===== *)
(** * Scalar replacement of aggregates

    [SROAPass] of [lib/middle/mir/passes/SROAPass.cpp]: a local variable of struct type that
    is only used to compute the addresses of its fields is replaced by a variable for each
    field.  A function works on its heap from the counter of the module; a new type changes
    the module. *)

From S2P Require Import Prelude Diag HIRType MIR MIRModule Mem2Reg DefUse.

Implicit Types (F : MIRFunction) (M : MIRModule) (b i f v : ref) (k : InstKind).

(** The value of an [int] that is assigned a [uint64_t] or a [size_t]. *)
Definition i32 (z : Z) : Z := ((z + 2 ^ 31) `mod` 2 ^ 32 - 2 ^ 31)%Z.

(** The allocation at [i] with its type, when it is a struct. *)
Definition struct_alloca M F i : option (MIRInst * StructInfo) :=
  match insts F !! i with
  | Some A =>
      match i_kind A with
      | AllocaInst ty _ =>
          match m_types M !! ty with
          | Some (StructType info) => Some (A, info)
          | _ => None
          end
      | _ => None
      end
  | None => None
  end.

(** Phase 1. *)
Definition structAllocas M F : list ref :=
  concat (map (fun b => filter (fun i => is_Some (struct_alloca M F i)) (getInstructions b F)) (blocks F)).

(** Phase 2: the operands that the def-use map records. *)
Definition recorded k : list ref :=
  match k with
  | LoadInst p _ _ => [p]
  | StoreInst v p _ _ => [v; p]
  | GetElementPtrInst p _ => [p]
  | CastInst _ v _ => [v]
  | CallInst _ args _ => args
  | MakeClosureInst _ caps => caps
  | _ => []
  end.

Definition int_value M v : option Z :=
  match const_of v M with Some (ConstantInt z) => Some z | _ => None end.

(** The field whose address [user] computes: its indices are 0 and a constant. *)
Definition field_access M F (user : ref) : option Z :=
  match kind_of user F with
  | Some (GetElementPtrInst _ [base; field]) =>
      match int_value M base, int_value M field with
      | Some z, Some n => if Z.eqb z 0 then Some n else None
      | _, _ => None
      end
  | _ => None
  end.

(** The loop over the users of an allocation: [None] when it cannot be shattered. *)
Fixpoint collect_geps M F (allocUses geps : list ref) : option (list ref) :=
  match allocUses with
  | [] => Some geps
  | user :: allocUses =>
      match field_access M F user with
      | Some _ => collect_geps M F allocUses (geps ++ [user])
      | None => None
      end
  end.

(** A variable for the field [n], at the start of the entry block. *)
Definition new_field (A : MIRInst) (st : gmap Z ref * MIRModule * MIRFunction) (field : nat * TypePtr) :
    gmap Z ref * MIRModule * MIRFunction :=
  let '(newAllocas, M, F) := st in
  let '(n, fieldTy) := field in
  let '(ptrTy, M) := getPointerType fieldTy M in
  let entry := getEntryBlock F in
  let '(newAlloca, F) := new_inst
    {| i_kind := AllocaInst fieldTy 0; i_type := ptrTy;
       i_name := (i_name A ++ "." ++ to_string (Z.of_nat n))%string; i_loc := i_loc A;
       i_borrow := None; i_parent := entry |} F in
  (<[i32 (Z.of_nat n) := newAlloca]> newAllocas, M,
   upd_block entry (fun B => with_instructions (newAlloca :: instructions B) B) F).

Definition new_fields (A : MIRInst) (fields : list TypePtr) M F : gmap Z ref * MIRModule * MIRFunction :=
  fold_left (new_field A) (imap pair fields) (∅, M, F).

(** The uses of an address become uses of the variable for the field; of null, when the type
    has no such field, because [operator[]] makes an entry for it. *)
Definition replace_gep M (newAllocas : gmap Z ref) (st : list ref * MIRFunction) (gep : ref) :
    list ref * MIRFunction :=
  let '(toDelete, F) := st in
  match field_access M F gep with
  | Some z => (toDelete ++ [gep], replaceAllUsesInFunction gep (default nullptr (newAllocas !! i32 z)) F)
  | None => st
  end.

(** Phase 3 for one allocation. *)
Record Shattering := {
  changed : bool;
  toDelete : list ref;
  s_module : MIRModule;
  s_function : MIRFunction;
}.

Definition shatter (uses : DefUse) (S : Shattering) (alloca : ref) : Shattering :=
  match collect_geps (s_module S) (s_function S) (users alloca uses) [] with
  | None | Some [] => S
  | Some geps =>
      match struct_alloca (s_module S) (s_function S) alloca with
      | None => S
      | Some (A, structTy) =>
          let '(newAllocas, M, F) := new_fields A (st_fields structTy) (s_module S) (s_function S) in
          let '(toDelete, F) := fold_left (replace_gep M newAllocas) geps (toDelete S, F) in
          {| changed := true; toDelete := toDelete ++ [alloca]; s_module := M; s_function := F |}
      end
  end.

(** With the cleanup, phase 4. *)
Definition runOnFunction F M : bool * MIRModule * MIRFunction :=
  match structAllocas M F with
  | [] => (false, M, F)
  | allocas =>
      let uses := build_def_use recorded F in
      let S := fold_left (shatter uses) allocas
                 {| changed := false; toDelete := []; s_module := M; s_function := F |} in
      (changed S, s_module S,
       fold_left (erase_dead (toDelete S)) (blocks (s_function S)) (s_function S))
  end.

Definition run_function (st : bool * MIRModule) f : bool * MIRModule :=
  let '(changed, M) := st in
  if isDeclaration (body f M) then st
  else
    let '(c, M, F) := runOnFunction (with_next (m_next M) (body f M)) M in
    (changed || c, set_body f F (set_next (next_ref F) M)).

Definition runOnModule M : bool * MIRModule :=
  let '(funcs, M) := getFunctions M in fold_left run_function funcs (false, M).
