(* ===== verification/SROAProps.v ===== *)
(** * Scalar replacement: functions

    What the pass makes of a function: the allocations that it splits, the variables that it
    makes for their fields, and the replacement of the addresses of fields as one map. *)

From S2P Require Import Prelude Diag HIRType MIR MIRFacts SimplifyCFG SimplifyCFGProps MIRModule MIRUses ConstFold Transform Mem2Reg Mem2RegSubst DefUse SROA.

Implicit Types (F G : MIRFunction) (M : MIRModule) (a b g i v x : ref) (k : InstKind) (news dead : list ref).

(** ** Steps of [transformed] *)

Lemma transformed_ext σ σ' news dead F G :
  (forall v, σ v = σ' v) -> transformed σ news dead F G -> transformed σ' news dead F G.
Proof.
  intros E [T1 T2 T3 T4 T5 T6 T7 T8 T9 T10]. split; try done. intros i P N. rewrite T6 by done.
  destruct (insts F !! i); [| done]. cbn. f_equal. unfold map_inst. by rewrite (map_values_ext σ σ').
Qed.

(** Instructions are removed from the blocks and destroyed. *)
Lemma transformed_erase σ news dead F G D :
  transformed σ news dead F G -> (forall a, a ∈ news -> a ∉ D) ->
  transformed σ news (dead ++ D) F (fold_left (erase_dead D) (blocks G) G).
Proof.
  intros T Nd. pose proof T as [T1 T2 T3 T4 T5 T6 T7 T8 T9 T10].
  destruct (erase_dead_spec D (blocks G) G) as [B1 B2 B3 B4 B5 B6].
  assert (BI : forall i, insts (fold_left (erase_dead D) (blocks G) G) !! i =
    if decide (i ∈ D /\ placed G i) then None else insts G !! i) by (intros i; rewrite B2; by apply decide_ext).
  clear B2. split.
  - by rewrite B1.
  - by rewrite B6.
  - intros b. by rewrite B5.
  - intros b. destruct (B4 b) as [-> ->]. apply T4.
  - intros b Hb. rewrite B3, decide_True, T5, filter_app by (by rewrite ?T1). f_equal.
    + case_decide; [| done]. apply filter_full. intros a Ha. by apply Nd.
    + rewrite list_filter_filter. apply filter_iff_in. intros i _. rewrite elem_of_app. tauto.
  - intros i P N. rewrite not_elem_of_app in N. rewrite BI, decide_False by tauto. apply T6; tauto.
  - intros i P N. rewrite BI. apply elem_of_app in N. case_decide as Dc; [done |]. rewrite (tf_placed _ _ _ _ _ T) in Dc.
    apply T7; [done |]. destruct (decide (i ∈ dead)); tauto.
  - intros i P N. rewrite BI, decide_False; [by apply T8 |]. rewrite (tf_placed _ _ _ _ _ T). tauto.
  - intros a Ha. rewrite B6, BI, decide_False; [by apply T9 |]. intros [Q _]. by apply (Nd a).
  - done.
Qed.


(** ** Types of a module *)

(** A module with more types, and the same constants and globals. *)
Record types_grow M M' : Prop := {
  tg_consts : consts M' = consts M;
  tg_globs : globs M' = globs M;
  tg_next : (m_next_type M <= m_next_type M')%N;
  tg_old : forall t, (t < m_next_type M)%N -> m_types M' !! t = m_types M !! t;
  tg_new : forall t y, m_types M' !! t = Some y -> m_types M !! t = Some y \/ exists p o st, y = PointerType p o st;
  tg_pointer : forall t p, pointerTypeCache M !! t = Some p -> pointerTypeCache M' !! t = Some p;
}.

#[export] Instance types_grow_preorder : PreOrder types_grow.
Proof.
  split; [split; try done; by left |].
  intros M1 M2 M3 [A1 A2 A3 A4 A5 A6] [B1 B2 B3 B4 B5 B6]. split; try congruence; [lia | | | auto].
  - intros t L. rewrite B4 by lia. by apply A4.
  - intros t y E. destruct (B5 t y E) as [Q | Q]; [by apply A5 | by right].
Qed.

(** Moreover the functions are the same. *)
Record more_types M M' : Prop := {
  mt_fns : fns M' = fns M;
  mt_functions : functions M' = functions M;
  mt_dirty : functionsDirty M' = functionsDirty M;
  mt_cache : functionCache M' = functionCache M;
  mt_next : m_next M' = m_next M;
  mt_grow : types_grow M M';
}.

#[export] Instance more_types_preorder : PreOrder more_types.
Proof.
  split; [by split |]. intros M1 M2 M3 [A1 A2 A3 A4 A5 A6] [B1 B2 B3 B4 B5 B6]. split; try congruence. by transitivity M2.
Qed.

(** The cached pointer types are pointers, and new types get new addresses. *)
Record types_ok M : Prop := {
  ty_pointer : forall t p, pointerTypeCache M !! t = Some p ->
    m_types M !! p = Some (PointerType t Ownership.None_ BorrowState.None_);
  ty_fresh : forall t, is_Some (m_types M !! t) -> (t < m_next_type M)%N;
}.

(** [p] is what [getPointerType] gives for [t]. *)
Definition pointer_to M (t p : TypePtr) : Prop :=
  (t = nullptr /\ p = nullptr) \/ (t <> nullptr /\ pointerTypeCache M !! t = Some p).

Lemma pointer_to_unique M t p q : pointer_to M t p -> pointer_to M t q -> p = q.
Proof. intros [[-> ->] | [N E]] [[E' ->] | [N' E']]; try done. congruence. Qed.

Lemma pointer_to_more M M' t p : types_grow M M' -> pointer_to M t p -> pointer_to M' t p.
Proof. intros Mt [? | [? ?]]; [by left | right]. split; [done | by apply (tg_pointer _ _ Mt)]. Qed.

Lemma getPointerType_ok M t :
  types_ok M ->
  let '(p, M') := getPointerType t M in types_ok M' /\ more_types M M' /\ pointer_to M' t p.
Proof.
  intros [P Fr]. unfold getPointerType. destruct (N.eqb_spec t nullptr) as [-> | N]; [split_and!; [done | done | by left] |].
  destruct (pointerTypeCache M !! t) as [p |] eqn:E; [split_and!; [done | done | by right] |].
  unfold new_type. assert (Old : forall u, (u < m_next_type M)%N ->
    <[m_next_type M := PointerType t Ownership.None_ BorrowState.None_]> (m_types M) !! u = m_types M !! u).
  { intros u L. rewrite lookup_insert_ne; [done | lia]. }
  split_and!.
  - split; cbn [pointerTypeCache m_types m_next_type].
    + intros u p Q. destruct (decide (u = t)) as [-> | Nu].
      * rewrite lookup_insert_eq in Q. injection Q as <-. by rewrite lookup_insert_eq.
      * rewrite lookup_insert_ne in Q by done. rewrite Old; [by apply P | apply Fr; rewrite (P u p Q); by eexists].
    + intros u Q. destruct (decide (u = m_next_type M)) as [-> | Nu]; [lia |].
      rewrite lookup_insert_ne in Q by done. specialize (Fr u Q). lia.
  - split; try done. split; cbn [pointerTypeCache m_types m_next_type]; try done; [lia | |].
    + intros u y Q. destruct (decide (u = m_next_type M)) as [-> | Nu].
      * rewrite lookup_insert_eq in Q. injection Q as <-. right. by eexists _, _, _.
      * rewrite lookup_insert_ne in Q by done. by left.
    + intros u p Q. rewrite lookup_insert_ne; [done | by intros ->; rewrite E in Q].
  - right. cbn [pointerTypeCache]. by rewrite lookup_insert_eq.
Qed.

(** ** What is replaced by what *)

(** An allocation of a struct that is used, and whose recorded users all compute addresses of
    fields. *)
Definition splits M F (A : ref) : Prop :=
  placed F A /\ is_Some (struct_alloca M F A) /\ users A (build_def_use recorded F) <> []
  /\ Forall (fun u => is_Some (field_access M F u)) (users A (build_def_use recorded F)).

#[export] Instance splits_dec M F A : Decision (splits M F A).
Proof. unfold splits. apply _. Defined.

(** The allocation among [l] of whose field [v] is the address, and the index. *)
Definition address_of M F (l : list ref) v : option (ref * Z) :=
  match kind_of v F, field_access M F v with
  | Some (GetElementPtrInst p _), Some z => if decide (placed F v /\ p ∈ l) then Some (p, z) else None
  | _, _ => None
  end.

(** The field of the struct that an index selects. *)
Definition field_number M F (A : ref) (z : Z) : option nat :=
  match struct_alloca M F A with
  | Some (_, info) =>
      if decide (0 <= i32 z < Z.of_nat (length (st_fields info)))%Z then Some (Z.to_nat (i32 z)) else None
  | None => None
  end.

(** The value that stands for [v] when the allocations [l] are split and the variables of
    their fields are [N]: null for an index that is no field. *)
Definition stands M F (l : list ref) (N : ref -> nat -> ref) v : ref :=
  match address_of M F l v with
  | Some (A, z) => from_option (N A) nullptr (field_number M F A z)
  | None => v
  end.

Definition field_var F (A : MIRInst) (j : nat) (ty t : TypePtr) : MIRInst :=
  {| i_kind := AllocaInst ty 0; i_type := t; i_name := (i_name A ++ "." ++ to_string (Z.of_nat j))%string;
     i_loc := i_loc A; i_borrow := None; i_parent := getEntryBlock F |}.

Lemma address_of_some M F l v A z : address_of M F l v = Some (A, z) <->
  (exists ix, kind_of v F = Some (GetElementPtrInst A ix)) /\ field_access M F v = Some z /\ placed F v /\ A ∈ l.
Proof.
  unfold address_of. split.
  - destruct (kind_of v F) as [k |]; [| done]. destruct k; try done. destruct (field_access M F v); [| done].
    case_decide as D; [| done]. intros [= -> ->]. split; [by eexists |]. by destruct D.
  - intros ((ix & ->) & -> & P & Hl). by rewrite decide_True.
Qed.

(** The users of a split allocation are the addresses of its fields. *)
Lemma elem_of_splits_users M F A u : splits M F A ->
  u ∈ users A (build_def_use recorded F) <->
  placed F u /\ exists ix z, kind_of u F = Some (GetElementPtrInst A ix) /\ field_access M F u = Some z.
Proof.
  intros (_ & _ & _ & Fa). rewrite elem_of_users. split.
  - intros (b & k & Hb & Hi & K & Hk). split; [by exists b |].
    rewrite Forall_forall in Fa. destruct (Fa u) as [z E]; [by apply elem_of_users; exists b, k |].
    unfold field_access in E. rewrite K in E. destruct k; try discriminate E.
    apply list_elem_of_singleton in Hk as ->. exists indices, z. unfold field_access. by rewrite K.
  - intros ((b & Hb & Hi) & ix & z & K & E). exists b, (GetElementPtrInst A ix). split_and!; [done | done | done | left].
Qed.

(** ** The split of a function *)

Section Split.
Context (ext : ref -> Prop) (M : MIRModule) (F : MIRFunction).
Context (O : fn_ok ext (next_ref F) F) (NullB : ~ has_block nullptr F).
Context (Cx : forall v, is_Some (consts M !! v) -> ext v) (C0 : consts M !! nullptr = None).

(** What a map from values to values replaces: instructions, by new ones or by null. *)
Definition substitutes (σ : ref -> ref) news : Prop := forall v, σ v <> v ->
  is_Some (insts F !! v) /\ (σ v = nullptr \/ σ v ∈ news).

Lemma news_not_placed σ news dead G a : transformed σ news dead F G -> a ∈ news -> ~ placed F a.
Proof.
  intros T Ha P. apply (placed_old ext (next_ref F)) in P; [| done]. destruct (tf_new _ _ _ _ _ T a Ha) as [? _]. lia.
Qed.

Lemma news_not_block σ news dead G a : transformed σ news dead F G -> a ∈ news -> ~ has_block a F.
Proof.
  intros T Ha Q. apply (ok_block_fresh _ _ _ O) in Q. destruct (tf_new _ _ _ _ _ T a Ha) as [? _]. lia.
Qed.

Section Reading.
Context (σ : ref -> ref) (news : list ref) (G : MIRFunction) (M' : MIRModule).
Context (T : transformed σ news [] F G) (Sub : substitutes σ news) (Ec : consts M' = consts M).

Lemma int_value_sub v : int_value M' (σ v) = int_value M v.
Proof.
  unfold int_value, const_of. rewrite Ec. destruct (decide (σ v = v)) as [-> | N]; [done |].
  destruct (Sub v N) as [I Q].
  assert (E1 : consts M !! v = None).
  { destruct (consts M !! v) eqn:E; [| done]. exfalso. apply (ok_disjoint _ _ _ O) in I as [_ I].
    apply I, Cx. rewrite E. by eexists. }
  assert (E2 : consts M !! σ v = None).
  { destruct Q as [Q | Q]; [by rewrite Q |]. destruct (consts M !! σ v) eqn:E; [| done]. exfalso.
    assert (X : ext (σ v)) by (apply Cx; rewrite E; by eexists). apply (ok_ext_fresh _ _ _ O) in X.
    destruct (tf_new _ _ _ _ _ T _ Q) as [? _]. lia. }
  by rewrite E1, E2.
Qed.

Lemma kind_of_kept i : placed F i -> kind_of i G = map_values σ <$> kind_of i F.
Proof. intros P. apply (tr_kept σ news []); [done | done | apply not_elem_of_nil]. Qed.

Lemma field_access_sub u : placed F u -> field_access M' G u = field_access M F u.
Proof.
  intros P. unfold field_access. rewrite kind_of_kept by done. destruct (kind_of u F) as [k |]; [| done].
  destruct k; try done. cbn [fmap option_fmap option_map map_values].
  destruct indices as [| b0 [| f0 [|]]]; try done. cbn [map]. by rewrite !int_value_sub.
Qed.

Lemma collect_geps_sub l : forall acc, (forall u, u ∈ l -> placed F u) ->
  collect_geps M' G l acc = if decide (Forall (fun u => is_Some (field_access M F u)) l) then Some (acc ++ l) else None.
Proof.
  induction l as [| u l IH]; intros acc H; cbn [collect_geps].
  - rewrite decide_True by constructor. by rewrite app_nil_r.
  - rewrite field_access_sub by (apply H; left). destruct (field_access M F u) as [z |] eqn:E.
    + rewrite IH by (intros w Hw; apply H; by right). rewrite <- app_assoc. apply decide_ext. rewrite Forall_cons, E.
      split; [by split; [eexists |] | by intros []].
    + rewrite decide_False; [done |]. rewrite Forall_cons, E. by intros [[] _].
Qed.

End Reading.

(** The loop that replaces the addresses of fields. *)
Definition field_target (newAllocas : gmap Z ref) g : ref :=
  match field_access M F g with Some z => default nullptr (newAllocas !! i32 z) | None => g end.

Lemma replace_geps_spec M' newAllocas news gs : forall σ G D,
  consts M' = consts M -> transformed σ news [] F G -> substitutes σ news ->
  (forall g, g ∈ gs -> placed F g /\ is_Some (field_access M F g) /\ (σ g = g \/ σ g = field_target newAllocas g)) ->
  (forall z a, newAllocas !! z = Some a -> a ∈ news) ->
  let st := fold_left (replace_gep M' newAllocas) gs (D, G) in
  fst st = D ++ gs
  /\ transformed (fun v => if decide (v ∈ gs) then field_target newAllocas v else σ v) news [] F (snd st)
  /\ (forall a, a ∈ news -> insts (snd st) !! a = insts G !! a).
Proof.
  induction gs as [| g gs IH]; intros σ G D Ec T Sub Hg Ha; cbn [fold_left].
  - cbn [fst snd]. split_and!; [by rewrite app_nil_r | | done].
    apply (transformed_ext σ); [| done]. intros v. by rewrite decide_False by apply not_elem_of_nil.
  - destruct (Hg g) as (P & [z Ez] & Eg); [left |]. set (n := field_target newAllocas g) in *.
    assert (En : n = default nullptr (newAllocas !! i32 z)) by (unfold n, field_target; by rewrite Ez).
    assert (Tgt : forall w, is_Some (field_access M F w) -> field_target newAllocas w = nullptr \/ field_target newAllocas w ∈ news).
    { intros w [y Ew]. unfold field_target. rewrite Ew. destruct (newAllocas !! i32 y) as [a |] eqn:E; [right | by left].
      by apply (Ha (i32 y)). }
    assert (Ng : forall w, w = nullptr \/ w ∈ news -> w <> g).
    { intros w Hw ->. destruct Hw as [Hw | Hw]; [| by apply (news_not_placed σ news [] G g T)]. rewrite Hw in P.
      destruct P as (b & Hb & Hi). destruct (ok_held _ _ _ O b _ Hb Hi) as [J E]. by rewrite (wf_null _ (ok_wf _ _ _ O)) in E. }
    assert (Nn : n = nullptr \/ n ∈ news) by (apply Tgt; by eexists).
    assert (Nb : ~ has_block n F) by (destruct Nn as [-> | Q]; [done | by apply (news_not_block σ news [] G _ T)]).
    assert (Nbb : bbs G !! n = None).
    { destruct (bbs G !! n) eqn:E; [| done]. exfalso. apply Nb, (tf_has _ _ _ _ _ T). by eexists. }
    unfold replace_gep at 2 4 6. rewrite (field_access_sub σ news G M' T Sub Ec g P), Ez, <- En.
    pose proof (transformed_replace σ news [] F G T (fun a => news_not_placed σ news [] G a T) g n Nb) as T1.
    assert (E1 : forall v, subst_ref g n (σ v) = if decide (v = g) then n else σ v).
    { intros v. case_decide as Dv; [subst v |].
      - destruct Eg as [-> | ->]; unfold subst_ref; [by rewrite N.eqb_refl | by case_match].
      - apply subst_ref_other. destruct (decide (σ v = v)) as [-> | Nv]; [done |]. by apply Ng, Sub. }
    destruct (IH (fun v => subst_ref g n (σ v)) (replaceAllUsesInFunction g n G) (D ++ [g]) Ec T1) as (I1 & I2 & I3).
    + intros v. rewrite E1. case_decide as Dv; [subst v; intros _ | by apply Sub]. split; [| done].
      destruct P as (b & Hb & Hi). by apply (ok_held _ _ _ O b).
    + intros w Hw. destruct (Hg w) as (Pw & Sw & Ew); [by right |]. split_and!; [done | done |].
      rewrite E1. case_decide as Dw; [subst w; by right | done].
    + done.
    + split_and!.
      * by rewrite I1, <- app_assoc.
      * apply (transformed_ext (fun v => if decide (v ∈ gs) then field_target newAllocas v else subst_ref g n (σ v))); [| done].
        intros v. rewrite E1. destruct (decide (v ∈ gs)) as [Q | Q].
        -- by rewrite decide_True by by right.
        -- destruct (decide (v = g)) as [-> | Nv]; [by rewrite decide_True by left |].
           rewrite decide_False; [done |]. by rewrite elem_of_cons; intros [? | ?].
      * intros a Hn. rewrite I3 by done. destruct (tf_new _ _ _ _ _ T a Hn) as (_ & J & E & U & _).
        rewrite E. by apply insts_replace_unary.
Qed.

(** ** The variables for the fields *)

Lemma i32_small z : (0 <= z < 2 ^ 31)%Z -> i32 z = z.
Proof. intros H. unfold i32. rewrite Z.mod_small; lia. Qed.

(** What the loop over the fields has made: a variable for each at consecutive addresses. *)
Record fields_made (A : MIRInst) (fields : list TypePtr) (σ : ref -> ref) news0 (M0 : MIRModule) (G0 : MIRFunction)
    (newAllocas : gmap Z ref) (M1 : MIRModule) (G1 : MIRFunction) : Prop := {
  fm_types : types_ok M1;
  fm_more : more_types M0 M1;
  fm_next : next_ref G1 = (next_ref G0 + N.of_nat (length fields))%N;
  fm_tf : exists news, transformed σ news [] F G1
    /\ forall a, a ∈ news <-> a ∈ news0 \/ exists j, j < length fields /\ a = (next_ref G0 + N.of_nat j)%N;
  fm_map : forall z, newAllocas !! z =
    if decide (0 <= z < Z.of_nat (length fields))%Z then Some (next_ref G0 + Z.to_N z)%N else None;
  fm_var : forall j ty, fields !! j = Some ty -> exists t,
    insts G1 !! (next_ref G0 + N.of_nat j)%N = Some (field_var F A j ty t) /\ pointer_to M1 ty t;
  fm_old : forall a, (a < next_ref G0)%N -> insts G1 !! a = insts G0 !! a;
}.

Lemma new_fields_spec A fields σ news0 M0 G0 :
  types_ok M0 -> transformed σ news0 [] F G0 -> (Z.of_nat (length fields) < 2 ^ 31)%Z ->
  let '(newAllocas, M1, G1) := new_fields A fields M0 G0 in
  fields_made A fields σ news0 M0 G0 newAllocas M1 G1.
Proof.
  intros Ty T. unfold new_fields. induction fields as [| ty fields IH] using rev_ind; intros L.
  - cbn [imap fold_left]. split; try done.
    + cbn. lia.
    + exists news0. split; [done |]. intros a. cbn [length]. split; [by left |]. intros [? | (j & ? & _)]; [done | lia].
    + intros z. rewrite lookup_empty, decide_False; [done |]. cbn. lia.
  - rewrite length_app in *. cbn [length] in *. rewrite imap_app. cbn [imap]. rewrite fold_left_app. cbn [fold_left].
    specialize (IH ltac:(lia)). destruct (fold_left (new_field A) (imap pair fields) (∅, M0, G0)) as [[nA M1] G1].
    destruct IH as [I1 I2 I3 (news & I4 & I4') I5 I6 I7]. unfold new_field.
    rewrite Nat.add_0_r. pose proof (getPointerType_ok M1 ty I1) as Q. destruct (getPointerType ty M1) as [t M2].
    destruct Q as (Q1 & Q2 & Q3). rewrite (tf_entry _ _ _ _ _ I4).
    set (J := {| i_kind := AllocaInst ty 0; i_type := t; i_name := _; i_loc := i_loc A; i_borrow := None; i_parent := getEntryBlock F |}).
    change J with (field_var F A (length fields) ty t). clear J. set (J := field_var F A (length fields) ty t).
    pose proof (transformed_insert ext σ news [] F G1 J O I4 (conj eq_refl (conj eq_refl eq_refl))) as T1.
    cbn [new_inst]. rewrite (tf_entry _ _ _ _ _ I4) in T1. cbn [new_inst snd] in T1.
    rewrite i32_small by lia.
    set (H := upd_block (getEntryBlock F) (fun B => with_instructions (next_ref G1 :: instructions B) B)
      {| insts := <[next_ref G1 := J]> (insts G1); bbs := bbs G1; blocks := blocks G1; next_ref := N.succ (next_ref G1) |}) in *.
    assert (EH : forall a, insts H !! a = if decide (a = next_ref G1) then Some J else insts G1 !! a).
    { intros a. unfold H. cbn [insts upd_block set_bbs]. case_decide as D; [subst a; by rewrite lookup_insert_eq | by rewrite lookup_insert_ne]. }
    split; rewrite ?length_app; cbn [length].
    + done.
    + by transitivity M1.
    + change (next_ref H) with (N.succ (next_ref G1)). lia.
    + exists (next_ref G1 :: news). split; [done |]. intros a. rewrite elem_of_cons, I4'. split.
      * intros [-> | [? | (j & Lj & ->)]]; [right; exists (length fields); lia | by left | right; exists j; lia].
      * intros [? | (j & Lj & ->)]; [by right; left |]. destruct (decide (j = length fields)) as [-> | N]; [left; lia |].
        right. right. exists j. lia.
    + intros z. destruct (decide (z = Z.of_nat (length fields))) as [-> | N].
      * rewrite lookup_insert_eq, decide_True by lia. f_equal. lia.
      * rewrite lookup_insert_ne, I5 by done. apply decide_ext. lia.
    + intros j ty' E. destruct (decide (j = length fields)) as [-> | N].
      * rewrite lookup_app_r, Nat.sub_diag in E by lia. injection E as <-. exists t. split; [| done].
        by rewrite EH, decide_True by lia.
      * assert (Lj : j < length fields) by (apply lookup_lt_Some in E; rewrite length_app in E; cbn in E; lia).
        rewrite lookup_app_l in E by done. destruct (I6 j ty' E) as (t' & E' & P'). exists t'.
        rewrite EH, decide_False by lia. split; [done | by apply (pointer_to_more M1), P'; apply Q2].
    + intros a La. rewrite EH, decide_False by lia. by apply I7.
Qed.

(** ** One allocation after the other *)

Context (Ty0 : types_ok M).
Context (Small : forall A J info, struct_alloca M F A = Some (J, info) -> (Z.of_nat (length (st_fields info)) < 2 ^ 31)%Z).

Abbreviation uses := (build_def_use recorded F).

(** A field of a split allocation. *)
Definition is_field (l : list ref) (A : ref) (j : nat) : Prop :=
  A ∈ l /\ exists J info, struct_alloca M F A = Some (J, info) /\ j < length (st_fields info).

(** What the pass has done when it has split the allocations [l]. *)
Record shattering (l : list ref) (N : ref -> nat -> ref) (S : Shattering) : Prop := {
  st_types : types_ok (s_module S);
  st_more : more_types M (s_module S);
  st_tf : exists news, transformed (stands M F l N) news [] F (s_function S)
    /\ forall a, a ∈ news <-> exists A j, is_field l A j /\ a = N A j;
  st_var : forall A j J info ty, A ∈ l -> struct_alloca M F A = Some (J, info) -> st_fields info !! j = Some ty ->
    exists t, insts (s_function S) !! N A j = Some (field_var F J j ty t) /\ pointer_to (s_module S) ty t;
  st_inj : forall A j A' j', is_field l A j -> is_field l A' j' -> N A j = N A' j' -> A = A' /\ j = j';
  st_delete : forall i, i ∈ toDelete S <-> i ∈ l \/ is_Some (address_of M F l i);
  st_changed : changed S = true <-> l <> [];
}.

Lemma stands_substitutes l N news :
  (forall a, a ∈ news <-> exists A j, is_field l A j /\ a = N A j) ->
  substitutes (stands M F l N) news.
Proof.
  intros Hn v. unfold stands. destruct (address_of M F l v) as [[A z] |] eqn:E; [| done]. intros _.
  apply address_of_some in E as (_ & _ & (b & Hb & Hi) & Hl). split; [by apply (ok_held _ _ _ O b) |].
  unfold field_number. destruct (struct_alloca M F A) as [[J info] |] eqn:EA; [| by left].
  case_decide as D; [right | by left]. apply Hn. exists A, (Z.to_nat (i32 z)). split; [| done].
  split; [done |]. exists J, info. split; [done | lia].
Qed.

(** Another allocation that is split. *)
Lemma stands_snoc l N N' A v :
  splits M F A -> A ∉ l -> (forall B j, B ∈ l -> N' B j = N B j) ->
  stands M F (l ++ [A]) N' v =
    if decide (v ∈ users A uses)
    then match field_access M F v with Some z => from_option (N' A) nullptr (field_number M F A z) | None => v end
    else stands M F l N v.
Proof.
  intros Sp Nl EN. case_decide as D.
  - apply (elem_of_splits_users M F A v Sp) in D as (P & ix & z & K & E). unfold stands.
    rewrite (proj2 (address_of_some M F (l ++ [A]) v A z)), E; [done |]. split; [by exists ix |].
    split_and!; [done | done | apply elem_of_app; right; left].
  - unfold stands. destruct (address_of M F l v) as [[B z] |] eqn:EB.
    + pose proof EB as Q. apply address_of_some in Q as (Q1 & Q2 & Q3 & Q4).
      rewrite (proj2 (address_of_some M F (l ++ [A]) v B z)).
      * destruct (field_number M F B z); [by apply EN | done].
      * split_and!; [done | done | done | apply elem_of_app; by left].
    + destruct (address_of M F (l ++ [A]) v) as [[B z] |] eqn:EB'; [| done]. exfalso.
      apply address_of_some in EB' as ((ix & Q1) & Q2 & Q3 & [Q4 | Q4]%elem_of_app).
      * rewrite (proj2 (address_of_some M F l v B z)) in EB; [done |]. split; [by exists ix | by split_and!].
      * apply list_elem_of_singleton in Q4 as ->. apply D, (elem_of_splits_users M F A v Sp). split; [done |]. by exists ix, z.
Qed.

Lemma struct_alloca_kind A J info : struct_alloca M F A = Some (J, info) ->
  insts F !! A = Some J /\ exists ty al, i_kind J = AllocaInst ty al /\ m_types M !! ty = Some (StructType info).
Proof.
  unfold struct_alloca. intros E. repeat case_match; simplify_eq. split; [done |]. by eexists _, _.
Qed.

Lemma shattering_more l N S A J info : shattering l N S -> placed F A -> struct_alloca M F A = Some (J, info) ->
  struct_alloca (s_module S) (s_function S) A = Some (J, info).
Proof.
  intros St P E. destruct (struct_alloca_kind A J info E) as (EA & ty & al & KA & ET).
  destruct (st_tf _ _ _ St) as (news & T & _). unfold struct_alloca.
  rewrite (tf_kept _ _ _ _ _ T A P) by apply not_elem_of_nil. rewrite EA. cbn [fmap option_fmap option_map map_inst with_kind i_kind].
  rewrite KA. cbn [map_values]. rewrite (tg_old _ _ (mt_grow _ _ (st_more _ _ _ St))), ET.
  - f_equal. f_equal. unfold map_inst. rewrite KA. cbn [map_values]. destruct J. cbn in *. by subst.
  - apply (ty_fresh _ Ty0). rewrite ET. by eexists.
Qed.

(** What stands for the addresses of the fields of [A], once its variables are made. *)
Lemma field_target_stands S A J info nA M1 G1 σ news0 g z :
  struct_alloca M F A = Some (J, info) ->
  fields_made J (st_fields info) σ news0 (s_module S) (s_function S) nA M1 G1 ->
  field_access M F g = Some z ->
  field_target nA g = from_option (fun j => (next_ref (s_function S) + N.of_nat j)%N) nullptr (field_number M F A z).
Proof.
  intros EA Fm Eg. unfold field_target, field_number. rewrite Eg, EA, (fm_map _ _ _ _ _ _ _ _ _ Fm).
  case_decide; [| done]. cbn. lia.
Qed.

(** The variables of [l], and those for the fields of [A] from [next0]. *)
Definition more_fields (N : ref -> nat -> ref) (A next0 : ref) : ref -> nat -> ref :=
  fun a j => if decide (a = A) then (next0 + N.of_nat j)%N else N a j.

Lemma is_field_snoc l A B j J info : struct_alloca M F A = Some (J, info) -> A ∉ l ->
  is_field (l ++ [A]) B j <-> (B <> A /\ is_field l B j) \/ (B = A /\ j < length (st_fields info)).
Proof.
  intros EA Nl. unfold is_field. rewrite elem_of_app, list_elem_of_singleton. split.
  - intros [[Hl | ->] Q]; [left; split; [by intros -> | done] | right]. split; [done |].
    destruct Q as (J' & info' & E & L). by simplify_eq.
  - intros [[_ [Hl Q]] | [-> L]]; [tauto |]. split; [by right |]. by exists J, info.
Qed.

Lemma stands_more l N A J info nA M1 G1 σ news0 S v :
  splits M F A -> A ∉ l -> struct_alloca M F A = Some (J, info) ->
  fields_made J (st_fields info) σ news0 (s_module S) (s_function S) nA M1 G1 ->
  (if decide (v ∈ users A uses) then field_target nA v else stands M F l N v)
  = stands M F (l ++ [A]) (more_fields N A (next_ref (s_function S))) v.
Proof.
  intros Sp Nl EA Fm. rewrite (stands_snoc l N _ A v Sp Nl).
  - case_decide as D; [| done]. apply (elem_of_splits_users M F A v Sp) in D as (_ & ix & z & _ & Ez). rewrite Ez.
    rewrite (field_target_stands S A J info nA M1 G1 σ news0 v z EA Fm Ez).
    destruct (field_number M F A z); [| done]. cbn [from_option]. unfold more_fields. by rewrite decide_True.
  - intros B j Hl. unfold more_fields. rewrite decide_False; [done | by intros ->].
Qed.

Lemma delete_snoc l A (D : list ref) i : splits M F A -> A ∉ l ->
  (forall i, i ∈ D <-> i ∈ l \/ is_Some (address_of M F l i)) ->
  i ∈ (D ++ users A uses) ++ [A] <-> i ∈ l ++ [A] \/ is_Some (address_of M F (l ++ [A]) i).
Proof.
  intros Sp Nl HD. rewrite !elem_of_app, list_elem_of_singleton, HD, (elem_of_splits_users M F A i Sp). split.
  - intros [[[? | [[B z] E]] | (P & ix & z & K & E)] | ->]; [tauto | | | tauto]; right.
    + apply address_of_some in E as (E1 & E2 & E3 & E4). exists (B, z). apply address_of_some.
      split_and!; [done | done | done | apply elem_of_app; by left].
    + exists (A, z). apply address_of_some. split; [by exists ix |]. split_and!; [done | done | apply elem_of_app; right; left].
  - intros [[? | ->] | [[B z] E]]; [tauto | tauto |]. apply address_of_some in E as ((ix & E1) & E2 & E3 & E4).
    apply elem_of_app in E4 as [E4 | ->%list_elem_of_singleton].
    + left. left. right. exists (B, z). apply address_of_some. by split; [exists ix |].
    + left. right. split; [done |]. by exists ix, z.
Qed.

(** The invariant for one more allocation, when its variables are made and the addresses of its
    fields replaced. *)
Lemma shattering_snoc l N S A J info nA M1 G1 news news1 H :
  shattering l N S -> splits M F A -> A ∉ l -> struct_alloca M F A = Some (J, info) ->
  fields_made J (st_fields info) (stands M F l N) news (s_module S) (s_function S) nA M1 G1 ->
  transformed (stands M F l N) news [] F (s_function S) ->
  (forall a, a ∈ news <-> exists A j, is_field l A j /\ a = N A j) ->
  (forall a, a ∈ news1 <-> a ∈ news \/ exists j, j < length (st_fields info) /\ a = (next_ref (s_function S) + N.of_nat j)%N) ->
  transformed (fun v => if decide (v ∈ users A uses) then field_target nA v else stands M F l N v) news1 [] F H ->
  (forall a, a ∈ news1 -> insts H !! a = insts G1 !! a) ->
  shattering (l ++ [A]) (more_fields N A (next_ref (s_function S)))
    {| changed := true; toDelete := (toDelete S ++ users A uses) ++ [A]; s_module := M1; s_function := H |}.
Proof.
  intros St Sp Nl EA Fm T Hn Hn1 R2 R3. set (next0 := next_ref (s_function S)) in *.
  assert (Lo : forall B j, is_field l B j -> N B j ∈ news /\ (N B j < next0)%N).
  { intros B j Q. assert (Hb : N B j ∈ news) by (apply Hn; by exists B, j). split; [done |].
    by destruct (tf_new _ _ _ _ _ T _ Hb) as [[_ ?] _]. }
  pose proof (fm_more _ _ _ _ _ _ _ _ _ Fm) as More.
  split; cbn [s_module s_function toDelete changed].
  - by apply (fm_types _ _ _ _ _ _ _ _ _ Fm).
  - transitivity (s_module S); [apply St | done].
  - exists news1. split; [apply (transformed_ext _ _ _ _ _ _ (fun v => stands_more l N A J info nA M1 G1 _ _ S v Sp Nl EA Fm)); done |].
    intros a. rewrite Hn1, Hn. split.
    + intros [(B & j & Q & ->) | (j & L & ->)]; [exists B, j | exists A, j]; rewrite (is_field_snoc l A _ j J info EA Nl); unfold more_fields.
      * assert (NB : B <> A) by (intros ->; by destruct Q). rewrite decide_False by done. auto.
      * rewrite decide_True by done. auto.
    + intros (B & j & [[NB Q] | [-> L]]%(is_field_snoc l A _ j J info EA Nl) & ->); unfold more_fields;
        [rewrite decide_False by done; left; by exists B, j | rewrite decide_True by done; right; by exists j].
  - intros B j J' info' ty Hl EB Ej. unfold more_fields. case_decide as DB.
    + subst B. simplify_eq. destruct (fm_var _ _ _ _ _ _ _ _ _ Fm j ty Ej) as (t & E & Pt). exists t. split; [| done].
      rewrite R3; [done |]. apply Hn1. right. exists j. split; [by apply lookup_lt_Some in Ej | done].
    + apply elem_of_app in Hl as [Hl | ->%list_elem_of_singleton]; [| done].
      destruct (st_var _ _ _ St B j J' info' ty Hl EB Ej) as (t & E & Pt). exists t.
      destruct (Lo B j) as [Lo1 Lo2]; [split; [done |]; exists J', info'; split; [done | by apply lookup_lt_Some in Ej] |].
      split; [| by apply (pointer_to_more (s_module S)), Pt; apply More].
      rewrite R3 by (apply Hn1; by left). by rewrite (fm_old _ _ _ _ _ _ _ _ _ Fm).
  - intros B j B' j' [[NB Q] | [-> L]]%(is_field_snoc l A _ j J info EA Nl) [[NB' Q'] | [-> L']]%(is_field_snoc l A _ j' J info EA Nl);
      unfold more_fields; repeat case_decide; try done; intros E.
    + by apply (st_inj _ _ _ St).
    + destruct (Lo B j Q). lia.
    + destruct (Lo B' j' Q'). lia.
    + split; [done | lia].
  - intros i. apply (delete_snoc l A _ i Sp Nl), (st_delete _ _ _ St).
  - split; [intros _ E; by destruct l | done].
Qed.

Lemma shatter_splits l N S A : shattering l N S -> splits M F A -> A ∉ l ->
  exists N', shattering (l ++ [A]) N' (shatter uses S A).
Proof.
  intros St Sp Nl. pose proof Sp as (P & ([J info] & EA) & Nu & Fa).
  pose proof (fun u => elem_of_splits_users M F A u Sp) as Us.
  destruct (st_tf _ _ _ St) as (news & T & Hn). pose proof (stands_substitutes l N news Hn) as Sub.
  pose proof (tg_consts _ _ (mt_grow _ _ (st_more _ _ _ St))) as Ec.
  unfold shatter. rewrite (collect_geps_sub _ _ _ _ T Sub Ec), decide_True by (done || (intros u Hu; by apply Us)).
  cbn [app]. destruct (users A uses) as [| g0 gs0] eqn:EU; [done |]. rewrite <- EU in *. clear EU g0 gs0.
  rewrite (shattering_more l N S A J info St P EA).
  pose proof (new_fields_spec J (st_fields info) _ news _ _ (st_types _ _ _ St) T (Small A J info EA)) as Fm.
  destruct (new_fields J (st_fields info) (s_module S) (s_function S)) as [[nA M1] G1].
  destruct (fm_tf _ _ _ _ _ _ _ _ _ Fm) as (news1 & T1 & Hn1).
  destruct (replace_geps_spec M1 nA news1 (users A uses) (stands M F l N) G1 (toDelete S)) as (R1 & R2 & R3).
  { by rewrite (tg_consts _ _ (mt_grow _ _ (fm_more _ _ _ _ _ _ _ _ _ Fm))). }
  { done. }
  { intros v Nv. destruct (Sub v Nv) as [? [? | ?]]; (split; [done |]); [by left | right; apply Hn1; by left]. }
  { intros g (Pg & ix & z & K & E)%Us. split_and!; [done | by eexists | left]. unfold stands.
    destruct (address_of M F l g) as [[B y] |] eqn:EB; [| done]. apply address_of_some in EB as ((ix' & K') & _ & _ & Hl).
    rewrite K in K'. injection K' as <- <-. done. }
  { intros z a E. rewrite (fm_map _ _ _ _ _ _ _ _ _ Fm) in E. case_decide as D; [| done]. injection E as <-.
    apply Hn1. right. exists (Z.to_nat z). lia. }
  destruct (fold_left (replace_gep M1 nA) (users A uses) (toDelete S, G1)) as [D H]. cbn [fst snd] in R1, R2, R3. subst D.
  exists (more_fields N A (next_ref (s_function S))). by apply (shattering_snoc l N S A J info nA M1 G1 news news1 H).
Qed.

(** An allocation that is used otherwise is left alone. *)
Lemma shatter_keeps l N S A : shattering l N S -> placed F A -> is_Some (struct_alloca M F A) -> ~ splits M F A ->
  shatter uses S A = S.
Proof.
  intros St P EA Ns. destruct (st_tf _ _ _ St) as (news & T & Hn).
  unfold shatter. rewrite (collect_geps_sub _ _ _ _ T (stands_substitutes l N news Hn) (tg_consts _ _ (mt_grow _ _ (st_more _ _ _ St)))).
  - case_decide as Fa; [| done]. cbn [app]. destruct (users A uses) as [| u us] eqn:EU; [done |].
    exfalso. apply Ns. split_and!; [done | done | by rewrite EU | by rewrite EU].
  - intros u Hu. apply elem_of_users in Hu as (b & k & Hb & Hi & _). by exists b.
Qed.

Lemma elem_of_structAllocas A : A ∈ structAllocas M F <-> placed F A /\ is_Some (struct_alloca M F A).
Proof.
  unfold structAllocas, placed. rewrite list_elem_of_In, in_concat. split.
  - intros (x & Hx & HA). apply in_map_iff in Hx as (b & <- & Hb). apply list_elem_of_In, list_elem_of_filter in HA as [? ?].
    split; [exists b; by rewrite list_elem_of_In | done].
  - intros [(b & Hb & Hi) E]. exists (filter (fun i => is_Some (struct_alloca M F i)) (getInstructions b F)). split.
    + apply in_map_iff. exists b. by rewrite <- list_elem_of_In.
    + by apply list_elem_of_In, list_elem_of_filter.
Qed.

Lemma shatter_loop todo : forall l N S,
  shattering l N S -> NoDup todo -> (forall A, A ∈ todo -> (A ∉ l) /\ A ∈ structAllocas M F) ->
  exists N', shattering (l ++ filter (fun A => splits M F A) todo) N' (fold_left (shatter uses) todo S).
Proof.
  induction todo as [| A todo IH]; intros l N S St Nd H; cbn [fold_left].
  - exists N. by rewrite filter_nil, app_nil_r.
  - apply NoDup_cons in Nd as [N1 N2]. destruct (H A) as [Nl [P EA]%elem_of_structAllocas]; [left |].
    rewrite filter_cons. case_decide as D.
    + destruct (shatter_splits l N S A St D Nl) as [N' St']. destruct (IH (l ++ [A]) N' _ St' N2) as [N'' St''].
      * intros B HB. split; [| apply H; by right]. rewrite elem_of_app, list_elem_of_singleton.
        intros [Q | ->]; [by apply (H B); [right |] | done].
      * exists N''. by rewrite <- app_assoc in St''.
    + rewrite (shatter_keeps l N S A St P EA D). apply (IH l N S St N2). intros B HB. apply H. by right.
Qed.

(** ** The result for a function *)

(** The result is the function with the addresses of fields replaced by variables, which are
    at the start of the entry block, and without the addresses and the allocations. *)
Record scalar_replaced (l : list ref) (N : ref -> nat -> ref) (M' : MIRModule) (G : MIRFunction) : Prop := {
  sr_split : forall A, A ∈ l <-> splits M F A;
  sr_types : types_ok M';
  sr_more : types_grow M M';
  sr_tf : exists news dead, transformed (stands M F l N) news dead F G
    /\ (forall a, a ∈ news <-> exists A j, is_field l A j /\ a = N A j)
    /\ (forall i, i ∈ dead <-> i ∈ l \/ is_Some (address_of M F l i));
  sr_var : forall A j J info ty, A ∈ l -> struct_alloca M F A = Some (J, info) -> st_fields info !! j = Some ty ->
    exists t, insts G !! N A j = Some (field_var F J j ty t) /\ pointer_to M' ty t;
  sr_inj : forall A j A' j', is_field l A j -> is_field l A' j' -> N A j = N A' j' -> A = A' /\ j = j';
}.

Lemma shattering_start : shattering [] (fun _ _ => nullptr) {| changed := false; toDelete := []; s_module := M; s_function := F |}.
Proof.
  assert (No : forall v, address_of M F [] v = None).
  { intros v. destruct (address_of M F [] v) as [[A z] |] eqn:E; [| done].
    apply address_of_some in E as (_ & _ & _ & Q). by apply not_elem_of_nil in Q. }
  split; cbn [s_module s_function toDelete changed].
  - done.
  - done.
  - exists []. split.
    + apply (transformed_ext (fun v => v)); [| apply transformed_refl]. intros v. unfold stands. by rewrite No.
    + intros a. rewrite elem_of_nil. split; [done |]. intros (A & j & [Q _] & _). by apply not_elem_of_nil in Q.
  - intros A j J info ty Q. by apply not_elem_of_nil in Q.
  - intros A j A' j' [Q _]. by apply not_elem_of_nil in Q.
  - intros i. rewrite No, elem_of_nil. split; [done |]. by intros [? | []].
  - done.
Qed.

Lemma NoDup_structAllocas : NoDup (blocks F) -> NoDup (structAllocas M F).
Proof.
  unfold structAllocas. assert (Q : forall bl, (forall b, b ∈ bl -> b ∈ blocks F) -> NoDup bl ->
    NoDup (concat (map (fun b => filter (fun i => is_Some (struct_alloca M F i)) (getInstructions b F)) bl))).
  { induction bl as [| b bl IH]; intros H N; cbn [map concat]; [apply NoDup_nil_2 |]. apply NoDup_cons in N as [N1 N2].
    apply NoDup_app. split_and!.
    - apply NoDup_filter, (ok_nodup _ _ _ O), H. left.
    - intros i [_ Hi]%list_elem_of_filter Q. apply list_elem_of_In, in_concat in Q as (x & Hx & Q).
      apply in_map_iff in Hx as (c & <- & Hc). apply list_elem_of_In in Hc. apply list_elem_of_In, list_elem_of_filter in Q as [_ Q].
      apply N1. rewrite (ok_apart _ _ _ O b c i); [done | apply H; left | apply H; by right | done | done].
    - apply IH; [| done]. intros c Hc. apply H. by right. }
  apply Q. done.
Qed.

(** The cleanup. *)
Lemma shattering_result l N S G dead :
  shattering l N S -> (forall A, A ∈ l <-> splits M F A) -> (forall i, i ∈ dead <-> i ∈ toDelete S) ->
  (forall news, (forall a, a ∈ news -> a ∉ toDelete S) -> transformed (stands M F l N) news [] F (s_function S) ->
     transformed (stands M F l N) news dead F G) ->
  (forall a, a ∉ toDelete S -> insts G !! a = insts (s_function S) !! a) ->
  scalar_replaced l N (s_module S) G.
Proof.
  intros St Hl Hd HT HI. destruct (st_tf _ _ _ St) as (news & T & Hn).
  assert (Nd : forall a, a ∈ news -> a ∉ toDelete S).
  { intros a Ha Q. apply (news_not_placed _ news _ _ a T Ha). apply (st_delete _ _ _ St) in Q as [Q | [[A z] Q]].
    - apply Hl in Q. apply Q.
    - apply address_of_some in Q. apply Q. }
  split.
  - done.
  - apply St.
  - apply St.
  - exists news, dead. split; [by apply HT |]. split; [done |]. intros i. rewrite Hd. apply (st_delete _ _ _ St).
  - intros A j J info ty HA EA Ej. destruct (st_var _ _ _ St A j J info ty HA EA Ej) as (t & E & Pt). exists t.
    split; [| done]. rewrite HI; [done |]. apply Nd, Hn. exists A, j. split; [| done]. split; [done |].
    exists J, info. split; [done | by apply lookup_lt_Some in Ej].
  - apply St.
Qed.

Lemma runOnFunction_spec : NoDup (blocks F) -> exists l N, let '(ch, M', G) := runOnFunction F M in
  scalar_replaced l N M' G /\ more_types M M' /\ (ch = true <-> l <> []).
Proof.
  intros Nb. set (l := filter (fun A => splits M F A) (structAllocas M F)).
  assert (Hl : forall A, A ∈ l <-> splits M F A).
  { intros A. unfold l. rewrite list_elem_of_filter, elem_of_structAllocas. split; [by intros [? _] |].
    intros Sp. split; [done |]. by destruct Sp as (? & ? & _). }
  destruct (shatter_loop (structAllocas M F) [] _ _ shattering_start (NoDup_structAllocas Nb)) as [N St].
  { intros A HA. split; [apply not_elem_of_nil | done]. }
  cbn [app] in St. fold l in St. exists l, N. unfold runOnFunction. destruct (structAllocas M F) as [| A0 As] eqn:EA.
  - cbn [fold_left] in St. split; [| split; [apply (st_more _ _ _ St) | apply (st_changed _ _ _ St)]].
    apply (shattering_result l N _ F [] St Hl); [done | done | done].
  - set (S := fold_left (shatter uses) (A0 :: As) _) in *. split; [| split; [apply (st_more _ _ _ St) | apply (st_changed _ _ _ St)]].
    apply (shattering_result l N S _ (toDelete S) St Hl); [done | |].
    + intros news Nd T. by apply (transformed_erase _ _ []).
    + intros a Ha. destruct (erase_dead_spec (toDelete S) (blocks (s_function S)) (s_function S)) as [_ E _ _ _ _].
      rewrite E. case_decide as D; [by destruct D | done].
Qed.

(** ** What the result keeps *)

Section Result.
Context (l : list ref) (N : ref -> nat -> ref) (M' : MIRModule) (G : MIRFunction) (R : scalar_replaced l N M' G).

(** An instruction that uses an allocation or the address of a field does so by an operand
    that the def-use map records. *)
Definition addresses_recorded F0 : Prop := forall b i k v k',
  b ∈ blocks F0 -> i ∈ getInstructions b F0 -> kind_of i F0 = Some k -> v ∈ value_ops k ->
  kind_of v F0 = Some k' -> match k' with AllocaInst _ _ | GetElementPtrInst _ _ => True | _ => False end ->
  v ∈ recorded k.

Lemma address_dead v : is_Some (address_of M F l v) -> stands M F l N v <> v.
Proof.
  intros [[A z] E]. unfold stands. rewrite E. apply address_of_some in E as (_ & _ & (b & Hb & Hi) & Hl).
  destruct (sr_tf _ _ _ _ R) as (news & dead & T & Hn & _).
  destruct (ok_held _ _ _ O b v Hb Hi) as [J EJ].
  unfold field_number. destruct (struct_alloca M F A) as [[JA info] |] eqn:EA.
  - case_decide as D; [cbn [from_option] | cbn [from_option]; intros <-; by rewrite (wf_null _ (ok_wf _ _ _ O)) in EJ].
    intros Q. apply (news_not_placed _ news _ _ v T); [| by exists b]. apply Hn. exists A, (Z.to_nat (i32 z)).
    split; [| done]. split; [done |]. exists JA, info. split; [done | lia].
  - cbn [from_option]. intros <-. by rewrite (wf_null _ (ok_wf _ _ _ O)) in EJ.
Qed.

(** An allocation that is split has no uses but the addresses of its fields. *)
Lemma split_unused A i k : addresses_recorded F -> splits M F A -> placed F i -> kind_of i F = Some k ->
  A ∈ value_ops k -> is_Some (address_of M F l i).
Proof.
  intros Rc Sp (b & Hb & Hi) K Hv. pose proof Sp as (_ & [[J info] EA] & _ & _).
  destruct (struct_alloca_kind A J info EA) as (EJ & ty & al & KJ & _).
  assert (Hr : A ∈ recorded k).
  { apply (Rc b i k A (AllocaInst ty al)); try done. unfold kind_of. by rewrite EJ, <- KJ. }
  assert (Hu : i ∈ users A uses) by (apply elem_of_users; by exists b, k).
  apply (elem_of_splits_users M F A i Sp) in Hu as (P & ix & z & K' & E). exists (A, z). apply address_of_some.
  split; [by exists ix |]. split_and!; [done | done | by apply (sr_split _ _ _ _ R)].
Qed.

Lemma replaced_entry : blocks F <> [] -> getEntryBlock F ∈ blocks F.
Proof. intros N0. unfold getEntryBlock. destruct (blocks F); [done | left]. Qed.

(** When every use of an allocation or of the address of a field is a recorded one, nothing
    that is left refers to something destroyed. *)
Lemma scalar_replaced_ok : addresses_recorded F -> blocks F <> [] -> fn_ok ext (next_ref G) G.
Proof.
  intros Rc Ne. destruct (sr_tf _ _ _ _ R) as (news & dead & T & Hn & Hd).
  pose proof (stands_substitutes l N news Hn) as Sub.
  apply (transformed_ok ext (stands M F l N) news dead F G (next_ref F) (next_ref G) O T).
  - apply (tf_next _ _ _ _ _ T).
  - intros a Ha. by destruct (tf_new _ _ _ _ _ T a Ha).
  - by apply replaced_entry.
  - intros i k P [Q | [[A z] Q]]%Hd K.
    + apply (sr_split _ _ _ _ R) in Q as (_ & [[J info] EA] & _). apply struct_alloca_kind in EA as (EJ & ty & al & KJ & _).
      unfold kind_of in K. rewrite EJ in K. injection K as <-. by rewrite KJ.
    + apply address_of_some in Q as ((ix & K') & _). by rewrite K in K'; injection K' as ->.
  - intros v Nv. by destruct (Sub v Nv).
  - intros v Nv. destruct (Sub v Nv) as [_ [-> | Q]]; [right | by left]. split_and!; [by left | | done |].
    + intros [Q | [[A z] Q]]%Hd.
      * apply (sr_split _ _ _ _ R) in Q as (_ & [[J info] EA] & _). apply struct_alloca_kind in EA as (EJ & _).
        by rewrite (wf_null _ (ok_wf _ _ _ O)) in EJ.
      * apply address_of_some in Q as ((ix & K') & _). by rewrite (fn_ok_null _ _ _ O) in K'.
    + intros k K. by rewrite (fn_ok_null _ _ _ O) in K.
  - intros i k v P Nd K Hv [Q | Q]%Hd; [| by apply address_dead].
    exfalso. apply Nd, Hd. right. apply (sr_split _ _ _ _ R) in Q. by apply (split_unused v i k).
Qed.

Lemma recorded_map f k : recorded (map_values f k) = map f (recorded k).
Proof. by destruct k. Qed.

(** An operand of what is left was an operand of an instruction that was there. *)
Lemma replaced_operand b i k v : b ∈ blocks F -> i ∈ getInstructions b G -> kind_of i G = Some k -> v ∈ value_ops k ->
  exists k0 w, i ∈ getInstructions b F /\ kind_of i F = Some k0 /\ w ∈ value_ops k0
    /\ k = map_values (stands M F l N) k0 /\ v = stands M F l N w.
Proof.
  intros Hb Hi K Hv. destruct (sr_tf _ _ _ _ R) as (news & dead & T & Hn & Hd).
  destruct (tr_origin ext _ news dead F G (next_ref F) (next_ref G) O T (tf_next _ _ _ _ _ T)
    (fun a Ha => proj1 (tf_new _ _ _ _ _ T a Ha)) b i k Hb Hi K) as [[_ (E & _)] | (Nd & Hi' & k0 & K0 & ->)].
  - rewrite E in Hv. by apply not_elem_of_nil in Hv.
  - rewrite value_ops_map in Hv. apply list_elem_of_fmap in Hv as (w & -> & Hw). by exists k0, w.
Qed.

(** A value that nothing stands for is what it was. *)
Lemma replaced_same w : blocks F <> [] -> stands M F l N w = w -> alive ext F w -> w ∉ l ->
  insts G !! w = map_inst (stands M F l N) <$> insts F !! w \/ insts G !! w = insts F !! w.
Proof.
  intros Ne E Al Nl. destruct (sr_tf _ _ _ _ R) as (news & dead & T & Hn & Hd).
  assert (Nd : w ∉ dead) by (intros [Q | Q]%Hd; [done | by apply (address_dead w Q)]).
  destruct (decide (placed F w)) as [P | P]; [left; by apply (tf_kept _ _ _ _ _ T) |]. right.
  apply (tf_unplaced _ _ _ _ _ T w P). intros Q. destruct (tf_new _ _ _ _ _ T w Q) as [L _].
  destruct Al as [-> | [Al | [Al | Al]]].
  - pose proof (ok_block_fresh _ _ _ O _ (wf_heap _ (ok_wf _ _ _ O) _ (replaced_entry Ne))). unfold nullptr in L. lia.
  - apply (ok_inst_fresh _ _ _ O) in Al. lia.
  - apply (ok_block_fresh _ _ _ O) in Al. lia.
  - apply (ok_ext_fresh _ _ _ O) in Al. lia.
Qed.

(** An operand of an instruction that is left is no split allocation. *)
Lemma operand_not_split b i k w : addresses_recorded F -> b ∈ blocks F -> i ∈ getInstructions b F ->
  i ∈ getInstructions b G -> kind_of i F = Some k -> w ∈ value_ops k -> w ∉ l.
Proof.
  intros Rc Hb Hi Hi' K Hw Hl. destruct (sr_tf _ _ _ _ R) as (news & dead & T & Hn & Hd).
  apply (tr_in _ news dead F G T b i Hb) in Hi' as [[_ Q] | [Nd _]].
  - apply (news_not_placed _ news _ _ i T Q). by exists b.
  - apply Nd, Hd. right. apply (split_unused w i k Rc); [by apply (sr_split _ _ _ _ R) | by exists b | done | done].
Qed.

Lemma address_replaced v A z : address_of M F l v = Some (A, z) ->
  stands M F l N v = from_option (N A) nullptr (field_number M F A z).
Proof. intros E. unfold stands. by rewrite E. Qed.

Lemma stands_address v : stands M F l N v <> v -> exists A z, address_of M F l v = Some (A, z).
Proof. unfold stands. destruct (address_of M F l v) as [[A z] |]; [by exists A, z | done]. Qed.

(** The uses of addresses stay recorded ones. *)
Lemma addresses_kept : addresses_recorded F -> addresses_recorded G.
Proof.
  intros Rc b i k v k' Hb Hi K Hv Kv Ad. destruct (sr_tf _ _ _ _ R) as (news & dead & T & _).
  rewrite (tf_blocks _ _ _ _ _ T) in Hb. assert (Ne : blocks F <> []) by (intros E; rewrite E in Hb; by apply not_elem_of_nil in Hb).
  destruct (replaced_operand b i k v Hb Hi K Hv) as (k0 & w & Hi0 & K0 & Hw & -> & ->).
  rewrite recorded_map. apply list_elem_of_fmap_2. destruct (decide (stands M F l N w = w)) as [E | E].
  - rewrite E in Kv. pose proof (operand_not_split b i k0 w Rc Hb Hi0 Hi K0 Hw) as Nl.
    pose proof (ok_values _ _ _ O b i k0 w Hb Hi0 K0 Hw) as Al.
    assert (Q : exists kw, kind_of w F = Some kw /\ match kw with AllocaInst _ _ | GetElementPtrInst _ _ => True | _ => False end).
    { unfold kind_of in Kv |- *. destruct (replaced_same w Ne E Al Nl) as [Q | Q]; rewrite Q in Kv;
        (destruct (insts F !! w) as [J |]; [| done]); exists (i_kind J); (split; [done |]); injection Kv as <-; [| done].
      cbn in Ad. by destruct (i_kind J). }
    destruct Q as (kw & Kw & Aw). by apply (Rc b i k0 w kw).
  - apply stands_address in E as (A & z & E). apply address_of_some in E as ((ix & Kw) & _).
    by apply (Rc b i k0 w (GetElementPtrInst A ix)).
Qed.

(** The addresses of the fields of split allocations have the types of pointers to the fields. *)
Definition typed_addresses : Prop := forall A J info v ix z,
  splits M F A -> struct_alloca M F A = Some (J, info) -> placed F v -> kind_of v F = Some (GetElementPtrInst A ix) ->
  field_access M F v = Some z ->
  exists j ty Jv, field_number M F A z = Some j /\ st_fields info !! j = Some ty /\ insts F !! v = Some Jv
    /\ pointer_to M ty (i_type Jv).

(** Then every operand keeps its type. *)
Lemma replaced_type argType b i k w : typed_addresses -> addresses_recorded F -> b ∈ blocks F ->
  i ∈ getInstructions b F -> i ∈ getInstructions b G -> kind_of i F = Some k -> w ∈ value_ops k ->
  getType argType G M' (stands M F l N w) = getType argType F M w.
Proof.
  intros Ta Rc Hb Hi Hi' K Hw. assert (Ne : blocks F <> []) by (intros E; rewrite E in Hb; by apply not_elem_of_nil in Hb).
  pose proof (sr_more _ _ _ _ R) as Mo. unfold getType. rewrite (tg_consts _ _ Mo), (tg_globs _ _ Mo).
  destruct (decide (stands M F l N w = w)) as [E | E].
  - rewrite E. pose proof (operand_not_split b i k w Rc Hb Hi Hi' K Hw) as Nl.
    pose proof (ok_values _ _ _ O b i k w Hb Hi K Hw) as Al.
    destruct (replaced_same w Ne E Al Nl) as [-> | ->]; [| done]. by destruct (insts F !! w).
  - apply stands_address in E as (A & z & E). rewrite (address_replaced w A z E).
    pose proof E as Q. apply address_of_some in Q as ((ix & Kw) & Ew & Pw & Hl).
    pose proof (proj1 (sr_split _ _ _ _ R A) Hl) as Sp. pose proof Sp as (_ & [[J info] EA] & _).
    destruct (Ta A J info w ix z Sp EA Pw Kw Ew) as (j & ty & Jv & -> & Ej & -> & Pt). cbn [from_option].
    destruct (sr_var _ _ _ _ R A j J info ty Hl EA Ej) as (t & -> & Pt'). cbn [field_var i_type].
    apply (pointer_to_unique M' ty); [done | by apply (pointer_to_more M)].
Qed.

End Result.
End Split.
