(* ===== verification/SROAClaims.v ===== *)
(** * Scalar replacement: what the pass promises

    A run of the pass on a module: every function is the one before with the addresses of the
    fields of some structs replaced by variables; it keeps its invariant, and the types of its
    operands, when the uses of addresses are among those that the pass records. *)

From S2P Require Import Prelude Diag HIRType MIR MIRFacts SimplifyCFG SimplifyCFGProps MIRModule MIRUses ConstFold ConstFoldModule Transform DCEModule DefUse SROA SROAProps.

Implicit Types (F G : MIRFunction) (M : MIRModule) (b f g i v : ref) (k : InstKind).

(** ** Results in a module with more types *)

Lemma scalar_replaced_grow M F l N M1 G M2 :
  scalar_replaced M F l N M1 G -> types_grow M1 M2 -> types_ok M2 -> scalar_replaced M F l N M2 G.
Proof.
  intros [R1 R2 R3 R4 R5 R6] Gr Ty. split; try done; [by transitivity M1 |].
  intros A j J info ty HA EA Ej. destruct (R5 A j J info ty HA EA Ej) as (t & E & P). exists t. split; [done |].
  by apply (pointer_to_more M1).
Qed.

Section Earlier.
Context (M0 M : MIRModule) (F : MIRFunction) (Gr : types_grow M0 M).
Context (Same : forall i, struct_alloca M F i = struct_alloca M0 F i).

Lemma field_access_earlier v : field_access M F v = field_access M0 F v.
Proof. unfold field_access, int_value, const_of. by rewrite (tg_consts _ _ Gr). Qed.

Lemma splits_earlier A : splits M F A <-> splits M0 F A.
Proof.
  unfold splits. rewrite Same, !Forall_forall. setoid_rewrite field_access_earlier. done.
Qed.

Lemma stands_earlier l N v : stands M F l N v = stands M0 F l N v.
Proof.
  unfold stands, address_of, field_number. rewrite field_access_earlier.
  destruct (kind_of v F) as [[] |]; try done. destruct (field_access M0 F v); [| done].
  case_decide; [| done]. by rewrite Same.
Qed.

Lemma address_earlier l v : address_of M F l v = address_of M0 F l v.
Proof. unfold address_of. by rewrite field_access_earlier. Qed.

Lemma scalar_replaced_earlier l N M' G : scalar_replaced M F l N M' G -> scalar_replaced M0 F l N M' G.
Proof.
  assert (Fi : forall A j, is_field M F l A j <-> is_field M0 F l A j).
  { intros A j. unfold is_field. by setoid_rewrite Same. }
  intros [R1 R2 R3 (news & dead & T & Hn & Hd) R5 R6]. split.
  - intros A. by rewrite R1, splits_earlier.
  - done.
  - by transitivity M.
  - exists news, dead. split; [apply (transformed_ext (stands M F l N)); [intros; apply stands_earlier | done] |]. split.
    + intros a. rewrite Hn. by setoid_rewrite Fi.
    + intros i. by rewrite Hd, address_earlier.
  - intros A j J info ty HA EA Ej. rewrite <- Same in EA. by apply (R5 A j J info ty).
  - intros A j A' j' Q Q'. rewrite <- Fi in Q, Q'. by apply R6.
Qed.

End Earlier.

(** ** Modules *)

Section Module_.
Context (other : ref -> Prop).

Record sroa_function M F : Prop := {
  sf_blocks : NoDup (blocks F);
  sf_null : ~ has_block nullptr F;
  sf_recorded : addresses_recorded F;
  sf_types : forall i ty al, kind_of i F = Some (AllocaInst ty al) -> (ty < m_next_type M)%N;
}.

(** Modules in order: the invariant of every function, types that were made before they are
    used, and structs with less than 2^31 fields. *)
Record sroa_module M : Prop := {
  sm_ok : module_ok other M;
  sm_types : types_ok M;
  sm_fields : forall t info, m_types M !! t = Some (StructType info) ->
    (Z.of_nat (length (st_fields info)) < 2 ^ 31)%Z /\ forall ty, ty ∈ st_fields info -> (ty < m_next_type M)%N;
  sm_null : consts M !! nullptr = None;
  sm_functions : NoDup (functions M);
  sm_cache : functionsDirty M = false -> functionCache M = functions M;
  sm_fns : forall f func, fns M !! f = Some func -> sroa_function M (fn_body func);
}.

Lemma sroa_function_grow M M' n F : (m_next_type M <= m_next_type M')%N -> sroa_function M F -> sroa_function M' (with_next n F).
Proof.
  intros L [A1 A2 A3 A4]. split; try done. intros i ty al K. specialize (A4 i ty al K). lia.
Qed.

(** The fields of a module that a result needs. *)
Lemma small_structs M F : sroa_module M ->
  forall A J info, struct_alloca M F A = Some (J, info) -> (Z.of_nat (length (st_fields info)) < 2 ^ 31)%Z.
Proof.
  intros SM A J info E. apply struct_alloca_kind in E as (_ & ty & al & _ & E). by apply (sm_fields _ SM ty).
Qed.

Lemma outside_consts M v : is_Some (consts M !! v) -> outside other M v.
Proof. by left. Qed.

(** A later module sees the same structs in a function. *)
Lemma struct_alloca_later M0 M F i : types_grow M0 M ->
  (forall i ty al, kind_of i F = Some (AllocaInst ty al) -> (ty < m_next_type M0)%N) ->
  struct_alloca M F i = struct_alloca M0 F i.
Proof.
  intros Gr Ty. unfold struct_alloca. destruct (insts F !! i) as [J |] eqn:E; [| done].
  destruct (i_kind J) eqn:K; try done. rewrite (tg_old _ _ Gr); [done |].
  apply (Ty i _ alignment). unfold kind_of. by rewrite E, <- K.
Qed.

(** What becomes of a function: a declaration stays, the body of another is replaced. *)
Definition function_replaced M0 M' (func func' : Function_) : Prop :=
  if isDeclaration (fn_body func) then func' = func
  else exists n l N, (m_next M0 <= n)%N /\ scalar_replaced M0 (with_next n (fn_body func)) l N M' (fn_body func').

Lemma body_ok M f func n : sroa_module M -> fns M !! f = Some func -> (m_next M <= n)%N ->
  fn_ok (outside other M) n (with_next n (fn_body func)).
Proof.
  intros SM E L. apply (fn_ok_extend (outside other M) _ (m_next M)); [| done | | done].
  - destruct (mo_fns _ _ (sm_ok _ SM) f func E) as [[? ? ?] [? ?] ? ? ? ? ? ? ? ? ? ? ? ? ? ?]. split; try done; by split.
  - intros v Hv. split; [by left |]. pose proof (mo_outside _ _ (sm_ok _ SM) v Hv). lia.
Qed.

(** The new body in the module. *)
Lemma sroa_module_set_body M M1 f func G :
  sroa_module M -> more_types M M1 -> types_ok M1 -> fns M !! f = Some func ->
  (m_next M <= next_ref G)%N -> fn_ok (outside other M) (next_ref G) G -> sroa_function M1 G ->
  sroa_module (set_body f G (set_next (next_ref G) M1)).
Proof.
  intros SM [E1 E2 E3 E4 E5 Gr] Ty Ef L OG FG. pose proof SM as [[K1 K2 K3] _ S3 S4 S5 S6 S7].
  assert (Out : forall v, outside other (set_body f G (set_next (next_ref G) M1)) v <-> outside other M v).
  { intros v. unfold outside. cbn. by rewrite (tg_consts _ _ Gr), (tg_globs _ _ Gr). }
  assert (Get : forall g gunc, fns (set_body f G (set_next (next_ref G) M1)) !! g = Some gunc ->
    (g = f /\ fn_body gunc = G) \/ fns M !! g = Some gunc).
  { intros g gunc E. cbn in E. rewrite E1 in E. destruct (decide (g = f)) as [-> | N].
    - left. rewrite lookup_alter_eq, Ef in E. injection E as <-. done.
    - right. by rewrite lookup_alter_ne in E. }
  split.
  - split.
    + intros g gunc [[-> ->] | E]%Get.
      * apply (fn_ok_extend (outside other M) _ (next_ref G)); [done | intros v; apply Out | | done].
        intros v Hv. apply Out in Hv. split; [by left |]. by apply (ok_ext_fresh _ _ _ OG).
      * apply (fn_ok_extend (outside other M) _ (m_next M)); [by apply (K1 g) | intros v; apply Out | | done].
        intros v Hv. apply Out in Hv. split; [by left |]. specialize (K2 v Hv). cbn. lia.
    + intros v Hv. apply Out, K2 in Hv. cbn. lia.
    + intros g Gl E N. cbn in *. rewrite (tg_globs _ _ Gr) in E. rewrite (tg_consts _ _ Gr). by apply (K3 g).
  - by destruct Ty.
  - intros t info E. cbn in E |- *. pose proof (tg_next _ _ Gr). destruct (tg_new _ _ Gr t _ E) as [Q | (? & ? & ? & Q)]; [| done].
    destruct (S3 t info Q) as [Q1 Q2]. split; [done |]. intros ty Hty. specialize (Q2 ty Hty). lia.
  - cbn. by rewrite (tg_consts _ _ Gr).
  - cbn. by rewrite E2.
  - cbn. by rewrite E2, E3, E4.
  - intros g gunc [[-> ->] | E]%Get; [by destruct FG; split |].
    destruct (S7 g gunc E) as [Q1 Q2 Q3 Q4]. split; [done | done | done |]. intros i ty al K. specialize (Q4 i ty al K).
    cbn. pose proof (tg_next _ _ Gr). lia.
Qed.

Lemma sroa_function_replaced M F l N M1 G :
  sroa_module M -> fn_ok (outside other M) (next_ref F) F -> sroa_function M F -> scalar_replaced M F l N M1 G ->
  sroa_function M1 G.
Proof.
  intros SM O [F1 F2 F3 F4] R. pose proof (tg_next _ _ (sr_more _ _ _ _ _ _ R)) as Le.
  pose proof (addresses_kept (outside other M) M F O l N M1 G R F3) as Rc.
  destruct (sr_tf _ _ _ _ _ _ R) as (news & dead & T & Hn & Hd). split.
  - by rewrite (tf_blocks _ _ _ _ _ T).
  - by rewrite (tf_has _ _ _ _ _ T).
  - done.
  - intros i ty al K. destruct (decide (i ∈ news)) as [Hi | Hi].
    + apply Hn in Hi as (A & j & (HA & J & info & EA & Lj) & ->). apply lookup_lt_is_Some in Lj as [ty' Ej].
      destruct (sr_var _ _ _ _ _ _ R A j J info ty' HA EA Ej) as (t & E & _). unfold kind_of in K. rewrite E in K.
      injection K as -> _. apply struct_alloca_kind in EA as (_ & sty & _ & _ & Es).
      destruct (sm_fields _ SM sty info Es) as [_ Q]. specialize (Q ty (list_elem_of_lookup_2 _ _ _ Ej)). lia.
    + destruct (tr_kind _ _ news dead F G (next_ref F) (next_ref G) O T (tf_next _ _ _ _ _ T)
        (fun a Ha => proj1 (tf_new _ _ _ _ _ T a Ha)) i _ K) as [[Q _] | (_ & k0 & K0 & Q)]; [done |].
      assert (k0 = AllocaInst ty al) as -> by (destruct Q as [Q | <-]; [| done]; destruct k0; try done; by injection Q as -> ->).
      specialize (F4 i ty al K0). lia.
Qed.

Lemma replace_function_ok M f ch : sroa_module M ->
  let M2 := snd (run_function (ch, M) f) in
  sroa_module M2 /\ types_grow M M2 /\ functions M2 = functions M /\ (m_next M <= m_next M2)%N
  /\ (forall g, g <> f -> fns M2 !! g = fns M !! g)
  /\ forall func, fns M !! f = Some func -> exists func', fns M2 !! f = Some func' /\ function_replaced M M2 func func'.
Proof.
  intros SM. unfold run_function, body. destruct (fns M !! f) as [func |] eqn:Ef; [| by split_and!].
  unfold function_replaced. destruct (isDeclaration (fn_body func)) eqn:Dc.
  { cbn [snd]. split_and!; try done. intros func0 [= <-]. exists func. by rewrite Dc. }
  set (F := with_next (m_next M) (fn_body func)).
  pose proof (body_ok M f func (m_next M) SM Ef (N.le_refl _)) as O.
  pose proof (sroa_function_grow M M (m_next M) _ (N.le_refl _) (sm_fns _ SM f func Ef)) as FF. fold F in FF.
  assert (Ne : blocks F <> []) by (intros E; unfold isDeclaration in Dc; by rewrite bool_decide_eq_true_2 in Dc).
  destruct (runOnFunction_spec (outside other M) M F O (sf_null _ _ FF) (outside_consts M) (sm_null _ SM) (sm_types _ SM)
    (small_structs M F SM) (sf_blocks _ _ FF)) as (l & N & Q).
  destruct (runOnFunction F M) as [[c M1] G]. destruct Q as (R & Mt & _). cbn [snd].
  pose proof (scalar_replaced_ok (outside other M) M F O (sf_null _ _ FF) l N M1 G R (sf_recorded _ _ FF) Ne) as OG.
  destruct (sr_tf _ _ _ _ _ _ R) as (news & dead & T & _). pose proof (tf_next _ _ _ _ _ T) as Le. cbn in Le.
  pose proof (sroa_module_set_body M M1 f func G SM Mt (sr_types _ _ _ _ _ _ R) Ef Le OG
    (sroa_function_replaced M F l N M1 G SM O FF R)) as SM2.
  set (M2 := set_body f G (set_next (next_ref G) M1)) in *.
  assert (Gr : types_grow M1 M2) by (by split; try done; left).
  split_and!.
  - done.
  - transitivity M1; [apply Mt | done].
  - apply (mt_functions _ _ Mt).
  - done.
  - intros g Ng. unfold M2. cbn. by rewrite (mt_fns _ _ Mt), lookup_alter_ne.
  - intros func0 [= <-]. exists {| fn_name := fn_name func; fn_body := G |}. rewrite Dc. split.
    + unfold M2. cbn. by rewrite (mt_fns _ _ Mt), lookup_alter_eq, Ef.
    + exists (m_next M), l, N. split; [done |]. by apply (scalar_replaced_grow M F l N M1); [| | apply SM2].
Qed.

(** The functions that have been gone through, and the others. *)
Definition replaced_upto M0 (pre : list ref) M : Prop :=
  sroa_module M /\ types_grow M0 M /\ functions M = functions M0 /\ (m_next M0 <= m_next M)%N
  /\ forall f, if decide (f ∈ pre)
      then forall func, fns M0 !! f = Some func -> exists func', fns M !! f = Some func' /\ function_replaced M0 M func func'
      else fns M !! f = fns M0 !! f.

Lemma function_replaced_grow M0 M M' func func' :
  function_replaced M0 M func func' -> types_grow M M' -> types_ok M' -> function_replaced M0 M' func func'.
Proof.
  unfold function_replaced. destruct (isDeclaration (fn_body func)); [done |].
  intros (n & l & N & L & R) Gr Ty. exists n, l, N. split; [done |]. by apply (scalar_replaced_grow _ _ _ _ M).
Qed.

Lemma function_replaced_earlier M0 M M' func func' : types_grow M0 M -> (m_next M0 <= m_next M)%N -> sroa_function M0 (fn_body func) ->
  function_replaced M M' func func' -> function_replaced M0 M' func func'.
Proof.
  unfold function_replaced. destruct (isDeclaration (fn_body func)); [done |].
  intros Gr Le FF (n & l & N & L & R). exists n, l, N. split; [lia |]. apply (scalar_replaced_earlier M0 M _ Gr); [| done].
  intros i. by apply (struct_alloca_later M0 M); [| apply (sf_types _ _ FF)].
Qed.

Lemma replace_functions_ok M0 l : sroa_module M0 -> forall pre ch M, replaced_upto M0 pre M -> NoDup (pre ++ l) ->
  replaced_upto M0 (pre ++ l) (snd (fold_left run_function l (ch, M))).
Proof.
  intros SM0. induction l as [| f l IH]; intros pre ch M (SM & Gr & Ef & Le & H) Nd; cbn [fold_left]; [by rewrite app_nil_r |].
  destruct (replace_function_ok M f ch SM) as (SM' & Gr' & Ef' & Le' & Other & New).
  destruct (run_function (ch, M) f) as [ch' M']. cbn [snd] in *.
  assert (Nf : f ∉ pre) by (apply NoDup_app in Nd as (_ & Nd & _); intros Q; apply (Nd f Q); left).
  replace (pre ++ f :: l) with ((pre ++ [f]) ++ l) in * by by rewrite <- app_assoc.
  apply IH; [| done]. split_and!; [done | by transitivity M | by rewrite Ef' | lia |].
  intros g. specialize (H g). destruct (decide (g = f)) as [-> | Ng].
  - rewrite decide_True by (apply elem_of_app; right; left). rewrite decide_False in H by done.
    intros func E. rewrite <- H in E. destruct (New func E) as (func' & E' & R). exists func'. split; [done |].
    apply (function_replaced_earlier M0 M M'); [done | done | | done]. apply (sm_fns _ SM0 f). by rewrite <- H.
  - rewrite Other by done. rewrite (decide_ext (g ∈ pre ++ [f]) (g ∈ pre)) by (rewrite elem_of_app, list_elem_of_singleton; tauto).
    case_decide; [| done]. intros func E. destruct (H func E) as (func' & E' & R). exists func'. split; [done |].
    by apply (function_replaced_grow M0 M); [| | apply SM'].
Qed.

Lemma run_module_ok M : sroa_module M ->
  let M' := snd (runOnModule M) in
  sroa_module M' /\ types_grow M M' /\ functions M' = functions M
  /\ forall f func, fns M !! f = Some func -> f ∈ functions M ->
       exists func', fns M' !! f = Some func' /\ function_replaced M M' func func'.
Proof.
  intros SM. unfold runOnModule.
  assert (G0 : exists M0, getFunctions M = (functions M, M0) /\ replaced_upto M [] M0).
  { assert (All : forall M1, fns M1 = fns M -> (m_next M <= m_next M1)%N -> sroa_module M1 -> types_grow M M1 -> functions M1 = functions M ->
      replaced_upto M [] M1).
    { intros M1 E Le SM1 Gr Ef. split_and!; [done | done | done | done |]. intros f. rewrite decide_False by apply not_elem_of_nil. by rewrite E. }
    unfold getFunctions. destruct (functionsDirty M) eqn:D; eexists.
    - split; [done |]. apply All; [done | done | | by split; try done; left | done].
      destruct SM as [[? ? ?] [? ?] ? ? ? ? S7]; split; try done; try by split.
      intros f func E. by destruct (S7 f func E); split.
    - split; [by rewrite (sm_cache _ SM D) | by apply All]. }
  destruct G0 as (M0 & -> & U). pose proof (replace_functions_ok M (functions M) SM [] false M0 U (sm_functions _ SM)) as Q.
  destruct (fold_left run_function (functions M) (false, M0)) as [ch M']. cbn [snd] in *.
  destruct Q as (Q1 & Q2 & Q3 & _ & Q4). split_and!; [done | done | done |]. intros f func E Hf. specialize (Q4 f).
  rewrite decide_True in Q4 by done. by apply Q4.
Qed.

(** C7: scalar replacement.  On a module in order, in which allocations and addresses of fields
    are used only by the operands that the pass records, a run of the pass keeps the module in
    order and makes of every function with a body the function in which exactly the structs
    that are used only through the addresses of their fields are split: there is a variable
    for each field, of the type of the field, at the start of the entry block; the addresses
    are replaced by the variables (by null, when the index is no field), and they and the
    structs are gone.  Nothing refers to something destroyed. *)
Theorem sroa_correct M : sroa_module M ->
  let M' := snd (runOnModule M) in
  sroa_module M' /\ functions M' = functions M
  /\ forall f func, fns M !! f = Some func -> f ∈ functions M ->
       exists func', fns M' !! f = Some func' /\ function_replaced M M' func func'.
Proof. intros SM. by destruct (run_module_ok M SM) as (? & _ & ? & ?). Qed.

(** Types.  When moreover the addresses of the fields of split structs have the types of
    pointers to the fields, as the builder makes them, every operand of an instruction that is
    left has the type of the operand that stood in its place. *)
Theorem sroa_types argType M f func :
  sroa_module M -> fns M !! f = Some func -> f ∈ functions M -> isDeclaration (fn_body func) = false ->
  typed_addresses M (fn_body func) ->
  let M' := snd (runOnModule M) in
  exists func', fns M' !! f = Some func'
    /\ forall b i k', b ∈ blocks (fn_body func') -> i ∈ getInstructions b (fn_body func') ->
         kind_of i (fn_body func') = Some k' ->
         value_ops k' = []
         \/ exists k, kind_of i (fn_body func) = Some k
              /\ Forall2 (fun v v' => getType argType (fn_body func') M' v' = getType argType (fn_body func) M v)
                   (value_ops k) (value_ops k').
Proof.
  intros SM E Hf Dc Ta. destruct (run_module_ok M SM) as (_ & _ & _ & R). destruct (R f func E Hf) as (func' & E' & Q).
  cbn zeta. set (M' := snd (runOnModule M)) in *. exists func'. split; [done |]. unfold function_replaced in Q. rewrite Dc in Q.
  destruct Q as (n & l & N & L & Q). set (F := with_next n (fn_body func)) in *. set (G := fn_body func') in *.
  pose proof (body_ok M f func n SM E L) as O. fold F in O.
  destruct (sr_tf _ _ _ _ _ _ Q) as (news & dead & T & _). intros b i k' Hb Hi K. rewrite (tf_blocks _ _ _ _ _ T) in Hb.
  destruct (tr_origin _ _ news dead F G n (next_ref G) O T (tf_next _ _ _ _ _ T)
    (fun a Ha => proj1 (tf_new _ _ _ _ _ T a Ha)) b i k' Hb Hi K) as [[_ (U & _)] | (Nd & Hi' & k & K0 & ->)]; [by left | right].
  exists k. split; [done |]. rewrite value_ops_map. apply Forall2_fmap_r, Forall_Forall2_diag, Forall_forall. intros w Hw.
  apply (replaced_type (outside other M) M F O l N M' G Q argType b i k); try done. apply (sm_fns _ SM f func E).
Qed.


End Module_.

(** ** Uses that the pass does not record *)

(** C40: a use that is not recorded is left dangling.  When a struct is split, every instruction
    of a block that uses it otherwise is left with a pointer to the destroyed allocation: a
    return, a phi, an invoke, a comparison, or any other subclass that the def-use map has no
    case for. *)
Theorem unrecorded_use_dangles (ext : ref -> Prop) M F i k A :
  fn_ok ext (next_ref F) F -> ~ has_block nullptr F -> (forall v, is_Some (consts M !! v) -> ext v) ->
  consts M !! nullptr = None -> types_ok M ->
  (forall A J info, struct_alloca M F A = Some (J, info) -> (Z.of_nat (length (st_fields info)) < 2 ^ 31)%Z) ->
  NoDup (blocks F) ->
  splits M F A -> placed F i -> kind_of i F = Some k -> A ∈ value_ops k -> field_access M F i = None ->
  let G := snd (runOnFunction F M) in
  insts G !! A = None /\ placed G i /\ exists k', kind_of i G = Some k' /\ A ∈ value_ops k'.
Proof.
  intros O Nb Cx C0 Ty Sm Nd Sp P K HA Fa. destruct (runOnFunction_spec ext M F O Nb Cx C0 Ty Sm Nd) as (l & N & Q).
  destruct (runOnFunction F M) as [[c M'] G]. destruct Q as (R & _ & _). cbn [snd].
  destruct (sr_tf _ _ _ _ _ _ R) as (news & dead & T & Hn & Hd). pose proof Sp as (PA & [[J info] EA] & _).
  destruct (struct_alloca_kind M F A J info EA) as (EJ & ty & al & KJ & _).
  assert (Ni : i ∉ dead).
  { intros [Q | [[B z] Q]]%Hd.
    - apply (sr_split _ _ _ _ _ _ R) in Q as (_ & [[JB ib] EB] & _). apply struct_alloca_kind in EB as (EB & ? & ? & KB & _).
      unfold kind_of in K. rewrite EB in K. injection K as <-. rewrite KB in HA. by apply not_elem_of_nil in HA.
    - apply address_of_some in Q as (_ & Q & _). by rewrite Fa in Q. }
  split_and!.
  - apply (tf_dead _ _ _ _ _ T A PA), Hd. left. by apply (sr_split _ _ _ _ _ _ R).
  - apply (tf_placed _ _ _ _ _ T). by right.
  - exists (map_values (stands M F l N) k). rewrite (tr_kept _ _ _ _ _ T i P Ni), K. split; [done |].
    rewrite value_ops_map. apply list_elem_of_fmap. exists A. split; [| done]. unfold stands.
    destruct (address_of M F l A) as [[B z] |] eqn:E; [| done]. apply address_of_some in E as ((ix & Q) & _).
    unfold kind_of in Q. rewrite EJ in Q. cbn in Q. by rewrite KJ in Q.
Qed.

(** ** Deciding the hypotheses on a concrete module *)

Definition addresses_recorded_b F : bool :=
  placed_b F (fun _ _ k => forallb (fun v =>
    match kind_of v F with
    | Some (AllocaInst _ _) | Some (GetElementPtrInst _ _) => bool_decide (v ∈ recorded k)
    | _ => true
    end) (value_ops k)).

Lemma addresses_recorded_b_spec F : addresses_recorded_b F = true -> addresses_recorded F.
Proof.
  intros Q b i k v k' Hb Hi K Hv Kv Ad. pose proof (placed_b_spec _ _ Q b i k Hb Hi K) as Q'.
  apply (forallb_elem _ _ Q') in Hv. rewrite Kv in Hv. destruct k'; try done; by apply bool_decide_eq_true in Hv.
Qed.

Definition sroa_function_b M F : bool :=
  bool_decide (NoDup (blocks F)) && negb (bool_decide (is_Some (bbs F !! nullptr))) && addresses_recorded_b F
  && forallb (fun '(_, J) => match i_kind J with AllocaInst ty _ => N.ltb ty (m_next_type M) | _ => true end)
       (map_to_list (insts F)).

Lemma sroa_function_b_spec M F : sroa_function_b M F = true -> sroa_function M F.
Proof.
  unfold sroa_function_b. rewrite !andb_true_iff, negb_true_iff, bool_decide_eq_true, bool_decide_eq_false.
  intros [[[Q1 Q2] Q3] Q4]. split; [done | done | by apply addresses_recorded_b_spec |]. intros i ty al K. unfold kind_of in K.
  destruct (insts F !! i) as [J |] eqn:E; [| done]. injection K as K. apply elem_of_map_to_list in E.
  apply (forallb_elem _ _ Q4) in E. rewrite K in E. by apply N.ltb_lt.
Qed.

Definition types_ok_b M : bool :=
  forallb (fun '(t, p) => bool_decide (m_types M !! p = Some (PointerType t Ownership.None_ BorrowState.None_)))
    (map_to_list (pointerTypeCache M))
  && forallb (fun '(t, y) => N.ltb t (m_next_type M)
       && match y with
          | StructType info => (Z.of_nat (length (st_fields info)) <? 2 ^ 31)%Z
              && forallb (fun ty => N.ltb ty (m_next_type M)) (st_fields info)
          | _ => true
          end) (map_to_list (m_types M)).

Lemma types_ok_b_spec M : types_ok_b M = true ->
  types_ok M /\ forall t info, m_types M !! t = Some (StructType info) ->
    (Z.of_nat (length (st_fields info)) < 2 ^ 31)%Z /\ forall ty, ty ∈ st_fields info -> (ty < m_next_type M)%N.
Proof.
  unfold types_ok_b. rewrite andb_true_iff. intros [Q1 Q2]. split; [split |].
  - intros t p E. apply elem_of_map_to_list, (forallb_elem _ _ Q1) in E. by apply bool_decide_eq_true in E.
  - intros t [y E]. apply elem_of_map_to_list, (forallb_elem _ _ Q2) in E. apply andb_true_iff in E as [E _]. by apply N.ltb_lt.
  - intros t info E. apply elem_of_map_to_list, (forallb_elem _ _ Q2) in E. rewrite !andb_true_iff, Z.ltb_lt in E.
    destruct E as (_ & E1 & E2). split; [done |]. intros ty Hty. by apply N.ltb_lt, (forallb_elem _ _ E2).
Qed.

(** ** At concrete modules *)

(** [4] is a struct of two numbers and [10] the pointers to a number. *)
Definition pair_types : TypeHeap := <[4%N := StructType (mkStruct "P" [2%N; 2%N] ["x"; "y"] false false)]> some_types.

(** [P p; p.x = 7; return p.y;], where the field that is written has the index [written] and
    the instructions [extra] come before the return. *)
Definition with_pair (written : Z) (extra : list (ref * InstKind)) : MIRModule :=
  set_consts (list_to_map [(50%N, const_int 0 2); (51%N, const_int 1 2); (52%N, const_int 7 2); (53%N, const_int written 2)])
    (addFunction 200
       {| fn_name := "f";
          fn_body := {| insts := list_to_map ([(11%N, typed 6 (AllocaInst 4 0)); (12%N, typed 10 (GetElementPtrInst 11 [50%N; 53%N]));
                                 (13%N, typed 0 (StoreInst 52 12 0 false)); (14%N, typed 10 (GetElementPtrInst 11 [50%N; 51%N]));
                                 (15%N, typed 2 (LoadInst 14 0 false)); (16%N, typed 0 (ReturnInst 15))]
                               ++ map (fun '(i, k) => (i, typed 2 k)) extra);
                        bbs := list_to_map [(1%N, block_of ([11%N; 12%N; 13%N; 14%N; 15%N] ++ map fst extra ++ [16%N]))];
                        blocks := [1%N]; next_ref := 300%N |} |}
       (snd (getPointerType 2 (newModule "m" pair_types 10 300)))).

Lemma with_pair_fns w extra f func : fns (with_pair w extra) !! f = Some func ->
  f = 200%N /\ func = {| fn_name := "f"; fn_body := body 200 (with_pair w extra) |}.
Proof.
  intros E. change (fns (with_pair w extra)) with (<[200%N := {| fn_name := "f"; fn_body := body 200 (with_pair w extra) |}]> (∅ : gmap ref Function_)) in E.
  apply lookup_insert_Some in E as [[<- <-] | [_ E]]; [done | by rewrite lookup_empty in E].
Qed.

Lemma with_pair_ok : sroa_module (fun _ => False) (with_pair 0 []).
Proof.
  assert (Out : forall v, outside (fun _ => False) (with_pair 0 []) v <-> v ∈ [50%N; 51%N; 52%N; 53%N]).
  { intros v. unfold outside. change (globs (with_pair 0 [])) with (∅ : gmap ref MIRGlobal). rewrite lookup_empty.
    unfold with_pair at 1, set_consts. cbn [consts]. rewrite is_Some_list_to_map. cbn [fmap list_fmap fst].
    split; [intros [? | [[? ?] | ?]]; done | by left]. }
  destruct (types_ok_b_spec (with_pair 0 [])) as [Ty Fi]; [by vm_compute |].
  split.
  - split.
    + intros f func [-> ->]%with_pair_fns. apply (fn_ok_b_spec _ [50%N; 51%N; 52%N; 53%N] _ _ Out). by vm_compute.
    + intros v Hv. apply Out in Hv. change (m_next (with_pair 0 [])) with 300%N. rewrite !elem_of_cons, elem_of_nil in Hv. lia.
    + intros g Gl E. change (globs (with_pair 0 [])) with (∅ : gmap ref MIRGlobal) in E. by rewrite lookup_empty in E.
  - done.
  - done.
  - done.
  - apply NoDup_singleton.
  - done.
  - intros f func [-> ->]%with_pair_fns. apply sroa_function_b_spec. by vm_compute.
Qed.

(** What the pass makes of it: two variables, a store to the first and a load of the second. *)
Example with_pair_result :
  let '(changed, M) := runOnModule (with_pair 0 []) in
  (changed, getInstructions 1 (body 200 M), map (fun i => kind_of i (body 200 M)) [300%N; 301%N; 13%N; 15%N],
   map (fun i => i_name <$> insts (body 200 M) !! i) [300%N; 301%N])
  = (true, [301%N; 300%N; 13%N; 15%N; 16%N],
     [Some (AllocaInst 2 0); Some (AllocaInst 2 0); Some (StoreInst 52 300 0 false); Some (LoadInst 301 0 false)],
     [Some ".0"; Some ".1"]).
Proof. by vm_compute. Qed.

(** An index beyond the fields of the type: the store goes to null. *)
Example field_out_of_range :
  kind_of 13 (body 200 (snd (runOnModule (with_pair 2 [])))) = Some (StoreInst 52 nullptr 0 false).
Proof. by vm_compute. Qed.

Lemma sroa_correct_witness :
  sroa_module (fun _ => False) (snd (runOnModule (with_pair 0 [])))
  /\ exists func', fns (snd (runOnModule (with_pair 0 []))) !! 200%N = Some func'
       /\ function_replaced (with_pair 0 []) (snd (runOnModule (with_pair 0 [])))
            {| fn_name := "f"; fn_body := body 200 (with_pair 0 []) |} func'.
Proof.
  destruct (sroa_correct (fun _ => False) (with_pair 0 []) with_pair_ok) as (S & _ & R).
  split; [exact S |]. apply R; [by vm_compute |]. change (functions (with_pair 0 [])) with [200%N]. left.
Defined.

Definition typed_addresses_b M F : bool :=
  placed_b F (fun _ v k =>
    match k, field_access M F v with
    | GetElementPtrInst A _, Some z =>
        match struct_alloca M F A, field_number M F A z, insts F !! v with
        | Some (_, info), Some j, Some Jv =>
            match st_fields info !! j with
            | Some ty => negb (N.eqb ty nullptr) && bool_decide (pointerTypeCache M !! ty = Some (i_type Jv))
            | None => false
            end
        | _, _, _ => false
        end
    | _, _ => true
    end).

Lemma typed_addresses_b_spec M F : typed_addresses_b M F = true -> typed_addresses M F.
Proof.
  intros Q A J info v ix z _ EA (b & Hb & Hi) K Ez. pose proof (placed_b_spec _ _ Q b v _ Hb Hi K) as Q'. cbn beta iota in Q'.
  rewrite Ez, EA in Q'. destruct (field_number M F A z) as [j |]; [| done]. destruct (insts F !! v) as [Jv |]; [| done].
  destruct (st_fields info !! j) as [ty |] eqn:Ej; [| done]. rewrite andb_true_iff, negb_true_iff, N.eqb_neq, bool_decide_eq_true in Q'.
  exists j, ty, Jv. split_and!; [done | done | done | by right].
Qed.

Lemma sroa_types_witness :
  let M' := snd (runOnModule (with_pair 0 [])) in
  exists func', fns M' !! 200%N = Some func'
    /\ forall b i k', b ∈ blocks (fn_body func') -> i ∈ getInstructions b (fn_body func') ->
         kind_of i (fn_body func') = Some k' ->
         value_ops k' = []
         \/ exists k, kind_of i (body 200 (with_pair 0 [])) = Some k
              /\ Forall2 (fun v v' => getType (fun _ => nullptr) (fn_body func') M' v'
                                      = getType (fun _ => nullptr) (body 200 (with_pair 0 [])) (with_pair 0 []) v)
                   (value_ops k) (value_ops k').
Proof.
  apply (sroa_types (fun _ => False) (fun _ => nullptr) (with_pair 0 []) 200
    {| fn_name := "f"; fn_body := body 200 (with_pair 0 []) |} with_pair_ok).
  - by vm_compute.
  - change (functions (with_pair 0 [])) with [200%N]. left.
  - by vm_compute.
  - apply typed_addresses_b_spec. by vm_compute.
Defined.

(** The struct is also made a shared object. *)
Lemma unrecorded_use_dangles_witness :
  let M := with_pair 0 [(17%N, MakeSharedInst 11)] in
  let G := snd (runOnFunction (body 200 M) M) in
  insts G !! 11%N = None /\ exists k', kind_of 17 G = Some k' /\ 11%N ∈ value_ops k'.
Proof.
  intros M G.
  destruct (unrecorded_use_dangles (fun v => is_Some (consts M !! v)) M (body 200 M) 17 (MakeSharedInst 11) 11) as (D & _ & K).
  - apply (fn_ok_b_spec _ [50%N; 51%N; 52%N; 53%N]); [| by vm_compute].
    intros v. unfold M, with_pair, set_consts. cbn [consts]. by rewrite is_Some_list_to_map.
  - change (bbs (body 200 M) !! nullptr) with (None : option MIRBlock). by intros [].
  - done.
  - by vm_compute.
  - apply types_ok_b_spec. by vm_compute.
  - intros A J info (_ & ty & al & _ & E)%struct_alloca_kind. destruct (types_ok_b_spec M) as [_ Fi]; [by vm_compute |]. by apply (Fi ty).
  - change (blocks (body 200 M)) with [1%N]. apply NoDup_singleton.
  - apply (bool_decide_eq_true (splits M (body 200 M) 11)). by vm_compute.
  - apply (bool_decide_eq_true (placed (body 200 M) 17)). by vm_compute.
  - by vm_compute.
  - left.
  - by vm_compute.
  - split; [exact D | exact K].
Defined.
