(* ===== verification/DropElision.v ===== *)
(** * Drop elision

    [DropElisionPass] of [lib/middle/mir/passes/DropElisionPass.cpp]: a data-flow analysis
    finds the variables that are moved on every path to a block, and a sweep erases the
    releases and the calls of destructors on variables that have been moved.

    In the first loop the branch for calls stands inside the branch for stores, where it
    never runs, so a call moves nothing there; it does in the sweep. *)

From S2P Require Import Prelude Diag HIRType MIR MIRModule ConstFold Mem2Reg DefUse.
From stdpp Require Export gmap sets.

#[local] Open Scope string_scope.

Implicit Types (F : MIRFunction) (M : MIRModule) (b i f v a : ref) (k : InstKind) (X : gset ref).

(** [s.find(sub) != std::string::npos]. *)
Definition contains_text (sub s : string) : bool :=
  match String.index 0 sub s with Some _ => true | None => false end.

(** ** Predecessors and variables *)

Definition buildPredecessorMap F : DefUse :=
  fold_left (fun preds block => fold_left (record_use block) (getSuccessors block F) preds) (blocks F) ∅.

(** One turn of the loop of [getBaseAlloca]. *)
Definition base_step F v : option ref :=
  match kind_of v F with
  | Some (LoadInst p _ _) => Some p
  | Some (GetElementPtrInst p _) => Some p
  | Some (CastInst _ v _) => Some v
  | Some (ExtractValueInst agg _) => Some agg
  | _ => None
  end.

(** What an instruction does to the set of moved variables: one is assigned, others are
    moved. *)
Record Effect := {
  assigned : option ref;
  moved : list ref;
}.

Definition no_effect : Effect := {| assigned := None; moved := [] |}.

Definition apply_effect (e : Effect) X : gset ref :=
  fold_left (fun X a => {[a]} ∪ X) (moved e)
    match assigned e with Some a => X ∖ {[a]} | None => X end.

(** Names of the functions that destroy an object. *)
Definition is_drop_name (name : string) : bool :=
  String.eqb name "__moksha_free" || contains_text ".destructor_ret_void" name
  || contains_text ".drop_ret_void" name.

Definition other_than (name : string) : string -> bool := fun s => negb (String.eqb s name).

(** The kinds of types that are counted. *)
Definition counted_kinds : list TypeKind.t :=
  [TypeKind.Slice; TypeKind.Array; TypeKind.String; TypeKind.Map; TypeKind.Any; TypeKind.Promise].

(** [fuel] bounds the loops over values and types, [memory] is what a borrow kind that was
    never set happens to be, and [other_name] the name of a value that is neither an
    instruction nor a function nor a global. *)
Section Pass.
Context (fuel : nat) (memory : ref -> BorrowKind.t) (other_name : ref -> string).

Definition getBaseAlloca F v : option (option ref) :=
  r ← follow (base_step F) fuel v;
  Some (if is_alloca F r then Some r else None).

Definition getBorrowKind v (J : MIRInst) : BorrowKind.t := default (memory v) (i_borrow J).

Definition value_name M F v : string :=
  match insts F !! v with
  | Some J => i_name J
  | None =>
      match fns M !! v with
      | Some func => fn_name func
      | None => match globs M !! v with Some G => g_name G | None => other_name v end
      end
  end.

(** [isShared] for the type of a load. *)
Definition is_shared M (ty : TypePtr) : option bool :=
  if N.eqb ty nullptr then Some false
  else
    match m_types M !! ty with
    | Some (PointerType _ own _) => Some (bool_decide (own = Ownership.Shared))
    | Some t =>
        if existsb (enum_eqb (HIRType.getKind t)) counted_kinds then Some true
        else contains_text "shared " <$> toString fuel (m_types M) ty
    | None => None
    end.

(** ** The data-flow analysis *)

(** The variable that the use of [v] moves, if [v] is a load with a name that [owned]
    accepts, of no view and of a type that is not shared. *)
Definition flow_move M F (owned : string -> bool) v : option (list ref) :=
  match insts F !! v with
  | Some J =>
      match i_kind J with
      | LoadInst p _ _ =>
          if owned (i_name J) && negb (bool_decide (getBorrowKind v J = BorrowKind.View)) then
            shared ← is_shared M (i_type J);
            if (shared : bool) then Some [] else option_list <$> getBaseAlloca F p
          else Some []
      | _ => Some []
      end
  | None => Some []
  end.

(** The names of loads that do not move what is stored. *)
Definition is_old (name : string) : bool := contains_text "cleanup" name || contains_text "old" name.

Definition flow_effect M F i : option Effect :=
  match kind_of i F with
  | Some (StoreInst v p _ _) =>
      dest ← getBaseAlloca F p;
      source ← flow_move M F (fun name => negb (is_old name)) v;
      Some {| assigned := dest; moved := source |}
  | Some (InvokeInst _ args _ _) =>
      sources ← mapM (flow_move M F (other_than "cleanup_val")) args;
      Some {| assigned := None; moved := concat sources |}
  | _ => Some no_effect
  end.

(** The sets of a block, [blockMovedIn] and [blockMovedOut]. *)
Abbreviation Sets := (gmap ref (gset ref)).

Definition set_of b (S : Sets) : gset ref := default ∅ (S !! b).

(** The variables moved at the end of every predecessor. *)
Definition meet_preds (preds : list ref) (out : Sets) : gset ref :=
  match preds with
  | [] => ∅
  | p :: preds => fold_left (fun X q => X ∩ set_of q out) preds (set_of p out)
  end.

Definition transfer M F b X : option (gset ref) :=
  effects ← mapM (flow_effect M F) (getInstructions b F);
  Some (fold_left (fun X e => apply_effect e X) effects X).

Record Flow := {
  flow_changed : bool;
  blockMovedIn : Sets;
  blockMovedOut : Sets;
}.

Definition flow_block M F (preds : DefUse) (fl : Flow) b : option Flow :=
  let inSet := meet_preds (users b preds) (blockMovedOut fl) in
  currentOut ← transfer M F b inSet;
  Some (if bool_decide (currentOut = set_of b (blockMovedOut fl)) then
          {| flow_changed := flow_changed fl; blockMovedIn := <[b := inSet]> (blockMovedIn fl);
             blockMovedOut := blockMovedOut fl |}
        else
          {| flow_changed := true; blockMovedIn := <[b := inSet]> (blockMovedIn fl);
             blockMovedOut := <[b := currentOut]> (blockMovedOut fl) |}).

Definition flow_round M F (preds : DefUse) (fl : Flow) : option Flow :=
  fold_some (flow_block M F preds) (blocks F)
    {| flow_changed := false; blockMovedIn := blockMovedIn fl; blockMovedOut := blockMovedOut fl |}.

(** [while (changed)]. *)
Fixpoint flow_loop (rounds : nat) M F (preds : DefUse) (fl : Flow) : option Flow :=
  match rounds with
  | 0 => None
  | S rounds =>
      fl ← flow_round M F preds fl;
      if flow_changed fl then flow_loop rounds M F preds fl else Some fl
  end.

(** Every round but the last adds a variable to the set of a block. *)
Definition max_rounds F : nat := S (List.length (blocks F) * size (insts F)).

Definition movedIn M F : option Sets :=
  blockMovedIn <$> flow_loop (max_rounds F) M F (buildPredecessorMap F)
    {| flow_changed := true; blockMovedIn := ∅; blockMovedOut := ∅ |}.

(** ** The sweep *)

(** The sweep does not look at the type of the load. *)
Definition sweep_move F (owned : string -> bool) v : option (list ref) :=
  match insts F !! v with
  | Some J =>
      match i_kind J with
      | LoadInst p _ _ =>
          if owned (i_name J) && negb (bool_decide (getBorrowKind v J = BorrowKind.View)) then
            option_list <$> getBaseAlloca F p
          else Some []
      | _ => Some []
      end
  | None => Some []
  end.

Definition sweep_effect F i : option Effect :=
  match kind_of i F with
  | Some (StoreInst v p _ _) =>
      dest ← getBaseAlloca F p;
      source ← sweep_move F (fun name => other_than "cleanup_val" name && other_than "old_val" name) v;
      Some {| assigned := dest; moved := source |}
  | Some (CallInst _ args _) =>
      sources ← mapM (sweep_move F (other_than "cleanup_val")) args;
      Some {| assigned := None; moved := concat sources |}
  | _ => Some no_effect
  end.

(** [base->getType()->toString()] has neither word. *)
Definition plain_text M F a : option bool :=
  J ← insts F !! a;
  text ← toString fuel (m_types M) (i_type J);
  Some (negb (contains_text "shared" text) && negb (contains_text "Arc<" text)).

(** The variable whose object an instruction destroys. *)
Definition drop_of M F i : option (option ref) :=
  match kind_of i F with
  | Some (ARCInst Opcode.Release object _) => getBaseAlloca F object
  | Some (CallInst callee (arg :: _) _) =>
      if negb (N.eqb callee nullptr) && is_drop_name (value_name M F callee) then
        base ← getBaseAlloca F arg;
        match base with
        | Some a => plain ← plain_text M F a; Some (if plain : bool then Some a else None)
        | None => Some None
        end
      else Some None
  | Some (InvokeInst callee (arg :: _) _ _) =>
      if negb (N.eqb callee nullptr) && is_drop_name (value_name M F callee)
      then getBaseAlloca F arg else Some None
  | _ => Some None
  end.

(** The loop over the instructions of a block: the set of moved variables, the instructions
    that stay, and the function, where those that go are destroyed. *)
Definition sweep_inst M (st : gset ref * list ref * MIRFunction) i :
    option (gset ref * list ref * MIRFunction) :=
  let '(X, kept, F) := st in
  e ← sweep_effect F i;
  let X := apply_effect e X in
  base ← drop_of M F i;
  Some (match base with
        | Some a => if bool_decide (a ∈ X) then (X, kept, free_inst i F) else (X, (kept ++ [i])%list, F)
        | None => (X, (kept ++ [i])%list, F)
        end).

Definition sweep_block M (into : Sets) (st : bool * MIRFunction) b : option (bool * MIRFunction) :=
  let '(changed, F) := st in
  let l := getInstructions b F in
  '(_, kept, F) ← fold_some (sweep_inst M) l (set_of b into, [], F);
  Some (changed || negb (List.length kept =? List.length l)%nat,
        upd_block b (with_instructions kept) F).

(** ** Functions and modules *)

Definition runOnFunction M F : option (bool * MIRFunction) :=
  if isDeclaration F then Some (false, F)
  else
    into ← movedIn M F;
    fold_some (sweep_block M into) (blocks F) (false, F).

Definition run_function (st : bool * MIRModule) f : option (bool * MIRModule) :=
  let '(changed, M) := st in
  '(c, F) ← runOnFunction M (body f M);
  Some (changed || c, set_body f F M).

Definition runOnModule M : option (bool * MIRModule) :=
  let '(funcs, M) := getFunctions M in fold_some run_function funcs (false, M).

End Pass.
