(* ===== verification/DropElisionProps.v ===== *)
(** * Drop elision: the data-flow analysis

    The analysis ends, and what it says of a block holds on every path to the block. *)

From S2P Require Import Prelude Diag HIRType MIR MIRModule ConstFold Mem2Reg DefUse DropElision.
From stdpp Require Import gmap sets.

Implicit Types (F : MIRFunction) (M : MIRModule) (b c i f v a p : ref) (X Y : gset ref).

(** ** Effects and sets *)

Lemma elem_of_fold_insert (l : list ref) a : forall X,
  a ∈ fold_left (fun X a => {[a]} ∪ X) l X <-> a ∈ l \/ a ∈ X.
Proof.
  induction l as [| x l IH]; intros X; cbn [fold_left]; [set_solver |].
  rewrite IH. set_solver.
Qed.

Lemma elem_of_effect e X a :
  a ∈ apply_effect e X <-> a ∈ moved e \/ (a ∈ X /\ assigned e <> Some a).
Proof.
  unfold apply_effect. rewrite elem_of_fold_insert. destruct (assigned e) as [d |].
  - rewrite elem_of_difference, elem_of_singleton. split; intros [? | [? N]]; auto; right;
      (split; [done |]); congruence.
  - split; [intros [? | ?]; auto | intros [? | [? _]]; auto].
Qed.

Definition apply_effects (es : list Effect) X : gset ref := fold_left (fun X e => apply_effect e X) es X.

Lemma apply_effects_mono es : forall X Y, X ⊆ Y -> apply_effects es X ⊆ apply_effects es Y.
Proof.
  induction es as [| e es IH]; intros X Y S; [done |]. apply IH. intros a.
  rewrite !elem_of_effect. intros [? | [? ?]]; auto.
Qed.

Lemma apply_effects_bounded (U : gset ref) es : forall X,
  X ⊆ U -> Forall (fun e => Forall (.∈ U) (moved e)) es -> apply_effects es X ⊆ U.
Proof.
  induction es as [| e es IH]; intros X S B; [done |]. apply Forall_cons in B as [B1 B2].
  apply IH; [| done]. intros a [Ha | [Ha _]]%elem_of_effect; [| by apply S].
  by eapply Forall_forall in B1.
Qed.

Definition below (O1 O2 : gmap ref (gset ref)) : Prop := forall b, set_of b O1 ⊆ set_of b O2.

#[export] Instance below_preorder : PreOrder below.
Proof. split; [intros O b; done | intros O1 O2 O3 L1 L2 b; etrans; [apply L1 | apply L2]]. Qed.

Lemma set_of_insert b c X O : set_of c (<[b := X]> O) = if decide (c = b) then X else set_of c O.
Proof.
  unfold set_of. destruct (decide (c = b)) as [-> | N];
    [by rewrite lookup_insert_eq | by rewrite lookup_insert_ne].
Qed.

Lemma elem_of_meet preds O a :
  a ∈ meet_preds preds O <-> preds <> [] /\ forall p, p ∈ preds -> a ∈ set_of p O.
Proof.
  destruct preds as [| p preds]; cbn [meet_preds]; [set_solver |].
  assert (K : forall X, a ∈ fold_left (fun X q => X ∩ set_of q O) preds X <->
    a ∈ X /\ forall q, q ∈ preds -> a ∈ set_of q O).
  { induction preds as [| q preds IH]; intros X; cbn [fold_left]; [set_solver |].
    rewrite IH. set_solver. }
  rewrite K. split.
  - intros [H1 H2]. split; [done |]. intros q [-> | Hq]%elem_of_cons; auto.
  - intros [_ H2]. split; intros; apply H2; set_solver.
Qed.

Lemma meet_mono preds O1 O2 : below O1 O2 -> meet_preds preds O1 ⊆ meet_preds preds O2.
Proof. intros L a. rewrite !elem_of_meet. intros [? H]. split; [done |]. intros. by apply L, H. Qed.

Lemma elem_of_predecessors F c p :
  p ∈ users c (buildPredecessorMap F) <-> p ∈ blocks F /\ c ∈ getSuccessors p F.
Proof.
  unfold buildPredecessorMap.
  assert (In : forall l b U, p ∈ users c (fold_left (record_use b) l U) <-> p ∈ users c U \/ (p = b /\ c ∈ l)).
  { induction l as [| x l IH]; intros b U; cbn [fold_left]; [set_solver |].
    rewrite IH, elem_of_record_use. set_solver. }
  assert (Out : forall bl U, p ∈ users c (fold_left (fun U b => fold_left (record_use b) (getSuccessors b F) U) bl U)
    <-> p ∈ users c U \/ (p ∈ bl /\ c ∈ getSuccessors p F)).
  { induction bl as [| b bl IH]; intros U; cbn [fold_left]; [set_solver |].
    rewrite IH, In, elem_of_cons. split.
    - intros [[? | [-> ?]] | [? ?]]; auto.
    - intros [? | [[-> | ?] ?]]; auto. }
  rewrite Out. unfold users at 1. rewrite lookup_empty. set_solver.
Qed.

Lemma sum_list_le {A} (g h : A -> nat) (l : list A) :
  (forall x, x ∈ l -> g x <= h x) -> sum_list_with g l <= sum_list_with h l.
Proof.
  induction l as [| x l IH]; intros L; cbn; [done |].
  pose proof (L x ltac:(set_solver)). specialize (IH ltac:(set_solver)). lia.
Qed.

Lemma sum_list_lt {A} (g h : A -> nat) (l : list A) x :
  (forall x, x ∈ l -> g x <= h x) -> x ∈ l -> g x < h x -> sum_list_with g l < sum_list_with h l.
Proof.
  intros L Hx Lt. apply list_elem_of_split in Hx as (l1 & l2 & ->).
  rewrite !sum_list_with_app. cbn.
  pose proof (sum_list_le g h l1 ltac:(set_solver)). pose proof (sum_list_le g h l2 ltac:(set_solver)). lia.
Qed.

(** ** The loop *)

Section Analysis.
Context (fuel : nat) (memory : ref -> BorrowKind.t).
Context (M : MIRModule) (F : MIRFunction).

(** The chains of addresses and of types in the blocks come to an end. *)
Definition flow_ends : Prop := forall b i,
  b ∈ blocks F -> i ∈ getInstructions b F -> is_Some (flow_effect fuel memory M F i).

Context (Hends : flow_ends).

#[local] Abbreviation transfer := (transfer fuel memory M F).
#[local] Abbreviation preds b := (users b (buildPredecessorMap F)).

Lemma base_alloca v a : getBaseAlloca fuel F v = Some (Some a) -> is_alloca F a = true.
Proof.
  unfold getBaseAlloca. destruct (follow _ _ _) as [r |]; [| done]. cbn.
  destruct (is_alloca F r) eqn:E; [| done]. by intros [= <-].
Qed.

Lemma alloca_dom a : is_alloca F a = true -> a ∈ dom (insts F).
Proof.
  unfold is_alloca, kind_of. rewrite elem_of_dom. by destruct (insts F !! a).
Qed.

Lemma flow_move_bounded owned v l :
  flow_move fuel memory M F owned v = Some l -> Forall (.∈ dom (insts F)) l.
Proof.
  unfold flow_move. destruct (insts F !! v) as [J |]; [| by intros [= <-]].
  destruct (i_kind J); try by intros [= <-].
  destruct (_ && _); [| by intros [= <-]].
  destruct (is_shared _ _ _) as [[] |]; cbn; [by intros [= <-] | | done].
  destruct (getBaseAlloca _ _ _) as [[a |] |] eqn:E; [| by intros [= <-] | done].
  intros [= <-]. apply Forall_singleton. by eapply alloca_dom, base_alloca.
Qed.

Lemma flow_effect_bounded i e :
  flow_effect fuel memory M F i = Some e -> Forall (.∈ dom (insts F)) (moved e).
Proof.
  unfold flow_effect. destruct (kind_of i F) as [k |]; [| by intros [= <-]].
  destruct k; try by intros [= <-].
  - destruct (getBaseAlloca _ _ _) as [d |]; [| done]. cbn.
    destruct (flow_move _ _ _ _ _ _) as [l |] eqn:E; [| done]. intros [= <-]. by eapply flow_move_bounded.
  - destruct (mapM _ _) as [ls |] eqn:E; [| done]. intros [= <-]. cbn. apply mapM_Some in E.
    apply Forall_concat. apply Forall_forall. intros l Hl.
    destruct (proj1 (list_elem_of_lookup _ _) Hl) as [n Hn].
    destruct (Forall2_lookup_r _ _ _ _ _ E Hn) as (v & _ & Q). by eapply flow_move_bounded.
Qed.

Definition effects_of b : list Effect := default [] (mapM (flow_effect fuel memory M F) (getInstructions b F)).

Lemma effects_some b : b ∈ blocks F ->
  mapM (flow_effect fuel memory M F) (getInstructions b F) = Some (effects_of b).
Proof.
  intros Hb. unfold effects_of. destruct (mapM _ _) eqn:E; [done |].
  apply eq_None_not_Some in E. exfalso. apply E. apply mapM_is_Some, Forall_forall. eauto.
Qed.

Lemma transfer_some b X : b ∈ blocks F -> transfer b X = Some (apply_effects (effects_of b) X).
Proof. intros Hb. unfold DropElision.transfer. by rewrite effects_some. Qed.

Lemma effects_bounded b : b ∈ blocks F ->
  Forall (fun e => Forall (.∈ dom (insts F)) (moved e)) (effects_of b).
Proof.
  intros Hb. pose proof (effects_some b Hb) as E. apply mapM_Some in E.
  apply Forall_forall. intros e He. destruct (proj1 (list_elem_of_lookup _ _) He) as [n Hn].
  destruct (Forall2_lookup_r _ _ _ _ _ E Hn) as (i & _ & Q). by eapply flow_effect_bounded.
Qed.

(** What holds of the sets at every moment: they are contained in what one more turn would
    make of them, and hold instructions of the function. *)
Record ascending (O : gmap ref (gset ref)) : Prop := {
  asc_below : forall b, b ∈ blocks F -> set_of b O ⊆ apply_effects (effects_of b) (meet_preds (preds b) O);
  asc_bounded : forall b, set_of b O ⊆ dom (insts F);
}.

Definition potential (O : gmap ref (gset ref)) : nat :=
  sum_list_with (fun b => size (set_of b O)) (blocks F).

(** The equations that the sets satisfy when nothing changes any more. *)
Definition solved (In Out : gmap ref (gset ref)) b : Prop :=
  set_of b In = meet_preds (preds b) Out /\ set_of b Out = apply_effects (effects_of b) (set_of b In).

Lemma ascending_update O b : b ∈ blocks F -> ascending O ->
  let X := apply_effects (effects_of b) (meet_preds (preds b) O) in
  X <> set_of b O ->
  ascending (<[b := X]> O) /\ below O (<[b := X]> O) /\ potential O < potential (<[b := X]> O).
Proof.
  intros Hb [B U] X N. pose proof (B b Hb) as S. fold X in S.
  assert (L : below O (<[b := X]> O)).
  { intros c. rewrite set_of_insert. case_decide; [by subst | done]. }
  split_and!; [split | done |].
  - intros c Hc. rewrite set_of_insert. etrans; [| apply apply_effects_mono, meet_mono, L].
    case_decide; [by subst | by apply B].
  - intros c. rewrite set_of_insert. case_decide; [| apply U].
    apply apply_effects_bounded; [| by apply effects_bounded].
    intros a [P K]%elem_of_meet. destruct (preds b) as [| p l]; [done |].
    apply (U p), K. set_solver.
  - apply (sum_list_lt _ _ _ b); [| done |].
    + intros c _. by apply subseteq_size.
    + rewrite set_of_insert, decide_True by done. apply subset_size. set_solver.
Qed.

Lemma flow_block_spec fl b : b ∈ blocks F -> ascending (blockMovedOut fl) ->
  exists fl', flow_block fuel memory M F (buildPredecessorMap F) fl b = Some fl'
    /\ ascending (blockMovedOut fl') /\ below (blockMovedOut fl) (blockMovedOut fl')
    /\ blockMovedIn fl' = <[b := meet_preds (preds b) (blockMovedOut fl)]> (blockMovedIn fl)
    /\ (flow_changed fl' = flow_changed fl /\ blockMovedOut fl' = blockMovedOut fl
          /\ set_of b (blockMovedOut fl) = apply_effects (effects_of b) (meet_preds (preds b) (blockMovedOut fl))
        \/ flow_changed fl' = true /\ potential (blockMovedOut fl) < potential (blockMovedOut fl')).
Proof.
  intros Hb A. unfold flow_block. rewrite transfer_some by done. cbn.
  case_bool_decide as E; eexists; (split; [done |]); cbn.
  - split_and!; [done.. |]. left. by rewrite E.
  - destruct (ascending_update _ b Hb A E) as (A' & L & P). split_and!; [done.. |]. by right.
Qed.

Lemma flow_round_spec fl : ascending (blockMovedOut fl) ->
  exists fl', flow_round fuel memory M F (buildPredecessorMap F) fl = Some fl'
    /\ ascending (blockMovedOut fl')
    /\ if flow_changed fl' then potential (blockMovedOut fl) < potential (blockMovedOut fl')
       else forall b, b ∈ blocks F -> solved (blockMovedIn fl') (blockMovedOut fl') b.
Proof.
  intros A. unfold flow_round.
  edestruct (fold_some_ind (flow_block fuel memory M F (buildPredecessorMap F))
    (fun pre fl' => ascending (blockMovedOut fl')
      /\ potential (blockMovedOut fl) <= potential (blockMovedOut fl')
      /\ if flow_changed fl' then potential (blockMovedOut fl) < potential (blockMovedOut fl')
         else forall b, b ∈ pre -> solved (blockMovedIn fl') (blockMovedOut fl') b))
    as (fl' & E & A' & _ & Q); [| | by exists fl'].
  - cbn. split_and!; [done | done |]. intros b Hb. by apply not_elem_of_nil in Hb.
  - intros pre b post fl1 E (A1 & P1 & Q1).
    destruct (flow_block_spec fl1 b) as (fl2 & E2 & A2 & L2 & I2 & D); [rewrite E; set_solver | done |].
    exists fl2. split; [done |]. destruct D as [(C & O & S) | (C & P)]; rewrite C.
    + rewrite O in *. split_and!; [done.. |]. destruct (flow_changed fl1); [done |].
      intros c Hc. unfold solved. rewrite I2, set_of_insert.
      case_decide as K; [subst c; by rewrite <- S |].
      apply elem_of_app in Hc as [Hc | Hc]; [by apply Q1 | set_solver].
    + split_and!; [done | lia | lia].
Qed.

Lemma potential_bound O : ascending O -> potential O <= List.length (blocks F) * size (insts F).
Proof.
  intros [_ U]. unfold potential. rewrite <- (size_dom (insts F)).
  transitivity (sum_list_with (fun _ => size (dom (insts F))) (blocks F)).
  - apply sum_list_le. intros b _. by apply subseteq_size.
  - clear. induction (blocks F) as [| b l IH]; cbn; [done |]. lia.
Qed.

Lemma flow_loop_spec rounds fl : ascending (blockMovedOut fl) ->
  List.length (blocks F) * size (insts F) < rounds + potential (blockMovedOut fl) ->
  exists fl', flow_loop fuel memory rounds M F (buildPredecessorMap F) fl = Some fl'
    /\ forall b, b ∈ blocks F -> solved (blockMovedIn fl') (blockMovedOut fl') b.
Proof.
  revert fl. induction rounds as [| rounds IH]; intros fl A L.
  { pose proof (potential_bound _ A). lia. }
  cbn [flow_loop]. destruct (flow_round_spec fl A) as (fl' & -> & A' & Q). cbn.
  destruct (flow_changed fl'); [apply IH; [done | lia] | by exists fl'].
Qed.

(** The analysis ends with a solution of its equations. *)
Lemma movedIn_solved : exists In Out, movedIn fuel memory M F = Some In
  /\ forall b, b ∈ blocks F -> solved In Out b.
Proof.
  unfold movedIn.
  destruct (flow_loop_spec (max_rounds F) {| flow_changed := true; blockMovedIn := ∅; blockMovedOut := ∅ |})
    as (fl & -> & S); [| cbn; unfold max_rounds; lia |].
  - split; intros b; cbn; unfold set_of; rewrite lookup_empty; set_solver.
  - by exists (blockMovedIn fl), (blockMovedOut fl).
Qed.

(** ** Paths *)

(** [arrives b X]: a path from the entry leads to the start of [b], where the variables of [X]
    have been moved and not assigned since. *)
Inductive arrives : ref -> gset ref -> Prop :=
  | arrives_entry : arrives (getEntryBlock F) ∅
  | arrives_edge b c X Y :
      arrives b X -> b ∈ blocks F -> c ∈ getSuccessors b F -> transfer b X = Some Y -> arrives c Y.

(** No edge leads to the entry. *)
Definition entry_first : Prop := forall b, b ∈ blocks F -> getEntryBlock F ∉ getSuccessors b F.

Lemma movedIn_arrives In b X : entry_first -> movedIn fuel memory M F = Some In ->
  b ∈ blocks F -> arrives b X -> set_of b In ⊆ X.
Proof.
  intros E I Hb A. destruct movedIn_solved as (In' & Out & I' & S).
  rewrite I in I'. injection I' as <-.
  induction A as [| b c X Y A IH Hb' Hc T].
  - rewrite (proj1 (S _ Hb)). intros a [P _]%elem_of_meet. exfalso. apply P.
    destruct (preds (getEntryBlock F)) as [| p l] eqn:Q; [done |]. exfalso.
    assert (p ∈ preds (getEntryBlock F)) as [Hp1 Hp2]%elem_of_predecessors by (rewrite Q; set_solver).
    by apply (E p).
  - specialize (IH Hb'). rewrite (proj1 (S _ Hb)). intros a [_ P]%elem_of_meet.
    specialize (P b). rewrite elem_of_predecessors in P. specialize (P (conj Hb' Hc)).
    rewrite (proj2 (S _ Hb')) in P. rewrite transfer_some in T by done. injection T as <-.
    by eapply apply_effects_mono.
Qed.

End Analysis.
