(* ===== verification/DropElisionClaims.v ===== *)
(** * Drop elision: claims

    The pass ends, erases only instructions that destroy a variable that has been moved on
    every path, and leaves the rest as it was; and where it erases too much. *)

From S2P Require Import Prelude Diag HIRType MIR MIRModule ConstFold Mem2Reg DefUse DropElision.
From S2P Require Import MIRFacts DropElisionProps.
From stdpp Require Import gmap sets.

Implicit Types (F G : MIRFunction) (M : MIRModule) (b c i f v a p : ref) (X Y : gset ref).

(** The instructions that the sweep may erase. *)
Definition erasable F v : bool :=
  match kind_of v F with
  | Some (ARCInst _ _ _) | Some (CallInst _ _ _) | Some (InvokeInst _ _ _ _) => true
  | _ => false
  end.

(** [G] is [F] without some instructions that the sweep may erase. *)
Definition shrunk F G : Prop :=
  forall v, insts G !! v = insts F !! v \/ insts G !! v = None /\ erasable F v = true.

(** A call does not go to the result of an instruction that may be erased. *)
Definition calls_kept F : Prop := forall i k c args,
  kind_of i F = Some k ->
  (exists va, k = CallInst c args va) \/ (exists n u, k = InvokeInst c args n u) ->
  erasable F c = false.

Section Sweep.
Context (fuel : nat) (memory : ref -> BorrowKind.t) (other_name : ref -> string).
Context (M : MIRModule) (F : MIRFunction).

#[local] Abbreviation sweep_effect := (sweep_effect fuel memory).
#[local] Abbreviation drop_of := (drop_of fuel other_name M).

Definition sweep_ends : Prop := forall b i,
  b ∈ blocks F -> i ∈ getInstructions b F -> is_Some (sweep_effect F i) /\ is_Some (drop_of F i).

(** What the sweep reads is the same in a function that has shrunk. *)
Section Shrunk.
Context (G : MIRFunction) (S : shrunk F G) (C : calls_kept F).

Lemma shrunk_kind v : kind_of v G = kind_of v F \/ kind_of v G = None /\ erasable F v = true.
Proof. unfold kind_of. destruct (S v) as [-> | [-> ?]]; auto. Qed.

Lemma shrunk_step v : base_step G v = base_step F v.
Proof.
  unfold base_step. destruct (shrunk_kind v) as [-> | [-> E]]; [done |].
  unfold erasable in E. destruct (kind_of v F) as [[] |]; done.
Qed.

Lemma shrunk_base v : getBaseAlloca fuel G v = getBaseAlloca fuel F v.
Proof.
  unfold getBaseAlloca.
  assert (E : forall n v, follow (base_step G) n v = follow (base_step F) n v).
  { induction n as [| n IH]; intros w; cbn [follow]; [done |]. rewrite shrunk_step.
    destruct (N.eqb w nullptr); [done |]. by destruct (base_step F w). }
  rewrite E. destruct (follow _ _ _) as [r |]; [| done]. cbn. unfold is_alloca.
  destruct (shrunk_kind r) as [-> | [-> Q]]; [done |].
  unfold erasable in Q. destruct (kind_of r F) as [[] |]; done.
Qed.

Lemma shrunk_move owned v : sweep_move fuel memory G owned v = sweep_move fuel memory F owned v.
Proof.
  unfold sweep_move. destruct (S v) as [E | [E Q]]; rewrite E.
  - destruct (insts F !! v) as [J |]; [| done]. destruct (i_kind J); try done. by rewrite shrunk_base.
  - unfold erasable, kind_of in Q. destruct (insts F !! v) as [J |]; [| done]. cbn in Q.
    by destruct (i_kind J).
Qed.

Lemma shrunk_effect i : insts G !! i = insts F !! i -> sweep_effect G i = sweep_effect F i.
Proof.
  intros E. unfold DropElision.sweep_effect, kind_of. rewrite E.
  destruct (i_kind <$> insts F !! i) as [[] |]; try done.
  - by rewrite shrunk_base, shrunk_move.
  - erewrite list.mapM_ext; [done |]. intros v. apply shrunk_move.
Qed.

Lemma shrunk_name v : erasable F v = false -> value_name other_name M G v = value_name other_name M F v.
Proof. intros E. unfold value_name. destruct (S v) as [-> | [_ Q]]; [done | by rewrite E in Q]. Qed.

Lemma shrunk_text a : is_alloca F a = true -> plain_text fuel M G a = plain_text fuel M F a.
Proof.
  intros A. unfold plain_text. destruct (S a) as [-> | [_ Q]]; [done |]. unfold erasable in Q.
  unfold is_alloca in A. by destruct (kind_of a F) as [[] |].
Qed.

Lemma shrunk_drop i : insts G !! i = insts F !! i -> drop_of G i = drop_of F i.
Proof.
  intros E. unfold DropElision.drop_of, kind_of. rewrite E.
  destruct (insts F !! i) as [J |] eqn:I; [| done]. cbn.
  assert (K : kind_of i F = Some (i_kind J)) by (unfold kind_of; by rewrite I).
  destruct (i_kind J) as [] eqn:Q; try done.
  - destruct op; try done. apply shrunk_base.
  - destruct args as [| arg args]; [done |].
    rewrite shrunk_name by (eapply C; [done | left; eauto]). rewrite shrunk_base.
    destruct (_ && _); [| done]. destruct (getBaseAlloca _ _ _) as [[a |] |] eqn:B; cbn; [| done..].
    rewrite shrunk_text; [done |]. by eapply base_alloca.
  - destruct args as [| arg args]; [done |].
    rewrite shrunk_name by (eapply C; [done | right; eauto]). by rewrite shrunk_base.
Qed.

End Shrunk.

(** ** What stays *)

Definition effect_of i : Effect := default no_effect (sweep_effect F i).

(** The variables moved after the instructions of [l], from those moved before. *)
Definition moved_after X (l : list ref) : gset ref := apply_effects (map effect_of l) X.

Definition dropped X i : bool :=
  match drop_of F i with Some (Some a) => bool_decide (a ∈ X) | _ => false end.

(** A call with an argument that the sweep takes for a move of [a]. *)
Definition moves_itself i a : Prop := exists c args va v l,
  kind_of i F = Some (CallInst c args va) /\ v ∈ args
  /\ sweep_move fuel memory F (other_than "cleanup_val") v = Some l /\ a ∈ l.

Fixpoint kept_of X (l : list ref) : list ref :=
  match l with
  | [] => []
  | i :: l =>
      let X := apply_effect (effect_of i) X in
      if dropped X i then kept_of X l else i :: kept_of X l
  end.

Lemma kept_app l1 l2 : forall X, kept_of X (l1 ++ l2) = kept_of X l1 ++ kept_of (moved_after X l1) l2.
Proof.
  induction l1 as [| i l1 IH]; intros X; [done |]. cbn [app kept_of]. rewrite IH.
  by case_match.
Qed.

Lemma kept_sublist l : forall X, kept_of X l `sublist_of` l.
Proof.
  induction l as [| i l IH]; intros X; [done |]. cbn [kept_of]. case_match.
  - by apply sublist_cons.
  - by apply sublist_skip.
Qed.

Lemma moved_after_mono X Y l : X ⊆ Y -> moved_after X l ⊆ moved_after Y l.
Proof. apply apply_effects_mono. Qed.

(** An instruction that destroys a variable assigns none; it moves one only as a call. *)
Lemma moved_here i a X : a ∈ apply_effect (effect_of i) X -> drop_of F i = Some (Some a) -> a ∈ X \/ moves_itself i a.
Proof.
  intros Hx D. unfold DropElision.drop_of, effect_of, DropElision.sweep_effect, moves_itself in *.
  destruct (kind_of i F) as [k |] eqn:K; [| done].
  destruct k; try done; try (left; exact Hx). revert Hx.
  destruct (mapM _ args) as [ls |] eqn:E; cbn [mbind option_bind default from_option id]; [| by left].
  rewrite elem_of_effect. cbn [assigned moved].
  intros [Hm | [? _]]; [right | by left]. apply list_elem_of_In, in_concat in Hm as (l & Hl & Ha).
  apply list_elem_of_In in Hl, Ha. apply mapM_Some_1 in E.
  apply list_elem_of_lookup in Hl as [n Hl]. destruct (Forall2_lookup_r _ _ _ _ _ E Hl) as (v & Hv & E').
  apply list_elem_of_lookup_2 in Hv. by eexists callee, args, _, v, l.
Qed.

Lemma drop_erasable i a : drop_of F i = Some (Some a) -> erasable F i = true.
Proof.
  unfold DropElision.drop_of, erasable. destruct (kind_of i F) as [[] |]; done.
Qed.

Context (C : calls_kept F).

Lemma sweep_insts_spec l X kept G :
  shrunk F G -> NoDup l -> (forall i, i ∈ l -> insts G !! i = insts F !! i) ->
  (forall i, i ∈ l -> is_Some (sweep_effect F i) /\ is_Some (drop_of F i)) ->
  exists G', fold_some (sweep_inst fuel memory other_name M) l (X, kept, G)
      = Some (moved_after X l, kept ++ kept_of X l, G')
    /\ shrunk F G' /\ bbs G' = bbs G /\ blocks G' = blocks G
    /\ (forall v, v ∉ l -> insts G' !! v = insts G !! v)
    /\ (forall v, v ∈ kept_of X l -> insts G' !! v = insts F !! v)
    /\ (forall v, v ∈ l -> v ∉ kept_of X l -> insts G' !! v = None).
Proof.
  revert X kept G. induction l as [| i l IH]; intros X kept G S N A E.
  { exists G. cbn [fold_some kept_of moved_after map]. rewrite app_nil_r. split_and!; try done;
      intros v Hv; by apply not_elem_of_nil in Hv. }
  apply NoDup_cons in N as [Ni N].
  destruct (E i) as [[e He] [d Hd]]; [by left |].
  assert (Ei : effect_of i = e) by (unfold effect_of; by rewrite He).
  assert (Q : sweep_inst fuel memory other_name M (X, kept, G) i =
    Some (if dropped (apply_effect e X) i then (apply_effect e X, kept, free_inst i G)
          else (apply_effect e X, kept ++ [i], G))).
  { unfold sweep_inst, dropped.
    rewrite shrunk_effect, He by (done || (apply A; by left)). cbn.
    rewrite shrunk_drop, Hd by (done || (apply A; by left)). cbn. destruct d as [a |]; [| done].
    by case_bool_decide. }
  cbn [fold_some]. rewrite Q. cbn [mbind option_bind kept_of map]. rewrite Ei.
  destruct (dropped (apply_effect e X) i) eqn:D.
  - edestruct (IH (apply_effect e X) kept (free_inst i G)) as (G' & E' & S' & B' & L' & O' & K' & R').
    + intros v. cbn. destruct (decide (v = i)) as [-> | V].
      * right. rewrite lookup_delete_eq. split; [done |]. unfold dropped in D. rewrite Hd in D.
        destruct d as [a |]; [| done]. by eapply drop_erasable.
      * rewrite lookup_delete_ne by done. apply S.
    + done.
    + intros v Hv. cbn. rewrite lookup_delete_ne by (intros ->; done). apply A. by right.
    + intros v Hv. apply E. by right.
    + exists G'. rewrite E'. unfold moved_after. cbn [map]. rewrite Ei. split_and!; try done.
      * intros v [V1 V2]%not_elem_of_cons. rewrite O' by done. cbn. by rewrite lookup_delete_ne.
      * intros v [-> | Hv]%elem_of_cons Nv; [| by apply R'].
        rewrite O' by done. cbn. by rewrite lookup_delete_eq.
  - edestruct (IH (apply_effect e X) (kept ++ [i]) G) as (G' & E' & S' & B' & L' & O' & K' & R').
    + done.
    + done.
    + intros v Hv. apply A. by right.
    + intros v Hv. apply E. by right.
    + exists G'. rewrite E', <- app_assoc. unfold moved_after. cbn [map]. rewrite Ei. split_and!; try done.
      * intros v [V1 V2]%not_elem_of_cons. by apply O'.
      * intros v [-> | Hv]%elem_of_cons; [| by apply K'].
        rewrite O' by done. apply A. by left.
      * intros v [-> | Hv]%elem_of_cons Nv; [exfalso; apply Nv; by left |].
        apply R'; [done |]. intros Kv. apply Nv. by right.
Qed.

(** ** Functions *)

(** A block is in the function once, and an instruction in one block once. *)
Record owned_once : Prop := {
  own_blocks : NoDup (blocks F);
  own_held : forall b, b ∈ blocks F -> has_block b F;
  own_insts : forall b, b ∈ blocks F -> NoDup (getInstructions b F);
  own_apart : forall b c i, b ∈ blocks F -> c ∈ blocks F ->
    i ∈ getInstructions b F -> i ∈ getInstructions c F -> b = c;
}.

Context (Own : owned_once).

(** A block after the sweep, when it starts with the variables of [X] moved. *)
Record swept G X b : Prop := {
  sw_list : getInstructions b G = kept_of X (getInstructions b F);
  sw_kept : forall v, v ∈ kept_of X (getInstructions b F) -> insts G !! v = insts F !! v;
  sw_gone : forall v, v ∈ getInstructions b F -> v ∉ kept_of X (getInstructions b F) -> insts G !! v = None;
}.

Record untouched_block G b : Prop := {
  un_list : getInstructions b G = getInstructions b F;
  un_insts : forall v, v ∈ getInstructions b F -> insts G !! v = insts F !! v;
}.

(** Between two blocks of the sweep. *)
Record sweeping (into : gmap ref (gset ref)) (pre : list ref) G : Prop := {
  ss_shrunk : shrunk F G;
  ss_blocks : blocks G = blocks F;
  ss_edges : forall b, getSuccessors b G = getSuccessors b F /\ (has_block b F -> has_block b G);
  ss_done : forall b, b ∈ pre -> swept G (set_of b into) b;
  ss_todo : forall b, b ∈ blocks F -> b ∉ pre -> untouched_block G b;
}.

Lemma sweep_block_step into pre b post changed G :
  sweep_ends -> blocks F = pre ++ b :: post -> sweeping into pre G ->
  exists st', sweep_block fuel memory other_name M into (changed, G) b = Some st'
    /\ sweeping into (pre ++ [b]) (snd st').
Proof.
  intros E L [S B Ed D T].
  assert (Hb : b ∈ blocks F) by (rewrite L; set_solver).
  assert (Nb : b ∉ pre).
  { pose proof (own_blocks Own) as N. rewrite L in N. apply NoDup_app in N as (_ & N & _).
    intros K. by apply (N b K); left. }
  destruct (T b Hb Nb) as [T1 T2].
  edestruct (sweep_insts_spec (getInstructions b F) (set_of b into) [] G)
    as (G' & Q & S' & B' & L' & O' & K' & R'); [done | by apply Own | done | by eauto |].
  unfold sweep_block. rewrite T1, Q. cbn [mbind option_bind app]. eexists. split; [done |].
  set (H := upd_block b (with_instructions (kept_of (set_of b into) (getInstructions b F))) G').
  assert (Get : forall c, getInstructions c H = if decide (c = b) then kept_of (set_of b into) (getInstructions b F)
                          else getInstructions c G).
  { intros c. unfold H, getInstructions at 1, upd_block. cbn. destruct (decide (c = b)) as [-> | N].
    - rewrite lookup_alter_eq, B'. destruct (proj2 (Ed b) (own_held Own b Hb)) as [Bb ->]. done.
    - rewrite lookup_alter_ne, B' by done. done. }
  split.
  - exact S'.
  - cbn. by rewrite L'.
  - intros c. destruct (Ed c) as [E1 E2]. split.
    + rewrite <- E1. unfold getSuccessors, upd_block. cbn. rewrite B'.
      destruct (decide (c = b)) as [-> | N]; [| by rewrite lookup_alter_ne].
      rewrite lookup_alter_eq. by destruct (bbs G !! b).
    + intros Hc. specialize (E2 Hc). unfold has_block, upd_block in *. cbn. rewrite B'.
      by rewrite lookup_alter_is_Some.
  - intros c [Hc | ->%list_elem_of_singleton]%elem_of_app.
    + assert (Nc : c <> b) by (intros ->; done).
      assert (Hc' : c ∈ blocks F) by (rewrite L; set_solver).
      assert (A : forall v, v ∈ getInstructions c F -> insts H !! v = insts G !! v).
      { intros v Hv. cbn. apply O'. intros Hv'. by apply Nc, (own_apart Own c b v). }
      destruct (D c Hc) as [D1 D2 D3]. split.
      * rewrite Get, decide_False by done. done.
      * intros v Hv. rewrite A; [by apply D2 |]. eapply elem_of_sublist; [done | apply kept_sublist].
      * intros v Hv Nv. rewrite A by done. by apply D3.
    + split; [by rewrite Get, decide_True | exact K' | exact R'].
  - intros c Hc Nc. apply not_elem_of_app in Nc as [Nc1 Nc2%not_elem_of_cons].
    destruct (T c Hc Nc1) as [U1 U2]. split.
    + rewrite Get, decide_False; [done | tauto].
    + intros v Hv. cbn. rewrite O'; [by apply U2 |]. intros Hv'. by apply (proj1 Nc2), (own_apart Own c b v).
Qed.

Lemma sweep_blocks_drop into : sweep_ends ->
  exists st', fold_some (sweep_block fuel memory other_name M into) (blocks F) (false, F) = Some st'
    /\ sweeping into (blocks F) (snd st').
Proof.
  intros E. apply (fold_some_ind _ (fun pre st => sweeping into pre (snd st))).
  - split; cbn; try done.
    + intros v. by left.
    + intros b Hb. by apply not_elem_of_nil in Hb.
  - intros pre b post [changed G] L S. by eapply sweep_block_step.
Qed.

(** C8: what the pass erases.  On a function with a body whose blocks hold each instruction once,
    in which no branch leads back to the entry and no call goes to the result of a call, and
    with fuel for the chains of values and the texts of types, the pass ends, and every
    instruction of a block either stays where it is, unchanged, or it destroys a variable and is
    gone.  Then, whatever path from the entry leads to it, that variable has been moved before
    it and has not been assigned since, in the sense of the analysis up to the block and of the
    sweep within it; or the instruction is a call that moves the variable itself, by an argument
    that is a load with a name other than [cleanup_val], and is erased for that. *)
Theorem drop_elision_safe :
  flow_ends fuel memory M F -> sweep_ends -> entry_first F -> blocks F <> [] ->
  exists changed F', runOnFunction fuel memory other_name M F = Some (changed, F')
    /\ blocks F' = blocks F
    /\ forall b, b ∈ blocks F ->
        getSuccessors b F' = getSuccessors b F
        /\ getInstructions b F' `sublist_of` getInstructions b F
        /\ forall pre i post, getInstructions b F = pre ++ i :: post ->
            (i ∈ getInstructions b F' /\ insts F' !! i = insts F !! i)
            \/ (i ∉ getInstructions b F' /\ insts F' !! i = None
                /\ exists a, drop_of F i = Some (Some a)
                    /\ ((forall X, arrives fuel memory M F b X -> a ∈ moved_after X pre)
                        \/ moves_itself i a)).
Proof.
  intros Hf Hs He Ne. unfold runOnFunction, isDeclaration. rewrite bool_decide_false by done.
  destruct (movedIn_solved fuel memory M F Hf) as (In & Out & HIn & _). rewrite HIn. cbn.
  destruct (sweep_blocks_drop In Hs) as ([changed F'] & -> & [_ B Ed D _]). cbn [snd] in *.
  exists changed, F'. split; [done |]. split; [done |]. intros b Hb. destruct (D b Hb) as [D1 D2 D3].
  split; [by apply Ed |]. rewrite D1. split; [apply kept_sublist |]. intros pre i post L.
  destruct (decide (i ∈ kept_of (set_of b In) (getInstructions b F))) as [K | K]; [left; auto | right].
  split_and!; [done | apply D3; [rewrite L; set_solver | done] |].
  rewrite L, kept_app in K. apply not_elem_of_app in K as [_ K]. cbn [kept_of] in K.
  destruct (dropped _ i) eqn:Q; [| exfalso; apply K; by left].
  unfold dropped in Q. destruct (drop_of F i) as [[a |] |] eqn:Da; try done. exists a. split; [done |].
  apply bool_decide_eq_true in Q. destruct (moved_here _ _ _ Q Da) as [P | P]; [left | by right]. intros X A.
  apply (moved_after_mono (set_of b In) X); [by eapply movedIn_arrives | done].
Qed.

End Sweep.

(** ** The conditions, decided *)

Definition all_insts_b F (f : ref -> bool) : bool :=
  forallb (fun b => forallb f (getInstructions b F)) (blocks F).

Lemma all_insts_spec F (f : ref -> bool) b i :
  all_insts_b F f = true -> b ∈ blocks F -> i ∈ getInstructions b F -> f i = true.
Proof.
  unfold all_insts_b. rewrite forallb_forall. intros A Hb Hi.
  apply list_elem_of_In in Hb, Hi. specialize (A b Hb). rewrite forallb_forall in A. by apply A.
Qed.

Definition owned_b F : bool :=
  bool_decide (NoDup (blocks F))
  && forallb (fun b => bool_decide (is_Some (bbs F !! b)) && bool_decide (NoDup (getInstructions b F))
      && forallb (fun c => bool_decide (b = c)
           || forallb (fun i => negb (bool_decide (i ∈ getInstructions c F))) (getInstructions b F)) (blocks F))
     (blocks F).

Lemma owned_spec F : owned_b F = true -> owned_once F.
Proof.
  unfold owned_b. rewrite andb_true_iff, bool_decide_eq_true, forallb_forall. intros [N A].
  assert (K : forall b, b ∈ blocks F -> has_block b F /\ NoDup (getInstructions b F)
    /\ forall c, c ∈ blocks F -> b = c \/ forall i, i ∈ getInstructions b F -> i ∉ getInstructions c F).
  { intros b Hb. apply list_elem_of_In in Hb. specialize (A b Hb).
    apply andb_true_iff in A as [[A1%bool_decide_eq_true A2%bool_decide_eq_true]%andb_true_iff A3].
    split_and!; [done.. |]. intros c Hc. apply list_elem_of_In in Hc. rewrite forallb_forall in A3.
    apply A3, orb_true_iff in Hc as [Hc%bool_decide_eq_true | Hc]; [by left | right].
    rewrite forallb_forall in Hc. intros i Hi%list_elem_of_In. apply Hc in Hi.
    by apply negb_true_iff, bool_decide_eq_false in Hi. }
  split; [done | apply K | apply K |]. intros b c i Hb Hc Hi Hi'.
  destruct (proj2 (proj2 (K b Hb)) c Hc) as [? | D]; [done |]. by destruct (D i Hi).
Qed.

Definition calls_kept_b F : bool :=
  forallb (fun q => match i_kind (snd q) with
                    | CallInst c _ _ | InvokeInst c _ _ _ => negb (erasable F c)
                    | _ => true
                    end) (map_to_list (insts F)).

Lemma calls_kept_spec F : calls_kept_b F = true -> calls_kept F.
Proof.
  unfold calls_kept_b. rewrite forallb_forall. intros A i k c args K D.
  unfold kind_of in K. apply fmap_Some in K as (J & E & ->).
  assert (Q : In (i, J) (map_to_list (insts F))) by by apply list_elem_of_In, elem_of_map_to_list.
  specialize (A (i, J) Q). cbn [snd] in A.
  destruct D as [[va D] | (n & u & D)]; rewrite D in A; by apply negb_true_iff in A.
Qed.

(** ** At concrete functions *)

Module DropExamples.

(** [4] owns a number and [6] shares one; [5] and [7] are the addresses of such variables. *)
Definition types : TypeHeap :=
  list_to_map [(2%N, HIRIntType 32 true false); (4%N, PointerType 2 Ownership.Owned BorrowState.None_);
               (5%N, PointerType 4 Ownership.None_ BorrowState.None_);
               (6%N, PointerType 2 Ownership.Shared BorrowState.None_);
               (7%N, PointerType 6 Ownership.None_ BorrowState.None_)].

Definition value (name : string) (t : TypePtr) (k : InstKind) : MIRInst :=
  {| i_kind := k; i_type := t; i_name := name; i_loc := None; i_borrow := Some BorrowKind.None_;
     i_parent := nullptr |}.

Definition module (F : MIRFunction) : MIRModule :=
  addFunction 201 {| fn_name := "__moksha_free"; fn_body := {| insts := ∅; bbs := ∅; blocks := []; next_ref := 300 |} |}
    (addFunction 200 {| fn_name := "f"; fn_body := F |} (newModule "m" types 10 300)).

Definition block (l succs : list ref) : MIRBlock :=
  {| b_name := ""; instructions := l; predecessors := []; successors := succs |}.

(** [y = x;] in one block, the release of [x] in the next. *)
Definition moving : MIRFunction :=
  {| insts := list_to_map
       [(11%N, value "x" 5 (AllocaInst 4 0)); (12%N, value "y" 5 (AllocaInst 4 0));
        (13%N, value "x.val" 4 (LoadInst 11 0 false)); (14%N, value "" 0 (StoreInst 13 12 0 false));
        (15%N, value "" 0 (BranchInst 2)); (16%N, value "cleanup_val" 4 (LoadInst 11 0 false));
        (17%N, value "" 0 (CallInst 201 [16%N] false)); (18%N, value "" 0 (ReturnInst 0))];
     bbs := list_to_map [(1%N, block [11; 12; 13; 14; 15]%N [2%N]); (2%N, block [16; 17; 18]%N [])];
     blocks := [1; 2]%N; next_ref := 300%N |}.

(** [y = x;] for a shared object with its count, and the releases of both in the same block. *)
Definition sharing : MIRFunction :=
  {| insts := list_to_map
       [(11%N, value "x" 7 (AllocaInst 6 0)); (12%N, value "y" 7 (AllocaInst 6 0));
        (13%N, value "x.val" 6 (LoadInst 11 0 false)); (14%N, value "" 0 (ARCInst Opcode.Retain 13 0));
        (15%N, value "" 0 (StoreInst 13 12 0 false));
        (16%N, value "cleanup_val" 6 (LoadInst 11 0 false)); (17%N, value "" 0 (ARCInst Opcode.Release 16 0));
        (18%N, value "cleanup_val" 6 (LoadInst 12 0 false)); (19%N, value "" 0 (ARCInst Opcode.Release 18 0));
        (20%N, value "" 0 (ReturnInst 0))];
     bbs := list_to_map [(1%N, block [11; 12; 13; 14; 15; 16; 17; 18; 19; 20]%N [])];
     blocks := [1]%N; next_ref := 300%N |}.

(** [y = x;], and the release of [x] by a call that may throw. *)
Definition invoking : MIRFunction :=
  {| insts := list_to_map
       [(11%N, value "x" 5 (AllocaInst 4 0)); (12%N, value "y" 5 (AllocaInst 4 0));
        (13%N, value "x.val" 4 (LoadInst 11 0 false)); (14%N, value "" 0 (StoreInst 13 12 0 false));
        (15%N, value "cleanup_val" 4 (LoadInst 11 0 false));
        (16%N, value "" 0 (InvokeInst 201 [15%N] 2 3)); (17%N, value "" 0 (ReturnInst 0));
        (18%N, value "" 0 UnreachableInst)];
     bbs := list_to_map [(1%N, block [11; 12; 13; 14; 15; 16]%N [2; 3]%N); (2%N, block [17]%N []);
                         (3%N, block [18]%N [])];
     blocks := [1; 2; 3]%N; next_ref := 300%N |}.

Definition memory : ref -> BorrowKind.t := fun _ => BorrowKind.None_.
Definition nameless : ref -> string := fun _ => "".

(** What is left of the blocks. *)
Definition after F : option (bool * list (list ref)) :=
  '(changed, F) ← runOnFunction 9 memory nameless (module F) F;
  Some (changed, map (fun b => getInstructions b F) (blocks F)).

Example moving_result : after moving = Some (true, [[11; 12; 13; 14; 15]; [16; 18]]%N).
Proof. by vm_compute. Qed.

End DropExamples.

Import DropExamples.

Lemma drop_elision_safe_witness :
  exists changed F', runOnFunction 9 memory nameless (module moving) moving = Some (changed, F')
    /\ 17%N ∉ getInstructions 2 F' /\ forall X, arrives 9 memory (module moving) moving 2 X -> 11%N ∈ X.
Proof.
  destruct (drop_elision_safe 9 memory nameless (module moving) moving) as (changed & F' & R & _ & K).
  - apply calls_kept_spec. by vm_compute.
  - apply owned_spec. by vm_compute.
  - intros b i Hb Hi.
    assert (A : all_insts_b moving (fun i => bool_decide (is_Some (flow_effect 9 memory (module moving) moving i))) = true)
      by by vm_compute.
    apply (all_insts_spec _ _ _ _ A Hb) in Hi. by apply bool_decide_eq_true in Hi.
  - intros b i Hb Hi.
    assert (A : all_insts_b moving (fun i => bool_decide (is_Some (sweep_effect 9 memory moving i))
      && bool_decide (is_Some (drop_of 9 nameless (module moving) moving i))) = true) by by vm_compute.
    apply (all_insts_spec _ _ _ _ A Hb), andb_true_iff in Hi as [H1 H2].
    by apply bool_decide_eq_true in H1, H2.
  - intros b Hb. assert (A : forallb (fun b => negb (bool_decide (1%N ∈ getSuccessors b moving))) (blocks moving) = true)
      by by vm_compute.
    rewrite forallb_forall in A. apply list_elem_of_In, A, negb_true_iff, bool_decide_eq_false in Hb. exact Hb.
  - done.
  - exists changed, F'. split; [done |].
    assert (Q : after moving = Some (changed, map (fun b => getInstructions b F') (blocks F'))) by by unfold after; rewrite R.
    destruct (K 2%N ltac:(vm_compute; repeat constructor)) as (_ & _ & K2).
    destruct (K2 [16%N] 17%N [18%N] eq_refl) as [[I E] | (I & _ & a & D & P)].
    + exfalso. revert R. vm_compute. intros [= _ <-]. revert I. vm_compute.
      intros I. apply list_elem_of_In in I. cbn in I. destruct I as [I | [I | []]]; discriminate.
    + split; [done |]. assert (Some (Some a) = Some (Some 11%N)) as [= ->] by (rewrite <- D; by vm_compute).
      destruct P as [P | (c & args & va & v & l & E & Hv & E' & Hl)].
      * intros X A. specialize (P X A). revert P. unfold moved_after, apply_effects. cbn [map fold_left].
        replace (effect_of 9 memory moving 16) with no_effect by by vm_compute.
        rewrite elem_of_effect. unfold no_effect. cbn [moved]. intros [N | [P _]]; [destruct (not_elem_of_nil _ N) | exact P].
      * exfalso. vm_compute in E. injection E as <- <- <-. apply list_elem_of_singleton in Hv as ->.
        vm_compute in E'. injection E' as <-. destruct (not_elem_of_nil _ Hl).
Defined.

(** The sweep erases more than the analysis allows.  It does not ask whether the object is
    shared, so that the release of one of two owners of a counted object is lost and the count
    stays too high; and the call that it erases may be the terminator of its block, which is
    left without one. *)
Theorem drop_elision_breaks :
  (movedIn 9 memory (module sharing) sharing = Some {[1%N := ∅]}
   /\ after sharing = Some (true, [[11; 12; 13; 14; 15; 16; 18; 19; 20]]%N))
  /\ (match runOnFunction 9 memory nameless (module invoking) invoking with
      | Some (_, F') => terminator 1 F' = 15%N /\ kind_of 15 F' = Some (LoadInst 11 0 false)
      | None => False
      end).
Proof. by vm_compute. Qed.
