(* ===== verification/EscapeAnalysis.v ===== *)
(** * Escape analysis

    [EscapeAnalysisPass] of [lib/middle/mir/passes/EscapeAnalysisPass.cpp]: an object on the
    heap whose address does not leave the function becomes a local variable, and the calls
    that free it go.  A function works on its heap from the counter of the module. *)

From S2P Require Import Prelude Diag HIRType MIR MIRModule ConstFold Mem2Reg DefUse DropElision.

#[local] Open Scope string_scope.

Implicit Types (F : MIRFunction) (M : MIRModule) (b i f v u : ref) (k : InstKind) (U : DefUse).

(** ** Walks *)

(** The loops over a stack of values: a value that was visited is skipped, the walk answers
    yes at the first one that stops it, and otherwise pushes those that follow.  The head of
    the list is the back of the vector. *)
Section Walk.
Context (stop : ref -> bool) (next : ref -> list ref).

Fixpoint walk (fuel : nat) (worklist visited : list ref) : option bool :=
  match fuel with
  | 0 => None
  | S fuel =>
      match worklist with
      | [] => Some false
      | curr :: worklist =>
          if bool_decide (curr ∈ visited) then walk fuel worklist visited
          else if stop curr then Some true
          else walk fuel (rev (next curr) ++ worklist)%list (curr :: visited)
      end
  end.

End Walk.

(** Every user of a value is pushed at most once. *)
Definition total_uses U : nat := sum_list_with (fun q => List.length (snd q)) (map_to_list U).

Definition walk_uses U (stop : ref -> bool) (next : ref -> list ref) (worklist : list ref) : option bool :=
  walk stop next (S (List.length worklist + total_uses U)) worklist [].

(** ** The def-use map *)

Definition recorded k : list ref :=
  let non_null v := if N.eqb v nullptr then [] else [v] in
  match k with
  | StoreInst v p _ _ => [v; p]
  | LoadInst p _ _ => [p]
  | GetElementPtrInst p _ => [p]
  | CastInst _ v _ => [v]
  | InsertValueInst agg v _ => [agg; v]
  | ExtractValueInst agg _ => [agg]
  | CallInst _ args _ => args
  | InvokeInst _ args _ _ => args
  | ThrowInst e _ => non_null e
  | ResumeInst e => non_null e
  | InlineAsmInst _ _ args _ => args
  | StoreWeakInst v p => [v; p]
  | ARCInst _ object _ => [object]
  | ReturnInst v => non_null v
  | MakeClosureInst f caps => f :: caps
  | SpawnInst c _ => non_null c
  | _ => []
  end.

(** [fuel] bounds the depth of types, and [other_name] is the name of a value that is neither
    an instruction nor a function nor a global. *)
Section Pass.
Context (fuel : nat) (other_name : ref -> string).

(** The instruction calls the function of this name. *)
Definition calls (name : string) M F k : bool :=
  match k with
  | CallInst c _ _ | InvokeInst c _ _ _ =>
      negb (N.eqb c nullptr) && String.eqb (value_name other_name M F c) name
  | _ => false
  end.

(** The allocations of an object, but not of an array. *)
Definition is_allocation M F i : bool :=
  match kind_of i F with
  | Some (CallInst c args va) =>
      calls "__moksha_alloc" M F (CallInst c args va)
      && negb (match args with
               | _ :: typeId :: _ =>
                   match const_of typeId M with Some (ConstantInt z) => Z.eqb z 3 | _ => false end
               | _ => false
               end)
  | _ => false
  end.

Definition allocations M F : list ref :=
  concat (map (fun b => filter (fun i => is_allocation M F i = true) (getInstructions b F)) (blocks F)).

(** ** [doesEscape] *)

(** A user lets a value escape. *)
Definition user_escapes M F (curr user : ref) : bool :=
  match kind_of user F with
  | Some (StoreInst v _ _ _) => N.eqb v curr
  | Some (CallInst c _ _ as k) | Some (InvokeInst c _ _ _ as k) =>
      negb (N.eqb c nullptr) && negb (calls "__moksha_alloc" M F k) && negb (calls "__moksha_free" M F k)
  | Some (GetElementPtrInst _ _) | Some (CastInst _ _ _) | Some (ExtractValueInst _ _)
  | Some (InsertValueInst _ _ _) | Some (MakeClosureInst _ _) => false
  | Some _ => true
  | None => false
  end.

(** A user is another name of the value. *)
Definition user_aliases F (user : ref) : bool :=
  match kind_of user F with
  | Some (GetElementPtrInst _ _) | Some (CastInst _ _ _) | Some (InsertValueInst _ _ _)
  | Some (MakeClosureInst _ _) => true
  | Some (ExtractValueInst _ index) => Z.eqb index 0
  | _ => false
  end.

Definition doesEscape M F U v : option bool :=
  walk_uses U (fun curr => existsb (user_escapes M F curr) (users curr U))
    (fun curr => filter (fun u => user_aliases F u = true) (users curr U)) [v].

(** ** Promotion *)

Definition is_arc F u : bool := match kind_of u F with Some (ARCInst _ _ _) => true | _ => false end.

(** The instructions that the search for [ARCInst] goes through. *)
Definition arc_next F U u : list ref :=
  match kind_of u F with
  | Some (CastInst _ _ _) | Some (GetElementPtrInst _ _) | Some (StoreInst _ _ _ _)
  | Some (InsertValueInst _ _ _) | Some (ExtractValueInst _ _) => users u U
  | _ => []
  end.

Definition hasARCUses F U v : option bool :=
  walk_uses U (is_arc F) (arc_next F U) (rev (users v U)).

Definition is_cast F u : bool := match kind_of u F with Some (CastInst _ _ _) => true | _ => false end.

Definition casts_of F U v : list ref := filter (fun u => is_cast F u = true) (users v U).

(** The type of the object behind the type of the first cast, and whether it is shared. *)
Definition stack_type M (actualType : TypePtr) : option (TypePtr * bool) :=
  match m_types M !! actualType with
  | Some (PointerType pointee own _) => Some (pointee, bool_decide (own = Ownership.Shared))
  | Some _ =>
      text ← toString fuel (m_types M) actualType;
      Some (actualType, contains_text "shared " text)
  | None => if N.eqb actualType nullptr then Some (actualType, false) else None
  end.

(** [getParent()->getInstructionsMut().erase(...)]. *)
Definition erase_self F i : MIRFunction :=
  match insts F !! i with
  | Some J => if bool_decide (i ∈ getInstructions (i_parent J) F) then erase_inst (i_parent J) i F else F
  | None => F
  end.

Definition is_free M F u : bool :=
  match kind_of u F with Some k => calls "__moksha_free" M F k | None => false end.

(** The calls that free the object, through its casts and directly. *)
Definition free_calls M F U (bitcasts : list ref) (alloc : ref) : list ref :=
  filter (fun u => is_free M F u = true) (concat (map (fun v => users v U) bitcasts) ++ users alloc U)%list.

(** The variable, at the start of the entry block, and the uses of it. *)
Definition move_to_stack F (A : MIRInst) (alloc : ref) (bitcasts : list ref) (actualType pointee : TypePtr) :
    MIRFunction :=
  let entry := getEntryBlock F in
  let '(new, F) := new_inst
    (setBorrowKind BorrowKind.Mut
       {| i_kind := AllocaInst pointee 8; i_type := actualType; i_name := i_name A ++ ".stack";
          i_loc := i_loc A; i_borrow := None; i_parent := entry |}) F in
  let F := upd_block entry (fun B => with_instructions (new :: instructions B) B) F in
  let F := fold_left (fun F bc => replaceAllUsesInFunction bc new F) bitcasts F in
  let F := replaceAllUsesInFunction alloc new F in
  fold_left (fun F bc => erase_self (replaceAllUsesInFunction bc new F) bc) bitcasts F.

(** The turn of the loop for one allocation. *)
Definition promote M U (st : bool * MIRFunction) (alloc : ref) : option (bool * MIRFunction) :=
  let '(changed, F) := st in
  escapes ← doesEscape M F U alloc;
  if (escapes : bool) then Some st
  else
    arc ← hasARCUses F U alloc;
    if (arc : bool) then Some st
    else
      match insts F !! alloc, casts_of F U alloc with
      | Some A, ((bc :: _) as bitcasts) =>
          actualType ← i_type <$> insts F !! bc;
          '(pointee, isShared) ← stack_type M actualType;
          if (isShared : bool) then Some st
          else
            let F := move_to_stack F A alloc bitcasts actualType pointee in
            let F := fold_left erase_self (free_calls M F U bitcasts alloc) F in
            Some (true, erase_self F alloc)
      | _, _ => Some st
      end.

Definition runOnFunction M F : option (bool * MIRFunction) :=
  if isDeclaration F then Some (false, F)
  else fold_some (promote M (build_def_use recorded F)) (allocations M F) (false, F).

Definition run_function (st : bool * MIRModule) f : option (bool * MIRModule) :=
  let '(changed, M) := st in
  '(c, F) ← runOnFunction M (with_next (m_next M) (body f M));
  Some (changed || c, set_body f F (set_next (next_ref F) M)).

Definition runOnModule M : option (bool * MIRModule) :=
  let '(funcs, M) := getFunctions M in fold_some run_function funcs (false, M).

End Pass.
