(* ===== verification/EscapeProps.v ===== *)
(** * Escape analysis: walks and functions

    The walks end and decide reachability; promotion keeps the invariant of a function. *)

From S2P Require Import Prelude Diag HIRType MIR MIRFacts SimplifyCFG SimplifyCFGProps MIRModule MIRUses ConstFold Transform Worklist.
From S2P Require Import Mem2Reg DefUse DropElision EscapeAnalysis.

Implicit Types (F G : MIRFunction) (M : MIRModule) (a b i f v u o n : ref) (k : InstKind) (U : DefUse).
Implicit Types (news dead : list ref) (σ : ref -> ref).

(** ** Walks *)

Lemma elem_of_rev (l : list ref) v : v ∈ rev l <-> v ∈ l.
Proof. rewrite !list_elem_of_In. symmetry. apply in_rev. Qed.

Section Walks.
Context (U : DefUse) (stop : ref -> bool) (next : ref -> list ref).
Context (Hnext : forall v, List.length (next v) <= List.length (users v U)).

(** The users of the values that are not visited yet. *)
Definition users_left (visited : list ref) : nat :=
  sum_list_with (fun q => if decide (fst q ∈ visited) then 0 else List.length (snd q)) (map_to_list U).

Lemma users_left_cons curr visited : curr ∉ visited ->
  users_left (curr :: visited) + List.length (users curr U) <= users_left visited.
Proof.
  intros N. unfold users_left, users.
  assert (L : forall l : list (ref * list ref), NoDup (l.*1) ->
    sum_list_with (fun q => if decide (fst q ∈ curr :: visited) then 0 else List.length (snd q)) l
    + List.length (default [] ((list_to_map l : DefUse) !! curr)) <= sum_list_with (fun q => if decide (fst q ∈ visited) then 0 else List.length (snd q)) l).
  { induction l as [| [w us] l IH]; intros ND; cbn [sum_list_with list_to_map foldr fst snd uncurry].
    { change (list_to_map []) with (∅ : DefUse). by rewrite lookup_empty. }
    apply NoDup_cons in ND as [Nw ND]. specialize (IH ND).
    change (list_to_map ((w, us) :: l) : DefUse) with (<[w := us]> (list_to_map l : DefUse)).
    destruct (decide (w = curr)) as [-> | D].
    - rewrite lookup_insert_eq, decide_True, decide_False by (done || by left).
      cbn [default from_option id]. lia.
    - rewrite lookup_insert_ne by done. destruct (decide (w ∈ visited)) as [V | V].
      + rewrite decide_True by (by right). lia.
      + rewrite decide_False by (rewrite elem_of_cons; tauto). lia. }
  specialize (L (map_to_list U) (NoDup_fst_map_to_list U)). rewrite list_to_map_to_list in L.
  exact L.
Qed.

Lemma walk_ends fuel : forall worklist visited,
  List.length worklist + users_left visited < fuel -> is_Some (walk stop next fuel worklist visited).
Proof.
  induction fuel as [| fuel IH]; intros worklist visited L; [lia |]. cbn [walk].
  destruct worklist as [| curr worklist]; [done |]. cbn [List.length] in L.
  case_bool_decide as V; [apply IH; lia |]. destruct (stop curr); [done |].
  apply IH. rewrite length_app, length_rev.
  pose proof (users_left_cons curr visited V). specialize (Hnext curr). lia.
Qed.

(** What stays to be done when the walk has visited some values. *)
Lemma walk_true fuel : forall worklist visited,
  walk stop next fuel worklist visited = Some true -> exists v, reached next worklist v /\ stop v = true.
Proof.
  induction fuel as [| fuel IH]; intros worklist visited; [done |]. cbn [walk].
  destruct worklist as [| curr worklist]; [done |].
  assert (More : forall l, (forall v, v ∈ l -> reached next (curr :: worklist) v) ->
    forall v, reached next l v -> reached next (curr :: worklist) v).
  { intros l Hl v R. induction R as [v Hv | u v _ IHu Hv]; [by apply Hl | by eapply reached_next]. }
  case_bool_decide.
  - intros (v & R & S)%IH. exists v. split; [| done]. eapply More; [| done].
    intros w Hw. apply reached_root. by right.
  - destruct (stop curr) eqn:S; [intros _; exists curr; split; [apply reached_root; left | done] |].
    intros (v & R & S')%IH. exists v. split; [| done]. eapply More; [| done].
    intros w [Hw | Hw]%elem_of_app.
    + eapply reached_next; [apply reached_root; left |]. by apply elem_of_rev.
    + apply reached_root. by right.
Qed.

Lemma walk_false fuel : forall worklist visited,
  walk stop next fuel worklist visited = Some false ->
  (forall v, v ∈ visited -> stop v = false /\ forall w, w ∈ next v -> w ∈ visited \/ w ∈ worklist) ->
  forall v, (v ∈ visited \/ reached next worklist v) -> stop v = false.
Proof.
  induction fuel as [| fuel IH]; intros worklist visited; [done |]. cbn [walk].
  destruct worklist as [| curr worklist].
  { intros _ C v [Hv | R]; [by apply C |].
    exfalso. induction R as [v Hv | u v _ IHu _]; [by apply not_elem_of_nil in Hv | done]. }
  assert (Split : forall l, (forall w, w ∈ curr :: worklist -> w ∈ visited \/ reached next l w) ->
    (forall v, v ∈ visited -> forall w, w ∈ next v -> w ∈ visited \/ reached next l w) ->
    forall v, reached next (curr :: worklist) v -> v ∈ visited \/ reached next l v).
  { intros l Hl C v R. induction R as [v Hv | u v _ [IHu | IHu] Hv]; [by apply Hl | by apply (C u) |].
    right. by eapply reached_next. }
  case_bool_decide as V.
  - intros W C v Hv. eapply (IH worklist visited W).
    + intros w Hw. destruct (C w Hw) as [C1 C2]. split; [done |]. intros x Hx.
      destruct (C2 x Hx) as [? | [-> | ?]%elem_of_cons]; auto.
    + destruct Hv as [Hv | R]; [by left |]. apply Split; [| | done].
      * intros w [-> | Hw]%elem_of_cons; [by left | right; by apply reached_root].
      * intros w Hw x Hx. destruct (C w Hw) as [_ C2].
        destruct (C2 x Hx) as [? | [-> | ?]%elem_of_cons]; [by left | by left | right; by apply reached_root].
  - destruct (stop curr) eqn:S; [done |]. intros W C v Hv.
    eapply (IH _ (curr :: visited) W).
    + intros w [-> | Hw]%elem_of_cons.
      * split; [done |]. intros x Hx. right. apply elem_of_app. left. by apply elem_of_rev.
      * destruct (C w Hw) as [C1 C2]. split; [done |]. intros x Hx.
        destruct (C2 x Hx) as [? | [-> | ?]%elem_of_cons]; [left; by right | left; by left | right].
        apply elem_of_app. by right.
    + destruct Hv as [Hv | R]; [left; by right |].
      revert R. induction 1 as [v Hv | u v _ IHu Hv].
      * apply elem_of_cons in Hv as [-> | Hv]; [left; by left | right; apply reached_root, elem_of_app; by right].
      * destruct IHu as [[-> | Hu]%elem_of_cons | Hu].
        -- right. apply reached_root, elem_of_app. left. by apply elem_of_rev.
        -- destruct (C u Hu) as [_ C2]. destruct (C2 v Hv) as [? | [-> | ?]%elem_of_cons];
             [left; by right | left; by left | right; apply reached_root, elem_of_app; by right].
        -- right. by eapply reached_next.
Qed.

(** A walk ends, and answers whether a value that stops it is reached. *)
Lemma walk_uses_spec worklist : exists yes, walk_uses U stop next worklist = Some yes
  /\ (yes = true <-> exists v, reached next worklist v /\ stop v = true).
Proof.
  unfold walk_uses.
  assert (Z : users_left [] = total_uses U) by done.
  destruct (walk_ends (S (List.length worklist + total_uses U)) worklist []) as [yes E]; [lia |].
  exists yes. split; [done |]. destruct yes.
  - split; [intros _ | done]. by eapply walk_true.
  - split; [done |]. intros (v & R & S). pose proof (walk_false _ _ _ E) as K.
    rewrite (K ltac:(intros w Hw; by apply not_elem_of_nil in Hw) v (or_intror R)) in S. done.
Qed.

End Walks.

Lemma length_filter_le {A} (P : A -> Prop) `{forall x, Decision (P x)} (l : list A) :
  List.length (filter P l) <= List.length l.
Proof. induction l as [| x l IH]; [done |]. rewrite filter_cons. case_decide; cbn; lia. Qed.

(** ** [doesEscape] *)

Section Escape.
Context (fuel : nat) (other_name : ref -> string) (M : MIRModule) (F : MIRFunction) (U : DefUse).

(** The other names of a value, over the recorded users. *)
Definition aliases v : list ref := filter (fun u => user_aliases F u = true) (users v U).

Lemma doesEscape_spec v : exists escapes, doesEscape other_name M F U v = Some escapes
  /\ (escapes = true <-> exists w u, reached aliases [v] w /\ u ∈ users w U
        /\ user_escapes other_name M F w u = true).
Proof.
  destruct (walk_uses_spec U (fun curr => existsb (user_escapes other_name M F curr) (users curr U)) aliases)
    with (worklist := [v]) as (yes & E & K); [intros w; apply length_filter_le |].
  exists yes. split; [exact E |]. rewrite K. split.
  - intros (w & R & S). apply existsb_exists in S as (u & Hu%list_elem_of_In & S). by exists w, u.
  - intros (w & u & R & Hu & S). exists w. split; [done |]. apply existsb_exists. exists u.
    by rewrite <- list_elem_of_In.
Qed.

Lemma hasARCUses_ends v : is_Some (hasARCUses F U v).
Proof.
  destruct (walk_uses_spec U (is_arc F) (arc_next F U)) with (worklist := rev (users v U)) as (yes & E & _).
  - intros w. unfold arc_next. destruct (kind_of w F) as [[] |]; cbn; lia.
  - unfold hasARCUses. rewrite E. done.
Qed.

End Escape.

(** ** Promotion *)

(** Calls and casts: what the pass removes. *)
Definition removable F v : bool :=
  match kind_of v F with Some (CallInst _ _ _) | Some (CastInst _ _ _) => true | _ => false end.

Lemma removable_targets F v k : removable F v = true -> kind_of v F = Some k -> targets k = [].
Proof. unfold removable. intros R K. rewrite K in R. by destruct k. Qed.

Definition unused F v : Prop := forall i k, placed F i -> kind_of i F = Some k -> v ∉ value_ops k.

Section Promotion.
Context (fuel : nat) (other_name : ref -> string) (M : MIRModule) (F : MIRFunction) (ext : ref -> Prop).
Context (O : fn_ok ext (next_ref F) F) (Entry : getEntryBlock F ∈ blocks F).
(** An instruction knows its block; what frees an object is a call without result, the
    function that is called is no call or cast; and the types of casts have texts. *)
Context (Parents : forall b i J, b ∈ blocks F -> i ∈ getInstructions b F -> insts F !! i = Some J -> i_parent J = b).
Context (Frees : forall i, placed F i -> is_free other_name M F i = true -> removable F i = true /\ unused F i).
Context (Callees : forall i k c args, placed F i -> kind_of i F = Some k ->
  (exists va, k = CallInst c args va) \/ (exists x y, k = InvokeInst c args x y) -> removable F c = false).
Context (Types : forall i J, placed F i -> is_cast F i = true -> insts F !! i = Some J ->
  is_Some (stack_type fuel M (i_type J))).

#[local] Abbreviation U0 := (build_def_use recorded F).

Lemma users_placed v u : u ∈ users v U0 -> placed F u.
Proof. intros (b & k & Hb & Hu & _)%elem_of_users. by exists b. Qed.

(** An object, or a cast of one. *)
Definition names_object (objects : list ref) v : Prop :=
  v ∈ objects \/ exists op a t, a ∈ objects /\ kind_of v F = Some (CastInst op a t).

(** What the replacement of a value asks of it. *)
Definition may_go v : Prop := placed F v /\ removable F v = true.

Definition may_drop v : Prop := unused F v /\ is_free other_name M F v = true.

(** The state of the loop: objects that do not escape and their casts are replaced by new
    variables, and what is removed is replaced or an unused call that frees. *)
Record promoted (objects : list ref) σ news dead G : Prop := {
  pr_transformed : transformed σ news dead F G;
  pr_replaced : forall v, σ v <> v -> may_go v /\ σ v ∈ news;
  pr_dead : forall v, v ∈ dead -> may_go v /\ (σ v <> v \/ may_drop v);
  pr_object : forall v, σ v <> v -> names_object objects v;
  pr_safe : forall a, a ∈ objects -> is_allocation other_name M F a = true
    /\ doesEscape other_name M F U0 a = Some false;
  pr_vars : forall a, a ∈ news -> exists pointee, kind_of a G = Some (AllocaInst pointee 8);
}.

Lemma promoted_start : promoted [] (fun v => v) [] [] F.
Proof.
  split; [apply transformed_refl | done | | done | |]; intros v Hv; by apply not_elem_of_nil in Hv.
Qed.

Section Step.
Context objects σ news dead G (P : promoted objects σ news dead G).

Lemma names_object_cons a v : names_object objects v -> names_object (a :: objects) v.
Proof.
  intros [? | (op & o & t & ? & ?)]; [left; by right | right]. exists op, o, t. split; [by right | done].
Qed.

Lemma promoted_object a : is_allocation other_name M F a = true -> doesEscape other_name M F U0 a = Some false ->
  promoted (a :: objects) σ news dead G.
Proof.
  intros A E. destruct P as [T R D N S V]. split; try done.
  - intros v Hv. by apply names_object_cons, N.
  - intros v [-> | Hv]%elem_of_cons; [done | by apply S].
Qed.

Lemma promoted_new a : a ∈ news -> ~ placed F a /\ ~ has_block a F.
Proof.
  intros Ha. destruct (tf_new _ _ _ _ _ (pr_transformed _ _ _ _ _ P) a Ha) as [L _]. split; intros Q.
  - pose proof (placed_old _ _ _ _ O Q). lia.
  - pose proof (ok_block_fresh _ _ _ O _ Q). lia.
Qed.

(** The function keeps its invariant. *)
Lemma promoted_ok : fn_ok ext (next_ref G) G.
Proof.
  destruct P as [T R D N S V]. eapply (transformed_ok ext σ news dead F G (next_ref F)); try done.
  - apply (tf_next _ _ _ _ _ T).
  - intros a Ha. by apply (tf_new _ _ _ _ _ T).
  - intros i k _ Hi K. destruct (D i Hi) as [[_ Q] _]. by eapply removable_targets.
  - intros v Hv. destruct (R v Hv) as [[(b & Hb & Hi) _] _]. by apply (ok_held _ _ _ O b).
  - intros v Hv. left. by apply R.
  - intros i k v Pi _ K Hv Dv. destruct (D v Dv) as [_ [? | [Q _]]]; [done |]. by destruct (Q i k Pi K).
Qed.

Lemma promoted_insert J pointee : i_kind J = AllocaInst pointee 8 ->
  promoted objects σ (next_ref G :: news) dead
    (upd_block (getEntryBlock G) (fun B => with_instructions (next_ref G :: instructions B) B) (snd (new_inst J G))).
Proof.
  intros K. assert (Un : unary (i_kind J)) by (rewrite K; by split_and!).
  destruct P as [T R D N S V]. split; try done.
  - by eapply transformed_insert.
  - intros v Hv. destruct (R v Hv) as [? ?]. split; [done | by right].
  - intros a Ha. unfold kind_of. cbn. destruct (decide (a = next_ref G)) as [-> | Q].
    + rewrite lookup_insert_eq. exists pointee. by rewrite <- K.
    + rewrite lookup_insert_ne by done. apply elem_of_cons in Ha as [? | Ha]; [done | by apply V].
Qed.

Lemma promoted_replace o n : may_go o -> names_object objects o -> n ∈ news ->
  promoted objects (fun v => subst_ref o n (σ v)) news dead (replaceAllUsesInFunction o n G)
  /\ subst_ref o n (σ o) <> o /\ (forall v, σ v <> v -> subst_ref o n (σ v) <> v).
Proof.
  intros [Po Ro] No Hn. destruct P as [T R D N S V]. destruct (promoted_new n Hn) as [Nn Bn].
  assert (Keep : forall v, σ v <> v -> subst_ref o n (σ v) <> v).
  { intros v Hv. unfold subst_ref. destruct (N.eqb_spec (σ v) o) as [E | E]; [| done].
    intros ->. destruct (R v Hv) as [[? _] _]. done. }
  assert (Moved : forall v, subst_ref o n (σ v) <> v -> σ v <> v \/ v = o /\ subst_ref o n (σ v) = n).
  { intros v Hv. destruct (decide (σ v = v)) as [E | E]; [right | by left].
    unfold subst_ref in Hv |- *. rewrite E in Hv |- *. by destruct (N.eqb_spec v o). }
  split; [split | split; [| exact Keep]].
  - apply transformed_replace; [done | | done]. intros a Ha. by apply promoted_new.
  - intros v [E | [-> ->]]%Moved; [| done]. destruct (R v E) as [? Q]. split; [done |].
    unfold subst_ref. by destruct (N.eqb_spec (σ v) o).
  - intros v Hv. destruct (D v Hv) as [? [Q | Q]]; split; auto.
  - intros v [E | [-> _]]%Moved; [by apply N | done].
  - done.
  - intros a Ha. destruct (V a Ha) as [pointee K]. exists pointee. unfold kind_of in *.
    apply fmap_Some in K as (J & E & K). erewrite insts_replace_unary; [by rewrite K | | exact E | by rewrite <- K].
    destruct (bbs G !! n) eqn:Q; [| done]. destruct Bn. apply (tf_has _ _ _ _ _ T). by eexists.
  - destruct (decide (σ o = o)) as [E | E]; [| by apply Keep].
    rewrite E. unfold subst_ref. rewrite N.eqb_refl. by intros ->.
Qed.

Lemma promoted_kind i k : placed F i -> kind_of i G = Some k ->
  i ∉ dead /\ exists k0, kind_of i F = Some k0 /\ k = map_values σ k0.
Proof.
  intros Pi K. pose proof (pr_transformed _ _ _ _ _ P) as T. unfold kind_of in K. destruct (decide (i ∈ dead)) as [D | D].
  - by rewrite (tf_dead _ _ _ _ _ T i Pi D) in K.
  - split; [done |]. rewrite (tf_kept _ _ _ _ _ T i Pi D) in K. unfold kind_of.
    destruct (insts F !! i) as [J |]; [| done]. cbn in K |- *. injection K as <-. by exists (i_kind J).
Qed.

Lemma promoted_erase i : may_go i -> σ i <> i \/ may_drop i ->
  exists dead', promoted objects σ news dead' (erase_self G i) /\ (forall v, v ∈ dead' <-> v ∈ dead \/ v = i).
Proof.
  intros [Pi Ri] W. destruct (decide (i ∈ dead)) as [Di | Di].
  { exists dead. unfold erase_self. rewrite (tf_dead _ _ _ _ _ (pr_transformed _ _ _ _ _ P) i Pi Di).
    split; [done |]. intros v. split; [by left | by intros [? | ->]]. }
  pose proof (pr_transformed _ _ _ _ _ P) as T. pose proof Pi as (b & Hb & Hi).
  destruct (ok_held _ _ _ O b i Hb Hi) as [J EJ].
  assert (EG : insts G !! i = Some (map_inst σ J)) by (rewrite (tf_kept _ _ _ _ _ T i Pi Di), EJ; done).
  assert (Nn : i ∉ news) by (intros Q; by destruct (promoted_new i Q)).
  exists (dead ++ [i]). split; [| intros v; rewrite elem_of_app, list_elem_of_singleton; done].
  unfold erase_self. rewrite EG. change (i_parent (map_inst σ J)) with (i_parent J).
  rewrite (Parents b i J Hb Hi EJ), bool_decide_true.
  - split; try apply P.
    + apply transformed_erase_inst; [done.. |]. intros c Hc Hc'. by apply (ok_apart _ _ _ O c b i).
    + intros v Hv. apply elem_of_app in Hv as [Hv | Hv]; [by apply P |].
      apply list_elem_of_singleton in Hv. by rewrite Hv.
    + intros a Ha. unfold kind_of, erase_inst. cbn. rewrite lookup_delete_ne by (intros ->; done). by apply P.
  - rewrite (tf_instructions _ _ _ _ _ T b Hb). apply elem_of_app. right. by apply list_elem_of_filter.
Qed.

End Step.

(** Values are replaced by a variable, and then destroyed. *)
Lemma promoted_replace_all objects n news dead l : n ∈ news ->
  forall σ G, promoted objects σ news dead G -> (forall v, v ∈ l -> may_go v /\ names_object objects v) ->
  exists σ', promoted objects σ' news dead (fold_left (fun G bc => replaceAllUsesInFunction bc n G) l G).
Proof.
  intros Hn. induction l as [| o l IH]; intros σ G P Hl; cbn [fold_left]; [by exists σ |].
  destruct (Hl o ltac:(by left)) as [Mo No].
  destruct (promoted_replace _ _ _ _ _ P o n Mo No Hn) as (P1 & _ & _).
  apply (IH _ _ P1). intros v Hv. apply Hl. by right.
Qed.

Lemma promoted_replace_erase objects n news l : n ∈ news ->
  forall σ dead G, promoted objects σ news dead G -> (forall v, v ∈ l -> may_go v /\ names_object objects v) ->
  exists σ' dead', promoted objects σ' news dead'
      (fold_left (fun G bc => erase_self (replaceAllUsesInFunction bc n G) bc) l G)
    /\ (forall v, v ∈ dead' <-> v ∈ dead \/ v ∈ l) /\ (forall v, σ v <> v -> σ' v <> v).
Proof.
  intros Hn. induction l as [| o l IH]; intros σ dead G P Hl; cbn [fold_left].
  { exists σ, dead. split_and!; [done | | done]. intros v. rewrite elem_of_nil. tauto. }
  destruct (Hl o ltac:(by left)) as [Mo No].
  destruct (promoted_replace _ _ _ _ _ P o n Mo No Hn) as (P1 & K1 & K2).
  destruct (promoted_erase _ _ _ _ _ P1 o Mo (or_introl K1)) as (dead1 & P2 & D2).
  destruct (IH _ _ _ P2) as (σ' & dead' & P' & D' & K'); [intros v Hv; apply Hl; by right |].
  exists σ', dead'. split_and!; [done | | by auto].
  intros v. rewrite D', D2, elem_of_cons. tauto.
Qed.

Lemma promoted_erase_all l : forall objects σ news dead G, promoted objects σ news dead G ->
  (forall v, v ∈ l -> may_go v /\ (σ v <> v \/ may_drop v)) ->
  exists dead', promoted objects σ news dead' (fold_left erase_self l G)
    /\ (forall v, v ∈ dead' <-> v ∈ dead \/ v ∈ l).
Proof.
  induction l as [| o l IH]; intros objects σ news dead G P Hl; cbn [fold_left].
  { exists dead. split; [done |]. intros v. rewrite elem_of_nil. tauto. }
  destruct (Hl o ltac:(by left)) as (Mo & Wo).
  destruct (promoted_erase _ _ _ _ _ P o Mo Wo) as (dead1 & P1 & D1).
  destruct (IH _ _ _ _ _ P1) as (dead' & P' & D'); [intros v Hv; apply Hl; by right |].
  exists dead'. split; [done |]. intros v. rewrite D', D1, elem_of_cons. tauto.
Qed.

(** ** What a function calls, and its objects, after some promotions *)

Section Reads.
Context objects σ news dead G (P : promoted objects σ news dead G).

(** What a call calls has kept its name. *)
Lemma promoted_name i k c args : placed F i -> kind_of i F = Some k ->
  (exists va, k = CallInst c args va) \/ (exists x y, k = InvokeInst c args x y) ->
  σ c = c /\ value_name other_name M G c = value_name other_name M F c.
Proof.
  intros Pi K S. pose proof (Callees i k c args Pi K S) as R. destruct P as [T Rp D _ _ _].
  assert (E : σ c = c).
  { destruct (decide (σ c = c)) as [| N]; [done |]. destruct (Rp c N) as [[_ Q] _]. by rewrite R in Q. }
  split; [done |]. unfold value_name. destruct (decide (placed F c)) as [Pc | Nc].
  - assert (Dc : c ∉ dead) by (intros Q; destruct (D c Q) as [[_ Z] _]; by rewrite R in Z).
    rewrite (tf_kept _ _ _ _ _ T c Pc Dc). by destruct (insts F !! c).
  - rewrite (tf_unplaced _ _ _ _ _ T c Nc); [done |]. intros Q.
    destruct (tf_new _ _ _ _ _ T c Q) as [[L _] _]. destruct Pi as (b & Hb & Hi).
    assert (V : c ∈ value_ops k) by (destruct S as [[va ->] | (x & y & ->)]; by left).
    pose proof (ok_block_fresh _ _ _ O _ (wf_heap _ (ok_wf _ _ _ O) _ Entry)).
    destruct (ok_values _ _ _ O b i k c Hb Hi K V) as [-> | [A | [A | A]]].
    + unfold nullptr in L. lia.
    + pose proof (ok_inst_fresh _ _ _ O _ A). lia.
    + pose proof (ok_block_fresh _ _ _ O _ A). lia.
    + pose proof (ok_ext_fresh _ _ _ O _ A). lia.
Qed.

Lemma promoted_calls name i k : placed F i -> kind_of i F = Some k ->
  calls other_name name M G (map_values σ k) = calls other_name name M F k.
Proof.
  intros Pi K. destruct k; try done; cbn [map_values calls];
    (edestruct (promoted_name i) as [-> ->]; [done | exact K | eauto | done]).
Qed.

Lemma promoted_free i : placed F i -> is_free other_name M G i = true -> is_free other_name M F i = true.
Proof.
  intros Pi. unfold is_free. destruct (kind_of i G) as [k |] eqn:K; [| done].
  destruct (promoted_kind _ _ _ _ _ P i k Pi K) as (_ & k0 & K0 & ->). rewrite K0.
  by rewrite (promoted_calls _ i).
Qed.

Lemma casts_named v u : u ∈ casts_of G U0 v ->
  may_go u /\ (exists op t, kind_of u F = Some (CastInst op v t)) /\ is_cast F u = true.
Proof.
  intros [C Hu]%list_elem_of_filter. pose proof (users_placed _ _ Hu) as Pu. unfold is_cast in C.
  destruct (kind_of u G) as [k |] eqn:K; [| done].
  destruct (promoted_kind _ _ _ _ _ P u k Pu K) as (_ & k0 & K0 & ->).
  apply elem_of_users in Hu as (b & k1 & _ & _ & K1 & Hv). rewrite K0 in K1. injection K1 as <-.
  unfold may_go, removable, is_cast. rewrite K0. destruct k0; try done.
  cbn in Hv. apply list_elem_of_singleton in Hv as ->. split_and!; eauto.
Qed.

(** The call that makes an object is no other name of anything and lets nothing escape. *)
Lemma object_harmless v : v ∈ objects ->
  user_aliases F v = false /\ forall w, user_escapes other_name M F w v = false.
Proof.
  intros Hv. destruct (pr_safe _ _ _ _ _ P v Hv) as [Av _]. unfold is_allocation in Av.
  unfold user_aliases, user_escapes. destruct (kind_of v F) as [[] |]; try done.
  apply andb_true_iff in Av as [Av _]. rewrite Av. split; [done | intros w].
  by destruct (N.eqb callee nullptr).
Qed.

Lemma alias_no_free u : user_aliases F u = true -> is_free other_name M F u = false.
Proof. unfold user_aliases, is_free. by destruct (kind_of u F) as [[] |]. Qed.

Lemma escape_no_free w u : user_escapes other_name M F w u = true -> is_free other_name M F u = false.
Proof.
  unfold user_escapes, is_free. destruct (kind_of u F) as [[] |]; try done;
    destruct (calls other_name "__moksha_free" M F _); try done; by rewrite andb_false_r.
Qed.

(** A user of what is not an object is as it was, if it does not free. *)
Lemma user_kept w u : w ∉ objects -> u ∈ users w U0 -> is_free other_name M F u = false -> u ∉ objects ->
  σ u = u /\ kind_of u G = map_values σ <$> kind_of u F.
Proof.
  intros Nw Hu Nf Nu. pose proof Hu as (b & k & Hb & Hi & K & Hr)%elem_of_users.
  assert (Pu : placed F u) by by exists b.
  assert (Q : σ u = u).
  { destruct (decide (σ u = u)) as [| N]; [done |]. exfalso.
    destruct (pr_object _ _ _ _ _ P u N) as [? | (op & a1 & t & Ha1 & K1)]; [done |].
    rewrite K1 in K. injection K as <-. cbn in Hr. apply list_elem_of_singleton in Hr as ->. done. }
  split; [done |]. unfold kind_of.
  rewrite (tf_kept _ _ _ _ _ (pr_transformed _ _ _ _ _ P) u Pu); [by destruct (insts F !! u) |].
  intros D. destruct (pr_dead _ _ _ _ _ P u D) as [_ [? | [_ Fr]]]; [done |]. by rewrite Fr in Nf.
Qed.

(** The other names of an allocation that was not promoted. *)
Lemma alias_kept a w : is_allocation other_name M F a = true -> a ∉ objects ->
  reached (aliases F U0) [a] w -> reached (aliases G U0) [a] w /\ w ∉ objects /\ σ w = w.
Proof.
  intros A Na. induction 1 as [w ->%list_elem_of_singleton | v w _ (IR & IO & IS) Hw].
  - split_and!; [apply reached_root; by left | done |].
    destruct (decide (σ a = a)) as [| N]; [done |].
    destruct (pr_object _ _ _ _ _ P a N) as [? | (op & a1 & t & Ha1 & K1)]; [done |].
    unfold is_allocation in A. by rewrite K1 in A.
  - apply list_elem_of_filter in Hw as [Al Hw].
    assert (No : w ∉ objects) by (intros Q; destruct (object_harmless w Q) as [Z _]; by rewrite Z in Al).
    destruct (user_kept v w IO Hw (alias_no_free _ Al) No) as [Sw Kw]. split_and!; [| done | done].
    eapply reached_next; [exact IR |]. apply list_elem_of_filter. split; [| done].
    unfold user_aliases in *. rewrite Kw. by destruct (kind_of w F) as [[] |].
Qed.

Lemma escape_kept w u : σ w = w -> w ∉ objects -> u ∈ users w U0 ->
  user_escapes other_name M F w u = true -> user_escapes other_name M G w u = true.
Proof.
  intros Sw Ow Hu Esc. pose proof (users_placed _ _ Hu) as Pu.
  assert (Nu : u ∉ objects) by (intros Q; destruct (object_harmless u Q) as [_ Z]; by rewrite Z in Esc).
  destruct (user_kept w u Ow Hu (escape_no_free _ _ Esc) Nu) as [_ Ku].
  unfold user_escapes in *. rewrite Ku.
  destruct (kind_of u F) as [k |] eqn:K; [| done]. cbn [fmap option_fmap option_map].
  destruct k; try done; cbn [map_values].
  1: { apply N.eqb_eq in Esc as ->. by apply N.eqb_eq. }
  all: erewrite <- !(promoted_calls _ u _ Pu K) in Esc; cbn [map_values] in Esc;
    edestruct (promoted_name u) as [Q _]; [done | exact K | eauto |]; by rewrite Q in *.
Qed.

(** An object that does not escape now did not escape at first: what has been removed was
    removed for other objects, or does not let it escape. *)
Lemma doesEscape_at_first a : is_allocation other_name M F a = true ->
  doesEscape other_name M G U0 a = Some false -> doesEscape other_name M F U0 a = Some false.
Proof.
  intros A E. destruct (decide (a ∈ objects)) as [Ha | Ha]; [by apply P |].
  destruct (doesEscape_spec other_name M F U0 a) as ([] & E0 & S0); [exfalso | done].
  destruct (doesEscape_spec other_name M G U0 a) as (e & E1 & S1). rewrite E in E1. injection E1 as <-.
  destruct (proj1 S0 eq_refl) as (w & u & R & Hu & Esc). enough (false = true) by done. apply S1.
  destruct (alias_kept a w A Ha R) as (RG & Ow & Sw). exists w, u. split_and!; [done.. |].
  by apply escape_kept.
Qed.

End Reads.

(** ** The turn for an allocation *)

Lemma move_to_stack_spec objects σ news dead G A a bitcasts actualType pointee :
  promoted objects σ news dead G -> may_go a -> a ∈ objects ->
  (forall u, u ∈ bitcasts -> may_go u /\ names_object objects u) ->
  exists σ' dead', promoted objects σ' (next_ref G :: news) dead' (move_to_stack G A a bitcasts actualType pointee)
    /\ σ' a <> a.
Proof.
  intros P Ma Oa Hb. unfold move_to_stack.
  match goal with |- context [new_inst ?J G] => set (J0 := J) end.
  rewrite (surjective_pairing (new_inst J0 G)). cbv zeta.
  pose proof (promoted_insert _ _ _ _ _ P J0 pointee eq_refl) as P1.
  assert (Hn : next_ref G ∈ next_ref G :: news) by by left.
  destruct (promoted_replace_all _ (next_ref G) _ _ bitcasts Hn _ _ P1 Hb) as (σ2 & P2).
  destruct (promoted_replace _ _ _ _ _ P2 a (next_ref G) Ma (or_introl Oa) Hn) as (P3 & K3 & _).
  destruct (promoted_replace_erase _ (next_ref G) _ bitcasts Hn _ _ _ P3 Hb) as (σ4 & dead4 & P4 & _ & K4).
  exists σ4, dead4. split_and!; [exact P4 | by apply (K4 a)].
Qed.

Definition progress (st : bool * MIRFunction) : Prop :=
  exists objects σ news dead, promoted objects σ news dead (snd st).

Lemma promote_step a st : progress st -> placed F a -> is_allocation other_name M F a = true ->
  exists st', promote fuel other_name M U0 st a = Some st' /\ progress st'.
Proof.
  destruct st as [changed G]. intros (objects & σ & news & dead & P) Pa Aa. cbn [snd] in P. unfold promote.
  assert (Ma : may_go a).
  { split; [done |]. unfold is_allocation in Aa. unfold removable. by destruct (kind_of a F) as [[] |]. }
  assert (Same : exists st', Some (changed, G) = Some st' /\ progress st')
    by (exists (changed, G); split; [done |]; by exists objects, σ, news, dead).
  destruct (doesEscape_spec other_name M G U0 a) as ([] & E & _); rewrite E; cbn [mbind option_bind]; [exact Same |].
  destruct (hasARCUses_ends G U0 a) as [[] ->]; cbn [mbind option_bind]; [exact Same |].
  destruct (insts G !! a) as [A |]; [| exact Same].
  destruct (casts_of G U0 a) as [| bc bitcasts] eqn:C; [exact Same |].
  assert (Hb : forall u, u ∈ bc :: bitcasts ->
    may_go u /\ (exists op t, kind_of u F = Some (CastInst op a t)) /\ is_cast F u = true)
    by (intros u Hu; rewrite <- C in Hu; by eapply casts_named).
  destruct (Hb bc ltac:(by left)) as ((Pb & Rb) & (op & t & K0) & Cb).
  assert (Kb : exists J, insts F !! bc = Some J /\ i_type <$> insts G !! bc = Some (i_type J)).
  { assert (Q : bc ∈ casts_of G U0 a) by (rewrite C; by left). apply list_elem_of_filter in Q as [Q _].
    unfold is_cast in Q. destruct (kind_of bc G) as [kb |] eqn:Kb; [| done].
    destruct (promoted_kind _ _ _ _ _ P bc kb Pb Kb) as (Db & _).
    unfold kind_of in K0. apply fmap_Some in K0 as (J & EJ & _). exists J. split; [done |].
    by rewrite (tf_kept _ _ _ _ _ (pr_transformed _ _ _ _ _ P) bc Pb Db), EJ. }
  destruct Kb as (J & EJ & ->). cbn [mbind option_bind].
  destruct (Types bc J Pb Cb EJ) as [[pointee []] ->]; cbn [mbind option_bind]; [exact Same |].
  pose proof (promoted_object _ _ _ _ _ P a Aa (doesEscape_at_first _ _ _ _ _ P a Aa E)) as P0.
  destruct (move_to_stack_spec _ _ _ _ G A a (bc :: bitcasts) (i_type J) pointee P0 Ma) as (σ1 & dead1 & P1 & K1);
    [by left | |].
  { intros u Hu. destruct (Hb u Hu) as (? & (op' & t' & ?) & _). split; [done |]. right.
    exists op', a, t'. split; [by left | done]. }
  destruct (promoted_erase_all (free_calls other_name M (move_to_stack G A a (bc :: bitcasts) (i_type J) pointee) U0
    (bc :: bitcasts) a) _ _ _ _ _ P1) as (dead2 & P2 & _).
  { intros v [Fv Hv]%list_elem_of_filter.
    assert (Pv : placed F v).
    { apply elem_of_app in Hv as [Hv | Hv]; [| by eapply users_placed].
      apply list_elem_of_In, in_concat in Hv as (l & Hl & Hv). apply in_map_iff in Hl as (w & <- & _).
      by eapply users_placed, list_elem_of_In. }
    pose proof (promoted_free _ _ _ _ _ P1 v Pv Fv) as Fv0.
    destruct (Frees v Pv Fv0) as [? ?]. split; [done | right; done]. }
  destruct (promoted_erase _ _ _ _ _ P2 a Ma (or_introl K1)) as (dead3 & P3 & _).
  eexists. split; [reflexivity |]. exists (a :: objects), σ1, (next_ref G :: news), dead3. exact P3.
Qed.

(** The pass ends on a function, with new variables in the place of objects. *)
Lemma runOnFunction_promoted : exists st', runOnFunction fuel other_name M F = Some st' /\ progress st'.
Proof.
  unfold runOnFunction, isDeclaration. rewrite bool_decide_false.
  2: { intros E. unfold getEntryBlock in Entry. rewrite E in Entry. by apply not_elem_of_nil in Entry. }
  apply (fold_some_ind (promote fuel other_name M U0) (fun _ => progress)).
  - exists [], (fun v => v), [], []. apply promoted_start.
  - intros pre a post st L S.
    assert (Ha : a ∈ allocations other_name M F) by (rewrite L; set_solver).
    unfold allocations in Ha. apply list_elem_of_In, in_concat in Ha as (l & Hl & Ha).
    apply in_map_iff in Hl as (b & <- & Hb). apply list_elem_of_In, list_elem_of_filter in Ha as [Ka Ha].
    apply promote_step; [done | | done]. exists b. by split; [apply list_elem_of_In |].
Qed.

End Promotion.
