(* ===== verification/EscapeClaims.v ===== *)
(** * Escape analysis: claims

    What the pass promises of a function: objects that stay inside become variables, and the
    function keeps its invariant; and a use that the analysis does not see. *)

From S2P Require Import Prelude Diag HIRType MIR MIRFacts MIRModule MIRUses ConstFold Transform Worklist DefUse DropElision.
From S2P Require Import EscapeAnalysis EscapeProps.
From stdpp Require Import gmap.

Implicit Types (F G : MIRFunction) (M : MIRModule) (a b i u v w : ref) (k : InstKind).

(** ** Functions that the pass can take *)

Section Conditions.
Context (fuel : nat) (other_name : ref -> string) (M : MIRModule) (F : MIRFunction).

(** An instruction knows its block; a call that frees is no invoke and has no result; what is
    called is no result of a call or a cast; and the type of a cast has a text. *)
Record promotable : Prop := {
  ready_entry : getEntryBlock F ∈ blocks F;
  ready_parents : forall b i J, b ∈ blocks F -> i ∈ getInstructions b F -> insts F !! i = Some J -> i_parent J = b;
  ready_frees : forall i, placed F i -> is_free other_name M F i = true -> removable F i = true /\ unused F i;
  ready_callees : forall i k c args, placed F i -> kind_of i F = Some k ->
    (exists va, k = CallInst c args va) \/ (exists x y, k = InvokeInst c args x y) -> removable F c = false;
  ready_types : forall i J, placed F i -> is_cast F i = true -> insts F !! i = Some J ->
    is_Some (stack_type fuel M (i_type J));
}.

(** No instruction that records an object or another name of it lets it escape. *)
Definition stays_inside a : Prop := forall w i k,
  reached (aliases F (build_def_use recorded F)) [a] w ->
  placed F i -> kind_of i F = Some k -> w ∈ recorded k -> user_escapes other_name M F w i = false.

(** [v] is an object that stays inside or a cast of it. *)
Definition inside_object v : Prop := exists a,
  is_allocation other_name M F a = true /\ stays_inside a
  /\ (v = a \/ exists op t, kind_of v F = Some (CastInst op a t)).

(** [G] is [F] with the variables [vars] in the place of objects: [σ] says which, and the
    instructions in [dead] are gone. *)
Record objects_promoted (σ : ref -> ref) (vars dead : list ref) G : Prop := {
  op_blocks : blocks G = blocks F;
  op_edges : forall b, getSuccessors b G = getSuccessors b F /\ getPredecessors b G = getPredecessors b F;
  op_instructions : forall b, b ∈ blocks F -> getInstructions b G =
    (if decide (b = getEntryBlock F) then vars else []) ++ filter (fun i => i ∉ dead) (getInstructions b F);
  op_insts : forall i, placed F i ->
    insts G !! i = if decide (i ∈ dead) then None else map_inst σ <$> insts F !! i;
  op_vars : forall a, a ∈ vars -> (next_ref F <= a)%N /\ exists pointee, kind_of a G = Some (AllocaInst pointee 8);
  op_replaced : forall v, σ v <> v -> σ v ∈ vars /\ inside_object v;
  op_dead : forall v, v ∈ dead -> σ v <> v \/ unused F v /\ is_free other_name M F v = true;
}.

Lemma stays_iff a : doesEscape other_name M F (build_def_use recorded F) a = Some false -> stays_inside a.
Proof.
  intros E w i k R (b & Hb & Hi) K Hw.
  destruct (doesEscape_spec other_name M F (build_def_use recorded F) a) as (e & E' & S).
  rewrite E in E'. injection E' as <-. destruct (user_escapes other_name M F w i) eqn:Q; [| done].
  enough (false = true) by done. apply S. exists w, i. split_and!; [done | | done].
  apply elem_of_users. by exists b, k.
Qed.

End Conditions.

(** C10: the analysis ends and decides whether an object escapes: its answer is yes exactly when
    some instruction that records the object or another name of it (an address of a part, a
    cast, an aggregate or closure that holds it, the first part of such) lets it escape. *)
Theorem doesEscape_decides other_name M F a :
  (doesEscape other_name M F (build_def_use recorded F) a = Some false <-> stays_inside other_name M F a)
  /\ is_Some (doesEscape other_name M F (build_def_use recorded F) a).
Proof.
  destruct (doesEscape_spec other_name M F (build_def_use recorded F) a) as (e & E & S).
  split; [split |]; [apply stays_iff | | by rewrite E].
  intros St. rewrite E. destruct e; [| done].
  destruct (proj1 S eq_refl) as (w & u & R & (b & k & Hb & Hi & K & Hk)%elem_of_users & Esc).
  rewrite (St w u k R (ex_intro _ b (conj Hb Hi)) K Hk) in Esc. done.
Qed.

(** C9: on a function in order, in which moreover every instruction knows its block, every call
    that frees is a plain call whose result is not used (an invoke that frees is excluded), no
    call goes to the result of a call or cast, and the types of the casts have texts within the
    fuel, the pass ends, and its result is the function with new variables in the place of some
    objects: only objects that no recorded use lets escape, and their
    casts, are replaced, what is removed is one of them or an unused call that frees, and the
    function keeps its invariant, so that no instruction refers to something destroyed. *)
Theorem escape_promotion_safe fuel other_name M F (ext : ref -> Prop) :
  fn_ok ext (next_ref F) F -> promotable fuel other_name M F ->
  exists changed F', runOnFunction fuel other_name M F = Some (changed, F')
    /\ fn_ok ext (next_ref F') F'
    /\ exists σ vars dead, objects_promoted other_name M F σ vars dead F'.
Proof.
  intros O [En Pa Fr Ca Ty].
  destruct (runOnFunction_promoted fuel other_name M F ext O En Pa Fr Ca Ty) as ([ch F'] & E & objs & σ & vars & dead & P).
  exists ch, F'. split; [done |]. split; [by eapply promoted_ok |]. exists σ, vars, dead.
  destruct P as [T R D N S V]. split.
  - apply (tf_blocks _ _ _ _ _ T).
  - apply (tf_edges _ _ _ _ _ T).
  - apply (tf_instructions _ _ _ _ _ T).
  - intros i Pi. case_decide as Di; [by apply (tf_dead _ _ _ _ _ T) | by apply (tf_kept _ _ _ _ _ T)].
  - intros a Ha. split; [apply (tf_new _ _ _ _ _ T a Ha) | by apply V].
  - intros v Hv. split; [by apply R |].
    destruct (N v Hv) as [Ho | (op & a & t & Ho & K)].
    + destruct (S v Ho) as [A St]. exists v. split_and!; [done | by apply stays_iff | by left].
    + destruct (S a Ho) as [A St]. exists a. split_and!; [done | by apply stays_iff | right; eauto].
  - intros v Hv. by apply D.
Qed.

(** ** At concrete functions *)

Module EscapeExamples.

(** [4] is a pointer to a number. *)
Definition types : TypeHeap :=
  list_to_map [(2%N, HIRIntType 32 true false); (3%N, PointerType 0 Ownership.None_ BorrowState.None_);
               (4%N, PointerType 2 Ownership.None_ BorrowState.None_)].

Definition value b (name : string) (t : TypePtr) (k : InstKind) : MIRInst :=
  {| i_kind := k; i_type := t; i_name := name; i_loc := None; i_borrow := None; i_parent := b |}.

Definition external (name : string) : Function_ :=
  {| fn_name := name; fn_body := {| insts := ∅; bbs := ∅; blocks := []; next_ref := 300 |} |}.

Definition module (F : MIRFunction) : MIRModule :=
  addFunction 202 (external "__moksha_alloc") (addFunction 201 (external "__moksha_free")
    (addFunction 200 {| fn_name := "f"; fn_body := F |} (newModule "m" types 10 300))).

Definition block (l preds succs : list ref) : MIRBlock :=
  {| b_name := ""; instructions := l; predecessors := preds; successors := succs |}.

(** An object is made, a number is stored to it, and it is freed. *)
Definition inside : MIRFunction :=
  {| insts := list_to_map
       [(11%N, value 1 "p" 3 (CallInst 202 [] false)); (12%N, value 1 "q" 4 (CastInst Opcode.BitCast 11 0));
        (13%N, value 1 "" 0 (StoreInst 50 12 0 false)); (14%N, value 1 "" 0 (CallInst 201 [12%N] false));
        (15%N, value 1 "" 0 (ReturnInst 0))];
     bbs := list_to_map [(1%N, block [11; 12; 13; 14; 15]%N [] [])];
     blocks := [1]%N; next_ref := 300%N |}.

(** An object is made and goes to the next block by a phi, which is returned. *)
Definition returned_phi : MIRFunction :=
  {| insts := list_to_map
       [(11%N, value 1 "p" 3 (CallInst 202 [] false)); (12%N, value 1 "q" 4 (CastInst Opcode.BitCast 11 0));
        (13%N, value 1 "" 0 (BranchInst 2)); (14%N, value 2 "r" 4 (PhiInst [(12, 1)%N]));
        (15%N, value 2 "" 0 (ReturnInst 14))];
     bbs := list_to_map [(1%N, block [11; 12; 13]%N [] [2%N]); (2%N, block [14; 15]%N [1%N] [])];
     blocks := [1; 2]%N; next_ref := 300%N |}.

(** The call that frees is an invoke. *)
Definition invoked_free : MIRFunction :=
  {| insts := list_to_map
       [(11%N, value 1 "p" 3 (CallInst 202 [] false)); (12%N, value 1 "q" 4 (CastInst Opcode.BitCast 11 0));
        (13%N, value 1 "" 0 (InvokeInst 201 [12%N] 2 3)); (14%N, value 2 "" 0 (ReturnInst 0));
        (15%N, value 3 "" 0 UnreachableInst)];
     bbs := list_to_map [(1%N, block [11; 12; 13]%N [] [2; 3]%N); (2%N, block [14]%N [1%N] []);
                         (3%N, block [15]%N [1%N] [])];
     blocks := [1; 2; 3]%N; next_ref := 300%N |}.

(** An object is made and read. *)
Definition read : MIRFunction :=
  {| insts := list_to_map
       [(11%N, value 1 "p" 3 (CallInst 202 [] false)); (12%N, value 1 "q" 4 (CastInst Opcode.BitCast 11 0));
        (13%N, value 1 "x" 2 (LoadInst 12 0 false)); (14%N, value 1 "" 0 (ReturnInst 0))];
     bbs := list_to_map [(1%N, block [11; 12; 13; 14]%N [] [])];
     blocks := [1]%N; next_ref := 300%N |}.

Definition nameless : ref -> string := fun _ => "".

(** What is left: the blocks, and some instructions. *)
Definition after F (l : list ref) : option (bool * list (list ref) * list (option InstKind)) :=
  '(changed, G) ← runOnFunction 9 nameless (module F) F;
  Some (changed, map (fun b => getInstructions b G) (blocks G), map (fun i => kind_of i G) l).

Example inside_result :
  after inside [300; 13]%N =
    Some (true, [[300; 13; 15]%N], [Some (AllocaInst 2 8); Some (StoreInst 50 300 0 false)]).
Proof. by vm_compute. Qed.

(** A load counts as an escape: an object that is read is never promoted. *)
Example read_result : after read [] = Some (false, [[11; 12; 13; 14]%N], []).
Proof. by vm_compute. Qed.

End EscapeExamples.

Import EscapeExamples.

(** ** The conditions, decided *)

Definition promotable_b (fuel : nat) (other_name : ref -> string) M F : bool :=
  bool_decide (getEntryBlock F ∈ blocks F)
  && placed_b F (fun b i k =>
       bool_decide (i_parent <$> insts F !! i = Some b)
       && (negb (is_free other_name M F i)
           || removable F i && placed_b F (fun _ _ k => negb (bool_decide (i ∈ value_ops k))))
       && match k with
          | CallInst c _ _ | InvokeInst c _ _ _ => negb (removable F c)
          | CastInst _ _ _ =>
              match insts F !! i with
              | Some J => bool_decide (is_Some (stack_type fuel M (i_type J)))
              | None => true
              end
          | _ => true
          end).

Lemma promotable_spec fuel other_name M F : promotable_b fuel other_name M F = true -> promotable fuel other_name M F.
Proof.
  unfold promotable_b. rewrite andb_true_iff, bool_decide_eq_true. intros [En A].
  assert (K : forall b i J, b ∈ blocks F -> i ∈ getInstructions b F -> insts F !! i = Some J ->
    i_parent J = b /\ (is_free other_name M F i = false \/ removable F i = true /\ unused F i)
    /\ match i_kind J with
       | CallInst c _ _ | InvokeInst c _ _ _ => removable F c = false
       | CastInst _ _ _ => is_Some (stack_type fuel M (i_type J))
       | _ => True
       end).
  { intros b i J Hb Hi E. assert (Kk : kind_of i F = Some (i_kind J)) by (unfold kind_of; by rewrite E).
    pose proof (placed_b_spec _ _ A b i _ Hb Hi Kk) as Q. cbn beta in Q.
    apply andb_true_iff in Q as [[Q1 Q2]%andb_true_iff Q3]. rewrite E in Q1, Q3.
    apply bool_decide_eq_true in Q1. injection Q1 as Q1. split_and!; [done | |].
    - apply orb_true_iff in Q2 as [Q2%negb_true_iff | [Q2 U]%andb_true_iff]; [by left | right].
      split; [done |]. intros u k (c & Hc & Hu) Ku. pose proof (placed_b_spec _ _ U c u k Hc Hu Ku) as Z.
      by apply negb_true_iff, bool_decide_eq_false in Z.
    - destruct (i_kind J); try done; try by apply negb_true_iff. by apply bool_decide_eq_true in Q3. }
  assert (Held : forall i k, kind_of i F = Some k -> exists J, insts F !! i = Some J /\ i_kind J = k)
    by (intros i k E; by apply fmap_Some in E as (J & ? & ->); exists J).
  split; [done | | | |].
  - intros b i J Hb Hi E. by apply (K b i J).
  - intros i (b & Hb & Hi) Fi. unfold is_free in Fi. destruct (kind_of i F) as [k |] eqn:Ki; [| done].
    destruct (Held i k Ki) as (J & E & EJ). destruct (K b i J Hb Hi E) as (_ & [Z | Z] & _); [| done].
    unfold is_free in Z. rewrite Ki, Fi in Z. done.
  - intros i k c args (b & Hb & Hi) Ki S. destruct (Held i k Ki) as (J & E & EJ).
    destruct (K b i J Hb Hi E) as (_ & _ & Z). rewrite EJ in Z. by destruct S as [[va ->] | (x & y & ->)].
  - intros i J (b & Hb & Hi) C E. destruct (K b i J Hb Hi E) as (_ & _ & Z).
    unfold is_cast, kind_of in C. rewrite E in C. cbn in C. by destruct (i_kind J).
Qed.

Lemma escape_promotion_safe_witness :
  exists changed F', runOnFunction 9 nameless (module inside) inside = Some (changed, F')
    /\ fn_ok (fun v => v ∈ [50; 201; 202]%N) (next_ref F') F'
    /\ exists σ vars dead, objects_promoted nameless (module inside) inside σ vars dead F'.
Proof.
  apply (escape_promotion_safe 9 nameless (module inside) inside).
  - apply (fn_ok_b_spec _ [50; 201; 202]%N); [done | by vm_compute].
  - apply promotable_spec. by vm_compute.
Defined.

(** The analysis records neither phis nor the other instructions without a case, so an
    object that is returned through a phi is promoted, and the function returns the address of
    its own variable; and the call that frees an object may be the terminator of its block,
    which is then left without one. *)
Theorem escape_breaks :
  after returned_phi [14; 15]%N =
    Some (true, [[300; 13]; [14; 15]]%N, [Some (PhiInst [(300, 1)%N]); Some (ReturnInst 14)])
  /\ (exists G, runOnFunction 9 nameless (module invoked_free) invoked_free = Some (true, G)
        /\ getInstructions 1 G = [300]%N /\ kind_of 300 G = Some (AllocaInst 2 8)).
Proof. split; [by vm_compute |]. eexists. split; [by vm_compute |]. by vm_compute. Qed.
