(* ===== verification/PassManager.v ===== *)
(** * The pass manager

    [PassManager] of [include/moksha/MIR/Passes/PassManager.h] and
    [lib/middle/mir/passes/PassManager.cpp]: a list of passes that is run again and again
    while a round changes the module, at most fifteen times.  The classes say what a pass
    promises to the manager; the theorems on the manager are proved against them. *)

From S2P Require Import Prelude Diag HIRType MIR MIRFacts MIRModule ConstFold ConstFoldModule Semantics JumpThreading JumpThreadingSim JumpThreadingClaims SROA SROAProps SROAClaims.

Implicit Types (M : MIRModule).

(** [MIRPass]: what a pass does is [runOnModule]; [None] is a run that does not end or that
    is undefined. *)
Definition MIRPass : Type := MIRModule -> option (bool * MIRModule).

Record PassManager := { passes : list MIRPass }.

Definition addPass (pass : MIRPass) (P : PassManager) : PassManager := {| passes := passes P ++ [pass] |}.

(** The body of the loop: every pass runs, whatever the others changed. *)
Definition run_pass (st : bool * MIRModule) (pass : MIRPass) : option (bool * MIRModule) :=
  let '(changed, M) := st in
  '(passChanged, M) ← pass M;
  Some (changed || passChanged, M).

Definition run_round (P : PassManager) M : option (bool * MIRModule) :=
  fold_some run_pass (passes P) (false, M).

Definition MAX_ITERATIONS : nat := 15.

(** The loop, with the iterations that the circuit breaker leaves. *)
Fixpoint run_loop (remaining : nat) (P : PassManager) (changed : bool) M : option MIRModule :=
  if changed then
    match remaining with
    | 0 => Some M
    | S remaining => '(changed, M) ← run_round P M; run_loop remaining P changed M
    end
  else Some M.

Definition run (P : PassManager) M : option MIRModule := run_loop MAX_ITERATIONS P true M.

(** ** What a pass promises *)

(** A pass that ends on the modules with [I], keeps [I], and relates its result to its
    argument by [R]. *)
Class SoundPass (I : MIRModule -> Prop) (R : MIRModule -> MIRModule -> Prop) (pass : MIRPass) : Prop :=
  sound_pass : forall M, I M -> exists changed M', pass M = Some (changed, M') /\ I M' /\ R M M'.

(** A pass that keeps [I] when it ends. *)
Class KeepsInvariant (I : MIRModule -> Prop) (pass : MIRPass) : Prop :=
  keeps_invariant : forall M changed M', I M -> pass M = Some (changed, M') -> I M'.

#[export] Instance sound_keeps I R pass : SoundPass I R pass -> KeepsInvariant I pass.
Proof. intros S M changed M' HI E. destruct (S M HI) as (c & M2 & E2 & HI2 & _). by simplify_eq. Qed.

Section Sound.
Context (I : MIRModule -> Prop) (R : MIRModule -> MIRModule -> Prop) `{!PreOrder R}.

Lemma run_round_sound P M : Forall (SoundPass I R) (passes P) -> I M ->
  exists changed M', run_round P M = Some (changed, M') /\ I M' /\ R M M'.
Proof.
  intros S HI. unfold run_round.
  destruct (fold_some_ind run_pass (fun _ st => I (snd st) /\ R M (snd st)) (passes P) (false, M))
    as ([c M'] & E & J); [done | | by exists c, M'].
  intros pre pass post [c M1] El [I1 R1]. cbn [snd] in *. rewrite Forall_forall in S.
  destruct (S pass) with (M := M1) as (c' & M2 & E2 & I2 & R2); [| done |].
  { rewrite El. apply elem_of_app. right. left. }
  exists (c || c', M2). unfold run_pass. rewrite E2. cbn [mbind option_bind snd]. split_and!; [done | done |].
  by transitivity M1.
Qed.

(** The rounds that were made: all but the last one changed the module. *)
Inductive rounds (P : PassManager) : nat -> bool -> MIRModule -> MIRModule -> Prop :=
  | rounds_stop M : rounds P 0 true M M
  | rounds_last M M' : run_round P M = Some (false, M') -> rounds P 1 false M M'
  | rounds_more n c M M1 M' : run_round P M = Some (true, M1) -> rounds P n c M1 M' -> rounds P (S n) c M M'.

Lemma run_loop_sound P remaining : forall M,
  Forall (SoundPass I R) (passes P) -> I M ->
  exists n c M', run_loop remaining P true M = Some M' /\ I M' /\ R M M' /\ rounds P n c M M'
    /\ n <= remaining /\ (c = true -> n = remaining).
Proof.
  induction remaining as [| remaining IH]; intros M Sd HI; cbn [run_loop].
  - exists 0, true, M. split_and!; [done | done | done | constructor | done | done].
  - destruct (run_round_sound P M Sd HI) as ([] & M1 & E & I1 & R1); rewrite E; cbn [mbind option_bind].
    + destruct (IH M1 Sd I1) as (n & c & M' & -> & I' & R' & Rs & L & X). exists (S n), c, M'.
      split_and!; [done | done | by transitivity M1 | by apply (rounds_more P n c M M1) | lia |].
      intros Q. by rewrite (X Q).
    + exists 1, false, M1. destruct remaining; cbn [run_loop]; (split_and!; [done | done | done | by constructor | lia | done]).
Qed.

End Sound.

Lemma run_loop_keeps (I : MIRModule -> Prop) P remaining : forall changed M M',
  Forall (KeepsInvariant I) (passes P) -> I M -> run_loop remaining P changed M = Some M' -> I M'.
Proof.
  induction remaining as [| remaining IH]; intros changed M M' K HI E; cbn [run_loop] in E.
  - by destruct changed; simplify_eq.
  - destruct changed; [| by simplify_eq].
    destruct (run_round P M) as [[c M1] |] eqn:E1; [| done]. cbn [mbind option_bind] in E.
    apply (IH c M1 M' K); [| done]. clear E. unfold run_round in E1.
    assert (Q : forall l st st', Forall (KeepsInvariant I) l -> I (snd st) -> fold_some run_pass l st = Some st' -> I (snd st')).
    { induction l as [| pass l IHl]; intros [c0 M0] st' Kl I0 E; cbn [fold_some] in E; [by simplify_eq |].
      apply Forall_cons in Kl as [K1 Kl].
      destruct (run_pass (c0, M0) pass) as [st1 |] eqn:E2; [| done]. cbn [mbind option_bind] in E.
      apply (IHl st1 st' Kl); [| exact E]. unfold run_pass in E2.
      destruct (pass M0) as [[c2 M2] |] eqn:E3; [| done]. cbn [mbind option_bind] in E2. injection E2 as <-.
      by apply (K1 M0 c2). }
    by apply (Q (passes P) (false, M) (c, M1)).
Qed.

(** C6: the manager composes its passes.  If every pass ends on the modules of an invariant,
    keeps it, and relates its result to its argument by a preorder, then so does a run of the
    manager; it makes at most fifteen rounds, and it makes fewer only when the last round
    changed nothing. *)
Theorem run_sound (I : MIRModule -> Prop) (R : MIRModule -> MIRModule -> Prop) (P : PassManager) M :
  PreOrder R -> Forall (SoundPass I R) (passes P) -> I M ->
  exists n c M', run P M = Some M' /\ I M' /\ R M M' /\ rounds P n c M M'
    /\ n <= 15 /\ (n < 15 -> c = false).
Proof.
  intros PR S HI. destruct (run_loop_sound I R P MAX_ITERATIONS M S HI) as (n & c & M' & E & I' & R' & Rs & L & X).
  exists n, c, M'. unfold MAX_ITERATIONS in *. split_and!; try done.
  intros Q. destruct c; [| done]. specialize (X eq_refl). lia.
Qed.

(** ** Passes *)

(** The relation of jump threading between a module and its result. *)
Definition same_meaning M M' : Prop :=
  functions M' = functions M /\ consts M' = consts M /\ forall f, same_outcomes M (body f M) (body f M').

#[export] Instance same_meaning_preorder : PreOrder same_meaning.
Proof.
  split.
  - done.
  - intros M1 M2 M3 (A1 & A2 & A3) (B1 & B2 & B3). split_and!; [congruence | congruence |].
    intros f V St Mach ρ s o N. rewrite (A3 f V St Mach ρ s o N). apply B3. by apply (nulls_consts M1).
Qed.

#[export] Instance jump_threading_sound other : SoundPass (jump_module other true) same_meaning JumpThreading.runOnModule.
Proof.
  intros M JM. pose proof (run_jumped other true M JM) as J.
  destruct (JumpThreading.runOnModule M) as [[c M'] |]; [| done]. destruct J as [J1 J2 J3 _ J5].
  exists c, M'. by split_and!.
Qed.

#[export] Instance constant_folding_keeps other fuel argType :
  KeepsInvariant (module_ok other) (ConstFold.runOnModule fuel argType).
Proof. intros M c M'. apply runOnModule_keeps. Qed.

(** Scalar replacement always ends; types are added and no function. *)
Definition scalar_replacement : MIRPass := fun M => Some (SROA.runOnModule M).

#[export] Instance scalar_replacement_sound other :
  SoundPass (sroa_module other) (fun M M' => types_grow M M' /\ functions M' = functions M) scalar_replacement.
Proof.
  intros M SM. destruct (run_module_ok other M SM) as (SM' & Gr & E & _). unfold scalar_replacement.
  destruct (SROA.runOnModule M) as [c M']. by exists c, M'.
Qed.

(** The manager on the choice between null and an argument: the second round changes
    nothing. *)
Definition threading : PassManager := addPass JumpThreading.runOnModule {| passes := [] |}.

Lemma run_sound_witness :
  let M := choice_module one_phi [] 52 in
  exists M', run threading M = Some M' /\ same_meaning M M'
    /\ term_targets 2 (body 200 M') = [6%N].
Proof.
  intros M.
  destruct (run_sound (jump_module arguments true) same_meaning threading M) as (n & c & M' & E & _ & R & _).
  - exact same_meaning_preorder.
  - apply Forall_singleton. exact (jump_threading_sound arguments).
  - exact choice_ok.
  - exists M'. split; [exact E |]. split; [exact R |].
    assert (Q : (M ← run threading (choice_module one_phi [] 52); Some (term_targets 2 (body 200 M))) = Some [6%N])
      by by vm_compute.
    unfold M in E. rewrite E in Q. cbn [mbind option_bind] in Q. by apply (inj Some) in Q.
Defined.
