(* ===== verification/Verifier.v ===== *)
(** * The verifier of the mid-level IR

    [MIRVerifier] of [lib/middle/mir/MIRVerifier.cpp].  The state of a verifier is its
    list of messages and [hasError]; each check is a function on that state, with the
    Boolean result of the code, and it has no result, [None], where the code dereferences a
    null pointer.  What is not an instruction or a block of the function
    (constants, arguments, globals, functions, foreign blocks) is described by an
    environment. *)

From S2P Require Import Prelude Diag HIRType MIR Worklist.
#[local] Open Scope string_scope.

Module ValueKind.
(** [enum class ValueKind] of [MIRValue.h]. *)
Inductive t : Set :=
  | Instruction | Argument | Global | ConstantInt | ConstantFloat | ConstantBool
  | ConstantString | ConstantNull | ConstantUndef | ConstantDecimal | ConstantArray
  | ConstantSlice | ConstantMap | ConstantStruct | ConstantUnion | ConstantBitCast
  | ConstantAnyCast | ConstantArrayToSlice | ConstantSliceToArray | ConstantUpcast
  | BasicBlock | Function_.
#[export] Instance eq_dec : EqDecision t.
Proof. solve_decision. Defined.
End ValueKind.
#[export] Existing Instance ValueKind.eq_dec.

(** A value that is not an instruction of the function: its kind and type and, for a
    function, the types of its arguments. *)
Record Value := {
  v_kind : ValueKind.t;
  v_type : TypePtr;
  v_params : list TypePtr;
}.

(** The environment: the heap of types with a fuel that suffices for [toString], and
    the other values. *)
Record Env := {
  env_types : TypeHeap;
  env_fuel : nat;
  env_values : gmap ref Value;
}.

(** The members of [MIRFunction] that the verifier reads besides the body. *)
Record FunctionInfo := {
  f_name : string;
  f_type : TypePtr;
  f_isInline : bool;
  f_isNoInline : bool;
  f_isNaked : bool;
}.

(** [hasError] and [errors]. *)
Record VState := {
  errors : list string;
  hasError : bool;
}.

Definition newVerifier : VState := {| errors := []; hasError := false |}.

Definition log (msg : string) (V : VState) : VState :=
  {| errors := (errors V ++ [msg])%list; hasError := true |}.

Section Verifier.
Context (E : Env) (FI : FunctionInfo) (F : MIRFunction).

(** [getType()] and [getKind()] of a value. *)
Definition getType (r : ref) : TypePtr :=
  match insts F !! r with
  | Some J => i_type J
  | None => match env_values E !! r with Some v => v_type v | None => nullptr end
  end.
Definition valueKind (r : ref) : option ValueKind.t :=
  match insts F !! r with
  | Some _ => Some ValueKind.Instruction
  | None =>
      match bbs F !! r with
      | Some _ => Some ValueKind.BasicBlock
      | None => v_kind <$> env_values E !! r
      end
  end.

(** [getParent() == parentFunc] of a block: the blocks of [F] are those of its heap. *)
Definition inFunction (b : ref) : bool := bool_decide (is_Some (bbs F !! b)).

Definition typeText (t : TypePtr) : string := default "" (toString (env_fuel E) (env_types E) t).
Definition typeTextOrNull (t : TypePtr) : string :=
  if N.eqb t nullptr then "null" else typeText t.

Definition has_kind (k : TypeKind.t) (t : TypePtr) : bool :=
  match env_types E !! t with Some T => bool_decide (HIRType.getKind T = k) | None => false end.
Definition isBoolean (t : TypePtr) : bool := has_kind TypeKind.Bool t.
Definition isInteger (t : TypePtr) : bool := has_kind TypeKind.Int t.
Definition isPointer (t : TypePtr) : bool := has_kind TypeKind.Pointer t.
Definition isVoid (t : TypePtr) : bool := N.eqb t nullptr || has_kind TypeKind.Void t.

(** [cast<PointerType>(t)->getPointee()]. *)
Definition pointee (t : TypePtr) : TypePtr :=
  match env_types E !! t with Some (PointerType p _ _) => p | _ => nullptr end.

(** The overloads of [logError]. *)
Definition logInst (msg : string) (J : MIRInst) : VState -> VState :=
  log ("Error in instruction "
         +:+ (if String.eqb (i_name J) "" then "<unnamed>" else "%" +:+ i_name J)
         +:+ ": " +:+ msg).
Definition logBlock (msg : string) (b : ref) : VState -> VState :=
  log ("Error in block "
         +:+ (match bbs F !! b with Some B => b_name B | None => "" end) +:+ ": " +:+ msg).
Definition logFunction (msg : string) : VState -> VState :=
  log ("Error in function @" +:+ f_name FI +:+ ": " +:+ msg).

(** [if (!c) logError(msg, inst);]. *)
Definition check (c : bool) (msg : string) (J : MIRInst) (V : VState) : VState :=
  if c then V else logInst msg J V.

Definition type_mismatch (msg : string) (t1 t2 : TypePtr) : string :=
  msg +:+ " (Type mismatch: " +:+ typeTextOrNull t1 +:+ " vs " +:+ typeTextOrNull t2 +:+ ")".

(** The two types are accepted as equal: same address, or same text. *)
Definition sameType (t1 t2 : TypePtr) : bool :=
  N.eqb t1 t2
  || (negb (N.eqb t1 nullptr) && negb (N.eqb t2 nullptr) && String.eqb (typeText t1) (typeText t2)).

(** [verifyTypesMatch]; [t2] is the type of the second value. *)
Definition verifyTypesMatch (val1 val2 : ref) (t2 : TypePtr) (msg : string) (J : MIRInst)
    (V : VState) : bool * VState :=
  if N.eqb val1 nullptr || N.eqb val2 nullptr then (false, V)
  else
    let t1 := getType val1 in
    if sameType t1 t2 then (true, V) else (false, logInst (type_mismatch msg t1 t2) J V).

(** [verifyType]. *)
Definition verifyType (val : ref) (expected : TypePtr) (msg : string) (J : MIRInst)
    (V : VState) : bool * VState :=
  if N.eqb val nullptr || N.eqb expected nullptr then (false, V)
  else
    let t := getType val in
    if N.eqb t expected then (true, V)
    else if negb (N.eqb t nullptr) && String.eqb (typeText t) (typeText expected) then (true, V)
    else (false, logInst (msg +:+ " (Expected " +:+ typeText expected +:+ ", got "
                              +:+ typeTextOrNull t +:+ ")") J V).

(** [return !hasError;] *)
Definition finish (V : VState) : bool * VState := (negb (hasError V), V).

(** What goes on with the object at [r]: a null pointer is dereferenced. *)
Definition reading {A} (r : ref) (k : option A) : option A := if N.eqb r nullptr then None else k.

(** The common part of the two comparisons. *)
Definition verify_compare (lhs rhs : ref) (J : MIRInst) (V : VState) : bool * VState :=
  let '(ok, V) := verifyTypesMatch lhs rhs (getType rhs) "Compare operands must have same type" J V in
  if negb ok then (false, V)
  else finish (check (isBoolean (i_type J)) "Compare result must be boolean" J V).

Definition verify_binary (i lhs rhs : ref) (J : MIRInst) (V : VState) : bool * VState :=
  let '(ok, V) := verifyTypesMatch lhs rhs (getType rhs) "Binary operands must have same type" J V in
  if negb ok then (false, V)
  else
    let '(ok, V) := verifyTypesMatch lhs i (i_type J) "Binary result type must match operands" J V in
    if negb ok then (false, V) else finish V.

Definition verify_alloca (allocatedType : TypePtr) (J : MIRInst) (V : VState) : VState :=
  let V := check (negb (N.eqb allocatedType nullptr)) "Alloca must have an allocated type" J V in
  if negb (isPointer (i_type J)) then logInst "Alloca result must be a pointer" J V
  else check (N.eqb (pointee (i_type J)) allocatedType)
         "Alloca result type mismatch (must point to allocated type)" J V.

Definition verify_load (ptr : ref) (J : MIRInst) (V : VState) : option VState :=
  reading ptr (Some (if isPointer (getType ptr) then
    check (N.eqb (pointee (getType ptr)) (i_type J))
      "Load result type mismatch (must match pointee type)" J V
  else logInst "Load operand must be a pointer" J V)).

(** The stores that are accepted although the types differ. *)
Definition store_allowed (val : ref) (expectedValTy : TypePtr) : bool :=
  let t := getType val in
  N.eqb t nullptr
  || bool_decide (valueKind val = Some ValueKind.ConstantNull)
  || bool_decide (valueKind val = Some ValueKind.ConstantArray)
  || bool_decide (valueKind val = Some ValueKind.ConstantMap)
  || (has_kind TypeKind.Array expectedValTy && has_kind TypeKind.Array t)
  || has_kind TypeKind.Nullable expectedValTy.

Definition verify_store (val ptr : ref) (J : MIRInst) (V : VState) : option VState :=
  reading ptr (if isPointer (getType ptr) then
    let expectedValTy := pointee (getType ptr) in
    let t := getType val in
    if N.eqb expectedValTy nullptr then Some V
    else reading val (Some (if N.eqb expectedValTy t then V
    else if negb (N.eqb t nullptr) && String.eqb (typeText t) (typeText expectedValTy) then V
    else check (store_allowed val expectedValTy)
           ("Store value type mismatch (must match pointee type) (" +:+ typeText expectedValTy
              +:+ " vs " +:+ typeTextOrNull t +:+ ")") J V))
  else Some (logInst "Store destination must be a pointer" J V)).

(** One case of a switch.  The duplicates are not looked for: the body of the test for a
    constant integer is empty. *)
Definition verify_case (cond : ref) (J : MIRInst) (V : VState) (c : ref * ref) : option VState :=
  let '(val, target) := c in
  reading target (reading val (Some (
  let V := check (inFunction target)
             "Switch target block does not belong to the current function" J V in
  let V := check (N.eqb (getType val) (getType cond)) "Switch case value type mismatch" J V in
  check (bool_decide (valueKind val = Some ValueKind.ConstantInt))
    "Switch case value must be a constant integer" J V))).

Definition verify_switch (cond defaultBlock : ref) (cases : list (ref * ref)) (J : MIRInst)
    (V : VState) : option VState :=
  reading cond (
  let V := check (isInteger (getType cond)) "Switch condition must be integer" J V in
  V ← fold_some (verify_case cond J) cases V;
  reading defaultBlock (Some (check (inFunction defaultBlock)
    "Switch default block does not belong to the current function" J V))).

(** The argument count, then the argument types up to the shorter list. *)
Definition verify_args (count_msg type_msg : string) (isVariadic : bool) (args : list ref)
    (params : list TypePtr) (J : MIRInst) (V : VState) : option VState :=
  let V :=
    if negb isVariadic then
      check (List.length args =? List.length params)%nat count_msg J V
    else
      check (negb (List.length args <? List.length params)%nat)
        "Variadic call missing required fixed arguments" J V in
  fold_some (fun V '(i, (a, p)) =>
    reading a (Some (check (N.eqb (getType a) p) (type_msg +:+ to_string (Z.of_nat i)) J V)))
    (combine (seq 0 (List.length args)) (combine args params)) V.

Definition verify_call (callee : ref) (args : list ref) (isVariadic : bool) (J : MIRInst)
    (V : VState) : option VState :=
  if N.eqb callee nullptr then Some (logInst "Call instruction has no callee (null pointer)" J V)
  else
    let type := getType callee in
    if N.eqb type nullptr then Some (logInst "Callee has no type" J V)
    else
      match (if bool_decide (valueKind callee = Some ValueKind.Function_)
             then env_values E !! callee else None) with
      | Some func =>
          verify_args "Call argument count mismatch (Direct)"
            "Call argument type mismatch at index " isVariadic args (v_params func) J V
      | None =>
          if negb (isPointer type) then Some (logInst "Indirect call operand is not a pointer" J V)
          else
            match env_types E !! pointee type with
            | Some (FunctionType _ pTypes _ _) =>
                verify_args "Call argument count mismatch (Indirect)"
                  "Indirect call argument type mismatch at index " isVariadic args pTypes J V
            | _ => Some (logInst "Indirect call operand must be a function pointer" J V)
            end
      end.

(** The terminator of [incBlock] transfers control to [parent]. *)
Definition isPredecessor (incBlock parent : ref) : bool :=
  match kind_of (terminator incBlock F) F with
  | Some (BranchInst t) => N.eqb t parent
  | Some (CondBranchInst _ t f) => N.eqb t parent || N.eqb f parent
  | Some (SwitchInst _ d cs) => N.eqb d parent || existsb (fun c => N.eqb (snd c) parent) cs
  | Some (InvokeInst _ _ n u) => N.eqb n parent || N.eqb u parent
  | Some (ThrowInst _ u) => N.eqb u parent
  | _ => false
  end.

(** The entries of a phi; a type mismatch ends the check of the instruction. *)
Fixpoint verify_incoming (i : ref) (inc : list (ref * ref)) (J : MIRInst) (V : VState) :
    option (bool * VState) :=
  match inc with
  | [] => Some (finish V)
  | (incVal, incBlock) :: rest =>
      reading incBlock (
      let V := check (inFunction incBlock)
                 "Phi incoming block does not belong to the current function" J V in
      let '(ok, V) := verifyTypesMatch incVal i (i_type J) "Phi incoming value type mismatch" J V in
      if negb ok then Some (false, V)
      else
        verify_incoming i rest J
          (check (isPredecessor incBlock (i_parent J))
             "Phi incoming block is not a predecessor of current block" J V))
  end.

Definition verify_phi (i : ref) (inc : list (ref * ref)) (J : MIRInst) (V : VState) :
    option (bool * VState) :=
  verify_incoming i inc J
    (check (negb (bool_decide (inc = []))) "Phi node must have at least one incoming value" J V).

Definition verify_return (val : ref) (J : MIRInst) (V : VState) : bool * VState :=
  if negb (N.eqb val nullptr) then
    if isVoid (f_type FI) then finish (logInst "Void function cannot return a value" J V)
    else
      let '(ok, V) := verifyType val (f_type FI) "Return value type mismatch" J V in
      if negb ok then (false, V) else finish V
  else finish (check (isVoid (f_type FI)) "Non-void function must return a value" J V).

Definition verify_landingpad (catchTypes : list TypePtr) (J : MIRInst) (V : VState) : VState :=
  let V := check (has_kind TypeKind.Struct (i_type J))
             "LandingPadInst must return a struct type { i8*, i32 }" J V in
  fold_left (fun V ct =>
    check (negb (N.eqb ct nullptr)) "LandingPadInst contains a null catch type" J V) catchTypes V.

Definition verify_await (promise : ref) (J : MIRInst) (V : VState) : bool * VState :=
  if N.eqb promise nullptr then (false, logInst "AwaitInst requires a promise operand" J V)
  else
    match env_types E !! getType promise with
    | Some (HIRPromiseType inner) =>
        if negb (N.eqb (i_type J) inner)
        then (false, logInst "Await result type must match the promise's inner type" J V)
        else finish V
    | _ => (false, logInst "Await operand must be a PromiseType" J V)
    end.

Definition verify_spawn (closure : ref) (J : MIRInst) (V : VState) : option (bool * VState) :=
  if N.eqb closure nullptr then Some (false, logInst "SpawnInst requires a closure operand" J V)
  else reading (i_type J) (Some (
    if negb (has_kind TypeKind.Promise (i_type J))
    then (false, logInst "SpawnInst return type MUST be a PromiseType." J V)
    else finish V)).

Definition verify_invoke (n u : ref) (J : MIRInst) (V : VState) : option VState :=
  reading n (
  let V := check (inFunction n)
    "Invoke normal destination block does not belong to the current function" J V in
  reading u (Some (check (inFunction u)
    "Invoke unwind destination block does not belong to the current function" J V))).

Definition verifyInstruction (i : ref) (J : MIRInst) (V : VState) : option (bool * VState) :=
  if N.eqb (i_parent J) nullptr then Some (false, logInst "Instruction has no parent block" J V)
  else
    match i_kind J with
    | BinaryInst _ lhs rhs => Some (verify_binary i lhs rhs J V)
    | CompareInst _ lhs rhs | FCmpInst _ lhs rhs => Some (verify_compare lhs rhs J V)
    | AllocaInst allocatedType _ => Some (finish (verify_alloca allocatedType J V))
    | LoadInst ptr _ _ => finish <$> verify_load ptr J V
    | StoreInst val ptr _ _ => finish <$> verify_store val ptr J V
    | CondBranchInst cond _ _ =>
        reading cond (Some (finish (check (isBoolean (getType cond)) "CondBr condition must be boolean" J V)))
    | SwitchInst cond d cases => finish <$> verify_switch cond d cases J V
    | CallInst callee args isVariadic => finish <$> verify_call callee args isVariadic J V
    | PhiInst inc => verify_phi i inc J V
    | ReturnInst val => Some (verify_return val J V)
    | InvokeInst _ _ n u => finish <$> verify_invoke n u J V
    | LandingPadInst catchTypes => Some (finish (verify_landingpad catchTypes J V))
    | ResumeInst exc | ThrowInst exc _ =>
        Some (finish (check (negb (N.eqb exc nullptr)) "Throw/Resume must have an exception operand" J V))
    | InlineAsmInst asm _ _ _ =>
        Some (finish (check (negb (String.eqb asm "")) "Inline assembly string cannot be completely empty" J V))
    | StoreWeakInst val ptr =>
        Some (finish (check (negb (N.eqb val nullptr || N.eqb ptr nullptr))
          "store_weak requires both a value and a pointer" J V))
    | LoadWeakInst ptr =>
        Some (finish (check (negb (N.eqb ptr nullptr)) "load_weak requires a pointer" J V))
    | SpawnInst closure _ => verify_spawn closure J V
    | AwaitInst promise => Some (verify_await promise J V)
    | _ => Some (finish V)
    end.

Definition isTerminator (k : InstKind) : bool :=
  match k with
  | BranchInst _ | CondBranchInst _ _ _ | SwitchInst _ _ _ | ReturnInst _
  | UnreachableInst | InvokeInst _ _ _ _ | ResumeInst _ | ThrowInst _ _ => true
  | _ => false
  end.

(** The instruction at an address, checked; the results are ignored. *)
Definition verify_at (V : VState) (i : ref) : option VState :=
  match insts F !! i with Some J => snd <$> verifyInstruction i J V | None => Some V end.

(** [verifyBlock].  [addBlock] sets the parent of every block of a function, so the test
    for a missing parent does not arise. *)
Definition verifyBlock (b : ref) (V : VState) : option (bool * VState) :=
  if bool_decide (getInstructions b F = []) then
    Some (false, logBlock "Block is empty (must have at least a terminator)" b V)
  else
    V ← fold_some verify_at (getInstructions b F) V;
    let ends := match kind_of (terminator b F) F with Some k => isTerminator k | None => false end in
    Some (finish (if ends then V else logBlock "Block does not end with a terminator" b V)).

(** The loop over the worklist. *)
Definition reach_loop (fuel : nat) : list ref -> list ref -> option (list ref) :=
  search (fun b => getSuccessors b F) fuel.

(** Every block is pushed at most once; [succ_count] bounds the pushes even when a
    recorded successor is not a block of the function. *)
Definition succ_count : nat :=
  list_sum (map (fun b => List.length (getSuccessors b F)) (map fst (map_to_list (bbs F)))).
Definition reach_fuel : nat := 2 + succ_count.

(** Every block that is reached is taken from the worklist and read. *)
Definition checkUnreachableBlocks (V : VState) : option (bool * VState) :=
  match blocks F with
  | [] => Some (true, V)
  | entry :: _ =>
      reachable ← reach_loop reach_fuel [entry] [entry];
      if bool_decide (nullptr ∈ reachable) then None
      else
        Some (finish (fold_left (fun V b =>
          if bool_decide (b ∈ reachable) then V
          else logBlock "Block is unreachable from entry" b V) (blocks F) V))
  end.

(** [verifyFunction].  A function without blocks is a declaration, so the test for an
    empty body after it does not arise. *)
Definition verifyFunction (V : VState) : option (bool * VState) :=
  if isDeclaration F then Some (finish V)
  else
    let V := if f_isInline FI && f_isNoInline FI
             then logFunction "Function cannot be both 'inline' and 'noinline'" V else V in
    let V := if f_isNaked FI && f_isInline FI
             then logFunction "Naked functions cannot be marked for inlining" V else V in
    V ← fold_some (fun V b => snd <$> verifyBlock b V) (blocks F) V;
    '(_, V) ← checkUnreachableBlocks V;
    Some (finish V).

(** [verify] of a function. *)
Definition verify : option (bool * VState) := verifyFunction newVerifier.

End Verifier.

(** A global variable: its type and, when it has one, its initializer. *)
Record MIRGlobal := {
  g_type : TypePtr;
  g_initializer : ref;
}.

(** [verifyType(init, expectedInitTy, msg, nullptr)]: no instruction to name. *)
Definition verifyInitializer (E : Env) (init : ref) (expected : TypePtr) (V : VState) : VState :=
  let t := match env_values E !! init with Some v => v_type v | None => nullptr end in
  if negb (N.eqb t nullptr) && String.eqb (typeText E t) (typeText E expected) then V
  else log ("Error in instruction : Global initializer type mismatch (Expected "
              +:+ typeText E expected +:+ ", got " +:+ typeTextOrNull E t +:+ ")") V.

Definition verify_global (E : Env) (acc : bool * VState) (g : MIRGlobal) : bool * VState :=
  let '(ok, V) := acc in
  if N.eqb (g_initializer g) nullptr then acc
  else
    let expectedInitTy := if isPointer E (g_type g) then pointee E (g_type g) else g_type g in
    let init := env_values E !! g_initializer g in
    let t := match init with Some v => v_type v | None => nullptr end in
    if N.eqb expectedInitTy nullptr || N.eqb t expectedInitTy then acc
    else if bool_decide (v_kind <$> init = Some ValueKind.ConstantNull)
            || bool_decide (v_kind <$> init = Some ValueKind.ConstantArray)
            || bool_decide (v_kind <$> init = Some ValueKind.ConstantMap)
    then acc
    else (false, verifyInitializer E (g_initializer g) expectedInitTy V).

(** [verifyModule]: the globals, then the functions with a body; the errors of one
    function make the verification of the next ones fail too. *)
Fixpoint verify_functions (E : Env) (fs : list (FunctionInfo * MIRFunction)) (ok : bool)
    (V : VState) : option (bool * VState) :=
  match fs with
  | [] => Some (ok, V)
  | (FI, F) :: fs =>
      if isDeclaration F then verify_functions E fs ok V
      else
        '(r, V) ← verifyFunction E FI F V;
        verify_functions E fs (ok && r) V
  end.

Definition verifyModule (E : Env) (globals : list MIRGlobal) (fs : list (FunctionInfo * MIRFunction))
    (V : VState) : option (bool * VState) :=
  let '(ok, V) := fold_left (verify_global E) globals (true, V) in
  verify_functions E fs ok V.
