(* ===== verification/VerifierProps.v ===== *)
(** * The verifier: what it accepts

    A declarative description of the functions the verifier accepts and of those in which it
    reads no null pointer, and the proof that it answers exactly for the latter and accepts
    exactly the former; then programs it accepts although a check that its comments announce
    would reject them. *)

From S2P Require Import Prelude Diag HIRType MIR Worklist Verifier.
#[local] Open Scope string_scope.
#[local] Open Scope list_scope.

(** ** Validity *)

(** Reachability along the recorded successors. *)
Inductive reachable_from (F : MIRFunction) (e : ref) : ref -> Prop :=
  | rf_entry : reachable_from F e e
  | rf_succ b c : reachable_from F e b -> c ∈ getSuccessors b F -> reachable_from F e c.

Section Validity.
Context (E : Env) (FI : FunctionInfo) (F : MIRFunction).

Abbreviation null r := (N.eqb r nullptr).

(** The operands of a binary operation or comparison: of the same type, when there are
    two. *)
Definition operands_valid (lhs rhs : ref) : bool :=
  null lhs || null rhs || sameType E (getType E F lhs) (getType E F rhs).

Definition args_valid (isVariadic : bool) (args : list ref) (params : list TypePtr) : bool :=
  (if isVariadic then (List.length params <=? List.length args)%nat
   else (List.length args =? List.length params)%nat)
  && forallb (fun '(a, p) => N.eqb (getType E F a) p) (combine args params).

Definition call_valid (callee : ref) (args : list ref) (isVariadic : bool) : bool :=
  negb (null callee) && negb (null (getType E F callee)) &&
  match (if bool_decide (valueKind E F callee = Some ValueKind.Function_)
         then env_values E !! callee else None) with
  | Some func => args_valid isVariadic args (v_params func)
  | None =>
      isPointer E (getType E F callee) &&
      match env_types E !! pointee E (getType E F callee) with
      | Some (FunctionType _ pTypes _ _) => args_valid isVariadic args pTypes
      | _ => false
      end
  end.

(** The entries of a phi, up to the first one without a value. *)
Fixpoint incoming_valid (i : ref) (J : MIRInst) (inc : list (ref * ref)) : bool :=
  match inc with
  | [] => true
  | (v, b) :: rest =>
      inFunction F b
      && (null v || null i
          || (sameType E (getType E F v) (i_type J) && isPredecessor F b (i_parent J)
              && incoming_valid i J rest))
  end.

Definition store_valid (val ptr : ref) : bool :=
  let t := getType E F val in
  let d := pointee E (getType E F ptr) in
  isPointer E (getType E F ptr) &&
  (null d || N.eqb d t || (negb (null t) && String.eqb (typeText E t) (typeText E d))
   || store_allowed E F val d).

Definition case_valid (c : ref) (x : ref * ref) : bool :=
  inFunction F (snd x) && N.eqb (getType E F (fst x)) (getType E F c)
  && bool_decide (valueKind E F (fst x) = Some ValueKind.ConstantInt).

Definition inst_valid (i : ref) (J : MIRInst) : bool :=
  negb (null (i_parent J)) &&
  match i_kind J with
  | BinaryInst _ l r =>
      operands_valid l r
      && (null l || null r || null i || sameType E (getType E F l) (i_type J))
  | CompareInst _ l r | FCmpInst _ l r =>
      operands_valid l r && (null l || null r || isBoolean E (i_type J))
  | AllocaInst ty _ =>
      negb (null ty) && isPointer E (i_type J) && N.eqb (pointee E (i_type J)) ty
  | LoadInst ptr _ _ =>
      isPointer E (getType E F ptr) && N.eqb (pointee E (getType E F ptr)) (i_type J)
  | StoreInst val ptr _ _ => store_valid val ptr
  | CondBranchInst c _ _ => isBoolean E (getType E F c)
  | SwitchInst c d cs =>
      isInteger E (getType E F c) && inFunction F d
      && forallb (case_valid c) cs
  | CallInst callee args va => call_valid callee args va
  | PhiInst inc => negb (bool_decide (inc = [])) && incoming_valid i J inc
  | ReturnInst v =>
      if null v then isVoid E (f_type FI)
      else negb (isVoid E (f_type FI)) && sameType E (getType E F v) (f_type FI)
  | InvokeInst _ _ n u => inFunction F n && inFunction F u
  | LandingPadInst cts =>
      has_kind E TypeKind.Struct (i_type J) && forallb (fun ct => negb (null ct)) cts
  | ResumeInst e | ThrowInst e _ => negb (null e)
  | InlineAsmInst a _ _ _ => negb (String.eqb a "")
  | StoreWeakInst v p => negb (null v) && negb (null p)
  | LoadWeakInst p => negb (null p)
  | SpawnInst c _ => negb (null c) && has_kind E TypeKind.Promise (i_type J)
  | AwaitInst p =>
      negb (null p) &&
      match env_types E !! getType E F p with
      | Some (HIRPromiseType inner) => N.eqb (i_type J) inner
      | _ => false
      end
  | _ => true
  end.

(** ** What the checks read *)

Definition args_readable (args : list ref) (params : list TypePtr) : bool :=
  forallb (fun '(a, _) => negb (null a)) (combine args params).

Definition call_readable (callee : ref) (args : list ref) : bool :=
  null callee || null (getType E F callee) ||
  match (if bool_decide (valueKind E F callee = Some ValueKind.Function_)
         then env_values E !! callee else None) with
  | Some func => args_readable args (v_params func)
  | None =>
      negb (isPointer E (getType E F callee)) ||
      match env_types E !! pointee E (getType E F callee) with
      | Some (FunctionType _ pTypes _ _) => args_readable args pTypes
      | _ => true
      end
  end.

(** The entries of a phi are read up to the first one that does not fit. *)
Fixpoint incoming_readable (i : ref) (J : MIRInst) (inc : list (ref * ref)) : bool :=
  match inc with
  | [] => true
  | (v, b) :: rest =>
      negb (null b)
      && (null v || null i || negb (sameType E (getType E F v) (i_type J)) || incoming_readable i J rest)
  end.

(** The check of an instruction dereferences no null pointer. *)
Definition inst_readable (i : ref) (J : MIRInst) : bool :=
  null (i_parent J) ||
  match i_kind J with
  | LoadInst ptr _ _ => negb (null ptr)
  | StoreInst val ptr _ _ =>
      negb (null ptr)
      && (negb (isPointer E (getType E F ptr)) || null (pointee E (getType E F ptr)) || negb (null val))
  | CondBranchInst c _ _ => negb (null c)
  | SwitchInst c d cs =>
      negb (null c) && forallb (fun x => negb (null (snd x)) && negb (null (fst x))) cs && negb (null d)
  | CallInst callee args _ => call_readable callee args
  | PhiInst inc => incoming_readable i J inc
  | InvokeInst _ _ n u => negb (null n) && negb (null u)
  | SpawnInst c _ => null c || negb (null (i_type J))
  | _ => true
  end.

(** The verifier dereferences no null pointer: neither an operand that a check reads nor a
    recorded successor. *)
Record function_readable : Prop := {
  fr_inst : forall b i J, b ∈ blocks F -> i ∈ getInstructions b F ->
    insts F !! i = Some J -> inst_readable i J = true;
  fr_successors : ~ reachable_from F (getEntryBlock F) nullptr;
}.

(** A function with a body that the verifier accepts. *)
Record function_valid : Prop := {
  fv_inline : f_isInline FI = true -> f_isNoInline FI = false /\ f_isNaked FI = false;
  fv_block : forall b, b ∈ blocks F -> getInstructions b F <> [];
  fv_terminator : forall b, b ∈ blocks F ->
    exists k, kind_of (terminator b F) F = Some k /\ isTerminator k = true;
  fv_inst : forall b i J, b ∈ blocks F -> i ∈ getInstructions b F ->
    insts F !! i = Some J -> inst_valid i J = true;
  fv_reachable : forall b, b ∈ blocks F -> reachable_from F (getEntryBlock F) b;
}.

(** ** Checks that decide *)

(** A check leaves the state as it is when [b] holds and records an error when it does
    not, and it forgets no error. *)
Definition failed (V : VState) : Prop := hasError V = true /\ errors V <> [].

Definition decides (f : VState -> VState) (b : bool) : Prop :=
  forall V, (b = true -> f V = V) /\ (b = false -> failed (f V)) /\ (failed V -> failed (f V)).

Lemma failed_log m V : failed (log m V).
Proof. split; [done |]. simpl. by destruct (errors V). Qed.

(** A branch of a check: it returned, or it reported an error. *)
Ltac by_branch :=
  split_and!; intros; try discriminate; try done; try apply failed_log.

Lemma decides_ext f g a b : (forall V, f V = g V) -> a = b -> decides g b -> decides f a.
Proof. intros H -> D V. rewrite H. apply D. Qed.

Lemma decides_id : decides (fun V => V) true.
Proof. intros V. done. Qed.

Lemma decides_log m : decides (log m) false.
Proof. intros V. by_branch. Qed.

Lemma decides_check c m J : decides (check c m J) c.
Proof. intros V. unfold check. destruct c; by_branch. Qed.

Lemma decides_comp f g a b : decides f a -> decides g b -> decides (fun V => g (f V)) (a && b).
Proof.
  intros Hf Hg V. destruct (Hf V) as (F1 & F2 & F3). destruct (Hg (f V)) as (G1 & G2 & G3).
  split_and!.
  - intros H. apply andb_true_iff in H as [-> ->]. by rewrite G1, F1.
  - destruct a; simpl; intros H; [by apply G2 | by apply G3, F2].
  - intros H. by apply G3, F3.
Qed.

Lemma decides_if (c : bool) f g a b :
  (c = true -> decides f a) -> (c = false -> decides g b) ->
  decides (fun V => if c then f V else g V) (if c then a else b).
Proof. intros Hf Hg. destruct c; [by apply Hf | by apply Hg]. Qed.

Lemma decides_fold {A} (f : VState -> A -> VState) (p : A -> bool) l :
  (forall x, x ∈ l -> decides (fun V => f V x) (p x)) -> decides (fun V => fold_left f l V) (forallb p l).
Proof.
  induction l as [| x l IH]; intros H; simpl; [apply decides_id |].
  apply (decides_comp (fun V => f V x) (fun V => fold_left f l V)); [apply H; left |].
  apply IH. intros y Hy. apply H. by right.
Qed.

(** A check that may read null: it does unless [r] holds, and decides [b] if it does not. *)
Definition answers (f : VState -> option VState) (r b : bool) : Prop :=
  forall V, if r then exists V', f V = Some V' /\ (b = true -> V' = V) /\ (b = false -> failed V') /\ (failed V -> failed V')
            else f V = None.

Lemma answers_total f b : decides f b -> answers (fun V => Some (f V)) true b.
Proof. intros D V. exists (f V). split; [done | apply D]. Qed.

Lemma answers_ext f g r r' b b' : (forall V, f V = g V) -> r = r' -> b = b' -> answers g r' b' -> answers f r b.
Proof. intros H -> -> D V. rewrite H. apply D. Qed.

Lemma answers_reading x f r b : answers f r b -> answers (fun V => reading x (f V)) (negb (null x) && r) b.
Proof. intros A V. unfold reading. destruct (null x); [done |]. apply A. Qed.

Lemma answers_bind f g ra rb a b :
  answers f ra a -> answers g rb b -> answers (fun V => V' ← f V; g V') (ra && rb) (a && b).
Proof.
  intros Hf Hg V. specialize (Hf V). destruct ra; cbn [andb]; [| by rewrite Hf].
  destruct Hf as (V1 & -> & F1 & F2 & F3). cbn. specialize (Hg V1). destruct rb; [| done].
  destruct Hg as (V2 & -> & G1 & G2 & G3). exists V2. split; [done |]. split_and!.
  - intros H. apply andb_true_iff in H as [-> ->]. by rewrite G1, F1.
  - destruct a; simpl; intros H; [by apply G2 | by apply G3, F2].
  - intros H. by apply G3, F3.
Qed.

Lemma answers_then f g r a b : decides f a -> answers g r b -> answers (fun V => g (f V)) r (a && b).
Proof. intros D. exact (answers_bind _ g true r a b (answers_total f a D)). Qed.

Lemma answers_fold {A} (f : VState -> A -> option VState) (r p : A -> bool) l :
  (forall x, x ∈ l -> answers (fun V => f V x) (r x) (p x)) ->
  answers (fun V => fold_some f l V) (forallb r l) (forallb p l).
Proof.
  induction l as [| x l IH]; intros H; cbn [fold_some forallb]; [by apply answers_total; intros V |].
  apply (answers_bind (fun V => f V x) (fun V => fold_some f l V)); [apply H; left |].
  apply IH. intros y Hy. apply H. by right.
Qed.

(** The Boolean result is ignored. *)
Lemma answers_finish f r b : answers f r b -> answers (fun V => snd <$> (finish <$> f V)) r b.
Proof.
  intros A V. specialize (A V). destruct r; [| by rewrite A]. destruct A as (V' & -> & A). by exists V'.
Qed.

(** Cases on the conditions of a check without loops. *)
Ltac decide_cases :=
  intros V;
  repeat match goal with
         | |- context [N.eqb ?a ?b] => destruct (N.eqb a b)
         | |- context [sameType E ?a ?b] => destruct (sameType E a b)
         | |- context [isBoolean E ?a] => destruct (isBoolean E a)
         | |- context [isPointer E ?a] => destruct (isPointer E a)
         | |- context [isVoid E ?a] => destruct (isVoid E a)
         | |- context [has_kind E ?k ?a] => destruct (has_kind E k a)
         | |- context [inFunction F ?a] => destruct (inFunction F a)
         | |- context [String.eqb ?a ?b] => destruct (String.eqb a b)
         end; cbn; by_branch.

Lemma decides_compare l r J :
  decides (fun V => (verify_compare E F l r J V).2)
    (operands_valid l r && (null l || null r || isBoolean E (i_type J))).
Proof. unfold verify_compare, verifyTypesMatch, operands_valid, check, finish. decide_cases. Qed.

Lemma decides_binary i l r J :
  decides (fun V => (verify_binary E F i l r J V).2)
    (operands_valid l r && (null l || null r || null i || sameType E (getType E F l) (i_type J))).
Proof. unfold verify_binary, verifyTypesMatch, operands_valid, finish. decide_cases. Qed.

Lemma decides_alloca ty J :
  decides (verify_alloca E ty J)
    (negb (null ty) && isPointer E (i_type J) && N.eqb (pointee E (i_type J)) ty).
Proof. unfold verify_alloca, check. decide_cases. Qed.

Lemma answers_load p J :
  answers (verify_load E F p J) (negb (null p))
    (isPointer E (getType E F p) && N.eqb (pointee E (getType E F p)) (i_type J)).
Proof.
  rewrite <- (andb_true_r (negb (null p))). apply answers_reading, answers_total. unfold check. decide_cases.
Qed.

Lemma answers_store v p J :
  answers (verify_store E F v p J)
    (negb (null p)
     && (negb (isPointer E (getType E F p)) || null (pointee E (getType E F p)) || negb (null v)))
    (store_valid v p).
Proof.
  apply answers_reading. unfold store_valid, check.
  destruct (isPointer E (getType E F p)); cbn [negb orb andb]; [| apply answers_total; intros V; by_branch].
  destruct (null (pointee E (getType E F p))); cbn [orb]; [apply answers_total; intros V; by_branch |].
  rewrite <- (andb_true_r (negb (null v))). apply answers_reading, answers_total. intros V.
  destruct (N.eqb (pointee E (getType E F p)) _); simpl; [by_branch |].
  destruct (negb (null (getType E F v)) && _); [by_branch |].
  destruct (store_allowed E F v _); by_branch.
Qed.

Lemma answers_case c J x :
  answers (fun V => verify_case E F c J V x) (negb (null (snd x)) && negb (null (fst x))) (case_valid c x).
Proof.
  destruct x as [v b]. unfold verify_case, case_valid. cbn [fst snd]. rewrite <- (andb_true_r (negb (null v))).
  apply answers_reading, answers_reading, answers_total.
  refine (decides_comp _ _ _ _ _ (decides_check _ _ J)).
  exact (decides_comp _ _ _ _ (decides_check _ _ J) (decides_check _ _ J)).
Qed.

Lemma answers_switch c d cs J :
  answers (verify_switch E F c d cs J)
    (negb (null c) && forallb (fun x => negb (null (snd x)) && negb (null (fst x))) cs && negb (null d))
    (isInteger E (getType E F c) && inFunction F d && forallb (case_valid c) cs).
Proof.
  unfold verify_switch. rewrite <- !andb_assoc, (andb_comm (inFunction F d)), <- (andb_true_r (negb (null d))).
  apply answers_reading.
  refine (answers_then _ (fun V => V ← fold_some (verify_case E F c J) cs V; _) _ _ _ (decides_check _ _ J) _).
  exact (answers_bind _ _ _ _ _ _ (answers_fold _ _ _ _ (fun x _ => answers_case c J x))
    (answers_reading d _ _ _ (answers_total _ _ (decides_check _ _ J)))).
Qed.

Lemma decides_await p J :
  decides (fun V => (verify_await E F p J V).2)
    (negb (null p) &&
     match env_types E !! getType E F p with
     | Some (HIRPromiseType inner) => N.eqb (i_type J) inner
     | _ => false
     end).
Proof.
  unfold verify_await, finish. intros V. destruct (null p); [by_branch |]. simpl.
  destruct (env_types E !! getType E F p) as [[] |]; try solve [by_branch].
  destruct (N.eqb (i_type J) inner); by_branch.
Qed.

Lemma forallb_numbered {A} (p : A -> bool) (l : list A) k (m : list nat) :
  length m = k -> length l <= k -> forallb (fun '(_, x) => p x) (combine m l) = forallb p l.
Proof.
  revert k m. induction l as [| x l IH]; intros k [| y m]; cbn [length]; intros Em El; cbn; try done; [lia |].
  f_equal. apply (IH (length m)); [done | lia].
Qed.

Lemma answers_args cm tm va args params J :
  answers (verify_args E F cm tm va args params J) (args_readable args params) (args_valid va args params).
Proof.
  unfold verify_args, args_valid, args_readable.
  assert (L : length (combine args params) <= length args) by (rewrite length_combine; lia).
  set (count := if va then _ else _).
  assert (D : decides (fun V => if negb va then check (length args =? length params)%nat cm J V
    else check (negb (length args <? length params)%nat) "Variadic call missing required fixed arguments" J V) count).
  { unfold count. destruct va; simpl; [| apply decides_check].
    rewrite Nat.ltb_antisym, negb_involutive. apply decides_check. }
  refine (answers_then _ (fun V => fold_some _ _ V) _ _ _ D _).
  rewrite <- (forallb_numbered (fun '(a, _) => negb (null a)) _ (length args) (seq 0 (length args))),
    <- (forallb_numbered (fun '(a, p) => N.eqb (getType E F a) p) _ (length args) (seq 0 (length args)))
    by (by rewrite ?length_seq).
  apply answers_fold. intros [i [a p]] _. rewrite <- (andb_true_r (negb (null a))).
  apply answers_reading, answers_total, decides_check.
Qed.

Lemma answers_call c args va J : answers (verify_call E F c args va J) (call_readable c args) (call_valid c args va).
Proof.
  unfold verify_call, call_valid, call_readable. destruct (null c); [apply answers_total, decides_log |].
  destruct (null (getType E F c)); [apply answers_total, decides_log |]. simpl.
  destruct (if bool_decide _ then _ else None) as [f |]; [apply answers_args |].
  destruct (isPointer E (getType E F c)); simpl; [| apply answers_total, decides_log].
  destruct (env_types E !! _) as [[] |]; try apply answers_total, decides_log. apply answers_args.
Qed.

Lemma answers_incoming i J inc :
  answers (fun V => snd <$> verify_incoming E F i inc J V) (incoming_readable i J inc) (incoming_valid i J inc).
Proof.
  induction inc as [| [v b] inc IH]; cbn [verify_incoming incoming_valid incoming_readable].
  { apply answers_total, decides_id. }
  assert (Rd : forall k, snd <$> reading b k = reading b (snd (A := bool) (B := VState) <$> k))
    by (intros k; unfold reading; by destruct (null b)).
  eapply answers_ext; [intros V; apply Rd | reflexivity | reflexivity |]. apply answers_reading.
  unfold verifyTypesMatch.
  pose proof (decides_check (inFunction F b) "Phi incoming block does not belong to the current function" J) as D1.
  destruct (null v || null i); cbn [orb].
  { rewrite andb_true_r. apply (answers_total _ _ D1). }
  destruct (sameType E (getType E F v) (i_type J)); cbn [negb orb andb].
  - exact (answers_then _ _ _ _ _ D1 (answers_then _ _ _ _ _ (decides_check (isPredecessor F b (i_parent J))
      "Phi incoming block is not a predecessor of current block" J) IH)).
  - rewrite andb_false_r. apply answers_total. intros V. by_branch.
Qed.

Lemma decides_return v J :
  decides (fun V => (verify_return E FI F v J V).2)
    (if null v then isVoid E (f_type FI)
     else negb (isVoid E (f_type FI)) && sameType E (getType E F v) (f_type FI)).
Proof.
  unfold verify_return, verifyType, check, finish, sameType. intros V.
  destruct (null v); simpl; [destruct (isVoid E (f_type FI)); by_branch |].
  unfold isVoid. destruct (null (f_type FI)); simpl; [by_branch |].
  destruct (has_kind E TypeKind.Void (f_type FI)); simpl; [by_branch |].
  destruct (N.eqb (getType E F v) (f_type FI)); [by_branch |].
  destruct (null (getType E F v)); simpl; [by_branch |]. destruct (String.eqb _ _); by_branch.
Qed.

Lemma decides_landingpad cts J :
  decides (verify_landingpad E cts J)
    (has_kind E TypeKind.Struct (i_type J) && forallb (fun ct => negb (null ct)) cts).
Proof.
  refine (decides_comp _ (fun V => fold_left _ cts V) _ _ (decides_check _ _ J) _).
  apply decides_fold. intros x _. apply decides_check.
Qed.

Lemma answers_phi i inc J :
  answers (fun V => snd <$> verify_phi E F i inc J V) (incoming_readable i J inc)
    (negb (bool_decide (inc = [])) && incoming_valid i J inc).
Proof.
  exact (answers_then _ _ _ _ _ (decides_check _ _ J) (answers_incoming i J inc)).
Qed.

Lemma answers_invoke n u J :
  answers (verify_invoke F n u J) (negb (null n) && negb (null u)) (inFunction F n && inFunction F u).
Proof.
  apply answers_reading. rewrite <- (andb_true_r (negb (null u))).
  exact (answers_then _ _ _ _ _ (decides_check _ _ J)
    (answers_reading u _ _ _ (answers_total _ _ (decides_check _ _ J)))).
Qed.

Lemma answers_spawn c J :
  answers (fun V => snd <$> verify_spawn E c J V) (null c || negb (null (i_type J)))
    (negb (null c) && has_kind E TypeKind.Promise (i_type J)).
Proof.
  unfold verify_spawn, reading, finish. intros V. destruct (null c); cbn [orb negb andb].
  { eexists. split; [reflexivity |]. by_branch. }
  destruct (null (i_type J)); cbn [negb]; [done |].
  destruct (has_kind E TypeKind.Promise (i_type J)); (eexists; split; [reflexivity |]; by_branch).
Qed.

Lemma answers_instruction i J :
  answers (fun V => snd <$> verifyInstruction E FI F i J V) (inst_readable i J) (inst_valid i J).
Proof.
  unfold verifyInstruction, inst_valid, inst_readable. destruct (null (i_parent J)); [apply answers_total, decides_log |].
  cbn [negb andb orb]. destruct (i_kind J); try (apply answers_total, decides_id || apply answers_total, decides_check).
  - rewrite <- (andb_true_r (negb (null cond))).
    eapply answers_ext; [| reflexivity | reflexivity | apply answers_reading, answers_total, decides_check].
    intros V. unfold reading. by destruct (null cond).
  - apply answers_finish, answers_switch.
  - apply answers_total, decides_return.
  - apply answers_total, decides_alloca.
  - apply answers_finish, answers_load.
  - apply answers_finish, answers_store.
  - rewrite <- negb_orb. apply answers_total, decides_check.
  - apply answers_total, decides_binary.
  - apply answers_total, decides_compare.
  - apply answers_total, decides_compare.
  - apply answers_phi.
  - apply answers_finish, answers_call.
  - apply answers_finish, answers_invoke.
  - apply answers_total, decides_landingpad.
  - apply answers_spawn.
  - apply answers_total, decides_await.
Qed.

Lemma answers_at i :
  answers (fun V => verify_at E FI F V i)
    (match insts F !! i with Some J => inst_readable i J | None => true end)
    (match insts F !! i with Some J => inst_valid i J | None => true end).
Proof.
  unfold verify_at. destruct (insts F !! i); [apply answers_instruction | apply answers_total, decides_id].
Qed.

(** ** Blocks *)

Definition block_valid (b : ref) : bool :=
  negb (bool_decide (getInstructions b F = []))
  && forallb (fun i => match insts F !! i with Some J => inst_valid i J | None => true end)
       (getInstructions b F)
  && match kind_of (terminator b F) F with Some k => isTerminator k | None => false end.

Definition block_readable (b : ref) : bool :=
  forallb (fun i => match insts F !! i with Some J => inst_readable i J | None => true end) (getInstructions b F).

Lemma answers_block b : answers (fun V => snd <$> verifyBlock E FI F b V) (block_readable b) (block_valid b).
Proof.
  unfold verifyBlock, block_valid, block_readable. case_bool_decide as N.
  { rewrite N. apply answers_total, decides_log. }
  cbn [negb andb].
  set (ends := match kind_of (terminator b F) F with Some k => isTerminator k | None => false end).
  assert (D : answers (fun V => Some (if ends then V else logBlock F "Block does not end with a terminator" b V)) true ends).
  { apply answers_total. destruct ends; [apply decides_id | apply decides_log]. }
  pose proof (answers_bind _ _ _ _ _ _ (answers_fold (verify_at E FI F) _ _ (getInstructions b F) (fun i _ => answers_at i)) D) as A.
  rewrite andb_true_r in A. refine (answers_ext _ _ _ _ _ _ _ eq_refl eq_refl A).
  intros V. by destruct (fold_some _ _ V).
Qed.

(** ** Reachability *)

Definition all_succs : list ref :=
  concat (map (fun b => getSuccessors b F) (map fst (map_to_list (bbs F)))).

Lemma length_all_succs : List.length all_succs = succ_count F.
Proof.
  unfold all_succs, succ_count. generalize (map fst (map_to_list (bbs F))). intros l.
  induction l as [| b l IH]; simpl; [done |]. by rewrite length_app, IH.
Qed.

Lemma elem_of_all_succs b c : c ∈ getSuccessors b F -> c ∈ all_succs.
Proof.
  intros H. unfold all_succs. apply list_elem_of_In, in_concat.
  exists (getSuccessors b F). split; [| by apply list_elem_of_In].
  apply (in_map (fun b => getSuccessors b F)). unfold getSuccessors in H.
  destruct (bbs F !! b) as [B |] eqn:EB; [| by apply not_elem_of_nil in H].
  apply (in_map fst (map_to_list (bbs F)) (b, B)). apply list_elem_of_In.
  by apply elem_of_map_to_list.
Qed.

Lemma reached_reachable e x :
  reached (fun b => getSuccessors b F) [e] x <-> reachable_from F e x.
Proof.
  split.
  - induction 1 as [v Hv | u v _ IH Hv]; [apply list_elem_of_singleton in Hv as ->; apply rf_entry |].
    by apply rf_succ with u.
  - induction 1 as [| b c _ IH Hc]; [apply reached_root; left |]. by apply reached_next with b.
Qed.

(** The loop ends within its fuel, on exactly the blocks reached from the entry. *)
Lemma reach_loop_entry e :
  exists R, reach_loop F (reach_fuel F) [e] [e] = Some R /\ forall x, x ∈ R <-> reachable_from F e x.
Proof.
  destruct (search_from_spec (fun b => getSuccessors b F) [e] (e :: all_succs)) with (fuel := reach_fuel F)
    as (R & ER & _ & HR).
  - intros x. rewrite reached_reachable. intros [| b c _ Hc]; [left |]. right. by apply (elem_of_all_succs b).
  - unfold reach_fuel. rewrite <- length_all_succs. simpl. lia.
  - exists R. split; [exact ER |]. intros x. by rewrite HR, reached_reachable.
Qed.

End Validity.

(** ** The function *)

Lemma function_valid_flags FI :
  (f_isInline FI = true -> f_isNoInline FI = false /\ f_isNaked FI = false) <->
  negb (f_isInline FI && f_isNoInline FI) && negb (f_isNaked FI && f_isInline FI) = true.
Proof. destruct (f_isInline FI), (f_isNoInline FI), (f_isNaked FI); simpl; intuition done. Qed.

(** The blocks, one after the other. *)
Lemma answers_blocks E FI F bs :
  answers (fun V => fold_some (fun V b => snd <$> verifyBlock E FI F b V) bs V)
    (forallb (block_readable E F) bs) (forallb (block_valid E FI F) bs).
Proof. apply answers_fold. intros b _. apply answers_block. Qed.

Lemma blocks_readable E F :
  forallb (block_readable E F) (blocks F) = true <->
  forall b i J, b ∈ blocks F -> i ∈ getInstructions b F -> insts F !! i = Some J -> inst_readable E F i J = true.
Proof.
  unfold block_readable. rewrite forallb_forall. setoid_rewrite forallb_forall. setoid_rewrite <- list_elem_of_In. split.
  - intros A b i J Hb Hi EJ. specialize (A b Hb i Hi). by rewrite EJ in A.
  - intros A b Hb i Hi. destruct (insts F !! i) as [J |] eqn:EJ; [by apply (A b i J) | done].
Qed.

Lemma blocks_valid E FI F :
  forallb (block_valid E FI F) (blocks F) = true <->
  (forall b, b ∈ blocks F -> getInstructions b F <> [])
  /\ (forall b, b ∈ blocks F -> exists k, kind_of (terminator b F) F = Some k /\ isTerminator k = true)
  /\ (forall b i J, b ∈ blocks F -> i ∈ getInstructions b F -> insts F !! i = Some J -> inst_valid E FI F i J = true).
Proof.
  unfold block_valid. rewrite forallb_forall. setoid_rewrite <- list_elem_of_In. split.
  - intros A. split_and!.
    + intros b Hb. specialize (A b Hb). by case_bool_decide.
    + intros b Hb. apply A, andb_true_iff in Hb as [_ Hb]. destruct (kind_of _ F) as [k |]; [by exists k | done].
    + intros b i J Hb Hi EJ. specialize (A b Hb). rewrite !andb_true_iff, forallb_forall in A.
      destruct A as [[_ A] _]. apply list_elem_of_In, A in Hi. by rewrite EJ in Hi.
  - intros (V1 & V2 & V3) b Hb. rewrite !andb_true_iff, forallb_forall. split_and!.
    + rewrite bool_decide_false; [done | by apply V1].
    + intros i Hi. destruct (insts F !! i) as [J |] eqn:EJ; [| done].
      apply (V3 b i J); [done | by apply list_elem_of_In | done].
    + destruct (V2 b Hb) as (k & -> & Hk). done.
Qed.

(** The reports on the attributes and on the blocks that are not reached. *)
Definition flags_reported FI (V : VState) : VState :=
  let V := if f_isInline FI && f_isNoInline FI
           then logFunction FI "Function cannot be both 'inline' and 'noinline'" V else V in
  if f_isNaked FI && f_isInline FI then logFunction FI "Naked functions cannot be marked for inlining" V else V.

Definition unreached_reported F (R : list ref) (V : VState) : VState :=
  fold_left (fun V b => if bool_decide (b ∈ R) then V
                        else logBlock F "Block is unreachable from entry" b V) (blocks F) V.

Lemma decides_flags FI :
  decides (flags_reported FI) (negb (f_isInline FI && f_isNoInline FI) && negb (f_isNaked FI && f_isInline FI)).
Proof.
  intros V. unfold flags_reported. destruct (f_isInline FI), (f_isNoInline FI), (f_isNaked FI); cbn;
    split_and!; intros; try done; apply failed_log.
Qed.

Lemma decides_unreached F R : decides (unreached_reported F R) (forallb (fun b => bool_decide (b ∈ R)) (blocks F)).
Proof. apply decides_fold. intros b _. case_bool_decide; [apply decides_id | apply decides_log]. Qed.

(** The verification of a function with a body, as one check. *)
Lemma verifyFunction_answers E FI F :
  blocks F <> [] ->
  exists (f : VState -> option VState) (r b : bool), (forall V, verifyFunction E FI F V = finish <$> f V)
    /\ answers f r b /\ (r = true <-> function_readable E F) /\ (b = true <-> function_valid E FI F).
Proof.
  intros NB. destruct (reach_loop_entry F (getEntryBlock F)) as (R & ER & HR).
  set (un V := if bool_decide (nullptr ∈ R) then None else Some (unreached_reported F R V)).
  exists (fun V => V ← fold_some (fun V b => snd <$> verifyBlock E FI F b V) (blocks F) (flags_reported FI V); un V).
  exists (forallb (block_readable E F) (blocks F) && negb (bool_decide (nullptr ∈ R))).
  exists ((negb (f_isInline FI && f_isNoInline FI) && negb (f_isNaked FI && f_isInline FI))
    && (forallb (block_valid E FI F) (blocks F) && forallb (fun b => bool_decide (b ∈ R)) (blocks F))). split_and!.
  - intros V. unfold verifyFunction, isDeclaration. rewrite bool_decide_false by done.
    change (if f_isNaked FI && f_isInline FI then _ else _) with (flags_reported FI V).
    destruct (fold_some _ (blocks F) (flags_reported FI V)) as [V1 |]; [| done]. cbn [mbind option_bind].
    unfold checkUnreachableBlocks, un, unreached_reported. unfold getEntryBlock in ER. destruct (blocks F) as [| e l]; [done |].
    cbn [head default from_option id] in ER. rewrite ER. cbn [mbind option_bind]. by case_bool_decide.
  - refine (answers_then _ (fun V => V ← _ V; un V) _ _ _ (decides_flags FI) (answers_bind _ un _ _ _ _ (answers_blocks E FI F (blocks F)) _)).
    unfold un. case_bool_decide; cbn [negb]; [by intros V | apply answers_total, decides_unreached].
  - rewrite andb_true_iff, negb_true_iff, bool_decide_eq_false, blocks_readable, HR. split; [by intros []; split | by intros []].
  - rewrite !andb_true_iff, blocks_valid, <- andb_true_iff, <- function_valid_flags, forallb_forall.
    setoid_rewrite <- list_elem_of_In. setoid_rewrite bool_decide_eq_true. setoid_rewrite HR. split.
    + intros (Fl & (B1 & B2 & B3) & Re). by split.
    + intros [V1 V2 V3 V4 V5]. by split_and!.
Qed.

(** C12: the verifier of a function with a body.  When no check reads through a null pointer
    and no null pointer is recorded as a successor, it answers, and it answers [true], with no
    message, exactly for the valid functions: consistent inlining attributes, every block
    non-empty, reachable from the entry along the recorded successors and ended by a
    terminator, and every instruction valid in the sense of [inst_valid], which, as the code
    does and against its comment, says nothing of duplicate cases of a switch.  For any other
    such function it answers [false] and reports an error.  On the functions that are left it
    dereferences a null pointer. *)
Theorem verify_iff_valid E FI F :
  blocks F <> [] ->
  (function_readable E F ->
     exists ok V, verify E FI F = Some (ok, V)
       /\ (ok = true <-> function_valid E FI F)
       /\ (ok = true <-> errors V = []) /\ hasError V = negb ok)
  /\ (~ function_readable E F -> verify E FI F = None).
Proof.
  intros NB. destruct (verifyFunction_answers E FI F NB) as (f & r & b & Ef & D & Hr & Hb).
  specialize (D newVerifier). unfold verify. rewrite Ef, <- Hr. setoid_rewrite <- Hb. destruct r; split; try done.
  - intros _. destruct D as (V & -> & D1 & D2 & _). exists (negb (hasError V)), V. split; [done |]. destruct b.
    + rewrite D1 by done. done.
    + destruct (D2 eq_refl) as [D3 D4]. rewrite D3. done.
  - by rewrite D.
Qed.

#[export] Hint Resolve decides_id decides_log decides_check decides_comp : moksha.

(** Duplicate cases of a switch are not found: a second case for a value that already
    has one, to any block of the function, is accepted whenever the switch without it is. *)
Theorem duplicate_case_accepted E F cond d cases v b1 b2 J :
  verify_switch E F cond d cases J newVerifier = Some newVerifier ->
  (v, b1) ∈ cases -> inFunction F b2 = true -> b2 <> nullptr ->
  verify_switch E F cond d (cases ++ [(v, b2)]) J newVerifier = Some newVerifier.
Proof.
  intros A Hv Hb Nb. pose proof (answers_switch E F cond d cases J newVerifier) as D.
  pose proof (answers_switch E F cond d (cases ++ [(v, b2)]) J newVerifier) as D'. revert D D'.
  rewrite !forallb_app. cbn [forallb].
  change (case_valid E F cond (v, b2)) with (inFunction F b2 && N.eqb (getType E F v) (getType E F cond)
    && bool_decide (valueKind E F v = Some ValueKind.ConstantInt)). cbn [fst snd]. rewrite Hb, (proj2 (N.eqb_neq _ _) Nb).
  rewrite list_elem_of_In in Hv. destruct (_ && _ && negb (N.eqb d nullptr)) eqn:R; [| by rewrite A].
  rewrite !andb_true_iff, forallb_forall in R. destruct R as [[R1 R2] R3].
  pose proof (R2 _ Hv) as Rv. cbn in Rv. apply andb_true_iff in Rv as [_ Rv].
  destruct (isInteger E (getType E F cond) && inFunction F d && forallb (case_valid E F cond) cases) eqn:B.
  - rewrite !andb_true_iff, forallb_forall in B. destruct B as [[B1 B2] B3]. pose proof (B3 _ Hv) as Bv. unfold case_valid in Bv.
    rewrite !andb_true_iff in Bv. destruct Bv as [[_ Bv] Bk]. cbn [fst snd] in Bv, Bk.
    rewrite R1, R3, Rv, B1, B2, Bv, Bk, (proj2 (forallb_forall _ _) R2), (proj2 (forallb_forall _ _) B3). cbn.
    intros _ (V & -> & Q & _). by rewrite Q.
  - intros (V & E1 & _ & Q & _). rewrite A in E1. injection E1 as <-. by destruct (Q eq_refl).
Qed.

(** [switch (x) { case 7: ...; case 7: ...; default: ... }] on an argument [x]. *)
Definition dup_env : Env :=
  {| env_types := list_to_map [(1%N, HIRIntType 32 true false)]; env_fuel := 2;
     env_values := list_to_map
       [(50%N, {| v_kind := ValueKind.Argument; v_type := 1; v_params := [] |});
        (57%N, {| v_kind := ValueKind.ConstantInt; v_type := 1; v_params := [] |})] |}.

Definition dup_function : MIRFunction :=
  let J k := {| i_kind := k; i_type := nullptr; i_name := ""; i_loc := None; i_borrow := None; i_parent := 1 |} in
  let B l s := {| b_name := ""; instructions := l; predecessors := []; successors := s |} in
  {| insts := list_to_map [(11%N, J (SwitchInst 50 3 [(57%N, 2%N)]));
                           (12%N, J (ReturnInst nullptr)); (13%N, J (ReturnInst nullptr))];
     bbs := list_to_map [(1%N, B [11%N] [3%N; 2%N]); (2%N, B [12%N] []); (3%N, B [13%N] [])];
     blocks := [1%N; 2%N; 3%N]; next_ref := 100%N |}.

Definition void_function : FunctionInfo :=
  {| f_name := "f"; f_type := nullptr; f_isInline := false; f_isNoInline := false;
     f_isNaked := false |}.

Definition readable_b E F : bool :=
  forallb (block_readable E F) (blocks F)
  && match reach_loop F (reach_fuel F) [getEntryBlock F] [getEntryBlock F] with
     | Some R => negb (bool_decide (nullptr ∈ R))
     | None => false
     end.

Lemma readable_b_spec E F : readable_b E F = true <-> function_readable E F.
Proof.
  unfold readable_b. destruct (reach_loop_entry F (getEntryBlock F)) as (R & -> & HR).
  rewrite andb_true_iff, negb_true_iff, bool_decide_eq_false, blocks_readable, HR. split; [by intros []; split | by intros []].
Qed.

Lemma verify_iff_valid_witness :
  function_valid dup_env void_function dup_function /\
  exists V, verify dup_env void_function dup_function = Some (true, V).
Proof.
  destruct (verify_iff_valid dup_env void_function dup_function) as [A _].
  - by vm_compute.
  - destruct A as (ok & V & E & H & _); [apply readable_b_spec; by vm_compute |].
    assert (ok = true) as ->.
    { vm_compute in E. by injection E as <- _. }
    split; [by apply H | by exists V].
Defined.

Lemma duplicate_case_accepted_witness :
  let J := {| i_kind := UnreachableInst; i_type := nullptr; i_name := ""; i_loc := None;
              i_borrow := None; i_parent := 1 |} in
  verify_switch dup_env dup_function 50 3 [(57%N, 2%N); (57%N, 3%N)] J newVerifier = Some newVerifier.
Proof.
  intros J. apply (duplicate_case_accepted dup_env dup_function 50 3 [(57%N, 2%N)] 57 2 3 J).
  - by vm_compute.
  - left.
  - by vm_compute.
  - done.
Defined.

(** An invoke may have no unwind destination, and the verifier reads its parent. *)
Definition null_unwind : MIRFunction :=
  let J k := {| i_kind := k; i_type := nullptr; i_name := ""; i_loc := None; i_borrow := None; i_parent := 1 |} in
  let B l s := {| b_name := ""; instructions := l; predecessors := []; successors := s |} in
  {| insts := list_to_map [(11%N, J (InvokeInst 50 [] 2 nullptr)); (12%N, J (ReturnInst nullptr))];
     bbs := list_to_map [(1%N, B [11%N] [2%N]); (2%N, B [12%N] [])];
     blocks := [1%N; 2%N]; next_ref := 100%N |}.

Example null_unwind_crashes : verify dup_env void_function null_unwind = None.
Proof. by vm_compute. Qed.
